(* ===== verification/_CoqProject ===== *)
-Q . S2P
Prelude.v
Pointers.v
GoStrings.v
FilePath.v
SqlBuilder.v
Dao.v
Db.v
Pool.v
QueueRepo.v
QueueInv.v
QueueTree.v
QueueGet.v
QueueUpsert.v
QueueDelete.v
FlattenQueues.v
QueueTheorems.v
QueueEquiv.v
Upsert.v
AppRepo.v
AppQuery.v
StatusRepo.v
Repository.v
StatusTheorems.v
RepoInv.v
RepoConcur.v
RepoTypes.v
WebHelpers.v
AppTheorems.v
WorkQueue.v
Sync.v
RestClient.v
DataSync.v
SyncConcur.v
JobExec.v
JobLive.v
Events.v
EventTheorems.v
Health.v
Config.v
Logger.v
Migrations.v
Service.v
ServiceRun.v
Process.v
WebService.v
Commands.v
