(* ===== verification/Prelude.v ===== *)
(** * YuniKorn History Server

    A verification library for the history server of the YuniKorn scheduler
    (the Go module under [src/]).  The server keeps a record of what the
    scheduler did: it copies the scheduler's partitions, queues, nodes,
    applications and statistics into PostgreSQL, follows the scheduler's event
    stream, and answers queries about the past over HTTP.

    ** The program and where it is modelled

    Data flows from the scheduler through the service into the repository, and
    from the repository through the web service to the user.

    - Data objects: [Dao] holds the structures received from the scheduler and
      those of [internal/model/models.go].
    - Database: [Db] holds the tables of
      [migrations/20240628155246_init-tables.up.sql] as lists of rows, the monad
      [M] of repository code, a program logic for it ([wp], [keeps]) and the
      theory of tables with a unique key; [Upsert] the theory of loops of INSERT
      .. ON CONFLICT DO UPDATE; [Pool] goroutines that use one database at the
      same time, and the logic for calls that others interrupt.
    - Queues, [internal/database/repository/queue.go]: [QueueRepo] is the code;
      [QueueInv] the invariant of the table, [QueueTree], [QueueGet],
      [QueueUpsert] and [QueueDelete] the lemmas on the methods, [QueueTheorems]
      the theorems.
    - Applications, [application.go] and [filter.go] of the same package:
      [AppRepo], the meaning of the filters in [AppQuery], [AppTheorems].  The
      SELECT texts come from [internal/database/sql/builder.go] and
      [internal/util/util.go], modelled in [SqlBuilder] over exact strings.
    - Partitions, nodes, utilizations and history, [partitions.go], [node.go] and
      [history.go]: [StatusRepo] and [StatusTheorems].
    - The interface [internal/database/repository/repository.go]: the class
      [Repository], with [PostgresRepository] as its instance.  [RepoInv] holds the
      invariant of the whole database, [RepoConcur] proves it for calls whose
      statements interleave, [RepoTypes] holds the types of the columns, and
      [QueueEquiv] compares the two ways of reading a hierarchy.
    - Synchronisation, [internal/yunikorn/sync.go]: [FlattenQueues] for
      [flattenQueues], [Sync] for [sync] and its goroutines, against the interface
      [Client]; [RestClient] implements the interface as
      [internal/yunikorn/rest.go] does; [DataSync] joins the jobs of [sync] with
      the repository, attempt by attempt, and [SyncConcur] statement by statement.
    - Work queue, [internal/workqueue/workqueue.go]: [WorkQueue]; [JobExec] joins
      it with the database: the goroutines that it starts attempt their jobs as
      calls of a pool; [JobLive] is about its fair executions.
    - Events, [event_handler.go], [stream.go] and [service.go] of
      [internal/yunikorn] and [internal/database/repository/events.go]: [Events]
      and [EventTheorems].
    - The service, [internal/yunikorn/service.go]: [Service] for its construction
      and the periodic synchronisation, [ServiceRun] for the goroutines that
      [Service.Run] supervises.
    - Web service, [internal/webservice]: [WebHelpers] for the query parameters,
      [WebService] for construction, routes and answers, [FilePath] for the paths
      of the user interface; [internal/health]: [Health].
    - Configuration, connection strings and log levels, [internal/config],
      [internal/database/postgres] and [internal/log]: [Config]; the logger and the
      contexts that carry it: [Logger]; [internal/util]: [Pointers].
    - The program, [cmd/yunikorn-history-server]: [Commands] for what [Run] builds,
      in which order and with which errors, [Process] for the running process
      from its start to its end, [Migrations] for the migrate command and
      [internal/database/migrations].
    - [Prelude] (this file): errors, results, machine integers, interleavings and
      lemmas on lists; [GoStrings]: the functions of [fmt], [strings] and
      [strconv] that the sources use.

    ** How state and effects are represented

    A repository method is a value of the monad [M]: a sequence of actions on
    [world], which is the tables and the number of statements, identifiers and
    clock readings used so far.  An action draws an identifier, reads the clock
    or sends one statement, and what it returns decides what comes next.  A
    method applied to a world runs alone ([run]); in a [pool] the actions of
    several calls alternate, and what holds of one call under such interference
    is proved from a [Protocol] that all calls follow ([rg], [pool_sound]).
    What comes from outside is the class [Env]: the identifiers, the clock, the
    order in which an unordered scan returns its rows, the fate of every
    statement (delivered, lost before or after execution, or cut after some
    rows), and the answers to SELECT statements into which a group name with a
    quote has put text of the client.  The laws [EnvLaws] say that identifiers do
    not repeat, that a scan is a permutation, and that scanned values fit the Go
    variables they are scanned into.  No transaction is modelled because the sources open none:
    an error leaves the effects that precede it.  A Go [error] keeps the calls
    that built it, so that [errors.Is] is a function; nil maps, slices and
    pointers are [None]; integers keep their width where the code or a column
    limits them.  Goroutines are permutations of their completion order,
    interleavings of their effects, or a step relation where they share
    variables ([Sync.race_step], [WorkQueue.step], [JobExec.exec_step],
    [ServiceRun.service_step], [Process.process_step]).
    Code that the sources only call is a class with its documented laws: [Zap]
    and [ZapLaws] for the logging library, [RunGroup] and [RunGroupLaws] for
    [run.Group], [Migrator] and [MigratorLaws] for golang-migrate.  JSON decoding,
    the names of the scheduler's enumerations, the network, the file system and
    the server's reading of a BIGINT are parameters; every theorem about them has
    an instance at a concrete choice.

    ** What the theorems show

    - [RepoConcur.repository_invariant]: unique keys and identifiers and valid
      queue references in every reachable database, in any interleaving of the
      statements of any calls and whatever is lost on the way; acyclic parent
      links if [AddQueues] is only given parents that exist, and parents in the
      same partition if it is used for one partition or for root queues;
      [RepoConcur.calls_terminate]: no call waits for another.
    - [JobExec.executed_jobs_stored], from [SyncConcur.concurrent_syncs_stored], and
      the theorems of [Sync]: what synchronisations fetch is what is stored by
      the jobs that the work queue executes, for any number of synchronisations
      at the same time, next to the event collector and the web service, with
      statements lost and jobs repeated; which errors are reported, and that one
      can be lost.
    - [JobLive.sync_eventually_stored]: in a fair execution in which finitely many
      statements are lost and the server is not stopped, the queues and the
      applications of every synchronisation whose jobs were added are stored in
      the end and stay stored.
    - [QueueTheorems]: storing and reading back hierarchies, complete and
      terminating readers, deletion; the queue that cannot come back after
      deletion.
    - [AppTheorems], [SqlBuilder] and [WebService]: from the query string over the
      SQL text to the page of applications, if no group name holds a quote; with a
      quote, the client's text that the server executes ([AppTheorems.group_is_sql]);
      the columns of a stored application; an attempt repeated late that undoes
      newer data.
    - [StatusTheorems]: partitions, nodes and history; the job of the
      utilizations that cannot succeed.
    - [WorkQueue]: order, accounting and progress of jobs, retries and their
      waits; the panic of a blocked [Add] at shutdown.
    - [EventTheorems]: what events do to the cache, the database and the counts;
      which lines of a stream are handled, and when the collector stops.
    - [Health] and [RestClient]: readiness in any order of checks; response
      bodies.
    - [RepoTypes.repository_typed] and [QueueEquiv.GetQueue_agrees]: every stored
      value fits its column; both ways of reading a queue give the same tree.
    - [Config] and [Service]: which configurations are accepted, the settings that
      the connection string holds, and when the service synchronises.
    - [Migrations]: the outcome of the migrate command, which can be repeated.
    - [Process]: the process returns only after a signal, and stops after one; a
      signal during a synchronisation can crash it, and the first
      synchronisation can be lost.
    - [Commands] and [WebService]: what must succeed before the server starts; that
      handlers only read, and that every endpoint answers with the state of the
      tables at one moment; the files that the user interface can reach.

    ** Fuel

    The recursion over the children map ([getChildrenFromMap]) and over the
    generations of a recursive query is bounded by the number of rows plus one,
    which suffices because parent links are acyclic: the theorems assume exactly
    that bound and show that a result is returned.  [executeWithRetry] and
    [runEventCollector] take as fuel the number of iterations; the theorems name
    the iteration at which they end and assume only that the fuel exceeds it.

    ** What is not modelled

    The parsing of the command line (cobra), the router, the CORS filter and the
    encoding of JSON, the files that golang-migrate applies, and the generated
    mocks.  Statements are atomic: PostgreSQL executes each of them in a
    transaction of its own, and the two recursive readers are one statement each.
    A SELECT is taken not to write, also when a client has put text into it.
    Where several synchronisations are at work, [SyncConcur], [JobExec] and
    [JobLive] say that a row holds what one of them fetched, or what an event
    reported, and not which: the last statement decides, and an attempt that is
    repeated late can undo newer data ([AppTheorems.stale_attempt_wins]).  That
    goroutines are scheduled fairly, and that the database does not lose
    statements for ever, are assumptions on the Go runtime and on PostgreSQL, which
    only [JobLive] makes. *)
From stdpp Require Export base tactics option list gmap strings pretty relations.
From stdpp Require Export sorting.

#[global] Open Scope Z_scope.
Declare Scope go_scope.
Delimit Scope go_scope with go.

(** ** Go errors

    A Go [error] is kept as the tree of calls that built it.  [ErrMsg] is
    [errors.New] or a text without operand, [ErrPrefix] is
    [fmt.Errorf("prefix%v", err)], [ErrPrefixes] the same with a slice of
    errors, [ErrWrap] is [fmt.Errorf("prefix%w", err)] and the sentinels are the
    package-level error values that the sources compare with [errors.Is]. *)
Inductive sentinel :=
| ErrNotStarted
| EOF
| Canceled
| DeadlineExceeded
| ErrNoChange
| ErrNoRows.

#[export] Instance sentinel_eq_dec : EqDecision sentinel.
Proof. solve_decision. Defined.

Inductive num_error :=
| ErrSyntax
| ErrRange.

Inductive error :=
| ErrSentinel (s : sentinel)
| ErrMsg (msg : string)
| ErrPrefix (prefix : string) (e : error)
| ErrPrefixes (prefix : string) (es : list error)
| ErrWrap (prefix : string) (e : error)
| ErrNum (fn num : string) (k : num_error).

(** [errors.Is(err, target)] for a sentinel target: only [%w] is unwrapped. *)
Fixpoint errors_Is (e : error) (s : sentinel) : bool :=
  match e with
  | ErrSentinel s' => bool_decide (s' = s)
  | ErrWrap _ e' => errors_Is e' s
  | _ => false
  end.

(** An error matches at most one sentinel. *)
Lemma errors_Is_sentinel e s s' : errors_Is e s = true → s ≠ s' → errors_Is e s' = false.
Proof.
  intros He Hne. induction e as [s0| | | | ? e IH|]; try done; cbn in *; [|by apply IH].
  apply bool_decide_eq_true in He as ->. by apply bool_decide_eq_false.
Qed.

(** The pair [(value, error)] that a fallible Go function returns. *)
Inductive result (A : Type) :=
| Ok (a : A)
| Err (e : error).
Arguments Ok {A} a.
Arguments Err {A} e.

Definition is_ok {A} (r : result A) : bool :=
  match r with Ok _ => true | Err _ => false end.

#[export] Instance result_ret : MRet result := @Ok.
#[export] Instance result_bind : MBind result := λ A B f r,
  match r with Ok a => f a | Err e => Err e end.

(** ** Machine integers *)
Definition wrap (w z : Z) : Z := (z + 2 ^ (w - 1)) `mod` 2 ^ w - 2 ^ (w - 1).
Abbreviation wrap64 := (wrap 64).
Abbreviation wrap32 := (wrap 32).
Abbreviation wrap8 := (wrap 8).

Definition in_range (w z : Z) : bool := (- 2 ^ (w - 1) <=? z) && (z <? 2 ^ (w - 1)).

Lemma wrap_id w z : 0 < w → - 2 ^ (w - 1) ≤ z < 2 ^ (w - 1) → wrap w z = z.
Proof.
  intros Hw Hz. unfold wrap.
  assert (2 ^ w = 2 * 2 ^ (w - 1)) as Heq.
  { rewrite <- Z.pow_succ_r by lia. f_equal; lia. }
  rewrite Z.mod_small; lia.
Qed.

Lemma wrap_range w z : 0 < w → - 2 ^ (w - 1) ≤ wrap w z < 2 ^ (w - 1).
Proof.
  intros Hw. unfold wrap.
  assert (2 ^ w = 2 * 2 ^ (w - 1)) as Heq.
  { rewrite <- Z.pow_succ_r by lia. f_equal; lia. }
  pose proof (Z.mod_pos_bound (z + 2 ^ (w - 1)) (2 ^ w)).
  assert (0 < 2 ^ w) by (apply Z.pow_pos_nonneg; lia). lia.
Qed.

Lemma in_range_bounds w z : in_range w z → - 2 ^ (w - 1) ≤ z < 2 ^ (w - 1).
Proof. unfold in_range. rewrite andb_True, !Is_true_true. lia. Qed.

(** ** Lists *)
Lemma Forall2_in_l {A B} (R : A → B → Prop) l k x :
  Forall2 R l k → x ∈ l → ∃ y, y ∈ k ∧ R x y.
Proof. induction 1 as [|x' y' l k Hxy _ IH]; [set_solver|]. set_solver. Qed.

Lemma bind_ext_elem {A B} (f g : A → list B) l : (∀ x, x ∈ l → f x = g x) → l ≫= f = l ≫= g.
Proof.
  induction l as [|x l IH]; intros Hfg; [done|]. rewrite !bind_cons. f_equal; [|apply IH]; set_solver.
Qed.

Lemma fmap_bind {A B C} (f : B → C) (g : A → list B) (l : list A) :
  f <$> (l ≫= g) = l ≫= λ x, f <$> g x.
Proof. induction l as [|x l IH]; [done|]. by rewrite !bind_cons, fmap_app, IH. Qed.

Lemma NoDup_fmap_inj_in {A B} (f : A → B) l x y :
  NoDup (f <$> l) → x ∈ l → y ∈ l → f x = f y → x = y.
Proof.
  induction l as [|z l IH]; [set_solver|]. rewrite fmap_cons, NoDup_cons, !elem_of_cons.
  intros [Hz Hnd] [-> |Hx] [-> |Hy] Heq; [done| | |by apply IH].
  - destruct Hz. rewrite Heq. by apply list_elem_of_fmap_2.
  - destruct Hz. rewrite <- Heq. by apply list_elem_of_fmap_2.
Qed.

Lemma filter_all {A} (P : A → Prop) `{!∀ x, Decision (P x)} (l : list A) : (∀ x, x ∈ l → P x) → filter P l = l.
Proof.
  induction l as [|x l IH]; intros HP; [done|]. rewrite filter_cons_True by (apply HP; set_solver).
  f_equal. apply IH. set_solver.
Qed.

(** ** Interleavings

    The sequences in which the elements of several lists can come when each list
    keeps its order. *)
Inductive interleaving {A} : list (list A) → list A → Prop :=
| interleaving_nil ls : Forall (λ l, l = []) ls → interleaving ls []
| interleaving_cons l1 x l l2 r :
    interleaving (l1 ++ l :: l2) r → interleaving (l1 ++ (x :: l) :: l2) (x :: r).

Lemma interleaving_perm {A} (ls : list (list A)) r : interleaving ls r → r ≡ₚ concat ls.
Proof.
  induction 1 as [ls Hls|l1 x l l2 r _ IH].
  - induction Hls as [|l ls -> _ IH]; [done|exact IH].
  - rewrite IH, !concat_app. cbn. apply Permutation_middle.
Qed.

Lemma interleaving_sublist {A} (ls : list (list A)) r l : interleaving ls r → l ∈ ls → l `sublist_of` r.
Proof.
  intros Hint. revert l. induction Hint as [ls Hls|l1 x l0 l2 r _ IH]; intros l.
  - intros Hl. rewrite Forall_forall in Hls. by rewrite (Hls l Hl).
  - intros [Hl|[-> |Hl]%elem_of_cons]%elem_of_app; [apply sublist_cons, IH; set_solver| |apply sublist_cons, IH; set_solver].
    apply sublist_skip, IH. set_solver.
Qed.

Lemma interleaving_skip {A} (ls : list (list A)) r : interleaving ls r → interleaving ([] :: ls) r.
Proof.
  induction 1 as [ls Hls|l1 x l l2 r _ IH]; [by repeat constructor|]. apply (interleaving_cons ([] :: l1)), IH.
Qed.

(** One list after the other. *)
Lemma interleaving_concat {A} (ls : list (list A)) : interleaving ls (concat ls).
Proof.
  induction ls as [|l ls IH]; [by constructor|]. induction l as [|x l IHl]; [by apply interleaving_skip|].
  apply (interleaving_cons []), IHl.
Qed.
