(* ===== verification/Pointers.v ===== *)
(** * Pointers to values

    [ToPtr] and [ToPtrSlice] of [internal/util/util.go] over a heap of cells: a
    pointer is the index of a cell, and taking the address of a variable that
    escapes allocates one. *)
From S2P Require Import Prelude.

Section pointers.
Context {T : Type}.

Abbreviation heap := (list T).
Abbreviation ptr := nat (only parsing).

Definition deref (h : heap) (p : ptr) : option T := h !! p.
Definition assign (h : heap) (p : ptr) (x : T) : heap := <[p := x]> h.

Definition ToPtr (x : T) (h : heap) : ptr * heap := (length h, h ++ [x]).

(** [x := x] declares a new variable in every iteration. *)
Fixpoint ToPtrSlice_loop (result : list ptr) (slice : list T) (h : heap) : list ptr * heap :=
  match slice with
  | [] => (result, h)
  | x :: slice' => let '(p, h') := ToPtr x h in ToPtrSlice_loop (result ++ [p]) slice' h'
  end.

Definition ToPtrSlice (slice : list T) (h : heap) : list ptr * heap := ToPtrSlice_loop [] slice h.

Lemma ToPtrSlice_loop_spec result slice h :
  ToPtrSlice_loop result slice h = (result ++ seq (length h) (length slice), h ++ slice).
Proof.
  revert result h. induction slice as [|x slice IH]; intros result h; cbn; [by rewrite !app_nil_r|].
  rewrite IH, length_app, <- !app_assoc. cbn. by rewrite Nat.add_1_r.
Qed.

(** One pointer per item, in order, each to a new cell of its own: writing
    through a pointer changes the item of that position only, and nothing that
    was on the heap before. *)
Theorem ToPtrSlice_correct slice h :
  let '(ps, h') := ToPtrSlice slice h in
  NoDup ps ∧ deref h' <$> ps = Some <$> slice ∧
  (∀ p x, deref h p = Some x → p ∉ ps ∧ deref h' p = Some x) ∧
  ∀ i p y, ps !! i = Some p → deref (assign h' p y) <$> ps = Some <$> <[i := y]> slice.
Proof.
  unfold ToPtrSlice. rewrite ToPtrSlice_loop_spec. cbn [app].
  assert (∀ l : list T, length l = length slice → deref (h ++ l) <$> seq (length h) (length slice) = Some <$> l) as Hread.
  { intros l Hl. rewrite <- Hl. apply list_eq. intros i. rewrite !list_lookup_fmap. unfold deref.
    destruct (decide (i < length l)%nat) as [Hi|Hi].
    - rewrite lookup_seq_lt by done. cbn. rewrite lookup_app_r by lia. replace (length h + i - length h)%nat with i by lia.
      by destruct (lookup_lt_is_Some_2 l i Hi) as [x ->].
    - rewrite lookup_seq_ge by lia. by rewrite lookup_ge_None_2 by lia. }
  split_and!; [apply NoDup_seq|by apply Hread| |].
  - intros p x Hp. pose proof (lookup_lt_Some _ _ _ Hp) as Hlt. split; [rewrite elem_of_seq; lia|].
    unfold deref. by rewrite lookup_app_l.
  - intros i p y Hi. apply lookup_seq in Hi as [-> Hi]. unfold assign. rewrite insert_app_r_alt by lia.
    replace (length h + i - length h)%nat with i by lia. apply Hread. apply length_insert.
Qed.

End pointers.

Example ToPtrSlice_sample : ToPtrSlice [5; 6] [1] = ([1%nat; 2%nat], [1; 5; 6]).
Proof. reflexivity. Qed.
