(* ===== verification/GoStrings.v ===== *)
(** * Go's string functions

    What the sources use of [fmt], [strings] and [strconv]: [fmt.Sprintf] with
    the verbs [%s], [%d] and [%v], [strings.Join], [strings.Split] on a
    one-character separator, [strconv.ParseInt] in base 10 and [strconv.Atoi]. *)
From S2P Require Import Prelude.
From Stdlib Require Import Ascii.

(** ** Formatting *)

(** Operands of dynamic type ([any]). *)
Inductive any :=
| AnyInt (z : Z)
| AnyInt64 (z : Z)
| AnyString (s : string).

#[export] Instance any_eq_dec : EqDecision any.
Proof. solve_decision. Defined.

Definition any_type (a : any) : string :=
  match a with AnyInt _ => "int" | AnyInt64 _ => "int64" | AnyString _ => "string" end.

Definition any_value (a : any) : string :=
  match a with AnyInt z | AnyInt64 z => pretty z | AnyString s => s end.

Definition type_eq_value (a : any) : string := any_type a +:+ "=" +:+ any_value a.

(** [strings.Join]. *)
Fixpoint strings_Join (l : list string) (sep : string) : string :=
  match l with
  | [] => ""
  | [s] => s
  | s :: l' => s +:+ sep +:+ strings_Join l' sep
  end.

(** One verb applied to one operand; a wrong pair prints [%!verb(type=value)]. *)
Definition format_verb (verb : ascii) (a : any) : string :=
  let bad := "%!" +:+ String verb "" +:+ "(" +:+ type_eq_value a +:+ ")" in
  match a with
  | AnyInt z | AnyInt64 z =>
      if decide (verb = "d"%char ∨ verb = "v"%char) then pretty z else bad
  | AnyString s =>
      if decide (verb = "s"%char ∨ verb = "v"%char) then s else bad
  end.

Fixpoint Sprintf (format : string) (args : list any) : string :=
  match format with
  | EmptyString =>
      match args with
      | [] => ""
      | _ => "%!(EXTRA " +:+ strings_Join (type_eq_value <$> args) ", " +:+ ")"
      end
  | String "%" EmptyString => "%!(NOVERB)"
  | String "%" (String "%" format') => "%" +:+ Sprintf format' args
  | String "%" (String verb format') =>
      match args with
      | [] => "%!" +:+ String verb "" +:+ "(MISSING)" +:+ Sprintf format' []
      | a :: args' => format_verb verb a +:+ Sprintf format' args'
      end
  | String c format' => String c (Sprintf format' args)
  end.

(** ** Splitting *)
Fixpoint no_char (c : ascii) (s : string) : bool :=
  match s with
  | EmptyString => true
  | String c' s' => negb (bool_decide (c' = c)) && no_char c s'
  end.

(** [strings.Split(s, sep)] for a separator of one character. *)
Fixpoint strings_Split (s : string) (sep : ascii) : list string :=
  match s with
  | EmptyString => [""]
  | String c s' =>
      if decide (c = sep) then "" :: strings_Split s' sep
      else match strings_Split s' sep with
           | [] => [String c ""]
           | w :: ws => String c w :: ws
           end
  end.

(** ** Parsing integers *)

(** The loop of [strconv.ParseUint] in base 10: the accumulator [n] must stay
    at most [2^bits - 1]; the first bad character or overflow ends the loop. *)
Fixpoint parse_uint (bits n : Z) (s : string) : num_error + Z :=
  match s with
  | EmptyString => inr n
  | String c s' =>
      match Ascii.is_nat c with
      | None => inl ErrSyntax
      | Some d =>
          let n1 := n * 10 + Z.of_nat d in
          if bool_decide (n1 < 2 ^ bits) then parse_uint bits n1 s' else inl ErrRange
      end
  end.

Definition parse_sign (s : string) : bool * string :=
  match s with
  | String "+" s' => (false, s')
  | String "-" s' => (true, s')
  | _ => (false, s)
  end.

Definition parse_int_with (fn : string) (bits : Z) (s : string) : result Z :=
  let '(neg, digits) := parse_sign s in
  match digits with
  | EmptyString => Err (ErrNum fn s ErrSyntax)
  | _ =>
      match parse_uint bits 0 digits with
      | inl k => Err (ErrNum fn s k)
      | inr un =>
          if neg
          then if bool_decide (un ≤ 2 ^ (bits - 1)) then Ok (- un) else Err (ErrNum fn s ErrRange)
          else if bool_decide (un < 2 ^ (bits - 1)) then Ok un else Err (ErrNum fn s ErrRange)
      end
  end.

(** [strconv.ParseInt(s, 10, bits)] and [strconv.Atoi] ([int] has 64 bits). *)
Definition strconv_ParseInt (s : string) (bits : Z) : result Z := parse_int_with "ParseInt" bits s.
Definition strconv_Atoi (s : string) : result Z := parse_int_with "Atoi" 64 s.

(** ** Lemmas on append *)
Lemma string_app_cons c s1 s2 : String c s1 +:+ s2 = String c (s1 +:+ s2).
Proof. done. Qed.

Lemma string_app_nil_r s : s +:+ "" = s.
Proof. induction s as [|c s IH]; [done|]. by rewrite string_app_cons, IH. Qed.

Lemma string_app_assoc s1 s2 s3 : s1 +:+ s2 +:+ s3 = (s1 +:+ s2) +:+ s3.
Proof. induction s1 as [|c s1 IH]; [done|]. by rewrite !string_app_cons, IH. Qed.

Lemma string_app_inj_l s s1 s2 : s +:+ s1 = s +:+ s2 → s1 = s2.
Proof. apply String.app_inj. Qed.

Lemma string_length_app s1 s2 :
  String.length (s1 +:+ s2) = (String.length s1 + String.length s2)%nat.
Proof. induction s1 as [|c s1 IH]; [done|]. rewrite string_app_cons. cbn. by rewrite IH. Qed.

Lemma string_app_inj_r s1 s2 s : s1 +:+ s = s2 +:+ s → s1 = s2.
Proof.
  revert s2. induction s1 as [|c s1 IH]; intros [|c2 s2] Heq; [done|..].
  - apply (f_equal String.length) in Heq. rewrite !string_length_app in Heq. cbn in Heq. lia.
  - apply (f_equal String.length) in Heq. rewrite !string_length_app in Heq. cbn in Heq. lia.
  - rewrite !string_app_cons in Heq. simplify_eq. f_equal. eauto.
Qed.

Lemma no_char_app c s1 s2 : no_char c (s1 +:+ s2) = no_char c s1 && no_char c s2.
Proof. induction s1 as [|c1 s1 IH]; [done|]. rewrite string_app_cons. cbn. rewrite IH. by rewrite andb_assoc. Qed.

Create Rewrite HintDb gostrings.
#[export] Hint Rewrite string_app_nil_r string_length_app no_char_app : gostrings.

(** ** Join and Split *)
Lemma strings_Join_cons s s2 l sep :
  strings_Join (s :: s2 :: l) sep = s +:+ sep +:+ strings_Join (s2 :: l) sep.
Proof. done. Qed.

Lemma strings_Split_not_nil s sep : strings_Split s sep ≠ [].
Proof. destruct s as [|c s]; [done|]. cbn. case_decide; [done|]. by case_match. Qed.

(** A word without the separator is not split; the first separator after it is. *)
Lemma strings_Split_word s sep : no_char sep s = true → strings_Split s sep = [s].
Proof.
  induction s as [|c s IH]; [done|]. cbn. rewrite andb_true_iff. intros [Hc Hs].
  case_decide as Hcd; [by rewrite bool_decide_true in Hc|]. by rewrite IH.
Qed.

Lemma strings_Split_app s sep rest :
  no_char sep s = true →
  strings_Split (s +:+ String sep "" +:+ rest) sep = s :: strings_Split rest sep.
Proof.
  induction s as [|c s IH].
  - intros _. change (strings_Split (String sep rest) sep = "" :: strings_Split rest sep).
    cbn [strings_Split]. by rewrite decide_True.
  - cbn [no_char]. rewrite andb_true_iff. intros [Hc Hs]. rewrite string_app_cons.
    cbn [strings_Split]. case_decide as Hcd; [by rewrite bool_decide_true in Hc|]. by rewrite IH.
Qed.

(** Splitting loses nothing. *)
Lemma strings_Join_Split s sep : strings_Join (strings_Split s sep) (String sep "") = s.
Proof.
  induction s as [|c s IH]; [done|]. cbn [strings_Split].
  destruct (strings_Split s sep) as [|w ws] eqn:Hs; [by destruct (strings_Split_not_nil s sep)|].
  case_decide as Hc.
  - subst c. change (String sep "" +:+ strings_Join (w :: ws) (String sep "") = String sep s).
    by rewrite IH.
  - destruct ws as [|w2 ws]; cbn [strings_Join] in *; [by subst|].
    rewrite string_app_cons. by rewrite IH.
Qed.

Lemma strings_Split_Join l sep :
  l ≠ [] → Forall (λ s, no_char sep s = true) l →
  strings_Split (strings_Join l (String sep "")) sep = l.
Proof.
  intros Hne Hall. induction Hall as [|s l Hs Hl IH]; [done|].
  destruct l as [|s2 l]; cbn [strings_Join].
  - by apply strings_Split_word.
  - rewrite strings_Split_app by done. f_equal. by apply IH.
Qed.

(** ** Printing and parsing integers *)
Lemma is_nat_pretty_N_char x :
  (x < 10)%N → Ascii.is_nat (pretty_N_char x) = Some (N.to_nat x).
Proof.
  intros Hx.
  assert (x = 0 ∨ x = 1 ∨ x = 2 ∨ x = 3 ∨ x = 4 ∨ x = 5 ∨ x = 6 ∨ x = 7 ∨ x = 8 ∨ x = 9)%N as Hc by lia.
  by repeat destruct Hc as [->|Hc]; [..|subst].
Qed.

Lemma parse_uint_pretty bits x s :
  Z.of_N x < 2 ^ bits → parse_uint bits 0 (pretty_N_go x s) = parse_uint bits (Z.of_N x) s.
Proof.
  revert s. induction (N.lt_wf_0 x) as [x _ IH]. intros s Hx.
  destruct (decide (x = 0%N)) as [->|Hne]; [by rewrite pretty_N_go_0|].
  rewrite pretty_N_go_step by lia.
  assert (x = 10 * (x `div` 10) + x `mod` 10)%N as Hdm by (apply N.div_mod; lia).
  assert (x `mod` 10 < 10)%N by (apply N.mod_lt; lia).
  assert (x `div` 10 < x)%N as Hlt by (apply N.div_lt; lia).
  rewrite IH by (done || (clear -Hlt Hx; lia)). cbn [parse_uint]. rewrite is_nat_pretty_N_char by done.
  assert (Z.of_N (x `div` 10) * 10 + Z.of_nat (N.to_nat (x `mod` 10)) = Z.of_N x) as -> by lia.
  by rewrite bool_decide_true.
Qed.

Lemma pretty_N_go_digit x s :
  (0 < x)%N → ∃ c s' d, pretty_N_go x s = String c s' ∧ Ascii.is_nat c = Some d.
Proof.
  revert s. induction (N.lt_wf_0 x) as [x _ IH]. intros s Hx.
  rewrite pretty_N_go_step by done.
  destruct (decide (x `div` 10 = 0)%N) as [->|Hd].
  - rewrite pretty_N_go_0. eexists _, _, _. split; [done|]. apply is_nat_pretty_N_char, N.mod_lt. lia.
  - apply IH; [apply N.div_lt; lia|by apply N.neq_0_lt_0].
Qed.

Lemma parse_sign_digit c s d : Ascii.is_nat c = Some d → parse_sign (String c s) = (false, String c s).
Proof. destruct c as [[][][][][][][][]]; done. Qed.

Lemma parse_int_with_digits fn bits s neg digits un :
  parse_sign s = (neg, digits) → digits ≠ "" → parse_uint bits 0 digits = inr un →
  parse_int_with fn bits s =
    if neg
    then if bool_decide (un ≤ 2 ^ (bits - 1)) then Ok (- un) else Err (ErrNum fn s ErrRange)
    else if bool_decide (un < 2 ^ (bits - 1)) then Ok un else Err (ErrNum fn s ErrRange).
Proof. unfold parse_int_with. intros -> Hne ->. by destruct digits. Qed.

Lemma pretty_positive_digits (p : positive) : ∃ c s d,
  pretty p = String c s ∧ Ascii.is_nat c = Some d ∧ pretty p = pretty_N_go (Npos p) "".
Proof.
  destruct (pretty_N_go_digit (Npos p) "") as (c & s & d & Heq & Hd); [lia|].
  exists c, s, d. unfold pretty, pretty_positive, pretty, pretty_N. by rewrite decide_False.
Qed.

Lemma parse_uint_pretty_positive bits p :
  Zpos p < 2 ^ bits → parse_uint bits 0 (pretty p) = inr (Zpos p).
Proof.
  intros Hp. destruct (pretty_positive_digits p) as (c & s & d & _ & _ & ->).
  by rewrite parse_uint_pretty.
Qed.

Lemma parse_int_pretty_pos fn bits p :
  0 < bits → Zpos p < 2 ^ (bits - 1) → parse_int_with fn bits (pretty p) = Ok (Zpos p).
Proof.
  intros Hb Hp. destruct (pretty_positive_digits p) as (c & s & d & Heq & Hd & _).
  assert (2 ^ (bits - 1) ≤ 2 ^ bits) by (apply Z.pow_le_mono_r; lia).
  rewrite (parse_int_with_digits fn bits (pretty p) false (pretty p) (Zpos p)).
  - by rewrite bool_decide_true.
  - rewrite Heq. by eapply parse_sign_digit.
  - by rewrite Heq.
  - apply parse_uint_pretty_positive. lia.
Qed.

Lemma parse_int_pretty_neg fn bits p :
  0 < bits → Zpos p ≤ 2 ^ (bits - 1) → parse_int_with fn bits ("-" +:+ pretty p) = Ok (Zneg p).
Proof.
  intros Hb Hp. destruct (pretty_positive_digits p) as (c & s & d & Heq & Hd & _).
  assert (2 ^ bits = 2 * 2 ^ (bits - 1)) by (rewrite <- Z.pow_succ_r by lia; f_equal; lia).
  rewrite (parse_int_with_digits fn bits _ true (pretty p) (Zpos p)).
  - by rewrite bool_decide_true.
  - done.
  - by rewrite Heq.
  - apply parse_uint_pretty_positive. lia.
Qed.

(** Printing with [%d] and parsing with [ParseInt] or [Atoi] is the identity on
    the integers of the width. *)
Lemma parse_int_pretty fn bits z :
  0 < bits → - 2 ^ (bits - 1) ≤ z < 2 ^ (bits - 1) → parse_int_with fn bits (pretty z) = Ok z.
Proof.
  intros Hb Hz. destruct z as [|p|p].
  - assert (0 < 2 ^ bits) by (apply Z.pow_pos_nonneg; lia).
    rewrite (parse_int_with_digits fn bits (pretty 0) false "0" 0); [..|done|].
    + rewrite bool_decide_true; [done|lia].
    + done.
    + cbn [parse_uint Ascii.is_nat]. by rewrite bool_decide_true.
  - apply parse_int_pretty_pos; lia.
  - apply parse_int_pretty_neg; lia.
Qed.

(** A parse that succeeds is in range. *)
Lemma parse_uint_range bits n s un :
  0 ≤ n → parse_uint bits n s = inr un → 0 ≤ un.
Proof.
  revert n. induction s as [|c s IH]; intros n Hn Heq; simpl in Heq; [by simplify_eq|].
  destruct (Ascii.is_nat c) as [d|]; [|done].
  destruct (bool_decide _); [|done]. eapply IH; [|done]. lia.
Qed.

Lemma parse_int_range fn bits s z :
  parse_int_with fn bits s = Ok z → - 2 ^ (bits - 1) ≤ z < 2 ^ (bits - 1) ∨ bits ≤ 0.
Proof.
  unfold parse_int_with. destruct (parse_sign s) as [neg digits]. destruct digits as [|c digits]; [done|].
  destruct (parse_uint _ _ _) as [k|un] eqn:Hp; [done|].
  apply parse_uint_range in Hp; [|lia].
  destruct (decide (bits ≤ 0)) as [|Hb]; [by right|].
  assert (0 < 2 ^ (bits - 1)) by (apply Z.pow_pos_nonneg; lia).
  intros Heq. left. destruct neg; case_bool_decide; simplify_eq; lia.
Qed.

(** A printed integer holds digits and a sign only. *)
Lemma no_char_pretty_N_go c x s :
  Ascii.is_nat c = None → no_char c s = true → no_char c (pretty_N_go x s) = true.
Proof.
  intros Hc. revert s. induction (N.lt_wf_0 x) as [x _ IH]. intros s Hs.
  destruct (decide (x = 0%N)) as [->|Hne]; [by rewrite pretty_N_go_0|].
  rewrite pretty_N_go_step by lia. apply IH; [apply N.div_lt; lia|]. cbn [no_char].
  rewrite bool_decide_false; [done|]. intros Heq.
  assert (Ascii.is_nat (pretty_N_char (x `mod` 10)) = Some (N.to_nat (x `mod` 10))) as Hd.
  { apply is_nat_pretty_N_char, N.mod_lt. lia. }
  congruence.
Qed.

Lemma no_char_pretty_Z c (z : Z) : Ascii.is_nat c = None → c ≠ "-"%char → no_char c (pretty z) = true.
Proof.
  intros Hc Hm. assert (∀ p : positive, no_char c (pretty p) = true) as Hpos.
  { intros p. destruct (pretty_positive_digits p) as (? & ? & ? & _ & _ & ->). by apply no_char_pretty_N_go. }
  destruct z as [|p|p]; [|apply Hpos|].
  - change (pretty 0) with "0". cbn [no_char]. rewrite bool_decide_false; [done|]. by intros <-.
  - change (pretty (Z.neg p)) with (String "-" (pretty p)). cbn [no_char].
    rewrite bool_decide_false by congruence. apply Hpos.
Qed.
