(* ===== verification/FilePath.v ===== *)
(** * File paths

    The functions of [path], [path/filepath] (on Unix) and [net/http] through
    which [serveSPA] of [internal/webservice/routes.go] turns the path of a
    request into the path of a file: [Clean], [Join], [http.ServeFile] and
    [http.FileServer] over [http.Dir].  A path is a string; its elements are what
    stands between slashes. *)
From S2P Require Import Prelude GoStrings.
From Stdlib Require Import Ascii.

Definition slash : ascii := "/"%char.

Definition IsAbs (p : string) : bool :=
  match p with String c _ => bool_decide (c = slash) | EmptyString => false end.

(** An element is read while the elements kept so far are on the stack: empty
    elements and [.] are dropped, [..] removes the element before it, if that is
    not [..] itself, and cannot leave the root. *)
Definition push (rooted : bool) (stack : list string) (elem : string) : list string :=
  if decide (elem = "" ∨ elem = ".") then stack
  else if decide (elem = "..") then
    match stack with
    | [] => if rooted then [] else [".."]
    | top :: rest => if decide (top = "..") then ".." :: stack else rest
    end
  else elem :: stack.

Definition elements (rooted : bool) (elems : list string) : list string :=
  rev (foldl (push rooted) [] elems).

Definition path_elements (p : string) : list string := elements (IsAbs p) (strings_Split p slash).

(** [filepath.Clean]; [path.Clean] is the same function on Unix. *)
Definition Clean (p : string) : string :=
  let body := strings_Join (path_elements p) "/" in
  if IsAbs p then "/" +:+ body else if decide (body = "") then "." else body.

(** [filepath.Join]: leading empty elements are ignored. *)
Fixpoint filepath_Join (elem : list string) : string :=
  match elem with
  | [] => ""
  | e :: elem' => if decide (e = "") then filepath_Join elem' else Clean (strings_Join elem "/")
  end.

Example clean_samples :
  Clean "" = "." ∧ Clean "/" = "/" ∧ Clean "/../a//b/./../c/" = "/a/c" ∧ Clean "a/../../b" = "../b" ∧
  filepath_Join ["assets"; "/css/main.css"] = "assets/css/main.css" ∧ filepath_Join ["assets"; "/../go.mod"] = "go.mod" ∧
  filepath_Join [""; "/etc"] = "/etc".
Proof. vm_compute. done. Qed.

(** ** Normal element lists *)
Definition ordinary (e : string) : Prop := e ≠ "" ∧ e ≠ "." ∧ e ≠ ".." ∧ no_char slash e = true.

(** The elements of a clean path: [..] only in front, and not below the root. *)
Definition normal (rooted : bool) (l : list string) : Prop :=
  ∃ k os, l = repeat ".." k ++ os ∧ Forall ordinary os ∧ (rooted = true → k = O).

Lemma push_ordinary r st e : ordinary e → push r st e = e :: st.
Proof. intros (? & ? & ? & _). unfold push. rewrite decide_False by naive_solver. by rewrite decide_False. Qed.

Lemma push_empty r st : push r st "" = st.
Proof. done. Qed.

Lemma push_all_ordinary r st os : Forall ordinary os → foldl (push r) st os = rev os ++ st.
Proof.
  revert st. induction os as [|e os IH]; intros st Hall; [done|]. apply Forall_cons in Hall as [He Hos].
  cbn [foldl rev]. by rewrite push_ordinary, IH, <- app_assoc.
Qed.

Lemma split_no_char s c : Forall (λ e, no_char c e = true) (strings_Split s c).
Proof.
  induction s as [|c' s IH]; [by repeat constructor|]. cbn [strings_Split].
  case_decide as Hc; [by constructor|].
  destruct (strings_Split s c) as [|e es] eqn:Hs; [by destruct (strings_Split_not_nil s c)|].
  apply Forall_cons in IH as [He Hes]. constructor; [|done]. cbn. by rewrite bool_decide_false.
Qed.

Lemma strings_Split_slash a b : strings_Split (a +:+ "/" +:+ b) slash = strings_Split a slash ++ strings_Split b slash.
Proof.
  induction a as [|c a IH]; [done|]. rewrite string_app_cons. cbn [strings_Split]. rewrite IH.
  case_decide; [done|]. pose proof (strings_Split_not_nil a slash) as Hne.
  by destruct (strings_Split a slash) as [|e es].
Qed.

Lemma push_normal r l e :
  no_char slash e = true → normal r l → normal r (rev (push r (rev l) e)).
Proof.
  intros He (k & os & -> & Hos & Hk). unfold push. case_decide as Hdrop.
  { rewrite rev_involutive. by exists k, os. }
  case_decide as Hdd.
  - rewrite rev_app_distr. destruct os as [|o os _] using rev_ind.
    + cbn [rev app]. destruct k as [|k].
      * destruct r; [by exists O, []|]. by exists 1%nat, [].
      * rewrite rev_repeat. cbn [repeat]. rewrite decide_True by done. exists (S (S k)), [].
        split; [|split; [done|by intros Hr; specialize (Hk Hr)]]. rewrite app_nil_r. apply (rev_repeat (S (S k)) "..").
    + rewrite rev_app_distr. cbn [rev app]. apply Forall_app in Hos as [Hos Ho]. rewrite Forall_singleton in Ho.
      rewrite decide_False by apply Ho. exists k, os. split; [|done].
      by rewrite rev_app_distr, !rev_involutive.
  - cbn [rev]. rewrite rev_involutive, <- app_assoc. exists k, (os ++ [e]). split; [done|]. split; [|done].
    apply Forall_app. split; [done|]. apply Forall_singleton. unfold ordinary. naive_solver.
Qed.

Lemma foldl_normal r cs l :
  Forall (λ e, no_char slash e = true) cs → normal r l → normal r (rev (foldl (push r) (rev l) cs)).
Proof.
  intros Hcs. revert l. induction Hcs as [|e cs He _ IH]; intros l Hl; cbn [foldl]; [by rewrite rev_involutive|].
  rewrite <- (rev_involutive (push r (rev l) e)). by apply IH, push_normal.
Qed.

Lemma path_elements_normal p : normal (IsAbs p) (path_elements p).
Proof. apply (foldl_normal _ _ []); [apply split_no_char|]. by exists O, []. Qed.

(** A path that starts at the root has only ordinary elements. *)
Lemma path_elements_rooted p : IsAbs p = true → Forall ordinary (path_elements p).
Proof. intros Hp. destruct (path_elements_normal p) as (k & os & -> & Hos & Hk). by rewrite Hk. Qed.

Lemma push_dotdots j k : foldl (push false) (repeat ".." j) (repeat ".." k) = repeat ".." (k + j).
Proof.
  revert j. induction k as [|k IH]; intros j; [done|]. cbn [repeat foldl].
  replace (push false (repeat ".." j) "..") with (repeat ".." (S j)) by (by destruct j).
  rewrite IH. by rewrite Nat.add_succ_r.
Qed.

Lemma elements_id r l : normal r l → elements r l = l.
Proof.
  intros (k & os & -> & Hos & Hk). unfold elements. rewrite foldl_app, push_all_ordinary by done.
  rewrite rev_app_distr, rev_involutive. f_equal. destruct r; [by rewrite Hk|].
  pose proof (push_dotdots 0 k) as Hd. cbn [repeat] in Hd. by rewrite Hd, Nat.add_0_r, rev_repeat.
Qed.

(** A property of [..] and of ordinary elements holds of all elements. *)
Lemma normal_Forall (P : string → Prop) r l : P ".." → (∀ e, ordinary e → P e) → normal r l → Forall P l.
Proof.
  intros Hd Ho (k & os & -> & Hos & _). apply Forall_app. split; [by induction k; constructor|].
  by eapply Forall_impl.
Qed.

Lemma normal_no_slash r l : normal r l → Forall (λ e, no_char slash e = true) l.
Proof. apply normal_Forall; [done|]. by intros e (_ & _ & _ & ?). Qed.

Lemma normal_not_empty r l : normal r l → Forall (λ e, e ≠ "") l.
Proof. apply normal_Forall; [done|]. by intros e (? & _). Qed.

Lemma IsAbs_app a b : a ≠ "" → IsAbs (a +:+ b) = IsAbs a.
Proof. by destruct a. Qed.

Lemma IsAbs_no_slash a : no_char slash a = true → IsAbs a = false.
Proof. destruct a as [|c a]; [done|]. cbn. case_bool_decide; [done|]. done. Qed.

Lemma strings_Join_app_first e l : ∃ rest, strings_Join (e :: l) "/" = e +:+ rest.
Proof. destruct l; [exists ""; by rewrite string_app_nil_r|]. by eexists. Qed.

(** [Clean] keeps the elements, so it is idempotent. *)
Lemma Clean_spec p : IsAbs (Clean p) = IsAbs p ∧ path_elements (Clean p) = path_elements p.
Proof.
  pose proof (path_elements_normal p) as Hn. unfold Clean. destruct (IsAbs p) eqn:Hp.
  - split; [done|]. unfold path_elements at 1.
    change ("/" +:+ ?s) with ("" +:+ "/" +:+ s). rewrite strings_Split_slash.
    change (IsAbs _) with true. cbn [strings_Split app].
    unfold elements. cbn [foldl]. change (push true [] "") with (@nil string).
    fold (elements true (strings_Split (strings_Join (path_elements p) "/") slash)).
    destruct (path_elements p) as [|e l] eqn:He; [done|]. rewrite <- He in *.
    change "/" with (String slash ""). rewrite strings_Split_Join; [by apply elements_id|by rewrite He|by eapply normal_no_slash].
  - destruct (path_elements p) as [|e l] eqn:He; [done|].
    destruct (strings_Join_app_first e l) as [rest Hrest]. pose proof (normal_not_empty _ _ Hn) as Hne.
    pose proof (normal_no_slash _ _ Hn) as Hns. apply Forall_cons in Hne as [Hne _].
    rewrite decide_False by (rewrite Hrest; by destruct e).
    assert (IsAbs (strings_Join (e :: l) "/") = false) as Habs.
    { rewrite Hrest, IsAbs_app by done. apply IsAbs_no_slash. by apply Forall_cons in Hns as [? _]. }
    split; [done|]. unfold path_elements. rewrite Habs. change "/" with (String slash "").
    rewrite strings_Split_Join by done. by apply elements_id.
Qed.

Lemma Clean_idempotent p : Clean (Clean p) = Clean p.
Proof. destruct (Clean_spec p) as [Ha He]. unfold Clean at 1 3. by rewrite Ha, He. Qed.

(** ** Files below a directory *)
Definition below (dir p : string) : Prop :=
  IsAbs p = IsAbs dir ∧ ∃ os, Forall ordinary os ∧ path_elements p = path_elements dir ++ os.

Lemma Join_elements dir u :
  dir ≠ "" →
  IsAbs (filepath_Join [dir; u]) = IsAbs dir ∧
  path_elements (filepath_Join [dir; u]) =
    rev (foldl (push (IsAbs dir)) (rev (path_elements dir)) (strings_Split u slash)).
Proof.
  intros Hdir. cbn [filepath_Join]. rewrite decide_False by done. cbn [strings_Join].
  destruct (Clean_spec (dir +:+ "/" +:+ u)) as [-> ->]. rewrite IsAbs_app by done. split; [done|].
  unfold path_elements. rewrite IsAbs_app, strings_Split_slash by done. unfold elements.
  by rewrite foldl_app, rev_involutive.
Qed.

(** The elements of the request path, read from the root of the directory. *)
Definition rooted_elements (u : string) : list string := path_elements ("/" +:+ u).

Lemma rooted_elements_split u : rooted_elements u = elements true (strings_Split u slash).
Proof. unfold rooted_elements, path_elements. change ("/" +:+ u) with ("" +:+ "/" +:+ u). by rewrite strings_Split_slash. Qed.

Lemma Join_ordinary dir u :
  dir ≠ "" → Forall ordinary (path_elements u) → IsAbs u = true →
  path_elements (filepath_Join [dir; Clean u]) = path_elements dir ++ path_elements u.
Proof.
  intros Hdir Hos Habs. destruct (Join_elements dir (Clean u) Hdir) as [_ ->]. unfold Clean. rewrite Habs.
  change ("/" +:+ ?s) with ("" +:+ "/" +:+ s). rewrite strings_Split_slash, foldl_app. cbn [strings_Split foldl].
  rewrite push_empty. destruct (path_elements u) as [|e l] eqn:He.
  { cbn [strings_Join strings_Split foldl]. by rewrite push_empty, app_nil_r, rev_involutive. }
  rewrite <- He in *. change "/" with (String slash "").
  rewrite strings_Split_Join; [|by rewrite He|eapply Forall_impl; [exact Hos|by intros ? (_&_&_&?)]].
  by rewrite push_all_ordinary, rev_app_distr, !rev_involutive.
Qed.

(** A request path climbs if, read on its own, it leaves the directory. *)
Definition climbs (u : string) : bool := bool_decide (".." ∈ elements false (strings_Split u slash)).

Lemma push_below st acc r e :
  ".." ∉ acc → (acc ≠ [] ∨ e ≠ "..") → push r (acc ++ st) e = push false acc e ++ st.
Proof.
  intros Hacc Hok. unfold push. case_decide; [done|]. case_decide; [|done].
  destruct acc as [|top acc]; [naive_solver|]. cbn [app].
  by rewrite !decide_False by (intros ->; apply Hacc, list_elem_of_here).
Qed.

(** A [..] at the bottom of the stack stays there. *)
Lemma bottom_stays cs acc : ".." ∈ foldl (push false) (acc ++ [".."]) cs.
Proof.
  revert acc. induction cs as [|e cs IH]; intros acc; cbn [foldl]; [set_solver|].
  assert (∃ acc', push false (acc ++ [".."]) e = acc' ++ [".."]) as [acc' ->]; [|apply IH].
  unfold push. case_decide; [by exists acc|]. case_decide; [|by exists (e :: acc)].
  destruct acc as [|top acc]; [by exists [".."]|]. cbn [app].
  case_decide; [by exists (".." :: top :: acc)|by exists acc].
Qed.

Lemma push_no_climb r st acc cs :
  ".." ∉ acc → ".." ∉ foldl (push false) acc cs →
  foldl (push r) (acc ++ st) cs = foldl (push false) acc cs ++ st.
Proof.
  revert acc. induction cs as [|e cs IH]; intros acc Hacc Hcs; [done|]. cbn [foldl] in *.
  destruct (decide (acc = [] ∧ e = "..")) as [[-> ->]|Hok].
  { destruct Hcs. apply (bottom_stays cs []). }
  rewrite push_below by (try done; destruct acc, (decide (e = "..")); naive_solver). apply IH; [|done].
  unfold push. case_decide; [done|]. case_decide; [|set_solver]. destruct acc as [|top acc]; [naive_solver|].
  case_decide; set_solver.
Qed.

(** Without climbing, joining is appending. *)
Lemma Join_no_climb dir u :
  dir ≠ "" → climbs u = false →
  path_elements (filepath_Join [dir; u]) = path_elements dir ++ rooted_elements u.
Proof.
  intros Hdir Hc%bool_decide_eq_false. destruct (Join_elements dir u Hdir) as [_ ->].
  assert (".." ∉ foldl (push false) [] (strings_Split u slash)) as Hc'.
  { intros Hin. apply Hc. unfold elements. by rewrite <- Permutation_rev. }
  rewrite (push_no_climb (IsAbs dir) (rev (path_elements dir)) []) by (done || apply not_elem_of_nil).
  rewrite rev_app_distr, rev_involutive. f_equal. rewrite rooted_elements_split. unfold elements. f_equal.
  rewrite <- (app_nil_r (foldl (push false) [] _)). symmetry.
  apply (push_no_climb true [] []); [apply not_elem_of_nil|done].
Qed.

(** ** Serving a file

    The answer to a request for a file.  [FileAt p]: it is made from the file at
    [p] alone (its content, a redirection from [p/] to [p], or an error of
    opening it).  [DirectoryAt p]: it is made from the directory at [p] alone (a
    redirection from [p] to [p/], its index page, or the list of its entries). *)
Inductive Served :=
| FileAt (path : string)
| DirectoryAt (path : string)
| RedirectHere
| BadURLPath
| NotFound
| NilDereference.

Fixpoint strings_HasSuffix (s suffix : string) : bool :=
  bool_decide (s = suffix) || match s with EmptyString => false | String _ s' => strings_HasSuffix s' suffix end.

Fixpoint backslash_to_slash (s : string) : string :=
  match s with
  | EmptyString => ""
  | String c s' => String (if decide (c = "\"%char) then slash else c) (backslash_to_slash s')
  end.

(** [containsDotDot] of [net/http]: an element between slashes or backslashes. *)
Definition containsDotDot (v : string) : bool :=
  bool_decide (".." ∈ strings_Split (backslash_to_slash v) slash).

Definition indexPage : string := "/index.html".

(** [serveFile] of [net/http] for what it finds at [name]. *)
Definition serve_file (is_dir : string → bool) (name : string) : Served :=
  if is_dir name then DirectoryAt name else FileAt name.

(** What is served, and from where. *)
Definition served_from (s : Served) (p : string) : Prop := s = FileAt p ∨ s = DirectoryAt p.

Lemma serve_file_from is_dir name p : served_from (serve_file is_dir name) p → p = name.
Proof. unfold served_from, serve_file. destruct (is_dir name); intros [|]; by simplify_eq. Qed.

(** [http.ServeFile(w, r, name)] for a request path [u]. *)
Definition http_ServeFile (is_dir : string → bool) (u name : string) : Served :=
  if containsDotDot u then BadURLPath
  else if strings_HasSuffix u indexPage then RedirectHere
  else serve_file is_dir name.

(** [http.Dir(dir).Open(name)]. *)
Definition http_Dir_Open (dir name : string) : string :=
  filepath_Join [if decide (dir = "") then "." else dir; Clean ("/" +:+ name)].

(** [http.FileServer(http.Dir(dir)).ServeHTTP]. *)
Definition http_FileServer (is_dir : string → bool) (dir u : string) : Served :=
  let upath := if IsAbs u then u else "/" +:+ u in
  if strings_HasSuffix upath indexPage then RedirectHere
  else serve_file is_dir (http_Dir_Open dir (Clean upath)).

(** Whatever the request path, the file that is opened is below the directory. *)
Lemma http_Dir_Open_below dir name : dir ≠ "" → below dir (http_Dir_Open dir name).
Proof.
  intros Hdir. unfold http_Dir_Open. rewrite decide_False by done. split; [by apply Join_elements|].
  exists (path_elements ("/" +:+ name)). split; [by apply path_elements_rooted|].
  by apply Join_ordinary; [|apply path_elements_rooted|].
Qed.

Lemma Join_name_below dir name : dir ≠ "" → ordinary name → below dir (filepath_Join [dir; name]).
Proof.
  intros Hdir Hname. destruct (Join_elements dir name Hdir) as [Ha He]. split; [done|]. exists [name].
  split; [by apply Forall_singleton|]. rewrite He, strings_Split_word by apply Hname. cbn [foldl].
  rewrite push_ordinary by done. cbn [rev]. by rewrite rev_involutive.
Qed.

Lemma Join_no_climb_below dir u : dir ≠ "" → climbs u = false → below dir (filepath_Join [dir; u]).
Proof.
  intros Hdir Hc. split; [by apply Join_elements|]. exists (rooted_elements u).
  split; [by apply path_elements_rooted|]. by apply Join_no_climb.
Qed.
