(* ===== verification/SqlBuilder.v ===== *)
(** * The SQL query builder

    Models [internal/database/sql/builder.go] and the slice-to-text helper of
    [internal/util/util.go].  [Sql] holds the builder itself; [SqlSpec] the
    abstract query it stands for, the text that query is rendered to, and the
    refinement of the one by the other. *)
From S2P Require Import Prelude GoStrings.
From Stdlib Require Import Ascii.

Module Sql.

Inductive OrderDirection :=
| OrderByAscending
| OrderByDescending.

Definition direction_text (d : OrderDirection) : string :=
  match d with OrderByAscending => "ASC" | OrderByDescending => "DESC" end.

Record Builder := mkBuilder {
  selectStatement : string;
  whereClauses : string;
  hasWhere : bool;
  conditionCounter : Z;
  args : list any;
  orderByClauses : string;
  limit : string;
  offset : string;
}.

Definition NewBuilder : Builder := mkBuilder "" "" false 0 [] "" "" "".

Definition SelectAll (table alias : string) (b : Builder) : Builder :=
  let sel := Sprintf "SELECT * FROM %s" [AnyString table] in
  let sel := if decide (alias ≠ "") then sel +:+ " AS " +:+ alias else sel in
  mkBuilder sel (whereClauses b) (hasWhere b) (conditionCounter b) (args b)
    (orderByClauses b) (limit b) (offset b).

Definition condition (expression : string) (b : Builder) : Builder :=
  if negb (hasWhere b)
  then mkBuilder (selectStatement b) (whereClauses b +:+ "WHERE " +:+ expression) true
         (conditionCounter b) (args b) (orderByClauses b) (limit b) (offset b)
  else mkBuilder (selectStatement b) (whereClauses b +:+ " AND " +:+ expression) (hasWhere b)
         (conditionCounter b) (args b) (orderByClauses b) (limit b) (offset b).

Definition Conditionf (format : string) (fargs : list any) (b : Builder) : Builder :=
  condition (Sprintf format fargs) b.

Definition Condition (expression : string) (b : Builder) : Builder := condition expression b.

(** The counter is the number of conditions added so far, so it stays far from
    the width of [int] and is kept as an unbounded integer. *)
Definition Conditionp (lhs op : string) (val : any) (b : Builder) : Builder :=
  let counter := conditionCounter b + 1 in
  let expression := Sprintf "%s %s $%d" [AnyString lhs; AnyString op; AnyInt counter] in
  condition expression
    (mkBuilder (selectStatement b) (whereClauses b) (hasWhere b) counter (args b ++ [val])
       (orderByClauses b) (limit b) (offset b)).

Definition Limit (n : Z) (b : Builder) : Builder :=
  mkBuilder (selectStatement b) (whereClauses b) (hasWhere b) (conditionCounter b) (args b)
    (orderByClauses b) (Sprintf "LIMIT %d" [AnyInt n]) (offset b).

Definition Offset (n : Z) (b : Builder) : Builder :=
  mkBuilder (selectStatement b) (whereClauses b) (hasWhere b) (conditionCounter b) (args b)
    (orderByClauses b) (limit b) (Sprintf "OFFSET %d" [AnyInt n]).

Definition OrderBy (column : string) (direction : OrderDirection) (b : Builder) : Builder :=
  mkBuilder (selectStatement b) (whereClauses b) (hasWhere b) (conditionCounter b) (args b)
    (Sprintf "ORDER BY %s %s" [AnyString column; AnyString (direction_text direction)])
    (limit b) (offset b).

(** [query.WriteString(" ")] followed by the clause, when the clause is set. *)
Definition write_clause (clause query : string) : string :=
  if decide (clause ≠ "") then query +:+ " " +:+ clause else query.

Definition Query (b : Builder) : string :=
  let query := selectStatement b in
  let query := write_clause (whereClauses b) query in
  let query := write_clause (orderByClauses b) query in
  let query := write_clause (limit b) query in
  write_clause (offset b) query.

Definition Args (b : Builder) : list any := args b.

(** [util.SliceToCommaSeparated]. *)
Definition quote_item (s : string) : string := "'" +:+ s +:+ "'".

Definition SliceToCommaSeparated (slice : list string) (quoteItems : bool) : string :=
  let slice := if quoteItems then quote_item <$> slice else slice in
  strings_Join slice ",".

(** One call of a builder method, for statements about sequences of calls. *)
Inductive builder_call :=
| CallSelectAll (table alias : string)
| CallConditionf (format : string) (fargs : list any)
| CallCondition (expression : string)
| CallConditionp (lhs op : string) (val : any)
| CallLimit (n : Z)
| CallOffset (n : Z)
| CallOrderBy (column : string) (direction : OrderDirection).

Definition call (c : builder_call) : Builder → Builder :=
  match c with
  | CallSelectAll t a => SelectAll t a
  | CallConditionf f l => Conditionf f l
  | CallCondition e => Condition e
  | CallConditionp l o v => Conditionp l o v
  | CallLimit n => Limit n
  | CallOffset n => Offset n
  | CallOrderBy c d => OrderBy c d
  end.

Definition calls (cs : list builder_call) (b : Builder) : Builder := foldl (λ b c, call c b) b cs.

Example query_combined :
  Query (calls [CallSelectAll "users" "u"; CallConditionf "age > %d" [AnyInt 30];
                CallConditionf "name = '%s'" [AnyString "John"]; CallOrderBy "age" OrderByAscending;
                CallLimit 10; CallOffset 5] NewBuilder)
  = "SELECT * FROM users AS u WHERE age > 30 AND name = 'John' ORDER BY age ASC LIMIT 10 OFFSET 5".
Proof. vm_compute. reflexivity. Qed.

Example query_escaped_percent :
  Query (calls [CallSelectAll "logs" "l"; CallConditionf "message LIKE '%%%%error%%%%'" [];
                CallOrderBy "timestamp" OrderByDescending] NewBuilder)
  = "SELECT * FROM logs AS l WHERE message LIKE '%%error%%' ORDER BY timestamp DESC".
Proof. vm_compute. reflexivity. Qed.

End Sql.

(** ** The abstract query *)
Module SqlSpec.
Import Sql.

(** A condition is a piece of SQL text or a comparison with a positional
    argument. *)
Inductive cond :=
| CondText (expr : string)
| CondArg (lhs op : string) (val : any).

Record query := mkQuery {
  q_from : option (string * string);
  q_conds : list cond;
  q_order : option (string * OrderDirection);
  q_limit : option Z;
  q_offset : option Z;
}.

Definition empty_query : query := mkQuery None [] None None None.

(** The values of the positional arguments, in order. *)
Definition cond_args (cs : list cond) : list any :=
  omap (λ c, match c with CondText _ => None | CondArg _ _ v => Some v end) cs.

(** The text of the conditions when [n] arguments are already numbered. *)
Fixpoint cond_texts (n : nat) (cs : list cond) : list string :=
  match cs with
  | [] => []
  | CondText e :: cs' => e :: cond_texts n cs'
  | CondArg l o _ :: cs' => (l +:+ " " +:+ o +:+ " $" +:+ pretty (Z.of_nat (S n))) :: cond_texts (S n) cs'
  end.

Definition render_where (cs : list cond) : string :=
  if decide (cs = []) then "" else "WHERE " +:+ strings_Join (cond_texts 0 cs) " AND ".

Definition render_from (f : option (string * string)) : string :=
  match f with
  | None => ""
  | Some (t, a) => "SELECT * FROM " +:+ t +:+ (if decide (a = "") then "" else " AS " +:+ a)
  end.

Definition render_order (o : option (string * OrderDirection)) : string :=
  match o with None => "" | Some (c, d) => "ORDER BY " +:+ c +:+ " " +:+ direction_text d end.

Definition render_number (keyword : string) (o : option Z) : string :=
  match o with None => "" | Some n => keyword +:+ pretty n end.

Definition render (q : query) : string :=
  write_clause (render_number "OFFSET " (q_offset q))
    (write_clause (render_number "LIMIT " (q_limit q))
      (write_clause (render_order (q_order q))
        (write_clause (render_where (q_conds q)) (render_from (q_from q))))).

Definition spec_call (c : builder_call) (q : query) : query :=
  let add k := mkQuery (q_from q) (q_conds q ++ [k]) (q_order q) (q_limit q) (q_offset q) in
  match c with
  | CallSelectAll t a => mkQuery (Some (t, a)) (q_conds q) (q_order q) (q_limit q) (q_offset q)
  | CallConditionf f l => add (CondText (Sprintf f l))
  | CallCondition e => add (CondText e)
  | CallConditionp l o v => add (CondArg l o v)
  | CallLimit n => mkQuery (q_from q) (q_conds q) (q_order q) (Some n) (q_offset q)
  | CallOffset n => mkQuery (q_from q) (q_conds q) (q_order q) (q_limit q) (Some n)
  | CallOrderBy c d => mkQuery (q_from q) (q_conds q) (Some (c, d)) (q_limit q) (q_offset q)
  end.

Definition spec_calls (cs : list builder_call) (q : query) : query := foldl (λ q c, spec_call c q) q cs.

(** A builder stands for an abstract query. *)
Record represents (b : Builder) (q : query) : Prop := {
  rep_select : selectStatement b = render_from (q_from q);
  rep_where : whereClauses b = render_where (q_conds q);
  rep_hasWhere : hasWhere b = bool_decide (q_conds q ≠ []);
  rep_counter : conditionCounter b = Z.of_nat (length (cond_args (q_conds q)));
  rep_args : args b = cond_args (q_conds q);
  rep_order : orderByClauses b = render_order (q_order q);
  rep_limit : limit b = render_number "LIMIT " (q_limit q);
  rep_offset : offset b = render_number "OFFSET " (q_offset q);
}.

(** A scanner for the comma-separated string literals of an SQL array: a literal
    runs between single quotes, a doubled quote inside stands for one quote. *)
Fixpoint sql_literals (inside : bool) (cur : string) (s : string) : option (list string) :=
  match inside, s with
  | false, String "'" s' => sql_literals true "" s'
  | false, _ => None
  | true, EmptyString => None
  | true, String "'" EmptyString => Some [cur]
  | true, String "'" (String "'" s') => sql_literals true (cur +:+ "'") s'
  | true, String "'" (String "," s') => cons cur <$> sql_literals false "" s'
  | true, String "'" _ => None
  | true, String c s' => sql_literals true (cur +:+ String c "") s'
  end.

Definition array_literals (text : string) : option (list string) := sql_literals false "" text.

(** *** Lemmas *)
Lemma cond_args_app cs1 cs2 : cond_args (cs1 ++ cs2) = cond_args cs1 ++ cond_args cs2.
Proof. apply omap_app. Qed.

Lemma cond_texts_app n cs1 cs2 :
  cond_texts n (cs1 ++ cs2) = cond_texts n cs1 ++ cond_texts (n + length (cond_args cs1)) cs2.
Proof.
  revert n. induction cs1 as [|[e|l o v] cs1 IH]; intros n; cbn.
  - by rewrite Nat.add_0_r.
  - by rewrite IH.
  - rewrite IH. by rewrite Nat.add_succ_r.
Qed.

Lemma cond_texts_nil_iff n cs : cond_texts n cs = [] ↔ cs = [].
Proof. by destruct cs as [|[] ?]. Qed.

Lemma strings_Join_snoc l s sep :
  l ≠ [] → strings_Join (l ++ [s]) sep = strings_Join l sep +:+ sep +:+ s.
Proof.
  induction l as [|s1 [|s2 l] IH]; intros Hne; [done|done|].
  change (s1 +:+ sep +:+ strings_Join ((s2 :: l) ++ [s]) sep
          = (s1 +:+ sep +:+ strings_Join (s2 :: l) sep) +:+ sep +:+ s).
  rewrite IH by done. by rewrite <- !string_app_assoc.
Qed.

Lemma render_where_snoc cs k t :
  cond_texts (length (cond_args cs)) [k] = [t] →
  render_where (cs ++ [k]) =
    (if decide (cs = []) then "WHERE " +:+ t else render_where cs +:+ " AND " +:+ t).
Proof.
  intros Ht. unfold render_where. rewrite (decide_False (P := cs ++ [k] = [])) by (by destruct cs).
  rewrite cond_texts_app. cbn [Nat.add]. rewrite Ht.
  case_decide as Hcs; [by subst|].
  rewrite strings_Join_snoc by (by rewrite cond_texts_nil_iff). by rewrite string_app_assoc.
Qed.

Lemma condition_represents b q k t :
  represents b q → cond_texts (length (cond_args (q_conds q))) [k] = [t] →
  represents
    (condition t (mkBuilder (selectStatement b) (whereClauses b) (hasWhere b)
       (Z.of_nat (length (cond_args (q_conds q ++ [k])))) (cond_args (q_conds q ++ [k]))
       (orderByClauses b) (limit b) (offset b)))
    (mkQuery (q_from q) (q_conds q ++ [k]) (q_order q) (q_limit q) (q_offset q)).
Proof.
  intros [] Ht. unfold condition. cbn [hasWhere].
  rewrite rep_hasWhere0. case_bool_decide as Hne; cbn [negb].
  - split; cbn; try done.
    + by rewrite (render_where_snoc _ _ t), decide_False, rep_where0.
    + symmetry. apply bool_decide_true. by destruct (q_conds q).
  - split; cbn; try done.
    + by rewrite (render_where_snoc _ _ t), decide_True, rep_where0, Hne.
    + symmetry. apply bool_decide_true. by destruct (q_conds q).
Qed.

Lemma builder_eta b :
  mkBuilder (selectStatement b) (whereClauses b) (hasWhere b) (conditionCounter b) (args b)
    (orderByClauses b) (limit b) (offset b) = b.
Proof. by destruct b. Qed.

Lemma Conditionp_text l o n :
  Sprintf "%s %s $%d" [AnyString l; AnyString o; AnyInt n] = l +:+ " " +:+ o +:+ " $" +:+ pretty n.
Proof. cbn. by rewrite string_app_nil_r. Qed.

Lemma SelectAll_text t : Sprintf "SELECT * FROM %s" [AnyString t] = "SELECT * FROM " +:+ t.
Proof. cbn. by rewrite string_app_nil_r. Qed.

Lemma SelectAll_represents t a b q :
  represents b q → represents (SelectAll t a b) (spec_call (CallSelectAll t a) q).
Proof.
  intros []. split; cbn [SelectAll spec_call selectStatement q_from render_from]; try done.
  rewrite SelectAll_text. destruct (decide (a = "")) as [->|Ha].
  - by rewrite decide_False, string_app_nil_r by naive_solver.
  - rewrite decide_True by done. by rewrite <- string_app_assoc.
Qed.

Lemma call_represents c b q : represents b q → represents (call c b) (spec_call c q).
Proof.
  intros Hrep. destruct c as [t a|f l|e|l o v|n|n|col d]; cbn [call spec_call].
  - by apply SelectAll_represents.
  - pose proof (condition_represents b q (CondText (Sprintf f l)) _ Hrep eq_refl) as H.
    rewrite cond_args_app in H. cbn [cond_args omap list_omap] in H. rewrite app_nil_r in H.
    destruct Hrep. rewrite <- rep_counter0, <- rep_args0, builder_eta in H. exact H.
  - pose proof (condition_represents b q (CondText e) _ Hrep eq_refl) as H.
    rewrite cond_args_app in H. cbn [cond_args omap list_omap] in H. rewrite app_nil_r in H.
    destruct Hrep. rewrite <- rep_counter0, <- rep_args0, builder_eta in H. exact H.
  - pose proof (condition_represents b q (CondArg l o v) _ Hrep eq_refl) as H.
    unfold Conditionp. rewrite Conditionp_text. destruct Hrep.
    rewrite rep_counter0, rep_args0. rewrite cond_args_app, length_app in H. cbn in H.
    replace (Z.of_nat (length (cond_args (q_conds q)) + 1))
      with (Z.of_nat (length (cond_args (q_conds q))) + 1) in H by lia.
    replace (Z.of_nat (S (length (cond_args (q_conds q)))))
      with (Z.of_nat (length (cond_args (q_conds q))) + 1) in H by lia.
    exact H.
  - destruct Hrep. split; cbn; try done. by rewrite string_app_nil_r.
  - destruct Hrep. split; cbn; try done. by rewrite string_app_nil_r.
  - destruct Hrep. split; cbn; try done. by rewrite string_app_nil_r.
Qed.

Lemma calls_represents cs b q : represents b q → represents (calls cs b) (spec_calls cs q).
Proof.
  revert b q. induction cs as [|c cs IH]; intros b q Hrep; [done|].
  apply (IH (call c b) (spec_call c q)), call_represents, Hrep.
Qed.

Lemma NewBuilder_represents : represents NewBuilder empty_query.
Proof. by split. Qed.

Lemma represents_Query b q : represents b q → Query b = render q.
Proof. intros []. unfold Query, render. by rewrite rep_select0, rep_where0, rep_order0, rep_limit0, rep_offset0. Qed.

Lemma sql_literals_word cur w rest :
  no_char "'" w = true →
  sql_literals true cur (w +:+ rest) = sql_literals true (cur +:+ w) rest.
Proof.
  revert cur. induction w as [|c w IH]; intros cur; [by rewrite string_app_nil_r|].
  cbn [no_char]. rewrite andb_true_iff. intros [Hc Hw]. rewrite string_app_cons.
  transitivity (sql_literals true (cur +:+ String c "") (w +:+ rest)).
  - destruct c as [[][][][][][][][]]; done.
  - rewrite IH by done. by rewrite <- string_app_assoc.
Qed.

Lemma array_literals_quoted gs :
  gs ≠ [] → Forall (λ g, no_char "'" g = true) gs →
  array_literals (SliceToCommaSeparated gs true) = Some gs.
Proof.
  intros Hne Hall. unfold array_literals, SliceToCommaSeparated.
  induction Hall as [|g gs Hg Hgs IH]; [done|]. destruct gs as [|g2 gs].
  - change (sql_literals true "" (g +:+ "'") = Some [g]). by rewrite sql_literals_word.
  - rewrite !fmap_cons, strings_Join_cons, <- fmap_cons. unfold quote_item at 1.
    rewrite <- !string_app_assoc. set (rest := strings_Join _ _) in *.
    change (sql_literals true "" (g +:+ "'" +:+ "," +:+ rest) = Some (g :: g2 :: gs)).
    rewrite sql_literals_word by done.
    change (cons g <$> sql_literals false "" rest = Some (g :: g2 :: gs)).
    subst rest. by rewrite IH.
Qed.

(** *** Properties *)

(** C28.  Whatever methods are called and in whatever order, the text of the builder
    is the rendering of the abstract query that the calls describe, with the
    conditions joined by AND and the positional ones numbered from 1, and the
    argument list holds exactly their values in that order. *)
Theorem builder_refines_query cs :
  let b := calls cs NewBuilder in
  let q := spec_calls cs empty_query in
  Query b = render q ∧ Args b = cond_args (q_conds q) ∧
  conditionCounter b = Z.of_nat (length (Args b)).
Proof.
  cbn zeta. pose proof (calls_represents cs _ _ NewBuilder_represents) as Hrep.
  split_and!; [by apply represents_Query|by destruct Hrep|].
  destruct Hrep. unfold Args. by rewrite rep_args0.
Qed.

(** The quoted, comma-separated text of a non-empty slice reads back as the same
    slice when no item holds a quote. *)
Theorem quoted_slice_roundtrip gs :
  gs ≠ [] → Forall (λ g, no_char "'" g = true) gs →
  array_literals (SliceToCommaSeparated gs true) = Some gs.
Proof. apply array_literals_quoted. Qed.

Lemma quoted_slice_roundtrip_witness :
  array_literals (SliceToCommaSeparated ["admin"; "dev"] true) = Some ["admin"; "dev"].
Proof. apply quoted_slice_roundtrip; [done|by repeat constructor]. Defined.

(** Items are not escaped: one item that holds a quote, a comma and a quote is
    sent to the database as two items. *)
Theorem quoted_slice_injection g1 g2 :
  SliceToCommaSeparated [g1 +:+ "','" +:+ g2] true = SliceToCommaSeparated [g1; g2] true.
Proof.
  unfold SliceToCommaSeparated. cbn [fmap list_fmap strings_Join].
  unfold quote_item. by rewrite <- !string_app_assoc.
Qed.

End SqlSpec.
