(* ===== verification/Dao.v ===== *)
(** * Data objects

    The structures exchanged with the YuniKorn scheduler ([dao.*], of which the
    records below keep every field the sources read or write) and the
    repository's own structures of [internal/model/models.go].  A nil map,
    slice or pointer is [None]; a field that the sources only pass on as a
    document is a [doc]. *)
From S2P Require Import Prelude.

(** A document passed on without being inspected; nil is [None]. *)
Definition doc : Type := option string.

Definition Resources : Type := option (gmap string Z).

Record StateDAOInfo := mkStateDAOInfo {
  Time : Z;
  ApplicationState : string;
}.

(** [alloc_other] and [ask_other] stand for the fields that the sources never
    touch; they are [None] on the objects the sources create. *)
Record AllocationDAOInfo := mkAllocationDAOInfo {
  AllocationID : string;
  AllocResourcePerAlloc : Resources;
  AllocationTime : Z;
  alloc_other : doc;
}.

Record AllocationAskDAOInfo := mkAllocationAskDAOInfo {
  AllocationKey : string;
  AskResourcePerAlloc : Resources;
  RequestTime : Z;
  ask_other : doc;
}.

Record ApplicationDAOInfo := mkApplicationDAOInfo {
  ApplicationID : string;
  UsedResource : Resources;
  MaxUsedResource : Resources;
  AppPendingResource : Resources;
  AppPartition : string;
  AppQueueName : string;
  SubmissionTime : Z;
  FinishedTime : option Z;
  Requests : option (list AllocationAskDAOInfo);
  Allocations : option (list AllocationDAOInfo);
  State : string;
  User : string;
  Groups : option (list string);
  RejectedMessage : string;
  StateLog : option (list StateDAOInfo);
  PlaceholderData : doc;
  HasReserved : bool;
  Reservations : doc;
  MaxRequestPriority : Z;
}.

Inductive PartitionQueueDAOInfo := mkPartitionQueueDAOInfo {
  QueueName : string;
  Status : string;
  Partition : string;
  PendingResource : Resources;
  MaxResource : Resources;
  GuaranteedResource : Resources;
  AllocatedResource : Resources;
  PreemptingResource : Resources;
  HeadRoom : Resources;
  IsLeaf : bool;
  IsManaged : bool;
  Properties : option (gmap string string);
  Parent : string;
  TemplateInfo : doc;
  Children : list PartitionQueueDAOInfo;
  AbsUsedCapacity : Resources;
  MaxRunningApps : Z;
  RunningApps : Z;
  CurrentPriority : Z;
  AllocatingAcceptedApps : option (list string);
}.

Record PartitionCapacity := mkPartitionCapacity {
  Capacity : Resources;
  UsedCapacity : Resources;
  Utilization : Resources;
}.

Record PartitionInfo := mkPartitionInfo {
  PClusterID : string;
  PName : string;
  PCapacity : PartitionCapacity;
  TotalNodes : Z;
  Applications : option (gmap string Z);
  TotalContainers : Z;
  PState : string;
  LastStateTransitionTime : Z;
}.

Record NodeDAOInfo := mkNodeDAOInfo {
  NodeID : string;
  HostName : string;
  RackName : string;
  Attributes : option (gmap string string);
  NCapacity : Resources;
  Allocated : Resources;
  Occupied : Resources;
  Available : Resources;
  Utilized : Resources;
  NAllocations : doc;
  Schedulable : bool;
  IsReserved : bool;
  NReservations : option (list string);
}.

Record PartitionNodesUtilDAOInfo := mkPartitionNodesUtilDAOInfo {
  UClusterID : string;
  UPartition : string;
  NodesUtilList : doc;
}.

Record ApplicationHistoryDAOInfo := mkApplicationHistoryDAOInfo {
  ATimestamp : Z;
  TotalApplications : string;
}.

Record ContainerHistoryDAOInfo := mkContainerHistoryDAOInfo {
  CTimestamp : Z;
  CTotalContainers : string;
}.

(** ** [internal/model/models.go]

    [model.ApplicationDAOInfo] and [model.PartitionQueueDAOInfo] embed the
    scheduler's structures; [sql.NullString] and [sql.NullInt64] are options.
    The embedded queue's own [Children] are shadowed by [MChildren]. *)
Record ModelApplication := mkModelApplication {
  MCreatedAt : option Z;
  QueueID : string;
  MApp : ApplicationDAOInfo;
}.

Inductive ModelQueue := mkModelQueue {
  Id : string;
  ParentId : option string;
  MQueue : PartitionQueueDAOInfo;
  MChildren : list ModelQueue;
  CreatedAt : option Z;
  DeletedAt : option Z;
}.

(** ** Updates and measures of the recursive structures *)
Definition set_Partition (p : string) (q : PartitionQueueDAOInfo) : PartitionQueueDAOInfo :=
  mkPartitionQueueDAOInfo (QueueName q) (Status q) p (PendingResource q) (MaxResource q)
    (GuaranteedResource q) (AllocatedResource q) (PreemptingResource q) (HeadRoom q) (IsLeaf q)
    (IsManaged q) (Properties q) (Parent q) (TemplateInfo q) (Children q) (AbsUsedCapacity q)
    (MaxRunningApps q) (RunningApps q) (CurrentPriority q) (AllocatingAcceptedApps q).

Definition set_Children (cs : list PartitionQueueDAOInfo) (q : PartitionQueueDAOInfo) :
    PartitionQueueDAOInfo :=
  mkPartitionQueueDAOInfo (QueueName q) (Status q) (Partition q) (PendingResource q) (MaxResource q)
    (GuaranteedResource q) (AllocatedResource q) (PreemptingResource q) (HeadRoom q) (IsLeaf q)
    (IsManaged q) (Properties q) (Parent q) (TemplateInfo q) cs (AbsUsedCapacity q)
    (MaxRunningApps q) (RunningApps q) (CurrentPriority q) (AllocatingAcceptedApps q).

Definition set_MChildren (cs : list ModelQueue) (q : ModelQueue) : ModelQueue :=
  mkModelQueue (Id q) (ParentId q) (MQueue q) cs (CreatedAt q) (DeletedAt q).

(** Induction over the queue tree with the hypothesis on every child. *)
Section queue_ind.
Context (P : PartitionQueueDAOInfo → Prop).
Context (Hnode : ∀ q, Forall P (Children q) → P q).

Fixpoint PartitionQueueDAOInfo_tree_ind (q : PartitionQueueDAOInfo) : P q :=
  Hnode q
    ((fix go (l : list PartitionQueueDAOInfo) : Forall P l :=
        match l with
        | [] => Forall_nil_2 P
        | c :: l' => Forall_cons_2 P c l' (PartitionQueueDAOInfo_tree_ind c) (go l')
        end) (Children q)).
End queue_ind.

Section model_queue_ind.
Context (P : ModelQueue → Prop).
Context (Hnode : ∀ q, Forall P (MChildren q) → P q).

Fixpoint ModelQueue_tree_ind (q : ModelQueue) : P q :=
  Hnode q
    ((fix go (l : list ModelQueue) : Forall P l :=
        match l with
        | [] => Forall_nil_2 P
        | c :: l' => Forall_cons_2 P c l' (ModelQueue_tree_ind c) (go l')
        end) (MChildren q)).
End model_queue_ind.
