(* ===== verification/Db.v ===== *)
(** * The database seen by the repository

    [Env] collects what the repository gets from outside: the identifiers drawn
    by [uuid.NewString] and [gen_random_uuid], the readings of [time.Now], the
    fate of each statement sent over the connection pool, the order in which
    PostgreSQL returns the rows of a scan without ORDER BY and its answers to
    text that the model does not interpret.  [M] is the monad
    of repository code: a resumption, that is a sequence of atomic actions on the
    tables and the positions in those streams.  A failing call keeps every effect
    that preceded it, since the sources open no transaction.  [run] executes a
    call alone; [keeps] states a relation that every single action keeps, and
    [outcomes] what a call can return whatever happens between its actions.  The
    last part is the theory of tables with a unique key and the statements INSERT
    and INSERT .. ON CONFLICT DO UPDATE on them. *)
From S2P Require Import Prelude GoStrings Dao.

(** The fate of one statement: it is executed and its reply received, or the
    call returns an error, with the statement executed or not, or the
    connection breaks after [rows] rows of the reply. *)
Inductive delivery :=
| Delivered
| Lost (executed : bool) (e : error)
| Cut (rows : nat) (e : error).

(** ** The tables, as created by [migrations/20240628155246_init-tables.up.sql] *)
Record QueueRow := mkQueueRow {
  q_id : string;
  q_parent_id : option string;
  q_created_at : Z;
  q_deleted_at : option Z;
  q_queue_name : string;
  q_status : string;
  q_partition : string;
  q_pending_resource : Resources;
  q_max_resource : Resources;
  q_guaranteed_resource : Resources;
  q_allocated_resource : Resources;
  q_preempting_resource : Resources;
  q_head_room : Resources;
  q_is_leaf : bool;
  q_is_managed : bool;
  q_properties : option (gmap string string);
  q_parent : string;
  q_template_info : doc;
  q_abs_used_capacity : Resources;
  q_max_running_apps : Z;
  q_running_apps : Z;
  q_current_priority : Z;
  q_allocating_accepted_apps : option (list string);
}.

Record AppRow := mkAppRow {
  a_id : string;
  a_app_id : string;
  a_used_resource : Resources;
  a_max_used_resource : Resources;
  a_pending_resource : Resources;
  a_partition : string;
  a_queue_name : string;
  a_queue_id : string;
  a_submission_time : Z;
  a_finished_time : option Z;
  a_requests : option (list AllocationAskDAOInfo);
  a_allocations : option (list AllocationDAOInfo);
  a_state : string;
  a_user : string;
  a_groups : option (list string);
  a_rejected_message : string;
  a_state_log : option (list StateDAOInfo);
  a_place_holder_data : doc;
  a_has_reserved : bool;
  a_reservations : doc;
  a_max_request_priority : Z;
}.

Record NodeRow := mkNodeRow {
  n_id : string;
  n_node_id : string;
  n_partition : string;
  n_host_name : string;
  n_rack_name : string;
  n_attributes : option (gmap string string);
  n_capacity : Resources;
  n_allocated : Resources;
  n_occupied : Resources;
  n_available : Resources;
  n_utilized : Resources;
  n_allocations : doc;
  n_schedulable : bool;
  n_is_reserved : bool;
  n_reservations : option (list string);
}.

Record PartitionRow := mkPartitionRow {
  p_id : string;
  p_cluster_id : string;
  p_name : string;
  p_capacity : Resources;
  p_used_capacity : Resources;
  p_utilization : Resources;
  p_total_nodes : Z;
  p_applications : option (gmap string Z);
  p_total_containers : Z;
  p_state : string;
  p_last_state_transition_time : Z;
}.

Record NodesUtilRow := mkNodesUtilRow {
  u_id : string;
  u_cluster_id : string;
  u_partition : string;
  u_nodes_util_list : doc;
}.

Inductive history_type :=
| container
| application.

#[export] Instance history_type_eq_dec : EqDecision history_type.
Proof. solve_decision. Defined.

Record HistoryRow := mkHistoryRow {
  h_id : string;
  h_type : history_type;
  h_total_number : Z;
  h_timestamp : Z;
}.

Record db := mkDb {
  t_queues : list QueueRow;
  t_applications : list AppRow;
  t_nodes : list NodeRow;
  t_partitions : list PartitionRow;
  t_nodes_util : list NodesUtilRow;
  t_history : list HistoryRow;
}.

Definition empty_db : db := mkDb [] [] [] [] [] [].

Definition set_queues (t : list QueueRow) (d : db) : db :=
  mkDb t (t_applications d) (t_nodes d) (t_partitions d) (t_nodes_util d) (t_history d).
Definition set_applications (t : list AppRow) (d : db) : db :=
  mkDb (t_queues d) t (t_nodes d) (t_partitions d) (t_nodes_util d) (t_history d).
Definition set_nodes (t : list NodeRow) (d : db) : db :=
  mkDb (t_queues d) (t_applications d) t (t_partitions d) (t_nodes_util d) (t_history d).
Definition set_partitions (t : list PartitionRow) (d : db) : db :=
  mkDb (t_queues d) (t_applications d) (t_nodes d) t (t_nodes_util d) (t_history d).
Definition set_nodes_util (t : list NodesUtilRow) (d : db) : db :=
  mkDb (t_queues d) (t_applications d) (t_nodes d) (t_partitions d) t (t_history d).
Definition set_history (t : list HistoryRow) (d : db) : db :=
  mkDb (t_queues d) (t_applications d) (t_nodes d) (t_partitions d) (t_nodes_util d) t.

(** ** The environment

    [env_sql] is what the server answers to the text of a SELECT, with its
    arguments, that the model does not interpret: text that holds pieces of a
    request.  It is taken not to write. *)
Class Env := {
  env_uuid : nat → string;
  env_now : nat → Z;
  env_db : nat → delivery;
  env_scan : nat → ∀ A, list A → list A;
  env_sql : nat → string → list any → db → result (list AppRow);
}.

(** The columns that [rows.Scan] puts into variables of the types [int64],
    [*int64] and [int32]. *)
Definition scanned_app (r : AppRow) : Prop :=
  in_range 64 (a_submission_time r) ∧ (∀ t, a_finished_time r = Some t → in_range 64 t) ∧
  in_range 32 (a_max_request_priority r).

(** Identifiers do not repeat, a scan returns every row exactly once, and what
    was scanned fits its variables. *)
Class EnvLaws `{Env} := {
  env_uuid_inj :: Inj (=) (=) env_uuid;
  env_scan_perm : ∀ n A (l : list A), env_scan n A l ≡ₚ l;
  env_sql_scanned : ∀ n text args d l, env_sql n text args d = Ok l → Forall scanned_app l;
}.

(** ** The monad of repository code *)
Record world := mkWorld {
  w_db : db;
  w_calls : nat;
  w_uuids : nat;
  w_times : nat;
}.

(** A program is done, or its next action changes the world and the rest of the
    program may depend on the world it met.  Actions are the points at which
    other goroutines can come between. *)
Inductive prog (A : Type) : Type :=
| Done (r : result A)
| Act (upd : world → world) (next : world → prog A).
Arguments Done {A} r.
Arguments Act {A} upd next.

Definition M (A : Type) : Type := prog A.

(** Without other goroutines, the program runs to its end. *)
Fixpoint run {A} (m : M A) (w : world) : result A * world :=
  match m with
  | Done r => (r, w)
  | Act upd next => run (next w) (upd w)
  end.
Coercion run : M >-> Funclass.

(** One action. *)
Definition atomic {A} (f : world → result A * world) : M A := Act (λ w, (f w).2) (λ w, Done (f w).1).

(** Continue with the outcome of a program, error or not. *)
Fixpoint catch {A B} (k : result A → M B) (m : M A) : M B :=
  match m with
  | Done r => k r
  | Act upd next => Act upd (λ w, catch k (next w))
  end.

#[export] Instance M_ret : MRet M := λ A a, Done (Ok a).
#[export] Instance M_bind : MBind M := λ A B f,
  catch (λ r, match r with Ok a => f a | Err e => Done (Err e) end).

(** [return fmt.Errorf(...)] on the error of a call. *)
Definition map_err {A} (f : error → error) (m : M A) : M A :=
  catch (λ r, Done (match r with Ok a => Ok a | Err e => Err (f e) end)) m.

Definition fail {A} (e : error) : M A := Done (Err e).

Lemma run_atomic {A} (f : world → result A * world) w : run (atomic f) w = f w.
Proof. cbn. by destruct (f w). Qed.

Lemma run_catch {A B} (k : result A → M B) (m : M A) w : run (catch k m) w = run (k (run m w).1) (run m w).2.
Proof. revert w. induction m as [r|upd next IH]; intros w; [done|]. apply IH. Qed.

Lemma run_bind {A B} (m : M A) (f : A → M B) w :
  run (m ≫= f) w = match run m w with (Ok a, w') => run (f a) w' | (Err e, w') => (Err e, w') end.
Proof. unfold mbind, M_bind. rewrite run_catch. by destruct (run m w) as [[a|e] w']. Qed.

Lemma run_map_err {A} (f : error → error) (m : M A) w :
  run (map_err f m) w = match run m w with (Err e, w') => (Err (f e), w') | r => r end.
Proof. unfold map_err. rewrite run_catch. by destruct (run m w) as [[a|e] w']. Qed.

(** [for _, x := range l { ... }] whose body may return early with an error. *)
Fixpoint range {A} (l : list A) (body : A → M ()) : M () :=
  match l with
  | [] => mret ()
  | x :: l' => body x ≫= λ _, range l' body
  end.

(** What a statement does to the tables when it is executed. *)
Definition stmt (A : Type) : Type := db → result (A * db).

Section env.
Context `{Env}.

Definition uuid_NewString : M string := atomic (λ w,
  (Ok (env_uuid (w_uuids w)), mkWorld (w_db w) (w_calls w) (S (w_uuids w)) (w_times w))).

Definition time_Now_Unix : M Z := atomic (λ w,
  (Ok (env_now (w_times w)), mkWorld (w_db w) (w_calls w) (w_uuids w) (S (w_times w)))).

(** The execution of one statement. *)
Definition execute {A} (s : stmt A) (w : world) : result A * world :=
  let w1 := mkWorld (w_db w) (S (w_calls w)) (w_uuids w) (w_times w) in
  let executed := match s (w_db w) with
                  | Ok (a, d) => (Ok a, mkWorld d (S (w_calls w)) (w_uuids w) (w_times w))
                  | Err e => (Err e, w1)
                  end in
  match env_db (w_calls w) with
  | Delivered => executed
  | Lost true e => (Err e, executed.2)
  | Lost false e => (Err e, w1)
  | Cut _ e => (Err e, executed.2)
  end.

(** [dbpool.Exec] and [dbpool.QueryRow(...).Scan]. *)
Definition db_call {A} (s : stmt A) : M A := atomic (execute s).

(** The rows of a SELECT without ORDER BY come in some order; this one is read
    by [QueryRow]. *)
Definition select {A} (rows : db → list A) : M (list A) := atomic (λ w,
  execute (λ d, Ok (env_scan (w_calls w) A (rows d), d)) w).

(** [dbpool.Query] followed by [for rows.Next() { ... }].  The loop ends at the
    last row that arrives, and no caller looks at [rows.Err()]: a reply that is
    cut short is taken for the whole.  [reply] gets the number of the statement. *)
Definition query_reply {A} (reply : nat → db → A) (cut : nat → A → A) : M A := atomic (λ w,
  let n := w_calls w in
  let a := reply n (w_db w) in
  let w1 := mkWorld (w_db w) (S n) (w_uuids w) (w_times w) in
  match env_db n with
  | Delivered => (Ok a, w1)
  | Lost _ e => (Err e, w1)
  | Cut k _ => (Ok (cut k a), w1)
  end).

Definition query {A} (rows : db → list A) : M (list A) :=
  query_reply (λ n d, env_scan n A (rows d)) take.

End env.

(** ** Tables with a unique key *)
Definition unique_violation : error := ErrMsg "duplicate key value violates unique constraint".
Definition check_violation : error := ErrMsg "new row violates check constraint".
Definition out_of_range : error := ErrMsg "integer out of range".
Definition not_null_violation : error := ErrMsg "null value violates not-null constraint".

Section table.
Context {R K : Type} `{Countable K} (key : R → K).

(** ON CONFLICT (key) DO UPDATE: the row with the key, if there is one, is
    replaced by [merge old new]. *)
Fixpoint update_key (merge : R → R → R) (new : R) (t : list R) : option (list R) :=
  match t with
  | [] => None
  | r :: t' => if decide (key r = key new) then Some (merge r new :: t')
               else cons r <$> update_key merge new t'
  end.

(** The table as a finite map from its unique key. *)
Definition tmap (t : list R) : gmap K R := list_to_map ((λ r, (key r, r)) <$> t).

Definition merge_into (merge : R → R → R) (new : R) (m : gmap K R) : gmap K R :=
  <[key new := match m !! key new with Some old => merge old new | None => new end]> m.

Lemma tmap_cons r t : tmap (r :: t) = <[key r := r]> (tmap t).
Proof. done. Qed.

Lemma tmap_None t k : tmap t !! k = None ↔ k ∉ key <$> t.
Proof.
  unfold tmap. rewrite <- not_elem_of_list_to_map. by rewrite <- list_fmap_compose.
Qed.

Lemma tmap_Some t k r : NoDup (key <$> t) → tmap t !! k = Some r ↔ r ∈ t ∧ key r = k.
Proof.
  intros Hnd. unfold tmap. rewrite <- elem_of_list_to_map.
  - rewrite list_elem_of_fmap. naive_solver.
  - by rewrite <- list_fmap_compose.
Qed.

Lemma update_key_None merge new t : update_key merge new t = None ↔ key new ∉ key <$> t.
Proof.
  induction t as [|r t IH]; cbn; [set_solver|].
  case_decide as Hk; [set_solver|]. rewrite fmap_None, IH. set_solver.
Qed.

Lemma update_key_Some merge new t t' :
  update_key merge new t = Some t' →
  ∃ t1 old t2, t = t1 ++ old :: t2 ∧ t' = t1 ++ merge old new :: t2 ∧ key old = key new ∧
    key new ∉ key <$> t1.
Proof.
  revert t'. induction t as [|r t IH]; intros t'; cbn; [done|]. case_decide as Hk.
  - intros [= <-]. exists [], r, t. set_solver.
  - intros (t'' & Hup & ->)%fmap_Some.
    destruct (IH _ Hup) as (t1 & old & t2 & -> & -> & Hkey & Hnin).
    exists (r :: t1), old, t2. set_solver.
Qed.

Lemma tmap_app_fresh t r : key r ∉ key <$> t → tmap (t ++ [r]) = <[key r := r]> (tmap t).
Proof.
  intros Hk. unfold tmap. rewrite fmap_app, list_to_map_app. cbn.
  rewrite insert_empty. symmetry. rewrite insert_union_singleton_l.
  apply map_union_comm, map_disjoint_singleton_l_2.
  by apply tmap_None.
Qed.

Section pk.
Context (pk : R → string).

(** INSERT: the primary key must be new. *)
Definition insert_row (new : R) (t : list R) : result (list R) :=
  if decide (pk new ∈ pk <$> t) then Err unique_violation else Ok (t ++ [new]).

(** INSERT into a table that also has a unique index on [key]. *)
Definition insert_unique (new : R) (t : list R) : result (list R) :=
  if decide (key new ∈ key <$> t) then Err unique_violation else insert_row new t.

(** INSERT .. ON CONFLICT (key) DO UPDATE. *)
Definition upsert_row (merge : R → R → R) (new : R) (t : list R) : result (list R) :=
  match update_key merge new t with
  | Some t' => Ok t'
  | None => insert_row new t
  end.

Record table_wf (t : list R) : Prop := {
  wf_key : NoDup (key <$> t);
  wf_pk : NoDup (pk <$> t);
}.

Lemma table_wf_nil : table_wf [].
Proof. split; constructor. Qed.

Lemma insert_row_wf new t t' :
  table_wf t → key new ∉ key <$> t → insert_row new t = Ok t' → table_wf t'.
Proof.
  intros [] Hk. unfold insert_row. case_decide as Hpk; [done|]. intros [= <-].
  split; rewrite fmap_app; apply NoDup_app; split_and!; try done;
    [set_solver|apply NoDup_singleton|set_solver|apply NoDup_singleton].
Qed.

Lemma upsert_row_ok merge new t : pk new ∉ pk <$> t → ∃ t', upsert_row merge new t = Ok t'.
Proof.
  intros Hpk. unfold upsert_row. destruct (update_key merge new t) as [t'|]; [eauto|].
  unfold insert_row. rewrite decide_False by done. eauto.
Qed.

Section merge.
Context (merge : R → R → R).
Context (merge_key : ∀ old new, key (merge old new) = key old).
Context (merge_pk : ∀ old new, pk (merge old new) = pk old).

Lemma update_key_fmap_key new t t' : update_key merge new t = Some t' → key <$> t' = key <$> t.
Proof.
  intros (t1 & old & t2 & -> & -> & _ & _)%update_key_Some. by rewrite !fmap_app, !fmap_cons, merge_key.
Qed.

Lemma update_key_fmap_pk new t t' : update_key merge new t = Some t' → pk <$> t' = pk <$> t.
Proof.
  intros (t1 & old & t2 & -> & -> & _ & _)%update_key_Some. by rewrite !fmap_app, !fmap_cons, merge_pk.
Qed.

Lemma upsert_row_pks new t t' i : upsert_row merge new t = Ok t' → i ∈ pk <$> t' → i ∈ pk <$> t ∨ i = pk new.
Proof.
  unfold upsert_row. destruct (update_key merge new t) as [t''|] eqn:Hup.
  - intros [= <-]. rewrite (update_key_fmap_pk _ _ _ Hup). tauto.
  - unfold insert_row. case_decide; [done|]. intros [= <-]. rewrite fmap_app. set_solver.
Qed.

Lemma upsert_row_wf new t t' : table_wf t → upsert_row merge new t = Ok t' → table_wf t'.
Proof.
  intros Hwf. unfold upsert_row. destruct (update_key merge new t) as [t''|] eqn:Hup.
  - intros [= <-]. destruct Hwf. split.
    + by rewrite (update_key_fmap_key _ _ _ Hup).
    + by rewrite (update_key_fmap_pk _ _ _ Hup).
  - apply insert_row_wf; [done|]. by apply update_key_None in Hup.
Qed.

Lemma tmap_replace t1 old new t2 :
  NoDup (key <$> t1 ++ old :: t2) → key old = key new →
  tmap (t1 ++ merge old new :: t2) = <[key new := merge old new]> (tmap (t1 ++ old :: t2)).
Proof.
  intros Hnd Hk. induction t1 as [|r t1 IH]; cbn [app].
  - rewrite !tmap_cons, merge_key, Hk. by rewrite insert_insert_eq.
  - rewrite !tmap_cons. inversion Hnd as [|? ? Hni Hnd']; subst. rewrite IH by done.
    apply insert_insert_ne. intros Heq. apply Hni. rewrite fmap_app, Heq. set_solver.
Qed.

(** On the map view, the upsert is one insertion. *)
Lemma upsert_row_tmap new t t' :
  table_wf t → upsert_row merge new t = Ok t' → tmap t' = merge_into merge new (tmap t).
Proof.
  intros [Hnd _]. unfold upsert_row, merge_into.
  destruct (update_key merge new t) as [t''|] eqn:Hup.
  - intros [= <-]. destruct (update_key_Some _ _ _ _ Hup) as (t1 & old & t2 & -> & -> & Hk & Hni).
    rewrite tmap_replace by done.
    assert (tmap (t1 ++ old :: t2) !! key new = Some old) as ->; [|done].
    apply tmap_Some; [done|]. set_solver.
  - apply update_key_None in Hup. rewrite (proj2 (tmap_None t (key new))) by done.
    unfold insert_row. case_decide; [done|]. intros [= <-]. by apply tmap_app_fresh.
Qed.

End merge.
End pk.
End table.

(** ** A program logic for the monad

    [wp m Q w]: running [m] from [w] ends with a result and a world that
    satisfy [Q]. *)
Definition wp {A} (m : M A) (Q : result A → world → Prop) (w : world) : Prop :=
  Q (m w).1 (m w).2.

(** The world after one more statement, with new tables. *)
Definition tick (d : db) (w : world) : world := mkWorld d (S (w_calls w)) (w_uuids w) (w_times w).

Lemma wp_mono {A} (m : M A) (Q Q' : result A → world → Prop) w :
  wp m Q w → (∀ r w', Q r w' → Q' r w') → wp m Q' w.
Proof. unfold wp. eauto. Qed.

Lemma wp_and {A} (m : M A) (Q Q' : result A → world → Prop) w :
  wp m Q w → wp m Q' w → wp m (λ r w', Q r w' ∧ Q' r w') w.
Proof. done. Qed.

Lemma wp_ret {A} (a : A) (Q : result A → world → Prop) w : Q (Ok a) w → wp (mret a) Q w.
Proof. done. Qed.

Lemma wp_fail {A} e (Q : result A → world → Prop) w : Q (Err e) w → wp (fail e) Q w.
Proof. done. Qed.

Lemma wp_bind {A B} (m : M A) (f : A → M B) (Q : result B → world → Prop) w :
  wp m (λ r w', match r with Ok a => wp (f a) Q w' | Err e => Q (Err e) w' end) w →
  wp (m ≫= f) Q w.
Proof. unfold wp. rewrite run_bind. by destruct (m w) as [[a|e] w']. Qed.

Lemma wp_map_err {A} g (m : M A) (Q : result A → world → Prop) w :
  wp m (λ r w', match r with Ok a => Q (Ok a) w' | Err e => Q (Err (g e)) w' end) w →
  wp (map_err g m) Q w.
Proof. unfold wp. rewrite run_map_err. by destruct (m w) as [[a|e] w']. Qed.

(** An invariant of the body is an invariant of the loop, however it ends. *)
Lemma wp_range_invariant {A} (I : world → Prop) (l : list A) body w :
  (∀ x w, x ∈ l → I w → wp (body x) (λ _ w', I w') w) → I w → wp (range l body) (λ _ w', I w') w.
Proof.
  revert w. induction l as [|x l IH]; intros w Hbody HI; [done|]. cbn [range]. apply wp_bind.
  eapply wp_mono; [apply Hbody; [apply list_elem_of_here|done]|].
  intros [u|e] w' HI'; [|done]. apply IH; [|done].
  intros y w'' Hy. apply Hbody. by apply list_elem_of_further.
Qed.

Lemma range_app {A} (l1 l2 : list A) body w :
  range (l1 ++ l2) body w = (range l1 body ≫= λ _, range l2 body) w.
Proof.
  revert w. induction l1 as [|x l1 IH]; intros w; [done|]. cbn [app range]. rewrite !run_bind.
  destruct (body x w) as [[u|e] w']; [|done]. by rewrite IH, run_bind.
Qed.

Section env_lemmas.
Context `{Env}.

Lemma wp_uuid (Q : result string → world → Prop) w :
  Q (Ok (env_uuid (w_uuids w))) (mkWorld (w_db w) (w_calls w) (S (w_uuids w)) (w_times w)) →
  wp uuid_NewString Q w.
Proof. done. Qed.

Lemma wp_now (Q : result Z → world → Prop) w :
  Q (Ok (env_now (w_times w))) (mkWorld (w_db w) (w_calls w) (w_uuids w) (S (w_times w))) →
  wp time_Now_Unix Q w.
Proof. done. Qed.

(** A statement fails without effect, or takes effect with or without a reply. *)
Lemma wp_db_call {A} (s : stmt A) (Q : result A → world → Prop) w :
  (∀ e, Q (Err e) (tick (w_db w) w)) →
  (∀ a d r, s (w_db w) = Ok (a, d) → (r = Ok a ∨ ∃ e, r = Err e) → Q r (tick d w)) →
  wp (db_call s) Q w.
Proof.
  intros Herr Hok. unfold wp, db_call, execute, tick in *. cbn.
  destruct (s (w_db w)) as [[a d]|e] eqn:Hs; destruct (env_db (w_calls w)) as [|[] e'|k e']; cbn; eauto.
Qed.

(** A query fails, or yields some of the rows: all of them unless it is cut. *)
Lemma wp_query `{!EnvLaws} {A} (rows : db → list A) (Q : result (list A) → world → Prop) w :
  (∀ e, Q (Err e) (tick (w_db w) w)) →
  (∀ l, l ⊆+ rows (w_db w) → (env_db (w_calls w) = Delivered → l ≡ₚ rows (w_db w)) →
     Q (Ok l) (tick (w_db w) w)) →
  wp (query rows) Q w.
Proof.
  intros Herr Hok. unfold wp, query, query_reply, tick in *. cbn.
  pose proof (env_scan_perm (w_calls w) A (rows (w_db w))) as Hp.
  destruct (env_db (w_calls w)) as [|? e|k e]; cbn; [|done|].
  - apply Hok; [by rewrite Hp|done].
  - apply Hok; [|done]. etrans; [apply sublist_submseteq, sublist_take|]. by rewrite Hp.
Qed.

Lemma query_reply_delivered {A} (reply : nat → db → A) cut (Q : result A → world → Prop) w :
  env_db (w_calls w) = Delivered →
  Q (Ok (reply (w_calls w) (w_db w))) (tick (w_db w) w) → wp (query_reply reply cut) Q w.
Proof. intros Hd HQ. unfold wp, query_reply. cbn. by rewrite Hd. Qed.

Lemma query_delivered `{!EnvLaws} {A} (rows : db → list A) (Q : result (list A) → world → Prop) w :
  env_db (w_calls w) = Delivered →
  (∀ l, l ≡ₚ rows (w_db w) → Q (Ok l) (tick (w_db w) w)) →
  wp (query rows) Q w.
Proof.
  intros Hd Hok. apply query_reply_delivered; [done|]. apply Hok, env_scan_perm.
Qed.

Lemma wp_select `{!EnvLaws} {A} (rows : db → list A) (Q : result (list A) → world → Prop) w :
  (∀ e, Q (Err e) (tick (w_db w) w)) →
  (∀ l, l ≡ₚ rows (w_db w) → Q (Ok l) (tick (w_db w) w)) →
  wp (select rows) Q w.
Proof.
  intros Herr Hok. apply (wp_db_call (λ d, Ok (env_scan (w_calls w) A (rows d), d))); [done|].
  intros a d r [= <- <-] [->|[e ->]]; [|done]. apply Hok, env_scan_perm.
Qed.

Lemma db_call_delivered {A} (s : stmt A) (Q : result A → world → Prop) w :
  env_db (w_calls w) = Delivered →
  match s (w_db w) with Ok (a, d) => Q (Ok a) (tick d w) | Err e => Q (Err e) (tick (w_db w) w) end →
  wp (db_call s) Q w.
Proof. intros Hd. unfold wp, db_call, execute, tick. cbn. rewrite Hd. by destruct (s (w_db w)) as [[a d]|e]. Qed.

Lemma select_delivered `{!EnvLaws} {A} (rows : db → list A) (Q : result (list A) → world → Prop) w :
  env_db (w_calls w) = Delivered →
  (∀ l, l ≡ₚ rows (w_db w) → Q (Ok l) (tick (w_db w) w)) →
  wp (select rows) Q w.
Proof.
  intros Hd Hok. apply (db_call_delivered (λ d, Ok (env_scan (w_calls w) A (rows d), d))); [done|].
  apply Hok, env_scan_perm.
Qed.

End env_lemmas.

(** One step of the logic on the code at the head of a [wp]. *)
Ltac wp_step :=
  lazymatch goal with
  | |- wp (mret _) _ _ => apply wp_ret
  | |- wp (fail _) _ _ => apply wp_fail
  | |- wp (_ ≫= _) _ _ => apply wp_bind
  | |- wp (map_err _ _) _ _ => apply wp_map_err
  | |- wp uuid_NewString _ _ => apply wp_uuid
  | |- wp time_Now_Unix _ _ => apply wp_now
  end; cbv beta iota.
Ltac wp_steps := repeat wp_step.

(** [outcomes Q m]: however [m] is interrupted, if it ends its result satisfies
    [Q]. *)
Fixpoint outcomes {A} (Q : result A → Prop) (m : M A) : Prop :=
  match m with
  | Done r => Q r
  | Act _ next => ∀ w, outcomes Q (next w)
  end.

Lemma outcomes_catch {A B} (Q : result B → Prop) (k : result A → M B) (m : M A) :
  (∀ r, outcomes Q (k r)) → outcomes Q (catch k m).
Proof. intros Hk. induction m as [r|upd next IH]; [apply Hk|]. intros w. apply IH. Qed.

Lemma outcomes_run {A} (Q : result A → Prop) (m : M A) w : outcomes Q m → Q (run m w).1.
Proof. revert w. induction m as [r|upd next IH]; intros w Hm; [done|]. by apply IH. Qed.

(** ** Programs of one action

    Other goroutines come before or after such a program, never in between. *)
Definition final {A} (m : M A) : Prop := ∃ r, m = Done r.

Definition one_action {A} (m : M A) : Prop := ∃ upd next, m = Act upd next ∧ ∀ w, final (next w).

Lemma one_action_atomic {A} (f : world → result A * world) : one_action (atomic f).
Proof. eexists _, _. split; [done|]. intros w. by eexists. Qed.

Lemma one_action_catch {A B} (k : result A → M B) (m : M A) :
  one_action m → (∀ r, final (k r)) → one_action (catch k m).
Proof.
  intros (upd & next & -> & Hn) Hk. eexists _, _. split; [done|]. intros w. destruct (Hn w) as [r ->]. apply Hk.
Qed.

Lemma one_action_map_err {A} g (m : M A) : one_action m → one_action (map_err g m).
Proof. intros Hm. apply one_action_catch; [done|]. intros r. by eexists. Qed.

Lemma one_action_bind {A B} (m : M A) (f : A → M B) : one_action m → (∀ a, final (f a)) → one_action (m ≫= f).
Proof. intros Hm Hf. apply one_action_catch; [done|]. intros [a|e]; [apply Hf|by eexists]. Qed.

(** It answers with what holds at that moment and changes no table. *)
Definition answers_at {A} (m : M A) (P : world → A → Prop) (w : world) : Prop :=
  ∃ upd next, m = Act upd next ∧ w_db (upd w) = w_db w ∧ ∃ a, next w = Done (Ok a) ∧ P w a.

Lemma one_action_answers {A} (m : M A) (P : world → A → Prop) w :
  one_action m → w_db (run m w).2 = w_db w → (∃ a, (run m w).1 = Ok a ∧ P w a) → answers_at m P w.
Proof.
  intros (upd & next & -> & Hn) Hdb (a & Ha & HP). destruct (Hn w) as [r Hr]. cbn in Hdb, Ha. rewrite Hr in Hdb, Ha.
  exists upd, next. split_and!; [done|done|]. exists a. split; [|done]. rewrite Hr. cbn in Ha. by subst.
Qed.

(** ** What a program may do to the tables

    [keeps R m]: whatever happens to its statements, and whatever others do
    between them, every action of [m] relates the tables before and after by [R]
    and only draws new identifiers and moves the count of statements on. *)
Definition moves_on (w w' : world) : Prop := (w_uuids w ≤ w_uuids w')%nat ∧ (w_calls w ≤ w_calls w')%nat.

#[export] Instance moves_on_preorder : PreOrder moves_on.
Proof. split; [done|]. intros w1 w2 w3 [??] [??]. split; lia. Qed.

Section keeps.
Context `{Env} (R : relation db).

Fixpoint keeps {A} (m : M A) : Prop :=
  match m with
  | Done _ => True
  | Act upd next => ∀ w, R (w_db w) (w_db (upd w)) ∧ moves_on w (upd w) ∧ keeps (next w)
  end.

Lemma keeps_ret {A} (a : A) : keeps (mret a).
Proof. done. Qed.

Lemma keeps_fail {A} e : keeps (@fail A e).
Proof. done. Qed.

Lemma keeps_catch {A B} (k : result A → M B) (m : M A) : keeps m → (∀ r, keeps (k r)) → keeps (catch k m).
Proof. intros Hm Hk. induction m as [r|upd next IH]; cbn; [done|]. intros w. destruct (Hm w) as (? & ? & ?). auto. Qed.

Lemma keeps_bind {A B} (m : M A) (f : A → M B) : keeps m → (∀ a, keeps (f a)) → keeps (m ≫= f).
Proof. intros Hm Hf. apply keeps_catch; [done|]. by intros []. Qed.

Lemma keeps_map_err {A} g (m : M A) : keeps m → keeps (map_err g m).
Proof. intros Hm. by apply keeps_catch. Qed.

Lemma keeps_range {A} (l : list A) (body : A → M ()) : (∀ x, x ∈ l → keeps (body x)) → keeps (range l body).
Proof.
  induction l as [|x l IH]; intros Hb; [done|]. cbn [range]. apply keeps_bind; [apply Hb, list_elem_of_here|].
  intros _. apply IH. intros y Hy. by apply Hb, list_elem_of_further.
Qed.

Lemma keeps_atomic {A} (f : world → result A * world) :
  (∀ w, wp (atomic f) (λ _ w', R (w_db w) (w_db w') ∧ moves_on w w') w) → keeps (atomic f).
Proof. intros Hf w. by destruct (Hf w). Qed.

Context `{!PreOrder R}.

Lemma keeps_uuid : keeps uuid_NewString.
Proof. apply keeps_atomic. intros w. apply wp_uuid. split; [done|split; cbn; lia]. Qed.

Lemma keeps_now : keeps time_Now_Unix.
Proof. apply keeps_atomic. intros w. apply wp_now. done. Qed.

Lemma keeps_db_call {A} (s : stmt A) : (∀ d a d', s d = Ok (a, d') → R d d') → keeps (db_call s).
Proof.
  intros Hs. apply keeps_atomic. intros w. apply wp_db_call; [intros; split; [done|split; cbn; lia]|].
  intros a d r Ha _. split; [by eapply Hs|split; cbn; lia].
Qed.

Lemma keeps_select {A} (rows : db → list A) : keeps (select rows).
Proof.
  apply keeps_atomic. intros w.
  pose proof (wp_db_call (λ d, Ok (env_scan (w_calls w) A (rows d), d)) (λ _ w', R (w_db w) (w_db w') ∧ moves_on w w') w)
    as Hcall. apply Hcall; [intros; split; [done|split; cbn; lia]|]. intros a d r [= <- <-] _. split; [done|split; cbn; lia].
Qed.

Lemma keeps_query_reply {A} (reply : nat → db → A) cut : keeps (query_reply reply cut).
Proof. apply keeps_atomic. intros w. unfold wp. cbn. destruct (env_db (w_calls w)); (split; [done|split; cbn; lia]). Qed.

(** ... and so does the whole run. *)
Lemma keeps_run {A} (m : M A) : keeps m → ∀ w, R (w_db w) (w_db (run m w).2) ∧ (w_uuids w ≤ w_uuids (run m w).2)%nat.
Proof.
  induction m as [r|upd next IH]; intros Hm w; [done|]. destruct (Hm w) as (HR & [Hu _] & Hn).
  destruct (IH w Hn (upd w)) as [HR' Hu']. cbn. split; [by etrans|lia].
Qed.

End keeps.
Lemma keeps_impl (R R' : relation db) {A} (m : M A) : (∀ d d', R d d' → R' d d') → keeps R m → keeps R' m.
Proof.
  intros HR. induction m as [r|upd next IH]; [done|]. intros Hm w. destruct (Hm w) as (? & ? & ?). auto.
Qed.

Arguments keeps_run _ {_ _ _} _ _.

Ltac keeps_step :=
  lazymatch goal with
  | |- keeps _ (mret _) => apply keeps_ret
  | |- keeps _ (fail _) => apply keeps_fail
  | |- keeps _ (_ ≫= _) => apply keeps_bind; [|intros ?]
  | |- keeps _ (map_err _ _) => apply keeps_map_err
  | |- keeps _ uuid_NewString => apply keeps_uuid; apply _
  | |- keeps _ time_Now_Unix => apply keeps_now; apply _
  | |- keeps _ (select _) => apply keeps_select; apply _
  | |- keeps _ (db_call _) => apply keeps_db_call; [apply _|]
  | |- keeps _ (query _) => apply keeps_query_reply; apply _
  | |- keeps _ (query_reply _ _) => apply keeps_query_reply; apply _
  | |- keeps _ (range _ _) => apply keeps_range; intros ? ?
  | |- keeps _ (if ?b then _ else _) => destruct b
  | |- keeps _ (match ?x with _ => _ end) => destruct x
  end.
Ltac keeps_steps := repeat keeps_step.

(** ** A concrete environment

    Identifiers are decimal numerals, the clock stands still, every statement is
    delivered and scans return rows in insertion order. *)
Definition ideal_env : Env := {|
  env_uuid := λ n, pretty n;
  env_now := λ _, 1700000000;
  env_db := λ _, Delivered;
  env_scan := λ _ _ l, l;
  env_sql := λ _ _ _ _, Err (ErrMsg "syntax error");
|}.

Lemma ideal_laws : @EnvLaws ideal_env.
Proof. by split; [apply _|..]. Qed.

Definition empty_world : world := mkWorld empty_db 0 0 0.
