(* ===== verification/Pool.v ===== *)
(** * Goroutines over one database

    Handlers, the event collector and the jobs of the work queue use the
    repository at the same time.  A [pool] is a list of calls in progress and
    the world they share; its steps are single actions of the calls, in any
    order, and the start of new calls.  The second half is a logic for calls
    that are interrupted by others: a [Protocol] says what may be assumed of the
    world and of the other calls, and [rg] that a call, run under interruptions,
    follows the protocol and ends with a postcondition. *)
From S2P Require Import Prelude Dao Db.

(** ** Interleaved execution *)
Section pool.
Context {L : Type} (code : L → M ()) (allowed : L → world → Prop).

(** The calls in progress, each with what it was started as. *)
Record pool := mkPool {
  calls : list (L * M ());
  shared : world;
}.

(** One action of a call. *)
Inductive pool_act (p : pool) : pool → Prop :=
| act_step t l upd next :
    calls p !! t = Some (l, Act upd next) →
    pool_act p (mkPool (<[t := (l, next (shared p))]> (calls p)) (upd (shared p))).

(** The start of a call. *)
Inductive pool_start (p : pool) : pool → Prop :=
| start_step l : allowed l (shared p) → pool_start p (mkPool (calls p ++ [(l, code l)]) (shared p)).

Definition pool_step (p p' : pool) : Prop := pool_act p p' ∨ pool_start p p'.

Definition reachable (w : world) (p : pool) : Prop := rtc pool_step (mkPool [] w) p.

(** A call that is alone runs as [run] says. *)
Lemma pool_act_alone cs1 cs2 l m w :
  rtc pool_act (mkPool (cs1 ++ (l, m) :: cs2) w) (mkPool (cs1 ++ (l, Done (run m w).1) :: cs2) (run m w).2).
Proof.
  revert w. induction m as [r|upd next IH]; intros w; [done|].
  apply (rtc_l _ _ (mkPool (cs1 ++ (l, next w) :: cs2) (upd w))); [|apply IH].
  assert (cs1 ++ (l, next w) :: cs2 = <[length cs1 := (l, next w)]> (cs1 ++ (l, Act upd next) :: cs2)) as ->.
  { rewrite insert_app_r_alt by done. by rewrite Nat.sub_diag. }
  apply (act_step (mkPool (cs1 ++ (l, Act upd next) :: cs2) w) (length cs1) l upd next). cbn.
  rewrite lookup_app_r by done. by rewrite Nat.sub_diag.
Qed.

(** So calls that are made one after the other are one of the interleavings. *)
Lemma reachable_next w cs w1 l :
  reachable w (mkPool cs w1) → allowed l w1 →
  reachable w (mkPool (cs ++ [(l, Done (run (code l) w1).1)]) (run (code l) w1).2).
Proof.
  unfold reachable. intros Hreach Hl. etrans; [exact Hreach|]. eapply rtc_l; [right; by apply (start_step (mkPool cs w1) l)|].
  eapply rtc_subrel; [|apply (pool_act_alone cs [] l)]. intros p p' Hact. by left.
Qed.

(** What every action of every call does to the tables is done in the end. *)
Lemma steps_keep (R : relation db) `{!PreOrder R} p p' :
  (∀ l w, allowed l w → keeps R (code l)) → rtc pool_step p p' →
  Forall (λ c, keeps R c.2) (calls p) → R (w_db (shared p)) (w_db (shared p')).
Proof.
  intros Hcode Hsteps. induction Hsteps as [p|p p1 p2 Hstep _ IH]; intros Hcs; [done|].
  enough (Forall (λ c, keeps R c.2) (calls p1) ∧ R (w_db (shared p)) (w_db (shared p1))) as [Hcs1 HR].
  { etrans; [exact HR|by apply IH]. }
  destruct Hstep as [[t l upd next Ht]|[l Hl]]; cbn.
  - pose proof (Forall_lookup_1 _ _ _ _ Hcs Ht (shared p)) as (HR & _ & Hn). split; [|done]. by apply Forall_insert.
  - split; [|done]. apply Forall_app_2; [done|]. apply Forall_singleton. by eapply Hcode.
Qed.

Lemma reachable_keeps (R : relation db) `{!PreOrder R} w p :
  (∀ l w, allowed l w → keeps R (code l)) → reachable w p → R (w_db w) (w_db (shared p)).
Proof. intros Hcode Hreach. by apply (steps_keep R (mkPool [] w)). Qed.

(** Counters only grow. *)
Lemma steps_move (R : relation db) p p' :
  (∀ l w, allowed l w → keeps R (code l)) → rtc pool_step p p' →
  Forall (λ c, keeps R c.2) (calls p) → moves_on (shared p) (shared p') ∧ Forall (λ c, keeps R c.2) (calls p').
Proof.
  intros Hcode Hsteps. induction Hsteps as [p|p p1 p2 Hstep _ IH]; intros Hcs; [done|].
  enough (Forall (λ c, keeps R c.2) (calls p1) ∧ moves_on (shared p) (shared p1)) as [Hcs1 Hm].
  { destruct (IH Hcs1). split; [by etrans|done]. }
  destruct Hstep as [[t l upd next Ht]|[l Hl]]; cbn.
  - pose proof (Forall_lookup_1 _ _ _ _ Hcs Ht (shared p)) as (_ & Hm & Hn). split; [|done]. by apply Forall_insert.
  - split; [|done]. apply Forall_app_2; [done|]. apply Forall_singleton. by eapply Hcode.
Qed.

(** Calls come to their end, however they are interleaved: without new calls, no
    sequence of actions is infinite.  The world does not matter for it. *)
Inductive call_act (cs : list (L * M ())) : list (L * M ()) → Prop :=
| call_act_step t l upd next w :
    cs !! t = Some (l, Act upd next) → call_act cs (<[t := (l, next w)]> cs).

Lemma call_act_sn_cons l m cs : sn call_act cs → sn call_act ((l, m) :: cs).
Proof.
  revert cs. induction m as [r|upd next IHm]; intros cs Hcs; induction Hcs as [cs Hcs IHcs];
    constructor; intros cs' Hstep; inversion Hstep as [[|t] l' upd' next' w Ht]; simplify_eq/=.
  - apply IHcs. by apply (call_act_step cs t l' upd' next' w).
  - apply IHm. by constructor.
  - apply IHcs. by apply (call_act_step cs t l' upd' next' w).
Qed.

Lemma call_act_sn cs : sn call_act cs.
Proof.
  induction cs as [|[l m] cs IH]; [|by apply call_act_sn_cons]. constructor. intros cs' Hstep.
  by inversion Hstep.
Qed.

Lemma pool_act_sn p : sn pool_act p.
Proof.
  destruct p as [cs w]. pose proof (call_act_sn cs) as Hcs. revert w. induction Hcs as [cs _ IH]. intros w.
  constructor. intros p' Hstep. inversion Hstep as [t l upd next Ht]; subst. apply IH. by eapply call_act_step.
Qed.

(** A pool at rest has only finished calls. *)
Lemma pool_at_rest p : nf pool_act p → Forall (λ c, ∃ r, c.2 = Done r) (calls p).
Proof.
  intros Hnf. apply Forall_lookup. intros t [l [r|upd next]] Ht; [by exists r|]. destruct Hnf.
  eexists. by apply (act_step p t l upd next).
Qed.

(** An execution can be computed from the order in which the calls act. *)
Definition turn (t : nat) (p : pool) : pool :=
  match calls p !! t with
  | Some (l, Act upd next) => mkPool (<[t := (l, next (shared p))]> (calls p)) (upd (shared p))
  | _ => p
  end.

Definition started (ls : list L) (w : world) : pool := mkPool ((λ l, (l, code l)) <$> ls) w.

Definition schedule (ts : list nat) (p : pool) : pool := foldl (λ p t, turn t p) p ts.

Lemma turn_steps t p : rtc pool_act p (turn t p).
Proof.
  unfold turn. destruct (calls p !! t) as [[l [r|upd next]]|] eqn:Ht; [done| |done]. apply rtc_once. by econstructor.
Qed.

Lemma schedule_steps ts p : rtc pool_act p (schedule ts p).
Proof. revert p. induction ts as [|t ts IH]; intros p; [done|]. etrans; [apply turn_steps|apply IH]. Qed.

Lemma started_reachable ls w : Forall (λ l, allowed l w) ls → reachable w (started ls w).
Proof.
  intros Hls. enough (∀ ls0, rtc pool_step (started ls0 w) (started (ls0 ++ ls) w)) as Hall by apply (Hall []).
  induction Hls as [|l ls Hl _ IH]; intros ls0; [by rewrite app_nil_r|].
  eapply rtc_l; [right; by apply (start_step (started ls0 w) l)|]. cbn.
  specialize (IH (ls0 ++ [l])). unfold started in IH at 1. by rewrite fmap_app, <- app_assoc in IH.
Qed.

Lemma schedule_reachable ls ts w : Forall (λ l, allowed l w) ls → reachable w (schedule ts (started ls w)).
Proof.
  intros Hls. unfold reachable. etrans; [by apply started_reachable|].
  eapply rtc_subrel; [|apply schedule_steps]. intros p p' Hact. by left.
Qed.

End pool.
Arguments pool : clear implicits.

(** ** Protocols

    The world with, for every identifier drawn so far, the call that drew it:
    two calls never hold the same identifier. *)
Record owned := mkOwned {
  ow : world;
  owner : nat → option nat;
}.

(** An action of call [t] makes it the owner of the identifiers that it draws. *)
Definition act (t : nat) (upd : world → world) (g : owned) : owned :=
  mkOwned (upd (ow g))
    (λ k, if decide (w_uuids (ow g) ≤ k < w_uuids (upd (ow g)))%nat then Some t else owner g k).

(** [inv]: what always holds.  [rely t]: what the other calls may do while call
    [t] is interrupted.  [guar t]: what one action of call [t] may do. *)
Class Protocol := {
  inv : owned → Prop;
  rely : nat → relation owned;
  guar : nat → relation owned;
}.

(** What one call guarantees, the others may rely on; actions that leave the
    tables alone are harmless. *)
Class ProtocolLaws (P : Protocol) : Prop := {
  rely_preorder t :: PreOrder (rely t);
  guar_rely t t' g g' : t ≠ t' → inv g → inv g' → guar t g g' → rely t' g g';
  guar_frame t g g' :
    inv g → w_db (ow g') = w_db (ow g) → moves_on (ow g) (ow g') →
    (∀ k, owner g' k = if decide (w_uuids (ow g) ≤ k < w_uuids (ow g'))%nat then Some t else owner g k) →
    inv g' ∧ guar t g g';
}.

Section logic.
Context `{Env} {P : Protocol} {HP : ProtocolLaws P} (t : nat).

(** [g'] is what [g] may have become when call [t] goes on. *)
Definition later (g g' : owned) : Prop := rely t g g' ∧ inv g'.

(** [rg m Q g]: from [g] on, every action of [m] follows the protocol, and [Q]
    holds when [m] is done and remains true. *)
Fixpoint rg {A} (m : M A) (Q : result A → owned → Prop) (g : owned) : Prop :=
  match m with
  | Done r => ∀ g', later g g' → Q r g'
  | Act upd next => ∀ g', later g g' → inv (act t upd g') ∧ guar t g' (act t upd g') ∧ rg (next (ow g')) Q (act t upd g')
  end.

Lemma later_trans g1 g2 g3 : rely t g1 g2 → later g2 g3 → later g1 g3.
Proof. intros H12 [H23 Hi]. split; [by etrans|done]. Qed.

Lemma later_refl g : inv g → later g g.
Proof. done. Qed.

Lemma rg_stable {A} (m : M A) Q g g' : rely t g g' → rg m Q g → rg m Q g'.
Proof. intros Hr Hm. destruct m; intros g2 Hl; by apply Hm, (later_trans g g'). Qed.

(** It is enough to look at later worlds. *)
Lemma rg_later {A} (m : M A) Q g : (∀ g', later g g' → rg m Q g') → rg m Q g.
Proof. intros Hm. destruct m; intros g' Hl; apply (Hm g' Hl), later_refl, Hl. Qed.

Lemma rg_mono {A} (m : M A) (Q Q' : result A → owned → Prop) g :
  rg m Q g → (∀ r g', inv g' → Q r g' → Q' r g') → rg m Q' g.
Proof.
  intros Hm HQ. revert g Hm. induction m as [r|upd next IH]; intros g Hm g' Hl.
  - apply HQ; [apply Hl|by apply Hm].
  - destruct (Hm g' Hl) as (? & ? & ?). split_and!; try done. by apply IH.
Qed.

Lemma rg_catch {A B} (k : result A → M B) (m : M A) Q g :
  rg m (λ r g', rg (k r) Q g') g → rg (catch k m) Q g.
Proof.
  revert g. induction m as [r|upd next IH]; intros g Hm.
  - by apply rg_later.
  - intros g' Hl. destruct (Hm g' Hl) as (? & ? & ?). split_and!; try done. by apply IH.
Qed.

Lemma rg_ret {A} (a : A) (Q : result A → owned → Prop) g : (∀ g', later g g' → Q (Ok a) g') → rg (mret a) Q g.
Proof. done. Qed.

Lemma rg_fail {A} e (Q : result A → owned → Prop) g : (∀ g', later g g' → Q (Err e) g') → rg (fail e) Q g.
Proof. done. Qed.

Lemma rg_bind {A B} (m : M A) (f : A → M B) (Q : result B → owned → Prop) g :
  rg m (λ r g', match r with Ok a => rg (f a) Q g' | Err e => ∀ g'', later g' g'' → Q (Err e) g'' end) g →
  rg (m ≫= f) Q g.
Proof. intros Hm. apply rg_catch. eapply rg_mono; [exact Hm|]. by intros [a|e] g'. Qed.

Lemma rg_map_err {A} f (m : M A) (Q : result A → owned → Prop) g :
  rg m (λ r g', ∀ g'', later g' g'' → Q (match r with Ok a => Ok a | Err e => Err (f e) end) g'') g →
  rg (map_err f m) Q g.
Proof. intros Hm. by apply rg_catch. Qed.

(** One action. *)
Lemma rg_atomic {A} (f : world → result A * world) (Q : result A → owned → Prop) g :
  (∀ g', later g g' → let g1 := act t (λ w, (f w).2) g' in
     inv g1 ∧ guar t g' g1 ∧ ∀ g2, later g1 g2 → Q (f (ow g')).1 g2) →
  rg (atomic f) Q g.
Proof. done. Qed.

(** A loop whose body keeps a stable assertion. *)
Lemma rg_range {A} (l : list A) (body : A → M ()) (J : list A → owned → Prop) g :
  (∀ x l' g, J (x :: l') g → inv g → rg (body x) (λ r g', match r with Ok _ => J l' g' | Err _ => True end) g) →
  inv g → J l g → rg (range l body) (λ r g', match r with Ok _ => ∃ g0, J [] g0 ∧ later g0 g' | Err _ => True end) g.
Proof.
  intros Hbody. revert g. induction l as [|x l IH]; intros g Hi HJ.
  - intros g' Hl. by exists g.
  - cbn [range]. apply rg_bind. eapply rg_mono; [by apply Hbody|]. intros [u|e] g' Hi' Hr; [by apply IH|done].
Qed.

(** A call whose actions leave the tables alone follows every protocol. *)
Lemma rg_quiet {A} (m : M A) g : keeps eq m → rg m (λ _ _, True) g.
Proof.
  revert g. induction m as [r|upd next IH]; intros g Hm; [done|]. intros g' [_ Hi].
  destruct (Hm (ow g')) as (Hdb & Hu & Hn). destruct (guar_frame t g' (act t upd g') Hi (eq_sym Hdb) Hu); auto.
Qed.

(** The identifier that was drawn is the call's own. *)
Lemma rg_uuid (Q : result string → owned → Prop) g :
  (∀ g' g1 g2, later g g' → later g1 g2 → inv g1 → w_db (ow g1) = w_db (ow g') →
     w_uuids (ow g1) = S (w_uuids (ow g')) → moves_on (ow g') (ow g1) → owner g1 (w_uuids (ow g')) = Some t →
     Q (Ok (env_uuid (w_uuids (ow g')))) g2) →
  rg uuid_NewString Q g.
Proof.
  intros HQ. apply rg_atomic. intros g' Hl g1.
  destruct (guar_frame t g' g1) as [Hi1 Hg1]; [apply Hl|done|split; cbn; lia|done|].
  split_and!; [done..|]. intros g2 Hl2. apply (HQ g' g1 g2); try done.
  - split; cbn; lia.
  - subst g1. cbn. rewrite decide_True; [done|lia].
Qed.

Definition same_tables (g g' : owned) : Prop :=
  w_db (ow g') = w_db (ow g) ∧ w_uuids (ow g') = w_uuids (ow g) ∧ (w_calls (ow g) ≤ w_calls (ow g'))%nat ∧
  ∀ k, owner g' k = owner g k.

Lemma same_tables_ok g g' : inv g → same_tables g g' → inv g' ∧ guar t g g'.
Proof.
  intros Hi (Hdb & Hu & Hc & Ho). apply guar_frame; [done|done|split; lia|]. intros k. rewrite decide_False by lia. apply Ho.
Qed.

Lemma act_owner upd g k : w_uuids (upd (ow g)) = w_uuids (ow g) → owner (act t upd g) k = owner g k.
Proof. intros Hu. cbn. rewrite decide_False; [done|]. rewrite Hu. lia. Qed.

Lemma rg_now (Q : result Z → owned → Prop) g :
  (∀ now g' g1 g2, later g g' → same_tables g' g1 → later g1 g2 → Q (Ok now) g2) → rg time_Now_Unix Q g.
Proof.
  intros HQ. apply rg_atomic. intros g' Hl g1.
  destruct (guar_frame t g' g1) as [Hi1 Hg1]; [apply Hl|done..|].
  split_and!; [done..|]. intros g2 Hl2. apply (HQ _ g' g1 g2); try done. split_and!; [done..|].
  intros k. by apply act_owner.
Qed.

(** A statement sent after [w] and before [w'] was not delivered. *)
Definition lost_between (w w' : world) : Prop := ∃ n, (w_calls w ≤ n < w_calls w')%nat ∧ env_db n ≠ Delivered.

Lemma lost_between_mono w1 w1' w2 w2' :
  (w_calls w1' ≤ w_calls w1)%nat → (w_calls w2 ≤ w_calls w2')%nat → lost_between w1 w2 → lost_between w1' w2'.
Proof. intros H1 H2 (n & Hn & Hd). exists n. split; [lia|done]. Qed.

(** A statement: what it does if it is executed, and errors for other reasons
    only if it is not delivered. *)
Lemma rg_execute {A} (s : world → stmt A) (Q : result A → owned → Prop) g :
  (∀ e g' g1 g2, lost_between (ow g') (ow g1) → later g g' → inv g1 → guar t g' g1 → later g1 g2 → Q (Err e) g2) →
  (∀ g', later g g' →
     match s (ow g') (w_db (ow g')) with
     | Ok (a, d) => ∀ g1, ow g1 = tick d (ow g') → (∀ k, owner g1 k = owner g' k) →
                      inv g1 ∧ guar t g' g1 ∧ ∀ g2, later g1 g2 → Q (Ok a) g2
     | Err e => ∀ g1 g2, inv g1 → guar t g' g1 → later g1 g2 → Q (Err e) g2
     end) →
  rg (atomic (λ w, execute (s w) w)) Q g.
Proof.
  intros Hlossy Hs. apply rg_atomic. intros g' Hl g1. specialize (Hs g' Hl).
  assert (w_uuids (ow g1) = w_uuids (ow g')) as Hu.
  { subst g1. cbn. unfold execute. repeat case_match; done. }
  assert (∀ k, owner g1 k = owner g' k) as Ho by (intros k; by apply act_owner).
  assert (w_calls (ow g1) = S (w_calls (ow g'))) as Hc.
  { subst g1. cbn. unfold execute. repeat case_match; done. }
  assert (w_db (ow g1) = w_db (ow g') → inv g1 ∧ guar t g' g1) as Hframe.
  { intros Hdb. apply guar_frame; [apply Hl|exact Hdb|split; lia|done]. }
  assert (env_db (w_calls (ow g')) ≠ Delivered → lost_between (ow g') (ow g1)) as Hnd.
  { intros Hn. eexists. split; [|exact Hn]. lia. }
  assert (∀ e, execute (s (ow g')) (ow g') = (Err e, tick (w_db (ow g')) (ow g')) →
    (∀ g2, inv g1 → guar t g' g1 → later g1 g2 → Q (Err e) g2) →
    inv g1 ∧ guar t g' g1 ∧ ∀ g2, later g1 g2 → Q (execute (s (ow g')) (ow g')).1 g2) as Hno.
  { intros e He HQ. destruct Hframe as [? ?]; [subst g1; cbn; by rewrite He|]. split_and!; [done..|].
    intros g2 Hl2. rewrite He. by apply HQ. }
  destruct (s (ow g') (w_db (ow g'))) as [[a d]|e] eqn:Hsr.
  - assert (∀ r, execute (s (ow g')) (ow g') = (r, tick d (ow g')) → (r = Ok a ∨ lost_between (ow g') (ow g1) ∧ ∃ e, r = Err e) →
      inv g1 ∧ guar t g' g1 ∧ ∀ g2, later g1 g2 → Q (execute (s (ow g')) (ow g')).1 g2) as Hyes.
    { intros r Hr Hcase. destruct (Hs g1) as (? & ? & HQ); [subst g1; cbn; by rewrite Hr|done|]. split_and!; [done..|].
      intros g2 Hl2. rewrite Hr. destruct Hcase as [-> |[? [e ->]]]; [by apply HQ|by apply (Hlossy e g' g1)]. }
    unfold execute in Hyes, Hno. rewrite Hsr in Hyes, Hno. unfold execute. rewrite Hsr.
    destruct (env_db (w_calls (ow g'))) as [|[] e|k e]; [apply (Hyes (Ok a)); auto|..];
      try (apply (Hyes (Err e)); [done|right; split; [by apply Hnd|by eexists]]).
    apply (Hno e); [done|]. intros g2 ???. apply (Hlossy e g' g1); auto.
  - unfold execute in Hno. rewrite Hsr in Hno. unfold execute. rewrite Hsr.
    destruct (env_db (w_calls (ow g'))) as [|[] e'|k e']; [apply (Hno e); [done|]; by apply Hs|..];
      (apply (Hno e'); [done|]; intros g2 ???; apply (Hlossy e' g' g1); auto).
Qed.

Lemma rg_db_call {A} (s : stmt A) (Q : result A → owned → Prop) g :
  (∀ e g' g1 g2, lost_between (ow g') (ow g1) → later g g' → inv g1 → guar t g' g1 → later g1 g2 → Q (Err e) g2) →
  (∀ g', later g g' →
     match s (w_db (ow g')) with
     | Ok (a, d) => ∀ g1, ow g1 = tick d (ow g') → (∀ k, owner g1 k = owner g' k) →
                      inv g1 ∧ guar t g' g1 ∧ ∀ g2, later g1 g2 → Q (Ok a) g2
     | Err e => ∀ g1 g2, inv g1 → guar t g' g1 → later g1 g2 → Q (Err e) g2
     end) →
  rg (db_call s) Q g.
Proof. apply (rg_execute (λ _, s)). Qed.

Lemma rg_select `{!EnvLaws} {A} (rows : db → list A) (Q : result (list A) → owned → Prop) g :
  (∀ e g' g1 g2, lost_between (ow g') (ow g1) → later g g' → inv g1 → guar t g' g1 → later g1 g2 → Q (Err e) g2) →
  (∀ l g' g1 g2, later g g' → l ≡ₚ rows (w_db (ow g')) → same_tables g' g1 → later g1 g2 → Q (Ok l) g2) →
  rg (select rows) Q g.
Proof.
  intros Hlossy HQ. apply (rg_execute (λ w d, Ok (env_scan (w_calls w) A (rows d), d))); [done|].
  intros g' Hl g1 Hg1 Ho. assert (same_tables g' g1) as Hs.
  { split_and!; [by rewrite Hg1..| |done]. rewrite Hg1. cbn. lia. }
  destruct (same_tables_ok g' g1) as [??]; [apply Hl|done|]. split_and!; [done..|].
  intros g2 Hl2. eapply HQ; [done| |done|done]. apply env_scan_perm.
Qed.

End logic.

(** ** Soundness

    If every call that may be started satisfies its specification, then in every
    reachable pool the invariant holds and so does the postcondition of every
    finished call. *)
Section soundness.
Context `{Env} {P : Protocol} {HP : ProtocolLaws P} {L : Type} (code : L → M ()) (allowed : L → world → Prop).
Context (post : L → result () → owned → Prop).
Context (specified : ∀ t l g, inv g → allowed l (ow g) → rg t (code l) (post l) g).

Definition follows (p : pool L) : Prop :=
  ∃ g, ow g = shared p ∧ inv g ∧ ∀ t l m, calls p !! t = Some (l, m) → rg t m (post l) g.

Lemma follows_step p p' : follows p → pool_step code allowed p p' → follows p'.
Proof.
  intros (g & Hg & Hi & Hcs) [Hstep|Hstep].
  - destruct Hstep as [t l upd next Ht]. rewrite <- Hg. destruct (Hcs t l _ Ht g (conj (reflexivity _) Hi)) as (Hi' & Hgu & Hrg).
    exists (act t upd g). split_and!; [done|done|]. intros t' l' m'. cbn. rewrite list_lookup_insert_Some.
    intros [(<- & [= <- <-] & _)|[Hne Ht']]; [done|]. eapply rg_stable; [|by apply Hcs]. by apply (guar_rely t).
  - destruct Hstep as [l Hl]. exists g. split_and!; [done|done|]. intros t l' m. cbn.
    rewrite lookup_app_Some. intros [Ht|[_ Ht]]; [by apply Hcs|]. apply list_lookup_singleton_Some in Ht as [_ [= <- <-]].
    apply specified; [done|]. by rewrite Hg.
Qed.

Lemma pool_sound w o p :
  inv (mkOwned w o) → reachable code allowed w p →
  ∃ g, ow g = shared p ∧ inv g ∧ ∀ t l r, calls p !! t = Some (l, Done r) → post l r g.
Proof.
  intros Hi Hreach. assert (follows p) as (g & Hg & Hig & Hcs).
  { unfold reachable in Hreach. assert (follows (mkPool [] w)) as Hf by (by exists (mkOwned w o)). revert Hf.
    induction Hreach as [|p p1 p2 Hstep _ IH]; [done|]. intros Hf. apply IH. by eapply follows_step. }
  exists g. split_and!; [done..|]. intros t l r Ht. by apply (Hcs t l _ Ht).
Qed.

End soundness.
