(* ===== verification/QueueRepo.v ===== *)
(** * The queues of the repository

    Models [internal/database/repository/queue.go] over the table [queues]:
    [UpsertQueues], [AddQueues], [GetAllQueues], [GetQueuesPerPartition],
    [GetQueue], [DeleteQueues] and their helpers.  The SQL of each method is the
    statement passed to [db_call], [select] or [query]. *)
From S2P Require Import Prelude GoStrings Dao Db.

(** ** Rows *)

(** The unique index [idx_partition_queue_name]. *)
Definition queue_key (r : QueueRow) : string * string := (q_partition r, q_queue_name r).

(** INTEGER columns and CHECK (partition <> ''). *)
Definition queue_check (r : QueueRow) : option error :=
  if negb (in_range 32 (q_max_running_apps r) && in_range 32 (q_running_apps r)
           && in_range 32 (q_current_priority r))
  then Some out_of_range
  else if decide (q_partition r = "") then Some check_violation else None.

(** The named arguments of the INSERT statements. *)
Definition queue_row (id : string) (parentId : option string) (created_at : Z)
    (q : PartitionQueueDAOInfo) : QueueRow :=
  mkQueueRow id parentId created_at None (QueueName q) (Status q) (Partition q) (PendingResource q)
    (MaxResource q) (GuaranteedResource q) (AllocatedResource q) (PreemptingResource q) (HeadRoom q)
    (IsLeaf q) (IsManaged q) (Properties q) (Parent q) (TemplateInfo q) (AbsUsedCapacity q)
    (MaxRunningApps q) (RunningApps q) (CurrentPriority q) (AllocatingAcceptedApps q).

(** The SET list of ON CONFLICT (partition, queue_name) DO UPDATE. *)
Definition queue_merge (old excluded : QueueRow) : QueueRow :=
  mkQueueRow (q_id old) (q_parent_id old) (q_created_at old) (q_deleted_at old) (q_queue_name old)
    (q_status excluded) (q_partition old) (q_pending_resource excluded) (q_max_resource excluded)
    (q_guaranteed_resource excluded) (q_allocated_resource excluded)
    (q_preempting_resource excluded) (q_head_room excluded) (q_is_leaf excluded)
    (q_is_managed excluded) (q_properties old) (q_parent old) (q_template_info old)
    (q_abs_used_capacity old) (q_max_running_apps excluded) (q_running_apps excluded)
    (q_current_priority old) (q_allocating_accepted_apps old).

Definition upsert_queue_stmt (new : QueueRow) : stmt () := λ d,
  match queue_check new with
  | Some e => Err e
  | None => match upsert_row queue_key q_id queue_merge new (t_queues d) with
            | Ok t => Ok ((), set_queues t d)
            | Err e => Err e
            end
  end.

Definition insert_queue_stmt (new : QueueRow) : stmt string := λ d,
  match queue_check new with
  | Some e => Err e
  | None => match insert_unique queue_key q_id new (t_queues d) with
            | Ok t => Ok (q_id new, set_queues t d)
            | Err e => Err e
            end
  end.

(** [rows.Scan] of the columns of [queues]; the scanned queue has no children. *)
Definition scan_queue (r : QueueRow) : ModelQueue :=
  mkModelQueue (q_id r) (q_parent_id r)
    (mkPartitionQueueDAOInfo (q_queue_name r) (q_status r) (q_partition r) (q_pending_resource r)
       (q_max_resource r) (q_guaranteed_resource r) (q_allocated_resource r)
       (q_preempting_resource r) (q_head_room r) (q_is_leaf r) (q_is_managed r) (q_properties r)
       (q_parent r) (q_template_info r) [] (q_abs_used_capacity r) (q_max_running_apps r)
       (q_running_apps r) (q_current_priority r) (q_allocating_accepted_apps r))
    [] (Some (q_created_at r)) (q_deleted_at r).

(** UPDATE queues SET deleted_at = $1 WHERE id = $2. *)
Definition mark_deleted (now : Z) (id : string) (r : QueueRow) : QueueRow :=
  if decide (q_id r = id)
  then mkQueueRow (q_id r) (q_parent_id r) (q_created_at r) (Some now) (q_queue_name r) (q_status r)
         (q_partition r) (q_pending_resource r) (q_max_resource r) (q_guaranteed_resource r)
         (q_allocated_resource r) (q_preempting_resource r) (q_head_room r) (q_is_leaf r)
         (q_is_managed r) (q_properties r) (q_parent r) (q_template_info r) (q_abs_used_capacity r)
         (q_max_running_apps r) (q_running_apps r) (q_current_priority r)
         (q_allocating_accepted_apps r)
  else r.

(** WHERE queue_name = $1 AND partition = $2 AND deleted_at IS NULL. *)
Definition alive_at (queueName partition : string) (r : QueueRow) : Prop :=
  q_queue_name r = queueName ∧ q_partition r = partition ∧ q_deleted_at r = None.

#[export] Instance alive_at_dec n p r : Decision (alive_at n p r).
Proof. unfold alive_at. apply _. Defined.

(** ** Children maps *)
Definition children_map : Type := gmap string (list ModelQueue).

(** [childrenMap[id] = append(childrenMap[id], q)]. *)
Definition add_child (id : string) (q : ModelQueue) (m : children_map) : children_map :=
  <[id := default [] (m !! id) ++ [q]]> m.

(** [getChildrenFromMap]; [None] when the recursion is deeper than [fuel]. *)
Fixpoint getChildrenFromMap (fuel : nat) (queueID : string) (childrenMap : children_map) :
    option (list ModelQueue) :=
  match fuel with
  | O => None
  | S fuel' =>
      mapM (λ child, cs ← getChildrenFromMap fuel' (Id child) childrenMap;
                     Some (set_MChildren cs child))
        (default [] (childrenMap !! queueID))
  end.

(** The loop over the rows of [GetQueuesPerPartition]. *)
Definition group_row (acc : list ModelQueue * children_map) (q : ModelQueue) :
    list ModelQueue * children_map :=
  match ParentId q with
  | Some p => (acc.1, add_child p q acc.2)
  | None => (acc.1 ++ [q], acc.2)
  end.

Definition group_rows (rows : list ModelQueue) : list ModelQueue * children_map :=
  foldl group_row ([], ∅) rows.

Definition attach_children (fuel : nat) (m : children_map) (q : ModelQueue) : option ModelQueue :=
  cs ← getChildrenFromMap fuel (Id q) m; Some (set_MChildren cs q).

(** The rows of the recursive query of [GetQueue], generation by generation;
    [order] is the order of the rows inside a generation. *)
Definition children_of (frontier t : list QueueRow) : list QueueRow :=
  frontier ≫= λ g, filter (λ c, q_parent_id c = Some (q_id g)) t.

Fixpoint generations (order : list QueueRow → list QueueRow) (fuel : nat) (number : Z)
    (frontier t : list QueueRow) : option (list (QueueRow * Z)) :=
  match frontier with
  | [] => Some []
  | _ => match fuel with
         | O => None
         | S fuel' =>
             rest ← generations order fuel' (number + 1) (children_of frontier t) t;
             Some (((λ r, (r, number)) <$> order frontier) ++ rest)
         end
  end.

(** The loop over the rows of [GetQueue]. *)
Definition group_generation (acc : option ModelQueue * children_map) (row : QueueRow * Z) :
    option ModelQueue * children_map :=
  let q := scan_queue row.1 in
  match acc.1 with
  | None => if decide (row.2 = 0) then (Some q, acc.2)
            else match ParentId q with
                 | Some p => (None, add_child p q acc.2)
                 | None => acc
                 end
  | Some root => match ParentId q with
                 | Some p => (Some root, add_child p q acc.2)
                 | None => acc
                 end
  end.

(** All queues of a forest, parents before children. *)
Fixpoint flatten_model (q : ModelQueue) : list ModelQueue :=
  q :: (MChildren q ≫= flatten_model).

Section repo.
Context `{Env}.

(** ** Operations *)
Definition getQueueID (queueName partition : string) : M (option string) :=
  if decide (queueName = "") then mret None
  else
    id ← map_err (ErrPrefix "could not get queueName queue from DB: ")
           (rows ← select (λ d, filter (alive_at queueName partition) (t_queues d));
            match rows with
            | [] => fail (ErrSentinel ErrNoRows)
            | r :: _ => mret (q_id r)
            end);
    mret (Some id).

Definition upsert_queue (q : PartitionQueueDAOInfo) : M () :=
  parentId ← map_err (ErrPrefix "could not get parent queue from DB: ")
               (getQueueID (Parent q) (Partition q));
  id ← uuid_NewString;
  now ← time_Now_Unix;
  map_err (ErrPrefix "could not insert/update queue into DB: ")
    (db_call (upsert_queue_stmt (queue_row id parentId now q))).

Definition UpsertQueues (queues : list PartitionQueueDAOInfo) : M () := range queues upsert_queue.

(** One iteration of the loop of [AddQueues] for a queue whose partition is
    [partition]; it returns the value of the variable [parentId] after it. *)
Fixpoint add_queue (partition : string) (parentId : option string) (q : PartitionQueueDAOInfo)
    {struct q} :
    M (option string) :=
  parentId ← match parentId with
             | None => map_err (ErrPrefix "could not get parent queue from DB: ")
                         (getQueueID (Parent q) partition)
             | Some _ => mret parentId
             end;
  if decide (partition = "")
  then fail (ErrMsg ("partition is required for queue " +:+ QueueName q))
  else
    now ← time_Now_Unix;
    id ← map_err (ErrPrefix ("could not add queue " +:+ QueueName q +:+ " into DB: "))
           (id ← uuid_NewString;
            db_call (insert_queue_stmt (queue_row id parentId now (set_Partition partition q))));
    _ ← map_err (ErrPrefix ("could not add one or more children of queue " +:+ QueueName q
                            +:+ " into DB: "))
          ((fix add_children (pid : option string) (l : list PartitionQueueDAOInfo) {struct l} : M () :=
              match l with
              | [] => mret ()
              | child :: l' => pid' ← add_queue partition pid child; add_children pid' l'
              end) (Some id) (Children q));
    mret parentId.

Fixpoint AddQueues (parentId : option string) (queues : list PartitionQueueDAOInfo) : M () :=
  match queues with
  | [] => mret ()
  | q :: queues' => parentId' ← add_queue (Partition q) parentId q; AddQueues parentId' queues'
  end.

Definition GetAllQueues : M (list ModelQueue) :=
  rows ← map_err (ErrPrefix "could not get queues from DB: ") (query t_queues);
  mret (scan_queue <$> rows).

(** [None]: the recursion of [getChildrenFromMap] is deeper than [fuel]. *)
Definition GetQueuesPerPartition (fuel : nat) (partition : string) : M (option (list ModelQueue)) :=
  rows ← map_err (ErrPrefix "could not get queues from DB: ")
           (query (λ d, filter (λ r, q_partition r = partition) (t_queues d)));
  let '(queues, childrenMap) := group_rows (scan_queue <$> rows) in
  mret (mapM (attach_children fuel childrenMap) queues).

Definition GetQueue (fuel : nat) (partition queueName : string) : M (option ModelQueue) :=
  rows ← map_err (ErrPrefix "could not get queues from DB: ")
           (query_reply (λ n d, generations (env_scan n QueueRow) fuel 0
                           (filter (alive_at queueName partition) (t_queues d)) (t_queues d))
                        (λ k, fmap (take k)));
  match rows with
  | None => mret None
  | Some rows =>
      let '(rootQueue, childrenMap) := foldl group_generation (None, ∅) rows in
      match rootQueue with
      | None => fail (ErrMsg ("queue not found: " +:+ queueName))
      | Some root => mret (attach_children fuel childrenMap root)
      end
  end.

Fixpoint delete_queue (q : ModelQueue) : M () :=
  _ ← (fix delete_all (l : list ModelQueue) : M () :=
         match l with
         | [] => mret ()
         | c :: l' => _ ← delete_queue c; delete_all l'
         end) (MChildren q);
  now ← time_Now_Unix;
  map_err (ErrPrefix "could not delete queue from DB: ")
    (db_call (λ d, Ok ((), set_queues (mark_deleted now (Id q) <$> t_queues d) d))).

Definition DeleteQueues (queues : list ModelQueue) : M () := range queues delete_queue.

End repo.
