(* ===== verification/QueueInv.v ===== *)
(** * The invariant of the queues table

    [queues_wf] says that identifiers and (partition, name) pairs are unique,
    that every identifier was drawn from the supply, and that the parent of a
    row is an older row of the same partition, so that the parent links are
    acyclic.  Every write of the repository preserves it, whatever statement is
    lost on the way.  [AddQueues] can be used in ways that break the last part:
    [links] says how much of it is left. *)
From S2P Require Import Prelude GoStrings Dao Db QueueRepo.

(** The merge of an upsert keeps the identity of the old row. *)
Lemma queue_merge_key old new : queue_key (queue_merge old new) = queue_key old.
Proof. done. Qed.
Lemma queue_merge_id old new : q_id (queue_merge old new) = q_id old.
Proof. done. Qed.
Lemma mark_deleted_id now id r : q_id (mark_deleted now id r) = q_id r.
Proof. unfold mark_deleted. by case_decide. Qed.
Lemma mark_deleted_key now id r : queue_key (mark_deleted now id r) = queue_key r.
Proof. unfold mark_deleted. by case_decide. Qed.
Lemma mark_deleted_parent now id r : q_parent_id (mark_deleted now id r) = q_parent_id r.
Proof. unfold mark_deleted. by case_decide. Qed.
Lemma mark_deleted_partition now id r : q_partition (mark_deleted now id r) = q_partition r.
Proof. unfold mark_deleted. by case_decide. Qed.

Create HintDb queues.
#[export] Hint Resolve queue_merge_key queue_merge_id mark_deleted_id mark_deleted_key
  mark_deleted_parent mark_deleted_partition : queues.

Section inv.
Context `{EnvLaws}.

(** [a] was drawn before [b]. *)
Definition older (a b : string) : Prop :=
  ∃ n m : nat, (n < m)%nat ∧ a = env_uuid n ∧ b = env_uuid m.

(** What is known of the parent links: nothing, that a parent is an older row,
    or that it is an older row of the same partition. *)
Inductive links := AnyLinks | OlderParents | PartitionParents.

Definition parent_at (l : links) (t : list QueueRow) (r : QueueRow) (p : string) : Prop :=
  match l with
  | AnyLinks => True
  | OlderParents => ∃ r', r' ∈ t ∧ q_id r' = p ∧ older p (q_id r)
  | PartitionParents => ∃ r', r' ∈ t ∧ q_id r' = p ∧ q_partition r' = q_partition r ∧ older p (q_id r)
  end.

Record rows_wf_at {l : links} (issued : nat) (t : list QueueRow) : Prop := {
  wf_table : table_wf queue_key q_id t;
  wf_issued : ∀ r, r ∈ t → ∃ n, (n < issued)%nat ∧ q_id r = env_uuid n;
  wf_parent : ∀ r p, r ∈ t → q_parent_id r = Some p → parent_at l t r p;
}.

Definition rows_wf (issued : nat) (t : list QueueRow) : Prop := rows_wf_at (l := PartitionParents) issued t.

Definition queues_wf (w : world) : Prop := rows_wf (w_uuids w) (t_queues (w_db w)).

(** A row whose parent is an older row of its partition can be added. *)
Definition parent_ok (t : list QueueRow) (r : QueueRow) : Prop :=
  ∀ p, q_parent_id r = Some p → ∃ r', r' ∈ t ∧ q_id r' = p ∧ q_partition r' = q_partition r.

Definition parent_older (l : links) (t : list QueueRow) (r : QueueRow) : Prop :=
  ∀ p, q_parent_id r = Some p → parent_at l t r p.

(** Rows that keep their identifiers and partitions stay the parents they are. *)
Lemma parent_at_kept l t t' r r' p :
  (∀ x, x ∈ t → ∃ x', x' ∈ t' ∧ q_id x' = q_id x ∧ q_partition x' = q_partition x) →
  q_id r' = q_id r → q_partition r' = q_partition r → parent_at l t r p → parent_at l t' r' p.
Proof.
  intros Ht Hid Hpart. destruct l; cbn; [done|..]; rewrite Hid, ?Hpart.
  - intros (x & Hx & <- & Ho). destruct (Ht x Hx) as (x' & ? & ? & ?). by exists x'.
  - intros (x & Hx & <- & Hp & Ho). destruct (Ht x Hx) as (x' & ? & ? & ?). exists x'. split_and!; congruence.
Qed.

Section links.
Context {l : links}.
Notation rows_wf := (rows_wf_at (l := l)).

Lemma rows_wf_nil n : rows_wf n [].
Proof. split; [apply table_wf_nil|set_solver|set_solver]. Qed.

Lemma rows_wf_mono n m t : (n ≤ m)%nat → rows_wf n t → rows_wf m t.
Proof.
  intros Hle [Ht Hi Hp]. split; [done| |done].
  intros r Hr. destruct (Hi r Hr) as (k & ? & ?). exists k. split; [lia|done].
Qed.

(** The next identifier is new. *)
Lemma rows_wf_fresh n t : rows_wf n t → env_uuid n ∉ q_id <$> t.
Proof.
  intros [_ Hi _] (r & Heq & Hr)%list_elem_of_fmap.
  destruct (Hi r Hr) as (k & Hk & Hid). rewrite Hid in Heq. apply env_uuid_inj in Heq. lia.
Qed.

Lemma rows_wf_insert n k t r t' :
  rows_wf n t → (k < n)%nat → q_id r = env_uuid k → queue_key r ∉ queue_key <$> t → parent_older l t r →
  insert_row q_id r t = Ok t' → rows_wf n t'.
Proof.
  intros [Ht Hi Hp] Hk Hid Hkey Hpar Hins. pose proof (insert_row_wf _ _ _ _ _ Ht Hkey Hins) as Ht'.
  unfold insert_row in Hins. case_decide; [done|]. injection Hins as <-. split; [done|..].
  - intros r' [Hr'| ->%list_elem_of_singleton]%elem_of_app; eauto.
  - intros r' p Hr' Hpp. apply (parent_at_kept l t _ r'); [intros x Hx; exists x; set_solver|done|done|].
    apply elem_of_app in Hr' as [Hr'| ->%list_elem_of_singleton]; eauto.
Qed.

(** Rows may be rewritten when identifiers, keys and parents stay. *)
Lemma rows_wf_fmap n t (f : QueueRow → QueueRow) :
  (∀ r, q_id (f r) = q_id r) → (∀ r, queue_key (f r) = queue_key r) →
  (∀ r, q_parent_id (f r) = q_parent_id r) →
  rows_wf n t → rows_wf n (f <$> t).
Proof.
  intros Hid Hkey Hpar [[Hk Hpk] Hi Hp].
  assert (∀ r, q_partition (f r) = q_partition r) as Hpart.
  { intros r. specialize (Hkey r). by injection Hkey. }
  split.
  - split; rewrite <- list_fmap_compose; [rewrite (list_fmap_ext _ queue_key) by (intros; apply Hkey)
      |rewrite (list_fmap_ext _ q_id) by (intros; apply Hid)]; done.
  - intros ? (r & -> & Hr)%list_elem_of_fmap. rewrite Hid. eauto.
  - intros ? p (r & -> & Hr)%list_elem_of_fmap. rewrite Hpar. intros Hpp.
    apply (parent_at_kept l t _ r); [|done|done|by apply Hp]. intros x Hx. exists (f x).
    split; [by apply list_elem_of_fmap_2|done].
Qed.

Lemma rows_wf_update n t new t' :
  rows_wf n t → update_key queue_key queue_merge new t = Some t' → rows_wf n t'.
Proof.
  intros Hwf (t1 & old & t2 & -> & -> & Hk & _)%update_key_Some.
  destruct Hwf as [[Hnk Hnpk] Hi Hp].
  rewrite !fmap_app, !fmap_cons in Hnk. rewrite !fmap_app, !fmap_cons in Hnpk. split.
  - split; rewrite !fmap_app, !fmap_cons; done.
  - intros r [Hr|[-> |Hr]%elem_of_cons]%elem_of_app; [apply Hi|apply (Hi old)|apply Hi]; set_solver.
  - assert (∀ x, x ∈ t1 ++ old :: t2 → ∃ x', x' ∈ t1 ++ queue_merge old new :: t2 ∧
      q_id x' = q_id x ∧ q_partition x' = q_partition x) as Hfwd.
    { intros x [Hx|[-> |Hx]%elem_of_cons]%elem_of_app; [exists x|exists (queue_merge old new)|exists x]; set_solver. }
    intros r p [Hr|[-> |Hr]%elem_of_cons]%elem_of_app Hpp.
    1, 3: apply (parent_at_kept l _ _ r _ _ Hfwd); [done..|]; apply Hp; [set_solver|done].
    apply (parent_at_kept l _ _ old _ _ Hfwd); [done..|]. apply Hp; [set_solver|exact Hpp].
Qed.

Lemma rows_wf_upsert_at n k t new t' :
  rows_wf n t → (k < n)%nat → q_id new = env_uuid k → parent_older l t new →
  upsert_row queue_key q_id queue_merge new t = Ok t' → rows_wf n t'.
Proof.
  intros Hwf Hk Hid Hpar. unfold upsert_row.
  destruct (update_key queue_key queue_merge new t) as [t''|] eqn:Hup.
  - intros [= <-]. by eapply rows_wf_update.
  - apply update_key_None in Hup. by eapply rows_wf_insert.
Qed.

End links.

(** Every row is older than the next identifier. *)
Lemma parent_ok_older n t r : rows_wf n t → q_id r = env_uuid n → parent_ok t r → parent_older PartitionParents t r.
Proof.
  intros [_ Hi _] Hid Hpar p Hpp. destruct (Hpar p Hpp) as (r' & Hr' & <- & Hpart). exists r'. split_and!; [done..|].
  destruct (Hi r' Hr') as (k & Hk & Hid'). by exists k, n.
Qed.

Lemma rows_wf_snoc n t r :
  rows_wf n t → q_id r = env_uuid n → queue_key r ∉ queue_key <$> t → parent_ok t r →
  rows_wf (S n) (t ++ [r]).
Proof.
  intros Hwf Hid Hkey Hpar. eapply (rows_wf_insert (S n) n t); [by eapply rows_wf_mono; [|exact Hwf]; lia|lia|done|done| |].
  - by eapply parent_ok_older.
  - unfold insert_row. rewrite decide_False; [done|]. rewrite Hid. by eapply rows_wf_fresh.
Qed.

Lemma rows_wf_upsert n t new t' :
  rows_wf n t → q_id new = env_uuid n → parent_ok t new →
  upsert_row queue_key q_id queue_merge new t = Ok t' → rows_wf (S n) t'.
Proof.
  intros Hwf Hid Hpar. apply (rows_wf_upsert_at _ n); [|lia|done|by eapply parent_ok_older].
  eapply rows_wf_mono; [|exact Hwf]. lia.
Qed.

(** ** Operations *)

(** [getQueueID] changes nothing and finds a live row of that name. *)
Lemma wp_getQueueID n p (Q : result (option string) → world → Prop) w :
  (∀ e w', w' = w ∨ w' = tick (w_db w) w → Q (Err e) w') →
  (n = "" → Q (Ok None) w) →
  (∀ r, n ≠ "" → r ∈ t_queues (w_db w) → alive_at n p r →
     Q (Ok (Some (q_id r))) (tick (w_db w) w)) →
  wp (getQueueID n p) Q w.
Proof.
  intros Herr Hempty Hfound. unfold getQueueID. case_decide as Hn; [by apply Hempty|].
  wp_steps. apply wp_select; [intros e; apply Herr; by right|].
  intros [|r l] Hl; wp_steps; [apply Herr; by right|].
  assert (r ∈ filter (alive_at n p) (t_queues (w_db w))) as Hr by (rewrite <- Hl; set_solver).
  apply list_elem_of_filter in Hr as [??]. by apply Hfound.
Qed.

Lemma queues_wf_tick w : queues_wf w → queues_wf (tick (w_db w) w).
Proof. done. Qed.

Lemma upsert_queue_wf q w : queues_wf w → wp (upsert_queue q) (λ _ w', queues_wf w') w.
Proof.
  intros Hwf. unfold upsert_queue.
  assert (∀ parentId w', queues_wf w' → t_queues (w_db w') = t_queues (w_db w) →
    (∀ p, parentId = Some p → ∃ r', r' ∈ t_queues (w_db w) ∧ q_id r' = p ∧ q_partition r' = Partition q) →
    wp (id ← uuid_NewString; now ← time_Now_Unix;
        map_err (ErrPrefix "could not insert/update queue into DB: ")
          (db_call (upsert_queue_stmt (queue_row id parentId now q)))) (λ _ w', queues_wf w') w') as Hrest.
  { intros parentId w' Hwf' Ht Hpar. wp_steps. apply wp_db_call; cbn.
    - intros _. unfold queues_wf in *. cbn. eapply rows_wf_mono; [|done]. lia.
    - intros u d r Hs _. assert (queues_wf (tick d (mkWorld (w_db w') (w_calls w') (S (w_uuids w')) (S (w_times w'))))) as Hq;
        [|by destruct r].
      unfold upsert_queue_stmt in Hs. destruct (queue_check _); [done|].
      destruct (upsert_row _ _ _ _ _) as [t'|] eqn:Hup; [|done]. injection Hs as <- <-.
      unfold queues_wf. cbn. revert Hup. apply rows_wf_upsert; [exact Hwf'|done|].
      rewrite Ht. exact Hpar. }
  wp_steps. apply wp_getQueueID.
  - intros e w' [-> | ->]; done.
  - intros _. apply Hrest; [done|done|done].
  - intros r _ Hr (_ & Hpart & _). apply Hrest; [done|done|]. intros p [= <-]. eauto.
Qed.

Lemma UpsertQueues_wf qs w : queues_wf w → wp (UpsertQueues qs) (λ _ w', queues_wf w') w.
Proof. intros Hwf. apply wp_range_invariant; [|done]. intros q w' _. apply upsert_queue_wf. Qed.

(** Deleting rewrites only [deleted_at]. *)
Lemma delete_stmt_wf now id w :
  queues_wf w →
  wp (db_call (λ d, Ok ((), set_queues (mark_deleted now id <$> t_queues d) d))) (λ _ w', queues_wf w') w.
Proof.
  intros Hwf. apply wp_db_call; [done|]. intros u d r [= <- <-] _.
  apply rows_wf_fmap; auto with queues.
Qed.

Lemma delete_queue_wf q w : queues_wf w → wp (delete_queue q) (λ _ w', queues_wf w') w.
Proof.
  revert w. induction q as [q IH] using ModelQueue_tree_ind. intros w Hwf.
  destruct q as [id pid mq cs ca da]. cbn [MChildren] in IH. cbn [delete_queue MChildren Id].
  wp_step. apply (wp_mono _ (λ _ w', queues_wf w')).
  - revert w Hwf. induction IH as [|c cs Hc Hcs IHcs]; intros w Hwf; [done|].
    wp_step. eapply wp_mono; [by apply Hc|]. intros [u|e] w' Hw'; [|done]. by apply IHcs.
  - intros [u|e] w' Hw'; [|done]. wp_steps.
    eapply wp_mono; [by apply delete_stmt_wf|]. by intros [].
Qed.

Lemma DeleteQueues_wf qs w : queues_wf w → wp (DeleteQueues qs) (λ _ w', queues_wf w') w.
Proof. intros Hwf. apply wp_range_invariant; [|done]. intros q w' _. apply delete_queue_wf. Qed.

(** *** [AddQueues] *)

(** The parent identifier handed to a queue of a partition is a row of it. *)
Definition pid_ok (partition : string) (pid : option string) (w : world) : Prop :=
  ∀ i, pid = Some i → ∃ r, r ∈ t_queues (w_db w) ∧ q_id r = i ∧ q_partition r = partition.

Definition grows (w w' : world) : Prop := t_queues (w_db w) `prefix_of` t_queues (w_db w').

#[local] Instance grows_preorder : PreOrder grows.
Proof. split; unfold grows; [intros w; done|intros w1 w2 w3; apply transitivity]. Qed.

Lemma grows_same w w' : t_queues (w_db w') = t_queues (w_db w) → grows w w'.
Proof. unfold grows. by intros ->. Qed.

Lemma pid_ok_grows partition pid w w' : grows w w' → pid_ok partition pid w → pid_ok partition pid w'.
Proof.
  intros [t Ht] Hpid i Hi. destruct (Hpid i Hi) as (r & Hr & ?). exists r. rewrite Ht. set_solver.
Qed.

(** What one iteration of the loop keeps. *)
Definition add_post (partition : string) (w : world) (r : result (option string)) (w' : world) : Prop :=
  queues_wf w' ∧ grows w w' ∧ match r with Ok pid => pid_ok partition pid w' | Err _ => True end.

Lemma add_post_intro partition w r w' :
  queues_wf w' → t_queues (w_db w') = t_queues (w_db w) →
  (∀ pid, r = Ok pid → pid_ok partition pid w') → add_post partition w r w'.
Proof.
  intros ???. split; [done|]. split; [by apply grows_same|]. destruct r; eauto.
Qed.

Lemma wp_insert_queue partition pid now q (w : world) :
  queues_wf w → pid_ok partition pid w →
  wp (id ← uuid_NewString;
      db_call (insert_queue_stmt (queue_row id pid now (set_Partition partition q))))
    (λ r w', queues_wf w' ∧ grows w w' ∧
       match r with Ok id => pid_ok partition (Some id) w' | Err _ => True end) w.
Proof.
  intros Hwf Hpid. wp_steps. apply wp_db_call.
  - intros e. split_and!; [|by apply grows_same|done]. unfold queues_wf in *. cbn. eapply rows_wf_mono; [|done]. lia.
  - intros id d r Hs Hr. unfold insert_queue_stmt in Hs. destruct (queue_check _); [done|].
    unfold insert_unique, insert_row in Hs. case_decide as Hkey; [done|]. case_decide as Hid; [done|].
    injection Hs as <- <-. split_and!.
    + by apply rows_wf_snoc.
    + by eexists.
    + destruct Hr as [-> |[e ->]]; [|done]. intros i [= <-]. cbn.
      exists (queue_row (env_uuid (w_uuids w)) pid now (set_Partition partition q)).
      split_and!; [set_solver|done|done].
Qed.

Lemma wp_add_parent partition pid q w :
  queues_wf w → pid_ok partition pid w →
  wp (match pid with
      | None => map_err (ErrPrefix "could not get parent queue from DB: ") (getQueueID (Parent q) partition)
      | Some _ => mret pid
      end) (add_post partition w) w.
Proof.
  intros Hwf Hpid. destruct pid as [i|]; wp_step; [by apply add_post_intro; [| |intros ? [= <-]]|].
  apply wp_getQueueID.
  - intros e w' [-> | ->]; by apply add_post_intro.
  - intros _. apply add_post_intro; [done|done|]. by intros ? [= <-].
  - intros r _ Hr (_ & Hpart & _). apply add_post_intro; [done|done|].
    intros ? [= <-] i [= <-]. eauto.
Qed.

Lemma add_queue_wf partition pid q w :
  queues_wf w → pid_ok partition pid w → wp (add_queue partition pid q) (add_post partition w) w.
Proof.
  revert pid w. induction q as [q IH] using PartitionQueueDAOInfo_tree_ind. intros pid w Hwf Hpid.
  destruct q as [? ? ? ? ? ? ? ? ? ? ? ? ? ? cs ? ? ? ? ?]; cbn [Children] in IH. cbn [add_queue].
  wp_step. eapply wp_mono; [by apply wp_add_parent|].
  intros [pid'|e] w1 (Hwf1 & Hg1 & Hpid1); [|done]. case_decide; [done|].
  wp_step. wp_step. wp_step. wp_step. eapply wp_mono; [by apply wp_insert_queue|].
  intros [id|e] w2 (Hwf2 & Hg2 & Hid); cbv beta iota; [|split; [done|]; split; [by etrans|done]].
  cbn [Children]. wp_step. wp_step.
  apply (wp_mono _ (λ _ w3, queues_wf w3 ∧ grows w2 w3)).
  - clear Hg2. revert w2 Hwf2 Hid. generalize (Some id).
    induction IH as [|c cs Hc Hcs IHcs]; intros pid2 w2 Hwf2 Hid2; [by split; [|apply grows_same]|].
    wp_step. eapply wp_mono; [by apply Hc|]. intros [pid3|e] w3 (Hwf3 & Hg3 & Hp3); [|done].
    eapply wp_mono; [by apply (IHcs pid3 w3)|].
    intros r w4 [Hwf4 Hg4]. split; [done|]. by etrans.
  - intros r w3 [Hwf3 Hg3]. assert (grows w1 w3) as Hg13 by by etrans.
    assert (grows w w3) as Hg03 by by etrans.
    destruct r as [u|e]; (split; [done|split; [done|]]); [|done].
    by apply (pid_ok_grows _ _ w1).
Qed.

Lemma AddQueues_wf partition pid qs w :
  queues_wf w → pid_ok partition pid w → Forall (λ q, Partition q = partition) qs →
  wp (AddQueues pid qs) (λ _ w', queues_wf w' ∧ grows w w') w.
Proof.
  intros Hwf Hpid Hqs. revert pid w Hwf Hpid.
  induction Hqs as [|q qs <- Hqs IH]; intros pid w Hwf Hpid; [by split; [|apply grows_same]|]. cbn [AddQueues].
  wp_step. eapply wp_mono; [by apply add_queue_wf|]. intros [pid'|e] w' (Hwf' & Hg & Hp); [|done].
  eapply wp_mono; [by apply IH|]. intros r w'' [??]. split; [done|]. by etrans.
Qed.

End inv.
