(* ===== verification/QueueTree.v ===== *)
(** * Rebuilding the queue trees

    [GetQueuesPerPartition] and [GetQueue] read flat rows and rebuild the trees
    through a map from parent identifiers to children.  The section [forest]
    proves, for any list of rows whose parent links are acyclic, that the
    recursion of [getChildrenFromMap] ends and that the forest it builds holds
    every row exactly once, under its parent. *)
From S2P Require Import Prelude GoStrings Dao Db QueueRepo QueueInv.

(** A queue without its children, as it was scanned. *)
Definition strip (q : ModelQueue) : ModelQueue := set_MChildren [] q.

Definition flatten_forest (l : list ModelQueue) : list ModelQueue := l ≫= flatten_model.

(** Every node of a forest holds the children that name it as their parent. *)
Definition well_parented (l : list ModelQueue) : Prop :=
  ∀ n c, n ∈ flatten_forest l → c ∈ MChildren n → ParentId c = Some (Id n).

Lemma flatten_model_eq q : flatten_model q = q :: flatten_forest (MChildren q).
Proof. by destruct q. Qed.

Lemma flatten_forest_cons q l : flatten_forest (q :: l) = flatten_model q ++ flatten_forest l.
Proof. done. Qed.

(** The nodes of a forest are its roots and the children of its nodes. *)
Lemma flatten_forest_children l :
  flatten_forest l ≡ₚ l ++ (flatten_forest l ≫= MChildren).
Proof.
  assert (∀ q, flatten_model q ≡ₚ q :: (flatten_model q ≫= MChildren)) as Hq.
  { intros q. induction q as [q IH] using ModelQueue_tree_ind. rewrite flatten_model_eq. cbn.
    f_equiv. fold (mbind (M:=list) MChildren).
    induction IH as [|c cs Hc Hcs IHcs]; [done|].
    rewrite flatten_forest_cons, bind_app. rewrite Hc at 1. cbn. f_equiv.
    rewrite IHcs at 1. solve_Permutation. }
  induction l as [|q l IH]; [done|]. rewrite flatten_forest_cons, bind_app.
  rewrite (Hq q) at 1. rewrite IH at 1. solve_Permutation.
Qed.

(** ** The children map *)
Definition kids (ms : list ModelQueue) (p : string) : list ModelQueue :=
  filter (λ q, ParentId q = Some p) ms.

Definition roots (ms : list ModelQueue) : list ModelQueue := filter (λ q, ParentId q = None) ms.

Lemma add_child_lookup id q m p :
  default [] (add_child id q m !! p) =
  default [] (m !! p) ++ (if decide (id = p) then [q] else []).
Proof.
  unfold add_child, children_map in *. case_decide as Hp.
  - subst. by rewrite lookup_insert_eq.
  - by rewrite lookup_insert_ne, app_nil_r by done.
Qed.

Lemma group_rows_spec ms :
  (group_rows ms).1 = roots ms ∧ ∀ p, default [] ((group_rows ms).2 !! p) = kids ms p.
Proof.
  unfold group_rows. induction ms as [|q ms [IH1 IH2]] using rev_ind; [done|].
  rewrite foldl_snoc. unfold group_row at 1 3, roots, kids. setoid_rewrite filter_app.
  destruct (ParentId q) as [i|] eqn:Hq; cbn [fst snd]; split.
  - rewrite IH1, filter_cons_False, filter_nil, app_nil_r by congruence. done.
  - intros p. rewrite add_child_lookup, IH2. f_equal. rewrite filter_cons, filter_nil.
    repeat case_decide; congruence.
  - by rewrite IH1, filter_cons_True.
  - intros p. rewrite IH2. rewrite filter_cons_False, filter_nil, app_nil_r by congruence. done.
Qed.

(** ** Counting identifiers *)
Definition cnt (i : string) (l : list ModelQueue) : nat := length (filter (λ q, Id q = i) l).

Lemma cnt_cons i q l : cnt i (q :: l) = ((if decide (Id q = i) then 1 else 0) + cnt i l)%nat.
Proof. unfold cnt. rewrite filter_cons. by case_decide. Qed.

Lemma cnt_app i l1 l2 : cnt i (l1 ++ l2) = (cnt i l1 + cnt i l2)%nat.
Proof. unfold cnt. by rewrite filter_app, length_app. Qed.

#[export] Instance cnt_proper i : Proper ((≡ₚ) ==> (=)) (cnt i).
Proof. intros l1 l2 Hl. unfold cnt. by rewrite Hl. Qed.

Lemma cnt_pos i l : (0 < cnt i l)%nat ↔ i ∈ Id <$> l.
Proof.
  induction l as [|q l IH]; [split; [cbn; lia|intros []%not_elem_of_nil]|]. rewrite cnt_cons, fmap_cons, elem_of_cons, <- IH.
  case_decide; naive_solver lia.
Qed.

Lemma cnt_zero i l : i ∉ Id <$> l → cnt i l = 0%nat.
Proof. rewrite <- cnt_pos. lia. Qed.

Lemma cnt_NoDup l : (∀ i, (cnt i l ≤ 1)%nat) ↔ NoDup (Id <$> l).
Proof.
  induction l as [|q l IH]; [split; [constructor|cbn; lia]|]. rewrite fmap_cons, NoDup_cons, <- IH. split.
  - intros Hc. split.
    + intros Hin%cnt_pos. specialize (Hc (Id q)). rewrite cnt_cons, decide_True in Hc by done. lia.
    + intros i. specialize (Hc i). rewrite cnt_cons in Hc. lia.
  - intros [Hni Hc] i. rewrite cnt_cons. case_decide as Hi; [|apply Hc].
    subst. rewrite cnt_zero by done. lia.
Qed.

Lemma cnt_bind_0 i (f : string → list ModelQueue) l :
  (∀ j, cnt i (f j) = 0%nat) → cnt i (l ≫= λ n, f (Id n)) = 0%nat.
Proof.
  intros Hf. induction l as [|n l IH]; [done|].
  by rewrite bind_cons, cnt_app, IH, Hf.
Qed.

(** Among rows with distinct identifiers, a row is a child of its parent only. *)
Lemma cnt_kids ms q j :
  NoDup (Id <$> ms) → q ∈ ms →
  cnt (Id q) (kids ms j) = if decide (ParentId q = Some j) then 1%nat else 0%nat.
Proof.
  intros Hnd Hq. case_decide as Hj.
  - assert (cnt (Id q) (kids ms j) ≤ 1)%nat.
    { apply cnt_NoDup. eapply sublist_NoDup; [exact Hnd|]. apply fmap_sublist, sublist_filter. }
    assert (0 < cnt (Id q) (kids ms j))%nat; [|lia].
    apply cnt_pos, list_elem_of_fmap_2, list_elem_of_filter. done.
  - apply cnt_zero. intros (q' & Hid & [Hp' Hq']%list_elem_of_filter)%list_elem_of_fmap.
    assert (q' = q) as ->; [|congruence]. by apply (NoDup_fmap_inj_in Id ms).
Qed.

(** The children given to the nodes of [l] count [q] once per parent of [q]. *)
Lemma cnt_bind_kids ms q l :
  NoDup (Id <$> ms) → q ∈ ms →
  cnt (Id q) (l ≫= λ n, kids ms (Id n)) = match ParentId q with Some p => cnt p l | None => 0%nat end.
Proof.
  intros Hnd Hq. induction l as [|n l IH]; [by destruct (ParentId q)|].
  rewrite bind_cons, cnt_app, IH, cnt_kids by done. destruct (ParentId q) as [p|]; [|by case_decide].
  rewrite cnt_cons. repeat case_decide; congruence.
Qed.

(** ** Forests of rows

    [rs] are the rows of the roots, [cs] the other rows, each of which names a
    row as its parent; the rank shows that the links are acyclic. *)
Record forest_rows (rs cs : list ModelQueue) (m : children_map) (rank : string → nat)
    (depth : nat) : Prop := {
  fr_map : ∀ p, default [] (m !! p) = kids cs p;
  fr_leaf : ∀ q, q ∈ rs ++ cs → MChildren q = [];
  fr_ids : NoDup (Id <$> rs ++ cs);
  fr_parent : ∀ q, q ∈ cs →
    ∃ p, ParentId q = Some p ∧ p ∈ Id <$> rs ++ cs ∧ (rank p < rank (Id q))%nat;
  fr_depth : ∀ q, q ∈ cs → (rank (Id q) < depth)%nat;
}.
Arguments fr_map {_ _ _ _ _} _.
Arguments fr_leaf {_ _ _ _ _} _.
Arguments fr_ids {_ _ _ _ _} _.
Arguments fr_parent {_ _ _ _ _} _.
Arguments fr_depth {_ _ _ _ _} _.

Section forest.
Context (rs cs : list ModelQueue) (m : children_map) (rank : string → nat) (depth : nat).
Context (Hf : forest_rows rs cs m rank depth).

Lemma kids_elem q id : q ∈ kids cs id → q ∈ cs ∧ (rank id < rank (Id q))%nat.
Proof.
  intros [Hp Hq]%list_elem_of_filter. split; [done|].
  destruct (fr_parent Hf q Hq) as (p & Hp' & _ & Hlt). congruence.
Qed.

(** The recursion ends: the rank grows from parent to child. *)
Lemma getChildrenFromMap_total fuel id :
  (0 < fuel)%nat → (depth ≤ fuel + rank id)%nat → ∃ F, getChildrenFromMap fuel id m = Some F.
Proof.
  revert id. induction fuel as [|fuel IH]; intros id Hpos Hfuel; [lia|]. cbn. rewrite (fr_map Hf).
  apply mapM_is_Some, Forall_forall. intros c [Hc Hlt]%kids_elem. pose proof (fr_depth Hf c Hc).
  unfold compose. destruct (IH (Id c)) as [F ->]; [lia|lia|]. by eexists.
Qed.

Lemma attach_children_total fuel l :
  (0 < fuel)%nat → (depth ≤ fuel)%nat → ∃ F, mapM (attach_children fuel m) l = Some F.
Proof.
  intros Hpos Hfuel. apply mapM_is_Some, Forall_forall. intros q _. unfold compose, attach_children.
  destruct (getChildrenFromMap_total fuel (Id q)) as [F ->]; [lia|lia|]. by eexists.
Qed.

(** What one level of the recursion returns: the rows that name [id] as their
    parent, each with its own children attached. *)
Definition attached (F : list ModelQueue) (l : list ModelQueue) : Prop :=
  Forall2 (λ t q, strip t = q ∧ ∃ fuel, getChildrenFromMap fuel (Id q) m = Some (MChildren t)) F l.

Lemma strip_leaf q : MChildren q = [] → strip q = q.
Proof. destruct q; cbn. by intros ->. Qed.

Lemma mapM_attached fuel l F :
  l ⊆ rs ++ cs → mapM (attach_children fuel m) l = Some F → attached F l.
Proof.
  revert F. induction l as [|q l IH]; intros F Hl; [intros [= <-]; constructor|]. cbn.
  intros (t & Ht & (F' & HF' & [= <-])%bind_Some)%bind_Some.
  constructor; [|by apply IH; [set_solver|]].
  unfold attach_children in Ht. apply bind_Some in Ht as (ts & Hts & [= <-]).
  split; [|by exists fuel]. change (strip q = q). apply strip_leaf, (fr_leaf Hf). set_solver.
Qed.

Lemma getChildrenFromMap_attached fuel id F :
  getChildrenFromMap fuel id m = Some F → attached F (kids cs id).
Proof.
  destruct fuel as [|fuel]; [done|]. cbn. rewrite (fr_map Hf). apply mapM_attached.
  intros q [Hq _]%kids_elem. set_solver.
Qed.

Lemma attached_strip F l : attached F l → strip <$> F = l.
Proof. induction 1 as [|t q F l [<- _] _ IH]; [done|]. cbn. by rewrite IH. Qed.

(** Every node below holds exactly the rows that name it. *)
Lemma attached_nodes F l n :
  attached F l → n ∈ flatten_forest F → strip <$> MChildren n = kids cs (Id n).
Proof.
  assert (∀ t fuel, getChildrenFromMap fuel (Id t) m = Some (MChildren t) →
    n ∈ flatten_model t → strip <$> MChildren n = kids cs (Id n)) as Ht.
  { intros t. induction t as [t IH] using ModelQueue_tree_ind. intros fuel Hcs%getChildrenFromMap_attached.
    rewrite flatten_model_eq. intros [-> |Hn]%elem_of_cons; [by apply attached_strip|].
    apply list_elem_of_bind in Hn as (c & Hn & Hc). rewrite Forall_forall in IH.
    unfold attached in Hcs. destruct (Forall2_in_l _ _ _ _ Hcs Hc) as (q & _ & <- & fuel' & Hq).
    by apply (IH c Hc fuel'). }
  intros HF (t & Hn & Htin)%list_elem_of_bind. unfold attached in HF.
  destruct (Forall2_in_l _ _ _ _ HF Htin) as (q & _ & <- & fuel & Hq). by apply (Ht t fuel).
Qed.

Lemma attached_well_parented F l : attached F l → well_parented F.
Proof.
  intros HF n c Hn Hc. pose proof (attached_nodes F l n HF Hn) as Hk.
  assert (strip c ∈ kids cs (Id n)) as [Hp _]%list_elem_of_filter; [|done].
  rewrite <- Hk. by apply list_elem_of_fmap_2.
Qed.

(** ** Every row occurs exactly once *)
Lemma stripped_children F :
  attached F rs → strip <$> flatten_forest F ≡ₚ rs ++ ((strip <$> flatten_forest F) ≫= λ n, kids cs (Id n)).
Proof.
  intros HF. rewrite flatten_forest_children at 1. rewrite fmap_app, (attached_strip F rs HF). f_equiv.
  rewrite list_fmap_bind, fmap_bind. apply reflexive_eq, bind_ext_elem.
  intros n Hn. by apply (attached_nodes F rs).
Qed.

Lemma cnt_forest F i : attached F rs → cnt i (strip <$> flatten_forest F) = cnt i (rs ++ cs).
Proof.
  intros HF. remember (rank i) as k eqn:Hk. revert i Hk.
  induction k as [k IH] using lt_wf_ind. intros i ->.
  rewrite (stripped_children F HF) at 1. rewrite !cnt_app.
  destruct (decide (i ∈ Id <$> cs)) as [(q & -> & Hq)%list_elem_of_fmap|Hni].
  - destruct (fr_parent Hf q Hq) as (p & Hp & Hin & Hlt).
    assert (NoDup (Id <$> cs)) as Hnd
      by (pose proof (fr_ids Hf) as Hids; rewrite fmap_app, NoDup_app in Hids; naive_solver).
    rewrite (cnt_bind_kids cs q) by done. rewrite Hp, (IH (rank p) Hlt p eq_refl).
    pose proof (proj2 (cnt_NoDup (rs ++ cs)) (fr_ids Hf)) as Hone.
    apply cnt_pos in Hin. pose proof (Hone p). pose proof (Hone (Id q)) as Hq1. rewrite cnt_app in Hq1.
    assert (0 < cnt (Id q) cs)%nat by (by apply cnt_pos, list_elem_of_fmap_2). lia.
  - rewrite (cnt_zero i cs) by done. f_equal. apply (cnt_bind_0 _ (kids cs)). intros j. apply cnt_zero.
    contradict Hni. apply list_elem_of_fmap in Hni as (q & -> & [Hq _]%kids_elem). by apply list_elem_of_fmap_2.
Qed.

Lemma attached_subset F x : attached F rs → x ∈ strip <$> flatten_forest F → x ∈ rs ++ cs.
Proof.
  intros HF Hx. rewrite (stripped_children F HF) in Hx. apply elem_of_app in Hx as [Hx|Hx]; [set_solver|].
  apply list_elem_of_bind in Hx as (n & [Hx _]%kids_elem & _). set_solver.
Qed.

(** The forest has every row exactly once. *)
Lemma attached_Permutation F : attached F rs → strip <$> flatten_forest F ≡ₚ rs ++ cs.
Proof.
  intros HF. assert (NoDup (Id <$> (strip <$> flatten_forest F))) as Hnd.
  { apply cnt_NoDup. intros i. rewrite cnt_forest by done. apply cnt_NoDup, (fr_ids Hf). }
  apply NoDup_Permutation; [by eapply NoDup_fmap_1|apply (NoDup_fmap_1 Id), (fr_ids Hf)|].
  intros x. split; [by apply attached_subset|]. intros Hx.
  assert (Id x ∈ Id <$> (strip <$> flatten_forest F)) as (y & Hid & Hy)%list_elem_of_fmap.
  { apply cnt_pos. rewrite cnt_forest by done. by apply cnt_pos, list_elem_of_fmap_2. }
  assert (x = y) as ->; [|done]. apply (NoDup_fmap_inj_in Id (rs ++ cs)); try done; [apply (fr_ids Hf)|]. by apply attached_subset in Hy.
Qed.

(** The whole construction, from the roots. *)
Lemma forest_built fuel :
  (0 < fuel)%nat → (depth ≤ fuel)%nat →
  ∃ F, mapM (attach_children fuel m) rs = Some F ∧ strip <$> F = rs ∧
    strip <$> flatten_forest F ≡ₚ rs ++ cs ∧ well_parented F.
Proof.
  intros Hpos Hfuel. destruct (attach_children_total fuel rs Hpos Hfuel) as [F HF].
  exists F. assert (attached F rs) as Hatt by (apply (mapM_attached fuel); [set_solver|done]).
  split_and!; [done|by apply attached_strip|by apply attached_Permutation|by eapply attached_well_parented].
Qed.

End forest.

(** ** Ranks from the order in which identifiers were drawn *)
Section reads.
Context `{EnvLaws}.

Lemma uuid_index issued : ∃ idx : string → nat, ∀ n, (n < issued)%nat → idx (env_uuid n) = n.
Proof.
  induction issued as [|k [idx IH]]; [by exists (λ _, 0%nat); lia|].
  exists (λ s, if decide (s = env_uuid k) then k else idx s). intros n Hn. case_decide as Heq.
  - by apply env_uuid_inj in Heq.
  - apply IH. assert (n ≠ k) by (by intros ->). lia.
Qed.

Lemma filter_length_lt {A} (P Q : A → Prop) `{!∀ x, Decision (P x), !∀ x, Decision (Q x)} l x :
  (∀ y, P y → Q y) → x ∈ l → Q x → ¬ P x → (length (filter P l) < length (filter Q l))%nat.
Proof.
  intros HPQ Hx HQ HP. induction l as [|y l IH]; [set_solver|].
  assert (length (filter P l) ≤ length (filter Q l))%nat as Hle.
  { clear -HPQ. induction l as [|z l IH]; [done|]. rewrite !filter_cons.
    repeat case_decide; cbn; naive_solver lia. }
  rewrite !filter_cons. apply elem_of_cons in Hx as [<- |Hx].
  - rewrite decide_False, decide_True by done. cbn. lia.
  - specialize (IH Hx). repeat case_decide; cbn; naive_solver lia.
Qed.

Lemma rank_exists issued (l : list QueueRow) :
  (∀ r, r ∈ l → ∃ n, (n < issued)%nat ∧ q_id r = env_uuid n) →
  ∃ rank : string → nat,
    (∀ r, r ∈ l → (rank (q_id r) < length l)%nat) ∧
    (∀ r r', r ∈ l → r' ∈ l → older (q_id r') (q_id r) → (rank (q_id r') < rank (q_id r))%nat).
Proof.
  intros Hissued. destruct (uuid_index issued) as [idx Hidx].
  exists (λ i, length (filter (λ r, (idx (q_id r) < idx i)%nat) l)). split.
  - intros r Hr. apply (length_filter_lt _ _ r); [done|lia].
  - intros r r' Hr Hr' (n & k & Hlt & Hn & Hk).
    assert (idx (q_id r') < idx (q_id r))%nat as Hlt'.
    { destruct (Hissued r Hr) as (k' & Hk' & Hk''). rewrite Hk'' in Hk. apply env_uuid_inj in Hk as ->.
      rewrite Hn, Hk'', !Hidx by lia. done. }
    apply (filter_length_lt _ _ _ r'); [lia|done|done|lia].
Qed.

(** The rows of a query on a well-formed table, split into roots and others,
    meet the conditions of [forest]. *)
Lemma scanned_ids (l : list QueueRow) : Id <$> (scan_queue <$> l) = q_id <$> l.
Proof. by rewrite <- list_fmap_compose. Qed.

Lemma scanned_leaf (l : list QueueRow) q : q ∈ scan_queue <$> l → MChildren q = [].
Proof. by intros (r & -> & _)%list_elem_of_fmap. Qed.

Lemma group_rows_forest issued t l partition :
  rows_wf issued t → l ≡ₚ filter (λ r, q_partition r = partition) t →
  ∃ cs rank, roots (scan_queue <$> l) ++ cs ≡ₚ scan_queue <$> l ∧
    forest_rows (roots (scan_queue <$> l)) cs (group_rows (scan_queue <$> l)).2 rank (length l).
Proof.
  intros [[_ Hpk] Hissued Hpar] Hl.
  assert (∀ r, r ∈ l ↔ q_partition r = partition ∧ r ∈ t) as Hin.
  { intros r. by rewrite Hl, list_elem_of_filter. }
  destruct (rank_exists issued l) as (rank & Hrank & Hold); [intros r Hr; apply Hissued; by apply Hin|].
  destruct (group_rows_spec (scan_queue <$> l)) as [_ Hm].
  set (ms := scan_queue <$> l) in *. set (cs := filter (λ q, ¬ ParentId q = None) ms).
  assert (roots ms ++ cs ≡ₚ ms) as Hsplit by apply filter_app_complement.
  assert (∀ q, q ∈ cs → ∃ r, r ∈ l ∧ q = scan_queue r) as Hrow.
  { intros q [_ (r & -> & Hr)%list_elem_of_fmap]%list_elem_of_filter. eauto. }
  exists cs, rank. split; [done|]. split.
  - intros p. rewrite Hm. unfold kids, cs. symmetry. apply list_filter_filter_l. congruence.
  - intros q. rewrite Hsplit. apply scanned_leaf.
  - rewrite Hsplit. unfold ms. rewrite scanned_ids, Hl.
    eapply sublist_NoDup; [exact Hpk|]. apply fmap_sublist, sublist_filter.
  - intros q Hq. destruct (Hrow q Hq) as (r & Hr & ->). apply list_elem_of_filter in Hq as [Hq _]. cbn in *.
    destruct (q_parent_id r) as [p|] eqn:Hp; [|done]. exists p. split; [done|].
    apply Hin in Hr as [Hpart Hr]. destruct (Hpar r p Hr Hp) as (r' & Hr' & <- & Hpart' & Holder).
    assert (r' ∈ l) as Hr'l by (apply Hin; split; congruence). split.
    + rewrite Hsplit. unfold ms. rewrite scanned_ids. by apply list_elem_of_fmap_2.
    + apply Hold; [by apply Hin|done|done].
  - intros q Hq. destruct (Hrow q Hq) as (r & Hr & ->). by apply Hrank.
Qed.

(** When the query gets its reply, [GetQueuesPerPartition] returns the whole
    partition as trees. *)
Definition partition_rows (partition : string) (w : world) : list QueueRow :=
  filter (λ r, q_partition r = partition) (t_queues (w_db w)).

Definition is_partition_forest (partition : string) (w : world) (F : list ModelQueue) : Prop :=
  strip <$> flatten_forest F ≡ₚ scan_queue <$> partition_rows partition w ∧
  Forall (λ q, ParentId q = None) F ∧ well_parented F.

Lemma wp_GetQueuesPerPartition fuel partition w :
  queues_wf w → env_db (w_calls w) = Delivered → (length (partition_rows partition w) < fuel)%nat →
  wp (GetQueuesPerPartition fuel partition)
    (λ r w', ∃ F, r = Ok (Some F) ∧ is_partition_forest partition w F ∧ w' = tick (w_db w) w) w.
Proof.
  intros Hwf Hd Hfuel. unfold GetQueuesPerPartition. wp_steps. apply query_delivered; [done|].
  intros l Hl. destruct (group_rows_forest _ _ l partition Hwf Hl) as (cs & rank & Hsplit & Hf).
  destruct (group_rows_spec (scan_queue <$> l)) as [Hroots _].
  destruct (group_rows (scan_queue <$> l)) as [rs m]. cbn [fst snd] in *. subst rs.
  apply Permutation_length in Hl as Hlen. unfold partition_rows in Hfuel.
  destruct (forest_built _ _ _ _ _ Hf fuel) as (F & HF & Hst & Hperm & Hwp); [lia|lia|].
  wp_step. exists F. rewrite HF. split; [done|]. split; [|done]. split_and!; [|  |done].
  - by rewrite Hperm, Hsplit, Hl.
  - apply Forall_forall. intros q Hq. assert (strip q ∈ roots (scan_queue <$> l)) as [Hn _]%list_elem_of_filter; [|done].
    rewrite <- Hst. by apply list_elem_of_fmap_2.
Qed.

End reads.
