(* ===== verification/QueueGet.v ===== *)
(** * [GetQueue]: one queue with all its descendants

    The recursive query of [GetQueue] returns the live queue of a name and the
    rows below it, generation by generation.  The query ends on a well-formed
    table, its rows are exactly the descendants of that queue, and the tree
    built from them holds each of them once. *)
From S2P Require Import Prelude GoStrings Dao Db QueueRepo QueueInv QueueTree.

(** [b] is a row whose parent is [a]. *)
Definition parent_of (t : list QueueRow) (a b : QueueRow) : Prop :=
  b ∈ t ∧ q_parent_id b = Some (q_id a).

Definition descends (t : list QueueRow) : QueueRow → QueueRow → Prop := rtc (parent_of t).

Lemma elem_of_children_of c l t : c ∈ children_of l t ↔ ∃ g, g ∈ l ∧ parent_of t g c.
Proof.
  unfold children_of, parent_of. rewrite list_elem_of_bind. setoid_rewrite list_elem_of_filter. naive_solver.
Qed.

Lemma children_of_app l1 l2 t : children_of (l1 ++ l2) t = children_of l1 t ++ children_of l2 t.
Proof. apply bind_app. Qed.

#[export] Instance children_of_proper : Proper ((≡ₚ) ==> (=) ==> (≡ₚ)) children_of.
Proof. intros l1 l2 Hl t ? <-. unfold children_of. by rewrite Hl. Qed.

Lemma numbered_fst (number : Z) (l : list QueueRow) : ((λ r, (r, number)) <$> l).*1 = l.
Proof. induction l as [|r l IH]; [done|]. cbn. by rewrite IH. Qed.

Section generations.
Context (order : list QueueRow → list QueueRow) (Horder : ∀ l, order l ≡ₚ l).
Context (t : list QueueRow).

(** The rows of the query are the frontier and the children of its rows. *)
Lemma generations_closed fuel number frontier rows :
  generations order fuel number frontier t = Some rows →
  rows.*1 ≡ₚ frontier ++ children_of rows.*1 t.
Proof.
  revert number frontier rows. induction fuel as [|fuel IH]; intros number frontier rows.
  - destruct frontier; [|done]. by intros [= <-].
  - destruct frontier as [|r l]; [by intros [= <-]|]. cbn [generations].
    intros (rest & Hrest & [= <-])%bind_Some. apply IH in Hrest.
    rewrite fmap_app, numbered_fst, Horder, children_of_app. by rewrite <- Hrest.
Qed.

(** Only the first generation has the first number. *)
Lemma generations_numbers fuel number frontier rows :
  generations order fuel number frontier t = Some rows →
  ∃ rest, rows = ((λ r, (r, number)) <$> order frontier) ++ rest ∧
    Forall (λ r, number < r.2 ∧ ∃ p, q_parent_id r.1 = Some p) rest.
Proof.
  revert number frontier rows. induction fuel as [|fuel IH]; intros number frontier rows.
  - destruct frontier; [|done]. intros [= <-]. exists []. split; [|done]. 
    by rewrite (proj1 (Permutation_nil_r _) (Horder [])).
  - destruct frontier as [|r l].
    { intros [= <-]. exists []. split; [|done]. by rewrite (proj1 (Permutation_nil_r _) (Horder [])). }
    cbn [generations]. intros (rest & Hrest & [= <-])%bind_Some. exists rest. split; [done|].
    destruct (IH _ _ _ Hrest) as (rest' & -> & Hrest'). apply Forall_app. split.
    + apply Forall_fmap, Forall_forall. intros c Hc. cbn. rewrite Horder in Hc.
      apply elem_of_children_of in Hc as (g & _ & _ & Hp). split; [lia|eauto].
    + eapply Forall_impl; [done|]. cbn. intros c [? ?]. split; [lia|done].
Qed.

Context (rank : string → nat) (depth : nat).
Context (Hrank : ∀ r, r ∈ t → (rank (q_id r) < depth)%nat).
Context (Hold : ∀ r p, r ∈ t → q_parent_id r = Some p → (rank p < rank (q_id r))%nat).

Lemma generations_total fuel number frontier :
  frontier ⊆ t → (∀ r, r ∈ frontier → (depth ≤ fuel + rank (q_id r))%nat) →
  ∃ rows, generations order fuel number frontier t = Some rows.
Proof.
  revert number frontier. induction fuel as [|fuel IH]; intros number frontier Hsub Hfuel;
    (destruct frontier as [|r l]; [by eexists|]).
  - pose proof (Hrank r). pose proof (Hfuel r). set_solver by lia.
  - cbn [generations]. destruct (IH (number + 1) (children_of (r :: l) t)) as [rest ->].
    + intros c (g & _ & Hc & _)%elem_of_children_of. done.
    + intros c (g & Hg & Hc & Hp)%elem_of_children_of. pose proof (Hold c _ Hc Hp). pose proof (Hfuel g Hg). lia.
    + by eexists.
Qed.

End generations.

(** ** The rows below one queue *)
Section below.
Context (t : list QueueRow) (rank : string → nat) (depth : nat).
Context (Hrank : ∀ r, r ∈ t → (rank (q_id r) < depth)%nat).
Context (Hold : ∀ r p, r ∈ t → q_parent_id r = Some p → (rank p < rank (q_id r))%nat).
Context (root : QueueRow) (rows : list (QueueRow * Z)) (Hroot : root ∈ t).
Context (Hids : NoDup (q_id <$> t)).
Context (Hclosed : rows.*1 ≡ₚ root :: children_of rows.*1 t).

Lemma below_cases r : r ∈ rows.*1 → r = root ∨ ∃ g, g ∈ rows.*1 ∧ parent_of t g r.
Proof. rewrite Hclosed at 1. rewrite elem_of_cons, elem_of_children_of. done. Qed.

Lemma below_table r : r ∈ rows.*1 → r ∈ t.
Proof. intros [-> |(g & _ & ? & _)]%below_cases; done. Qed.

Lemma below_child g c : g ∈ rows.*1 → parent_of t g c → c ∈ rows.*1.
Proof. intros Hg Hc. rewrite Hclosed. apply elem_of_cons. right. apply elem_of_children_of. eauto. Qed.

Lemma below_descends r : r ∈ rows.*1 ↔ descends t root r.
Proof.
  split.
  - remember (rank (q_id r)) as k eqn:Hk. revert r Hk. induction k as [k IH] using lt_wf_ind.
    intros r -> Hr. destruct (below_cases r Hr) as [-> |(g & Hg & Hp)]; [done|].
    eapply rtc_r; [|exact Hp]. eapply IH; [|done|done]. destruct Hp. by apply Hold.
  - revert r. apply rtc_ind_r.
    + rewrite Hclosed. set_solver.
    + intros g c _ Hp Hg. by eapply below_child.
Qed.

Lemma below_rank r : r ∈ rows.*1 → (rank (q_id root) ≤ rank (q_id r))%nat.
Proof.
  rewrite below_descends. revert r. apply rtc_ind_r; [done|]. intros g c _ [Hc Hp] IH.
  pose proof (Hold c _ Hc Hp). lia.
Qed.

(** In terms of the scanned queues, every row of the table that names a row of
    the reply is again in the reply, once. *)
Lemma scanned_kids j : kids (scan_queue <$> t) j = scan_queue <$> filter (λ c, q_parent_id c = Some j) t.
Proof.
  unfold kids. clear. induction t as [|r l IH]; [done|]. rewrite fmap_cons, !filter_cons, IH. cbn.
  by case_decide.
Qed.

Lemma scanned_closed :
  scan_queue <$> rows.*1 ≡ₚ
    scan_queue root :: ((scan_queue <$> rows.*1) ≫= λ n, kids (scan_queue <$> t) (Id n)).
Proof.
  rewrite Hclosed at 1. rewrite fmap_cons. f_equiv. unfold children_of.
  rewrite fmap_bind, (list_fmap_bind scan_queue). apply reflexive_eq, bind_ext_elem. intros r _.
  unfold compose. by rewrite scanned_kids.
Qed.

Lemma below_NoDup : NoDup (q_id <$> rows.*1).
Proof.
  rewrite <- scanned_ids. apply cnt_NoDup. intros i.
  remember (rank i) as k eqn:Hk. revert i Hk. induction k as [k IH] using lt_wf_ind. intros i ->.
  destruct (decide (i ∈ q_id <$> rows.*1)) as [Hin|Hni]; [|rewrite cnt_zero; [lia|by rewrite scanned_ids]].
  apply list_elem_of_fmap in Hin as (r & -> & Hr). pose proof (below_table r Hr) as Hrt.
  rewrite scanned_closed, cnt_cons. change (q_id r) with (Id (scan_queue r)).
  rewrite (cnt_bind_kids (scan_queue <$> t)) 
    by first [by rewrite scanned_ids|by apply list_elem_of_fmap_2].
  cbn [Id ParentId scan_queue]. destruct (q_parent_id r) as [p|] eqn:Hp; [|case_decide; lia].
  case_decide as Heq; [|by apply (IH (rank p)); [apply Hold|]].
  rewrite cnt_zero; [done|]. rewrite scanned_ids. intros (g & -> & Hg%below_rank)%list_elem_of_fmap.
  assert (rank (q_id g) < rank (q_id r))%nat by (by apply Hold). rewrite Heq in Hg. lia.
Qed.

(** With the root first, the rows meet the conditions of the tree construction. *)
Lemma below_forest rest :
  rows = (root, 0) :: rest →
  forest_rows [scan_queue root] (scan_queue <$> rest.*1) (group_rows (scan_queue <$> rest.*1)).2 rank depth.
Proof.
  intros Hrows. assert ([scan_queue root] ++ (scan_queue <$> rest.*1) = scan_queue <$> rows.*1) as Hall by (by subst rows).
  pose proof below_NoDup as Hnd. split.
  - apply group_rows_spec.
  - rewrite Hall. intros q. apply scanned_leaf.
  - by rewrite Hall, scanned_ids.
  - rewrite Hall. intros q (r & -> & Hr)%list_elem_of_fmap.
    assert (r ∈ rows.*1) as Hin by (subst rows; by apply elem_of_cons; right).
    destruct (below_cases r Hin) as [-> |(g & Hg & Ht & Hp)].
    { subst rows. cbn in Hnd. apply NoDup_cons in Hnd as [[] _]. by apply list_elem_of_fmap_2. }
    exists (q_id g). split_and!; [done| |by apply Hold].
    rewrite scanned_ids. by apply list_elem_of_fmap_2.
  - intros q (r & -> & Hr)%list_elem_of_fmap. apply Hrank, below_table. subst rows. by apply elem_of_cons; right.
Qed.

End below.

Lemma group_generations root rest :
  Forall (λ r, ∃ p, q_parent_id r.1 = Some p) rest →
  foldl group_generation (Some root, ∅) rest = (Some root, (group_rows (scan_queue <$> rest.*1)).2).
Proof.
  induction rest as [|r rest IH] using rev_ind; [done|].
  intros [Hrest [(p & Hp) _]%Forall_cons]%Forall_app. unfold group_rows in *.
  rewrite !fmap_app, !foldl_app, (IH Hrest). cbn. unfold group_generation, group_row. cbn. by rewrite Hp.
Qed.

Section get.
Context `{EnvLaws}.

(** At most one live row has a given name and partition. *)
Lemma alive_cases n t queueName partition :
  rows_wf n t →
  filter (alive_at queueName partition) t = [] ∨
  ∃ r, r ∈ t ∧ alive_at queueName partition r ∧ filter (alive_at queueName partition) t = [r].
Proof.
  intros [[Hkey _] _ _].
  assert (∀ r, r ∈ filter (alive_at queueName partition) t → queue_key r = (partition, queueName)) as Hk.
  { intros r [(Hn & Hp & _) _]%list_elem_of_filter. unfold queue_key. by rewrite Hn, Hp. }
  assert (NoDup (queue_key <$> filter (alive_at queueName partition) t)) as Hnd.
  { eapply sublist_NoDup; [exact Hkey|]. apply fmap_sublist, sublist_filter. }
  assert (∀ r, r ∈ filter (alive_at queueName partition) t → r ∈ t ∧ alive_at queueName partition r) as Hin.
  { intros r [??]%list_elem_of_filter. done. }
  destruct (filter (alive_at queueName partition) t) as [|r [|r' l]]; [by left| |].
  - right. exists r. split_and!; [apply Hin; set_solver|apply Hin; set_solver|done].
  - exfalso. rewrite !fmap_cons, !NoDup_cons in Hnd. destruct Hnd as [Hni _]. apply Hni.
    rewrite (Hk r), (Hk r') by set_solver. set_solver.
Qed.

(** [T] is the tree of all descendants of [root]: deleted descendants too. *)
Definition is_queue_tree (t : list QueueRow) (root : QueueRow) (T : ModelQueue) : Prop :=
  strip T = scan_queue root ∧ well_parented [T] ∧
  ∃ rows, NoDup rows ∧ (∀ r, r ∈ rows ↔ descends t root r) ∧
    strip <$> flatten_model T ≡ₚ scan_queue <$> rows.

(** The rank of a row among the rows of a well-formed table. *)
Lemma table_rank n t :
  rows_wf n t → ∃ rank : string → nat,
    (∀ r, r ∈ t → (rank (q_id r) < length t)%nat) ∧
    (∀ r p, r ∈ t → q_parent_id r = Some p → (rank p < rank (q_id r))%nat).
Proof.
  intros [_ Hissued Hpar]. destruct (rank_exists n t Hissued) as (rank & Hrank & Hold).
  exists rank. split; [done|]. intros r p Hr Hp.
  destruct (Hpar r p Hr Hp) as (r' & Hr' & <- & _ & Holder). by apply Hold.
Qed.

Lemma generations_tree n t order root fuel :
  rows_wf n t → (∀ l, order l ≡ₚ l) → root ∈ t → (length t < fuel)%nat →
  ∃ rest T, generations order fuel 0 [root] t = Some ((root, 0) :: rest) ∧
    Forall (λ r, ∃ p, q_parent_id r.1 = Some p) rest ∧
    attach_children fuel (group_rows (scan_queue <$> rest.*1)).2 (scan_queue root) = Some T ∧
    is_queue_tree t root T.
Proof.
  intros Hwf Horder Hroot Hfuel. destruct (table_rank n t Hwf) as (rank & Hrank & Hold).
  destruct (generations_total order Horder t rank (length t) Hrank Hold fuel 0 [root]) as [rows Hrows];
    [by intros ? ->%list_elem_of_singleton|intros; lia|].
  pose proof (generations_closed order Horder t _ _ _ _ Hrows) as Hclosed.
  destruct (generations_numbers order Horder t _ _ _ _ Hrows) as (rest & Heq & Hrest).
  rewrite (proj1 (Permutation_singleton_r _ _) (Horder [root])) in Heq. cbn in Heq, Hclosed. subst rows.
  pose proof (wf_pk _ _ _ (wf_table _ _ Hwf)) as Hids.
  pose proof (below_forest t rank _ Hrank Hold root _ Hroot Hids Hclosed rest eq_refl) as Hf.
  destruct (forest_built _ _ _ _ _ Hf fuel) as (F & HF & Hst & Hperm & Hwp); [lia|lia|].
  cbn in HF. destruct (attach_children _ _ _) as [T|] eqn:HT; [|done]. injection HF as <-.
  exists rest, T. split_and!; [done| |done|].
  { eapply Forall_impl; [done|]. by intros ? []. }
  apply (f_equal head), (inj Some) in Hst. split; [done|split; [done|]]. exists ((root, 0) :: rest).*1. split_and!.
  - apply (NoDup_fmap_1 q_id). by eapply below_NoDup.
  - intros r. by eapply below_descends.
  - rewrite <- (app_nil_r (flatten_model T)). exact Hperm.
Qed.

(** [GetQueue] with a complete reply: the queue is reported missing exactly when
    no live row has its name, and otherwise comes with all its descendants. *)
Lemma wp_GetQueue fuel partition queueName w :
  queues_wf w → env_db (w_calls w) = Delivered → (length (t_queues (w_db w)) < fuel)%nat →
  wp (GetQueue fuel partition queueName)
    (λ r w', w' = tick (w_db w) w ∧
       match filter (alive_at queueName partition) (t_queues (w_db w)) with
       | [] => r = Err (ErrMsg ("queue not found: " +:+ queueName))
       | root :: _ => ∃ T, r = Ok (Some T) ∧ is_queue_tree (t_queues (w_db w)) root T
       end) w.
Proof.
  intros Hwf Hd Hfuel. unfold GetQueue. wp_steps. apply query_reply_delivered; [done|]. cbv beta iota.
  destruct (alive_cases _ _ queueName partition Hwf) as [Hnil|(root & Hroot & Halive & Hone)].
  - rewrite Hnil. destruct fuel; [lia|]. done.
  - rewrite Hone. destruct (generations_tree _ _ (env_scan (w_calls w) QueueRow) root fuel Hwf)
      as (rest & T & -> & Hrest & HT & Htree); [intros l; apply env_scan_perm|done|done|].
    cbn [foldl]. change (group_generation (None, ∅) (root, 0)) with (Some (scan_queue root), ∅ : children_map).
    rewrite group_generations, HT by done. split; [done|]. by exists T.
Qed.

End get.
