(* ===== verification/QueueUpsert.v ===== *)
(** * What the queue writers achieve

    With every statement delivered, [UpsertQueues] stores a list in which each
    queue comes after its parent, and [DeleteQueues] marks exactly the queues
    of the trees it is given.  The effects are stated on the table as a map
    from (partition, name) to rows. *)
From S2P Require Import Prelude GoStrings Dao Db QueueRepo QueueInv.

Definition dao_key (q : PartitionQueueDAOInfo) : string * string := (Partition q, QueueName q).

(** The columns of a row that an upsert refreshes agree with the queue. *)
Record reflects (r : QueueRow) (q : PartitionQueueDAOInfo) : Prop := {
  reflects_key : queue_key r = dao_key q;
  reflects_status : q_status r = Status q;
  reflects_pending : q_pending_resource r = PendingResource q;
  reflects_max : q_max_resource r = MaxResource q;
  reflects_guaranteed : q_guaranteed_resource r = GuaranteedResource q;
  reflects_allocated : q_allocated_resource r = AllocatedResource q;
  reflects_preempting : q_preempting_resource r = PreemptingResource q;
  reflects_head_room : q_head_room r = HeadRoom q;
  reflects_is_leaf : q_is_leaf r = IsLeaf q;
  reflects_is_managed : q_is_managed r = IsManaged q;
  reflects_max_running : q_max_running_apps r = MaxRunningApps q;
  reflects_running : q_running_apps r = RunningApps q;
}.

(** What an upsert leaves as it was: the identity, the place in the tree and
    the columns that are only written on insertion. *)
Record same_identity (old r : QueueRow) : Prop := {
  same_id : q_id r = q_id old;
  same_parent_id : q_parent_id r = q_parent_id old;
  same_created : q_created_at r = q_created_at old;
  same_deleted : q_deleted_at r = q_deleted_at old;
  same_properties : q_properties r = q_properties old;
  same_parent : q_parent r = q_parent old;
  same_template : q_template_info r = q_template_info old;
  same_abs_used : q_abs_used_capacity r = q_abs_used_capacity old;
  same_priority : q_current_priority r = q_current_priority old;
  same_accepted : q_allocating_accepted_apps r = q_allocating_accepted_apps old;
}.

#[export] Instance same_identity_preorder : PreOrder same_identity.
Proof. split; [done|]. intros r1 r2 r3 [] []. split; congruence. Qed.

(** A queue that the table accepts. *)
Definition valid_queue (q : PartitionQueueDAOInfo) : Prop :=
  Partition q ≠ "" ∧ in_range 32 (MaxRunningApps q) ∧ in_range 32 (RunningApps q) ∧
  in_range 32 (CurrentPriority q).

Lemma valid_queue_check q id pid now : valid_queue q → queue_check (queue_row id pid now q) = None.
Proof.
  intros (Hp & H1 & H2 & H3). unfold queue_check. cbn. rewrite decide_False by done.
  apply Is_true_true in H1, H2, H3. by rewrite H1, H2, H3.
Qed.

(** The table of queues as a map. *)
Definition queue_map (w : world) : gmap (string * string) QueueRow := tmap queue_key (t_queues (w_db w)).

(** The keys of live queues, and what it takes for [qs] to be stored: parents
    come first or are live already, and no queue of the list was deleted. *)
Definition is_live (m : gmap (string * string) QueueRow) (k : string * string) : Prop :=
  ∃ r, m !! k = Some r ∧ q_deleted_at r = None.

Fixpoint parents_first (seen : (string * string) → Prop) (qs : list PartitionQueueDAOInfo) : Prop :=
  match qs with
  | [] => True
  | q :: qs' => (Parent q = "" ∨ seen (Partition q, Parent q)) ∧
                parents_first (λ k, k = dao_key q ∨ seen k) qs'
  end.

Definition not_deleted (m : gmap (string * string) QueueRow) (q : PartitionQueueDAOInfo) : Prop :=
  ∀ r, m !! dao_key q = Some r → q_deleted_at r = None.

Lemma parents_first_impl (P Q : (string * string) → Prop) qs :
  (∀ k, P k → Q k) → parents_first P qs → parents_first Q qs.
Proof.
  revert P Q. induction qs as [|q qs IH]; intros P Q HPQ; [done|]. cbn. intros [Hq Hqs]. split; [naive_solver|].
  eapply IH; [|done]. naive_solver.
Qed.

(** The parent link that a new row of [q] gets. *)
Definition parent_link (m : gmap (string * string) QueueRow) (q : PartitionQueueDAOInfo) : option string :=
  if decide (Parent q = "") then None else q_id <$> m !! (Partition q, Parent q).

(** The specification of one upsert on the map: one key is written. *)
Definition upserted (m : gmap (string * string) QueueRow) (q : PartitionQueueDAOInfo)
    (m' : gmap (string * string) QueueRow) : Prop :=
  ∃ r, m' = <[dao_key q := r]> m ∧ reflects r q ∧
    match m !! dao_key q with
    | Some old => same_identity old r
    | None => ∃ id now, r = queue_row id (parent_link m q) now q
    end.

(** ... and of a list of them. *)
Inductive upserted_all : gmap (string * string) QueueRow → list PartitionQueueDAOInfo →
    gmap (string * string) QueueRow → Prop :=
| upserted_nil m : upserted_all m [] m
| upserted_cons m q m1 qs m' : upserted m q m1 → upserted_all m1 qs m' → upserted_all m (q :: qs) m'.

(** The other tables. *)
Definition same_other_tables (d d' : db) : Prop := d' = set_queues (t_queues d') d.

#[export] Instance same_other_tables_preorder : PreOrder same_other_tables.
Proof.
  split; unfold same_other_tables, set_queues; [by intros []|]. intros [] [] [] H1 H2. by simplify_eq/=.
Qed.

Lemma queue_row_reflects id pid now q : reflects (queue_row id pid now q) q.
Proof. done. Qed.

Lemma queue_merge_reflects old id pid now q :
  queue_key old = dao_key q → reflects (queue_merge old (queue_row id pid now q)) q.
Proof. done. Qed.

Lemma queue_merge_identity old new : same_identity old (queue_merge old new).
Proof. done. Qed.

Section delivered.
Context `{EnvLaws} (Hdel : ∀ n, env_db n = Delivered).

Lemma queue_map_Some w k r :
  queues_wf w → queue_map w !! k = Some r ↔ r ∈ t_queues (w_db w) ∧ queue_key r = k.
Proof. intros Hwf. apply tmap_Some, (wf_key _ _ _ (wf_table _ _ Hwf)). Qed.

(** [getQueueID] finds a live queue and reports a missing one. *)
Lemma wp_getQueueID_found n p r (Q : result (option string) → world → Prop) w :
  queues_wf w → n ≠ "" → queue_map w !! (p, n) = Some r → q_deleted_at r = None →
  Q (Ok (Some (q_id r))) (tick (w_db w) w) → wp (getQueueID n p) Q w.
Proof.
  intros Hwf Hn Hr Hlive HQ. apply queue_map_Some in Hr as [Hin Hkey]; [|done]. injection Hkey as Hp Hq.
  assert (r ∈ filter (alive_at n p) (t_queues (w_db w))) as Hr by (by apply list_elem_of_filter).
  unfold getQueueID. rewrite decide_False by done. wp_steps. apply select_delivered; [done|].
  intros l Hl. rewrite <- Hl in Hr. destruct l as [|r' l]; [set_solver|]. wp_steps.
  assert (r' = r) as ->; [|done]. assert (r' ∈ r' :: l) as Hr' by set_solver. rewrite Hl in Hr'.
  apply list_elem_of_filter in Hr' as [(Hn' & Hp' & _) Hin'].
  apply (NoDup_fmap_inj_in queue_key (t_queues (w_db w))); [apply (wf_key _ _ _ (wf_table _ _ Hwf))|done|done|].
  unfold queue_key. congruence.
Qed.

Lemma wp_getQueueID_missing n p (Q : result (option string) → world → Prop) w :
  queues_wf w → n ≠ "" → ¬ is_live (queue_map w) (p, n) →
  Q (Err (ErrPrefix "could not get queueName queue from DB: " (ErrSentinel ErrNoRows))) (tick (w_db w) w) →
  wp (getQueueID n p) Q w.
Proof.
  intros Hwf Hn Hlive HQ. unfold getQueueID. rewrite decide_False by done. wp_steps.
  apply select_delivered; [done|]. intros [|r l] Hl; wp_steps; [done|].
  destruct Hlive. assert (r ∈ r :: l) as Hr by set_solver. rewrite Hl in Hr.
  apply list_elem_of_filter in Hr as [(Hq & Hp & Hd) Hr]. exists r. split; [|done].
  apply queue_map_Some; [done|]. split; [done|]. unfold queue_key. congruence.
Qed.

(** The parent's row gives the link. *)
Lemma wp_getQueueID_live q (Q : result (option string) → world → Prop) w :
  queues_wf w → (Parent q = "" ∨ is_live (queue_map w) (Partition q, Parent q)) →
  (∀ w', queues_wf w' → w_db w' = w_db w → Q (Ok (parent_link (queue_map w) q)) w') →
  wp (getQueueID (Parent q) (Partition q)) Q w.
Proof.
  intros Hwf Hpar HQ. unfold parent_link in HQ. destruct (decide (Parent q = "")) as [Hn|Hn].
  - unfold getQueueID. rewrite decide_True by done. by apply HQ.
  - destruct Hpar as [?|(r & Hr & Hlive)]; [done|]. rewrite Hr in HQ.
    by eapply wp_getQueueID_found; [..|by apply HQ].
Qed.

Lemma wp_upsert_queue q w :
  queues_wf w → valid_queue q → (Parent q = "" ∨ is_live (queue_map w) (Partition q, Parent q)) →
  wp (upsert_queue q)
    (λ r w', r = Ok () ∧ upserted (queue_map w) q (queue_map w') ∧
             same_other_tables (w_db w) (w_db w')) w.
Proof.
  intros Hwf Hvalid Hpar. unfold upsert_queue. wp_steps. apply wp_getQueueID_live; [done|done|].
  intros w1 Hwf1 Hdb. wp_steps. apply db_call_delivered; [done|]. cbn. unfold upsert_queue_stmt.
  rewrite valid_queue_check by done. set (new := queue_row _ _ _ q).
  destruct (upsert_row_ok queue_key q_id queue_merge new (t_queues (w_db w1))) as [t' Ht'].
  { apply (rows_wf_fresh _ _ Hwf1). }
  rewrite Ht'. split_and!; [done| |by rewrite Hdb; destruct (w_db w)].
  unfold queue_map in *. cbn [w_db tick t_queues set_queues]. rewrite <- Hdb.
  rewrite (upsert_row_tmap queue_key q_id queue_merge queue_merge_key queue_merge_id _ _ _
    (wf_table _ _ Hwf1) Ht').
  unfold merge_into, upserted. change (queue_key new) with (dao_key q). rewrite Hdb.
  destruct (tmap queue_key (t_queues (w_db w)) !! dao_key q) as [old|] eqn:Hold; eexists; split_and!; try done.
  - apply queue_merge_reflects. apply queue_map_Some in Hold as [_ ?]; done.
  - by eexists _, _.
Qed.

(** *** Consequences of one upsert *)
Lemma upserted_not_deleted m q m' q' :
  upserted m q m' → not_deleted m q → not_deleted m q' → not_deleted m' q'.
Proof.
  intros (r & -> & _ & Hr) Hq Hq' r'. destruct (decide (dao_key q = dao_key q')) as [Heq|Hne].
  - rewrite <- Heq, lookup_insert_eq. intros [= <-]. unfold not_deleted in Hq.
    destruct (m !! dao_key q) as [old|] eqn:Hold.
    + rewrite (same_deleted _ _ Hr). by apply Hq.
    + by destruct Hr as (id & now & ->).
  - rewrite lookup_insert_ne by done. apply Hq'.
Qed.

Lemma upserted_live m q m' k :
  upserted m q m' → not_deleted m q → k = dao_key q ∨ is_live m k → is_live m' k.
Proof.
  intros Hup Hq Hk. pose proof (upserted_not_deleted m q m' q Hup Hq Hq) as Hq'.
  destruct Hup as (r & -> & _ & _). unfold is_live, not_deleted in *.
  destruct (decide (k = dao_key q)) as [-> |Hne].
  - exists r. rewrite lookup_insert_eq in *. eauto.
  - destruct Hk as [?|Hk]; [done|]. by rewrite lookup_insert_ne.
Qed.

Lemma wp_UpsertQueues qs w :
  queues_wf w → Forall valid_queue qs → Forall (not_deleted (queue_map w)) qs →
  parents_first (is_live (queue_map w)) qs →
  wp (UpsertQueues qs)
    (λ r w', r = Ok () ∧ upserted_all (queue_map w) qs (queue_map w') ∧
             same_other_tables (w_db w) (w_db w')) w.
Proof.
  revert w. induction qs as [|q qs IH]; intros w Hwf Hvalid Hnd Hpf; [split; [done|by split; [constructor|]]|].
  apply Forall_cons in Hvalid as [Hv Hvs]. apply Forall_cons in Hnd as [Hn Hns]. destruct Hpf as [Hp Hps].
  unfold UpsertQueues. cbn [range]. wp_step.
  eapply wp_mono; [apply wp_and; [by apply (upsert_queue_wf q)|by apply wp_upsert_queue]|].
  intros r1 w1 (Hwf1 & -> & Hup & Hoth).
  eapply wp_mono; [apply (IH w1); try done|].
  - eapply Forall_impl; [exact Hns|]. intros q' Hq'. by eapply upserted_not_deleted.
  - eapply parents_first_impl; [|exact Hps]. intros k Hk. by eapply upserted_live.
  - cbn. intros r2 w2 (-> & Hall & Hoth2). split; [done|]. split; [by econstructor|by etrans].
Qed.

(** *** Reading the result of a list of upserts *)
Lemma upserted_all_other m qs m' k :
  upserted_all m qs m' → k ∉ dao_key <$> qs → m' !! k = m !! k.
Proof.
  induction 1 as [|m q m1 qs m' (r & -> & _) _ IH]; [done|].
  rewrite fmap_cons, not_elem_of_cons. intros [Hne Hni]. rewrite IH by done. by apply lookup_insert_ne.
Qed.

Lemma upserted_all_id m qs m' k r :
  upserted_all m qs m' → m !! k = Some r → ∃ r', m' !! k = Some r' ∧ same_identity r r'.
Proof.
  intros Hall. revert r. induction Hall as [|m q m1 qs m' (r1 & -> & _ & Hr1) _ IH]; intros r Hr; [by exists r|].
  destruct (decide (dao_key q = k)) as [<- |Hne].
  - rewrite Hr in Hr1. destruct (IH r1) as (r' & ? & ?); [apply lookup_insert_eq|]. exists r'.
    split; [done|]. by etrans.
  - apply IH. by rewrite lookup_insert_ne.
Qed.

Lemma parent_link_stable m qs m' q :
  upserted_all m qs m' → Parent q = "" ∨ is_live m (Partition q, Parent q) →
  parent_link m' q = parent_link m q.
Proof.
  intros Hall Hpar. unfold parent_link. case_decide as Hn; [done|].
  destruct Hpar as [?|(r & Hr & _)]; [done|]. rewrite Hr.
  destruct (upserted_all_id _ _ _ _ _ Hall Hr) as (r' & -> & Hsame). cbn. by rewrite (same_id _ _ Hsame).
Qed.

(** The row of a stored queue. *)
Definition stored (m : gmap (string * string) QueueRow) (q : PartitionQueueDAOInfo)
    (m' : gmap (string * string) QueueRow) : Prop :=
  ∃ r, m' !! dao_key q = Some r ∧ reflects r q ∧
    match m !! dao_key q with
    | Some old => same_identity old r
    | None => ∃ id now, r = queue_row id (parent_link m' q) now q
    end.

Lemma upserted_all_stored m qs m' :
  upserted_all m qs m' → NoDup (dao_key <$> qs) → Forall (not_deleted m) qs →
  parents_first (is_live m) qs → Forall (λ q, stored m q m') qs.
Proof.
  induction 1 as [|m q m1 qs m' Hup Hall IH]; [constructor|].
  rewrite fmap_cons, NoDup_cons, Forall_cons. intros [Hni Hnd] [Hn Hns] [Hp Hps].
  pose proof Hup as (r & Hm1 & Href & Hr). constructor.
  - exists r. rewrite (upserted_all_other _ _ _ _ Hall Hni), Hm1, lookup_insert_eq. split_and!; [done|done|].
    destruct (m !! dao_key q); [done|]. destruct Hr as (id & now & ->). exists id, now.
    rewrite (parent_link_stable m (q :: qs) m'); [done|by econstructor|done].
  - assert (∀ k, k ≠ dao_key q → m1 !! k = m !! k) as Hother.
    { intros k Hk. rewrite Hm1. by apply lookup_insert_ne. }
    assert (Forall (λ q', stored m1 q' m') qs) as Hst.
    { apply IH; [done| |].
      - eapply Forall_impl; [exact Hns|]. intros q''. by eapply upserted_not_deleted.
      - eapply parents_first_impl; [|exact Hps]. intros k. by eapply upserted_live. }
    apply Forall_forall. intros q' Hq'. rewrite Forall_forall in Hst. unfold stored in *.
    rewrite <- Hother by (intros Heq; apply Hni; rewrite <- Heq; by apply list_elem_of_fmap_2).
    by apply Hst.
Qed.

End delivered.
