(* ===== verification/QueueDelete.v ===== *)
(** * Deleting queues

    [DeleteQueues] marks every queue of the trees it is given, children first,
    and touches nothing else.  A deleted queue is not found again, and since an
    upsert keeps [deleted_at] it stays deleted: the queues below it can no
    longer be stored. *)
From S2P Require Import Prelude GoStrings Dao Db QueueRepo QueueInv QueueTree QueueUpsert.

Lemma mark_deleted_other now id r : q_id r ≠ id → mark_deleted now id r = r.
Proof. intros Hne. unfold mark_deleted. by rewrite decide_False. Qed.

Lemma mark_deleted_twice now now' id r :
  mark_deleted now' id (mark_deleted now id r) = mark_deleted now' id r.
Proof. unfold mark_deleted. destruct (decide (q_id r = id)) as [<- |]; cbn; by case_decide. Qed.

Lemma mark_deleted_at now id r : q_id r = id → q_deleted_at (mark_deleted now id r) = Some now.
Proof. intros <-. unfold mark_deleted. by rewrite decide_True. Qed.

Section delete.
Context `{EnvLaws}.

(** The rows of [ids] are marked, each at some reading of the clock. *)
Definition row_deleted (ids : list string) (r r' : QueueRow) : Prop :=
  if decide (q_id r ∈ ids) then ∃ k, r' = mark_deleted (env_now k) (q_id r) r else r' = r.

Definition rows_deleted (ids : list string) (w w' : world) : Prop :=
  Forall2 (row_deleted ids) (t_queues (w_db w)) (t_queues (w_db w')) ∧
  same_other_tables (w_db w) (w_db w').

Lemma row_deleted_id ids r r' : row_deleted ids r r' → q_id r' = q_id r.
Proof. unfold row_deleted. case_decide; [intros [k ->]; apply mark_deleted_id|congruence]. Qed.

Lemma row_deleted_trans ids1 ids2 r1 r2 r3 :
  row_deleted ids1 r1 r2 → row_deleted ids2 r2 r3 → row_deleted (ids1 ++ ids2) r1 r3.
Proof.
  intros H1 H2. pose proof (row_deleted_id _ _ _ H1) as Hid. unfold row_deleted in *. rewrite Hid in H2.
  destruct (decide (q_id r1 ∈ ids1)) as [Hin1|Hni1], (decide (q_id r1 ∈ ids2)) as [Hin2|Hni2].
  - rewrite decide_True by set_solver. destruct H1 as [k1 ->], H2 as [k2 ->]. exists k2.
    by rewrite mark_deleted_twice.
  - rewrite decide_True by set_solver. subst r3. done.
  - rewrite decide_True by set_solver. subst r2. done.
  - rewrite decide_False by set_solver. congruence.
Qed.

Lemma rows_deleted_trans ids1 ids2 w1 w2 w3 :
  rows_deleted ids1 w1 w2 → rows_deleted ids2 w2 w3 → rows_deleted (ids1 ++ ids2) w1 w3.
Proof.
  intros [H12 Ho12] [H23 Ho23]. split; [|by etrans].
  revert H12 H23. generalize (t_queues (w_db w1)) (t_queues (w_db w2)) (t_queues (w_db w3)).
  intros t1 t2 t3 H12. revert t3.
  induction H12 as [|r1 r2 t1 t2 Hr _ IH]; intros t3 H23; inversion H23; subst; constructor;
    [by eapply row_deleted_trans|by apply IH].
Qed.

Lemma rows_deleted_nil w : rows_deleted [] w w.
Proof. split; [|done]. by apply Forall_Forall2_diag, Forall_true. Qed.

Lemma rows_deleted_perm ids ids' w w' : ids ≡ₚ ids' → rows_deleted ids w w' → rows_deleted ids' w w'.
Proof.
  intros Hp [H1 H2]. split; [|done]. eapply Forall2_impl; [exact H1|]. intros r r'. unfold row_deleted.
  intros Hr. erewrite decide_ext; [exact Hr|]. by rewrite Hp.
Qed.

Context (Hdel : ∀ n, env_db n = Delivered).

Lemma wp_delete_stmt k id w :
  wp (db_call (λ d, Ok ((), set_queues (mark_deleted (env_now k) id <$> t_queues d) d)))
    (λ r w', r = Ok () ∧ rows_deleted [id] w w') w.
Proof.
  apply db_call_delivered; [done|]. split; [done|]. split; [|by destruct w as [[]]]. cbn.
  generalize (t_queues (w_db w)). intros t. induction t as [|r t IH]; [constructor|].
  constructor; [|exact IH]. unfold row_deleted. case_decide as Hr.
  - apply list_elem_of_singleton in Hr. subst id. by exists k.
  - apply mark_deleted_other. set_solver.
Qed.

Lemma wp_delete_queue q w :
  wp (delete_queue q) (λ r w', r = Ok () ∧ rows_deleted (Id <$> flatten_model q) w w') w.
Proof.
  revert w. induction q as [q IH] using ModelQueue_tree_ind. intros w.
  destruct q as [id pid mq cs ca da]. cbn [MChildren] in IH. cbn [delete_queue MChildren Id].
  wp_step. apply (wp_mono _ (λ r w', r = Ok () ∧ rows_deleted (Id <$> flatten_forest cs) w w')).
  - revert w. induction IH as [|c cs Hc Hcs IHcs]; intros w; [split; [done|apply rows_deleted_nil]|].
    wp_step. eapply wp_mono; [by apply Hc|]. intros r w' [-> Hw']. eapply wp_mono; [by apply IHcs|].
    intros r' w'' [-> Hw'']. split; [done|]. rewrite flatten_forest_cons, fmap_app. by eapply rows_deleted_trans.
  - intros r w' [-> Hw']. wp_steps. eapply wp_mono; [apply wp_delete_stmt|].
    intros r w'' [-> Hw'']. split; [done|].
    eapply rows_deleted_perm; [|eapply rows_deleted_trans; [exact Hw'|exact Hw'']].
    rewrite flatten_model_eq, fmap_cons. cbn. solve_Permutation.
Qed.

(** [DeleteQueues] marks the queues of all the trees. *)
Lemma wp_DeleteQueues F w :
  wp (DeleteQueues F) (λ r w', r = Ok () ∧ rows_deleted (Id <$> flatten_forest F) w w') w.
Proof.
  revert w. induction F as [|q F IH]; intros w; [split; [done|apply rows_deleted_nil]|].
  unfold DeleteQueues. cbn [range]. wp_step. eapply wp_mono; [apply wp_delete_queue|].
  intros r w1 [-> Hw1]. eapply wp_mono; [apply IH|]. intros r w2 [-> Hw2]. split; [done|].
  rewrite flatten_forest_cons, fmap_app. by eapply rows_deleted_trans.
Qed.

(** *** Reading a partition and deleting it *)
Definition delete_partition (fuel : nat) (partition : string) : M () :=
  F ← GetQueuesPerPartition fuel partition;
  match F with Some F => DeleteQueues F | None => fail (ErrMsg "stack overflow") end.

Lemma Forall2_in_r {A B} (R : A → B → Prop) l k y :
  Forall2 R l k → y ∈ k → ∃ x, x ∈ l ∧ R x y.
Proof. induction 1 as [|x' y' l k Hxy _ IH]; set_solver. Qed.

Lemma row_deleted_cases ids r r' :
  row_deleted ids r r' → q_partition r' = q_partition r ∧
  (q_id r ∈ ids → q_deleted_at r' ≠ None) ∧ (q_id r ∉ ids → r' = r).
Proof.
  unfold row_deleted. case_decide.
  - intros [k ->]. rewrite mark_deleted_partition, mark_deleted_at by done. done.
  - by intros ->.
Qed.

Lemma wp_delete_partition fuel partition w :
  queues_wf w → (length (partition_rows partition w) < fuel)%nat →
  wp (delete_partition fuel partition)
    (λ r w', r = Ok () ∧ Forall (λ r, q_deleted_at r ≠ None) (partition_rows partition w') ∧
       Forall2 (λ r r', q_partition r ≠ partition → r' = r) (t_queues (w_db w)) (t_queues (w_db w'))) w.
Proof.
  intros Hwf Hfuel. unfold delete_partition. wp_step. eapply wp_mono; [by apply wp_GetQueuesPerPartition|].
  intros r w1 (F & -> & (Hperm & _ & _) & ->). eapply wp_mono; [apply wp_DeleteQueues|].
  intros r w2 [-> [Hrows _]]. cbn [w_db tick] in Hrows. split; [done|].
  assert (∀ r, r ∈ t_queues (w_db w) → q_id r ∈ Id <$> flatten_forest F ↔ q_partition r = partition) as Hids.
  { intros r Hr. assert (Id <$> flatten_forest F = Id <$> (strip <$> flatten_forest F)) as ->
      by (by rewrite <- list_fmap_compose).
    rewrite Hperm, scanned_ids. unfold partition_rows. split.
    - intros (r' & Heq & [Hp Hr']%list_elem_of_filter)%list_elem_of_fmap.
      assert (r = r') as ->; [|done].
      by apply (NoDup_fmap_inj_in q_id (t_queues (w_db w))); [apply (wf_pk _ _ _ (wf_table _ _ Hwf))|..].
    - intros Hp. apply list_elem_of_fmap_2, list_elem_of_filter. done. }
  split.
  - apply Forall_forall. intros r' [Hp Hr']%list_elem_of_filter.
    destruct (Forall2_in_r _ _ _ _ Hrows Hr') as (r & Hr & (Hpart & Hd & _)%row_deleted_cases).
    apply Hd, Hids; congruence.
  - apply Forall2_same_length_lookup in Hrows as [Hlen Hrows]. apply Forall2_same_length_lookup. split; [done|].
    intros i r r' Hr Hr' Hp. destruct (row_deleted_cases _ _ _ (Hrows i r r' Hr Hr')) as (_ & _ & Hsame).
    apply Hsame. rewrite Hids; [done|]. by eapply list_elem_of_lookup_2.
Qed.

(** *** Orphans *)
Definition orphan_error : error :=
  ErrPrefix "could not get parent queue from DB: "
    (ErrPrefix "could not get queueName queue from DB: " (ErrSentinel ErrNoRows)).

(** A queue without a live parent is refused and nothing is written. *)
Lemma wp_upsert_orphan q w :
  Parent q ≠ "" → ¬ is_live (queue_map w) (Partition q, Parent q) → queues_wf w →
  wp (upsert_queue q) (λ r w', r = Err orphan_error ∧ w_db w' = w_db w) w.
Proof.
  intros Hn Hlive Hwf. unfold upsert_queue. wp_steps. by apply wp_getQueueID_missing.
Qed.

(** A deleted queue stays deleted through an upsert, so its children are refused. *)
Lemma wp_upsert_below_deleted p c old now w :
  queues_wf w → valid_queue p → (Parent p = "" ∨ is_live (queue_map w) (Partition p, Parent p)) →
  queue_map w !! dao_key p = Some old → q_deleted_at old = Some now →
  QueueName p ≠ "" → Parent c = QueueName p → Partition c = Partition p →
  wp (UpsertQueues [p; c])
    (λ r w', r = Err orphan_error ∧
       ∃ r, queue_map w' !! dao_key p = Some r ∧ reflects r p ∧ q_deleted_at r = Some now) w.
Proof.
  intros Hwf Hvalid Hpar Hold Hnow Hname Hc1 Hc2. unfold UpsertQueues. cbn [range]. wp_step.
  eapply wp_mono; [apply wp_and; [by apply (upsert_queue_wf p)|by apply wp_upsert_queue]|].
  intros r1 w1 (Hwf1 & -> & (r & Hm & Href & Hr) & _). rewrite Hold in Hr.
  assert (queue_map w1 !! dao_key p = Some r) as Hlook by (rewrite Hm; apply lookup_insert_eq).
  assert (q_deleted_at r = Some now) as Hdead by (by rewrite (same_deleted _ _ Hr)).
  wp_step. eapply wp_mono; [apply (wp_upsert_orphan c w1)|].
  - congruence.
  - rewrite Hc1, Hc2. change (Partition p, QueueName p) with (dao_key p). intros (r' & Hr' & Hd). rewrite Hlook in Hr'. congruence.
  - done.
  - intros r' w2 [-> Hdb]. split; [done|]. exists r. unfold queue_map in *. by rewrite Hdb.
Qed.

End delete.
