(* ===== verification/FlattenQueues.v ===== *)
(** * Flattening the queue hierarchy

    Models [flattenQueues] of [internal/yunikorn/sync.go] and proves that the
    list it hands to [UpsertQueues] has every queue after its parent and in the
    partition of its root, so that a scheduler's hierarchy is stored whole. *)
From S2P Require Import Prelude GoStrings Dao Db QueueRepo QueueInv QueueTree QueueUpsert.

(** What [flattenQueues] leaves in the queue it visits once the loops have
    stored the partition in all the arrays of children: the copies made by
    [util.ToPtrSlice] share those arrays. *)
Fixpoint propagate (partition : string) (q : PartitionQueueDAOInfo) : PartitionQueueDAOInfo :=
  set_Children (propagate partition <$> Children q) (set_Partition partition q).

(** The visit of a queue whose partition has been set to [partition]. *)
Fixpoint flatten_queue (partition : string) (q : PartitionQueueDAOInfo) : list PartitionQueueDAOInfo :=
  propagate partition q :: (Children q ≫= flatten_queue partition).

Definition flattenQueues (qs : list PartitionQueueDAOInfo) : list PartitionQueueDAOInfo :=
  qs ≫= λ q, flatten_queue (Partition q) q.

(** The queues of a tree. *)
Fixpoint subqueues (q : PartitionQueueDAOInfo) : list PartitionQueueDAOInfo :=
  q :: (Children q ≫= subqueues).

Lemma flatten_queue_eq p q :
  flatten_queue p q = propagate p q :: (Children q ≫= flatten_queue p).
Proof. by destruct q. Qed.

Lemma subqueues_eq q : subqueues q = q :: (Children q ≫= subqueues).
Proof. by destruct q. Qed.

Lemma propagate_fields p q :
  Partition (propagate p q) = p ∧ QueueName (propagate p q) = QueueName q ∧
  Parent (propagate p q) = Parent q ∧ MaxRunningApps (propagate p q) = MaxRunningApps q ∧
  RunningApps (propagate p q) = RunningApps q ∧ CurrentPriority (propagate p q) = CurrentPriority q.
Proof. by destruct q. Qed.

(** The output is the tree in preorder, with the partition of the root. *)
Lemma flatten_queue_subqueues p q : flatten_queue p q = propagate p <$> subqueues q.
Proof.
  induction q as [q IH] using PartitionQueueDAOInfo_tree_ind.
  rewrite flatten_queue_eq, subqueues_eq, fmap_cons, fmap_bind. f_equal.
  apply bind_ext_elem. by apply Forall_forall.
Qed.

(** The scheduler names each queue by its path: a child names its parent. *)
Definition names_parent (q : PartitionQueueDAOInfo) : Prop :=
  Forall (λ c, Parent c = QueueName q) (Children q).

Definition well_named (root : PartitionQueueDAOInfo) : Prop := Forall names_parent (subqueues root).

Lemma parents_first_app (P : (string * string) → Prop) l1 l2 :
  parents_first P l1 → parents_first P l2 → parents_first P (l1 ++ l2).
Proof.
  revert P. induction l1 as [|q l1 IH]; intros P; [done|]. cbn. intros [Hq Hl1] Hl2. split; [done|].
  apply IH; [done|]. eapply parents_first_impl; [|exact Hl2]. naive_solver.
Qed.

Lemma flatten_queue_parents_first p q (P : (string * string) → Prop) :
  well_named q → Parent q = "" ∨ P (p, Parent q) → parents_first P (flatten_queue p q).
Proof.
  revert P. induction q as [q IH] using PartitionQueueDAOInfo_tree_ind. intros P Hwn Hpar.
  rewrite flatten_queue_eq. unfold well_named in Hwn. rewrite subqueues_eq in Hwn.
  apply Forall_cons in Hwn as [Hn Hwn]. unfold names_parent in Hn.
  destruct (propagate_fields p q) as (Hp & Hname & Hparent & _).
  cbn [parents_first]. split; [by rewrite Hp, Hparent|].
  unfold dao_key. rewrite Hp, Hname. clear Hp Hname Hparent Hpar.
  induction IH as [|c cs Hc Hcs IHcs]; [done|]. rewrite bind_cons in Hwn |- *.
  apply Forall_app in Hwn as [Hwc Hwcs]. apply Forall_cons in Hn as [Hnc Hncs].
  apply parents_first_app; [|by apply IHcs]. apply Hc; [done|]. right. left. by rewrite Hnc.
Qed.

Lemma flattenQueues_parents_first qs (P : (string * string) → Prop) :
  Forall well_named qs → Forall (λ q, Parent q = "") qs → parents_first P (flattenQueues qs).
Proof.
  induction qs as [|q qs IH]; [done|]. intros [Hq Hqs]%Forall_cons [Hp Hps]%Forall_cons.
  apply parents_first_app; [|by apply IH]. apply flatten_queue_parents_first; [done|by left].
Qed.

(** A hierarchy that the table accepts: a root with a partition, integers that
    fit their columns, children that name their parents, distinct names. *)
Record acceptable (root : PartitionQueueDAOInfo) : Prop := {
  acc_partition : Partition root ≠ "";
  acc_top : Parent root = "";
  acc_ints : Forall (λ q, in_range 32 (MaxRunningApps q) ∧ in_range 32 (RunningApps q) ∧
                          in_range 32 (CurrentPriority q)) (subqueues root);
  acc_named : well_named root;
  acc_names : NoDup (QueueName <$> subqueues root);
  acc_nonempty : Forall (λ q, QueueName q ≠ "") (subqueues root);
}.

(** Every queue but the root names a queue of the hierarchy. *)
Lemma subqueues_parent root q :
  well_named root → q ∈ subqueues root →
  q = root ∨ ∃ p, p ∈ subqueues root ∧ Parent q = QueueName p.
Proof.
  induction root as [root IH] using PartitionQueueDAOInfo_tree_ind. unfold well_named.
  rewrite !subqueues_eq, Forall_cons, elem_of_cons. intros [Hn Hwn] [-> |Hq]; [by left|]. right.
  apply list_elem_of_bind in Hq as (c & Hq & Hc). rewrite Forall_forall in IH.
  assert (well_named c) as Hwc.
  { unfold well_named. rewrite Forall_forall in Hwn |- *. intros x Hx. apply Hwn, list_elem_of_bind. eauto. }
  destruct (IH c Hc Hwc Hq) as [-> |(p & Hp & Heq)].
  - exists root. split; [by apply elem_of_cons; left|]. unfold names_parent in Hn. rewrite Forall_forall in Hn.
    by apply Hn.
  - exists p. split; [|done]. apply elem_of_cons. right. apply list_elem_of_bind. eauto.
Qed.

Lemma elem_of_flatten p root q :
  q ∈ flatten_queue p root → ∃ q0, q = propagate p q0 ∧ q0 ∈ subqueues root.
Proof. rewrite flatten_queue_subqueues. apply list_elem_of_fmap. Qed.

Lemma flatten_valid root : acceptable root → Forall valid_queue (flatten_queue (Partition root) root).
Proof.
  intros Ha. apply Forall_forall. intros q (q0 & -> & Hq0)%elem_of_flatten.
  destruct (propagate_fields (Partition root) q0) as (Hp & _ & _ & H1 & H2 & H3).
  pose proof (acc_ints _ Ha) as Hints. rewrite Forall_forall in Hints. destruct (Hints q0 Hq0) as (? & ? & ?).
  unfold valid_queue. rewrite Hp, H1, H2, H3. split_and!; [apply (acc_partition _ Ha)|done..].
Qed.

Lemma flatten_keys p root :
  dao_key <$> flatten_queue p root = (λ n, (p, n)) <$> (QueueName <$> subqueues root).
Proof.
  rewrite flatten_queue_subqueues, <- !list_fmap_compose. apply list_fmap_ext. intros _ q _.
  unfold compose, dao_key. by destruct (propagate_fields p q) as (-> & -> & _).
Qed.

(** Roots of different partitions never clash. *)
Lemma flattenQueues_NoDup qs :
  NoDup (Partition <$> qs) → Forall acceptable qs → NoDup (dao_key <$> flattenQueues qs).
Proof.
  induction qs as [|q qs IH]; [constructor|]. rewrite fmap_cons, NoDup_cons. intros [Hni Hnd] [Hq Hqs]%Forall_cons.
  unfold flattenQueues. rewrite bind_cons, fmap_app. apply NoDup_app. split_and!.
  - rewrite flatten_keys. apply NoDup_fmap_2; [by intros ?? [= ->]|apply (acc_names _ Hq)].
  - intros k Hk Hk'. rewrite flatten_keys in Hk. apply list_elem_of_fmap in Hk as (n & -> & _).
    rewrite fmap_bind in Hk'. apply list_elem_of_bind in Hk' as (q' & Hk' & Hq').
    rewrite flatten_keys in Hk'. apply list_elem_of_fmap in Hk' as (n' & [= Heq _] & _).
    apply Hni. rewrite Heq. by apply list_elem_of_fmap_2.
  - by apply IH.
Qed.

Section stored.
Context `{EnvLaws} (Hdel : ∀ n, env_db n = Delivered).

(** The job [upsert_queues] on the roots of all partitions. *)
Lemma wp_upsert_hierarchies roots w :
  queues_wf w → NoDup (Partition <$> roots) → Forall acceptable roots →
  Forall (not_deleted (queue_map w)) (flattenQueues roots) →
  wp (UpsertQueues (flattenQueues roots))
    (λ r w', r = Ok () ∧ Forall (λ q, stored (queue_map w) q (queue_map w')) (flattenQueues roots) ∧
       (∀ k, k ∉ dao_key <$> flattenQueues roots → queue_map w' !! k = queue_map w !! k) ∧
       same_other_tables (w_db w) (w_db w')) w.
Proof.
  intros Hwf Hnd Hacc Hlive.
  assert (parents_first (is_live (queue_map w)) (flattenQueues roots)) as Hpf.
  { apply flattenQueues_parents_first; (eapply Forall_impl; [exact Hacc|]); intros q Hq;
      [apply (acc_named _ Hq)|apply (acc_top _ Hq)]. }
  assert (Forall valid_queue (flattenQueues roots)) as Hvalid.
  { apply Forall_bind. eapply Forall_impl; [exact Hacc|]. apply flatten_valid. }
  eapply wp_mono; [by apply wp_UpsertQueues|]. intros r w' (-> & Hall & Hoth). split_and!; [done| | |done].
  - eapply upserted_all_stored; try done. by apply flattenQueues_NoDup.
  - intros k Hk. by eapply upserted_all_other.
Qed.

(** *** Storing a hierarchy and reading it back *)
Definition store_and_read (fuel : nat) (root : PartitionQueueDAOInfo) : M (option (list ModelQueue)) :=
  _ ← UpsertQueues (flattenQueues [root]);
  GetQueuesPerPartition fuel (Partition root).

Definition model_name (q : ModelQueue) : string := QueueName (MQueue q).

(** The rows of a table that was empty: one per queue, linked to its parent. *)
Definition row_of (m : gmap (string * string) QueueRow) (r : QueueRow) (q : PartitionQueueDAOInfo) : Prop :=
  ∃ id now, r = queue_row id (parent_link m q) now q.

Lemma fresh_rows qs w w' :
  queues_wf w' → queue_map w = ∅ →
  Forall (λ q, stored (queue_map w) q (queue_map w')) qs →
  (∀ k, k ∉ dao_key <$> qs → queue_map w' !! k = queue_map w !! k) →
  (∀ q, q ∈ qs → ∃ r, r ∈ t_queues (w_db w') ∧ row_of (queue_map w') r q) ∧
  (∀ r, r ∈ t_queues (w_db w') → ∃ q, q ∈ qs ∧ row_of (queue_map w') r q).
Proof.
  intros Hwf Hempty Hst Hother. rewrite Hempty in *. unfold stored in Hst. setoid_rewrite lookup_empty in Hst.
  setoid_rewrite lookup_empty in Hother. rewrite Forall_forall in Hst. split.
  - intros q Hq. destruct (Hst q Hq) as (r & Hr & _ & Hrow). exists r. split; [|done].
    by apply queue_map_Some in Hr as [? _].
  - intros r Hr. assert (queue_map w' !! queue_key r = Some r) as Hlook by (by apply queue_map_Some).
    destruct (decide (queue_key r ∈ dao_key <$> qs)) as [(q & Heq & Hq)%list_elem_of_fmap|Hni].
    + exists q. split; [done|]. destruct (Hst q Hq) as (r' & Hr' & _ & Hrow). rewrite <- Heq, Hlook in Hr'.
      injection Hr' as <-. done.
    + rewrite Hother in Hlook by done. done.
Qed.

(** In such a table a parent link leads to the queue that the child names. *)
Lemma fresh_parent w r q rp :
  queues_wf w → row_of (queue_map w) r q → rp ∈ t_queues (w_db w) →
  q_parent_id r = Some (q_id rp) → q_parent r = q_queue_name rp.
Proof.
  intros Hwf (id & now & ->) Hrp Hp. cbn in *. unfold parent_link in Hp. case_decide; [done|].
  apply fmap_Some in Hp as (r' & Hr' & Hid). apply queue_map_Some in Hr' as [Hin Hkey]; [|done].
  assert (rp = r') as ->; [|by injection Hkey].
  by apply (NoDup_fmap_inj_in q_id (t_queues (w_db w))); [apply (wf_pk _ _ _ (wf_table _ _ Hwf))|..].
Qed.

Lemma elem_of_strip_forest F rows q :
  strip <$> flatten_forest F ≡ₚ scan_queue <$> rows → q ∈ flatten_forest F →
  ∃ r, r ∈ rows ∧ strip q = scan_queue r.
Proof.
  intros Hperm Hq. assert (strip q ∈ scan_queue <$> rows) as (r & ? & ?)%list_elem_of_fmap; [|by exists r].
  rewrite <- Hperm. by apply list_elem_of_fmap_2.
Qed.

Lemma MChildren_in_forest F n c : n ∈ flatten_forest F → c ∈ MChildren n → c ∈ flatten_forest F.
Proof.
  intros Hn Hc. rewrite flatten_forest_children. apply elem_of_app. right. apply list_elem_of_bind. eauto.
Qed.

(** The rows after storing one hierarchy in an empty table. *)
Lemma stored_rows root w' :
  acceptable root → queues_wf w' →
  (∀ q, q ∈ flatten_queue (Partition root) root →
     ∃ r, r ∈ t_queues (w_db w') ∧ row_of (queue_map w') r q) →
  (∀ r, r ∈ t_queues (w_db w') →
     ∃ q, q ∈ flatten_queue (Partition root) root ∧ row_of (queue_map w') r q) →
  q_queue_name <$> t_queues (w_db w') ≡ₚ QueueName <$> subqueues root ∧
  partition_rows (Partition root) w' = t_queues (w_db w') ∧
  (∀ r, r ∈ t_queues (w_db w') → q_parent_id r = None → q_queue_name r = QueueName root).
Proof.
  intros Ha Hwf Hfwd Hback.
  assert (∀ r, r ∈ t_queues (w_db w') → ∃ q, q ∈ subqueues root ∧
    q_queue_name r = QueueName q ∧ q_parent r = Parent q ∧ q_partition r = Partition root ∧
    q_parent_id r = parent_link (queue_map w') (propagate (Partition root) q)) as Hrow.
  { intros r Hr. destruct (Hback r Hr) as (q' & Hq' & id & now & ->).
    apply elem_of_flatten in Hq' as (q & -> & Hq). exists q. cbn.
    by destruct (propagate_fields (Partition root) q) as (-> & -> & -> & _). }
  assert (∀ q, q ∈ subqueues root → ∃ r, r ∈ t_queues (w_db w') ∧ q_queue_name r = QueueName q) as Hname.
  { intros q Hq. destruct (Hfwd (propagate (Partition root) q)) as (r & Hr & id & now & ->).
    - rewrite flatten_queue_subqueues. by apply list_elem_of_fmap_2.
    - eexists. split; [exact Hr|]. cbn. by destruct (propagate_fields (Partition root) q) as (_ & -> & _). }
  split_and!.
  - apply NoDup_Permutation; [|apply (acc_names _ Ha)|].
    + pose proof (wf_key _ _ _ (wf_table _ _ Hwf)) as Hk.
      apply (NoDup_fmap_1 (λ n, (Partition root, n))). rewrite <- list_fmap_compose.
      erewrite list_fmap_ext; [exact Hk|]. intros i r Hr%list_elem_of_lookup_2. unfold compose, queue_key.
      by destruct (Hrow r Hr) as (q & _ & _ & _ & -> & _).
    + intros n. split.
      * intros (r & -> & Hr)%list_elem_of_fmap. destruct (Hrow r Hr) as (q & Hq & -> & _).
        by apply list_elem_of_fmap_2.
      * intros (q & -> & Hq)%list_elem_of_fmap. destruct (Hname q Hq) as (r & Hr & <-).
        by apply list_elem_of_fmap_2.
  - unfold partition_rows. apply filter_all. intros r Hr. by destruct (Hrow r Hr) as (q & _ & _ & _ & ? & _).
  - intros r Hr Hnone. destruct (Hrow r Hr) as (q & Hq & -> & _ & _ & Hpid). rewrite Hnone in Hpid.
    destruct (subqueues_parent root q (acc_named _ Ha) Hq) as [-> |(p & Hp & Hpar)]; [done|]. exfalso.
    unfold parent_link in Hpid. destruct (propagate_fields (Partition root) q) as (Hp1 & _ & Hp2 & _).
    rewrite Hp1, Hp2, Hpar in Hpid. pose proof (acc_nonempty _ Ha) as Hne. rewrite Forall_forall in Hne.
    rewrite decide_False in Hpid by (by apply Hne). destruct (Hname p Hp) as (rp & Hrp & Hn).
    destruct (Hrow rp Hrp) as (_ & _ & _ & _ & Hpart & _).
    assert (queue_map w' !! (Partition root, QueueName p) = Some rp) as Hlook; [|by rewrite Hlook in Hpid].
    apply queue_map_Some; [done|]. split; [done|]. unfold queue_key. congruence.
Qed.

(** The forest is the hierarchy: the same names, each child under the queue it
    names as its parent, and the root alone at the top. *)
Definition same_hierarchy (root : PartitionQueueDAOInfo) (F : list ModelQueue) : Prop :=
  model_name <$> flatten_forest F ≡ₚ QueueName <$> subqueues root ∧
  (∀ n c, n ∈ flatten_forest F → c ∈ MChildren n → Parent (MQueue c) = model_name n) ∧
  model_name <$> F = [QueueName root].

Lemma forest_names F rows :
  strip <$> flatten_forest F ≡ₚ scan_queue <$> rows → model_name <$> flatten_forest F ≡ₚ q_queue_name <$> rows.
Proof.
  intros Hperm. assert (model_name <$> flatten_forest F = model_name <$> (strip <$> flatten_forest F)) as ->
    by (by rewrite <- list_fmap_compose).
  rewrite Hperm. by rewrite <- list_fmap_compose.
Qed.

(** A forest of distinct names whose roots all have one name has one root. *)
Lemma single_root F n :
  F ≠ [] → NoDup (model_name <$> flatten_forest F) → Forall (λ q, model_name q = n) F → model_name <$> F = [n].
Proof.
  rewrite flatten_forest_children, fmap_app. intros Hne [Hnd _]%NoDup_app Hn.
  destruct F as [|q [|q' F]]; [done| |].
  - apply Forall_cons in Hn as [<- _]. done.
  - exfalso. rewrite !Forall_cons in Hn. destruct Hn as (Hq & Hq' & _).
    rewrite !fmap_cons, NoDup_cons in Hnd. destruct Hnd as [Hni _]. apply Hni. set_solver.
Qed.

Lemma wp_store_and_read fuel root w :
  queues_wf w → t_queues (w_db w) = [] → acceptable root → (length (subqueues root) < fuel)%nat →
  wp (store_and_read fuel root) (λ r w', ∃ F, r = Ok (Some F) ∧ same_hierarchy root F) w.
Proof.
  intros Hwf Hempty Ha Hfuel. assert (queue_map w = ∅) as Hm by (unfold queue_map; by rewrite Hempty).
  unfold store_and_read. wp_step. eapply wp_mono.
  { apply wp_and; [by apply UpsertQueues_wf|apply wp_upsert_hierarchies]; [done|apply NoDup_singleton|by apply Forall_singleton|].
    apply Forall_forall. intros q _ r. by rewrite Hm, lookup_empty. }
  intros r w1 (Hwf1 & -> & Hst & Hoth & _).
  destruct (fresh_rows _ _ _ Hwf1 Hm Hst Hoth) as [Hfwd Hback].
  assert (flattenQueues [root] = flatten_queue (Partition root) root) as Hone by apply app_nil_r.
  rewrite Hone in Hfwd, Hback.
  destruct (stored_rows root w1 Ha Hwf1 Hfwd Hback) as (Hnames & Hall & Hroots).
  eapply wp_mono; [apply wp_GetQueuesPerPartition; [done|done|]|].
  { rewrite Hall, <- (length_fmap q_queue_name), Hnames. by rewrite length_fmap. }
  intros r w2 (F & -> & (Hperm & Htop & Hwp) & _). exists F. split; [done|]. rewrite Hall in Hperm.
  pose proof (forest_names _ _ Hperm) as Hfn. rewrite Hnames in Hfn. split_and!; [done| |].
  - intros n c Hn Hc. destruct (elem_of_strip_forest _ _ _ Hperm Hn) as (rn & Hrn & Hsn).
    destruct (elem_of_strip_forest _ _ _ Hperm (MChildren_in_forest _ _ _ Hn Hc)) as (rc & Hrc & Hsc).
    pose proof (Hwp n c Hn Hc) as Hp. destruct (Hback rc Hrc) as (q & _ & Hrow).
    destruct n, c. cbn in *. injection Hsn as -> _ -> _ _. injection Hsc as _ -> -> _ _.
    cbn in *. by eapply fresh_parent.
  - apply single_root; [|rewrite Hfn; apply (acc_names _ Ha)|].
    + intros ->. rewrite subqueues_eq in Hfn. by apply Permutation_nil_cons in Hfn.
    + rewrite Forall_forall in Htop |- *. intros q Hq. pose proof (Htop q Hq) as Hnone.
      destruct (elem_of_strip_forest _ _ q Hperm) as (r & Hr & Hs).
      { rewrite flatten_forest_children. set_solver. }
      destruct q. cbn in *. injection Hs as _ -> -> _ _. by apply Hroots.
Qed.

End stored.
