(* ===== verification/QueueTheorems.v ===== *)
(** * The queue repository: main theorems

    The results of the queue files in their final form, each with an instance
    on a small hierarchy stored in the concrete environment. *)
From S2P Require Import Prelude GoStrings Dao Db QueueRepo QueueInv QueueTree QueueGet QueueUpsert.
From S2P Require Import QueueDelete FlattenQueues.

(** ** A sample hierarchy *)
Definition sample_queue (name parent : string) (children : list PartitionQueueDAOInfo) :
    PartitionQueueDAOInfo :=
  mkPartitionQueueDAOInfo name "Active" "" None None None None None None (bool_decide (children = [])) true None parent None children None 0 1 0 None.

Definition sample_root : PartitionQueueDAOInfo :=
  set_Partition "default"
    (sample_queue "root" ""
       [sample_queue "root.org" "root"
          [sample_queue "root.org.eng" "root.org" []; sample_queue "root.org.sales" "root.org" []];
        sample_queue "root.system" "root" []]).

Lemma sample_acceptable : acceptable sample_root.
Proof.
  split; [done|done| |  | |].
  - repeat (apply Forall_cons_2; [done|]). apply Forall_nil_2.
  - repeat (apply Forall_cons_2; [repeat constructor|]). apply Forall_nil_2.
  - apply (bool_decide_unpack _). vm_compute. done.
  - repeat (apply Forall_cons_2; [done|]). apply Forall_nil_2.
Qed.

Lemma sample_delivered (n : nat) : @env_db ideal_env n = Delivered.
Proof. done. Qed.

(** The table after the first synchronisation. *)
Definition sample_world : world := (@UpsertQueues ideal_env (flattenQueues [sample_root]) empty_world).2.

Lemma empty_queues_wf : @queues_wf ideal_env empty_world.
Proof. apply (@rows_wf_nil ideal_env ideal_laws). Qed.

Lemma sample_queues_wf : @queues_wf ideal_env sample_world.
Proof. apply (@UpsertQueues_wf ideal_env ideal_laws (flattenQueues [sample_root]) empty_world empty_queues_wf). Qed.

(** ** Reading *)

(** C7.  When the reply of its query arrives whole, [GetQueuesPerPartition]
    terminates and returns all the rows of the partition, deleted ones
    included, each exactly once, as trees in which every node holds exactly the
    rows that name it as their parent; recursion depth above the number of rows
    is never needed. *)
Theorem GetQueuesPerPartition_complete `{EnvLaws} fuel partition w :
  queues_wf w → env_db (w_calls w) = Delivered → (length (partition_rows partition w) < fuel)%nat →
  ∃ F, GetQueuesPerPartition fuel partition w = (Ok (Some F), tick (w_db w) w) ∧
    is_partition_forest partition w F.
Proof.
  intros Hwf Hd Hfuel. destruct (wp_GetQueuesPerPartition fuel partition w Hwf Hd Hfuel) as (F & Hr & HF & Hw).
  exists F. split; [|done]. rewrite <- Hr, <- Hw. by destruct (GetQueuesPerPartition fuel partition w).
Qed.

Lemma GetQueuesPerPartition_complete_witness :
  ∃ F, @GetQueuesPerPartition ideal_env 6 "default" sample_world
         = (Ok (Some F), tick (w_db sample_world) sample_world) ∧
    is_partition_forest "default" sample_world F.
Proof.
  apply (@GetQueuesPerPartition_complete ideal_env ideal_laws);
    [apply sample_queues_wf|reflexivity|vm_compute; lia].
Defined.

(** C21.  [GetQueue] reports a queue missing exactly when no live row has its
    name, and otherwise returns it with exactly its descendants, each once,
    every node under its parent; the recursive query and the recursion over
    the children both end. *)
Theorem GetQueue_complete `{EnvLaws} fuel partition queueName w :
  queues_wf w → env_db (w_calls w) = Delivered → (length (t_queues (w_db w)) < fuel)%nat →
  match filter (alive_at queueName partition) (t_queues (w_db w)) with
  | [] => (GetQueue fuel partition queueName w).1 = Err (ErrMsg ("queue not found: " +:+ queueName))
  | root :: _ => ∃ T, (GetQueue fuel partition queueName w).1 = Ok (Some T) ∧
                      is_queue_tree (t_queues (w_db w)) root T
  end.
Proof. intros Hwf Hd Hfuel. by destruct (wp_GetQueue fuel partition queueName w Hwf Hd Hfuel) as [_ ?]. Qed.

Lemma GetQueue_complete_witness :
  ∃ root T, (@GetQueue ideal_env 6 "default" "root.org" sample_world).1 = Ok (Some T) ∧
    is_queue_tree (t_queues (w_db sample_world)) root T.
Proof.
  assert (length (t_queues (w_db sample_world)) < 6)%nat as Hfuel by (vm_compute; lia).
  pose proof (@GetQueue_complete ideal_env ideal_laws 6 "default" "root.org" sample_world
    sample_queues_wf (sample_delivered _) Hfuel) as Hget.
  assert (length (filter (alive_at "root.org" "default") (t_queues (w_db sample_world))) = 1%nat) as Hone
    by (vm_compute; reflexivity).
  destruct (filter (alive_at "root.org" "default") (t_queues (w_db sample_world))) as [|root l]; [discriminate|].
  exists root. exact Hget.
Defined.

(** ** Writing *)

(** C5.  With every statement delivered, the job [upsert_queues] on the
    hierarchies of several partitions, none of whose queues was deleted,
    succeeds: every queue of every hierarchy has a row that reflects it, rows
    that existed keep their identity, creation time and parent, new rows are
    linked to the row of the queue they name as parent, and no other row or
    table changes. *)
Theorem upsert_hierarchies_stored `{EnvLaws} roots w :
  (∀ n, env_db n = Delivered) →
  queues_wf w → NoDup (Partition <$> roots) → Forall acceptable roots →
  Forall (not_deleted (queue_map w)) (flattenQueues roots) →
  ∃ w', UpsertQueues (flattenQueues roots) w = (Ok (), w') ∧
    Forall (λ q, stored (queue_map w) q (queue_map w')) (flattenQueues roots) ∧
    (∀ k, k ∉ dao_key <$> flattenQueues roots → queue_map w' !! k = queue_map w !! k) ∧
    same_other_tables (w_db w) (w_db w').
Proof.
  intros Hd Hwf Hnd Ha Hlive. destruct (wp_upsert_hierarchies Hd roots w Hwf Hnd Ha Hlive) as [Hok Hrest].
  exists (UpsertQueues (flattenQueues roots) w).2. split; [|done].
  rewrite <- Hok. by destruct (UpsertQueues (flattenQueues roots) w).
Qed.

Lemma upsert_hierarchies_stored_witness :
  ∃ w', @UpsertQueues ideal_env (flattenQueues [sample_root]) empty_world = (Ok (), w') ∧
    Forall (λ q, stored (queue_map empty_world) q (queue_map w')) (flattenQueues [sample_root]) ∧
    (∀ k, k ∉ dao_key <$> flattenQueues [sample_root] → queue_map w' !! k = queue_map empty_world !! k) ∧
    same_other_tables (w_db empty_world) (w_db w').
Proof.
  apply (@upsert_hierarchies_stored ideal_env ideal_laws).
  - reflexivity.
  - apply empty_queues_wf.
  - apply NoDup_singleton.
  - apply Forall_singleton, sample_acceptable.
  - apply Forall_forall. intros q _ r Hr. discriminate Hr.
Defined.

(** C4.  Storing a hierarchy of the scheduler in an empty table and reading its
    partition back gives the same hierarchy: the same names, each queue under
    the queue it names as its parent, and one tree, that of the root. *)
Theorem hierarchy_roundtrip `{EnvLaws} fuel root w :
  (∀ n, env_db n = Delivered) →
  queues_wf w → t_queues (w_db w) = [] → acceptable root → (length (subqueues root) < fuel)%nat →
  ∃ F, (store_and_read fuel root w).1 = Ok (Some F) ∧ same_hierarchy root F.
Proof. intros Hd Hwf Hempty Ha Hfuel. apply (wp_store_and_read Hd fuel root w Hwf Hempty Ha Hfuel). Qed.

Lemma hierarchy_roundtrip_witness :
  ∃ F, (@store_and_read ideal_env 6 sample_root empty_world).1 = Ok (Some F) ∧ same_hierarchy sample_root F.
Proof.
  apply (@hierarchy_roundtrip ideal_env ideal_laws);
    [reflexivity|apply empty_queues_wf|reflexivity|apply sample_acceptable|vm_compute; lia].
Defined.

(** Deleting what [GetQueuesPerPartition] returns marks every row of the
    partition as deleted and leaves the rows of other partitions as they were. *)
Theorem delete_partition_complete `{EnvLaws} fuel partition w :
  (∀ n, env_db n = Delivered) → queues_wf w → (length (partition_rows partition w) < fuel)%nat →
  ∃ w', delete_partition fuel partition w = (Ok (), w') ∧
    Forall (λ r, q_deleted_at r ≠ None) (partition_rows partition w') ∧
    Forall2 (λ r r', q_partition r ≠ partition → r' = r) (t_queues (w_db w)) (t_queues (w_db w')).
Proof.
  intros Hd Hwf Hfuel. destruct (wp_delete_partition Hd fuel partition w Hwf Hfuel) as [Hok Hrest].
  exists (delete_partition fuel partition w).2. split; [|done].
  rewrite <- Hok. by destruct (delete_partition fuel partition w).
Qed.

Lemma delete_partition_complete_witness :
  ∃ w', @delete_partition ideal_env 6 "default" sample_world = (Ok (), w') ∧
    Forall (λ r, q_deleted_at r ≠ None) (partition_rows "default" w') ∧
    Forall2 (λ r r', q_partition r ≠ "default" → r' = r)
      (t_queues (w_db sample_world)) (t_queues (w_db w')).
Proof.
  apply (@delete_partition_complete ideal_env ideal_laws);
    [reflexivity|apply sample_queues_wf|vm_compute; lia].
Defined.

(** C37.  A queue that was marked deleted and that the scheduler reports again is
    refreshed but stays deleted, so the queues below it are refused: the job
    fails, and retrying it cannot help. *)
Theorem deleted_queue_blocks_children `{EnvLaws} p c old now w :
  (∀ n, env_db n = Delivered) →
  queues_wf w → valid_queue p → (Parent p = "" ∨ is_live (queue_map w) (Partition p, Parent p)) →
  queue_map w !! dao_key p = Some old → q_deleted_at old = Some now →
  QueueName p ≠ "" → Parent c = QueueName p → Partition c = Partition p →
  (UpsertQueues [p; c] w).1 = Err orphan_error ∧
  ∃ r, queue_map (UpsertQueues [p; c] w).2 !! dao_key p = Some r ∧ reflects r p ∧ q_deleted_at r = Some now.
Proof. intros Hd. apply (wp_upsert_below_deleted Hd p c old now w). Qed.

(** The sample partition after its deletion. *)
Definition deleted_world : world := (@delete_partition ideal_env 6 "default" sample_world).2.

Lemma deleted_queues_wf : @queues_wf ideal_env deleted_world.
Proof.
  unfold deleted_world. apply (wp_bind (@GetQueuesPerPartition ideal_env 6 "default") _ (λ _ w, @queues_wf ideal_env w)).
  eapply wp_mono; [apply (@wp_GetQueuesPerPartition ideal_env ideal_laws);
    [apply sample_queues_wf|reflexivity|vm_compute; lia]|].
  intros r w (F & -> & _ & ->). apply (@DeleteQueues_wf ideal_env). apply queues_wf_tick, sample_queues_wf.
Qed.

Definition deleted_root_row : QueueRow := mkQueueRow "0" None 1700000000 (Some 1700000000) "root" "Active"
  "default" None None None None None None false true None "" None None 0 1 0 None.

Lemma deleted_queue_blocks_children_witness :
  (@UpsertQueues ideal_env [propagate "default" sample_root;
      propagate "default" (sample_queue "root.org" "root" [])] deleted_world).1 = Err orphan_error ∧
  ∃ r, queue_map (@UpsertQueues ideal_env [propagate "default" sample_root;
      propagate "default" (sample_queue "root.org" "root" [])] deleted_world).2
      !! dao_key (propagate "default" sample_root) = Some r ∧
    reflects r (propagate "default" sample_root) ∧ q_deleted_at r = Some 1700000000.
Proof.
  apply (@deleted_queue_blocks_children ideal_env ideal_laws _ _ deleted_root_row).
  - reflexivity.
  - apply deleted_queues_wf.
  - split; [discriminate|repeat split].
  - by left.
  - vm_compute. reflexivity.
  - reflexivity.
  - discriminate.
  - reflexivity.
  - reflexivity.
Defined.

(** ** Two observations *)

(** The variable [parentId] of [AddQueues] keeps the parent of the first queue
    for its siblings: here [root.org.ops] names [root.org] (identifier 1) as its
    parent and is stored below [root] (identifier 0). *)
Example AddQueues_sibling_parent :
  let w := (@AddQueues ideal_env None
    [set_Partition "default" (sample_queue "root.ops" "root" []);
     set_Partition "default" (sample_queue "root.org.ops" "root.org" [])] sample_world).2 in
  q_id <$> queue_map w !! ("default", "root.org") = Some "1" ∧
  q_parent <$> queue_map w !! ("default", "root.org.ops") = Some "root.org" ∧
  q_parent_id <$> queue_map w !! ("default", "root.org.ops") = Some (Some "0").
Proof. vm_compute. repeat split. Qed.

(** A connection that breaks after the first row: since no caller looks at
    [rows.Err()], one of five queues is returned and no error. *)
Definition cut_env : Env := {|
  env_uuid := @env_uuid ideal_env;
  env_now := @env_now ideal_env;
  env_db := λ _, Cut 1 (ErrMsg "unexpected EOF");
  env_scan := @env_scan ideal_env;
  env_sql := @env_sql ideal_env;
|}.

Example cut_reply_is_silent :
  match (@GetAllQueues cut_env sample_world).1 with
  | Ok l => model_name <$> l = ["root"]
  | Err _ => False
  end ∧ length (t_queues (w_db sample_world)) = 5%nat.
Proof. vm_compute. repeat split. Qed.
