(* ===== verification/QueueEquiv.v ===== *)
(** * Two ways to read a hierarchy

    [GetQueue] finds a queue and its descendants with a recursive query,
    [GetQueuesPerPartition] reads the flat rows of the partition and links them
    in memory.  They agree: the tree of the one is a subtree of the forest of the
    other, up to the order of children, which depends on the order of the scans. *)
From S2P Require Import Prelude GoStrings Dao Db QueueRepo QueueInv QueueTree QueueGet FlattenQueues QueueTheorems.

(** Equality of trees up to the order of children. *)
Inductive same_tree : ModelQueue → ModelQueue → Prop :=
| same_node a b cs :
    strip a = strip b → MChildren b ≡ₚ cs → Forall2 same_tree (MChildren a) cs → same_tree a b.

(** ** The children of a node are the rows that name it *)
Lemma filter_strip i (l : list ModelQueue) :
  filter (λ q, ParentId q = Some i) (strip <$> l) = strip <$> filter (λ q, ParentId q = Some i) l.
Proof.
  induction l as [|q l IH]; [done|]. rewrite fmap_cons, !filter_cons. cbn. case_decide; [by rewrite fmap_cons, IH|done].
Qed.

Lemma filter_scan i (rows : list QueueRow) :
  filter (λ q, ParentId q = Some i) (scan_queue <$> rows) = scan_queue <$> filter (λ r, q_parent_id r = Some i) rows.
Proof.
  induction rows as [|r rows IH]; [done|]. rewrite fmap_cons, !filter_cons. cbn. case_decide; [by rewrite fmap_cons, IH|done].
Qed.

(** Among the children of distinct nodes, those of [n] are the ones that name it. *)
Lemma filter_children (L : list ModelQueue) n :
  NoDup (Id <$> L) → (∀ m c, m ∈ L → c ∈ MChildren m → ParentId c = Some (Id m)) → n ∈ L →
  filter (λ q, ParentId q = Some (Id n)) (L ≫= MChildren) = MChildren n.
Proof.
  intros Hnd Hpar Hn.
  assert (∀ m, m ∈ L → filter (λ q, ParentId q = Some (Id n)) (MChildren m) = if decide (Id m = Id n) then MChildren m else []) as Hm.
  { intros m HmL. case_decide as Hid.
    - apply filter_all. intros c Hc. rewrite <- Hid. by apply Hpar.
    - destruct (filter _ (MChildren m)) as [|c cs] eqn:Hf; [done|].
      assert (c ∈ filter (λ q, ParentId q = Some (Id n)) (MChildren m)) as [Hc1 Hc2]%list_elem_of_filter
        by (rewrite Hf; apply list_elem_of_here).
      rewrite (Hpar m c HmL Hc2) in Hc1. congruence. }
  clear Hpar. induction L as [|m L IH]; [by apply not_elem_of_nil in Hn|].
  rewrite list.bind_cons, filter_app, Hm by apply list_elem_of_here. rewrite fmap_cons, NoDup_cons in Hnd.
  destruct Hnd as [Hni Hnd]. destruct (decide (Id m = Id n)) as [Hid|Hid].
  - assert (n = m) as ->.
    { apply elem_of_cons in Hn as [->|Hn]; [done|]. destruct Hni. rewrite Hid. by apply list_elem_of_fmap_2. }
    rewrite <- (app_nil_r (MChildren m)) at 2. f_equal.
    assert (∀ k, k ∈ L → filter (λ q, ParentId q = Some (Id m)) (MChildren k) = []) as Hk.
    { intros k HkL. rewrite Hm by (by apply list_elem_of_further). rewrite decide_False; [done|]. intros Hkm.
      destruct Hni. rewrite <- Hkm. by apply list_elem_of_fmap_2. }
    clear -Hk. induction L as [|k L IH]; [done|]. rewrite list.bind_cons, filter_app, Hk by apply list_elem_of_here.
    apply IH. intros k' Hk'. by apply Hk, list_elem_of_further.
  - apply elem_of_cons in Hn as [->|Hn]; [done|]. apply IH; [done|done|].
    intros k HkL. by apply Hm, list_elem_of_further.
Qed.

Section complete.
Context (t : list QueueRow).

(** A forest over [rows], which are closed under children in the table [t]. *)
Record complete_forest (rows : list QueueRow) (l : list ModelQueue) : Prop := {
  cf_rows : strip <$> flatten_forest l ≡ₚ scan_queue <$> rows;
  cf_ids : NoDup (q_id <$> rows);
  cf_table : NoDup (q_id <$> t);
  cf_parented : well_parented l;
  cf_roots : ∀ q n, q ∈ l → n ∈ flatten_forest l → ParentId q ≠ Some (Id n);
  cf_subset : ∀ r, r ∈ rows → r ∈ t;
  cf_closed : ∀ g r, g ∈ rows → r ∈ t → q_parent_id r = Some (q_id g) → r ∈ rows;
}.

Lemma forest_ids rows l : complete_forest rows l → NoDup (Id <$> flatten_forest l).
Proof.
  intros [Hrows Hids _ _ _ _ _]. replace (Id <$> flatten_forest l) with (Id <$> (strip <$> flatten_forest l))
    by (by rewrite <- list_fmap_compose).
  by rewrite Hrows, scanned_ids.
Qed.

Lemma node_row rows l n : complete_forest rows l → n ∈ flatten_forest l → ∃ g, g ∈ rows ∧ strip n = scan_queue g.
Proof.
  intros Hcf Hn. apply (list_elem_of_fmap_2 strip) in Hn. rewrite (cf_rows _ _ Hcf) in Hn.
  apply list_elem_of_fmap in Hn as (g & Hg & Hin). by exists g.
Qed.

Lemma children_complete rows l n :
  complete_forest rows l → n ∈ flatten_forest l →
  strip <$> MChildren n ≡ₚ scan_queue <$> filter (λ r, q_parent_id r = Some (Id n)) t.
Proof.
  intros Hcf Hn. pose proof (forest_ids rows l Hcf) as Hnd.
  destruct (node_row rows l n Hcf Hn) as (g & Hg & Hgn). pose proof Hcf as [Hrows Hids Ht Hpar Hroots Hsub Hclosed].
  assert (Id n = q_id g) as Hid by (by change (Id n) with (Id (strip n)); rewrite Hgn).
  rewrite <- (filter_children (flatten_forest l) n Hnd) by (try done; intros; by apply Hpar).
  assert (filter (λ q, ParentId q = Some (Id n)) (flatten_forest l) ≡ₚ
    filter (λ q, ParentId q = Some (Id n)) (flatten_forest l ≫= MChildren)) as <-.
  { rewrite (flatten_forest_children l) at 1. rewrite filter_app.
    replace (filter _ l) with (@nil ModelQueue); [done|]. symmetry.
    destruct (filter (λ q, ParentId q = Some (Id n)) l) as [|q qs] eqn:Hf; [done|].
    assert (q ∈ filter (λ q, ParentId q = Some (Id n)) l) as [Hq1 Hq2]%list_elem_of_filter
      by (rewrite Hf; apply list_elem_of_here).
    by destruct (Hroots q n Hq2 Hn). }
  rewrite <- filter_strip, Hrows, filter_scan. apply fmap_Permutation.
  apply NoDup_Permutation.
  - apply NoDup_filter. by eapply NoDup_fmap_1.
  - apply NoDup_filter. by eapply NoDup_fmap_1.
  - intros r. rewrite !list_elem_of_filter. split; [naive_solver|]. intros [Hp Hr]. split; [done|].
    apply (Hclosed g); [done|done|]. by rewrite Hp, Hid.
Qed.

Lemma child_in_forest (l : list ModelQueue) n c : n ∈ flatten_forest l → c ∈ MChildren n → c ∈ flatten_forest l.
Proof.
  intros Hn Hc. rewrite (flatten_forest_children l). apply elem_of_app. right. apply list_elem_of_bind. by exists n.
Qed.

Lemma Forall2_same_strip (R : ModelQueue → ModelQueue → Prop) l1 l2 :
  strip <$> l1 = strip <$> l2 → (∀ c1 c2, c1 ∈ l1 → c2 ∈ l2 → strip c1 = strip c2 → R c1 c2) → Forall2 R l1 l2.
Proof.
  revert l2. induction l1 as [|c1 l1 IH]; intros [|c2 l2] Heq HR; try done. rewrite !fmap_cons in Heq.
  pose proof (inj Some _ _ (f_equal head Heq)) as Hd. pose proof (f_equal tail Heq) as Htl. cbn [head tail] in *.
  constructor; [apply HR; [apply list_elem_of_here..|done]|]. apply IH; [done|].
  intros. apply HR; [by apply list_elem_of_further..|done].
Qed.

(** Nodes for the same row carry the same trees. *)
Lemma same_row_same_tree rows1 l1 rows2 l2 :
  complete_forest rows1 l1 → complete_forest rows2 l2 →
  ∀ n1 n2, n1 ∈ flatten_forest l1 → n2 ∈ flatten_forest l2 → strip n1 = strip n2 → same_tree n1 n2.
Proof.
  intros H1 H2 n1. induction n1 as [n1 IH] using ModelQueue_tree_ind. intros n2 Hn1 Hn2 Heq.
  assert (Id n1 = Id n2) as Hid by (by apply (f_equal Id) in Heq).
  assert (strip <$> MChildren n1 ≡ₚ strip <$> MChildren n2) as Hp.
  { rewrite (children_complete rows1 l1 n1 H1 Hn1), (children_complete rows2 l2 n2 H2 Hn2). by rewrite Hid. }
  apply Permutation_map_inv in Hp as (cs & Hcs & Hperm). apply (same_node n1 n2 cs); [done|done|].
  apply Forall2_same_strip; [exact Hcs|]. intros c1 c2 Hc1 Hc2 Hc. rewrite Forall_forall in IH.
  apply IH; [done|by eapply child_in_forest| |done]. eapply child_in_forest; [exact Hn2|]. by rewrite Hperm.
Qed.

End complete.

(** ** The two readers *)
Section readers.
Context `{EnvLaws}.

Lemma partition_complete partition w F :
  queues_wf w → is_partition_forest partition w F →
  complete_forest (t_queues (w_db w)) (partition_rows partition w) F.
Proof.
  intros [Htab _ Hpar] (Hrows & Hroots & Hwp). pose proof (wf_pk _ _ _ Htab) as Hids. split; try done.
  - eapply sublist_NoDup; [exact Hids|]. apply fmap_sublist, sublist_filter.
  - intros q n Hq _. rewrite Forall_forall in Hroots. by rewrite (Hroots q Hq).
  - by intros r [_ Hr]%list_elem_of_filter.
  - intros g r [Hg Hgt]%list_elem_of_filter Hr Hp. apply list_elem_of_filter. split; [|done].
    destruct (Hpar r _ Hr Hp) as (g' & Hg' & Hid & Hpart & _).
    assert (g' = g) as -> by (by apply (NoDup_fmap_inj_in q_id (t_queues (w_db w)))). congruence.
Qed.

Lemma descends_rank t (rank : string → nat) root r :
  (∀ r p, r ∈ t → q_parent_id r = Some p → (rank p < rank (q_id r))%nat) → descends t root r →
  (rank (q_id root) ≤ rank (q_id r))%nat.
Proof.
  intros Hold. revert r. apply rtc_ind_r; [done|]. intros g c _ [Hc Hp] IH. specialize (Hold c _ Hc Hp). lia.
Qed.

Lemma queue_complete w root T :
  queues_wf w → root ∈ t_queues (w_db w) → is_queue_tree (t_queues (w_db w)) root T →
  ∃ rows, complete_forest (t_queues (w_db w)) rows [T].
Proof.
  intros Hwf Hroot (Hst & Hwp & rows & Hnd & Hdesc & Hrows). destruct (table_rank _ _ Hwf) as (rank & _ & Hold).
  pose proof (wf_pk _ _ _ (wf_table _ _ Hwf)) as Hids.
  assert (∀ r, r ∈ rows → r ∈ t_queues (w_db w)) as Hsub.
  { intros r Hr%Hdesc. revert r Hr. apply rtc_ind_r; [done|]. by intros g c _ [Hc _] _. }
  assert (flatten_forest [T] = flatten_model T) as Hone by (unfold flatten_forest; cbn; apply app_nil_r).
  exists rows. split; try done.
  - by rewrite Hone.
  - apply NoDup_fmap_2_strong; [|done]. intros x y Hx Hy. apply (NoDup_fmap_inj_in q_id _ _ _ Hids); auto.
  - intros q n ->%list_elem_of_singleton Hn Hp. rewrite Hone in Hn. apply (list_elem_of_fmap_2 strip) in Hn.
    rewrite Hrows in Hn. apply list_elem_of_fmap in Hn as (g & Hg & Hin). apply Hdesc in Hin.
    pose proof (descends_rank _ rank _ _ Hold Hin). specialize (Hold root (q_id g) Hroot).
    assert (q_parent_id root = Some (q_id g)) as Hrp.
    { change (q_parent_id root) with (ParentId (scan_queue root)). rewrite <- Hst. cbn. rewrite Hp. f_equal.
      change (Id n) with (Id (strip n)). by rewrite Hg. }
    specialize (Hold Hrp). lia.
  - intros g r Hg Hr Hp. apply Hdesc. apply Hdesc in Hg. eapply rtc_r; [exact Hg|]. by split.
Qed.

(** C14.  When both get their replies, [GetQueue] returns a live queue as the subtree
    that [GetQueuesPerPartition] has for it, up to the order of children. *)
Theorem GetQueue_agrees partition queueName w :
  queues_wf w → (∀ n, env_db n = Delivered) → filter (alive_at queueName partition) (t_queues (w_db w)) ≠ [] →
  let fuel := S (length (t_queues (w_db w))) in
  ∃ T F T', (GetQueue fuel partition queueName w).1 = Ok (Some T) ∧
    (GetQueuesPerPartition fuel partition w).1 = Ok (Some F) ∧
    T' ∈ flatten_forest F ∧ QueueName (MQueue T') = queueName ∧ same_tree T T'.
Proof.
  intros Hwf Hd Halive fuel.
  destruct (wp_GetQueue fuel partition queueName w Hwf (Hd _) ltac:(unfold fuel; lia)) as [_ Hget].
  destruct (wp_GetQueuesPerPartition fuel partition w Hwf (Hd _)) as (F & HF & Hforest & _).
  { unfold fuel, partition_rows. apply Nat.lt_succ_r, length_filter. }
  destruct (filter (alive_at queueName partition) (t_queues (w_db w))) as [|root l] eqn:Hf; [done|].
  destruct Hget as (T & HT & Htree).
  assert (root ∈ filter (alive_at queueName partition) (t_queues (w_db w))) as [(Hname & Hpart & _) Hroot]%list_elem_of_filter
    by (rewrite Hf; apply list_elem_of_here).
  destruct (queue_complete w root T Hwf Hroot Htree) as [rows Hc1].
  pose proof (partition_complete partition w F Hwf Hforest) as Hc2. pose proof Htree as (Hst & _).
  assert (∃ T', T' ∈ flatten_forest F ∧ strip T' = scan_queue root) as (T' & HT' & Hst').
  { assert (scan_queue root ∈ strip <$> flatten_forest F) as (T' & Heq & Hin)%list_elem_of_fmap; [|by exists T'].
    rewrite (cf_rows _ _ _ Hc2). apply list_elem_of_fmap_2, list_elem_of_filter. done. }
  exists T, F, T'. split_and!; [done|done|done| |].
  - change (MQueue T') with (MQueue (strip T')). rewrite Hst'. exact Hname.
  - eapply (same_row_same_tree (t_queues (w_db w))); [exact Hc1|exact Hc2| |exact HT'|congruence].
    unfold flatten_forest. cbn. rewrite app_nil_r. destruct T; cbn. apply list_elem_of_here.
Qed.

End readers.

Lemma GetQueue_agrees_witness :
  let fuel := S (length (t_queues (w_db sample_world))) in
  ∃ T F T', (@GetQueue ideal_env fuel "default" "root.org" sample_world).1 = Ok (Some T) ∧
    (@GetQueuesPerPartition ideal_env fuel "default" sample_world).1 = Ok (Some F) ∧
    T' ∈ flatten_forest F ∧ QueueName (MQueue T') = "root.org" ∧ same_tree T T'.
Proof.
  apply (@GetQueue_agrees ideal_env ideal_laws "default" "root.org" sample_world);
    [apply sample_queues_wf|apply sample_delivered|].
  intros Hnil. apply (f_equal length) in Hnil. vm_compute in Hnil. discriminate Hnil.
Defined.
