(* ===== verification/Upsert.v ===== *)
(** * Loops of upserts

    [UpsertPartitions], [UpsertNodes] and the like send one INSERT .. ON CONFLICT
    DO UPDATE per element, with a new identifier each.  This file states once
    what such a loop does: the table stays well formed whatever is lost, and
    with every statement delivered each element has its row. *)
From S2P Require Import Prelude Dao Db.

(** A table of the database. *)
Record table (R : Type) := mkTable {
  tget : db → list R;
  tset : list R → db → db;
  tget_tset : ∀ t d, tget (tset t d) = t;
}.
Arguments tget {R} _ _.
Arguments tset {R} _ _ _.
Arguments tget_tset {R} _ _ _.

Definition nodes_table : table NodeRow := mkTable _ t_nodes set_nodes (λ _ _, eq_refl).
Definition partitions_table : table PartitionRow := mkTable _ t_partitions set_partitions (λ _ _, eq_refl).
Definition applications_table : table AppRow := mkTable _ t_applications set_applications (λ _ _, eq_refl).

(** ** Identifiers drawn from the supply *)
Section issued.
Context {R K : Type} `{Countable K} (key : R → K) (pk : R → string) `{Env}.

(** Keys are unique, and so are identifiers, all drawn from the supply. *)
Record issued_wf (n : nat) (t : list R) : Prop := {
  iwf_table : table_wf key pk t;
  iwf_issued : ∀ r, r ∈ t → ∃ k, (k < n)%nat ∧ pk r = env_uuid k;
}.

Lemma issued_wf_nil n : issued_wf n [].
Proof. split; [apply table_wf_nil|set_solver]. Qed.

Lemma issued_mono n m t : (n ≤ m)%nat → issued_wf n t → issued_wf m t.
Proof. intros Hle [Ht Hi]. split; [done|]. intros r Hr. destruct (Hi r Hr) as (k & ? & ?). exists k. split; [lia|done]. Qed.

Context `{!EnvLaws}.

Lemma issued_fresh n t : issued_wf n t → env_uuid n ∉ pk <$> t.
Proof.
  intros [_ Hi] (r & Heq & Hr)%list_elem_of_fmap. destruct (Hi r Hr) as (k & Hk & Hid).
  rewrite Hid in Heq. apply env_uuid_inj in Heq. lia.
Qed.

Context (merge : R → R → R).
Context (merge_key : ∀ old new, key (merge old new) = key old).
Context (merge_pk : ∀ old new, pk (merge old new) = pk old).

Lemma issued_upsert_at n k t new t' :
  issued_wf n t → (k < n)%nat → pk new = env_uuid k → upsert_row key pk merge new t = Ok t' → issued_wf n t'.
Proof.
  intros Hwf Hk Hpk Hup. split; [by eapply (upsert_row_wf key pk merge); [| |apply (iwf_table _ _ Hwf)|]|].
  destruct Hwf as [_ Hi]. intros r Hr.
  destruct (upsert_row_pks key pk merge merge_key merge_pk _ _ _ (pk r) Hup) as [(r' & -> & Hr')%list_elem_of_fmap| ->];
    [by apply list_elem_of_fmap_2|by apply Hi|by eauto].
Qed.

Lemma issued_upsert n t new t' :
  issued_wf n t → pk new = env_uuid n → upsert_row key pk merge new t = Ok t' → issued_wf (S n) t'.
Proof.
  intros Hwf. apply (issued_upsert_at _ n); [|lia]. eapply issued_mono; [|exact Hwf]. lia.
Qed.

End issued.

Section upsert.
Context {R K X : Type} `{Countable K} (T : table R).
Context (key : R → K) (pk : R → string) (merge : R → R → R).
Context (check : R → option error) (row : string → X → R) (wrap_err : error → error).

Definition upsert_stmt (new : R) : stmt () := λ d,
  match check new with
  | Some e => Err e
  | None => match upsert_row key pk merge new (tget T d) with
            | Ok t => Ok ((), tset T t d)
            | Err e => Err e
            end
  end.

Context `{Env}.

Definition upsert_one (x : X) : M () :=
  id ← uuid_NewString; map_err wrap_err (db_call (upsert_stmt (row id x))).

Definition upsert_each (xs : list X) : M () := range xs upsert_one.

Definition upsert_wf (w : world) : Prop := issued_wf key pk (w_uuids w) (tget T (w_db w)).

Context `{!EnvLaws}.
Context (merge_key : ∀ old new, key (merge old new) = key old).
Context (merge_pk : ∀ old new, pk (merge old new) = pk old).
Context (row_pk : ∀ id x, pk (row id x) = id).
Context (xkey : X → K) (row_key : ∀ id x, key (row id x) = xkey x).

(** Whatever is lost, the table stays well formed. *)
Lemma upsert_each_wf xs w : upsert_wf w → wp (upsert_each xs) (λ _ w', upsert_wf w') w.
Proof.
  intros Hwf. apply wp_range_invariant; [|done]. clear w Hwf. intros x w _ Hwf. unfold upsert_one.
  wp_steps. apply wp_db_call; cbn.
  - intros _. unfold upsert_wf in *. cbn. eapply issued_mono; [|done]. lia.
  - intros u d r Hs _. assert (upsert_wf (tick d (mkWorld (w_db w) (w_calls w) (S (w_uuids w)) (w_times w)))) as Hq;
      [|by destruct r].
    unfold upsert_stmt in Hs. destruct (check _); [done|].
    destruct (upsert_row _ _ _ _ _) as [t'|] eqn:Hup; [|done]. injection Hs as <- <-.
    unfold upsert_wf. cbn. rewrite tget_tset. eapply (issued_upsert key pk merge merge_key merge_pk); [exact Hwf|apply row_pk|exact Hup].
Qed.

(** With every statement delivered and every row accepted, each element is
    merged into the map view of the table. *)
Inductive merged : gmap K R → list X → gmap K R → Prop :=
| merged_nil m : merged m [] m
| merged_cons m x id xs m' : merged (merge_into key merge (row id x) m) xs m' → merged m (x :: xs) m'.

Definition upsert_map (w : world) : gmap K R := tmap key (tget T (w_db w)).

Lemma wp_upsert_each xs w :
  (∀ n, env_db n = Delivered) → upsert_wf w → (∀ id x, x ∈ xs → check (row id x) = None) →
  wp (upsert_each xs) (λ r w', r = Ok () ∧ merged (upsert_map w) xs (upsert_map w')) w.
Proof.
  intros Hd. revert w. induction xs as [|x xs IH]; intros w Hwf Hcheck; [split; [done|constructor]|].
  unfold upsert_each. cbn [range]. wp_step. unfold upsert_one at 1. wp_steps.
  apply db_call_delivered; [done|]. cbn [w_db w_calls w_uuids w_times]. unfold upsert_stmt.
  rewrite Hcheck by set_solver.
  destruct (upsert_row_ok key pk merge (row (env_uuid (w_uuids w)) x) (tget T (w_db w))) as [t' Ht'].
  { rewrite row_pk. by apply (issued_fresh key pk). }
  rewrite Ht'. set (w1 := tick _ _). assert (tget T (w_db w1) = t') as Hw1 by apply tget_tset.
  assert (upsert_wf w1) as Hwf1.
  { unfold upsert_wf. rewrite Hw1. eapply (issued_upsert key pk merge merge_key merge_pk); [exact Hwf|apply row_pk|exact Ht']. }
  eapply wp_mono; [apply (IH w1 Hwf1); set_solver|]. intros r w2 [-> Hm]. split; [done|].
  econstructor. unfold upsert_map in Hm at 1. rewrite Hw1 in Hm.
  by rewrite (upsert_row_tmap key pk merge merge_key merge_pk _ _ _ (iwf_table key pk _ _ Hwf) Ht') in Hm.
Qed.

(** ** Reading the result *)
Lemma merged_other m xs m' k : merged m xs m' → k ∉ xkey <$> xs → m' !! k = m !! k.
Proof.
  induction 1 as [|m x id xs m' _ IH]; [done|]. rewrite fmap_cons, not_elem_of_cons. intros [Hne Hni].
  rewrite IH by done. unfold merge_into. rewrite row_key. by apply lookup_insert_ne.
Qed.

(** The row of an element: merged with the old row if there was one. *)
Definition has_row (m : gmap K R) (x : X) (m' : gmap K R) : Prop :=
  ∃ id, m' !! xkey x = Some (match m !! xkey x with Some old => merge old (row id x) | None => row id x end).

Lemma merged_rows m xs m' : merged m xs m' → NoDup (xkey <$> xs) → Forall (λ x, has_row m x m') xs.
Proof.
  induction 1 as [|m x id xs m' Hm IH]; [constructor|]. rewrite fmap_cons, NoDup_cons. intros [Hni Hnd].
  constructor.
  - exists id. rewrite (merged_other _ _ _ _ Hm Hni). unfold merge_into. by rewrite row_key, lookup_insert_eq.
  - specialize (IH Hnd). rewrite Forall_forall in IH |- *. intros y Hy. destruct (IH y Hy) as [id' Hid'].
    exists id'. rewrite Hid'. unfold merge_into. rewrite row_key, lookup_insert_ne; [done|].
    intros Heq. apply Hni. rewrite Heq. by apply list_elem_of_fmap_2.
Qed.

(** A table that was empty holds exactly the elements. *)
Lemma merged_empty_back t xs r :
  NoDup (key <$> t) → NoDup (xkey <$> xs) → merged ∅ xs (tmap key t) → r ∈ t → ∃ id x, x ∈ xs ∧ r = row id x.
Proof.
  intros Hnt Hnx Hm Hr. assert (tmap key t !! key r = Some r) as Hlook by (by apply tmap_Some).
  pose proof (merged_rows _ _ _ Hm Hnx) as Hrows. rewrite Forall_forall in Hrows.
  destruct (decide (key r ∈ xkey <$> xs)) as [(x & Heq & Hx)%list_elem_of_fmap|Hni].
  - destruct (Hrows x Hx) as [id Hid]. rewrite lookup_empty, <- Heq, Hlook in Hid. exists id, x. by injection Hid.
  - by rewrite (merged_other _ _ _ _ Hm Hni), lookup_empty in Hlook.
Qed.

Lemma merged_empty_scan (scan : R → X) t xs :
  (∀ id x, scan (row id x) = x) → NoDup (key <$> t) → NoDup (xkey <$> xs) →
  merged ∅ xs (tmap key t) → scan <$> t ≡ₚ xs.
Proof.
  intros Hscan Hnt Hnx Hm. pose proof (merged_rows _ _ _ Hm Hnx) as Hrows. rewrite Forall_forall in Hrows.
  assert (∀ x, x ∈ xs → ∃ id, row id x ∈ t) as Hfwd.
  { intros x Hx. destruct (Hrows x Hx) as [id Hid]. rewrite lookup_empty in Hid. exists id.
    by apply tmap_Some in Hid as [? _]. }
  assert (∀ r, r ∈ t → ∃ id x, x ∈ xs ∧ r = row id x) as Hback by (intros r; by apply merged_empty_back).
  apply NoDup_Permutation.
  - apply (NoDup_fmap_1 xkey). rewrite <- list_fmap_compose. erewrite list_fmap_ext; [exact Hnt|].
    intros i r Hr%list_elem_of_lookup_2. destruct (Hback r Hr) as (id & x & _ & ->). unfold compose.
    by rewrite Hscan, row_key.
  - by apply (NoDup_fmap_1 xkey).
  - intros x. split.
    + intros (r & -> & Hr)%list_elem_of_fmap. destruct (Hback r Hr) as (id & x & Hx & ->). by rewrite Hscan.
    + intros Hx. destruct (Hfwd x Hx) as [id Hid]. rewrite <- (Hscan id x). by apply list_elem_of_fmap_2.
Qed.

End upsert.
