(* ===== verification/AppRepo.v ===== *)
(** * The applications of the repository

    Models [internal/database/repository/application.go] and [filter.go] over
    the table [applications].  The SELECT statements are assembled at run time:
    the model keeps the calls made on the query builder, whose text is the
    rendering of an abstract query (file [SqlBuilder]), and [select_rows] is the
    meaning of that abstract query.  A statement into which a group name has put
    other text is answered by the environment ([env_sql]). *)
From S2P Require Import Prelude GoStrings SqlBuilder Dao Db QueueRepo.
From Stdlib Require Import Ascii.
Import Sql SqlSpec.

(** ** [time.Time], as far as it is used *)
Record time := mkTime {
  unix_sec : Z;
  nsec : Z;
}.

(** [time.Unix]: the nanoseconds are brought into [0, 1e9). *)
Definition time_Unix (sec ns : Z) : time :=
  if bool_decide (ns < 0 ∨ 1000000000 ≤ ns)
  then let n := Z.quot ns 1000000000 in
       let sec := sec + n in
       let ns := ns - n * 1000000000 in
       if bool_decide (ns < 0) then mkTime (sec - 1) (ns + 1000000000) else mkTime sec ns
  else mkTime sec ns.

Definition time_UnixMilli (msec : Z) : time :=
  time_Unix (Z.quot msec 1000) (Z.rem msec 1000 * 1000000).

(** The method [UnixMilli]. *)
Definition UnixMilli (t : time) : Z := unix_sec t * 1000 + Z.quot (nsec t) 1000000.

(** ** Filters *)
Record ApplicationFilters := mkApplicationFilters {
  SubmissionStartTime : option time;
  SubmissionEndTime : option time;
  FinishedStartTime : option time;
  FinishedEndTime : option time;
  FUser : option string;
  FGroups : list string;
  FOffset : option Z;
  FLimit : option Z;
}.

Definition no_filters : ApplicationFilters := mkApplicationFilters None None None None None [] None None.

(** [if p != nil { ... }] around one call on the builder. *)
Definition if_set {A} (p : option A) (c : A → builder_call) : list builder_call :=
  match p with Some a => [c a] | None => [] end.

Definition applyLimitAndOffset (lim off : option Z) : list builder_call :=
  if_set lim CallLimit ++ if_set off CallOffset.

(** The column name of the user, with its double quotes. *)
Definition user_column : string := String "034" ("user" +:+ String "034" "").

(** The calls that the function makes on its builder, in order. *)
Definition applyApplicationFilters (f : ApplicationFilters) : list builder_call :=
  if_set (SubmissionStartTime f) (λ t, CallConditionp "submission_time" ">=" (AnyInt64 (UnixMilli t))) ++
  if_set (SubmissionEndTime f) (λ t, CallConditionp "submission_time" "<=" (AnyInt64 (UnixMilli t))) ++
  if_set (FinishedStartTime f) (λ t, CallConditionp "finished_time" ">=" (AnyInt64 (UnixMilli t))) ++
  if_set (FinishedEndTime f) (λ t, CallConditionp "finished_time" "<=" (AnyInt64 (UnixMilli t))) ++
  (if bool_decide (0 < length (FGroups f))%nat
   then [CallConditionf "groups && ARRAY[%s]" [AnyString (SliceToCommaSeparated (FGroups f) true)]]
   else []) ++
  if_set (FUser f) (λ u, CallConditionp user_column "=" (AnyString u)) ++
  applyLimitAndOffset (FLimit f) (FOffset f).

(** The builder chains of the two readers. *)
Definition all_applications_calls (f : ApplicationFilters) : list builder_call :=
  [CallSelectAll "applications" "a"; CallOrderBy "a.submission_time" OrderByDescending] ++
  applyApplicationFilters f.

Definition queue_applications_calls (partition queue : string) (f : ApplicationFilters) :
    list builder_call :=
  [CallSelectAll "applications" ""; CallConditionp "queue_name" "=" (AnyString queue);
   CallConditionp "partition" "=" (AnyString partition);
   CallOrderBy "submission_time" OrderByDescending] ++
  applyApplicationFilters f.

(** ** The meaning of a SELECT on [applications] *)

(** A comparison with NULL does not select the row. *)
Definition compare_int (op : string) (column : AppRow → option Z) (v : Z) : option (AppRow → bool) :=
  let test (cmp : Z → Z → bool) r := match column r with Some c => cmp c v | None => false end in
  if decide (op = ">=") then Some (test Z.geb)
  else if decide (op = "<=") then Some (test Z.leb) else None.

Definition compare_text (op : string) (column : AppRow → string) (v : string) : option (AppRow → bool) :=
  if decide (op = "=") then Some (λ r, bool_decide (column r = v)) else None.

Fixpoint strip_prefix (p s : string) : option string :=
  match p, s with
  | EmptyString, _ => Some s
  | String c p', String c' s' => if decide (c = c') then strip_prefix p' s' else None
  | _, _ => None
  end.

(** The text before a final closing bracket. *)
Fixpoint before_bracket (s : string) : option string :=
  match s with
  | EmptyString => None
  | String "]" EmptyString => Some ""
  | String c s' => String c <$> before_bracket s'
  end.

(** [groups && ARRAY['a','b']]: the arrays overlap. *)
Definition group_literals (expr : string) : option (list string) :=
  s ← strip_prefix "groups && ARRAY[" expr; t ← before_bracket s; array_literals t.

Definition overlap (column : option (list string)) (gs : list string) : bool :=
  match column with
  | Some l => bool_decide (Exists (λ g, g ∈ gs) l)
  | None => false
  end.

(** The rows that a condition selects; [None]: it is none of the conditions whose
    meaning is given here. *)
Definition eval_cond (c : cond) : option (AppRow → bool) :=
  match c with
  | CondText expr => (λ gs r, overlap (a_groups r) gs) <$> group_literals expr
  | CondArg lhs op (AnyInt64 v) =>
      if decide (lhs = "submission_time") then compare_int op (λ r, Some (a_submission_time r)) v
      else if decide (lhs = "finished_time") then compare_int op a_finished_time v else None
  | CondArg lhs op (AnyString v) =>
      if decide (lhs = user_column) then compare_text op a_user v
      else if decide (lhs = "queue_name") then compare_text op a_queue_name v
      else if decide (lhs = "partition") then compare_text op a_partition v else None
  | CondArg _ _ (AnyInt _) => None
  end.

Definition selected (ps : list (AppRow → bool)) (r : AppRow) : bool := forallb (λ p, p r) ps.

(** ORDER BY submission_time DESC. *)
Definition later_first (r r' : AppRow) : Prop := a_submission_time r' ≤ a_submission_time r.

#[export] Instance later_first_dec r r' : Decision (later_first r r').
Proof. unfold later_first. apply _. Defined.

Definition order_ok (o : option (string * OrderDirection)) : bool :=
  match o with
  | Some (c, OrderByDescending) => bool_decide (c = "submission_time" ∨ c = "a.submission_time")
  | _ => false
  end.

(** A LIMIT or OFFSET below zero is an error of the execution, which pgx reports
    through [rows.Err()] and not through [Query]: no row arrives. *)
Definition page (lim off : option Z) (rows : list AppRow) : list AppRow :=
  if bool_decide (default 0 lim < 0 ∨ default 0 off < 0) then []
  else let rest := drop (Z.to_nat (default 0 off)) rows in
       match lim with Some n => take (Z.to_nat n) rest | None => rest end.

(** The rows of an abstract query; [scan] is the order of the table scan, which
    decides between rows of equal submission time.  [None]: the query has a
    condition, or an order, whose meaning is not given here. *)
Definition select_rows (scan : list AppRow → list AppRow) (q : SqlSpec.query) (t : list AppRow) :
    option (list AppRow) :=
  ps ← mapM eval_cond (q_conds q);
  if order_ok (q_order q)
  then Some (page (q_limit q) (q_offset q) (merge_sort later_first (filter (selected ps) (scan t))))
  else None.

(** ** Rows *)
Definition app_key (r : AppRow) : string * string * string :=
  (a_partition r, a_queue_name r, a_app_id r).

Definition app_row (id queueId : string) (a : ApplicationDAOInfo) : AppRow :=
  mkAppRow id (ApplicationID a) (UsedResource a) (MaxUsedResource a) (AppPendingResource a)
    (AppPartition a) (AppQueueName a) queueId (SubmissionTime a) (FinishedTime a) (Requests a)
    (Allocations a) (State a) (User a) (Groups a) (RejectedMessage a) (StateLog a)
    (PlaceholderData a) (HasReserved a) (Reservations a) (MaxRequestPriority a).

(** COALESCE(new, old). *)
Definition coalesce {A} (new old : option A) : option A :=
  match new with Some a => Some a | None => old end.

Definition app_merge (old excluded : AppRow) : AppRow :=
  mkAppRow (a_id old) (a_app_id old)
    (coalesce (a_used_resource excluded) (a_used_resource old))
    (coalesce (a_max_used_resource excluded) (a_max_used_resource old))
    (coalesce (a_pending_resource excluded) (a_pending_resource old))
    (a_partition old) (a_queue_name old) (a_queue_id old) (a_submission_time old)
    (coalesce (a_finished_time excluded) (a_finished_time old))
    (coalesce (a_requests excluded) (a_requests old))
    (coalesce (a_allocations excluded) (a_allocations old))
    (a_state excluded) (a_user old) (a_groups old) (a_rejected_message excluded)
    (coalesce (a_state_log excluded) (a_state_log old))
    (coalesce (a_place_holder_data excluded) (a_place_holder_data old))
    (a_has_reserved excluded) (coalesce (a_reservations excluded) (a_reservations old))
    (a_max_request_priority excluded).

(** [queue_id] is NOT NULL. *)
Definition upsert_app_stmt (id : string) (queueId : option string) (a : ApplicationDAOInfo) : stmt () := λ d,
  match queueId with
  | None => Err not_null_violation
  | Some qid =>
      match upsert_row app_key a_id app_merge (app_row id qid a) (t_applications d) with
      | Ok t => Ok ((), set_applications t d)
      | Err e => Err e
      end
  end.

Definition scan_app (r : AppRow) : ModelApplication :=
  mkModelApplication None (a_queue_id r)
    (mkApplicationDAOInfo (a_app_id r) (a_used_resource r) (a_max_used_resource r)
       (a_pending_resource r) (a_partition r) (a_queue_name r) (a_submission_time r)
       (a_finished_time r) (a_requests r) (a_allocations r) (a_state r) (a_user r) (a_groups r)
       (a_rejected_message r) (a_state_log r) (a_place_holder_data r) (a_has_reserved r)
       (a_reservations r) (a_max_request_priority r)).

Section repo.
Context `{Env}.

Definition upsert_app (a : ApplicationDAOInfo) : M () :=
  queueId ← map_err (ErrPrefix "could not get queue_id from DB: ")
              (getQueueID (AppQueueName a) (AppPartition a));
  id ← uuid_NewString;
  db_call (upsert_app_stmt id queueId a).

Definition UpsertApplications (apps : list ApplicationDAOInfo) : M () := range apps upsert_app.

(** The answer to the statement that the builder assembled: the rows of the
    abstract query, and when its conditions are not of the known form (a group
    name with a quote can put any text into the statement) whatever the server
    makes of the text. *)
Definition answer_select (cs : list builder_call) (n : nat) (d : db) : result (list AppRow) :=
  match select_rows (env_scan n AppRow) (spec_calls cs empty_query) (t_applications d) with
  | Some l => Ok l
  | None => let queryBuilder := calls cs NewBuilder in env_sql n (Query queryBuilder) (Args queryBuilder) d
  end.

(** [dbpool.Query(ctx, query, args...)] for the query the calls assemble, and the
    loop over its rows. *)
Definition query_applications (cs : list builder_call) : M (list ModelApplication) :=
  rows ← map_err (ErrPrefix "could not get applications from DB: ")
           (r ← query_reply (answer_select cs) (λ k r, match r with Ok l => Ok (take k l) | Err e => Err e end);
            match r with Ok l => mret l | Err e => fail e end);
  mret (scan_app <$> rows).

Definition GetAllApplications (f : ApplicationFilters) : M (list ModelApplication) :=
  query_applications (all_applications_calls f).

Definition GetAppsPerPartitionPerQueue (partition queue : string) (f : ApplicationFilters) :
    M (list ModelApplication) :=
  query_applications (queue_applications_calls partition queue f).

End repo.
