(* ===== verification/AppQuery.v ===== *)
(** * Reading applications

    The conditions that the filters put into the SELECT statement select exactly
    the applications that match the filters, in order of submission, and the
    page that LIMIT and OFFSET ask for. *)
From S2P Require Import Prelude GoStrings SqlBuilder Dao Db QueueRepo AppRepo.
From Stdlib Require Import Ascii.
Import Sql SqlSpec.

(** Milliseconds survive the conversion to [time.Time] and back. *)
Lemma UnixMilli_time_UnixMilli ms : UnixMilli (time_UnixMilli ms) = ms.
Proof.
  unfold UnixMilli, time_UnixMilli, time_Unix. repeat case_bool_decide; cbn [unix_sec nsec];
    Z.to_euclidean_division_equations; lia.
Qed.

(** ** What the filters mean *)
Definition if_given {A} (o : option A) (P : A → Prop) : Prop :=
  match o with Some a => P a | None => True end.

Definition known {A} (o : option A) (P : A → Prop) : Prop :=
  match o with Some a => P a | None => False end.

#[export] Instance if_given_dec {A} (o : option A) (P : A → Prop) `{!∀ a, Decision (P a)} : Decision (if_given o P).
Proof. destruct o; apply _. Defined.
#[export] Instance known_dec {A} (o : option A) (P : A → Prop) `{!∀ a, Decision (P a)} : Decision (known o P).
Proof. destruct o; apply _. Defined.

Record matches (f : ApplicationFilters) (r : AppRow) : Prop := {
  match_start : if_given (SubmissionStartTime f) (λ t, UnixMilli t ≤ a_submission_time r);
  match_end : if_given (SubmissionEndTime f) (λ t, a_submission_time r ≤ UnixMilli t);
  match_fstart : if_given (FinishedStartTime f) (λ t, known (a_finished_time r) (λ z, UnixMilli t ≤ z));
  match_fend : if_given (FinishedEndTime f) (λ t, known (a_finished_time r) (λ z, z ≤ UnixMilli t));
  match_groups : FGroups f ≠ [] → known (a_groups r) (λ l, Exists (λ g, g ∈ FGroups f) l);
  match_user : if_given (FUser f) (λ u, a_user r = u);
}.

(** ** The groups condition *)
Lemma strip_prefix_app p s : strip_prefix p (p +:+ s) = Some s.
Proof. induction p as [|c p IH]; [done|]. rewrite string_app_cons. cbn [strip_prefix]. by rewrite decide_True. Qed.

Lemma before_bracket_app s : before_bracket (s +:+ "]") = Some s.
Proof.
  assert (∀ c s', s' ≠ "" → before_bracket (String c s') = String c <$> before_bracket s') as Hc.
  { intros c s' Hs'. destruct s' as [|c' s']; [done|]. by destruct c as [[][][][][][][][]]. }
  induction s as [|c s IH]; [done|]. rewrite string_app_cons, Hc, IH; [done|]. by destruct s.
Qed.

Lemma group_literals_text gs :
  group_literals (Sprintf "groups && ARRAY[%s]" [AnyString (SliceToCommaSeparated gs true)]) =
    array_literals (SliceToCommaSeparated gs true).
Proof.
  unfold group_literals.
  change (Sprintf "groups && ARRAY[%s]" [AnyString (SliceToCommaSeparated gs true)])
    with ("groups && ARRAY[" +:+ (SliceToCommaSeparated gs true +:+ "]")).
  rewrite strip_prefix_app. cbn [mbind option_bind]. by rewrite before_bracket_app.
Qed.

Lemma group_literals_quoted gs :
  gs ≠ [] → Forall (λ g, no_char "'" g = true) gs →
  group_literals (Sprintf "groups && ARRAY[%s]" [AnyString (SliceToCommaSeparated gs true)]) = Some gs.
Proof. intros Hne Hq. rewrite group_literals_text. by apply array_literals_quoted. Qed.

(** ** From calls to conditions *)
Definition cond_of (c : builder_call) : option cond :=
  match c with
  | CallConditionf f l => Some (CondText (Sprintf f l))
  | CallCondition e => Some (CondText e)
  | CallConditionp l o v => Some (CondArg l o v)
  | _ => None
  end.

Definition conds_of (cs : list builder_call) : list cond := omap cond_of cs.

Lemma spec_calls_conds cs q : q_conds (spec_calls cs q) = q_conds q ++ conds_of cs.
Proof.
  revert q. induction cs as [|c cs IH]; intros q; [by rewrite app_nil_r|].
  unfold spec_calls in *. cbn [foldl]. rewrite IH. destruct c; cbn; by rewrite <- ?app_assoc.
Qed.

Lemma conds_of_app cs1 cs2 : conds_of (cs1 ++ cs2) = conds_of cs1 ++ conds_of cs2.
Proof. apply omap_app. Qed.

(** The filters set LIMIT and OFFSET and leave the order alone. *)
Lemma spec_calls_filters f q :
  q_order (spec_calls (applyApplicationFilters f) q) = q_order q ∧
  q_limit (spec_calls (applyApplicationFilters f) q) = coalesce (FLimit f) (q_limit q) ∧
  q_offset (spec_calls (applyApplicationFilters f) q) = coalesce (FOffset f) (q_offset q).
Proof.
  destruct f as [s1 s2 f1 f2 u gs off lim]. unfold applyApplicationFilters.
  destruct (bool_decide _), s1, s2, f1, f2, u, off, lim; done.
Qed.

(** A list of conditions selects the rows that satisfy [P]. *)
Definition conds_mean (cs : list cond) (P : AppRow → Prop) : Prop :=
  ∃ ps, mapM eval_cond cs = Some ps ∧ ∀ r, selected ps r = true ↔ P r.

Lemma conds_mean_nil : conds_mean [] (λ _, True).
Proof. by exists []. Qed.

Lemma conds_mean_app cs1 cs2 P1 P2 :
  conds_mean cs1 P1 → conds_mean cs2 P2 → conds_mean (cs1 ++ cs2) (λ r, P1 r ∧ P2 r).
Proof.
  intros (ps1 & H1 & Hs1) (ps2 & H2 & Hs2). exists (ps1 ++ ps2). split.
  - clear -H1 H2. revert ps1 H1. induction cs1 as [|c cs1 IH]; intros ps1; cbn; [by intros [= <-]|].
    destruct (eval_cond c); [|done]. cbn. destruct (mapM eval_cond cs1); [|done]. intros [= <-].
    by rewrite (IH _ eq_refl).
  - intros r. unfold selected in *. by rewrite forallb_app, andb_true_iff, Hs1, Hs2.
Qed.

Lemma conds_mean_one c p (P : AppRow → Prop) :
  eval_cond c = Some p → (∀ r, p r = true ↔ P r) → conds_mean [c] P.
Proof.
  intros Hc Hp. exists [p]. cbn. rewrite Hc. split; [done|]. intros r. cbn. by rewrite andb_true_r.
Qed.

Lemma conds_mean_if_set {A} (o : option A) (c : A → builder_call) (P : A → AppRow → Prop) :
  (∀ a, conds_mean (conds_of [c a]) (P a)) →
  conds_mean (conds_of (if_set o c)) (λ r, if_given o (λ a, P a r)).
Proof. intros Hc. destruct o as [a|]; [apply Hc|apply conds_mean_nil]. Qed.

Lemma conds_mean_iff cs P Q : conds_mean cs P → (∀ r, P r ↔ Q r) → conds_mean cs Q.
Proof. intros (ps & Hps & Hsel) HPQ. exists ps. split; [done|]. intros r. by rewrite Hsel. Qed.

Lemma submission_cond_ge v : conds_mean [CondArg "submission_time" ">=" (AnyInt64 v)] (λ r, v ≤ a_submission_time r).
Proof. eapply conds_mean_one; [reflexivity|]. intros r. cbn. apply Z.geb_le. Qed.

Lemma submission_cond_le v : conds_mean [CondArg "submission_time" "<=" (AnyInt64 v)] (λ r, a_submission_time r ≤ v).
Proof. eapply conds_mean_one; [reflexivity|]. intros r. cbn. apply Z.leb_le. Qed.

Lemma finished_cond_ge v :
  conds_mean [CondArg "finished_time" ">=" (AnyInt64 v)] (λ r, known (a_finished_time r) (λ z, v ≤ z)).
Proof.
  eapply conds_mean_one; [reflexivity|]. intros r. cbn. destruct (a_finished_time r); cbn; [apply Z.geb_le|done].
Qed.

Lemma finished_cond_le v :
  conds_mean [CondArg "finished_time" "<=" (AnyInt64 v)] (λ r, known (a_finished_time r) (λ z, z ≤ v)).
Proof.
  eapply conds_mean_one; [reflexivity|]. intros r. cbn. destruct (a_finished_time r); cbn; [apply Z.leb_le|done].
Qed.

Lemma text_cond lhs (column : AppRow → string) v :
  eval_cond (CondArg lhs "=" (AnyString v)) = compare_text "=" column v →
  conds_mean [CondArg lhs "=" (AnyString v)] (λ r, column r = v).
Proof.
  intros He. eapply conds_mean_one; [rewrite He; reflexivity|]. intros r. cbn. by rewrite bool_decide_eq_true.
Qed.

Lemma groups_cond gs :
  gs ≠ [] → Forall (λ g, no_char "'" g = true) gs →
  conds_mean [CondText (Sprintf "groups && ARRAY[%s]" [AnyString (SliceToCommaSeparated gs true)])]
    (λ r, known (a_groups r) (λ l, Exists (λ g, g ∈ gs) l)).
Proof.
  intros Hne Hq. eapply conds_mean_one.
  - cbn [eval_cond]. rewrite group_literals_quoted by done. reflexivity.
  - intros r. unfold overlap. destruct (a_groups r); cbn; [apply bool_decide_eq_true|done].
Qed.

(** The conditions of the filters select the applications that match them. *)
Lemma filters_mean f :
  Forall (λ g, no_char "'" g = true) (FGroups f) →
  conds_mean (conds_of (applyApplicationFilters f)) (matches f).
Proof.
  intros Hq. unfold applyApplicationFilters. rewrite !conds_of_app. eapply conds_mean_iff.
  - apply conds_mean_app; [apply conds_mean_if_set; intros t; apply submission_cond_ge|].
    apply conds_mean_app; [apply conds_mean_if_set; intros t; apply submission_cond_le|].
    apply conds_mean_app; [apply conds_mean_if_set; intros t; apply finished_cond_ge|].
    apply conds_mean_app; [apply conds_mean_if_set; intros t; apply finished_cond_le|].
    apply conds_mean_app with (P1 := λ r, FGroups f ≠ [] → known (a_groups r) (λ l, Exists (λ g, g ∈ FGroups f) l)).
    { case_bool_decide as Hlen.
      - assert (FGroups f ≠ []) as Hne by (intros Hnil; rewrite Hnil in Hlen; cbn in Hlen; lia).
        eapply conds_mean_iff; [by apply groups_cond|]. naive_solver.
      - eapply conds_mean_iff; [apply conds_mean_nil|]. destruct (FGroups f); [done|cbn in Hlen; lia]. }
    apply conds_mean_app; [apply conds_mean_if_set; intros u; by apply (text_cond user_column a_user)|].
    assert (conds_of (applyLimitAndOffset (FLimit f) (FOffset f)) = []) as -> by (by destruct (FLimit f), (FOffset f)).
    apply conds_mean_nil.
  - intros r. split.
    + intros (? & ? & ? & ? & ? & ? & _). by split.
    + intros [? ? ? ? ? ?]. by split_and!.
Qed.

(** ** The rows of a query *)
#[local] Instance later_first_total : Total later_first.
Proof. intros r r'. unfold later_first. lia. Qed.
#[local] Instance later_first_trans : Transitive later_first.
Proof. intros r1 r2 r3. unfold later_first. lia. Qed.

(** A complete answer: all the rows of the table that satisfy [P], latest
    submission first. *)
Definition complete_answer (t : list AppRow) (P : AppRow → Prop) (all : list AppRow) : Prop :=
  StronglySorted later_first all ∧ (∀ r, r ∈ all ↔ r ∈ t ∧ P r) ∧ all ⊆+ t.

Lemma select_rows_ok (scan : list AppRow → list AppRow) q t P :
  scan t ≡ₚ t → conds_mean (q_conds q) P → order_ok (q_order q) = true →
  ∃ all, complete_answer t P all ∧ select_rows scan q t = Some (page (q_limit q) (q_offset q) all).
Proof.
  intros Hscan (ps & Hps & Hsel) Hord. unfold select_rows. rewrite Hps. cbn [mbind option_bind]. rewrite Hord. eexists. split; [|done].
  split_and!.
  - apply StronglySorted_merge_sort; apply _.
  - intros r. rewrite merge_sort_Permutation, list_elem_of_filter, Hscan, Is_true_true, Hsel. naive_solver.
  - rewrite merge_sort_Permutation. etrans; [apply sublist_submseteq, sublist_filter|]. by rewrite Hscan.
Qed.

(** The page of a valid request. *)
Lemma page_nonneg lim off rows :
  0 ≤ default 0 lim → 0 ≤ default 0 off →
  page lim off rows = match lim with
                      | Some n => take (Z.to_nat n) (drop (Z.to_nat (default 0 off)) rows)
                      | None => drop (Z.to_nat (default 0 off)) rows
                      end.
Proof. intros Hl Ho. unfold page. rewrite bool_decide_false by lia. done. Qed.

Lemma page_negative lim off rows : default 0 lim < 0 ∨ default 0 off < 0 → page lim off rows = [].
Proof. intros H. unfold page. by rewrite bool_decide_true. Qed.

Lemma all_applications_mean f :
  Forall (λ g, no_char "'" g = true) (FGroups f) →
  let q := spec_calls (all_applications_calls f) empty_query in
  conds_mean (q_conds q) (matches f) ∧ order_ok (q_order q) = true ∧
  q_limit q = FLimit f ∧ q_offset q = FOffset f.
Proof.
  intros Hq. cbn zeta. unfold all_applications_calls. rewrite spec_calls_conds, conds_of_app.
  unfold spec_calls. rewrite foldl_app. fold (spec_calls (applyApplicationFilters f)).
  destruct (spec_calls_filters f (foldl (λ q c, spec_call c q) empty_query
    [CallSelectAll "applications" "a"; CallOrderBy "a.submission_time" OrderByDescending])) as (Ho & Hl & Hoff).
  unfold spec_calls in Ho, Hl, Hoff. rewrite Ho, Hl, Hoff. split_and!; [by apply filters_mean|done| |].
  - by destruct (FLimit f).
  - by destruct (FOffset f).
Qed.

Lemma queue_applications_mean partition queue f :
  Forall (λ g, no_char "'" g = true) (FGroups f) →
  let q := spec_calls (queue_applications_calls partition queue f) empty_query in
  conds_mean (q_conds q) (λ r, a_queue_name r = queue ∧ a_partition r = partition ∧ matches f r) ∧
  order_ok (q_order q) = true ∧ q_limit q = FLimit f ∧ q_offset q = FOffset f.
Proof.
  intros Hq. cbn zeta. unfold queue_applications_calls. rewrite spec_calls_conds, conds_of_app.
  unfold spec_calls. rewrite foldl_app.
  destruct (spec_calls_filters f (foldl (λ q c, spec_call c q) empty_query
    [CallSelectAll "applications" ""; CallConditionp "queue_name" "=" (AnyString queue);
     CallConditionp "partition" "=" (AnyString partition);
     CallOrderBy "submission_time" OrderByDescending])) as (Ho & Hl & Hoff).
  unfold spec_calls in Ho, Hl, Hoff. rewrite Ho, Hl, Hoff. split_and!; [|done| |].
  - apply (conds_mean_app [CondArg "queue_name" "=" (AnyString queue)]
      (CondArg "partition" "=" (AnyString partition) :: conds_of (applyApplicationFilters f)));
      [by apply (text_cond "queue_name" a_queue_name)|].
    apply (conds_mean_app [CondArg "partition" "=" (AnyString partition)]);
      [by apply (text_cond "partition" a_partition)|by apply filters_mean].
  - by destruct (FLimit f).
  - by destruct (FOffset f).
Qed.

Section read.
Context `{EnvLaws}.

Lemma wp_query_applications cs P w :
  let q := spec_calls cs empty_query in
  conds_mean (q_conds q) P → order_ok (q_order q) = true → env_db (w_calls w) = Delivered →
  wp (query_applications cs) (λ r w', w' = tick (w_db w) w ∧
    ∃ all, complete_answer (t_applications (w_db w)) P all ∧
           r = Ok (scan_app <$> page (q_limit q) (q_offset q) all)) w.
Proof.
  cbn zeta. intros Hc Ho Hd. unfold query_applications. wp_steps. apply query_reply_delivered; [done|]. cbv beta iota.
  unfold answer_select. destruct (select_rows_ok (env_scan (w_calls w) AppRow) _ (t_applications (w_db w)) P
    (env_scan_perm _ _ _) Hc Ho) as (all & Hall & ->).
  split; [done|]. by exists all.
Qed.

End read.
