(* ===== verification/StatusRepo.v ===== *)
(** * Partitions, nodes, node utilizations and history

    Models [internal/database/repository/partitions.go], [node.go] and
    [history.go] over the tables [partitions], [nodes], [partition_nodes_util]
    and [history]. *)
From S2P Require Import Prelude GoStrings Dao Db Upsert.

(** ** Partitions *)
Definition partition_row (id : string) (p : PartitionInfo) : PartitionRow :=
  mkPartitionRow id (PClusterID p) (PName p) (Capacity (PCapacity p)) (UsedCapacity (PCapacity p))
    (Utilization (PCapacity p)) (TotalNodes p) (Applications p) (TotalContainers p) (PState p)
    (LastStateTransitionTime p).

(** The SET list of ON CONFLICT (name) DO UPDATE. *)
Definition partition_merge (old excluded : PartitionRow) : PartitionRow :=
  mkPartitionRow (p_id old) (p_cluster_id old) (p_name old) (p_capacity excluded)
    (p_used_capacity excluded) (p_utilization excluded) (p_total_nodes excluded)
    (p_applications excluded) (p_total_containers excluded) (p_state excluded)
    (p_last_state_transition_time excluded).

(** INTEGER columns. *)
Definition partition_check (r : PartitionRow) : option error :=
  if in_range 32 (p_total_nodes r) && in_range 32 (p_total_containers r) then None else Some out_of_range.

Definition scan_partition (r : PartitionRow) : PartitionInfo :=
  mkPartitionInfo (p_cluster_id r) (p_name r)
    (mkPartitionCapacity (p_capacity r) (p_used_capacity r) (p_utilization r)) (p_total_nodes r)
    (p_applications r) (p_total_containers r) (p_state r) (p_last_state_transition_time r).

(** ** Nodes *)
Definition node_row (partition id : string) (n : NodeDAOInfo) : NodeRow :=
  mkNodeRow id (NodeID n) partition (HostName n) (RackName n) (Attributes n) (NCapacity n)
    (Allocated n) (Occupied n) (Available n) (Utilized n) (NAllocations n) (Schedulable n)
    (IsReserved n) (NReservations n).

(** The SET list of ON CONFLICT (node_id) DO UPDATE. *)
Definition node_merge (old excluded : NodeRow) : NodeRow :=
  mkNodeRow (n_id old) (n_node_id old) (n_partition old) (n_host_name old) (n_rack_name old)
    (n_attributes old) (n_capacity excluded) (n_allocated excluded) (n_occupied excluded)
    (n_available excluded) (n_utilized excluded) (n_allocations excluded) (n_schedulable excluded)
    (n_is_reserved excluded) (n_reservations excluded).

Definition scan_node (r : NodeRow) : NodeDAOInfo :=
  mkNodeDAOInfo (n_node_id r) (n_host_name r) (n_rack_name r) (n_attributes r) (n_capacity r)
    (n_allocated r) (n_occupied r) (n_available r) (n_utilized r) (n_allocations r)
    (n_schedulable r) (n_is_reserved r) (n_reservations r).

(** ** Node utilizations *)
Definition util_row (u : string) (nu : PartitionNodesUtilDAOInfo) : NodesUtilRow :=
  mkNodesUtilRow u (UClusterID nu) (UPartition nu) (NodesUtilList nu).

Definition scan_util (r : NodesUtilRow) : PartitionNodesUtilDAOInfo :=
  mkPartitionNodesUtilDAOInfo (u_cluster_id r) (u_partition r) (u_nodes_util_list r).

Definition insert_util_stmt (new : NodesUtilRow) : stmt () := λ d,
  match insert_row u_id new (t_nodes_util d) with
  | Ok t => Ok ((), set_nodes_util t d)
  | Err e => Err e
  end.

Section repo.
Context `{Env}.

Definition UpsertPartitions : list PartitionInfo → M () :=
  upsert_each partitions_table p_name p_id partition_merge partition_check partition_row
    (ErrPrefix "could not insert/update partition into DB: ").

Definition GetAllPartitions : M (list PartitionInfo) :=
  rows ← map_err (ErrPrefix "could not get partitions from DB: ") (query t_partitions);
  mret (scan_partition <$> rows).

Definition UpsertNodes (nodes : list NodeDAOInfo) (partition : string) : M () :=
  upsert_each nodes_table n_node_id n_id node_merge (λ _, None) (node_row partition)
    (ErrPrefix "could not insert application into DB: ") nodes.

Definition GetNodesPerPartition (partition : string) : M (list NodeDAOInfo) :=
  rows ← map_err (ErrPrefix "could not get nodes from DB: ")
           (query (λ d, filter (λ r, n_partition r = partition) (t_nodes d)));
  mret (scan_node <$> rows).

Definition InsertNodeUtilizations (u : string) (nus : list PartitionNodesUtilDAOInfo) : M () :=
  range nus (λ nu, map_err (ErrPrefix "could not insert node utilizations into DB: ")
                     (db_call (insert_util_stmt (util_row u nu)))).

Definition GetNodeUtilizations : M (list PartitionNodesUtilDAOInfo) :=
  rows ← map_err (ErrPrefix "could not get node utilizations from DB: ") (query t_nodes_util);
  mret (scan_util <$> rows).

(** ** History

    The totals are strings in Go; [int8in] is how the server reads a string
    sent for a BIGINT parameter. *)
Context (int8in : string → option Z).

Definition invalid_bigint : error := ErrMsg "invalid input syntax for type bigint".

Definition insert_history_stmt (id : string) (ty : history_type) (total : string) (ts : Z) : stmt () := λ d,
  match int8in total with
  | None => Err invalid_bigint
  | Some n => match insert_row h_id (mkHistoryRow id ty n ts) (t_history d) with
              | Ok t => Ok ((), set_history t d)
              | Err e => Err e
              end
  end.

Definition UpdateHistory (apps : list ApplicationHistoryDAOInfo) (containers : list ContainerHistoryDAOInfo) :
    M () :=
  _ ← range apps (λ app,
        id ← uuid_NewString;
        map_err (ErrPrefix "could not update applications history into DB: ")
          (db_call (insert_history_stmt id application (TotalApplications app) (ATimestamp app))));
  range containers (λ c,
    id ← uuid_NewString;
    map_err (ErrPrefix "could not update containers history into DB: ")
      (db_call (insert_history_stmt id container (CTotalContainers c) (CTimestamp c)))).

Definition GetApplicationsHistory : M (list ApplicationHistoryDAOInfo) :=
  rows ← map_err (ErrPrefix "could not get applications history from DB: ")
           (query (λ d, filter (λ r, h_type r = application) (t_history d)));
  mret ((λ r, mkApplicationHistoryDAOInfo (h_timestamp r) (pretty (h_total_number r))) <$> rows).

Definition GetContainersHistory : M (list ContainerHistoryDAOInfo) :=
  rows ← map_err (ErrPrefix "could not get containers history from DB: ")
           (query (λ d, filter (λ r, h_type r = container) (t_history d)));
  mret ((λ r, mkContainerHistoryDAOInfo (h_timestamp r) (pretty (h_total_number r))) <$> rows).

End repo.
