(* ===== verification/Repository.v ===== *)
(** * The repository interface

    Models [internal/database/repository/repository.go] and [postgres.go]: the
    interface through which the web service reads, the law that its readers
    leave the tables alone, and the implementation over PostgreSQL.  A method
    whose model bounds a recursion keeps the option of its result: [None] is the
    bound that was exceeded. *)
From S2P Require Import Prelude GoStrings SqlBuilder Dao Db QueueRepo AppRepo StatusRepo.

Class Repository := {
  repo_UpsertApplications : list ApplicationDAOInfo → M ();
  repo_GetAllApplications : ApplicationFilters → M (list ModelApplication);
  repo_GetAppsPerPartitionPerQueue : string → string → ApplicationFilters → M (list ModelApplication);
  repo_UpdateHistory : list ApplicationHistoryDAOInfo → list ContainerHistoryDAOInfo → M ();
  repo_GetApplicationsHistory : M (list ApplicationHistoryDAOInfo);
  repo_GetContainersHistory : M (list ContainerHistoryDAOInfo);
  repo_UpsertNodes : list NodeDAOInfo → string → M ();
  repo_InsertNodeUtilizations : string → list PartitionNodesUtilDAOInfo → M ();
  repo_GetNodeUtilizations : M (list PartitionNodesUtilDAOInfo);
  repo_GetNodesPerPartition : string → M (list NodeDAOInfo);
  repo_UpsertPartitions : list PartitionInfo → M ();
  repo_GetAllPartitions : M (list PartitionInfo);
  repo_AddQueues : option string → list PartitionQueueDAOInfo → M ();
  repo_UpsertQueues : list PartitionQueueDAOInfo → M ();
  repo_GetAllQueues : M (list ModelQueue);
  repo_GetQueuesPerPartition : string → M (option (list ModelQueue));
  repo_GetQueue : string → string → M (option ModelQueue);
  repo_DeleteQueues : list ModelQueue → M ();
}.

(** ** Reading

    No action of the program changes a table. *)
Definition reads {A} (m : M A) : Prop := keeps eq m.

Lemma reads_run {A} (m : M A) w : reads m → w_db (run m w).2 = w_db w.
Proof. intros Hm. by destruct (keeps_run eq Hm w). Qed.

(** The methods that the web service calls do not write. *)
Class RepositoryReads (R : Repository) : Prop := {
  reads_GetAllPartitions : reads repo_GetAllPartitions;
  reads_GetQueuesPerPartition partition : reads (repo_GetQueuesPerPartition partition);
  reads_GetAppsPerPartitionPerQueue partition queue f : reads (repo_GetAppsPerPartitionPerQueue partition queue f);
  reads_GetNodesPerPartition partition : reads (repo_GetNodesPerPartition partition);
  reads_GetApplicationsHistory : reads repo_GetApplicationsHistory;
  reads_GetContainersHistory : reads repo_GetContainersHistory;
  reads_GetNodeUtilizations : reads repo_GetNodeUtilizations;
}.

#[export] Hint Resolve reads_GetAllPartitions reads_GetQueuesPerPartition reads_GetAppsPerPartitionPerQueue
  reads_GetNodesPerPartition reads_GetApplicationsHistory reads_GetContainersHistory
  reads_GetNodeUtilizations : reads.

Lemma reads_ret {A} (a : A) : reads (mret a).
Proof. done. Qed.

#[export] Hint Resolve reads_ret : reads.

(** ** The implementation *)
Section postgres.
Context `{Env} (int8in : string → option Z).

(** The readers of queues are bounded by the number of rows they can see at their
    first action, which is their query. *)
Definition rows_bound (w : world) : nat := S (length (t_queues (w_db w))).

Definition bounded {A} (m : nat → M A) : M A :=
  Act (λ w, match m (rows_bound w) with Done _ => w | Act upd _ => upd w end)
      (λ w, match m (rows_bound w) with Done r => Done r | Act _ next => next w end).

Lemma run_bounded {A} (m : nat → M A) w : run (bounded m) w = run (m (rows_bound w)) w.
Proof. cbn. by destruct (m (rows_bound w)). Qed.

Definition PostgresRepository : Repository := {|
  repo_UpsertApplications := UpsertApplications;
  repo_GetAllApplications := GetAllApplications;
  repo_GetAppsPerPartitionPerQueue := GetAppsPerPartitionPerQueue;
  repo_UpdateHistory := UpdateHistory int8in;
  repo_GetApplicationsHistory := GetApplicationsHistory;
  repo_GetContainersHistory := GetContainersHistory;
  repo_UpsertNodes := UpsertNodes;
  repo_InsertNodeUtilizations := InsertNodeUtilizations;
  repo_GetNodeUtilizations := GetNodeUtilizations;
  repo_GetNodesPerPartition := GetNodesPerPartition;
  repo_UpsertPartitions := UpsertPartitions;
  repo_GetAllPartitions := GetAllPartitions;
  repo_AddQueues := AddQueues;
  repo_UpsertQueues := UpsertQueues;
  repo_GetAllQueues := GetAllQueues;
  repo_GetQueuesPerPartition := λ partition, bounded (λ fuel, GetQueuesPerPartition fuel partition);
  repo_GetQueue := λ partition queueName, bounded (λ fuel, GetQueue fuel partition queueName);
  repo_DeleteQueues := DeleteQueues;
|}.

Definition NewPostgresRepository : result Repository := Ok PostgresRepository.

(** A call of the repository by some goroutine: of a method that writes, or
    anything that only reads. *)
Inductive repo_call :=
| CallUpsertQueues (queues : list PartitionQueueDAOInfo)
| CallAddQueues (parentId : option string) (queues : list PartitionQueueDAOInfo)
| CallDeleteQueues (queues : list ModelQueue)
| CallUpsertApplications (apps : list ApplicationDAOInfo)
| CallUpsertNodes (nodes : list NodeDAOInfo) (partition : string)
| CallUpsertPartitions (partitions : list PartitionInfo)
| CallInsertNodeUtilizations (u : string) (nus : list PartitionNodesUtilDAOInfo)
| CallUpdateHistory (apps : list ApplicationHistoryDAOInfo) (containers : list ContainerHistoryDAOInfo)
| CallRead (m : M ()).

Definition perform (c : repo_call) : M () :=
  match c with
  | CallUpsertQueues queues => UpsertQueues queues
  | CallAddQueues parentId queues => AddQueues parentId queues
  | CallDeleteQueues queues => DeleteQueues queues
  | CallUpsertApplications apps => UpsertApplications apps
  | CallUpsertNodes nodes partition => UpsertNodes nodes partition
  | CallUpsertPartitions partitions => UpsertPartitions partitions
  | CallInsertNodeUtilizations u nus => InsertNodeUtilizations u nus
  | CallUpdateHistory apps containers => UpdateHistory int8in apps containers
  | CallRead m => m
  end.

Lemma reads_bounded {A} (m : nat → M A) : (∀ n, reads (m n)) → reads (bounded m).
Proof.
  intros Hm w. specialize (Hm (rows_bound w)). unfold reads in Hm.
  destruct (m (rows_bound w)) as [r|upd next]; [done|apply Hm].
Qed.

Lemma one_action_bounded {A} (m : nat → M A) : (∀ n, one_action (m n)) → one_action (bounded m).
Proof.
  intros Hm. eexists _, _. split; [done|]. intros w. destruct (Hm (rows_bound w)) as (upd & next & -> & Hn). apply Hn.
Qed.

#[export] Instance PostgresRepository_reads : RepositoryReads PostgresRepository.
Proof.
  split; intros; [|apply reads_bounded; intros fuel| | | | |]; unfold reads; cbn [repo_GetAllPartitions
    repo_GetQueuesPerPartition repo_GetAppsPerPartitionPerQueue repo_GetNodesPerPartition repo_GetApplicationsHistory
    repo_GetContainersHistory repo_GetNodeUtilizations PostgresRepository]; unfold GetAllPartitions,
    GetQueuesPerPartition, GetAppsPerPartitionPerQueue, query_applications, GetNodesPerPartition,
    GetApplicationsHistory, GetContainersHistory, GetNodeUtilizations; keeps_steps.
Qed.

End postgres.
