(* ===== verification/StatusTheorems.v ===== *)
(** * Partitions, nodes, utilizations and history: theorems *)
From S2P Require Import Prelude GoStrings Dao Db Upsert StatusRepo.

Section status.
Context `{EnvLaws}.

Definition partitions_wf : world → Prop := upsert_wf partitions_table p_name p_id.
Definition nodes_wf : world → Prop := upsert_wf nodes_table n_node_id n_id.

Lemma UpsertPartitions_wf ps w : partitions_wf w → wp (UpsertPartitions ps) (λ _ w', partitions_wf w') w.
Proof. by apply upsert_each_wf. Qed.

Lemma UpsertNodes_wf ns partition w : nodes_wf w → wp (UpsertNodes ns partition) (λ _ w', nodes_wf w') w.
Proof. by apply upsert_each_wf. Qed.

Definition partition_valid (p : PartitionInfo) : Prop :=
  in_range 32 (TotalNodes p) ∧ in_range 32 (TotalContainers p).

Lemma partition_valid_check id p : partition_valid p → partition_check (partition_row id p) = None.
Proof. intros [H1%Is_true_true H2%Is_true_true]. unfold partition_check. cbn. by rewrite H1, H2. Qed.

Context (Hdel : ∀ n, env_db n = Delivered).

Lemma wp_UpsertPartitions ps w :
  partitions_wf w → Forall partition_valid ps →
  wp (UpsertPartitions ps) (λ r w', r = Ok () ∧ partitions_wf w' ∧
    merged p_name partition_merge partition_row (tmap p_name (t_partitions (w_db w))) ps
      (tmap p_name (t_partitions (w_db w')))) w.
Proof.
  intros Hwf Hv. eapply wp_mono; [apply wp_and; [by apply UpsertPartitions_wf|]|].
  - apply wp_upsert_each with (xkey := PName); try done.
    intros id x Hx. apply partition_valid_check. rewrite Forall_forall in Hv. by apply Hv.
  - intros r w' (Hwf' & -> & Hm). done.
Qed.

Lemma wp_UpsertNodes ns partition w :
  nodes_wf w →
  wp (UpsertNodes ns partition) (λ r w', r = Ok () ∧ nodes_wf w' ∧
    merged n_node_id node_merge (node_row partition) (tmap n_node_id (t_nodes (w_db w))) ns
      (tmap n_node_id (t_nodes (w_db w')))) w.
Proof.
  intros Hwf. eapply wp_mono; [apply wp_and; [by apply UpsertNodes_wf|]|].
  - by apply wp_upsert_each with (xkey := NodeID).
  - intros r w' (Hwf' & -> & Hm). done.
Qed.

(** ** Storing and reading back *)
Definition store_and_read_partitions (ps : list PartitionInfo) : M (list PartitionInfo) :=
  _ ← UpsertPartitions ps; GetAllPartitions.

Definition store_and_read_nodes (ns : list NodeDAOInfo) (partition : string) : M (list NodeDAOInfo) :=
  _ ← UpsertNodes ns partition; GetNodesPerPartition partition.

(** What is read back for [p] over a table that had the rows [m]: the cluster of
    the first time is kept. *)
Definition read_back (m : gmap string PartitionRow) (p : PartitionInfo) : PartitionInfo :=
  mkPartitionInfo (match m !! PName p with Some old => p_cluster_id old | None => PClusterID p end) (PName p)
    (PCapacity p) (TotalNodes p) (Applications p) (TotalContainers p) (PState p) (LastStateTransitionTime p).

Lemma scan_partition_name (t : list PartitionRow) : PName <$> (scan_partition <$> t) = p_name <$> t.
Proof. by rewrite <- list_fmap_compose. Qed.

Lemma wp_store_and_read_partitions ps w :
  partitions_wf w → Forall partition_valid ps → NoDup (PName <$> ps) →
  wp (store_and_read_partitions ps) (λ r w', ∃ l, r = Ok l ∧ NoDup (PName <$> l) ∧ ∀ p,
    p ∈ l ↔ (∃ p0, p0 ∈ ps ∧ p = read_back (tmap p_name (t_partitions (w_db w))) p0) ∨
            (PName p ∉ PName <$> ps ∧ p ∈ scan_partition <$> t_partitions (w_db w))) w.
Proof.
  intros Hwf Hv Hnd. unfold store_and_read_partitions, GetAllPartitions. wp_step.
  eapply wp_mono; [by apply wp_UpsertPartitions|]. intros r w' (-> & Hwf' & Hm). wp_steps.
  apply query_delivered; [done|]. intros l Hl. wp_step. eexists. split; [done|].
  pose proof (wf_key _ _ _ (iwf_table _ _ _ _ Hwf)) as Hnt. pose proof (wf_key _ _ _ (iwf_table _ _ _ _ Hwf')) as Hnt'.
  cbn [tget partitions_table] in Hnt, Hnt'.
  pose proof (merged_rows p_name partition_merge partition_row PName (λ _ _, eq_refl) _ _ _ Hm Hnd) as Hrows.
  rewrite Forall_forall in Hrows. split; [rewrite scan_partition_name; by rewrite Hl|]. intros p. rewrite Hl.
  assert (∀ p0, p0 ∈ ps → ∃ r, tmap p_name (t_partitions (w_db w')) !! PName p0 = Some r ∧
    scan_partition r = read_back (tmap p_name (t_partitions (w_db w))) p0) as Hread.
  { intros p0 Hp0. destruct (Hrows p0 Hp0) as [id Hid]. eexists. split; [exact Hid|]. unfold read_back.
    destruct (tmap p_name (t_partitions (w_db w)) !! PName p0) as [old|] eqn:Hold; [|by destruct p0 as [? ? []]].
    apply tmap_Some in Hold as [_ <-]; [|done]. by destruct p0 as [? ? []]. }
  split.
  - intros (r & -> & Hr)%list_elem_of_fmap. destruct (decide (p_name r ∈ PName <$> ps)) as [(p0 & Heq & Hp0)%list_elem_of_fmap|Hni].
    + left. exists p0. split; [done|]. destruct (Hread p0 Hp0) as (r' & Hr' & <-).
      rewrite <- Heq, (proj2 (tmap_Some p_name _ _ _ Hnt') (conj Hr eq_refl)) in Hr'. by simplify_eq.
    + right. split; [exact Hni|]. apply list_elem_of_fmap_2.
      apply (proj1 (tmap_Some p_name _ (p_name r) r Hnt)).
      rewrite <- (merged_other p_name partition_merge partition_row PName (λ _ _, eq_refl) _ _ _ _ Hm Hni).
      by apply tmap_Some.
  - intros [(p0 & Hp0 & ->)|[Hni (r & -> & Hr)%list_elem_of_fmap]].
    + destruct (Hread p0 Hp0) as (r & Hr & <-). apply list_elem_of_fmap_2. by apply tmap_Some in Hr as [? _].
    + apply list_elem_of_fmap_2. apply (proj1 (tmap_Some p_name _ (p_name r) r Hnt')).
      change (PName (scan_partition r)) with (p_name r) in Hni.
      rewrite (merged_other p_name partition_merge partition_row PName (λ _ _, eq_refl) _ _ _ _ Hm Hni).
      by apply tmap_Some.
Qed.

Lemma wp_store_and_read_nodes ns partition w :
  t_nodes (w_db w) = [] → nodes_wf w → NoDup (NodeID <$> ns) →
  wp (store_and_read_nodes ns partition) (λ r _, ∃ l, r = Ok l ∧ l ≡ₚ ns) w.
Proof.
  intros Hempty Hwf Hnd. unfold store_and_read_nodes, GetNodesPerPartition. wp_step.
  eapply wp_mono; [by apply wp_UpsertNodes|]. intros r w' (-> & Hwf' & Hm). wp_steps.
  apply query_delivered; [done|]. intros l Hl. wp_step. eexists. split; [done|]. rewrite Hl. rewrite Hempty in Hm.
  pose proof (wf_key _ _ _ (iwf_table _ _ _ _ Hwf')) as Hnt. cbn [tget nodes_table] in Hnt.
  rewrite filter_all.
  - eapply (merged_empty_scan n_node_id node_merge (node_row partition) NodeID); try done. by intros ? [].
  - intros r Hr. by destruct (merged_empty_back n_node_id node_merge (node_row partition) NodeID
      (λ _ _, eq_refl) _ _ _ Hnt Hnd Hm Hr) as (id & x & _ & ->).
Qed.

(** ** Node utilizations *)

(** One attempt of the job [upsert_node_utilizations]: the closure draws a new
    identifier for each attempt and uses it for all rows. *)
Definition node_utilizations_job (nus : list PartitionNodesUtilDAOInfo) : M () :=
  u ← uuid_NewString; InsertNodeUtilizations u nus.

Definition utils_issued (w : world) : Prop :=
  ∀ r, r ∈ t_nodes_util (w_db w) → ∃ k, (k < w_uuids w)%nat ∧ u_id r = env_uuid k.

Lemma utils_fresh w : utils_issued w → env_uuid (w_uuids w) ∉ u_id <$> t_nodes_util (w_db w).
Proof.
  intros Hi (r & Heq & Hr)%list_elem_of_fmap. destruct (Hi r Hr) as (k & Hk & Hid).
  rewrite Hid in Heq. apply env_uuid_inj in Heq. lia.
Qed.

(** With two partitions or more, the second row repeats the primary key: the
    attempt fails and leaves the first row behind. *)
Lemma wp_node_utilizations_two nu1 nu2 nus w :
  utils_issued w →
  wp (node_utilizations_job (nu1 :: nu2 :: nus))
    (λ r w', r = Err (ErrPrefix "could not insert node utilizations into DB: " unique_violation) ∧
       utils_issued w' ∧
       t_nodes_util (w_db w') = t_nodes_util (w_db w) ++ [util_row (env_uuid (w_uuids w)) nu1]) w.
Proof.
  intros Hi. pose proof (utils_fresh w Hi) as Hfresh. unfold node_utilizations_job, InsertNodeUtilizations.
  wp_step. wp_step. cbn [range]. wp_steps. apply db_call_delivered; [done|]. cbn [w_db w_calls w_uuids w_times].
  unfold insert_util_stmt at 1, insert_row at 1. rewrite decide_False by done.
  wp_steps. apply db_call_delivered; [done|]. cbn [w_db w_calls w_uuids w_times tick t_nodes_util set_nodes_util].
  unfold insert_util_stmt, insert_row. cbn [t_nodes_util set_nodes_util].
  rewrite decide_True by (rewrite fmap_app; set_solver). split; [done|]. split; [|done].
  intros r [Hr| ->%list_elem_of_singleton]%elem_of_app.
  - destruct (Hi r Hr) as (k & ? & ?). exists k. cbn. split; [lia|done].
  - exists (w_uuids w). cbn. split; [lia|done].
Qed.

(** ... so every attempt fails and adds a row. *)
Fixpoint attempts (n : nat) (job : M ()) : M () :=
  match n with O => mret () | S n' => catch (λ _, attempts n' job) job end.

Lemma node_utilizations_attempts nu1 nu2 nus n w :
  utils_issued w →
  let w' := (attempts n (node_utilizations_job (nu1 :: nu2 :: nus)) w).2 in
  utils_issued w' ∧ length (t_nodes_util (w_db w')) = (n + length (t_nodes_util (w_db w)))%nat.
Proof.
  revert w. induction n as [|n IH]; intros w Hi; [done|]. cbn zeta in *. cbn [attempts]. rewrite run_catch.
  destruct (wp_node_utilizations_two nu1 nu2 nus w Hi) as (_ & Hi' & Hlen).
  destruct (IH _ Hi') as [Hi'' Hn]. split; [done|]. rewrite Hn, Hlen, length_app. cbn. lia.
Qed.

(** ** History *)
Context (int8in : string → option Z).
Context (int8in_pretty : ∀ z, in_range 64 z → int8in (pretty z) = Some z).

Definition history_issued (w : world) : Prop :=
  ∀ r, r ∈ t_history (w_db w) → ∃ k, (k < w_uuids w)%nat ∧ h_id r = env_uuid k.

(** A total that the scheduler sends: the digits of a 64-bit number. *)
Definition numeral (s : string) : Prop := ∃ z, s = pretty z ∧ in_range 64 z.

(** The row of an entry. *)
Definition entry_row (ty : history_type) (total : string) (ts : Z) (r : HistoryRow) : Prop :=
  h_type r = ty ∧ pretty (h_total_number r) = total ∧ h_timestamp r = ts.

Lemma wp_insert_history {X} (xs : list X) ty (total : X → string) (ts : X → Z) wrap_err w :
  history_issued w → Forall (λ x, numeral (total x)) xs →
  wp (range xs (λ x, id ← uuid_NewString;
        map_err wrap_err (db_call (insert_history_stmt int8in id ty (total x) (ts x)))))
    (λ r w', r = Ok () ∧ history_issued w' ∧
       ∃ rows, t_history (w_db w') = t_history (w_db w) ++ rows ∧
               Forall2 (λ x, entry_row ty (total x) (ts x)) xs rows) w.
Proof.
  intros Hi Hn. revert w Hi. induction Hn as [|x xs (z & Hz & Hr) _ IH]; intros w Hi.
  { split; [done|]. split; [done|]. exists []. by rewrite app_nil_r. }
  cbn [range]. wp_steps. apply db_call_delivered; [done|]. cbn [w_db w_calls w_uuids w_times].
  unfold insert_history_stmt at 1. rewrite Hz, int8in_pretty by done. unfold insert_row at 1.
  rewrite decide_False.
  2:{ intros (r & Heq & Hin)%list_elem_of_fmap. destruct (Hi r Hin) as (k & Hk & Hid).
      cbn in Heq. rewrite Hid in Heq. apply env_uuid_inj in Heq. lia. }
  eapply wp_mono; [apply IH|].
  - intros r [Hin| ->%list_elem_of_singleton]%elem_of_app.
    + destruct (Hi r Hin) as (k & ? & ?). exists k. cbn. split; [lia|done].
    + exists (w_uuids w). cbn. split; [lia|done].
  - intros r w' (-> & Hi' & rows & Ht & Hrows). split; [done|]. split; [done|]. eexists (_ :: rows).
    split; [rewrite Ht; cbn; by rewrite <- app_assoc|]. by constructor.
Qed.

Definition store_and_read_history (apps : list ApplicationHistoryDAOInfo)
    (containers : list ContainerHistoryDAOInfo) :
    M (list ApplicationHistoryDAOInfo * list ContainerHistoryDAOInfo) :=
  _ ← UpdateHistory int8in apps containers;
  a ← GetApplicationsHistory; c ← GetContainersHistory; mret (a, c).

Definition app_entries (t : list HistoryRow) : list ApplicationHistoryDAOInfo :=
  (λ r, mkApplicationHistoryDAOInfo (h_timestamp r) (pretty (h_total_number r)))
    <$> filter (λ r, h_type r = application) t.

Definition container_entries (t : list HistoryRow) : list ContainerHistoryDAOInfo :=
  (λ r, mkContainerHistoryDAOInfo (h_timestamp r) (pretty (h_total_number r)))
    <$> filter (λ r, h_type r = container) t.

Lemma app_entries_rows apps rows :
  Forall2 (λ x, entry_row application (TotalApplications x) (ATimestamp x)) apps rows →
  app_entries rows = apps ∧ container_entries rows = [].
Proof.
  unfold app_entries, container_entries.
  induction 1 as [|[ts tot] r apps rows (Hty & Htot & Hts) _ [IH1 IH2]]; [done|].
  rewrite (filter_cons_True _ r), (filter_cons_False _ r) by congruence. rewrite fmap_cons, IH1, IH2.
  cbn in Htot, Hts. by rewrite Hts, Htot.
Qed.

Lemma container_entries_rows cs rows :
  Forall2 (λ x, entry_row container (CTotalContainers x) (CTimestamp x)) cs rows →
  container_entries rows = cs ∧ app_entries rows = [].
Proof.
  unfold app_entries, container_entries.
  induction 1 as [|[ts tot] r cs rows (Hty & Htot & Hts) _ [IH1 IH2]]; [done|].
  rewrite (filter_cons_True _ r), (filter_cons_False _ r) by congruence. rewrite fmap_cons, IH1, IH2.
  cbn in Htot, Hts. by rewrite Hts, Htot.
Qed.

(** The entries are added to the ones that are there. *)
Lemma wp_store_and_read_history apps containers w :
  history_issued w → Forall (λ a, numeral (TotalApplications a)) apps →
  Forall (λ c, numeral (CTotalContainers c)) containers →
  wp (store_and_read_history apps containers)
    (λ r _, ∃ a c, r = Ok (a, c) ∧
       a ≡ₚ app_entries (t_history (w_db w)) ++ apps ∧
       c ≡ₚ container_entries (t_history (w_db w)) ++ containers) w.
Proof.
  intros Hi Ha Hc. unfold store_and_read_history, UpdateHistory. wp_step. wp_step.
  eapply wp_mono; [by apply wp_insert_history|]. intros r w1 (-> & Hi1 & rows1 & Ht1 & Hr1).
  eapply wp_mono; [by apply wp_insert_history|]. intros r w2 (-> & Hi2 & rows2 & Ht2 & Hr2).
  destruct (app_entries_rows _ _ Hr1) as [Ha1 Hc1]. destruct (container_entries_rows _ _ Hr2) as [Hc2 Ha2].
  unfold GetApplicationsHistory, GetContainersHistory. wp_steps.
  apply query_delivered; [done|]. intros la Hla. wp_steps.
  apply query_delivered; [done|]. intros lc Hlc. wp_steps. eexists _, _. split; [done|].
  cbn [w_db tick] in *. rewrite Hla, Hlc, Ht2, Ht1. rewrite !filter_app, !fmap_app.
  unfold app_entries, container_entries in *. rewrite Ha1, Hc1, Ha2, Hc2.
  by rewrite !app_nil_r.
Qed.

End status.

(** ** Theorems *)

(** After [UpsertPartitions], [GetAllPartitions] returns every partition just
    stored, with the cluster of the first time it was seen, next to the
    partitions that were there before, and each name once. *)
Theorem partitions_roundtrip `{EnvLaws} ps w :
  (∀ n, env_db n = Delivered) → partitions_wf w → Forall partition_valid ps → NoDup (PName <$> ps) →
  ∃ l, (store_and_read_partitions ps w).1 = Ok l ∧ NoDup (PName <$> l) ∧ ∀ p,
    p ∈ l ↔ (∃ p0, p0 ∈ ps ∧ p = read_back (tmap p_name (t_partitions (w_db w))) p0) ∨
            (PName p ∉ PName <$> ps ∧ p ∈ scan_partition <$> t_partitions (w_db w)).
Proof. intros Hd Hwf Hv Hnd. exact (wp_store_and_read_partitions Hd ps w Hwf Hv Hnd). Qed.

Definition sample_partition_info (name : string) : PartitionInfo :=
  mkPartitionInfo "cluster" name (mkPartitionCapacity None None None) 2 None 3 "Active" 17.

Lemma empty_partitions_wf : @partitions_wf ideal_env empty_world.
Proof. apply issued_wf_nil. Qed.

Lemma partitions_roundtrip_witness :
  ∃ l, (@store_and_read_partitions ideal_env [sample_partition_info "default"; sample_partition_info "gpu"]
          empty_world).1 = Ok l ∧ NoDup (PName <$> l) ∧ ∀ p,
    p ∈ l ↔ (∃ p0, p0 ∈ [sample_partition_info "default"; sample_partition_info "gpu"] ∧ p = read_back ∅ p0) ∨
            (PName p ∉ PName <$> [sample_partition_info "default"; sample_partition_info "gpu"] ∧
             p ∈ @nil PartitionInfo).
Proof.
  apply (@partitions_roundtrip ideal_env ideal_laws [sample_partition_info "default"; sample_partition_info "gpu"] empty_world).
  - reflexivity.
  - apply empty_partitions_wf.
  - apply Forall_cons_2; [|apply Forall_singleton]; split; exact I.
  - apply NoDup_cons_2; [|apply NoDup_singleton]. intros Hin%list_elem_of_singleton. discriminate.
Defined.

(** Nodes stored into an empty table are read back as they were sent. *)
Theorem nodes_roundtrip `{EnvLaws} ns partition w :
  (∀ n, env_db n = Delivered) → t_nodes (w_db w) = [] → NoDup (NodeID <$> ns) →
  ∃ l, (store_and_read_nodes ns partition w).1 = Ok l ∧ l ≡ₚ ns.
Proof.
  intros Hd Hempty Hnd. apply (wp_store_and_read_nodes Hd ns partition w); [done| |done].
  unfold nodes_wf, upsert_wf. cbn. rewrite Hempty. apply issued_wf_nil.
Qed.

Definition sample_node (id : string) : NodeDAOInfo :=
  mkNodeDAOInfo id "host" "/rack" None None None None None None None true false (Some []).

Lemma nodes_roundtrip_witness :
  ∃ l, (@store_and_read_nodes ideal_env [sample_node "n1"; sample_node "n2"] "default" empty_world).1 = Ok l ∧
    l ≡ₚ [sample_node "n1"; sample_node "n2"].
Proof.
  apply (@nodes_roundtrip ideal_env ideal_laws); [reflexivity|reflexivity|].
  apply NoDup_cons_2; [|apply NoDup_singleton]. intros Hin%list_elem_of_singleton. discriminate.
Defined.

(** A node is stored once: when it is sent again, whichever the partition, the
    row keeps its identity, partition, host, rack and attributes and gets the
    rest; rows of other nodes do not change. *)
Theorem UpsertNodes_stored `{EnvLaws} ns partition w :
  (∀ n, env_db n = Delivered) → nodes_wf w → NoDup (NodeID <$> ns) →
  ∃ w', UpsertNodes ns partition w = (Ok (), w') ∧ nodes_wf w' ∧
    Forall (λ n, has_row node_merge (node_row partition) NodeID (tmap n_node_id (t_nodes (w_db w))) n
                   (tmap n_node_id (t_nodes (w_db w')))) ns ∧
    (∀ k, k ∉ NodeID <$> ns → tmap n_node_id (t_nodes (w_db w')) !! k = tmap n_node_id (t_nodes (w_db w)) !! k).
Proof.
  intros Hd Hwf Hnd. destruct (wp_UpsertNodes Hd ns partition w Hwf) as (Hok & Hwf' & Hm).
  exists (UpsertNodes ns partition w).2. split_and!; [|done| |].
  - rewrite <- Hok. by destruct (UpsertNodes ns partition w).
  - by apply (merged_rows n_node_id node_merge (node_row partition) NodeID (λ _ _, eq_refl) _ _ _ Hm).
  - intros k. by apply (merged_other n_node_id node_merge (node_row partition) NodeID (λ _ _, eq_refl)).
Qed.

Lemma empty_nodes_wf : @nodes_wf ideal_env empty_world.
Proof. apply issued_wf_nil. Qed.

Lemma UpsertNodes_stored_witness :
  ∃ w', @UpsertNodes ideal_env [sample_node "n1"] "default" empty_world = (Ok (), w') ∧ @nodes_wf ideal_env w' ∧
    Forall (λ n, has_row node_merge (node_row "default") NodeID ∅ n (tmap n_node_id (t_nodes (w_db w'))))
      [sample_node "n1"] ∧
    (∀ k, k ∉ NodeID <$> [sample_node "n1"] → tmap n_node_id (t_nodes (w_db w')) !! k = (∅ : gmap string NodeRow) !! k).
Proof.
  apply (@UpsertNodes_stored ideal_env ideal_laws [sample_node "n1"] "default" empty_world);
    [reflexivity|apply empty_nodes_wf|apply NoDup_singleton].
Defined.

(** C35.  With two partitions or more, no attempt of the job that stores the node
    utilizations succeeds: all its rows carry the same primary key, so the
    second one is refused; the first one stays, once per attempt. *)
Theorem node_utilizations_fail `{EnvLaws} nu1 nu2 nus n w :
  (∀ n, env_db n = Delivered) → utils_issued w →
  let w' := (attempts n (node_utilizations_job (nu1 :: nu2 :: nus)) w).2 in
  length (t_nodes_util (w_db w')) = (n + length (t_nodes_util (w_db w)))%nat ∧
  (node_utilizations_job (nu1 :: nu2 :: nus) w').1 =
    Err (ErrPrefix "could not insert node utilizations into DB: " unique_violation).
Proof.
  intros Hd Hi w'. destruct (node_utilizations_attempts Hd nu1 nu2 nus n w Hi) as [Hi' Hlen].
  split; [done|]. apply (wp_node_utilizations_two Hd nu1 nu2 nus w' Hi').
Qed.

Lemma node_utilizations_fail_witness :
  let job := @node_utilizations_job ideal_env
    [mkPartitionNodesUtilDAOInfo "c" "default" None; mkPartitionNodesUtilDAOInfo "c" "gpu" None] in
  let w' := (attempts 3 job empty_world).2 in
  length (t_nodes_util (w_db w')) = 3%nat ∧
  (job w').1 = Err (ErrPrefix "could not insert node utilizations into DB: " unique_violation).
Proof.
  apply (@node_utilizations_fail ideal_env ideal_laws (mkPartitionNodesUtilDAOInfo "c" "default" None)
    (mkPartitionNodesUtilDAOInfo "c" "gpu" None) [] 3 empty_world); [reflexivity|].
  intros r Hr. by apply not_elem_of_nil in Hr.
Defined.

(** [UpdateHistory] adds every entry to those that are stored, and both are
    read back: history that the scheduler sends again is stored again. *)
Theorem history_appended `{EnvLaws} int8in apps containers w :
  (∀ n, env_db n = Delivered) → (∀ z, in_range 64 z → int8in (pretty z) = Some z) →
  history_issued w → Forall (λ a, numeral (TotalApplications a)) apps →
  Forall (λ c, numeral (CTotalContainers c)) containers →
  ∃ a c, (store_and_read_history int8in apps containers w).1 = Ok (a, c) ∧
    a ≡ₚ app_entries (t_history (w_db w)) ++ apps ∧
    c ≡ₚ container_entries (t_history (w_db w)) ++ containers.
Proof. intros Hd Hin Hi Ha Hc. exact (wp_store_and_read_history Hd int8in Hin apps containers w Hi Ha Hc). Qed.

(** The server's reading of a BIGINT, on the strings that Go prints. *)
Definition sample_int8in (s : string) : option Z :=
  match strconv_ParseInt s 64 with Ok z => Some z | Err _ => None end.

Lemma history_appended_witness :
  let entry := mkApplicationHistoryDAOInfo 17 "3" in
  ∃ a c, (@store_and_read_history ideal_env sample_int8in [entry; entry] [] empty_world).1 = Ok (a, c) ∧
    a ≡ₚ [entry; entry] ∧ c ≡ₚ [].
Proof.
  apply (@history_appended ideal_env ideal_laws sample_int8in
    [mkApplicationHistoryDAOInfo 17 "3"; mkApplicationHistoryDAOInfo 17 "3"] [] empty_world).
  - reflexivity.
  - intros z Hz. unfold sample_int8in, strconv_ParseInt. rewrite parse_int_pretty; [reflexivity|lia|by apply in_range_bounds].
  - intros r Hr. by apply not_elem_of_nil in Hr.
  - apply Forall_cons_2; [|apply Forall_singleton]; exists 3; (split; [reflexivity|exact I]).
  - apply Forall_nil_2.
Defined.
