(* ===== verification/RepoInv.v ===== *)
(** * The invariant of the whole database

    [repo_wf] joins the invariants of all tables: unique keys, identifiers that
    were drawn from the supply, acyclic parent links, and applications that
    point to the row of their queue although the schema declares no foreign
    key.  Every method of the repository that writes preserves it. *)
From S2P Require Import Prelude GoStrings SqlBuilder Dao Db Upsert QueueRepo QueueInv AppRepo StatusRepo.
From S2P Require Import StatusTheorems FlattenQueues QueueTheorems.

(** ** What each method touches *)
Definition queues_only (d d' : db) : Prop :=
  d' = set_queues (t_queues d') d ∧
  ∀ r, r ∈ t_queues d → ∃ r', r' ∈ t_queues d' ∧ q_id r' = q_id r ∧ queue_key r' = queue_key r.
Definition applications_only (d d' : db) : Prop := d' = set_applications (t_applications d') d.
Definition nodes_only (d d' : db) : Prop := d' = set_nodes (t_nodes d') d.
Definition partitions_only (d d' : db) : Prop := d' = set_partitions (t_partitions d') d.
Definition utils_only (d d' : db) : Prop :=
  d' = set_nodes_util (t_nodes_util d') d ∧
  (NoDup (u_id <$> t_nodes_util d) → NoDup (u_id <$> t_nodes_util d')).
Definition history_only (d d' : db) : Prop :=
  d' = set_history (t_history d') d ∧
  (NoDup (h_id <$> t_history d) → NoDup (h_id <$> t_history d')).

Ltac solve_only :=
  split; [by intros []|]; intros [] [] []; cbv [applications_only nodes_only partitions_only utils_only
    history_only set_applications set_nodes set_partitions set_nodes_util set_history];
  intros; destruct_and?; simplify_eq/=; by eauto.

#[export] Instance applications_only_preorder : PreOrder applications_only.
Proof. solve_only. Qed.
#[export] Instance nodes_only_preorder : PreOrder nodes_only.
Proof. solve_only. Qed.
#[export] Instance partitions_only_preorder : PreOrder partitions_only.
Proof. solve_only. Qed.
#[export] Instance utils_only_preorder : PreOrder utils_only.
Proof. solve_only. Qed.
#[export] Instance history_only_preorder : PreOrder history_only.
Proof. solve_only. Qed.
#[export] Instance queues_only_preorder : PreOrder queues_only.
Proof.
  split.
  - intros []. split; [done|]. eauto.
  - intros [] [] [] [H1 Hr1] [H2 Hr2]. unfold set_queues in *. simplify_eq/=. split; [done|].
    intros r Hr. destruct (Hr1 r Hr) as (r1 & Hin1 & Hid1 & Hk1). destruct (Hr2 r1 Hin1) as (r2 & Hin2 & Hid2 & Hk2).
    exists r2. split; [done|]. split; congruence.
Qed.

Lemma insert_row_NoDup {R} (pk : R → string) new t t' :
  insert_row pk new t = Ok t' → NoDup (pk <$> t) → NoDup (pk <$> t').
Proof.
  unfold insert_row. case_decide; [done|]. intros [= <-] Hnd. rewrite fmap_app. apply NoDup_app.
  split_and!; [done|set_solver|apply NoDup_singleton].
Qed.

Lemma queues_only_app d t : queues_only d (set_queues (t_queues d ++ t) d).
Proof. split; [done|]. intros r Hr. exists r. cbn. set_solver. Qed.

Lemma queues_only_update d new t :
  update_key queue_key queue_merge new (t_queues d) = Some t → queues_only d (set_queues t d).
Proof.
  intros (t1 & old & t2 & Ht & -> & _ & _)%update_key_Some. split; [done|]. cbn. rewrite Ht.
  intros r [Hr|[-> |Hr]%elem_of_cons]%elem_of_app; [exists r|exists (queue_merge old new)|exists r]; set_solver.
Qed.

Section keeps.
Context `{Env}.

Lemma getQueueID_keeps (R : relation db) `{!PreOrder R} n p : keeps R (getQueueID n p).
Proof. unfold getQueueID. keeps_steps. Qed.

Lemma UpsertQueues_keeps qs : keeps queues_only (UpsertQueues qs).
Proof.
  unfold UpsertQueues, upsert_queue. keeps_steps; [by apply getQueueID_keeps; apply _|].
  intros d ? d'. unfold upsert_queue_stmt, upsert_row. destruct (queue_check _); [done|].
  destruct (update_key _ _ _ _) as [t|] eqn:Hup; [intros [= _ <-]; by eapply queues_only_update|].
  unfold insert_row. case_decide; [done|]. intros [= _ <-]. apply queues_only_app.
Qed.

Lemma insert_queue_stmt_only new d id d' : insert_queue_stmt new d = Ok (id, d') → queues_only d d'.
Proof.
  unfold insert_queue_stmt, insert_unique, insert_row. destruct (queue_check _); [done|].
  repeat case_decide; try done. intros [= _ <-]. apply queues_only_app.
Qed.

Lemma add_queue_keeps partition pid q : keeps queues_only (add_queue partition pid q).
Proof.
  revert pid. induction q as [q IH] using PartitionQueueDAOInfo_tree_ind. intros pid.
  destruct q as [? ? ? ? ? ? ? ? ? ? ? ? ? ? cs ? ? ? ? ?]; cbn [Children] in IH. cbn [add_queue Children].
  apply keeps_bind; [|intros pid'].
  { destruct pid; keeps_steps. apply getQueueID_keeps, _. }
  keeps_steps; [intros d ? d'; apply insert_queue_stmt_only|].
  match goal with |- context [Some ?i] => generalize (Some i) end.
  induction IH as [|c cs Hc Hcs IHcs]; intros pid2; keeps_steps; [apply Hc|apply IHcs].
Qed.

Lemma AddQueues_keeps pid qs : keeps queues_only (AddQueues pid qs).
Proof.
  revert pid. induction qs as [|q qs IH]; intros pid; cbn [AddQueues]; keeps_steps; [apply add_queue_keeps|apply IH].
Qed.

Lemma mark_deleted_only now id d : queues_only d (set_queues (mark_deleted now id <$> t_queues d) d).
Proof.
  split; [done|]. intros r Hr. exists (mark_deleted now id r). split; [by apply list_elem_of_fmap_2|].
  auto with queues.
Qed.

Lemma delete_queue_keeps q : keeps queues_only (delete_queue q).
Proof.
  induction q as [q IH] using ModelQueue_tree_ind. destruct q as [id pid mq cs ca da]. cbn [MChildren] in IH.
  cbn [delete_queue MChildren Id]. keeps_steps; [|intros d ? d' [= _ <-]; apply mark_deleted_only].
  induction IH as [|c cs Hc Hcs IHcs]; keeps_steps; [apply Hc|apply IHcs].
Qed.

Lemma DeleteQueues_keeps F : keeps queues_only (DeleteQueues F).
Proof. unfold DeleteQueues. keeps_steps. apply delete_queue_keeps. Qed.

Lemma UpsertApplications_keeps apps : keeps applications_only (UpsertApplications apps).
Proof.
  unfold UpsertApplications, upsert_app. keeps_steps; [by apply getQueueID_keeps; apply _|].
  intros d ? d'. unfold upsert_app_stmt. repeat case_match; try done. by intros [= _ <-].
Qed.

Lemma UpsertPartitions_keeps ps : keeps partitions_only (UpsertPartitions ps).
Proof.
  unfold UpsertPartitions, upsert_each, upsert_one. keeps_steps. intros d ? d'. unfold upsert_stmt.
  repeat case_match; try done. by intros [= _ <-].
Qed.

Lemma UpsertNodes_keeps ns partition : keeps nodes_only (UpsertNodes ns partition).
Proof.
  unfold UpsertNodes, upsert_each, upsert_one. keeps_steps. intros d ? d'. unfold upsert_stmt.
  repeat case_match; try done. by intros [= _ <-].
Qed.

Lemma InsertNodeUtilizations_keeps u nus : keeps utils_only (InsertNodeUtilizations u nus).
Proof.
  unfold InsertNodeUtilizations. keeps_steps. intros d ? d'. unfold insert_util_stmt.
  case_match eqn:Hins; [|done]. intros [= _ <-]. split; [done|]. by apply (insert_row_NoDup _ _ _ _ Hins).
Qed.

Lemma UpdateHistory_keeps int8in apps containers : keeps history_only (UpdateHistory int8in apps containers).
Proof.
  unfold UpdateHistory. keeps_steps; intros d ? d'; unfold insert_history_stmt; (case_match; [|done]);
    (case_match eqn:Hins; [|done]); intros [= _ <-]; (split; [done|]); by apply (insert_row_NoDup _ _ _ _ Hins).
Qed.

End keeps.

(** ** The invariant *)
Section wf.
Context `{EnvLaws}.

(** The application's queue is the row its [queue_id] names. *)
Definition has_queue (qs : list QueueRow) (a : AppRow) : Prop :=
  ∃ q, q ∈ qs ∧ q_id q = a_queue_id a ∧ queue_key q = (a_partition a, a_queue_name a).

Record apps_wf (n : nat) (qs : list QueueRow) (apps : list AppRow) : Prop := {
  apps_issued : issued_wf app_key a_id n apps;
  apps_queues : ∀ a, a ∈ apps → has_queue qs a;
}.

Record repo_wf_at {l : links} (w : world) : Prop := {
  rwf_queues : rows_wf_at (l := l) (w_uuids w) (t_queues (w_db w));
  rwf_apps : apps_wf (w_uuids w) (t_queues (w_db w)) (t_applications (w_db w));
  rwf_nodes : nodes_wf w;
  rwf_partitions : partitions_wf w;
  rwf_utils : NoDup (u_id <$> t_nodes_util (w_db w));
  rwf_history : NoDup (h_id <$> t_history (w_db w));
}.

Definition repo_wf (w : world) : Prop := repo_wf_at (l := PartitionParents) w.

Lemma repo_wf_at_empty l w : w_db w = empty_db → repo_wf_at (l := l) w.
Proof.
  intros Hw. split; unfold nodes_wf, partitions_wf, upsert_wf; rewrite Hw; cbn;
    [apply rows_wf_nil|split; [apply issued_wf_nil|set_solver]|apply issued_wf_nil|apply issued_wf_nil|constructor|constructor].
Qed.

Lemma repo_wf_empty w : w_db w = empty_db → repo_wf w.
Proof. apply repo_wf_at_empty. Qed.

Lemma apps_wf_mono n m qs qs' apps :
  (n ≤ m)%nat → (∀ r, r ∈ qs → ∃ r', r' ∈ qs' ∧ q_id r' = q_id r ∧ queue_key r' = queue_key r) →
  apps_wf n qs apps → apps_wf m qs' apps.
Proof.
  intros Hle Hqs [Hi Hq]. split; [by eapply issued_mono|].
  intros a Ha. destruct (Hq a Ha) as (q & Hin & Hid & Hk). destruct (Hqs q Hin) as (q' & Hin' & Hid' & Hk').
  exists q'. split; [done|]. split; congruence.
Qed.

Lemma app_merge_key old new : app_key (app_merge old new) = app_key old.
Proof. done. Qed.
Lemma app_merge_pk old new : a_id (app_merge old new) = a_id old.
Proof. done. Qed.

(** An application is stored under the queue that was found for it. *)
Lemma apps_wf_upsert_at n k qs apps a q apps' :
  apps_wf n qs apps → (k < n)%nat → q ∈ qs → queue_key q = (AppPartition a, AppQueueName a) →
  upsert_row app_key a_id app_merge (app_row (env_uuid k) (q_id q) a) apps = Ok apps' →
  apps_wf n qs apps'.
Proof.
  intros [Hi Hq] Hlt Hin Hk Hup.
  split; [by eapply (issued_upsert_at app_key a_id app_merge app_merge_key app_merge_pk); [exact Hi|exact Hlt| |exact Hup]|].
  unfold upsert_row in Hup. destruct (update_key _ _ _ _) as [t'|] eqn:Hu.
  - injection Hup as <-. destruct (update_key_Some _ _ _ _ _ Hu) as (t1 & old & t2 & -> & -> & _ & _).
    intros r [Hr|[-> |Hr]%elem_of_cons]%elem_of_app; [apply Hq; set_solver| |apply Hq; set_solver].
    apply (Hq old). set_solver.
  - unfold insert_row in Hup. case_decide; [done|]. injection Hup as <-.
    intros r [Hr| ->%list_elem_of_singleton]%elem_of_app; [by apply Hq|]. by exists q.
Qed.

Lemma apps_wf_upsert n qs apps a q apps' :
  apps_wf n qs apps → q ∈ qs → queue_key q = (AppPartition a, AppQueueName a) →
  upsert_row app_key a_id app_merge (app_row (env_uuid n) (q_id q) a) apps = Ok apps' →
  apps_wf (S n) qs apps'.
Proof.
  intros Hwf. apply (apps_wf_upsert_at _ n); [|lia]. eapply apps_wf_mono; [|by eauto|exact Hwf]. lia.
Qed.

Lemma UpsertApplications_wf apps w :
  apps_wf (w_uuids w) (t_queues (w_db w)) (t_applications (w_db w)) →
  wp (UpsertApplications apps)
    (λ _ w', apps_wf (w_uuids w') (t_queues (w_db w')) (t_applications (w_db w'))) w.
Proof.
  intros Hwf. apply (wp_range_invariant (λ w, apps_wf (w_uuids w) (t_queues (w_db w)) (t_applications (w_db w))));
    [|done]. clear w Hwf. intros a w _ Hwf. unfold upsert_app. wp_step. wp_step. apply wp_getQueueID.
  - by intros e w' [-> | ->].
  - intros _. wp_steps. apply wp_db_call.
    + intros e. cbn. eapply apps_wf_mono; [|by eauto|exact Hwf]. lia.
    + intros u d r. cbn. done.
  - intros q _ Hq (Hn & Hp & _). wp_steps. apply wp_db_call; cbn.
    + intros e. eapply apps_wf_mono; [|by eauto|exact Hwf]. lia.
    + intros u d r Hs _. unfold upsert_app_stmt in Hs.
      destruct (upsert_row _ _ _ _ _) as [t'|] eqn:Hup; [|done]. injection Hs as <- <-. cbn.
      eapply apps_wf_upsert; [exact Hwf|exact Hq| |exact Hup]. unfold queue_key. by rewrite Hn, Hp.
Qed.

(** ** Steps of the repository

    A method that writes, run to its end or to its first error, or anything that
    leaves the tables alone. *)
Inductive repo_step (w : world) : world → Prop :=
| step_UpsertQueues qs : repo_step w (UpsertQueues qs w).2
| step_AddQueues partition qs :
    Forall (λ q, Partition q = partition) qs → repo_step w (AddQueues None qs w).2
| step_DeleteQueues F : repo_step w (DeleteQueues F w).2
| step_UpsertApplications apps : repo_step w (UpsertApplications apps w).2
| step_UpsertNodes ns partition : repo_step w (UpsertNodes ns partition w).2
| step_UpsertPartitions ps : repo_step w (UpsertPartitions ps w).2
| step_InsertNodeUtilizations u nus : repo_step w (InsertNodeUtilizations u nus w).2
| step_UpdateHistory int8in apps containers : repo_step w (UpdateHistory int8in apps containers w).2
| step_other w' : w_db w' = w_db w → (w_uuids w ≤ w_uuids w')%nat → repo_step w w'.

Lemma upsert_wf_mono {R K} `{Countable K} (T : table R) (key : R → K) (pk : R → string) w w' :
  tget T (w_db w') = tget T (w_db w) → (w_uuids w ≤ w_uuids w')%nat →
  upsert_wf T key pk w → upsert_wf T key pk w'.
Proof. unfold upsert_wf. intros ->. apply issued_mono. Qed.

(** A step that touches one table keeps the invariants of the others. *)
Section links.
Context {l : links}.
Notation repo_wf := (repo_wf_at (l := l)).

Lemma repo_wf_queues w w' : repo_wf w → rows_wf_at (l := l) (w_uuids w') (t_queues (w_db w')) → queues_only (w_db w) (w_db w') → (w_uuids w ≤ w_uuids w')%nat → repo_wf w'.
Proof.
  intros [Hq Ha Hn Hp Hu Hh] Hq' [Heq Hkept] Hle. split; [done|..]; [|..|by rewrite Heq|by rewrite Heq].
  - assert (t_applications (w_db w') = t_applications (w_db w)) as -> by (by rewrite Heq).
    eapply apps_wf_mono; [exact Hle|exact Hkept|exact Ha].
  - eapply upsert_wf_mono; [|exact Hle|exact Hn]. by rewrite Heq.
  - eapply upsert_wf_mono; [|exact Hle|exact Hp]. by rewrite Heq.
Qed.

Lemma repo_wf_apps w w' :
  repo_wf w → apps_wf (w_uuids w') (t_queues (w_db w')) (t_applications (w_db w')) →
  applications_only (w_db w) (w_db w') → (w_uuids w ≤ w_uuids w')%nat → repo_wf w'.
Proof.
  intros [Hq Ha Hn Hp Hu Hh] Ha' Heq Hle. split; [|done|..]; [|..|by rewrite Heq|by rewrite Heq].
  - assert (t_queues (w_db w') = t_queues (w_db w)) as -> by (by rewrite Heq).
    by eapply rows_wf_mono.
  - eapply upsert_wf_mono; [|exact Hle|exact Hn]. by rewrite Heq.
  - eapply upsert_wf_mono; [|exact Hle|exact Hp]. by rewrite Heq.
Qed.

(** ... and so for the four tables that no other table refers to. *)
Lemma repo_wf_status w w' :
  repo_wf w → t_queues (w_db w') = t_queues (w_db w) → t_applications (w_db w') = t_applications (w_db w) →
  (w_uuids w ≤ w_uuids w')%nat → nodes_wf w' → partitions_wf w' →
  NoDup (u_id <$> t_nodes_util (w_db w')) → NoDup (h_id <$> t_history (w_db w')) → repo_wf w'.
Proof.
  intros [Hq Ha _ _ _ _] Hqs Has Hle Hn Hp Hu Hh. split; try done.
  - rewrite Hqs. by eapply rows_wf_mono.
  - rewrite Hqs, Has. eapply apps_wf_mono; [exact Hle|by eauto|exact Ha].
Qed.

End links.

Lemma repo_wf_step w w' : repo_wf w → repo_step w w' → repo_wf w'.
Proof.
  intros Hwf Hstep. pose proof Hwf as [Hq Ha Hn Hp Hu Hh].
  destruct Hstep as [qs|partition qs Hqs|F|apps|ns partition|ps|u nus|int8in apps cs|w' Hdb Hle].
  - destruct (keeps_run _ (UpsertQueues_keeps qs) w) as [??]. apply (repo_wf_queues w); try done. by apply (UpsertQueues_wf qs).
  - destruct (keeps_run _ (AddQueues_keeps None qs) w) as [??]. apply (repo_wf_queues w); try done.
    by destruct (AddQueues_wf partition None qs w Hq) as [? _].
  - destruct (keeps_run _ (DeleteQueues_keeps F) w) as [??]. apply (repo_wf_queues w); try done. by apply (DeleteQueues_wf F).
  - destruct (keeps_run _ (UpsertApplications_keeps apps) w) as [??]. apply (repo_wf_apps w); try done.
    by apply (UpsertApplications_wf apps).
  - destruct (keeps_run _ (UpsertNodes_keeps ns partition) w) as [Heq Hle]. apply (repo_wf_status w); try done; try by rewrite Heq.
    + by apply (UpsertNodes_wf ns partition).
    + eapply upsert_wf_mono; [|exact Hle|exact Hp]. by rewrite Heq.
  - destruct (keeps_run _ (UpsertPartitions_keeps ps) w) as [Heq Hle]. apply (repo_wf_status w); try done; try by rewrite Heq.
    + eapply upsert_wf_mono; [|exact Hle|exact Hn]. by rewrite Heq.
    + by apply (UpsertPartitions_wf ps).
  - destruct (keeps_run _ (InsertNodeUtilizations_keeps u nus) w) as [[Heq Hnd] Hle].
    apply (repo_wf_status w); try done; try (by apply Hnd); try by rewrite Heq.
    + eapply upsert_wf_mono; [|exact Hle|exact Hn]. by rewrite Heq.
    + eapply upsert_wf_mono; [|exact Hle|exact Hp]. by rewrite Heq.
  - destruct (keeps_run _ (UpdateHistory_keeps int8in apps cs) w) as [[Heq Hnd] Hle].
    apply (repo_wf_status w); try done; try (by apply Hnd); try by rewrite Heq.
    + eapply upsert_wf_mono; [|exact Hle|exact Hn]. by rewrite Heq.
    + eapply upsert_wf_mono; [|exact Hle|exact Hp]. by rewrite Heq.
  - apply (repo_wf_status w); try done; try by rewrite Hdb.
    + eapply upsert_wf_mono; [|exact Hle|exact Hn]. by rewrite Hdb.
    + eapply upsert_wf_mono; [|exact Hle|exact Hp]. by rewrite Hdb.
Qed.

End wf.

Definition sample_app : ApplicationDAOInfo :=
  mkApplicationDAOInfo "app-1" None None None "default" "root.system" 5 None None None "Running" "alice"
    (Some ["dev"]) "" None None false None 0.
