(* ===== verification/RepoConcur.v ===== *)
(** * The invariant of the database under interleaving

    Every method of the repository preserves the invariant of the database one
    statement at a time, whatever other calls do between its statements: the
    protocol is that rows of queues are never removed and keep identifier and
    key, so that the parent or the queue that was found for a new row is still
    there when the row is stored. *)
From S2P Require Import Prelude GoStrings SqlBuilder Dao Db Pool Upsert QueueRepo QueueInv AppRepo StatusRepo.
From S2P Require Import Repository StatusTheorems FlattenQueues QueueTheorems RepoInv.

Section concurrent.
Context `{EnvLaws}.

(** ** The protocol *)
Definition queues_grow (w w' : world) : Prop :=
  (w_uuids w ≤ w_uuids w')%nat ∧
  ∀ r, r ∈ t_queues (w_db w) → ∃ r', r' ∈ t_queues (w_db w') ∧ q_id r' = q_id r ∧ queue_key r' = queue_key r.

#[export] Instance queues_grow_preorder : PreOrder queues_grow.
Proof.
  split; [intros w; split; [lia|]; eauto|]. intros w1 w2 w3 [Hu12 H12] [Hu23 H23]. split; [lia|].
  intros r Hr. destruct (H12 r Hr) as (r2 & Hr2 & Hid2 & Hk2). destruct (H23 r2 Hr2) as (r3 & Hr3 & Hid3 & Hk3).
  exists r3. split; [done|]. split; congruence.
Qed.

Section links.
(** How much is known of the parent links; it depends on how [AddQueues] is
    called. *)
Context (lk : links).
Notation repo_wf := (repo_wf_at (l := lk)).

#[local] Instance repo_protocol : Protocol := {|
  inv g := repo_wf (ow g);
  rely _ g g' := queues_grow (ow g) (ow g');
  guar _ g g' := queues_grow (ow g) (ow g');
|}.

#[local] Instance repo_protocol_laws : ProtocolLaws repo_protocol.
Proof.
  split.
  - intros t. split; [intros g; cbn; reflexivity|]. intros g1 g2 g3. cbn. apply transitivity.
  - done.
  - intros t g g' Hi Hdb [Hu _] _. cbn in *. split.
    + apply (repo_wf_status (ow g)); try done; try (by rewrite Hdb).
      * eapply upsert_wf_mono; [|exact Hu|apply (rwf_nodes _ Hi)]. by rewrite Hdb.
      * eapply upsert_wf_mono; [|exact Hu|apply (rwf_partitions _ Hi)]. by rewrite Hdb.
      * rewrite Hdb. apply (rwf_utils _ Hi).
      * rewrite Hdb. apply (rwf_history _ Hi).
    + split; [done|]. rewrite Hdb. eauto.
Qed.

(** The tables change and the rest of the world is as before. *)
Lemma tick_queues_only d w :
  repo_wf w → rows_wf_at (l := lk) (w_uuids w) (t_queues d) → queues_only (w_db w) d →
  repo_wf (tick d w) ∧ queues_grow w (tick d w).
Proof.
  intros Hwf Hq Honly. split; [by apply (repo_wf_queues w)|]. split; [done|]. apply Honly.
Qed.

Lemma tick_status d w :
  repo_wf w → t_queues d = t_queues (w_db w) → repo_wf (tick d w) → repo_wf (tick d w) ∧ queues_grow w (tick d w).
Proof. intros _ Hq Hwf. split; [done|]. split; [done|]. cbn. rewrite Hq. eauto. Qed.

(** What a call knows between its actions: the number of an identifier that was
    drawn, and rows of queues. *)
Definition known_queue (w : world) (id : string) (k : string * string) : Prop :=
  ∃ r, r ∈ t_queues (w_db w) ∧ q_id r = id ∧ queue_key r = k.

Lemma known_queue_grow w w' id k : queues_grow w w' → known_queue w id k → known_queue w' id k.
Proof. intros [_ Hg] (r & Hr & <- & <-). destruct (Hg r Hr) as (r' & ? & ? & ?). by exists r'. Qed.

Lemma known_queue_index w id k : repo_wf w → known_queue w id k → ∃ n, (n < w_uuids w)%nat ∧ id = env_uuid n.
Proof.
  intros Hwf (r & Hr & <- & _). destruct (wf_issued _ _ (rwf_queues _ Hwf) r Hr) as (n & Hn & ->). by exists n.
Qed.

(** The parent of a row to be stored: a row, and one of the partition. *)
Definition parent_known (partition : string) (pid : option string) (w : world) : Prop :=
  ∀ p, pid = Some p → match lk with
                      | AnyLinks => True
                      | OlderParents => ∃ k, known_queue w p k
                      | PartitionParents => ∃ n, known_queue w p (partition, n)
                      end.

Lemma parent_known_grow partition pid w w' : queues_grow w w' → parent_known partition pid w → parent_known partition pid w'.
Proof.
  intros Hg Hp p Hpid. specialize (Hp p Hpid). destruct lk; [done|..];
    destruct Hp as [k Hk]; exists k; by eapply known_queue_grow.
Qed.

Lemma parent_known_found partition n id w : known_queue w id (partition, n) → parent_known partition (Some id) w.
Proof. intros Hk p [= <-]. destruct lk; eauto. Qed.

Lemma parent_known_partition partition partition' pid w :
  (lk = PartitionParents → partition' = partition) → parent_known partition pid w → parent_known partition' pid w.
Proof. intros Hpart Hp p Hpid. specialize (Hp p Hpid). destruct lk; [done..|]. by rewrite Hpart. Qed.

(** ... and the identifier for it: drawn after that of the parent. *)
Definition row_ready (partition : string) (pid : option string) (k : nat) (w : world) : Prop :=
  (k < w_uuids w)%nat ∧ parent_known partition pid w ∧ (lk ≠ AnyLinks → ∀ p, pid = Some p → older p (env_uuid k)).

Lemma row_ready_grow partition pid k w w' : queues_grow w w' → row_ready partition pid k w → row_ready partition pid k w'.
Proof.
  intros Hg (Hk & Hp & Ho). split; [destruct Hg; lia|]. split; [by eapply parent_known_grow|done].
Qed.

Lemma row_ready_drawn partition pid w w' :
  repo_wf w → parent_known partition pid w → queues_grow w w' → (w_uuids w < w_uuids w')%nat →
  row_ready partition pid (w_uuids w) w'.
Proof.
  intros Hwf Hp Hg Hlt. split; [done|]. split; [by eapply parent_known_grow|]. intros Hl p Hpid.
  assert (∃ k, known_queue w p k) as [key Hn] by (specialize (Hp p Hpid); destruct lk; naive_solver).
  destruct (known_queue_index _ _ _ Hwf Hn) as (j & Hj & ->). by exists j, (w_uuids w).
Qed.

Lemma row_ready_parent partition pid k w r :
  row_ready partition pid k w → q_id r = env_uuid k → q_parent_id r = pid → q_partition r = partition →
  parent_older lk (t_queues (w_db w)) r.
Proof.
  intros (_ & Hp & Ho) Hid Hpid Hpart p Hpp. rewrite Hpid in Hpp. specialize (Hp p Hpp). destruct lk; cbn; [done|..];
    destruct Hp as (n & r' & Hr' & Hid' & Hk'); exists r'; (split_and!; [done|done|..]); rewrite ?Hid; try by apply Ho.
  rewrite Hpart. by injection Hk'.
Qed.

(** ** Statements *)
Lemma upsert_queue_stmt_ok q pid k now w u d :
  repo_wf w → row_ready (Partition q) pid k w →
  upsert_queue_stmt (queue_row (env_uuid k) pid now q) (w_db w) = Ok (u, d) → repo_wf (tick d w) ∧ queues_grow w (tick d w).
Proof.
  intros Hwf Hk. unfold upsert_queue_stmt. destruct (queue_check _); [done|].
  destruct (upsert_row _ _ _ _ _) as [t'|] eqn:Hup; [|done]. intros [= <- <-].
  apply tick_queues_only; [done|..]; cbn [t_queues set_queues].
  - eapply (rows_wf_upsert_at _ k); [| | | |exact Hup]; [apply (rwf_queues _ Hwf)|apply Hk|done|]. by eapply row_ready_parent.
  - unfold upsert_row in Hup.
    destruct (update_key _ _ _ _) as [t''|] eqn:Hu; [injection Hup as <-; by eapply queues_only_update|].
    unfold insert_row in Hup. case_decide; [done|]. injection Hup as <-. apply queues_only_app.
Qed.

Lemma upsert_app_stmt_ok a id k w u d :
  repo_wf w → known_queue w id (AppPartition a, AppQueueName a) → (k < w_uuids w)%nat →
  upsert_app_stmt (env_uuid k) (Some id) a (w_db w) = Ok (u, d) → repo_wf (tick d w) ∧ queues_grow w (tick d w).
Proof.
  intros Hwf (q & Hq & Hid & Hkey) Hk. unfold upsert_app_stmt.
  destruct (upsert_row _ _ _ _ _) as [t'|] eqn:Hup; [|done]. intros [= <- <-]. apply tick_status; [done|done|].
  apply (repo_wf_apps w); [done| |done|done]. cbn. rewrite <- Hid in Hup.
  eapply (apps_wf_upsert_at _ k); [| | | |exact Hup]; [apply (rwf_apps _ Hwf)|done..].
Qed.

Section calls.
Context (t : nat).

(** Own actions that leave the tables alone, then those of others. *)
Lemma same_tables_grow g' g1 g2 : same_tables g' g1 → later t g1 g2 → queues_grow (ow g') (ow g2).
Proof.
  intros (Hdb & Hu & _) [Hr _]. transitivity (ow g1); [|exact Hr]. split; [lia|]. rewrite Hdb. eauto.
Qed.

Lemma rg_getQueueID n p (Q : result (option string) → owned → Prop) g :
  (∀ e g', Q (Err e) g') → (∀ g', inv g' → Q (Ok None) g') →
  (∀ id g', inv g' → known_queue (ow g') id (p, n) → Q (Ok (Some id)) g') → rg t (getQueueID n p) Q g.
Proof.
  intros Herr Hnone Hsome. unfold getQueueID. case_decide; [intros g' [_ Hi]; by apply Hnone|].
  apply rg_bind, rg_map_err, rg_bind, rg_select; [apply _|by auto|].
  intros [|r l] g' g1 g2 Hl Hrows Hst Hl2; [intros g3 Hl3 g4 Hl4 g5 Hl5; by apply Herr|].
  intros g3 Hl3 g4 Hl4 g5 [Hr5 Hi5]. apply Hsome; [done|].
  assert (r ∈ filter (alive_at n p) (t_queues (w_db (ow g')))) as Hr by (rewrite <- Hrows; set_solver).
  apply list_elem_of_filter in Hr as [(Hn & Hp & _) Hin].
  apply (known_queue_grow (ow g')).
  - etrans; [by eapply same_tables_grow|]. etrans; [apply Hl3|]. etrans; [apply Hl4|exact Hr5].
  - exists r. split_and!; [done..|]. unfold queue_key. by rewrite Hn, Hp.
Qed.

(** The next identifier, for a row whose parent is known. *)
Lemma rg_uuid_ready partition pid (Q : result string → owned → Prop) g :
  parent_known partition pid (ow g) →
  (∀ k g', inv g' → row_ready partition pid k (ow g') → Q (Ok (env_uuid k)) g') → rg t uuid_NewString Q g.
Proof.
  intros Hp HQ. apply rg_uuid. intros g' g1 g2 [Hr Hi] [Hr2 Hi2] Hi1 Hdb Hu _ _. apply HQ; [done|].
  apply row_ready_drawn; [done|apply (parent_known_grow _ _ _ _ Hr Hp)| |destruct Hr2; lia].
  transitivity (ow g1); [|exact Hr2]. split; [lia|]. rewrite Hdb. eauto.
Qed.

Lemma rg_now_ready partition pid k (Q : result Z → owned → Prop) g :
  row_ready partition pid k (ow g) →
  (∀ now g', inv g' → row_ready partition pid k (ow g') → Q (Ok now) g') → rg t time_Now_Unix Q g.
Proof.
  intros Hk HQ. apply rg_now. intros now g' g1 g2 [Hr Hi] Hst Hl2. apply HQ; [apply Hl2|].
  eapply row_ready_grow; [by eapply same_tables_grow|]. apply (row_ready_grow _ _ _ _ _ Hr Hk).
Qed.

(** A statement that keeps the invariant when it is executed. *)
Lemma rg_write {A} (s : stmt A) (Q : result A → owned → Prop) g :
  (∀ e g', Q (Err e) g') →
  (∀ g' a d, later t g g' → s (w_db (ow g')) = Ok (a, d) →
     (repo_wf (tick d (ow g')) ∧ queues_grow (ow g') (tick d (ow g'))) ∧
     ∀ g2, inv g2 → queues_grow (tick d (ow g')) (ow g2) → Q (Ok a) g2) →
  rg t (db_call s) Q g.
Proof.
  intros Herr Hs. apply rg_db_call; [done|]. intros g' Hl. destruct (s _) as [[a d]|e] eqn:Hsr; [|done].
  destruct (Hs g' a d Hl Hsr) as [[Hwf Hg] HQ]. intros g1 Hg1 _. cbn. rewrite Hg1. split_and!; [done..|].
  intros g2 [Hr2 Hi2]. apply HQ; [done|]. by rewrite <- Hg1.
Qed.

Lemma rg_upsert_queue q g : rg t (upsert_queue q) (λ _ _, True) g.
Proof.
  assert (∀ pid g, parent_known (Partition q) pid (ow g) →
    rg t (id ← uuid_NewString; now ← time_Now_Unix;
          map_err (ErrPrefix "could not insert/update queue into DB: ")
            (db_call (upsert_queue_stmt (queue_row id pid now q)))) (λ _ _, True) g) as Hrest.
  { intros pid g0 Hp. apply rg_bind, (rg_uuid_ready (Partition q) pid); [done|]. intros k g1 _ Hk.
    apply rg_bind, (rg_now_ready (Partition q) pid k); [done|]. clear g1 Hk. intros now g1 _ Hk.
    apply rg_map_err, rg_write; [done|]. intros g2 u d [Hr2 Hi2] Hs. split; [|done].
    apply (row_ready_grow _ _ _ _ _ Hr2) in Hk. by eapply upsert_queue_stmt_ok. }
  unfold upsert_queue. apply rg_bind, rg_map_err, rg_getQueueID; [done|..].
  - intros g' _ g2 Hl2. by apply Hrest.
  - intros id g' _ Hk g2 [Hr2 _]. apply Hrest. apply (parent_known_found _ (Parent q)), (known_queue_grow _ _ _ _ Hr2 Hk).
Qed.

(** What queues keep, a call keeps. *)
Lemma rg_frame {A} (K : world → Prop) (m : M A) (Q : result A → owned → Prop) g :
  (∀ w w', queues_grow w w' → K w → K w') → K (ow g) → rg t m Q g → rg t m (λ r g', Q r g' ∧ K (ow g')) g.
Proof.
  intros HK. revert g. induction m as [r|upd next IH]; intros g Hg Hm g' Hl.
  - split; [by apply Hm|]. apply (HK (ow g)); [apply Hl|done].
  - destruct (Hm g' Hl) as (Hi & Hgu & Hn). split_and!; [done..|]. apply IH; [|done].
    apply (HK (ow g')); [exact Hgu|]. apply (HK (ow g)); [apply Hl|done].
Qed.

Lemma rg_range_True {A} (l : list A) (body : A → M ()) g :
  (∀ x g, x ∈ l → rg t (body x) (λ _ _, True) g) → rg t (range l body) (λ _ _, True) g.
Proof.
  intros Hb. revert g. induction l as [|x l IH]; intros g; [done|]. cbn [range]. apply rg_bind.
  eapply rg_mono; [by apply Hb, list_elem_of_here|]. intros [u|e] g' _ _; [|done]. apply IH. intros y g2 Hy. by apply Hb, list_elem_of_further.
Qed.

Lemma rg_uuid_known (K : world → Prop) (Q : result string → owned → Prop) g :
  (∀ w w', queues_grow w w' → K w → K w') → K (ow g) →
  (∀ k g', inv g' → (k < w_uuids (ow g'))%nat → K (ow g') → Q (Ok (env_uuid k)) g') → rg t uuid_NewString Q g.
Proof.
  intros HK Hg HQ. apply rg_uuid. intros g' g1 g2 [Hr Hi] [Hr2 Hi2] Hi1 Hdb Hu _ _. apply HQ; [done|destruct Hr2; lia|].
  apply (HK (ow g')); [|by apply (HK (ow g))]. transitivity (ow g1); [|exact Hr2]. split; [lia|]. rewrite Hdb. eauto.
Qed.

(** *** Applications *)
Lemma rg_upsert_app a g : rg t (upsert_app a) (λ _ _, True) g.
Proof.
  unfold upsert_app. apply rg_bind, rg_map_err, rg_getQueueID; [done|..].
  - intros g' _ g2 _. apply rg_bind, (rg_uuid_known (λ _, True)); [done..|]. intros k g3 _ _ _. by apply rg_write.
  - intros id g' _ Hk g2 [Hr2 _]. apply (known_queue_grow _ _ _ _ Hr2) in Hk.
    apply rg_bind, (rg_uuid_known (λ w, known_queue w id (AppPartition a, AppQueueName a)));
      [intros w w'; apply known_queue_grow|done|].
    clear g' g2 Hr2 Hk. intros k g' _ Hk Hq. apply rg_write; [done|]. intros g2 u d [Hr2 Hi2] Hs. split; [|done].
    apply (known_queue_grow _ _ _ _ Hr2) in Hq. eapply upsert_app_stmt_ok; [done|done| |exact Hs]. destruct Hr2; lia.
Qed.

(** *** Queues *)
(** The variable [parentId] after an iteration for a queue of the partition; for
    a root queue it stays nil. *)
Definition pid_post (partition : string) (pid : option string) (q : PartitionQueueDAOInfo)
    (r : result (option string)) (g : owned) : Prop :=
  match r with
  | Ok pid' => parent_known partition pid' (ow g) ∧ (pid = None → Parent q = "" → pid' = None)
  | Err _ => True
  end.

Lemma rg_insert_queue partition pid now q g :
  parent_known partition pid (ow g) →
  rg t (id ← uuid_NewString; db_call (insert_queue_stmt (queue_row id pid now (set_Partition partition q))))
    (λ r g', match r with Ok id => parent_known partition (Some id) (ow g') | Err _ => True end) g.
Proof.
  intros Hp. apply rg_bind, (rg_uuid_ready partition pid); [done|]. clear g Hp. intros k g _ Hk.
  apply rg_write; [done|]. intros g2 id d [Hr2 Hi2] Hs. unfold insert_queue_stmt, insert_unique in Hs.
  destruct (queue_check _); [done|]. case_decide as Hkey; [done|].
  destruct (insert_row _ _ _) as [t'|] eqn:Hins; [|done]. injection Hs as <- <-.
  apply (row_ready_grow _ _ _ _ _ Hr2) in Hk.
  assert (t' = t_queues (w_db (ow g2)) ++ [queue_row (env_uuid k) pid now (set_Partition partition q)]) as Ht'.
  { unfold insert_row in Hins. case_decide; [done|]. by injection Hins as <-. }
  split.
  - apply tick_queues_only; [done| |rewrite Ht'; apply queues_only_app].
    eapply (rows_wf_insert _ k); [| | | | |exact Hins]; [apply (rwf_queues _ Hi2)|apply Hk|done|done|]. by eapply row_ready_parent.
  - intros g3 Hi3 Hg3. apply (parent_known_found _ (QueueName q)), (known_queue_grow _ _ _ _ Hg3). cbn. rewrite Ht'.
    eexists. split; [apply elem_of_app; right; apply list_elem_of_here|]. by destruct q.
Qed.

Lemma rg_add_parent partition pid q g :
  parent_known partition pid (ow g) →
  rg t (match pid with
        | None => map_err (ErrPrefix "could not get parent queue from DB: ") (getQueueID (Parent q) partition)
        | Some _ => mret pid
        end) (pid_post partition pid q) g.
Proof.
  intros Hp. destruct pid as [i|].
  - intros g' [Hr _]. split; [|done]. apply (parent_known_grow _ _ _ _ Hr Hp).
  - apply rg_map_err. destruct (decide (Parent q = "")) as [He|He].
    { unfold getQueueID. rewrite decide_True by done. intros g' _ g2 _. split; [by intros p|done]. }
    apply rg_getQueueID; [done|done|]. intros id g' _ Hk g2 [Hr2 _]. split; [|done].
    apply (parent_known_found _ (Parent q)), (known_queue_grow _ _ _ _ Hr2 Hk).
Qed.

Lemma rg_add_queue partition pid q g :
  parent_known partition pid (ow g) → rg t (add_queue partition pid q) (pid_post partition pid q) g.
Proof.
  revert pid g. induction q as [q IH] using PartitionQueueDAOInfo_tree_ind. intros pid g Hp.
  destruct q as [? ? ? ? ? ? ? ? ? ? ? ? ? ? cs ? ? ? ? ?]; cbn [Children] in IH. cbn [add_queue].
  apply rg_bind. eapply rg_mono; [by apply rg_add_parent|]. clear g Hp. intros [pid'|e] g _ Hp; [|done].
  destruct Hp as [Hp Hroot].
  case_decide; [done|]. apply rg_bind, rg_now. intros now g' g1 g2 [Hr _] Hst Hl2.
  assert (parent_known partition pid' (ow g2)) as Hp2.
  { eapply parent_known_grow; [by eapply same_tables_grow|]. apply (parent_known_grow _ _ _ _ Hr Hp). }
  clear g g' g1 Hr Hst Hl2 Hp. apply rg_bind, rg_map_err.
  eapply rg_mono; [apply (rg_frame (parent_known partition pid')); [apply parent_known_grow|done|by apply rg_insert_queue]|].
  clear g2 Hp2. intros [id|e] g _ [Hid Hp] g' [Hr' _]; [|done].
  apply (parent_known_grow _ _ _ _ Hr') in Hid. apply (parent_known_grow _ _ _ _ Hr') in Hp. clear Hr'.
  apply rg_bind, rg_map_err. cbn [Children].
  eapply rg_mono; [apply (rg_frame (parent_known partition pid') _ (λ _ _, True)); [apply parent_known_grow|done|]|].
  - clear Hp. revert g' Hid. generalize (Some id). induction IH as [|c cs Hc _ IHcs]; intros pid2 g' Hid; [done|].
    apply rg_bind. eapply rg_mono; [by apply Hc|]. intros [pid3|e] g2 _ Hp3; [by apply IHcs, Hp3|done].
  - intros r g2 _ [_ Hp2] g3 [Hr3 _]. destruct r; [|done]. intros g4 [Hr4 _]. split; [|done].
    apply (parent_known_grow _ _ _ _ Hr4), (parent_known_grow _ _ _ _ Hr3 Hp2).
Qed.

Lemma rg_AddQueues partition pid qs g :
  parent_known partition pid (ow g) → (lk = PartitionParents → Forall (λ q, Partition q = partition) qs) →
  rg t (AddQueues pid qs) (λ _ _, True) g.
Proof.
  revert partition pid g. induction qs as [|q qs IH]; intros partition pid g Hp Hqs; [done|]. cbn [AddQueues].
  assert (lk = PartitionParents → Partition q = partition) as Hq by (intros Hl; by destruct (Forall_cons_1 _ _ _ (Hqs Hl))).
  apply rg_bind. eapply rg_mono; [by apply rg_add_queue, (parent_known_partition partition)|].
  intros [pid'|e] g' _ Hp'; [|done]. apply (IH (Partition q)); [apply Hp'|]. intros Hl. rewrite (Hq Hl).
  by destruct (Forall_cons_1 _ _ _ (Hqs Hl)).
Qed.

Lemma rg_AddQueues_roots qs g : Forall (λ q, Parent q = "") qs → rg t (AddQueues None qs) (λ _ _, True) g.
Proof.
  intros Hqs. revert g. induction Hqs as [|q qs Hq _ IH]; intros g; [done|]. cbn [AddQueues].
  apply rg_bind. eapply rg_mono; [by apply rg_add_queue|]. intros [pid'|e] g' _ Hp'; [|done].
  destruct Hp' as [_ ->]; [apply IH|done..].
Qed.

Lemma rg_delete_queue q g : rg t (delete_queue q) (λ _ _, True) g.
Proof.
  revert g. induction q as [q IH] using ModelQueue_tree_ind. intros g.
  destruct q as [id pid mq cs ca da]. cbn [MChildren] in IH. cbn [delete_queue MChildren Id].
  apply rg_bind, (rg_mono _ _ (λ _ _, True)).
  - revert g. induction IH as [|c cs Hc _ IHcs]; intros g; [done|]. apply rg_bind.
    eapply rg_mono; [apply Hc|]. intros [u|e] g' _ _; [apply IHcs|done].
  - intros [u|e] g' _ _; [|done]. apply rg_bind, rg_now. intros now g1 g2 g3 _ _ _. apply rg_map_err, rg_write; [done|].
    intros g4 a d [_ Hi4] [= <- <-]. split; [|done]. apply tick_queues_only; [done| |apply mark_deleted_only].
    apply rows_wf_fmap; auto with queues. apply (rwf_queues _ Hi4).
Qed.

(** *** The tables that no other table refers to *)
Lemma rg_upsert_each {R K X : Type} `{Countable K} (T : table R) (key : R → K) (pk : R → string) merge check
    (row : string → X → R) wrap_err (xs : list X) g :
  (∀ old new, key (merge old new) = key old) → (∀ old new, pk (merge old new) = pk old) →
  (∀ id x, pk (row id x) = id) →
  (∀ w, repo_wf w → upsert_wf T key pk w) →
  (∀ w rows, repo_wf w → issued_wf key pk (w_uuids w) rows → repo_wf (tick (tset T rows (w_db w)) w)) →
  (∀ rows d, t_queues (tset T rows d) = t_queues d) →
  rg t (upsert_each T key pk merge check row wrap_err xs) (λ _ _, True) g.
Proof.
  intros Hkey Hpk Hrow Hwf Hset Hqs. apply rg_range_True. clear g. intros x g _.
  apply rg_bind, (rg_uuid_known (λ _, True)); [done..|]. clear g. intros k g _ Hk _. apply rg_map_err, rg_write; [done|].
  intros g2 u d [Hr2 Hi2]. unfold upsert_stmt. destruct (check _); [done|].
  destruct (upsert_row _ _ _ _ _) as [t'|] eqn:Hup; [|done]. intros [= <- <-]. split; [|done].
  apply tick_status; [done|apply Hqs|]. apply Hset; [done|].
  eapply (issued_upsert_at key pk merge Hkey Hpk _ k); [by apply Hwf|destruct Hr2; lia|apply Hrow|exact Hup].
Qed.

Lemma rg_InsertNodeUtilizations u nus g : rg t (InsertNodeUtilizations u nus) (λ _ _, True) g.
Proof.
  apply rg_range_True. clear g. intros nu g _. apply rg_map_err, rg_write; [done|]. intros g2 a d [_ Hi2].
  unfold insert_util_stmt. destruct (insert_row _ _ _) as [t'|] eqn:Hins; [|done]. intros [= <- <-]. split; [|done].
  apply tick_status; [done|done|]. apply (repo_wf_status (ow g2)); try done; [apply (rwf_nodes _ Hi2)|apply (rwf_partitions _ Hi2)|..].
  - by apply (insert_row_NoDup _ _ _ _ Hins), (rwf_utils _ Hi2).
  - apply (rwf_history _ Hi2).
Qed.

Lemma rg_insert_history int8in id ty total ts wrap_err g :
  rg t (map_err wrap_err (db_call (insert_history_stmt int8in id ty total ts))) (λ _ _, True) g.
Proof.
  apply rg_map_err, rg_write; [done|]. intros g2 a d [_ Hi2]. unfold insert_history_stmt.
  destruct (int8in total); [|done]. destruct (insert_row _ _ _) as [t'|] eqn:Hins; [|done]. intros [= <- <-]. split; [|done].
  apply tick_status; [done|done|]. apply (repo_wf_status (ow g2)); try done; [apply (rwf_nodes _ Hi2)|apply (rwf_partitions _ Hi2)|..].
  - apply (rwf_utils _ Hi2).
  - by apply (insert_row_NoDup _ _ _ _ Hins), (rwf_history _ Hi2).
Qed.

Lemma rg_UpdateHistory int8in apps containers g : rg t (UpdateHistory int8in apps containers) (λ _ _, True) g.
Proof.
  unfold UpdateHistory. apply rg_bind, (rg_mono _ _ (λ _ _, True)).
  - apply rg_range_True. clear g. intros app g _. apply rg_bind, (rg_uuid_known (λ _, True)); [done..|].
    intros k g' _ _ _. apply rg_insert_history.
  - intros [u|e] g' _ _; [|done]. apply rg_range_True. clear g g'. intros c g _.
    apply rg_bind, (rg_uuid_known (λ _, True)); [done..|]. intros k g' _ _ _. apply rg_insert_history.
Qed.

(** ** Every call *)
Context (int8in : string → option Z).

(** Nothing is asked of a call when nothing is to be known of the parent links.
    Otherwise the [parentId] given to [AddQueues], if any, is that of a stored
    queue; and for parents in the same partition it adds root queues, of any
    partitions, or queues of one partition, that of their parent. *)
Definition sound_call (c : repo_call) (w : world) : Prop :=
  match c with
  | CallAddQueues parentId qs =>
      (parentId = None ∧ Forall (λ q, Parent q = "") qs) ∨
      ∃ partition, parent_known partition parentId w ∧
        (lk = PartitionParents → Forall (λ q, Partition q = partition) qs)
  | CallRead m => reads m
  | _ => True
  end.

Lemma rg_perform c g : sound_call c (ow g) → rg t (perform int8in c) (λ _ _, True) g.
Proof.
  destruct c; cbn; intros Hc.
  - apply rg_range_True. intros q g' _. apply rg_upsert_queue.
  - destruct Hc as [[-> Hqs]|(partition & Hp & Hqs)]; [by apply rg_AddQueues_roots|by apply (rg_AddQueues partition)].
  - apply rg_range_True. intros q g' _. apply rg_delete_queue.
  - apply rg_range_True. intros a g' _. apply rg_upsert_app.
  - apply rg_upsert_each; try done; [apply rwf_nodes|]. intros w rows Hwf Hrows.
    apply (repo_wf_status w); try done; [apply (rwf_partitions _ Hwf)|apply (rwf_utils _ Hwf)|apply (rwf_history _ Hwf)].
  - apply rg_upsert_each; try done; [apply rwf_partitions|]. intros w rows Hwf Hrows.
    apply (repo_wf_status w); try done; [apply (rwf_nodes _ Hwf)|apply (rwf_utils _ Hwf)|apply (rwf_history _ Hwf)].
  - apply rg_InsertNodeUtilizations.
  - apply rg_UpdateHistory.
  - by apply rg_quiet.
Qed.

End calls.
End links.

(** Calls do not wait for each other: without new calls, no interleaving of
    those in progress is infinite, and it comes to rest only when every call has
    its result. *)
Theorem calls_terminate int8in cs w p :
  rtc pool_act (started (perform int8in) cs w) p →
  sn pool_act p ∧ (nf pool_act p → length (calls p) = length cs ∧ Forall (λ c, ∃ r, c.2 = Done r) (calls p)).
Proof.
  intros Hsteps. split; [apply pool_act_sn|]. intros Hnf. split; [|by apply pool_at_rest].
  assert (length (calls (started (perform int8in) cs w)) = length cs) as <- by apply length_fmap.
  clear Hnf. induction Hsteps as [|p1 p2 p3 Hstep _ IH]; [done|]. rewrite IH. destruct Hstep. cbn. apply length_insert.
Qed.

(** C1.  Starting from the empty database, with any number of goroutines at work on
    it, whose statements come in any order and are lost, executed without a
    reply or cut: keys and identifiers of every table stay unique and every
    application points to the row of the queue it names, whatever is called
    ([AnyLinks]).  If every [parentId] that is handed to [AddQueues] is that of a
    stored queue, or nil as in all its callers, then the parent of a queue is an
    older queue ([OlderParents]), so that the parent links are acyclic.  If
    moreover every call of [AddQueues] adds trees below root queues, of any
    partitions, or queues of one partition, that of the parent that it was
    given, the parent is of the same partition ([PartitionParents]). *)
Theorem repository_invariant l int8in w p :
  w_db w = empty_db → reachable (perform int8in) (sound_call l) w p → repo_wf_at (l := l) (shared p).
Proof.
  intros Hw Hreach.
  destruct (pool_sound (HP := repo_protocol_laws l) (perform int8in) (sound_call l) (λ _ _ _, True)) with w (λ _ : nat, @None nat) p
    as (g & <- & Hi & _); [|by apply repo_wf_at_empty|done|exact Hi].
  intros t c g _ Hc. by apply rg_perform.
Qed.

End concurrent.

(** A hierarchy is stored by two calls at the same time, and the statements of a
    third, which stores an application, fall between theirs. *)
Definition sample_calls : list repo_call :=
  [CallUpsertQueues (flattenQueues [sample_root]); CallUpsertApplications [sample_app];
   CallUpsertQueues (flattenQueues [sample_root])].

Definition sample_turns : list nat :=
  (replicate 13 0 ++ [2; 0; 2; 0; 2; 0; 2; 0; 2; 0; 2; 0; 2; 1; 2; 1; 2; 1] ++ replicate 20 2)%nat.

Definition sample_pool : pool repo_call :=
  schedule sample_turns (started (@perform ideal_env sample_int8in) sample_calls empty_world).

Example sample_pool_done :
  (λ c, match c.2 with Done r => Some r | Act _ _ => None end) <$> calls sample_pool =
    [Some (Ok ()); Some (Ok ()); Some (Ok ())] ∧
  length (t_queues (w_db (shared sample_pool))) = length (flattenQueues [sample_root]) ∧
  length (t_applications (w_db (shared sample_pool))) = 1%nat.
Proof. by vm_compute. Qed.

Lemma calls_terminate_witness :
  sn pool_act sample_pool ∧
  (nf pool_act sample_pool → length (calls sample_pool) = 3%nat ∧ Forall (λ c, ∃ r, c.2 = Done r) (calls sample_pool)).
Proof. apply (@calls_terminate ideal_env sample_int8in sample_calls empty_world). apply schedule_steps. Defined.

(** Queues of two partitions are added by one call: first the roots, then, by a
    second call, a queue below each. *)
Definition queue_in (partition name parent : string) : PartitionQueueDAOInfo :=
  set_Partition partition (sample_queue name parent []).

Definition two_partitions : list repo_call :=
  [CallAddQueues None [queue_in "default" "root" ""; queue_in "second" "root" ""];
   CallAddQueues None [queue_in "default" "root.a" "root"; queue_in "second" "root.b" "root"]].

Definition two_partitions_pool : pool repo_call :=
  schedule (replicate 6 0 ++ replicate 8 1)%nat (started (@perform ideal_env sample_int8in) two_partitions empty_world).

(** The parent of [root.b] is the root queue of the other partition: the
    identifier found for the first queue is used for the second as well. *)
Example AddQueues_crosses_partitions :
  (λ r, (q_id r, q_parent_id r, q_partition r, q_queue_name r)) <$> t_queues (w_db (shared two_partitions_pool)) =
    [("0", None, "default", "root"); ("1", None, "second", "root");
     ("2", Some "0", "default", "root.a"); ("3", Some "0", "second", "root.b")].
Proof. by vm_compute. Qed.

Lemma repository_invariant_witness :
  @repo_wf ideal_env (shared sample_pool) ∧ @repo_wf_at ideal_env OlderParents (shared two_partitions_pool).
Proof.
  split.
  - apply (@repository_invariant ideal_env ideal_laws PartitionParents sample_int8in empty_world); [reflexivity|].
    apply schedule_reachable. unfold sample_calls. repeat apply Forall_cons_2; [exact I..|apply Forall_nil_2].
  - apply (@repository_invariant ideal_env ideal_laws OlderParents sample_int8in empty_world); [reflexivity|].
    apply schedule_reachable. unfold two_partitions.
    repeat apply Forall_cons_2; [right; exists "default"; split; [intros p [=]|intros [=]]..|apply Forall_nil_2].
Defined.
