(* ===== verification/RepoTypes.v ===== *)
(** * The types of the stored values

    Go and SQL give the same number different types: the number of running
    applications is a [uint64] in the scheduler's structures, an INTEGER in the
    table and a [uint64] again when it is scanned.  [db_typed] says that every
    stored number fits its column and the field it is scanned into, so that the
    total functions [scan_queue], [scan_app], [scan_partition] are right to
    ignore failing conversions.  Every method that writes preserves it when its
    arguments are values of their Go types, and what is read has these types. *)
From S2P Require Import Prelude GoStrings SqlBuilder Dao Db Upsert QueueRepo FlattenQueues AppRepo StatusRepo Repository StatusTheorems Pool.

(** ** Types *)
Definition int32 (z : Z) : Prop := in_range 32 z.
Definition int64 (z : Z) : Prop := in_range 64 z.
Definition uint64 (z : Z) : Prop := 0 ≤ z < 2 ^ 64.

(** A [uint64] that fits an INTEGER column. *)
Definition unsigned_integer (z : Z) : Prop := int32 z ∧ 0 ≤ z.

Lemma int32_int64 z : int32 z → int64 z.
Proof. unfold int32, int64, in_range. rewrite !andb_True, !Is_true_true. lia. Qed.

Lemma unsigned_uint64 z : unsigned_integer z → uint64 z.
Proof. unfold unsigned_integer, int32, uint64. intros [H%in_range_bounds ?]. lia. Qed.

Definition if_some {A} (P : A → Prop) (o : option A) : Prop := match o with Some a => P a | None => True end.

(** Values of the scheduler's structures. *)
Record queue_typed (q : PartitionQueueDAOInfo) : Prop := {
  qt_max_running : uint64 (MaxRunningApps q);
  qt_running : uint64 (RunningApps q);
  qt_priority : int32 (CurrentPriority q);
}.

Record app_typed (a : ApplicationDAOInfo) : Prop := {
  at_submission : int64 (SubmissionTime a);
  at_finished : if_some int64 (FinishedTime a);
  at_priority : int32 (MaxRequestPriority a);
}.

Record partition_typed (p : PartitionInfo) : Prop := {
  pt_nodes : int64 (TotalNodes p);
  pt_containers : int64 (TotalContainers p);
  pt_transition : int64 (LastStateTransitionTime p);
}.

(** Rows, by the types of their columns. *)
Record queue_row_typed (r : QueueRow) : Prop := {
  qr_created : int64 (q_created_at r);
  qr_deleted : if_some int64 (q_deleted_at r);
  qr_partition : q_partition r ≠ "";
  qr_max_running : unsigned_integer (q_max_running_apps r);
  qr_running : unsigned_integer (q_running_apps r);
  qr_priority : int32 (q_current_priority r);
}.

Record app_row_typed (r : AppRow) : Prop := {
  ar_submission : int64 (a_submission_time r);
  ar_finished : if_some int64 (a_finished_time r);
  ar_priority : int32 (a_max_request_priority r);
}.

Record partition_row_typed (r : PartitionRow) : Prop := {
  pr_nodes : int32 (p_total_nodes r);
  pr_containers : int32 (p_total_containers r);
  pr_transition : int64 (p_last_state_transition_time r);
}.

Record history_row_typed (r : HistoryRow) : Prop := {
  hr_total : int64 (h_total_number r);
  hr_timestamp : int64 (h_timestamp r);
}.

Record db_typed (d : db) : Prop := {
  dt_queues : Forall queue_row_typed (t_queues d);
  dt_applications : Forall app_row_typed (t_applications d);
  dt_partitions : Forall partition_row_typed (t_partitions d);
  dt_history : Forall history_row_typed (t_history d);
}.

Definition typed_kept (d d' : db) : Prop := db_typed d → db_typed d'.

#[export] Instance typed_kept_preorder : PreOrder typed_kept.
Proof. split; [intros d Hd; exact Hd|]. intros d1 d2 d3 H12 H23 H1. by apply H23, H12. Qed.

(** ** Tables *)
Section tables.
Context {R K : Type} `{Countable K} (key : R → K) (pk : R → string) (P : R → Prop).

Lemma insert_row_Forall new t t' : insert_row pk new t = Ok t' → Forall P t → P new → Forall P t'.
Proof.
  unfold insert_row. case_decide; [done|]. intros [= <-] Ht Hnew. apply Forall_app. by split; [|apply Forall_singleton].
Qed.

Lemma insert_unique_Forall new t t' : insert_unique key pk new t = Ok t' → Forall P t → P new → Forall P t'.
Proof. unfold insert_unique. case_decide; [done|]. apply insert_row_Forall. Qed.

Lemma upsert_row_Forall merge new t t' :
  upsert_row key pk merge new t = Ok t' → Forall P t → P new → (∀ old, P old → P (merge old new)) → Forall P t'.
Proof.
  unfold upsert_row. destruct (update_key _ _ _ _) as [t1|] eqn:Hu; [|intros; by eapply insert_row_Forall].
  intros [= <-] Ht _ Hm. destruct (update_key_Some _ _ _ _ _ Hu) as (l1 & old & l2 & -> & -> & _ & _).
  rewrite !Forall_app, !Forall_cons in *. naive_solver.
Qed.

End tables.

Section keeps.
Context `{Env}.
Context (clock_typed : ∀ n, int64 (env_now n)).

(** What follows a reading of the clock may rely on its type. *)
Lemma keeps_now_bind {A} (f : Z → M A) : (∀ t, int64 t → keeps typed_kept (f t)) → keeps typed_kept (time_Now_Unix ≫= f).
Proof. intros Hf w. split_and!; [done..|]. by apply Hf. Qed.

Lemma queue_row_ok id pid now q :
  int64 now → queue_typed q → queue_check (queue_row id pid now q) = None → queue_row_typed (queue_row id pid now q).
Proof.
  intros Hnow [Hm Hr Hp] Hc. unfold queue_check in Hc. cbn in Hc.
  destruct (in_range 32 (MaxRunningApps q)) eqn:H1, (in_range 32 (RunningApps q)) eqn:H2; try done.
  destruct (in_range 32 (CurrentPriority q)) eqn:H3; try done. cbn in Hc. case_decide; [done|].
  unfold uint64 in *. split; cbn; try done; (split; [unfold int32; by rewrite ?H1, ?H2|lia]).
Qed.

Lemma queue_merge_ok old new : queue_row_typed old → queue_row_typed new → queue_row_typed (queue_merge old new).
Proof. intros [] []. by split. Qed.

Lemma upsert_queue_typed q : queue_typed q → keeps typed_kept (upsert_queue q).
Proof.
  intros Hq. unfold upsert_queue, getQueueID. keeps_step; [keeps_steps|]. keeps_step; [keeps_steps|].
  apply keeps_now_bind. intros now Hnow. keeps_steps. intros d ? d'. unfold upsert_queue_stmt.
  destruct (queue_check _) eqn:Hc; [done|]. destruct (upsert_row _ _ _ _ _) as [t|] eqn:Hup; [|done]. intros [= _ <-].
  pose proof (queue_row_ok _ _ _ _ Hnow Hq Hc) as Hrow. intros [Hqs Ha Hp Hh]. split; try done. cbn.
  eapply upsert_row_Forall; [exact Hup|done|done|]. intros old Hold. by apply queue_merge_ok.
Qed.

Lemma UpsertQueues_typed qs : Forall queue_typed qs → keeps typed_kept (UpsertQueues qs).
Proof. intros Hqs. apply keeps_range. intros q Hq. apply upsert_queue_typed. by eapply Forall_forall in Hqs. Qed.

Lemma insert_queue_stmt_typed id pid now q d r d' :
  int64 now → queue_typed q → insert_queue_stmt (queue_row id pid now q) d = Ok (r, d') → typed_kept d d'.
Proof.
  intros Hnow Hq. unfold insert_queue_stmt. destruct (queue_check _) eqn:Hc; [done|].
  destruct (insert_unique _ _ _ _) as [t|] eqn:Hins; [|done]. intros [= _ <-] [Hqs Ha Hp Hh]. split; try done. cbn.
  eapply insert_unique_Forall; [exact Hins|done|]. by apply queue_row_ok.
Qed.

Lemma add_queue_typed partition pid q :
  Forall queue_typed (subqueues q) → keeps typed_kept (add_queue partition pid q).
Proof.
  revert pid. induction q as [q IH] using PartitionQueueDAOInfo_tree_ind. intros pid. rewrite subqueues_eq, Forall_cons.
  intros [Hq Hcs]. destruct q as [? ? ? ? ? ? ? ? ? ? ? ? ? ? cs ? ? ? ? ?]; cbn [Children] in IH, Hcs. cbn [add_queue Children].
  keeps_step; [unfold getQueueID; keeps_steps|]. keeps_step; [keeps_steps|].
  apply keeps_now_bind. intros now Hnow. keeps_step.
  { keeps_steps. intros d r d'. apply insert_queue_stmt_typed; [done|]. destruct Hq. by split. }
  keeps_step; [|keeps_steps]. keeps_step. clear Hq.
  match goal with |- context [Some ?i] => generalize (Some i) end.
  induction IH as [|c cs Hc _ IHcs]; intros pid2; [keeps_steps|]. rewrite list.bind_cons, Forall_app in Hcs. destruct Hcs.
  keeps_step; [by apply Hc|by apply IHcs].
Qed.

Lemma AddQueues_typed pid qs : Forall (λ q, Forall queue_typed (subqueues q)) qs → keeps typed_kept (AddQueues pid qs).
Proof.
  intros Hqs. revert pid. induction Hqs as [|q qs Hq _ IH]; intros pid; cbn [AddQueues]; [keeps_steps|].
  keeps_step; [by apply add_queue_typed|apply IH].
Qed.

Lemma mark_deleted_typed now id r : int64 now → queue_row_typed r → queue_row_typed (mark_deleted now id r).
Proof. intros Hnow [] . unfold mark_deleted. case_decide; by split. Qed.

Lemma delete_queue_typed q : keeps typed_kept (delete_queue q).
Proof.
  induction q as [q IH] using ModelQueue_tree_ind. destruct q as [id pid mq cs ca da]. cbn [MChildren] in IH.
  cbn [delete_queue MChildren Id]. keeps_step.
  - induction IH as [|c cs Hc _ IHcs]; keeps_steps; [apply Hc|apply IHcs].
  - apply keeps_now_bind. intros now Hnow. keeps_steps. intros d ? d' [= _ <-] [Hqs Ha Hp Hh]. split; try done. cbn.
    apply Forall_fmap. eapply Forall_impl; [exact Hqs|]. intros r. by apply mark_deleted_typed.
Qed.

Lemma DeleteQueues_typed F : keeps typed_kept (DeleteQueues F).
Proof. apply keeps_range. intros q _. apply delete_queue_typed. Qed.

Lemma UpsertApplications_typed apps : Forall app_typed apps → keeps typed_kept (UpsertApplications apps).
Proof.
  intros Happs. apply keeps_range. intros a Ha. unfold upsert_app, getQueueID. keeps_steps. intros d ? d'.
  unfold upsert_app_stmt. case_match; [|done]. destruct (upsert_row _ _ _ _ _) as [t|] eqn:Hup; [|done].
  intros [= _ <-] [Hqs Has Hp Hh].
  split; try done. cbn. rewrite Forall_forall in Happs. destruct (Happs a Ha) as [Hs Hf Hpr].
  eapply upsert_row_Forall; [exact Hup|done|by split|]. intros old [Ho1 Ho2 Ho3]. split; cbn; try done.
  unfold coalesce. by destruct (FinishedTime a).
Qed.

Lemma UpsertPartitions_typed ps : Forall partition_typed ps → keeps typed_kept (UpsertPartitions ps).
Proof.
  intros Hps. unfold UpsertPartitions, upsert_each. apply keeps_range. intros p Hp. unfold upsert_one. keeps_steps.
  intros d ? d'. unfold upsert_stmt, partition_check. cbn. rewrite Forall_forall in Hps. destruct (Hps p Hp) as [_ _ Ht].
  destruct (in_range 32 (TotalNodes p)) eqn:H1; [|done]. destruct (in_range 32 (TotalContainers p)) eqn:H2; [|done]. cbn.
  destruct (upsert_row _ _ _ _ _) as [t|] eqn:Hup; [|done]. intros [= _ <-] [Hqs Has Hpt Hh]. split; try done. cbn.
  assert (∀ id, partition_row_typed (partition_row id p)) as Hrow
    by (intros id; split; cbn; [unfold int32; by rewrite H1|unfold int32; by rewrite H2|done]).
  eapply upsert_row_Forall; [exact Hup|done|done|]. intros old [Ho1 Ho2 Ho3].
  match type of Hup with upsert_row _ _ _ ?row _ = _ => destruct (Hrow (p_id row)) end. by split.
Qed.

Lemma UpsertNodes_typed ns partition : keeps typed_kept (UpsertNodes ns partition).
Proof.
  unfold UpsertNodes, upsert_each, upsert_one. keeps_steps. intros d ? d'. unfold upsert_stmt. cbn.
  destruct (upsert_row _ _ _ _ _); [|done]. intros [= _ <-] []. by split.
Qed.

Lemma InsertNodeUtilizations_typed u nus : keeps typed_kept (InsertNodeUtilizations u nus).
Proof.
  unfold InsertNodeUtilizations. keeps_steps. intros d ? d'. unfold insert_util_stmt.
  destruct (insert_row _ _ _); [|done]. intros [= _ <-] []. by split.
Qed.

Context (int8in : string → option Z) (int8in_typed : ∀ s n, int8in s = Some n → int64 n).

Lemma insert_history_typed id ty total ts d r d' :
  int64 ts → insert_history_stmt int8in id ty total ts d = Ok (r, d') → typed_kept d d'.
Proof.
  intros Hts. unfold insert_history_stmt. destruct (int8in total) as [n|] eqn:Hn; [|done].
  destruct (insert_row _ _ _) as [t|] eqn:Hins; [|done]. intros [= _ <-] [Hqs Ha Hp Hh]. split; try done. cbn.
  eapply insert_row_Forall; [exact Hins|done|]. split; cbn; [by eapply int8in_typed|done].
Qed.

Lemma UpdateHistory_typed apps containers :
  Forall (λ a, int64 (ATimestamp a)) apps → Forall (λ c, int64 (CTimestamp c)) containers →
  keeps typed_kept (UpdateHistory int8in apps containers).
Proof.
  intros Ha Hc. rewrite Forall_forall in Ha. rewrite Forall_forall in Hc. unfold UpdateHistory. keeps_step.
  - apply keeps_range. intros a Hin. keeps_steps. intros d r d'. apply insert_history_typed. by apply Ha.
  - apply keeps_range. intros c Hin. keeps_steps. intros d r d'. apply insert_history_typed. by apply Hc.
Qed.

(** ** Calls with arguments of their Go types *)
Definition typed_call (c : repo_call) : Prop :=
  match c with
  | CallUpsertQueues qs => Forall queue_typed qs
  | CallAddQueues _ qs => Forall (λ q, Forall queue_typed (subqueues q)) qs
  | CallUpsertApplications apps => Forall app_typed apps
  | CallUpsertPartitions ps => Forall partition_typed ps
  | CallUpdateHistory apps containers =>
      Forall (λ a, int64 (ATimestamp a)) apps ∧ Forall (λ c, int64 (CTimestamp c)) containers
  | CallDeleteQueues _ | CallUpsertNodes _ _ | CallInsertNodeUtilizations _ _ => True
  | CallRead m => reads m
  end.

Lemma typed_call_keeps c : typed_call c → keeps typed_kept (perform int8in c).
Proof.
  destruct c; cbn.
  - apply UpsertQueues_typed.
  - apply AddQueues_typed.
  - intros _. apply DeleteQueues_typed.
  - apply UpsertApplications_typed.
  - intros _. apply UpsertNodes_typed.
  - apply UpsertPartitions_typed.
  - intros _. apply InsertNodeUtilizations_typed.
  - intros [??]. by apply UpdateHistory_typed.
  - apply keeps_impl. by intros d d' <-.
Qed.

(** ** What is read *)
Lemma scan_queue_typed r : queue_row_typed r → queue_typed (MQueue (scan_queue r)).
Proof. intros []. split; cbn; auto using unsigned_uint64. Qed.

Lemma scan_app_typed r : app_row_typed r → app_typed (MApp (scan_app r)).
Proof. intros []. by split. Qed.

Lemma scan_partition_typed r : partition_row_typed r → partition_typed (scan_partition r).
Proof. intros []. split; cbn; auto using int32_int64. Qed.

Context `{!EnvLaws}.

(** A reply holds rows of the table, whatever is lost of it. *)
Lemma query_Forall {A} (P : A → Prop) (rows : db → list A) w l :
  Forall P (rows (w_db w)) → (query rows w).1 = Ok l → Forall P l.
Proof.
  intros Hall. unfold query, query_reply. cbn. destruct (env_db (w_calls w)); cbn; intros [= <-].
  all: try apply Forall_take; by rewrite env_scan_perm.
Qed.


Lemma filter_Forall {A} (P Q : A → Prop) `{!∀ x, Decision (Q x)} (l : list A) : Forall P l → Forall P (filter Q l).
Proof. rewrite !Forall_forall. intros Hl x [_ Hx]%list_elem_of_filter. by apply Hl. Qed.

(** A method that scans the rows of a query returns scanned rows. *)
Lemma read_Forall {A B} (P : A → Prop) (Q : B → Prop) (rows : db → list A) (scan : A → B) g w l :
  Forall P (rows (w_db w)) → (∀ a, P a → Q (scan a)) →
  ((xs ← map_err g (query rows); mret (scan <$> xs)) w).1 = Ok l → Forall Q l.
Proof.
  intros Hall Hscan. pose proof (λ l, query_Forall P rows w l Hall) as Hq. revert Hq. rewrite run_bind, run_map_err.
  destruct (query rows w) as [[xs|e] w']; [|done]. intros Hq [= <-]. apply Forall_fmap.
  eapply Forall_impl; [by apply Hq|]. exact Hscan.
Qed.

Lemma page_Forall (P : AppRow → Prop) lim off rows : Forall P rows → Forall P (page lim off rows).
Proof.
  intros Hall. unfold page. case_bool_decide; [constructor|]. destruct lim; [apply Forall_take|]; by apply Forall_drop.
Qed.

(** So for the applications, whatever the query. *)
Lemma answer_select_typed cs n d l :
  Forall app_row_typed (t_applications d) → answer_select cs n d = Ok l → Forall app_row_typed l.
Proof.
  intros Hall. unfold answer_select. destruct (select_rows _ _ _) as [l'|] eqn:Hsel.
  - intros [= <-]. revert Hsel. unfold select_rows. destruct (mapM _ _); [|done]. cbn [mbind option_bind].
    case_match; [|done]. intros [= <-]. apply page_Forall. rewrite merge_sort_Permutation. apply filter_Forall.
    by rewrite env_scan_perm.
  - intros Hsql. eapply Forall_impl; [by eapply env_sql_scanned|]. intros r (Hs & Hf & Hp). split; [done| |done].
    destruct (a_finished_time r); [by apply Hf|done].
Qed.

Lemma query_applications_typed cs w apps :
  Forall app_row_typed (t_applications (w_db w)) → (query_applications cs w).1 = Ok apps →
  Forall (λ a, app_typed (MApp a)) apps.
Proof.
  intros Hall. pose proof (answer_select_typed cs (w_calls w) (w_db w)) as Hsel.
  assert (∀ rows, Forall app_row_typed rows → Forall (λ a, app_typed (MApp a)) (scan_app <$> rows)) as Hscan.
  { intros rows Hr. apply Forall_fmap. eapply Forall_impl; [exact Hr|]. exact scan_app_typed. }
  unfold query_applications. rewrite run_bind, run_map_err, run_bind. cbn.
  destruct (env_db (w_calls w)), (answer_select _ _ _) as [l|err]; cbn; intros [= <-]; apply Hscan; auto using Forall_take.
Qed.

(** C15.  Starting from the empty database, with any number of calls at work on it,
    whatever happens to their statements and in whatever order they come,
    methods called with values of their Go types store values that fit the
    columns, and what the readers of queues, applications, partitions and history return are
    again values of their Go types: unsigned counters stay unsigned, and no
    number outgrows the field it is scanned into. *)
Theorem repository_typed w p :
  w_db w = empty_db → reachable (perform int8in) (λ c _, typed_call c) w p →
  let w' := shared p in
  db_typed (w_db w') ∧
  (∀ qs, (GetAllQueues w').1 = Ok qs → Forall (λ q, queue_typed (MQueue q)) qs) ∧
  (∀ f apps, (GetAllApplications f w').1 = Ok apps → Forall (λ a, app_typed (MApp a)) apps) ∧
  (∀ ps, (GetAllPartitions w').1 = Ok ps → Forall partition_typed ps) ∧
  (∀ l, (GetApplicationsHistory w').1 = Ok l →
     Forall (λ a, int64 (ATimestamp a) ∧ ∃ n, int64 n ∧ TotalApplications a = pretty n) l) ∧
  (∀ l, (GetContainersHistory w').1 = Ok l →
     Forall (λ c, int64 (CTimestamp c) ∧ ∃ n, int64 n ∧ CTotalContainers c = pretty n) l).
Proof.
  intros Hw Hreach w'. assert (db_typed (w_db w')) as Hty.
  { eapply (reachable_keeps _ _ typed_kept w p); [|exact Hreach|]; [intros c w0; apply typed_call_keeps|]. rewrite Hw. split; constructor. }
  split; [done|]. destruct Hty as [Hqs Has Hps Hh]. split_and!.
  - intros qs. by apply (read_Forall queue_row_typed), scan_queue_typed.
  - intros f apps. by apply query_applications_typed.
  - intros ps. by apply (read_Forall partition_row_typed), scan_partition_typed.
  - intros l. apply (read_Forall history_row_typed); [by apply filter_Forall|]. intros r []. cbn. by eauto.
  - intros l. apply (read_Forall history_row_typed); [by apply filter_Forall|]. intros r []. cbn. by eauto.
Qed.

End keeps.

(** ** An instance: the first synchronisation of a small cluster *)
Definition sample_typed_queue : PartitionQueueDAOInfo :=
  mkPartitionQueueDAOInfo "root" "Active" "default" None None None None None None true true None "" None [] None 5 1 0 None.

Definition typed_world : world := (@UpsertQueues ideal_env [sample_typed_queue] empty_world).2.

Lemma sample_clock_typed n : int64 (@env_now ideal_env n).
Proof. exact I. Qed.

Lemma sample_int8in_typed s n : sample_int8in s = Some n → int64 n.
Proof.
  unfold sample_int8in, strconv_ParseInt. destruct (parse_int_with _ _ _) as [z|] eqn:Hp; [|done]. intros [= <-].
  destruct (parse_int_range _ _ _ _ Hp) as [Hz|]; [|lia]. unfold int64, in_range. rewrite andb_True, !Is_true_true. lia.
Qed.

Lemma repository_typed_witness :
  db_typed (w_db typed_world) ∧
  (∀ qs, (@GetAllQueues ideal_env typed_world).1 = Ok qs → Forall (λ q, queue_typed (MQueue q)) qs) ∧
  (∀ f apps, (@GetAllApplications ideal_env f typed_world).1 = Ok apps → Forall (λ a, app_typed (MApp a)) apps) ∧
  (∀ ps, (@GetAllPartitions ideal_env typed_world).1 = Ok ps → Forall partition_typed ps) ∧
  (∀ l, (@GetApplicationsHistory ideal_env typed_world).1 = Ok l →
     Forall (λ a, int64 (ATimestamp a) ∧ ∃ n, int64 n ∧ TotalApplications a = pretty n) l) ∧
  (∀ l, (@GetContainersHistory ideal_env typed_world).1 = Ok l →
     Forall (λ c, int64 (CTimestamp c) ∧ ∃ n, int64 n ∧ CTotalContainers c = pretty n) l).
Proof.
  apply (@repository_typed ideal_env sample_clock_typed sample_int8in sample_int8in_typed ideal_laws empty_world
    (mkPool [(CallUpsertQueues [sample_typed_queue], Done (Ok ()))] typed_world)).
  - reflexivity.
  - refine (@reachable_next _ (@perform ideal_env sample_int8in) (λ c _, typed_call c) empty_world [] empty_world
      (CallUpsertQueues [sample_typed_queue]) (rtc_refl _ _) _).
    apply Forall_singleton. split; [unfold uint64; cbn; lia..|exact I].
Defined.
