(* ===== verification/WebHelpers.v ===== *)
(** * Query parameters of the web service

    Models [internal/webservice/helpers.go]: the query parameters of a request
    become [ApplicationFilters].  A request is its parsed query string. *)
From S2P Require Import Prelude GoStrings SqlBuilder Dao Db AppRepo AppQuery.
From Stdlib Require Import Ascii.

(** [r.URL.Query()] and [url.Values.Get]. *)
Definition url_Values : Type := gmap string (list string).

Definition Get (v : url_Values) (key : string) : string := default "" (v !! key ≫= head).

Definition queryParamSubmissionStartTime : string := "submissionStartTime".
Definition queryParamSubmissionEndTime : string := "submissionEndTime".
Definition queryParamGroups : string := "groups".
Definition queryParamLimit : string := "limit".
Definition queryParamOffset : string := "offset".
Definition queryParamUser : string := "user".

Definition toInt (numberString : string) : result (option Z) :=
  match strconv_Atoi numberString with
  | Ok n => Ok (Some n)
  | Err e => Err (ErrPrefix "invalid 'offset' query parameter: " e)
  end.

Definition toTime (millisString : string) : result (option time) :=
  match strconv_ParseInt millisString 64 with
  | Ok ms => Ok (Some (time_UnixMilli ms))
  | Err e => Err (ErrPrefix "invalid 'start' query parameter: " e)
  end.

Definition getUserQueryParam (r : url_Values) : string := Get r queryParamUser.

Definition getGroupsQueryParam (r : url_Values) : list string :=
  strings_Split (Get r queryParamGroups) ","%char.

Definition getOffsetQueryParam (r : url_Values) : result (option Z) :=
  let offsetStr := Get r queryParamOffset in
  if decide (offsetStr = "") then Ok None else toInt offsetStr.

Definition getLimitQueryParam (r : url_Values) : result (option Z) :=
  let limitStr := Get r queryParamLimit in
  if decide (limitStr = "") then Ok None else toInt limitStr.

Definition getSubmissionStartTimeQueryParam (r : url_Values) : result (option time) :=
  let startStr := Get r queryParamSubmissionStartTime in
  if decide (startStr = "") then Ok None else toTime startStr.

Definition getSubmissionEndTimeQueryParam (r : url_Values) : result (option time) :=
  let endStr := Get r queryParamSubmissionEndTime in
  if decide (endStr = "") then Ok None else toTime endStr.

Definition parseApplicationFilters (r : url_Values) : result ApplicationFilters :=
  let user := getUserQueryParam r in
  let fuser := if decide (user = "") then None else Some user in
  submissionStartTime ← getSubmissionStartTimeQueryParam r;
  submissionEndTime ← getSubmissionEndTimeQueryParam r;
  offset ← getOffsetQueryParam r;
  limit ← getLimitQueryParam r;
  let groups := getGroupsQueryParam r in
  let fgroups := if bool_decide (0 < length groups)%nat then groups else [] in
  Ok (mkApplicationFilters submissionStartTime submissionEndTime None None fuser fgroups offset limit).

(** ** Writing filters as parameters *)
Definition add_param {A} (key : string) (text : A → string) (o : option A) (v : url_Values) : url_Values :=
  match o with Some a => <[key := [text a]]> v | None => v end.

Definition encode_filters (f : ApplicationFilters) : url_Values :=
  add_param queryParamUser id (FUser f)
    (add_param queryParamSubmissionStartTime (λ t, pretty (UnixMilli t)) (SubmissionStartTime f)
      (add_param queryParamSubmissionEndTime (λ t, pretty (UnixMilli t)) (SubmissionEndTime f)
        (add_param queryParamOffset pretty (FOffset f)
          (add_param queryParamLimit pretty (FLimit f)
            {[queryParamGroups := [strings_Join (FGroups f) ","]]})))).

(** Filters that a request can express: whole milliseconds and 64-bit numbers, a
    user, groups without commas, no condition on the finish time. *)
Definition time_ok (t : time) : Prop := ∃ ms, t = time_UnixMilli ms ∧ in_range 64 ms.

Record expressible (f : ApplicationFilters) : Prop := {
  ex_start : if_given (SubmissionStartTime f) time_ok;
  ex_end : if_given (SubmissionEndTime f) time_ok;
  ex_fstart : FinishedStartTime f = None;
  ex_fend : FinishedEndTime f = None;
  ex_user : if_given (FUser f) (λ u, u ≠ "");
  ex_groups : FGroups f ≠ [];
  ex_commas : Forall (λ g, no_char ","%char g = true) (FGroups f);
  ex_offset : if_given (FOffset f) (λ n, in_range 64 n);
  ex_limit : if_given (FLimit f) (λ n, in_range 64 n);
}.

Lemma Get_add_same {A} key (text : A → string) o v :
  Get (add_param key text o v) key = match o with Some a => text a | None => Get v key end.
Proof. destruct o; [|done]. unfold Get, add_param, url_Values. by rewrite lookup_insert_eq. Qed.

Lemma Get_add_other {A} key key' (text : A → string) o v :
  key ≠ key' → Get (add_param key text o v) key' = Get v key'.
Proof. intros Hne. destruct o; [|done]. unfold Get, add_param, url_Values. by rewrite lookup_insert_ne. Qed.

Lemma pretty_Z_not_empty (z : Z) : in_range 64 z → pretty z ≠ "".
Proof.
  intros Hz Heq. assert (strconv_Atoi (pretty z) = Ok z) as Hp.
  { apply parse_int_pretty; [done|]. by apply in_range_bounds. }
  rewrite Heq in Hp. done.
Qed.

Lemma toInt_pretty z : in_range 64 z → toInt (pretty z) = Ok (Some z).
Proof.
  intros Hz. unfold toInt, strconv_Atoi. rewrite parse_int_pretty; [done|done|by apply in_range_bounds].
Qed.

Lemma toTime_pretty t : time_ok t → toTime (pretty (UnixMilli t)) = Ok (Some t) ∧ pretty (UnixMilli t) ≠ "".
Proof.
  intros (ms & -> & Hms). rewrite UnixMilli_time_UnixMilli. split; [|by apply pretty_Z_not_empty].
  unfold toTime, strconv_ParseInt. rewrite parse_int_pretty; [done|done|by apply in_range_bounds].
Qed.

(** The optional parameters read back. *)
Lemma optional_int (o : option Z) (text : string) :
  if_given o (λ n, in_range 64 n) → text = match o with Some n => pretty n | None => "" end →
  (if decide (text = "") then Ok None else toInt text) = Ok o.
Proof.
  intros Ho ->. destruct o as [n|]; [|by rewrite decide_True].
  rewrite decide_False by (by apply pretty_Z_not_empty). by apply toInt_pretty.
Qed.

Lemma optional_time (o : option time) (text : string) :
  if_given o time_ok → text = match o with Some t => pretty (UnixMilli t) | None => "" end →
  (if decide (text = "") then Ok None else toTime text) = Ok o.
Proof.
  intros Ho ->. destruct o as [t|]; [|by rewrite decide_True].
  destruct (toTime_pretty t Ho) as [Hp Hne]. by rewrite decide_False.
Qed.

Ltac get_params :=
  unfold encode_filters;
  repeat first [rewrite Get_add_same|rewrite Get_add_other by done].

Lemma parse_encode f : expressible f → parseApplicationFilters (encode_filters f) = Ok f.
Proof.
  intros [Hs He Hfs Hfe Hu Hg Hc Ho Hl]. unfold parseApplicationFilters.
  assert (Get (encode_filters f) queryParamGroups = strings_Join (FGroups f) ",") as Hgroups by (by get_params).
  assert (Get (encode_filters f) queryParamUser = default "" (FUser f)) as Huser.
  { get_params. by destruct (FUser f). }
  assert (getSubmissionStartTimeQueryParam (encode_filters f) = Ok (SubmissionStartTime f)) as ->.
  { apply optional_time; [done|]. get_params. by destruct (SubmissionStartTime f). }
  assert (getSubmissionEndTimeQueryParam (encode_filters f) = Ok (SubmissionEndTime f)) as ->.
  { apply optional_time; [done|]. get_params. by destruct (SubmissionEndTime f). }
  assert (getOffsetQueryParam (encode_filters f) = Ok (FOffset f)) as ->.
  { apply optional_int; [done|]. get_params. by destruct (FOffset f). }
  assert (getLimitQueryParam (encode_filters f) = Ok (FLimit f)) as ->.
  { apply optional_int; [done|]. get_params. by destruct (FLimit f). }
  cbn [mbind result_bind]. unfold getUserQueryParam, getGroupsQueryParam. rewrite Hgroups, Huser.
  rewrite (strings_Split_Join (FGroups f) ","%char) by done. destruct f as [s e fs fe u gs off lim]. cbn in *.
  subst fs fe. rewrite bool_decide_true by (destruct gs; [done|cbn; lia]).
  do 2 f_equal. destruct u as [u|]; [|done]. cbn in *. by rewrite decide_False.
Qed.

(** Without the parameter [groups], the filter holds one empty group. *)
Lemma absent_groups r f :
  Get r queryParamGroups = "" → parseApplicationFilters r = Ok f → FGroups f = [""].
Proof.
  intros Hg. unfold parseApplicationFilters, getGroupsQueryParam. rewrite Hg.
  destruct (getSubmissionStartTimeQueryParam r); [|done]. destruct (getSubmissionEndTimeQueryParam r); [|done].
  destruct (getOffsetQueryParam r); [|done]. destruct (getLimitQueryParam r); [|done].
  by intros [= <-].
Qed.
