(* ===== verification/AppTheorems.v ===== *)
(** * Applications: theorems *)
From S2P Require Import Prelude GoStrings SqlBuilder Dao Db Upsert QueueRepo QueueInv QueueUpsert.
From S2P Require Import FlattenQueues QueueTheorems AppRepo AppQuery RepoInv WebHelpers.
From Stdlib Require Import Ascii.

(** The identifier of the queue that an application names. *)
Definition queue_of (m : gmap (string * string) QueueRow) (a : ApplicationDAOInfo) : string :=
  default "" (q_id <$> m !! (AppPartition a, AppQueueName a)).

Definition dao_app_key (a : ApplicationDAOInfo) : string * string * string :=
  (AppPartition a, AppQueueName a, ApplicationID a).

Definition stored_row (m : gmap (string * string) QueueRow) (id : string) (a : ApplicationDAOInfo) : AppRow :=
  app_row id (queue_of m a) a.

Definition app_map (w : world) : gmap (string * string * string) AppRow := tmap app_key (t_applications (w_db w)).

(** The columns of the row of a new application. *)
Record stores (r : AppRow) (queue_id : string) (a : ApplicationDAOInfo) : Prop := {
  stores_key : app_key r = dao_app_key a;
  stores_queue : a_queue_id r = queue_id;
  stores_used : a_used_resource r = UsedResource a;
  stores_max_used : a_max_used_resource r = MaxUsedResource a;
  stores_pending : a_pending_resource r = AppPendingResource a;
  stores_submission : a_submission_time r = SubmissionTime a;
  stores_finished : a_finished_time r = FinishedTime a;
  stores_requests : a_requests r = Requests a;
  stores_allocations : a_allocations r = Allocations a;
  stores_state : a_state r = State a;
  stores_user : a_user r = User a;
  stores_groups : a_groups r = Groups a;
  stores_rejected : a_rejected_message r = RejectedMessage a;
  stores_state_log : a_state_log r = StateLog a;
  stores_place_holder : a_place_holder_data r = PlaceholderData a;
  stores_has_reserved : a_has_reserved r = HasReserved a;
  stores_reservations : a_reservations r = Reservations a;
  stores_priority : a_max_request_priority r = MaxRequestPriority a;
}.

(** A column that keeps its old value when the new one is unknown. *)
Definition latest {A} (old new now : option A) : Prop :=
  (∀ a, new = Some a → now = Some a) ∧ (new = None → now = old).

(** The columns of the row of an application that was stored before. *)
Record updates (old r : AppRow) (a : ApplicationDAOInfo) : Prop := {
  (* identity, and what is only written on insertion *)
  updates_id : a_id r = a_id old;
  updates_key : app_key r = app_key old;
  updates_queue : a_queue_id r = a_queue_id old;
  updates_submission : a_submission_time r = a_submission_time old;
  updates_user : a_user r = a_user old;
  updates_groups : a_groups r = a_groups old;
  (* always the new value *)
  updates_state : a_state r = State a;
  updates_rejected : a_rejected_message r = RejectedMessage a;
  updates_has_reserved : a_has_reserved r = HasReserved a;
  updates_priority : a_max_request_priority r = MaxRequestPriority a;
  (* the new value if there is one *)
  updates_used : latest (a_used_resource old) (UsedResource a) (a_used_resource r);
  updates_max_used : latest (a_max_used_resource old) (MaxUsedResource a) (a_max_used_resource r);
  updates_pending : latest (a_pending_resource old) (AppPendingResource a) (a_pending_resource r);
  updates_finished : latest (a_finished_time old) (FinishedTime a) (a_finished_time r);
  updates_requests : latest (a_requests old) (Requests a) (a_requests r);
  updates_allocations : latest (a_allocations old) (Allocations a) (a_allocations r);
  updates_state_log : latest (a_state_log old) (StateLog a) (a_state_log r);
  updates_place_holder : latest (a_place_holder_data old) (PlaceholderData a) (a_place_holder_data r);
  updates_reservations : latest (a_reservations old) (Reservations a) (a_reservations r);
}.

Lemma coalesce_latest {A} (old new : option A) : latest old new (coalesce new old).
Proof. split; [by intros a ->|by intros ->]. Qed.

Lemma app_row_stores id qid a : stores (app_row id qid a) qid a.
Proof. by split. Qed.

Lemma app_merge_updates old id qid a : updates old (app_merge old (app_row id qid a)) a.
Proof. split; cbn; done || apply coalesce_latest. Qed.

Section apps.
Context `{EnvLaws} (Hdel : ∀ n, env_db n = Delivered).

(** What the loop needs of the world. *)
Definition ready (qm : gmap (string * string) QueueRow) (w : world) : Prop :=
  queues_wf w ∧ queue_map w = qm ∧ issued_wf app_key a_id (w_uuids w) (t_applications (w_db w)).

Lemma wp_upsert_app a qm w :
  ready qm w → AppQueueName a ≠ "" → is_live qm (AppPartition a, AppQueueName a) →
  wp (upsert_app a) (λ r w', r = Ok () ∧ ready qm w' ∧
    ∃ id, app_map w' = merge_into app_key app_merge (stored_row qm id a) (app_map w)) w.
Proof.
  intros (Hq & <- & Hi) Hn Hlive. unfold upsert_app. wp_step. wp_step. destruct Hlive as (r & Hr & Hlive).
  eapply wp_getQueueID_found; [done..|]. assert (q_id r = queue_of (queue_map w) a) as -> by (unfold queue_of; by rewrite Hr).
  wp_steps. apply db_call_delivered; [done|]. cbn [w_db w_calls w_uuids w_times tick].
  unfold upsert_app_stmt. set (new := app_row _ _ a).
  destruct (upsert_row_ok app_key a_id app_merge new (t_applications (w_db w))) as [t' Ht'];
    [apply (issued_fresh app_key a_id _ _ Hi)|].
  rewrite Ht'. split; [done|]. split.
  - split; [|split; [done|]].
    + unfold queues_wf. cbn. eapply rows_wf_mono; [|exact Hq]. lia.
    + cbn. by eapply (issued_upsert app_key a_id app_merge app_merge_key app_merge_pk); [exact Hi| |exact Ht'].
  - eexists. unfold app_map. cbn [w_db tick t_applications set_applications].
    by rewrite (upsert_row_tmap app_key a_id app_merge app_merge_key app_merge_pk _ _ _ (iwf_table _ _ _ _ Hi) Ht').
Qed.

Lemma wp_UpsertApplications apps qm w :
  ready qm w → Forall (λ a, AppQueueName a ≠ "" ∧ is_live qm (AppPartition a, AppQueueName a)) apps →
  wp (UpsertApplications apps)
    (λ r w', r = Ok () ∧ merged app_key app_merge (stored_row qm) (app_map w) apps (app_map w')) w.
Proof.
  intros Hw Happs. revert w Hw. induction Happs as [|a apps [Hn Hlive] _ IH]; intros w Hw;
    [split; [done|constructor]|].
  unfold UpsertApplications. cbn [range]. wp_step. eapply wp_mono; [by apply wp_upsert_app|].
  intros r w1 (-> & Hw1 & id & Hid). eapply wp_mono; [by apply (IH w1)|]. intros r w2 [-> Hm]. split; [done|].
  apply merged_cons with id. by rewrite <- Hid.
Qed.

(** An application without a live queue is refused. *)
Lemma wp_upsert_app_orphan a w :
  queues_wf w → AppQueueName a ≠ "" → ¬ is_live (queue_map w) (AppPartition a, AppQueueName a) →
  wp (upsert_app a) (λ r w', r = Err (ErrPrefix "could not get queue_id from DB: "
    (ErrPrefix "could not get queueName queue from DB: " (ErrSentinel ErrNoRows))) ∧ w_db w' = w_db w) w.
Proof.
  intros Hwf Hn Hlive. unfold upsert_app. wp_steps. by apply wp_getQueueID_missing.
Qed.

End apps.

Lemma UpsertApplications_queue_map `{Env} apps w : queue_map (UpsertApplications apps w).2 = queue_map w.
Proof. destruct (keeps_run _ (UpsertApplications_keeps apps) w) as [Heq _]. unfold queue_map. by rewrite Heq. Qed.

(** The row of an application after the job, given the rows before it. *)
Definition app_row_after (m m' : gmap (string * string * string) AppRow) (queue_id : string) (a : ApplicationDAOInfo) : Prop :=
  ∃ r, m' !! dao_app_key a = Some r ∧
    match m !! dao_app_key a with Some old => updates old r a | None => stores r queue_id a end.

Lemma has_row_after qm m a m' :
  has_row app_merge (stored_row qm) dao_app_key m a m' → app_row_after m m' (queue_of qm a) a.
Proof.
  intros [id Hid]. eexists. split; [exact Hid|].
  destruct (m !! dao_app_key a) as [old|]; [apply app_merge_updates|apply app_row_stores].
Qed.

(** C8.  With every statement delivered, the job [upsert_applications] on
    different applications of live queues succeeds: a new application gets a row
    with all its fields, linked to the row of its queue; an existing one keeps
    its identity, queue, submission time, user and groups, gets the new state,
    rejection message, reservation flag and priority, and every other column
    gets its new value if there is one and is kept if not; no other row and no
    other table changes. *)
Theorem UpsertApplications_stored `{EnvLaws} apps w :
  (∀ n, env_db n = Delivered) → repo_wf w → NoDup (dao_app_key <$> apps) →
  Forall (λ a, AppQueueName a ≠ "" ∧ is_live (queue_map w) (AppPartition a, AppQueueName a)) apps →
  ∃ w', UpsertApplications apps w = (Ok (), w') ∧
    (∀ a, a ∈ apps → ∃ q, queue_map w !! (AppPartition a, AppQueueName a) = Some q ∧
       app_row_after (app_map w) (app_map w') (q_id q) a) ∧
    (∀ k, k ∉ dao_app_key <$> apps → app_map w' !! k = app_map w !! k) ∧
    applications_only (w_db w) (w_db w').
Proof.
  intros Hd Hwf Hnd Happs.
  destruct (wp_UpsertApplications Hd apps (queue_map w) w) as [Hok Hm]; [|done|].
  { split; [apply (rwf_queues _ Hwf)|]. split; [done|apply (apps_issued _ _ _ (rwf_apps _ Hwf))]. }
  exists (UpsertApplications apps w).2. split_and!.
  - rewrite <- Hok. by destruct (UpsertApplications apps w).
  - pose proof (merged_rows app_key app_merge (stored_row (queue_map w)) dao_app_key (λ _ _, eq_refl) _ _ _ Hm Hnd) as Hrows.
    rewrite Forall_forall in Happs, Hrows. intros a Ha. destruct (Happs a Ha) as [_ (q & Hq & _)]. exists q. split; [done|].
    apply Hrows, has_row_after in Ha. unfold queue_of in Ha. by rewrite Hq in Ha.
  - intros k. by apply (merged_other app_key app_merge (stored_row (queue_map w)) dao_app_key (λ _ _, eq_refl)).
  - apply (keeps_run _ (UpsertApplications_keeps apps) w).
Qed.

(** C38.  An attempt that is repeated late undoes what came after it: when the job
    of an earlier synchronisation succeeds only after that of a later one, the
    application is left in its earlier state. *)
Theorem stale_attempt_wins `{EnvLaws} earlier later w :
  (∀ n, env_db n = Delivered) → repo_wf w → dao_app_key earlier = dao_app_key later →
  AppQueueName later ≠ "" → is_live (queue_map w) (AppPartition later, AppQueueName later) →
  ∃ w1 w2, UpsertApplications [later] w = (Ok (), w1) ∧ UpsertApplications [earlier] w1 = (Ok (), w2) ∧
    (∃ row, app_map w1 !! dao_app_key later = Some row ∧ a_state row = State later) ∧
    ∃ row, app_map w2 !! dao_app_key later = Some row ∧ a_state row = State earlier.
Proof.
  intros Hd Hwf Hkey Hn Hlive.
  assert (∀ a w, repo_wf w → AppQueueName a ≠ "" → is_live (queue_map w) (AppPartition a, AppQueueName a) →
    ∃ w', UpsertApplications [a] w = (Ok (), w') ∧ repo_wf w' ∧ queue_map w' = queue_map w ∧
      ∃ row, app_map w' !! dao_app_key a = Some row ∧ a_state row = State a) as Hone.
  { clear w Hwf Hlive. intros a w Hwf Hna Ha. exists (UpsertApplications [a] w).2.
    destruct (wp_UpsertApplications Hd [a] (queue_map w) w) as [Hok Hm].
    { split; [apply (rwf_queues _ Hwf)|]. split; [done|apply (apps_issued _ _ _ (rwf_apps _ Hwf))]. }
    { by apply Forall_singleton. }
    split; [rewrite <- Hok; by destruct (UpsertApplications [a] w)|].
    split; [eapply repo_wf_step; [exact Hwf|apply step_UpsertApplications]|].
    split; [apply UpsertApplications_queue_map|].
    pose proof (merged_rows app_key app_merge (stored_row (queue_map w)) dao_app_key (λ _ _, eq_refl) _ _ _ Hm) as Hrows.
    specialize (Hrows (NoDup_singleton _)). apply Forall_singleton in Hrows as [id Hid]. eexists. split; [exact Hid|].
    by destruct (app_map w !! _). }
  destruct (Hone later w Hwf Hn Hlive) as (w1 & Hw1 & Hwf1 & Hqm1 & Hrow1).
  pose proof Hkey as [= Hp Hq _]. destruct (Hone earlier w1 Hwf1) as (w2 & Hw2 & _ & _ & Hrow2); [congruence|by rewrite Hp, Hq, Hqm1|].
  exists w1, w2. rewrite Hkey in Hrow2. by split_and!.
Qed.

Lemma sample_repo_wf : @repo_wf ideal_env sample_world.
Proof.
  eapply (@repo_wf_step ideal_env ideal_laws empty_world);
    [by apply (@repo_wf_empty ideal_env ideal_laws)|exact (@step_UpsertQueues ideal_env empty_world _)].
Qed.

Lemma sample_live : is_live (queue_map sample_world) (AppPartition sample_app, AppQueueName sample_app).
Proof.
  exists (mkQueueRow "4" (Some "0") 1700000000 None "root.system" "Active" "default" None None None None None
      None true true None "root" None None 0 1 0 None). split; [vm_compute; reflexivity|reflexivity].
Qed.

Definition completed_app : ApplicationDAOInfo :=
  mkApplicationDAOInfo "app-1" None None None "default" "root.system" 5 (Some 9) None None "Completed" "alice"
    (Some ["dev"]) "" None None false None 0.

Lemma stale_attempt_wins_witness :
  ∃ w1 w2, @UpsertApplications ideal_env [completed_app] sample_world = (Ok (), w1) ∧
    @UpsertApplications ideal_env [sample_app] w1 = (Ok (), w2) ∧
    (∃ row, app_map w1 !! dao_app_key completed_app = Some row ∧ a_state row = "Completed") ∧
    ∃ row, app_map w2 !! dao_app_key completed_app = Some row ∧ a_state row = "Running".
Proof.
  apply (@stale_attempt_wins ideal_env ideal_laws sample_app completed_app sample_world);
    [reflexivity|apply sample_repo_wf|reflexivity|discriminate|exact sample_live].
Defined.

(** The application is stored as running; then the job brings it as completed,
    together with a new one. *)
Definition running_world : world := (@UpsertApplications ideal_env [sample_app] sample_world).2.

Definition new_app : ApplicationDAOInfo :=
  mkApplicationDAOInfo "app-2" None None None "default" "root.system" 7 None None None "Accepted" "bob" None "" None None false None 0.

Lemma running_repo_wf : @repo_wf ideal_env running_world.
Proof.
  eapply (@repo_wf_step ideal_env ideal_laws sample_world);
    [apply sample_repo_wf|exact (@step_UpsertApplications ideal_env sample_world _)].
Qed.

Lemma running_live : is_live (queue_map running_world) ("default", "root.system").
Proof.
  unfold running_world. rewrite UpsertApplications_queue_map. exact sample_live.
Qed.

Lemma UpsertApplications_stored_witness :
  ∃ w', @UpsertApplications ideal_env [completed_app; new_app] running_world = (Ok (), w') ∧
    (∀ a, a ∈ [completed_app; new_app] → ∃ q, queue_map running_world !! (AppPartition a, AppQueueName a) = Some q ∧
       app_row_after (app_map running_world) (app_map w') (q_id q) a) ∧
    (∀ k, k ∉ dao_app_key <$> [completed_app; new_app] → app_map w' !! k = app_map running_world !! k) ∧
    applications_only (w_db running_world) (w_db w').
Proof.
  apply (@UpsertApplications_stored ideal_env ideal_laws).
  - reflexivity.
  - apply running_repo_wf.
  - apply (bool_decide_unpack _). vm_compute. exact I.
  - repeat apply Forall_cons_2; try apply Forall_nil_2; (split; [discriminate|exact running_live]).
Defined.

(** When the reply arrives whole and no group name holds a quote,
    [GetAppsPerPartitionPerQueue] returns the page that the filters ask for of
    the applications of that partition and queue that match the filters,
    latest submission first. *)
Theorem GetAppsPerPartitionPerQueue_correct `{EnvLaws} partition queue f w :
  env_db (w_calls w) = Delivered → Forall (λ g, no_char "'"%char g = true) (FGroups f) →
  ∃ all,
    complete_answer (t_applications (w_db w))
      (λ r, a_queue_name r = queue ∧ a_partition r = partition ∧ matches f r) all ∧
    GetAppsPerPartitionPerQueue partition queue f w =
      (Ok (scan_app <$> page (FLimit f) (FOffset f) all), tick (w_db w) w).
Proof.
  intros Hd Hg. destruct (queue_applications_mean partition queue f Hg) as (Hc & Ho & Hl & Hoff).
  destruct (wp_query_applications _ _ w Hc Ho Hd) as (Hw & all & Hall & Hr).
  exists all. split; [done|]. unfold GetAppsPerPartitionPerQueue. rewrite <- Hl, <- Hoff, <- Hr, <- Hw.
  by destruct (query_applications _ w).
Qed.

Lemma GetAppsPerPartitionPerQueue_correct_witness :
  ∃ all,
    complete_answer (t_applications (w_db sample_world))
      (λ r, a_queue_name r = "root" ∧ a_partition r = "default" ∧ matches no_filters r) all ∧
    @GetAppsPerPartitionPerQueue ideal_env "default" "root" no_filters sample_world =
      (Ok (scan_app <$> page (FLimit no_filters) (FOffset no_filters) all), tick (w_db sample_world) sample_world).
Proof.
  apply (@GetAppsPerPartitionPerQueue_correct ideal_env ideal_laws); [reflexivity|apply Forall_nil_2].
Defined.

(** [GetAllApplications] likewise, over all partitions and queues. *)
Theorem GetAllApplications_correct `{EnvLaws} f w :
  env_db (w_calls w) = Delivered → Forall (λ g, no_char "'"%char g = true) (FGroups f) →
  ∃ all, complete_answer (t_applications (w_db w)) (matches f) all ∧
    GetAllApplications f w = (Ok (scan_app <$> page (FLimit f) (FOffset f) all), tick (w_db w) w).
Proof.
  intros Hd Hg. destruct (all_applications_mean f Hg) as (Hc & Ho & Hl & Hoff).
  destruct (wp_query_applications _ _ w Hc Ho Hd) as (Hw & all & Hall & Hr).
  exists all. split; [done|]. unfold GetAllApplications. rewrite <- Hl, <- Hoff, <- Hr, <- Hw.
  by destruct (query_applications _ w).
Qed.

Lemma GetAllApplications_correct_witness :
  ∃ all, complete_answer (t_applications (w_db sample_world)) (matches no_filters) all ∧
    @GetAllApplications ideal_env no_filters sample_world =
      (Ok (scan_app <$> page (FLimit no_filters) (FOffset no_filters) all), tick (w_db sample_world) sample_world).
Proof. apply (@GetAllApplications_correct ideal_env ideal_laws); [reflexivity|apply Forall_nil_2]. Defined.

(** A group name becomes part of the statement as it is: when a quote in it ends
    the literal, the answer is whatever the server makes of the text. *)
Definition groups_only (g : string) : ApplicationFilters := mkApplicationFilters None None None None None [g] None None.

Lemma answer_select_group `{Env} partition queue g n d :
  SqlSpec.array_literals ("'" +:+ g +:+ "'") = None →
  answer_select (queue_applications_calls partition queue (groups_only g)) n d =
    env_sql n ("SELECT * FROM applications WHERE queue_name = $1 AND partition = $2 AND groups && ARRAY['" +:+ g +:+
               "'] ORDER BY submission_time DESC") [AnyString queue; AnyString partition] d.
Proof.
  intros Hg. assert (eval_cond (SqlSpec.CondText
    (Sprintf "groups && ARRAY[%s]" [AnyString (Sql.SliceToCommaSeparated [g] true)])) = None) as Hc.
  { cbn [eval_cond]. rewrite group_literals_text.
    change (Sql.SliceToCommaSeparated [g] true) with ("'" +:+ g +:+ "'"). by rewrite Hg. }
  unfold answer_select, select_rows. rewrite spec_calls_conds. unfold queue_applications_calls, applyApplicationFilters.
  rewrite bool_decide_true by (cbn; lia). cbn [FGroups groups_only].
  cbn -[eval_cond Sprintf Sql.SliceToCommaSeparated Sql.calls].
  rewrite Hc. set (text := Sql.Query _).
  assert (text = "SELECT * FROM applications WHERE queue_name = $1 AND partition = $2 AND groups && ARRAY['" +:+
    (((g +:+ "'") +:+ "]") +:+ " ORDER BY submission_time DESC")) as -> by (clear; reflexivity).
  by rewrite <- !string_app_assoc.
Qed.

Theorem group_is_sql `{Env} partition queue g w :
  env_db (w_calls w) = Delivered → SqlSpec.array_literals ("'" +:+ g +:+ "'") = None →
  (GetAppsPerPartitionPerQueue partition queue (groups_only g) w).1 =
    match env_sql (w_calls w)
            ("SELECT * FROM applications WHERE queue_name = $1 AND partition = $2 AND groups && ARRAY['" +:+ g +:+
             "'] ORDER BY submission_time DESC") [AnyString queue; AnyString partition] (w_db w) with
    | Ok rows => Ok (scan_app <$> rows)
    | Err e => Err (ErrPrefix "could not get applications from DB: " e)
    end.
Proof.
  intros Hd Hg. unfold GetAppsPerPartitionPerQueue, query_applications. rewrite run_bind, run_map_err, run_bind.
  cbn -[answer_select]. rewrite Hd. cbn -[answer_select]. rewrite (answer_select_group partition queue g) by done.
  by destruct (env_sql _ _ _ _).
Qed.

(** A server that reads the statement up to the comment sign: the applications of
    all queues and partitions are returned. *)
Definition injected_group : string := "x'] OR TRUE --".

Definition reading_env : Env := {|
  env_uuid := @env_uuid ideal_env;
  env_now := @env_now ideal_env;
  env_db := @env_db ideal_env;
  env_scan := @env_scan ideal_env;
  env_sql := λ _ text _ d,
    if decide (text = "SELECT * FROM applications WHERE queue_name = $1 AND partition = $2 AND groups && ARRAY['x'] OR TRUE --'] ORDER BY submission_time DESC")
    then Ok (t_applications d) else Err (ErrMsg "syntax error");
|}.

Lemma group_is_sql_witness :
  let w := (@UpsertApplications ideal_env [sample_app] sample_world).2 in
  (@GetAppsPerPartitionPerQueue reading_env "other" "root.other" (groups_only injected_group) w).1 =
    Ok (scan_app <$> t_applications (w_db w)) ∧ t_applications (w_db w) ≠ [].
Proof.
  cbv zeta. split; [|vm_compute; discriminate].
  rewrite (@group_is_sql reading_env "other" "root.other" injected_group); [|reflexivity|reflexivity].
  unfold env_sql at 1, reading_env. by rewrite decide_True.
Defined.
