(* ===== verification/WorkQueue.v ===== *)
(** * The work queue

    Models [internal/workqueue/workqueue.go].  [executeWithRetry] is a function
    over the outcomes of the attempts.  The concurrent part is a step relation:
    any number of callers of [Add] and [Shutdown], the loop of [Run] and the
    goroutines that execute jobs interleave at the granularity of their reads
    and writes of the shared fields, the mutex and the channel. *)
From S2P Require Import Prelude.

Section job.
Context {Job : Type}.

(** ** Retrying *)
Definition Second : Z := 1000000000.
Definition maxBackoff : Z := 5 * 60 * Second.
Definition maxRetries : Z := 20.
Definition initialDelay : Z := 1 * Second.

(** The update of [backoff] after a failed attempt; a Duration has 64 bits. *)
Definition next_backoff (delay0 backoff : Z) : Z :=
  if bool_decide (backoff = 0) then delay0
  else if bool_decide (backoff < maxBackoff) then wrap64 (backoff * 2)
  else backoff.

Inductive exit := Succeeded | Cancelled.

(** What the loop logs for an attempt. *)
Record attempt := mkAttempt {
  waited : Z;
  retryCount : Z;
  max_retries_logged : bool;
}.

(** The loop of [executeWithRetry]: [done i] tells whether the select of
    iteration [i] takes the branch of [ctx.Done()], [outcome i] whether attempt
    [i] returns nil.  [None]: more than [fuel] iterations. *)
Fixpoint retry_loop (fuel : nat) (delay0 : Z) (done outcome : nat → bool) (i : nat)
    (backoff retries : Z) : option (list attempt * exit) :=
  match fuel with
  | O => None
  | S fuel' =>
      if done i then Some ([], Cancelled)
      else
        let a := mkAttempt backoff retries (bool_decide (maxRetries < retries)) in
        if outcome i then Some ([a], Succeeded)
        else p ← retry_loop fuel' delay0 done outcome (S i) (next_backoff delay0 backoff) (wrap64 (retries + 1));
             Some (a :: p.1, p.2)
  end.

Definition executeWithRetry (fuel : nat) (delay0 : Z) (done outcome : nat → bool) :
    option (list attempt * exit) := retry_loop fuel delay0 done outcome 0 0 0.

(** ** Jobs and options *)

(** [item]; the identifiers are those of [uuid.New]. *)
Record item := mkItem {
  item_id : string;
  item_name : string;
  item_job : Job;
}.

Definition JobOption : Type := item → item.

Definition WithJobName (name : string) : JobOption := λ i, mkItem (item_id i) name (item_job i).

Definition newItem (uuid : string) (job : Job) (opts : list JobOption) : item :=
  foldl (λ i opt, opt i) (mkItem uuid "" job) opts.

(** ** The shared state *)

(** Where the goroutine of [Run] is: before its start, at the select, between
    the receive and [pop], in the branch of [ctx.Done()], in [Shutdown] after
    the test of [started], or returned. *)
Inductive run_phase :=
| NotRunning
| Selecting
| Popping
| Stopping
| ShuttingDown
| Returned.

#[export] Instance run_phase_eq_dec : EqDecision run_phase.
Proof. solve_decision. Defined.

(** The fields that the options set; they do not change afterwards. *)
Record wq_conf := mkConf {
  wq_name : string;
  wq_initialDelay : Z;
  wq_gracePeriod : Z;
}.

Record WorkQueue := mkWorkQueue {
  conf : wq_conf;
  queue : list item;
  started : bool;
  running : Z;
  signal_closed : bool;
  ctx_done : bool;
  jobctx_done : bool;
  phase : run_phase;
  (* goroutines in Add: after the test of started, and blocked on the channel *)
  adding : list (Job * list JobOption);
  sending : list item;
  (* goroutines in Shutdown after the test of started *)
  shutting : nat;
  (* goroutines of executeWithRetry: not yet counted, and counted *)
  spawned : list item;
  active : list item;
  (* a send on, or a close of, the closed channel *)
  panicked : bool;
  (* history: jobs appended to the queue and jobs popped, in order *)
  added : list item;
  dispatched : list item;
}.

(** An option sets one of those fields. *)
Definition Option_ : Type := wq_conf → wq_conf.

Definition WithName (name : string) : Option_ := λ wq, mkConf name (wq_initialDelay wq) (wq_gracePeriod wq).

Definition WithInitialDelay (delay : Z) : Option_ := λ wq, mkConf (wq_name wq) delay (wq_gracePeriod wq).

Definition WithGracefulShutdown (gracePeriod : Z) : Option_ := λ wq,
  mkConf (wq_name wq) (wq_initialDelay wq) gracePeriod.

Definition NewWorkQueue (opts : list Option_) : WorkQueue :=
  let c := foldl (λ wq opt, opt wq) (mkConf "" initialDelay 0) opts in
  mkWorkQueue c [] false 0 false false false NotRunning [] [] 0 [] [] false [] [].

(** [Shutdown] after its test: [started] is cleared, the context cancelled and
    the channel closed; closing it twice panics.  The three statements are one
    step: what another goroutine does between them it can also do before or after
    all three. *)
Definition do_shutdown (ph : run_phase) (n : nat) (jobctx : bool) (w : WorkQueue) : WorkQueue :=
  mkWorkQueue (conf w) (queue w) false (running w) true true jobctx ph (adding w) (sending w) n (spawned w)
    (active w) (panicked w || signal_closed w) (added w) (dispatched w).

Definition set_phase (ph : run_phase) (w : WorkQueue) : WorkQueue :=
  mkWorkQueue (conf w) (queue w) (started w) (running w) (signal_closed w) (ctx_done w) (jobctx_done w) ph
    (adding w) (sending w) (shutting w) (spawned w) (active w) (panicked w) (added w) (dispatched w).

Definition set_adders (adding' : list (Job * list JobOption)) (sending' : list item) (w : WorkQueue) : WorkQueue :=
  mkWorkQueue (conf w) (queue w) (started w) (running w) (signal_closed w) (ctx_done w) (jobctx_done w)
    (phase w) adding' sending' (shutting w) (spawned w) (active w) (panicked w) (added w) (dispatched w).

(** The critical section of [Add]. *)
Definition append_job (i : item) (w : WorkQueue) : WorkQueue :=
  mkWorkQueue (conf w) (queue w ++ [i]) (started w) (running w) (signal_closed w) (ctx_done w) (jobctx_done w)
    (phase w) (adding w) (sending w) (shutting w) (spawned w) (active w) (panicked w)
    (added w ++ [i]) (dispatched w).

(** [pop]; the history records the item that leaves. *)
Definition pop (w : WorkQueue) : option item * WorkQueue :=
  match queue w with
  | [] => (None, w)
  | f :: q => (Some f,
      mkWorkQueue (conf w) q (started w) (running w) (signal_closed w) (ctx_done w) (jobctx_done w) (phase w)
        (adding w) (sending w) (shutting w) (spawned w) (active w) (panicked w) (added w)
        (dispatched w ++ [f]))
  end.

Definition set_workers (spawned' active' : list item) (running' : Z) (w : WorkQueue) : WorkQueue :=
  mkWorkQueue (conf w) (queue w) (started w) running' (signal_closed w) (ctx_done w) (jobctx_done w) (phase w)
    (adding w) (sending w) (shutting w) spawned' active' (panicked w) (added w) (dispatched w).

Definition set_ctx_done (w : WorkQueue) : WorkQueue :=
  mkWorkQueue (conf w) (queue w) (started w) (running w) (signal_closed w) true (jobctx_done w) (phase w)
    (adding w) (sending w) (shutting w) (spawned w) (active w) (panicked w) (added w) (dispatched w).

Definition set_shutting (n : nat) (w : WorkQueue) : WorkQueue :=
  mkWorkQueue (conf w) (queue w) (started w) (running w) (signal_closed w) (ctx_done w) (jobctx_done w)
    (phase w) (adding w) (sending w) n (spawned w) (active w) (panicked w) (added w) (dispatched w).

(** [Run] up to its loop: both contexts are derived and [started] is set. *)
Definition start (w : WorkQueue) : WorkQueue :=
  mkWorkQueue (conf w) (queue w) true (running w) (signal_closed w) (ctx_done w) (jobctx_done w) Selecting
    (adding w) (sending w) (shutting w) (spawned w) (active w) (panicked w) (added w) (dispatched w).

(** [Run] returns: its deferred calls cancel both contexts. *)
Definition return_run (w : WorkQueue) : WorkQueue :=
  mkWorkQueue (conf w) (queue w) (started w) (running w) (signal_closed w) true true Returned
    (adding w) (sending w) (shutting w) (spawned w) (active w) (panicked w) (added w) (dispatched w).

Definition panic (w : WorkQueue) : WorkQueue :=
  mkWorkQueue (conf w) (queue w) (started w) (running w) (signal_closed w) (ctx_done w) (jobctx_done w)
    (phase w) (adding w) (sending w) (shutting w) (spawned w) (active w) true (added w) (dispatched w).

Definition Started (w : WorkQueue) : bool := started w.

(** ** Steps

    Each step belongs to a goroutine: one that calls [Add] and tests [started],
    one that is inside [Add] after the test, the one of [Run], a caller of
    [Shutdown], one of [executeWithRetry], or whoever cancels the context given
    to [Run]. *)
Inductive actor :=
| EnterAdd
| ByAdd
| ByRun
| ByShutdown
| ByWorker
| ByContext.

#[export] Instance actor_eq_dec : EqDecision actor.
Proof. solve_decision. Defined.

Inductive step : actor → WorkQueue → WorkQueue → Prop :=
(* Add *)
| Add_not_started w : started w = false → step EnterAdd w w
| Add_test w job opts : started w = true → step EnterAdd w (set_adders ((job, opts) :: adding w) (sending w) w)
| Add_append w l1 job opts l2 uuid :
    adding w = l1 ++ (job, opts) :: l2 →
    step ByAdd w (set_adders (l1 ++ l2) (newItem uuid job opts :: sending w) (append_job (newItem uuid job opts) w))
| Add_panic w i : i ∈ sending w → signal_closed w = true → step ByAdd w (panic w)
(* Run *)
| Run_start w : phase w = NotRunning → step ByRun w (start w)
| Run_receive w l1 i l2 :
    phase w = Selecting → signal_closed w = false → sending w = l1 ++ i :: l2 →
    step ByRun w (set_phase Popping (set_adders (adding w) (l1 ++ l2) w))
| Run_receive_closed w : phase w = Selecting → signal_closed w = true → step ByRun w (set_phase Popping w)
| Run_dispatch w i w' :
    phase w = Popping → pop w = (Some i, w') →
    step ByRun w (set_phase Selecting (set_workers (i :: spawned w') (active w') (running w') w'))
| Run_empty w w' : phase w = Popping → pop w = (None, w') → step ByRun w (set_phase Selecting w')
| Run_done w : phase w = Selecting → ctx_done w = true → step ByRun w (set_phase Stopping w)
| Run_shutdown_test w : phase w = Stopping → started w = true → step ByRun w (set_phase ShuttingDown w)
| Run_shutdown_skip w : phase w = Stopping → started w = false → step ByRun w (return_run w)
| Run_shutdown w : phase w = ShuttingDown → step ByRun w (do_shutdown Returned (shutting w) true w)
(* the context given to Run is cancelled *)
| Cancel w : step ByContext w (set_ctx_done w)
(* Shutdown *)
| Shutdown_skip w : started w = false → step ByShutdown w w
| Shutdown_test w : started w = true → step ByShutdown w (set_shutting (S (shutting w)) w)
| Shutdown_act w n : shutting w = S n → step ByShutdown w (do_shutdown (phase w) n (jobctx_done w) w)
(* executeWithRetry *)
| Worker_start w l1 i l2 :
    spawned w = l1 ++ i :: l2 →
    step ByWorker w (set_workers (l1 ++ l2) (i :: active w) (wrap32 (running w + 1)) w)
| Worker_end w l1 i l2 :
    active w = l1 ++ i :: l2 →
    step ByWorker w (set_workers (spawned w) (l1 ++ l2) (wrap32 (running w - 1)) w).

(** The process runs until a goroutine panics. *)
Inductive reachable : WorkQueue → Prop :=
| reachable_init opts : reachable (NewWorkQueue opts)
| reachable_step a w w' : reachable w → panicked w = false → step a w w' → reachable w'.

(** ** Invariants *)
Record wq_inv (w : WorkQueue) : Prop := {
  (* jobs leave the queue in the order they entered it *)
  inv_fifo : added w = dispatched w ++ queue w;
  (* every queued job has its signal: a blocked sender or the one just received *)
  inv_signal : signal_closed w = false →
    length (queue w) = (length (sending w) + if decide (phase w = Popping) then 1 else 0)%nat;
  inv_running : running w = wrap32 (Z.of_nat (length (active w)));
  inv_not_started : phase w = NotRunning →
    started w = false ∧ signal_closed w = false ∧ shutting w = 0%nat ∧ adding w = [] ∧ sending w = [];
  inv_closed : signal_closed w = true → started w = false ∧ ctx_done w = true;
  inv_panicked : panicked w = true → signal_closed w = true;
}.

Lemma wrap32_add a b : wrap32 (wrap32 a + b) = wrap32 (a + b).
Proof.
  unfold wrap. f_equal. change (2 ^ (32 - 1)) with 2147483648. change (2 ^ 32) with 4294967296.
  replace ((a + 2147483648) `mod` 4294967296 - 2147483648 + b + 2147483648)
    with ((a + 2147483648) `mod` 4294967296 + b) by lia.
  rewrite Z.add_mod_idemp_l by lia. f_equal. lia.
Qed.

Lemma wq_inv_init opts : wq_inv (NewWorkQueue opts).
Proof. split; done. Qed.

(** One step keeps the accounting; the six facts support each other. *)
Ltac wq_fields := cbn in *; rewrite ?length_app in *; cbn in *; repeat case_decide; simplify_eq; try done.

Lemma wq_inv_step a w w' : wq_inv w → panicked w = false → step a w w' → wq_inv w'.
Proof.
  intros [Hf Hs Hr Hn Hc Hp] Hok Hstep.
  destruct Hstep as [w Hst|w job opts Hst|w l1 job opts l2 u Ha|w j Hj Hcl|w Hph|w l1 j l2 Hph Hcl Hsend|w Hph Hcl
    |w j w' Hph Hpop|w w' Hph Hpop|w Hph Hd|w Hph Hst|w Hph Hst|w Hph|w|w Hst|w Hst|w n Hsh|w l1 j l2 Hsp
    |w l1 j l2 Hac]; try done.
  all: try (unfold pop in Hpop; destruct (queue w) as [|f q] eqn:Hq; simplify_eq).
  all: split; cbn in *; try done.
  all: try (intros Hnr; destruct (Hn Hnr) as (? & ? & ? & Had & ?); simplify_eq; try congruence;
            rewrite Had in *; by destruct l1).
  all: try (intros Hop; specialize (Hs Hop); rewrite ?Hph, ?Hsend, ?Hq in Hs; rewrite ?Hq; wq_fields; lia).
  all: rewrite ?Hf, <- ?app_assoc; try done.
  - destruct (Hn Hph) as (_ & ? & _). congruence.
  - congruence.
  - by rewrite Hq.
  - naive_solver.
  - rewrite Hr, wrap32_add. f_equal. lia.
  - rewrite Hr, Hac, length_app. unfold Z.sub. rewrite wrap32_add. f_equal. rewrite length_app. cbn. lia.
Qed.

Lemma reachable_inv w : reachable w → wq_inv w.
Proof. induction 1 as [opts|a w w' _ IH Hok Hstep]; [apply wq_inv_init|by eapply wq_inv_step]. Qed.

(** ** Backoff *)
Fixpoint backoff_seq (delay0 : Z) (n : nat) : Z :=
  match n with O => 0 | S n' => next_backoff delay0 (backoff_seq delay0 n') end.

Lemma next_backoff_bounds delay0 b :
  0 < delay0 < 2 * maxBackoff → 0 ≤ b < 2 * maxBackoff →
  0 < next_backoff delay0 b < 2 * maxBackoff ∧ b ≤ next_backoff delay0 b.
Proof.
  unfold next_backoff, maxBackoff, Second. intros Hd Hb. repeat case_bool_decide; [lia| |lia].
  rewrite wrap_id; lia.
Qed.

Lemma backoff_seq_bounds delay0 n :
  0 < delay0 < 2 * maxBackoff →
  0 ≤ backoff_seq delay0 n < 2 * maxBackoff ∧ backoff_seq delay0 n ≤ backoff_seq delay0 (S n).
Proof.
  intros Hd. assert (0 ≤ backoff_seq delay0 n < 2 * maxBackoff) as Hb.
  { induction n as [|n IH]; [cbn; unfold maxBackoff, Second; lia|]. cbn [backoff_seq].
    destruct (next_backoff_bounds delay0 _ Hd IH). lia. }
  split; [done|]. cbn [backoff_seq]. by apply next_backoff_bounds.
Qed.

(** The waits of the first attempts. *)
Definition attempts (delay0 : Z) (i n : nat) : list attempt :=
  (λ k, mkAttempt (backoff_seq delay0 k) (Z.of_nat k) (bool_decide (maxRetries < Z.of_nat k))) <$> seq i n.

(** Failed attempts, one after the other. *)
Lemma retry_loop_failures fuel delay0 done outcome i n :
  Z.of_nat (i + n) < 2 ^ 63 →
  (∀ k, (k < n)%nat → done (i + k)%nat = false ∧ outcome (i + k)%nat = false) →
  retry_loop (n + fuel) delay0 done outcome i (backoff_seq delay0 i) (Z.of_nat i) =
  (λ p, (attempts delay0 i n ++ p.1, p.2)) <$>
    retry_loop fuel delay0 done outcome (i + n) (backoff_seq delay0 (i + n)) (Z.of_nat (i + n)).
Proof.
  revert i. induction n as [|n IH]; intros i Hrange Hk.
  - rewrite Nat.add_0_r. cbn [Nat.add]. destruct (retry_loop _ _ _ _ _ _ _) as [[]|]; done.
  - cbn [Nat.add retry_loop]. destruct (Hk 0%nat ltac:(lia)) as [Hd0 Hf0].
    rewrite Nat.add_0_r in Hd0, Hf0. rewrite Hd0, Hf0.
    change (next_backoff delay0 (backoff_seq delay0 i)) with (backoff_seq delay0 (S i)).
    rewrite wrap_id by lia. replace (Z.of_nat i + 1) with (Z.of_nat (S i)) by lia.
    rewrite IH; [|lia|intros k Hk'; rewrite Nat.add_succ_comm; apply Hk; lia].
    rewrite Nat.add_succ_comm. by destruct (retry_loop _ _ _ _ _ _ _) as [[]|].
Qed.

Lemma retry_loop_from_start fuel delay0 done outcome n :
  (n < fuel)%nat → Z.of_nat n < 2 ^ 63 → (∀ k, (k < n)%nat → done k = false ∧ outcome k = false) →
  ∃ f, executeWithRetry fuel delay0 done outcome =
    (λ p, (attempts delay0 0 n ++ p.1, p.2)) <$>
      retry_loop (S f) delay0 done outcome n (backoff_seq delay0 n) (Z.of_nat n).
Proof.
  intros Hfuel Hn Hk. exists (fuel - S n)%nat. unfold executeWithRetry.
  replace fuel with (n + S (fuel - S n))%nat at 1 by lia. by apply (retry_loop_failures _ _ _ _ 0).
Qed.

(** ** Theorems *)

(** C6.  In every reachable state of the work queue: jobs are dispatched in the
    order in which they were added, none twice and none skipped; while the
    channel is open the queued jobs are as many as the callers of [Add] still
    blocked on it, plus one while [Run] is about to pop; and [running] is the
    number of goroutines executing jobs. *)
Theorem workqueue_accounting w :
  reachable w →
  added w = dispatched w ++ queue w ∧
  (signal_closed w = false →
     length (queue w) = (length (sending w) + if decide (phase w = Popping) then 1 else 0)%nat) ∧
  running w = wrap32 (Z.of_nat (length (active w))) ∧
  (panicked w = true → signal_closed w = true) ∧ (signal_closed w = true → started w = false).
Proof. intros Hw. destruct (reachable_inv w Hw) as [Hf Hs Hr _ Hc Hp]. naive_solver. Qed.

(** C22.  No job is stuck: while the channel is open and [Run] is at its select,
    a non-empty queue means that a signal is waiting, and receiving it
    dispatches the oldest job. *)
Theorem workqueue_progress w :
  reachable w → panicked w = false → signal_closed w = false → phase w = Selecting → queue w ≠ [] →
  ∃ j w1 w2, step ByRun w w1 ∧ step ByRun w1 w2 ∧ reachable w2 ∧
    queue w = j :: queue w2 ∧ dispatched w2 = dispatched w ++ [j] ∧ phase w2 = Selecting.
Proof.
  intros Hw Hok Hcl Hph Hq. destruct (reachable_inv w Hw) as [_ Hs _ _ _ _]. specialize (Hs Hcl).
  rewrite Hph, decide_False in Hs by done.
  destruct (queue w) as [|j q] eqn:Hqe; [done|]. destruct (sending w) as [|j' l] eqn:Hse; [cbn in Hs; lia|].
  assert (step ByRun w (set_phase Popping (set_adders (adding w) ([] ++ l) w))) as H1 by (by eapply Run_receive).
  assert (∃ w2, step ByRun (set_phase Popping (set_adders (adding w) ([] ++ l) w)) w2 ∧
    queue w2 = q ∧ dispatched w2 = dispatched w ++ [j] ∧ phase w2 = Selecting) as (w2 & H2 & Hq2 & Hd2 & Hp2).
  { eexists. split; [eapply Run_dispatch; [done|]; unfold pop; cbn; by rewrite Hqe|done]. }
  exists j, (set_phase Popping (set_adders (adding w) ([] ++ l) w)), w2. split_and!; [exact H1|exact H2| |by rewrite Hq2|done|done].
  eapply reachable_step; [| |exact H2]; [by eapply reachable_step|done].
Qed.

(** C23.  A job that keeps failing is retried until it succeeds, however often:
    attempt [k] is preceded by the [k]-th backoff, passing [maxRetries] only
    changes what is logged, and the loop ends after its first success. *)
Theorem executeWithRetry_until_success fuel delay0 outcome n :
  (n < fuel)%nat → Z.of_nat n < 2 ^ 63 →
  (∀ k, (k < n)%nat → outcome k = false) → outcome n = true →
  executeWithRetry fuel delay0 (λ _, false) outcome = Some (attempts delay0 0 (S n), Succeeded).
Proof.
  intros Hf Hn Hfail Hok. destruct (retry_loop_from_start fuel delay0 (λ _, false) outcome n) as [f ->]; [done..|auto|].
  cbn [retry_loop]. rewrite Hok. unfold attempts. by rewrite seq_S, fmap_app.
Qed.

(** If the context of the jobs is cancelled before attempt [n] and no earlier
    attempt succeeded, the loop ends after [n] attempts. *)
Theorem executeWithRetry_cancelled fuel delay0 done outcome n :
  (n < fuel)%nat → Z.of_nat n < 2 ^ 63 →
  (∀ k, (k < n)%nat → done k = false ∧ outcome k = false) → done n = true →
  executeWithRetry fuel delay0 done outcome = Some (attempts delay0 0 n, Cancelled).
Proof.
  intros Hf Hn Hk Hd. destruct (retry_loop_from_start fuel delay0 done outcome n) as [f ->]; [done..|].
  cbn [retry_loop]. rewrite Hd. cbn. by rewrite app_nil_r.
Qed.

(** C24.  For an initial delay below twice [maxBackoff] the backoff never
    overflows, never shrinks and stays below twice [maxBackoff]. *)
Theorem backoff_bounded delay0 n :
  0 < delay0 < 2 * maxBackoff →
  0 ≤ backoff_seq delay0 n < 2 * maxBackoff ∧ backoff_seq delay0 n ≤ backoff_seq delay0 (S n).
Proof. apply backoff_seq_bounds. Qed.

(** The process can crash: a caller of [Add] that is still blocked on the
    channel when [Shutdown] closes it panics. *)
Theorem Add_panics_on_Shutdown (job : Job) opts :
  ∃ w uuid, reachable w ∧ added w = [newItem uuid job opts] ∧ dispatched w = [] ∧ panicked w = true.
Proof.
  set (i := newItem "" job opts).
  set (w1 := start (NewWorkQueue [])). set (w2 := set_adders [(job, opts)] [] w1).
  set (w3 := set_adders [] [i] (append_job i w2)). set (w4 := set_shutting 1 w3).
  set (w5 := do_shutdown Selecting 0 false w4). exists (panic w5), "". split; [|done].
  apply (reachable_step ByAdd w5); [|done|apply (Add_panic _ i); [apply list_elem_of_here|done]].
  apply (reachable_step ByShutdown w4); [|done|by apply (Shutdown_act w4 0)].
  apply (reachable_step ByShutdown w3); [|done|by apply Shutdown_test].
  apply (reachable_step ByAdd w2); [|done|by apply (Add_append w2 [] job opts [] "")].
  apply (reachable_step EnterAdd w1); [|done|by apply (Add_test w1 job opts)].
  apply (reachable_step ByRun (NewWorkQueue [])); [apply reachable_init|done|by apply Run_start].
Qed.

(** With the default initial delay the tenth retry already waits longer than
    [maxBackoff]: 512 seconds instead of 300. *)
Theorem backoff_exceeds_maxBackoff :
  backoff_seq initialDelay 10 = 512 * Second ∧ maxBackoff < backoff_seq initialDelay 10.
Proof. vm_compute. split; reflexivity. Qed.

End job.

(** ** Instances *)

(** A started queue with one caller blocked in [Add]. *)
Definition sample_item : item := newItem "id" 7%nat [WithJobName "upsert"].

Definition sample_adding : WorkQueue (Job := nat) :=
  set_adders [(7%nat, [WithJobName "upsert"])] [] (start (NewWorkQueue [WithName "sync"])).

Definition sample_queue_state : WorkQueue (Job := nat) :=
  set_adders [] [sample_item] (append_job sample_item sample_adding).

Lemma sample_queue_reachable : reachable sample_queue_state.
Proof.
  apply (reachable_step ByAdd sample_adding);
    [|done|by apply (Add_append sample_adding [] 7%nat [WithJobName "upsert"] [] "id")].
  apply (reachable_step EnterAdd (start (NewWorkQueue [WithName "sync"])));
    [|done|by apply (Add_test (start (NewWorkQueue [WithName "sync"])) 7%nat)].
  apply (reachable_step ByRun (NewWorkQueue [WithName "sync"])); [apply reachable_init|done|by apply Run_start].
Qed.

Lemma workqueue_accounting_witness :
  added sample_queue_state = dispatched sample_queue_state ++ queue sample_queue_state.
Proof. apply (workqueue_accounting sample_queue_state). apply sample_queue_reachable. Defined.

Lemma workqueue_progress_witness :
  ∃ j w1 w2, step ByRun sample_queue_state w1 ∧ step ByRun w1 w2 ∧ reachable w2 ∧
    queue sample_queue_state = j :: queue w2 ∧ dispatched w2 = dispatched sample_queue_state ++ [j] ∧
    phase w2 = Selecting.
Proof.
  apply (workqueue_progress sample_queue_state sample_queue_reachable); [reflexivity|reflexivity|reflexivity|discriminate].
Defined.

Lemma executeWithRetry_until_success_witness :
  executeWithRetry 30 initialDelay (λ _, false) (λ k, bool_decide (k = 25)%nat)
    = Some (attempts initialDelay 0 26, Succeeded).
Proof.
  apply (executeWithRetry_until_success 30 initialDelay (λ k, bool_decide (k = 25)%nat) 25).
  - lia.
  - lia.
  - intros k Hk. apply bool_decide_eq_false. lia.
  - reflexivity.
Defined.

Lemma executeWithRetry_cancelled_witness :
  executeWithRetry 5 initialDelay (λ k, bool_decide (3 ≤ k)%nat) (λ _, false)
    = Some (attempts initialDelay 0 3, Cancelled).
Proof.
  apply (executeWithRetry_cancelled 5 initialDelay (λ k, bool_decide (3 ≤ k)%nat) (λ _, false) 3).
  - lia.
  - lia.
  - intros k Hk. split; [apply bool_decide_eq_false; lia|reflexivity].
  - reflexivity.
Defined.

Lemma backoff_bounded_witness :
  0 ≤ backoff_seq initialDelay 5 < 2 * maxBackoff ∧ backoff_seq initialDelay 5 ≤ backoff_seq initialDelay 6.
Proof. apply (backoff_bounded initialDelay 5). unfold initialDelay, maxBackoff, Second. lia. Defined.
