(* ===== verification/Sync.v ===== *)
(** * Synchronising with the scheduler

    Models [sync] and the functions it starts in [internal/yunikorn/sync.go].
    The scheduler is the class [Client]: what each request returns.  A run of
    [sync] yields an error or nil and the jobs it hands to the work queue; the
    goroutines started per partition and per queue finish in some order, given
    as a permutation of the list.  The three goroutines that assign the outer
    variable [err] are modelled as interleaved reads and writes of it. *)
From S2P Require Import Prelude GoStrings Dao FlattenQueues.

(** [yunikorn.Client], as far as [sync] uses it. *)
Class Client := {
  c_GetPartitions : result (list PartitionInfo);
  c_GetPartitionQueues : string → result PartitionQueueDAOInfo;
  c_GetPartitionNodes : string → result (list NodeDAOInfo);
  c_GetApplications : string → string → result (list ApplicationDAOInfo);
  c_GetNodeUtil : result (list PartitionNodesUtilDAOInfo);
  c_GetAppsHistory : result (list ApplicationHistoryDAOInfo);
  c_GetContainersHistory : result (list ContainerHistoryDAOInfo);
}.

(** The jobs, each a call of one repository method. *)
Inductive sync_job :=
| JobUpsertPartitions (partitions : list PartitionInfo)
| JobUpsertQueues (queues : list PartitionQueueDAOInfo)
| JobUpsertNodes (nodes : list NodeDAOInfo) (partition : string)
| JobUpsertApplications (apps : list ApplicationDAOInfo)
| JobInsertNodeUtilizations (nus : list PartitionNodesUtilDAOInfo)
| JobUpdateHistory (apps : list ApplicationHistoryDAOInfo) (containers : list ContainerHistoryDAOInfo).

(** [s.workqueue.Add]: an error is only logged. *)
Definition add_job (wq_started : bool) (j : sync_job) : list sync_job := if wq_started then [j] else [].

(** The goroutines of one loop, in the order in which they take the mutex. *)
Fixpoint collect {A B} (f : A → error + B) (order : list A) : list error * list B :=
  match order with
  | [] => ([], [])
  | x :: order' =>
      let '(errs, oks) := collect f order' in
      match f x with inl e => (e :: errs, oks) | inr b => (errs, b :: oks) end
  end.

Section sync.
Context `{Client} (wq_started : bool).

Definition upsertPartitions : result (list PartitionInfo) * list sync_job :=
  match c_GetPartitions with
  | Err e => (Err (ErrPrefix "could not get partitions: " e), [])
  | Ok partitions => (Ok partitions, add_job wq_started (JobUpsertPartitions partitions))
  end.

Definition fetch_queues (p : PartitionInfo) : error + PartitionQueueDAOInfo :=
  match c_GetPartitionQueues (PName p) with
  | Err e => inl (ErrPrefix ("could not get queues for partition " +:+ PName p +:+ ": ") e)
  | Ok q => inr q
  end.

(** [order]: the partitions in the order in which their goroutines finish. *)
Definition upsertPartitionQueues (order : list PartitionInfo) :
    result (list PartitionQueueDAOInfo) * list sync_job :=
  let '(errs, queues) := collect fetch_queues order in
  if decide (0 < length errs)%nat
  then (Err (ErrPrefixes "failed to get queues for some partitions: " errs), [])
  else let queues := flattenQueues queues in (Ok queues, add_job wq_started (JobUpsertQueues queues)).

Definition fetch_nodes (p : PartitionInfo) : error + list sync_job :=
  match c_GetPartitionNodes (PName p) with
  | Err e => inl (ErrPrefix ("could not get nodes for partition " +:+ PName p +:+ ": ") e)
  | Ok nodes => inr (add_job wq_started (JobUpsertNodes nodes (PName p)))
  end.

Definition upsertPartitionNodes (order : list PartitionInfo) : result () * list sync_job :=
  let '(errs, jobs) := collect fetch_nodes order in
  (if decide (0 < length errs)%nat
   then Err (ErrPrefixes "failed to get nodes for some partitions: " errs) else Ok (), concat jobs).

Definition fetch_apps (q : PartitionQueueDAOInfo) : error + list ApplicationDAOInfo :=
  match c_GetApplications (Partition q) (QueueName q) with
  | Err e => inl (ErrPrefix ("could not get applications for partition " +:+ Partition q +:+ ", queue "
                             +:+ QueueName q +:+ ": ") e)
  | Ok apps => inr apps
  end.

Definition upsertApplications (order : list PartitionQueueDAOInfo) : result () * list sync_job :=
  let '(errs, apps) := collect fetch_apps order in
  if decide (0 < length errs)%nat
  then (Err (ErrPrefixes "failed to get applications for some queues: " errs), [])
  else (Ok (), add_job wq_started (JobUpsertApplications (concat apps))).

Definition upsertNodeUtilizations : result () * list sync_job :=
  match c_GetNodeUtil with
  | Err e => (Err (ErrPrefix "could not get node utilizations: " e), [])
  | Ok nus => (Ok (), add_job wq_started (JobInsertNodeUtilizations nus))
  end.

Definition updateAppsHistory : result () * list sync_job :=
  match c_GetAppsHistory with
  | Err e => (Err (ErrPrefix "could not get apps history: " e), [])
  | Ok appsHistory =>
      match c_GetContainersHistory with
      | Err e => (Err (ErrPrefix "could not get containers history: " e), [])
      | Ok containersHistory => (Ok (), add_job wq_started (JobUpdateHistory appsHistory containersHistory))
      end
  end.

(** The first goroutine: queues, then applications; its [err] is its own. *)
Definition queues_goroutine (porder : list PartitionInfo)
    (qorder : list PartitionQueueDAOInfo → list PartitionQueueDAOInfo) : list error * list sync_job :=
  match upsertPartitionQueues porder with
  | (Err e, jobs) => ([ErrPrefix "error getting and upserting queues: " e], jobs)
  | (Ok queues, jobs) =>
      match upsertApplications (qorder queues) with
      | (Err e, jobs') => ([ErrPrefix "error getting and upserting applications: " e], jobs ++ jobs')
      | (Ok _, jobs') => ([], jobs ++ jobs')
      end
  end.

End sync.

(** ** The goroutines that share [err]

    [if err = f(); err != nil { addErr(fmt.Errorf(prefix, err)) }]: the variable
    is written, then read twice, with no lock. *)
Inductive pc :=
| Calling (r : result ()) (prefix : string)
| Testing (prefix : string)
| Reporting (prefix : string)
| Finished.

Record race := mkRace {
  shared_err : option error;
  threads : list pc;
  allErrs : list error;
}.

Definition to_err (r : result ()) : option error := match r with Ok _ => None | Err e => Some e end.

(** [fmt.Errorf("prefix%v", err)], also for a nil [err]. *)
Definition errorf (prefix : string) (e : option error) : error :=
  match e with Some e => ErrPrefix prefix e | None => ErrMsg (prefix +:+ "<nil>") end.

Inductive race_step : race → race → Prop :=
| race_write e l1 r p l2 errs :
    race_step (mkRace e (l1 ++ Calling r p :: l2) errs) (mkRace (to_err r) (l1 ++ Testing p :: l2) errs)
| race_nil l1 p l2 errs :
    race_step (mkRace None (l1 ++ Testing p :: l2) errs) (mkRace None (l1 ++ Finished :: l2) errs)
| race_not_nil e l1 p l2 errs :
    race_step (mkRace (Some e) (l1 ++ Testing p :: l2) errs) (mkRace (Some e) (l1 ++ Reporting p :: l2) errs)
| race_report e l1 p l2 errs :
    race_step (mkRace e (l1 ++ Reporting p :: l2) errs)
      (mkRace e (l1 ++ Finished :: l2) (errs ++ [errorf p e])).

Definition race_start (rs : list (result () * string)) (errs : list error) : race :=
  mkRace None ((λ rp, Calling rp.1 rp.2) <$> rs) errs.

(** [wg.Wait()] returns. *)
Definition race_end (s : race) : Prop := Forall (λ t, t = Finished) (threads s).

Section whole.
Context `{Client} (wq_started : bool).

(** A run of [sync]: the first goroutine reports [errs1], the other three race. *)
Inductive sync : option error → list sync_job → Prop :=
| sync_no_partitions e jobs :
    upsertPartitions wq_started = (Err e, jobs) →
    sync (Some (ErrPrefix "error getting and upserting partitions: " e)) jobs
| sync_done partitions jobs0 porder norder qorder errs1 jobs1 r2 jobs2 r3 jobs3 r4 jobs4 s all jobs :
    upsertPartitions wq_started = (Ok partitions, jobs0) →
    porder ≡ₚ partitions → norder ≡ₚ partitions → (∀ l, qorder l ≡ₚ l) →
    queues_goroutine wq_started porder qorder = (errs1, jobs1) →
    upsertPartitionNodes wq_started norder = (r2, jobs2) →
    upsertNodeUtilizations wq_started = (r3, jobs3) →
    updateAppsHistory wq_started = (r4, jobs4) →
    rtc race_step
      (race_start [(r2, "error getting and upserting nodes: ");
                   (r3, "error getting and upserting node utilizations: ");
                   (r4, "error updating apps history: ")] []) s →
    race_end s →
    all ≡ₚ errs1 ++ allErrs s → interleaving [jobs1; jobs2; jobs3; jobs4] jobs →
    sync (if decide (0 < length all)%nat
          then Some (ErrPrefixes "some errors encountered while syncing data: " all) else None)
         (jobs0 ++ jobs).

End whole.

(** ** Lemmas *)
Lemma collect_ok {A B} (f : A → error + B) (g : A → B) order :
  (∀ x, x ∈ order → f x = inr (g x)) → collect f order = ([], g <$> order).
Proof.
  induction order as [|x order IH]; intros Hf; [done|]. cbn. rewrite IH by set_solver. by rewrite Hf by set_solver.
Qed.

Lemma collect_err {A B} (f : A → error + B) order x e :
  x ∈ order → f x = inl e → (0 < length (collect f order).1)%nat.
Proof.
  intros Hx He. induction order as [|y order IH]; [set_solver|]. cbn.
  apply elem_of_cons in Hx as [<- |Hx]; destruct (collect f order) as [errs oks]; [rewrite He; cbn; lia|].
  specialize (IH Hx). destruct (f y); cbn in *; lia.
Qed.

Lemma collect_elem {A B} (f : A → error + B) order b :
  b ∈ (collect f order).2 → ∃ x, x ∈ order ∧ f x = inr b.
Proof.
  induction order as [|x order IH]; cbn; [set_solver|]. destruct (collect f order) as [errs oks].
  destruct (f x) as [e|b'] eqn:Hx; cbn in *.
  - intros Hb. destruct (IH Hb) as (y & ? & ?). exists y. set_solver.
  - intros [-> |Hb]%elem_of_cons; [exists x; set_solver|]. destruct (IH Hb) as (y & ? & ?). exists y. set_solver.
Qed.

(** Without an error there is nothing to report, whatever the schedule. *)
Definition race_quiet (s : race) : Prop :=
  shared_err s = None ∧ allErrs s = [] ∧
  Forall (λ t, match t with Calling r _ => r = Ok () | Reporting _ => False | _ => True end) (threads s).

Lemma race_quiet_step s s' : race_quiet s → race_step s s' → race_quiet s'.
Proof.
  intros (He & Ha & Ht) Hstep. destruct Hstep as [e l1 r p l2 errs|l1 p l2 errs|e l1 p l2 errs|e l1 p l2 errs];
    cbn in *; subst; rewrite Forall_app, Forall_cons in Ht; destruct Ht as (H1 & Hx & H2); try done.
  - subst r. split; [done|]. split; [done|]. cbn. by rewrite Forall_app, Forall_cons.
  - split; [done|]. split; [done|]. cbn. by rewrite Forall_app, Forall_cons.
Qed.

Lemma race_quiet_steps s s' : rtc race_step s s' → race_quiet s → race_quiet s'.
Proof. induction 1 as [|s s1 s2 Hstep _ IH]; [done|]. intros Hq. apply IH. by eapply race_quiet_step. Qed.

Lemma race_quiet_end rs s :
  Forall (λ rp, rp.1 = Ok ()) rs → rtc race_step (race_start rs []) s → allErrs s = [].
Proof.
  intros Hrs Hsteps. apply (race_quiet_steps _ _ Hsteps). split; [done|]. split; [done|]. cbn.
  rewrite Forall_fmap. exact Hrs.
Qed.

(** ** Theorems *)
Section theorems.
Context `{Client} (wq_started : bool).

(** What a scheduler that answers every request returns. *)
Record answers (partitions : list PartitionInfo) (queues : PartitionInfo → PartitionQueueDAOInfo)
    (nodes : PartitionInfo → list NodeDAOInfo) (apps : PartitionQueueDAOInfo → list ApplicationDAOInfo)
    (nus : list PartitionNodesUtilDAOInfo) (ah : list ApplicationHistoryDAOInfo)
    (ch : list ContainerHistoryDAOInfo) : Prop := {
  ans_partitions : c_GetPartitions = Ok partitions;
  ans_queues : ∀ p, p ∈ partitions → c_GetPartitionQueues (PName p) = Ok (queues p);
  ans_nodes : ∀ p, p ∈ partitions → c_GetPartitionNodes (PName p) = Ok (nodes p);
  ans_apps : ∀ q, q ∈ flattenQueues (queues <$> partitions) →
    c_GetApplications (Partition q) (QueueName q) = Ok (apps q);
  ans_util : c_GetNodeUtil = Ok nus;
  ans_ah : c_GetAppsHistory = Ok ah;
  ans_ch : c_GetContainersHistory = Ok ch;
}.

(** The jobs of a complete synchronisation, up to the order of the goroutines. *)
Definition complete_jobs partitions queues nodes apps nus ah ch (jobs : list sync_job) : Prop :=
  ∃ porder qorder rest,
    porder ≡ₚ partitions ∧ qorder ≡ₚ flattenQueues (queues <$> porder) ∧
    jobs = JobUpsertPartitions partitions :: rest ∧
    rest ≡ₚ JobUpsertQueues (flattenQueues (queues <$> porder)) ::
            JobUpsertApplications (concat (apps <$> qorder)) ::
            ((λ p : PartitionInfo, JobUpsertNodes (nodes p) (PName p)) <$> partitions) ++
            [JobInsertNodeUtilizations nus; JobUpdateHistory ah ch] ∧
    [JobUpsertQueues (flattenQueues (queues <$> porder)); JobUpsertApplications (concat (apps <$> qorder))]
      `sublist_of` rest.

Lemma flattenQueues_proper l1 l2 : l1 ≡ₚ l2 → flattenQueues l1 ≡ₚ flattenQueues l2.
Proof. intros Hl. unfold flattenQueues. by rewrite Hl. Qed.

Lemma queues_goroutine_ok partitions queues nodes apps nus ah ch porder qorder :
  answers partitions queues nodes apps nus ah ch → porder ≡ₚ partitions → (∀ l, qorder l ≡ₚ l) →
  queues_goroutine wq_started porder qorder =
    ([], add_job wq_started (JobUpsertQueues (flattenQueues (queues <$> porder))) ++
         add_job wq_started (JobUpsertApplications (concat (apps <$> qorder (flattenQueues (queues <$> porder)))))).
Proof.
  intros Ha Hp Hq. unfold queues_goroutine, upsertPartitionQueues.
  rewrite (collect_ok fetch_queues queues).
  2:{ intros p Hin. rewrite Hp in Hin. unfold fetch_queues. by rewrite (ans_queues _ _ _ _ _ _ _ Ha p Hin). }
  cbn [length]. rewrite decide_False by lia. unfold upsertApplications.
  rewrite (collect_ok fetch_apps apps).
  2:{ intros q Hin. rewrite Hq, (flattenQueues_proper _ (queues <$> partitions)) in Hin by (by rewrite Hp).
      unfold fetch_apps. by rewrite (ans_apps _ _ _ _ _ _ _ Ha q Hin). }
  cbn [length]. rewrite decide_False by lia. done.
Qed.

Lemma concat_add_job {A} (g : A → sync_job) l :
  concat ((λ p, add_job wq_started (g p)) <$> l) = if wq_started then g <$> l else [].
Proof.
  induction l as [|x l IH]; [by destruct wq_started|]. cbn. fold (fmap (M:=list) (λ p, add_job wq_started (g p))).
  rewrite IH. by destruct wq_started.
Qed.

Lemma sync_complete_run partitions queues nodes apps nus ah ch res jobs :
  answers partitions queues nodes apps nus ah ch → sync wq_started res jobs →
  res = None ∧
  if wq_started then complete_jobs partitions queues nodes apps nus ah ch jobs else jobs = [].
Proof.
  intros Ha Hsync. destruct Hsync as [e jobs Hp|ps jobs0 porder norder qorder errs1 jobs1 r2 jobs2 r3 jobs3 r4 jobs4
    s all jobs Hp Hpo Hno Hqo H1 H2 H3 H4 Hrace Hend Hall Hjobs].
  { unfold upsertPartitions in Hp. by rewrite (ans_partitions _ _ _ _ _ _ _ Ha) in Hp. }
  unfold upsertPartitions in Hp. rewrite (ans_partitions _ _ _ _ _ _ _ Ha) in Hp. injection Hp as <- <-.
  rewrite (queues_goroutine_ok _ _ _ _ _ _ _ porder qorder Ha Hpo Hqo) in H1. injection H1 as <- <-.
  unfold upsertPartitionNodes in H2.
  rewrite (collect_ok (fetch_nodes wq_started) (λ p, add_job wq_started (JobUpsertNodes (nodes p) (PName p)))) in H2.
  2:{ intros p Hin. rewrite Hno in Hin. unfold fetch_nodes. by rewrite (ans_nodes _ _ _ _ _ _ _ Ha p Hin). }
  cbn [length] in H2. rewrite decide_False in H2 by lia. injection H2 as <- <-.
  unfold upsertNodeUtilizations in H3. rewrite (ans_util _ _ _ _ _ _ _ Ha) in H3. injection H3 as <- <-.
  unfold updateAppsHistory in H4. rewrite (ans_ah _ _ _ _ _ _ _ Ha), (ans_ch _ _ _ _ _ _ _ Ha) in H4. injection H4 as <- <-.
  apply race_quiet_end in Hrace; [|by repeat constructor]. rewrite Hrace in Hall.
  apply Permutation_nil_r in Hall as ->. split; [done|]. rewrite concat_add_job in Hjobs.
  pose proof (interleaving_perm _ _ Hjobs) as Hperm.
  destruct wq_started; [|by cbn in Hperm; apply Permutation_nil_r in Hperm as ->].
  eexists porder, _, jobs. split; [done|]. split; [apply Hqo|]. split; [done|]. split.
  - rewrite Hperm. cbn. rewrite Hno. solve_Permutation.
  - apply (interleaving_sublist _ _ _ Hjobs), list_elem_of_here.
Qed.

(** C17.  When the scheduler answers every request, every run of [sync], whatever
    the order of its goroutines, returns nil; if the work queue is started it
    has added exactly the jobs that store all partitions, the flattened queues,
    the nodes of each partition, the applications of each queue, the
    utilizations and the history, the partitions first and the queues before
    the applications; if it is not started
    every job is dropped and [sync] still returns nil. *)
Theorem sync_complete partitions queues nodes apps nus ah ch res jobs :
  answers partitions queues nodes apps nus ah ch → sync wq_started res jobs →
  res = None ∧
  if wq_started then complete_jobs partitions queues nodes apps nus ah ch jobs else jobs = [].
Proof. apply sync_complete_run. Qed.

Lemma queues_goroutine_error porder qorder p e :
  p ∈ porder → c_GetPartitionQueues (PName p) = Err e →
  ∃ e', queues_goroutine wq_started porder qorder = ([e'], []).
Proof.
  intros Hp He. unfold queues_goroutine, upsertPartitionQueues.
  pose proof (collect_err fetch_queues porder p) as Hlen. unfold fetch_queues in Hlen at 1. rewrite He in Hlen.
  specialize (Hlen _ Hp eq_refl). destruct (collect fetch_queues porder) as [errs oks]. cbn in Hlen.
  rewrite decide_True by done. by eexists.
Qed.

(** If the request for the queues of some partition fails, every run of [sync]
    returns an error, whatever the other goroutines do to the variable they
    share, and no application is asked for. *)
Theorem sync_reports_queue_errors partitions p e res jobs :
  c_GetPartitions = Ok partitions → p ∈ partitions → c_GetPartitionQueues (PName p) = Err e →
  sync wq_started res jobs →
  (∃ err, res = Some err) ∧ ∀ apps, JobUpsertApplications apps ∉ jobs.
Proof.
  intros Hps Hp He Hsync. destruct Hsync as [e' jobs Hpe|ps jobs0 porder norder qorder errs1 jobs1 r2 jobs2 r3 jobs3 r4
    jobs4 s all jobs Hps' Hpo Hno Hqo H1 H2 H3 H4 Hrace Hend Hall Hjobs].
  { unfold upsertPartitions in Hpe. by rewrite Hps in Hpe. }
  unfold upsertPartitions in Hps'. rewrite Hps in Hps'. injection Hps' as <- <-.
  destruct (queues_goroutine_error porder qorder p e) as [e1 Heq]; [by rewrite Hpo|done|].
  rewrite Heq in H1. injection H1 as <- <-. split.
  - rewrite decide_True; [eauto|]. rewrite Hall. cbn. lia.
  - intros apps. rewrite elem_of_app, (interleaving_perm _ _ Hjobs). cbn. rewrite !elem_of_app.
    intros [Ha|[Ha|[Ha|[Ha|Ha%not_elem_of_nil]]]]; [..|done].
    + unfold add_job in Ha. destruct wq_started; set_solver.
    + unfold upsertPartitionNodes in H2. destruct (collect (fetch_nodes wq_started) norder) as [errs oks] eqn:Hc.
      injection H2 as _ <-. apply list_elem_of_In, in_concat in Ha as (l & Hl & Ha).
      apply list_elem_of_In in Hl, Ha. destruct (collect_elem (fetch_nodes wq_started) norder l) as (x & _ & Hx);
        [by rewrite Hc|]. unfold fetch_nodes in Hx. destruct (c_GetPartitionNodes _); [|done]. injection Hx as <-.
      unfold add_job in Ha. destruct wq_started; set_solver.
    + unfold upsertNodeUtilizations in H3. destruct c_GetNodeUtil; injection H3 as <- <-; [|set_solver].
      unfold add_job in Ha. destruct wq_started; set_solver.
    + unfold updateAppsHistory in H4. destruct c_GetAppsHistory; [|injection H4 as <- <-; set_solver].
      destruct c_GetContainersHistory; injection H4 as <- <-; [|set_solver].
      unfold add_job in Ha. destruct wq_started; set_solver.
Qed.

(** C36.  The error of the nodes goroutine can be lost: when the goroutine of the
    utilizations stores its nil in the shared variable before the nodes
    goroutine tests it, [sync] returns nil. *)
Theorem sync_can_lose_error partitions jobs0 jobs1 e jobs2 jobs3 jobs4 :
  upsertPartitions wq_started = (Ok partitions, jobs0) →
  queues_goroutine wq_started partitions id = ([], jobs1) →
  upsertPartitionNodes wq_started partitions = (Err e, jobs2) →
  upsertNodeUtilizations wq_started = (Ok (), jobs3) → updateAppsHistory wq_started = (Ok (), jobs4) →
  sync wq_started None (jobs0 ++ jobs1 ++ jobs2 ++ jobs3 ++ jobs4).
Proof.
  intros H0 H1 H2 H3 H4.
  apply (sync_done wq_started partitions jobs0 partitions partitions id [] jobs1 (Err e) jobs2 (Ok ()) jobs3 (Ok ())
    jobs4 (mkRace None [Finished; Finished; Finished] []) []); try done.
  2:{ by repeat apply Forall_cons_2. }
  2:{ rewrite <- (app_nil_r jobs4) at 2. apply (interleaving_concat [jobs1; jobs2; jobs3; jobs4]). }
  unfold race_start. cbn.
  eapply rtc_l; [apply (race_write _ [])|]. eapply rtc_l; [apply (race_write _ [_])|].
  eapply rtc_l; [apply (race_write _ [_; _])|]. cbn.
  eapply rtc_l; [apply (race_nil [])|]. eapply rtc_l; [apply (race_nil [_])|].
  apply rtc_once, (race_nil [_; _]).
Qed.

End theorems.

Lemma sync_complete_jobs `{Client} partitions queues nodes apps nus ah ch res jobs :
  answers partitions queues nodes apps nus ah ch → sync true res jobs →
  res = None ∧ complete_jobs partitions queues nodes apps nus ah ch jobs.
Proof. apply (sync_complete_run true). Qed.

(** ** Instances *)
Definition sample_partition : PartitionInfo :=
  mkPartitionInfo "cluster" "default" (mkPartitionCapacity None None None) 1 None 1 "Active" 0.

Definition sample_top : PartitionQueueDAOInfo :=
  mkPartitionQueueDAOInfo "root" "Active" "default" None None None None None None true true None "" None [] None
    0 0 0 None.

(** A scheduler with one partition and one queue. *)
Definition sample_client (nodes : result (list NodeDAOInfo)) (queues : result PartitionQueueDAOInfo) : Client := {|
  c_GetPartitions := Ok [sample_partition];
  c_GetPartitionQueues := λ _, queues;
  c_GetPartitionNodes := λ _, nodes;
  c_GetApplications := λ _ _, Ok [];
  c_GetNodeUtil := Ok [];
  c_GetAppsHistory := Ok [];
  c_GetContainersHistory := Ok [];
|}.

Lemma sync_can_lose_error_witness :
  @sync (sample_client (Err (ErrMsg "connection refused")) (Ok sample_top)) true None
    [JobUpsertPartitions [sample_partition]; JobUpsertQueues [sample_top]; JobUpsertApplications [];
     JobInsertNodeUtilizations []; JobUpdateHistory [] []].
Proof.
  apply (@sync_can_lose_error (sample_client (Err (ErrMsg "connection refused")) (Ok sample_top)) true
    [sample_partition] [JobUpsertPartitions [sample_partition]] [JobUpsertQueues [sample_top]; JobUpsertApplications []]
    (ErrPrefixes "failed to get nodes for some partitions: "
       [ErrPrefix "could not get nodes for partition default: " (ErrMsg "connection refused")])
    [] [JobInsertNodeUtilizations []] [JobUpdateHistory [] []]); reflexivity.
Defined.

(** Three goroutines without errors, one after the other. *)
Lemma quiet_schedule p1 p2 p3 :
  rtc race_step (race_start [(Ok (), p1); (Ok (), p2); (Ok (), p3)] []) (mkRace None [Finished; Finished; Finished] []).
Proof.
  unfold race_start. cbn.
  eapply rtc_l; [apply (race_write _ [])|]. eapply rtc_l; [apply (race_nil [])|].
  eapply rtc_l; [apply (race_write _ [_])|]. eapply rtc_l; [apply (race_nil [_])|].
  eapply rtc_l; [apply (race_write _ [_; _])|]. apply rtc_once, (race_nil [_; _]).
Qed.

Lemma sample_run :
  @sync (sample_client (Ok []) (Ok sample_top)) true None
    [JobUpsertPartitions [sample_partition]; JobUpsertQueues [sample_top]; JobUpsertApplications [];
     JobUpsertNodes [] "default"; JobInsertNodeUtilizations []; JobUpdateHistory [] []].
Proof.
  apply (@sync_done (sample_client (Ok []) (Ok sample_top)) true [sample_partition]
    [JobUpsertPartitions [sample_partition]] [sample_partition] [sample_partition] id []
    [JobUpsertQueues [sample_top]; JobUpsertApplications []] (Ok ()) [JobUpsertNodes [] "default"]
    (Ok ()) [JobInsertNodeUtilizations []] (Ok ()) [JobUpdateHistory [] []]
    (mkRace None [Finished; Finished; Finished] []) []
    [JobUpsertQueues [sample_top]; JobUpsertApplications []; JobUpsertNodes [] "default"; JobInsertNodeUtilizations [];
     JobUpdateHistory [] []]);
    try reflexivity; [apply quiet_schedule|by repeat apply Forall_cons_2|exact (interleaving_concat _)].
Qed.

Definition failed_error : error :=
  ErrPrefixes "some errors encountered while syncing data: "
    [ErrPrefix "error getting and upserting queues: "
       (ErrPrefixes "failed to get queues for some partitions: "
          [ErrPrefix "could not get queues for partition default: " (ErrMsg "connection refused")])].

Lemma sample_failed_run :
  @sync (sample_client (Ok []) (Err (ErrMsg "connection refused"))) true (Some failed_error)
    [JobUpsertPartitions [sample_partition]; JobUpsertNodes [] "default"; JobInsertNodeUtilizations [];
     JobUpdateHistory [] []].
Proof.
  apply (@sync_done (sample_client (Ok []) (Err (ErrMsg "connection refused"))) true [sample_partition]
    [JobUpsertPartitions [sample_partition]] [sample_partition] [sample_partition] id
    [ErrPrefix "error getting and upserting queues: "
       (ErrPrefixes "failed to get queues for some partitions: "
          [ErrPrefix "could not get queues for partition default: " (ErrMsg "connection refused")])]
    [] (Ok ()) [JobUpsertNodes [] "default"] (Ok ()) [JobInsertNodeUtilizations []] (Ok ()) [JobUpdateHistory [] []]
    (mkRace None [Finished; Finished; Finished] [])
    [ErrPrefix "error getting and upserting queues: "
       (ErrPrefixes "failed to get queues for some partitions: "
          [ErrPrefix "could not get queues for partition default: " (ErrMsg "connection refused")])]
    [JobUpsertNodes [] "default"; JobInsertNodeUtilizations []; JobUpdateHistory [] []]);
    try reflexivity; [apply quiet_schedule|by repeat apply Forall_cons_2|exact (interleaving_concat _)].
Qed.

Lemma sync_complete_witness :
  @None error = None ∧ complete_jobs [sample_partition] (λ _, sample_top) (λ _, []) (λ _, []) [] [] []
    [JobUpsertPartitions [sample_partition]; JobUpsertQueues [sample_top]; JobUpsertApplications [];
     JobUpsertNodes [] "default"; JobInsertNodeUtilizations []; JobUpdateHistory [] []].
Proof.
  apply (@sync_complete (sample_client (Ok []) (Ok sample_top)) true); [split; reflexivity|apply sample_run].
Defined.

Lemma sync_reports_queue_errors_witness :
  (∃ err, Some failed_error = Some err) ∧
  ∀ apps, JobUpsertApplications apps ∉
    [JobUpsertPartitions [sample_partition]; JobUpsertNodes [] "default"; JobInsertNodeUtilizations [];
     JobUpdateHistory [] []].
Proof.
  apply (@sync_reports_queue_errors (sample_client (Ok []) (Err (ErrMsg "connection refused"))) true
    [sample_partition] sample_partition (ErrMsg "connection refused"));
    [reflexivity|apply list_elem_of_here|reflexivity|apply sample_failed_run].
Defined.
