(* ===== verification/RestClient.v ===== *)
(** * The scheduler's REST API

    Models [internal/yunikorn/rest.go]: the addresses that are requested, the
    handling of the answer by every method, and the bodies that are opened and
    closed on the way.  [Http] is the network: what [http.NewRequestWithContext]
    and [http.DefaultClient.Do] return for an address.  Decoding a body to a Go
    value is the class [Decoder]; a body that is the JSON value null, for which
    Go leaves a nil pointer, is not considered. *)
From S2P Require Import Prelude GoStrings Dao FlattenQueues Sync.
From Stdlib Require Import Ascii.

(** An answer: its status and what reading its body to the end yields. *)
Record http_Response := mkHttpResponse {
  RStatusCode : Z;
  RBody : result string;
}.

Class Http := {
  http_NewRequest : string → option error;
  http_Do : string → result http_Response;
}.

(** [json.NewDecoder(resp.Body).Decode(&v)]. *)
Class Decoder (A : Type) := Decode : http_Response → result A.

(** ** Requests and open bodies *)
Inductive http_event :=
| Opened (url : string)
| Closed (url : string).

(** Code that makes requests: the bodies it opens and closes, and its result. *)
Definition W (A : Type) : Type := list http_event * result A.

#[export] Instance W_ret : MRet W := λ A a, ([], Ok a).
#[export] Instance W_bind : MBind W := λ A B f m,
  match m with
  | (t, Ok a) => let '(t', r) := f a in (t ++ t', r)
  | (t, Err e) => (t, Err e)
  end.

Definition w_fail {A} (e : error) : W A := ([], Err e).

(** [defer closeBody(ctx, resp)]: an error of [Close] is only logged. *)
Definition defer_closeBody {A} (url : string) (m : W A) : W A := (m.1 ++ [Closed url], m.2).

(** ** Endpoints *)
Definition endpointStream : string := "/ws/v1/events/stream".
Definition endpointPartitions : string := "/ws/v1/partitions".
Definition endpointAppsHistory : string := "/ws/v1/history/apps".
Definition endpointContainersHistory : string := "/ws/v1/history/containers".
Definition endpointNodeUtil : string := "/ws/v1/scheduler/node-utilizations".
Definition endpointHealthcheck : string := "/ws/v1/scheduler/healthcheck".

Definition endpointPartitionNodes (partitionName : string) : string :=
  Sprintf "/ws/v1/partition/%s/nodes" [AnyString partitionName].
Definition endpointQueues (partitionName : string) : string :=
  Sprintf "/ws/v1/partition/%s/queues" [AnyString partitionName].
Definition endpointApplicationsByPartition (partitionName : string) : string :=
  Sprintf "/ws/v1/partition/%s/applications/active" [AnyString partitionName].
Definition endpointApplicationsByQueue (partitionName queueName : string) : string :=
  Sprintf "/ws/v1/partition/%s/queue/%s/applications" [AnyString partitionName; AnyString queueName].
Definition endpointApplicationByPartition (partitionName appID : string) : string :=
  Sprintf "/ws/v1/partition/%s/application/%s" [AnyString partitionName; AnyString appID].
Definition endpointApplicationByQueue (partitionName queueName appID : string) : string :=
  Sprintf "/ws/v1/partition/%s/queue/%s/application/%s"
    [AnyString partitionName; AnyString queueName; AnyString appID].

Record YunikornConfig := mkYunikornConfig {
  YHost : string;
  YPort : Z;
  YSecure : bool;
}.

Record RESTClient := mkRESTClient {
  protocol : string;
  host : string;
  port : Z;
}.

Definition NewRESTClient (cfg : YunikornConfig) : RESTClient :=
  mkRESTClient (if YSecure cfg then "https" else "http") (YHost cfg) (YPort cfg).

Definition url (c : RESTClient) (endpoint : string) : string :=
  Sprintf "%s://%s:%d%s" [AnyString (protocol c); AnyString (host c); AnyInt (port c); AnyString endpoint].

Section client.
Context `{Http} (c : RESTClient).

(** The address and the answer. *)
Definition get (endpoint : string) : W (string * http_Response) :=
  let u := url c endpoint in
  match http_NewRequest u with
  | Some e => w_fail e
  | None => match http_Do u with
            | Err e => w_fail e
            | Ok res => ([Opened u], Ok (u, res))
            end
  end.

(** The error built from an answer whose status is not 200. *)
Definition handleNonOKResponse (resp : http_Response) : error :=
  match RBody resp with
  | Err e => e
  | Ok _ => ErrMsg (Sprintf "yunicorn api returned non-OK status code: %d" [AnyInt (RStatusCode resp)])
  end.

Definition unmarshallBody {A} `{!Decoder A} (resp : http_Response) : W A := ([], Decode resp).

(** The steps that the methods share: the request, the deferred close, the test
    of the status and the decoding. *)
Definition fetch {A} `{!Decoder A} (endpoint : string) : W A :=
  '(u, resp) ← get endpoint;
  defer_closeBody u
    (if decide (RStatusCode resp ≠ 200) then w_fail (handleNonOKResponse resp) else unmarshallBody resp).

Context `{!Decoder (list PartitionInfo), !Decoder PartitionQueueDAOInfo, !Decoder (list ApplicationDAOInfo)}.
Context `{!Decoder ApplicationDAOInfo, !Decoder (list NodeDAOInfo), !Decoder (list PartitionNodesUtilDAOInfo)}.
Context `{!Decoder (list ApplicationHistoryDAOInfo), !Decoder (list ContainerHistoryDAOInfo)}.

Definition GetPartitions : W (list PartitionInfo) := fetch endpointPartitions.

Definition GetPartitionQueues (partitionName : string) : W PartitionQueueDAOInfo :=
  fetch (endpointQueues partitionName).

Definition GetApplications (partitionName queueName : string) : W (list ApplicationDAOInfo) :=
  let partitionName := if decide (partitionName = "") then "default" else partitionName in
  let endpoint := if decide (queueName = "") then endpointApplicationsByPartition partitionName
                  else endpointApplicationsByQueue partitionName queueName in
  fetch endpoint.

Definition GetApplication (partitionName queueName appID : string) : W ApplicationDAOInfo :=
  let partitionName := if decide (partitionName = "") then "default" else partitionName in
  let endpoint := endpointApplicationByPartition partitionName appID in
  let endpoint := if decide (queueName ≠ "") then endpointApplicationByQueue partitionName queueName appID
                  else endpoint in
  fetch endpoint.

Definition GetPartitionNodes (partitionName : string) : W (list NodeDAOInfo) :=
  fetch (endpointPartitionNodes partitionName).

Definition GetNodeUtil : W (list PartitionNodesUtilDAOInfo) := fetch endpointNodeUtil.

Definition GetAppsHistory : W (list ApplicationHistoryDAOInfo) := fetch endpointAppsHistory.

Definition GetContainersHistory_ : W (list ContainerHistoryDAOInfo) := fetch endpointContainersHistory.

Definition Healthcheck {A} `{!Decoder A} : W A := fetch endpointHealthcheck.

(** The caller of [GetEventStream] closes the body. *)
Definition GetEventStream : W http_Response :=
  '(u, resp) ← get endpointStream;
  if decide (RStatusCode resp ≠ 200) then w_fail (handleNonOKResponse resp) else ([], Ok resp).

(** The client as the interface that the synchronisation uses. *)
#[export] Instance RESTClient_Client : Client := {|
  c_GetPartitions := GetPartitions.2;
  c_GetPartitionQueues p := (GetPartitionQueues p).2;
  c_GetPartitionNodes p := (GetPartitionNodes p).2;
  c_GetApplications p q := (GetApplications p q).2;
  c_GetNodeUtil := GetNodeUtil.2;
  c_GetAppsHistory := GetAppsHistory.2;
  c_GetContainersHistory := GetContainersHistory_.2;
|}.

End client.

(** ** Bodies *)

(** The bodies that are open after a trace. *)
Definition open_bodies (t : list http_event) : Z :=
  foldr (λ e n, match e with Opened _ => n + 1 | Closed _ => n - 1 end) 0 t.

(** A request for [endpoint]: one body at most, closed after it was opened. *)
Definition one_request (c : RESTClient) (endpoint : string) (t : list http_event) : Prop :=
  t = [] ∨ t = [Opened (url c endpoint); Closed (url c endpoint)].

Section bodies.
Context `{Http} (c : RESTClient).

Lemma fetch_closes {A} `{!Decoder A} endpoint : one_request c endpoint (fetch (A := A) c endpoint).1.
Proof.
  unfold fetch, get, one_request. destruct (http_NewRequest _); [by left|].
  destruct (http_Do _) as [resp|e]; [|by left]. right. cbn [mbind W_bind].
  by destruct (decide (RStatusCode resp ≠ 200)).
Qed.

(** What [fetch] returns. *)
Lemma fetch_result {A} `{!Decoder A} endpoint :
  (fetch (A := A) c endpoint).2 =
    match http_NewRequest (url c endpoint), http_Do (url c endpoint) with
    | Some e, _ => Err e
    | None, Err e => Err e
    | None, Ok resp => if decide (RStatusCode resp = 200) then Decode resp else Err (handleNonOKResponse resp)
    end.
Proof.
  unfold fetch, get. destruct (http_NewRequest _); [done|]. destruct (http_Do _) as [resp|e]; [|done].
  cbn [mbind W_bind]. destruct (decide (RStatusCode resp = 200)) as [Hs|Hs];
    [rewrite decide_False by tauto|rewrite decide_True by tauto]; done.
Qed.

Context `{!Decoder (list PartitionInfo), !Decoder PartitionQueueDAOInfo, !Decoder (list ApplicationDAOInfo)}.
Context `{!Decoder ApplicationDAOInfo, !Decoder (list NodeDAOInfo), !Decoder (list PartitionNodesUtilDAOInfo)}.
Context `{!Decoder (list ApplicationHistoryDAOInfo), !Decoder (list ContainerHistoryDAOInfo)}.

(** The traces of all methods that read their answer. *)
Definition method_traces (partition queue app : string) : list (list http_event) :=
  [(GetPartitions c).1; (GetPartitionQueues c partition).1; (GetApplications c partition queue).1;
   (GetApplication c partition queue app).1; (GetPartitionNodes c partition).1; (GetNodeUtil c).1;
   (GetAppsHistory c).1; (GetContainersHistory_ c).1; (Healthcheck (A := ApplicationDAOInfo) c).1].

Lemma one_request_closed endpoint t : one_request c endpoint t → open_bodies t = 0.
Proof. by intros [-> | ->]. Qed.

(** C31.  Every method that reads its answer closes the body that it opened,
    whatever the status and whether or not it can be decoded.  [GetEventStream]
    hands the open body over when it succeeds; when the status is not 200 it
    returns an error and the body stays open. *)
Theorem bodies_closed partition queue app :
  Forall (λ t, open_bodies t = 0) (method_traces partition queue app) ∧
  (∀ resp, (GetEventStream c).2 = Ok resp → open_bodies (GetEventStream c).1 = 1) ∧
  (∀ resp, http_NewRequest (url c endpointStream) = None → http_Do (url c endpointStream) = Ok resp →
     RStatusCode resp ≠ 200 →
     (GetEventStream c).2 = Err (handleNonOKResponse resp) ∧ open_bodies (GetEventStream c).1 = 1).
Proof.
  split_and!.
  - repeat apply Forall_cons_2; try apply Forall_nil_2; eapply one_request_closed, fetch_closes.
  - intros resp. unfold GetEventStream, get. destruct (http_NewRequest _); [done|].
    destruct (http_Do _) as [resp'|e]; [|done]. cbn [mbind W_bind].
    by destruct (decide (RStatusCode resp' ≠ 200)).
  - intros resp Hn Hdo Hs. unfold GetEventStream, get. rewrite Hn, Hdo. cbn [mbind W_bind]. by rewrite decide_True.
Qed.

End bodies.

(** ** Addresses *)
Definition no_slash (s : string) : Prop := no_char "/"%char s = true.

Lemma split_slash s s' t t' :
  no_slash s → no_slash s' → s +:+ String "/" "" +:+ t = s' +:+ String "/" "" +:+ t' → s = s' ∧ t = t'.
Proof.
  intros Hs Hs' Heq. pose proof (f_equal (λ x, strings_Split x "/"%char) Heq) as Hsp. cbn beta in Hsp.
  rewrite !strings_Split_app in Hsp by done. injection Hsp as Hhd _. subst s'. split; [done|].
  by apply string_app_inj_l, string_app_inj_l in Heq.
Qed.

Lemma apps_by_queue_text p q :
  endpointApplicationsByQueue p q =
    "/ws/v1/partition/" +:+ p +:+ String "/" "" +:+ "queue/" +:+ q +:+ String "/" "" +:+ "applications".
Proof. done. Qed.

Lemma url_inj c e e' : url c e = url c e' → e = e'.
Proof.
  unfold url. assert (∀ x, Sprintf "%s://%s:%d%s" [AnyString (protocol c); AnyString (host c); AnyInt (port c); AnyString x] =
    (protocol c +:+ "://" +:+ host c +:+ ":" +:+ pretty (port c)) +:+ x) as Htext.
  { intros x. rewrite <- !string_app_assoc. cbn. by rewrite string_app_nil_r. }
  rewrite !Htext. apply string_app_inj_l.
Qed.

(** Distinct pairs of a partition and a queue, with names that hold no slash
    and are not empty, are asked for at distinct addresses. *)
Theorem applications_address_injective c p q p' q' :
  no_slash p → no_slash p' → no_slash q → no_slash q' →
  url c (endpointApplicationsByQueue p q) = url c (endpointApplicationsByQueue p' q') → p = p' ∧ q = q'.
Proof.
  intros Hp Hp' Hq Hq' Heq%url_inj. rewrite !apps_by_queue_text in Heq. apply string_app_inj_l in Heq.
  apply split_slash in Heq as [-> Heq]; [|done..]. split; [done|]. apply string_app_inj_l in Heq.
  by apply split_slash in Heq as [-> _].
Qed.

Lemma applications_address_injective_witness :
  "default" = "default" ∧ "root.a" = "root.a".
Proof.
  apply (applications_address_injective (mkRESTClient "http" "localhost" 9889) "default" "root.a" "default" "root.a");
    reflexivity.
Defined.
