(* ===== verification/DataSync.v ===== *)
(** * From the scheduler to the database

    The jobs that a run of [sync] hands to the work queue are calls of the
    repository.  This file joins the two: what the tables hold once the jobs of
    a run have been executed.  The closures passed to [workqueue.Add] in
    [internal/yunikorn/sync.go] are [run_job].  The work queue retries a job
    until it succeeds and runs jobs concurrently: the attempts come in any order
    and number, each one as a whole. *)
From S2P Require Import Prelude GoStrings SqlBuilder Dao Db Upsert QueueRepo QueueInv QueueUpsert.
From S2P Require Import AppRepo StatusRepo StatusTheorems FlattenQueues QueueTheorems RepoInv AppTheorems Sync.

(** A queue of an acceptable hierarchy has a name, and once it is stored it is
    live if it was not deleted. *)
Lemma flattenQueues_named roots q :
  Forall acceptable roots → q ∈ flattenQueues roots → QueueName q ≠ "".
Proof.
  intros Hacc Hq. apply list_elem_of_bind in Hq as (root & (q0 & -> & Hq0)%elem_of_flatten & Hroot).
  rewrite Forall_forall in Hacc. destruct (propagate_fields (Partition root) q0) as (_ & Hn & _). rewrite Hn.
  pose proof (acc_nonempty _ (Hacc root Hroot)) as Hne. rewrite Forall_forall in Hne. by apply Hne.
Qed.

Lemma stored_live m m' q : stored m q m' → not_deleted m q → is_live m' (Partition q, QueueName q).
Proof.
  intros (r & Hr & _ & Hcase) Hn. exists r. split; [exact Hr|].
  destruct (m !! dao_key q) as [old|] eqn:Hold.
  - rewrite (same_deleted _ _ Hcase). by apply Hn.
  - by destruct Hcase as (id & now & ->).
Qed.

Section jobs.
Context `{Env} (int8in : string → option Z).

Definition run_job (j : sync_job) : M () :=
  match j with
  | JobUpsertPartitions partitions => UpsertPartitions partitions
  | JobUpsertQueues queues => UpsertQueues queues
  | JobUpsertNodes nodes partition => UpsertNodes nodes partition
  | JobUpsertApplications apps => UpsertApplications apps
  | JobInsertNodeUtilizations nus => u ← uuid_NewString; InsertNodeUtilizations u nus
  | JobUpdateHistory apps containers => UpdateHistory int8in apps containers
  end.

(** One attempt of each job, in order; an error does not stop the next job. *)
Definition run_jobs (jobs : list sync_job) (w : world) : world := foldl (λ w j, (run_job j w).2) w jobs.

(** Jobs on other tables than [queues] and [applications]. *)
Definition unrelated (j : sync_job) : bool :=
  match j with JobUpsertQueues _ | JobUpsertApplications _ => false | _ => true end.

Lemma unrelated_job_keeps j w :
  unrelated j = true →
  t_queues (w_db (run_job j w).2) = t_queues (w_db w) ∧
  t_applications (w_db (run_job j w).2) = t_applications (w_db w).
Proof.
  intros Hj. destruct j as [ps|qs|ns p|apps|nus|ah ch]; try done; cbn [run_job].
  - destruct (keeps_run _ (UpsertPartitions_keeps ps) w) as [Heq _]. by rewrite Heq.
  - destruct (keeps_run _ (UpsertNodes_keeps ns p) w) as [Heq _]. by rewrite Heq.
  - destruct (keeps_run _ (InsertNodeUtilizations_keeps (env_uuid (w_uuids w)) nus)
      (mkWorld (w_db w) (w_calls w) (S (w_uuids w)) (w_times w))) as [[Heq _] _].
    rewrite run_bind. cbn. cbn in Heq. by rewrite Heq.
  - destruct (keeps_run _ (UpdateHistory_keeps int8in ah ch) w) as [[Heq _] _]. by rewrite Heq.
Qed.

Context `{!EnvLaws}.

Lemma run_job_wf j w : repo_wf w → repo_wf (run_job j w).2.
Proof.
  intros Hwf. destruct j as [ps|qs|ns p|apps|nus|ah ch]; cbn [run_job];
    try (eapply repo_wf_step; [exact Hwf|by (apply step_UpsertPartitions || apply step_UpsertQueues || apply step_UpsertNodes
      || apply step_UpsertApplications || apply step_UpdateHistory)]).
  rewrite run_bind. cbn [uuid_NewString atomic run fst snd]. eapply repo_wf_step; [|apply step_InsertNodeUtilizations].
  eapply repo_wf_step; [exact Hwf|]. apply step_other; [done|]. cbn. lia.
Qed.

Lemma run_jobs_wf jobs w : repo_wf w → repo_wf (run_jobs jobs w).
Proof. revert w. induction jobs as [|j jobs IH]; intros w Hwf; [done|]. apply IH. by apply run_job_wf. Qed.

Lemma run_jobs_unrelated jobs w :
  Forall (λ j, unrelated j = true) jobs →
  queue_map (run_jobs jobs w) = queue_map w ∧ app_map (run_jobs jobs w) = app_map w.
Proof.
  intros Hjobs. revert w. induction Hjobs as [|j jobs Hj _ IH]; intros w; [done|].
  destruct (IH (run_job j w).2) as [Hq Ha]. destruct (unrelated_job_keeps j w Hj) as [Hq' Ha'].
  cbn [run_jobs foldl]. fold (run_jobs jobs (run_job j w).2). rewrite Hq, Ha.
  unfold queue_map, app_map. by rewrite Hq', Ha'.
Qed.

Lemma run_jobs_cons j jobs w : run_jobs (j :: jobs) w = run_jobs jobs (run_job j w).2.
Proof. done. Qed.

Lemma run_jobs_app jobs1 jobs2 w : run_jobs (jobs1 ++ jobs2) w = run_jobs jobs2 (run_jobs jobs1 w).
Proof. apply foldl_app. Qed.

(** ** One synchronisation

    [roots] are the hierarchies that were fetched, [apps] the applications;
    [m0] is the table of queues at the start. *)
Section one_sync.
Context (Hdel : ∀ n, env_db n = Delivered).
Context (roots : list PartitionQueueDAOInfo) (apps : list ApplicationDAOInfo).
Context (m0 : gmap (string * string) QueueRow).
Context (Hparts : NoDup (Partition <$> roots)) (Hacc : Forall acceptable roots).
Context (Happs : Forall (λ a, ∃ q, q ∈ flattenQueues roots ∧ AppPartition a = Partition q ∧
                                   AppQueueName a = QueueName q) apps).
Context (Hkeys : NoDup (dao_app_key <$> apps)).

(** The jobs of this synchronisation. *)
Definition own_job (j : sync_job) : Prop :=
  j = JobUpsertQueues (flattenQueues roots) ∨ j = JobUpsertApplications apps ∨ unrelated j = true.

(** No queue is deleted, and the rows of the start keep their identity. *)
Definition kept (w : world) : Prop :=
  Forall (λ q, not_deleted (queue_map w) q ∧
    ∀ old, m0 !! dao_key q = Some old → ∃ r, queue_map w !! dao_key q = Some r ∧ same_identity old r)
    (flattenQueues roots).

(** The row of a queue after the synchronisation. *)
Definition queue_synced (m : gmap (string * string) QueueRow) (q : PartitionQueueDAOInfo) : Prop :=
  ∃ r, m !! dao_key q = Some r ∧ reflects r q ∧ q_deleted_at r = None ∧
       ∀ old, m0 !! dao_key q = Some old → same_identity old r.

Definition queues_synced (w : world) : Prop := Forall (queue_synced (queue_map w)) (flattenQueues roots).

Definition apps_synced (w : world) : Prop :=
  Forall (λ a, ∃ row, app_map w !! dao_app_key a = Some row ∧ a_state row = State a) apps.

Lemma queues_job w :
  repo_wf w → kept w →
  let w' := (run_job (JobUpsertQueues (flattenQueues roots)) w).2 in
  queues_synced w' ∧ app_map w' = app_map w.
Proof.
  intros Hwf Hk. cbn [run_job].
  destruct (wp_upsert_hierarchies Hdel roots w (rwf_queues _ Hwf) Hparts Hacc) as (_ & Hst & _ & _).
  { eapply Forall_impl; [exact Hk|]. by intros q [? _]. }
  split.
  - unfold queues_synced, kept in *. rewrite Forall_forall in *. intros q Hq. destruct (Hk q Hq) as [Hn Hid].
    pose proof (stored_live _ _ _ (Hst q Hq) Hn) as (r' & Hr' & Hlive).
    destruct (Hst q Hq) as (r & Hr & Href & Hcase). exists r.
    assert (r' = r) as -> by (unfold dao_key in Hr; congruence). split_and!; [done..|].
    intros old Hold. destruct (Hid old Hold) as (r1 & Hr1 & Hsame). rewrite Hr1 in Hcase. by etrans.
  - destruct (keeps_run _ (UpsertQueues_keeps (flattenQueues roots)) w) as [[Heq _] _]. unfold app_map. by rewrite Heq.
Qed.

Lemma apps_job w :
  repo_wf w → let w' := (run_job (JobUpsertApplications apps) w).2 in
  queue_map w' = queue_map w ∧ (queues_synced w → apps_synced w').
Proof.
  intros Hwf. cbn [run_job]. split.
  { pose proof (keeps_run _ (UpsertApplications_keeps apps) w) as [Heq _]. unfold queue_map. by rewrite Heq. }
  intros Hq. destruct (wp_UpsertApplications Hdel apps (queue_map w) w) as [_ Hm].
  { split; [apply (rwf_queues _ Hwf)|]. split; [done|apply (apps_issued _ _ _ (rwf_apps _ Hwf))]. }
  { eapply Forall_impl; [exact Happs|]. intros a (q & Hin & Hp & Hn). rewrite Hp, Hn.
    split; [by eapply flattenQueues_named|]. unfold queues_synced in Hq. rewrite Forall_forall in Hq.
    destruct (Hq q Hin) as (r & Hr & _ & Hd & _). by exists r. }
  eapply Forall_impl;
    [exact (merged_rows app_key app_merge (stored_row (queue_map w)) dao_app_key (λ _ _, eq_refl) _ _ _ Hm Hkeys)|].
  intros a [id Hid]. eexists. split; [exact Hid|]. by destruct (app_map w !! _).
Qed.

Lemma kept_of_synced w : queues_synced w → kept w.
Proof.
  intros Hq. eapply Forall_impl; [exact Hq|]. intros q (r & Hr & _ & Hd & Hid). split; [|by eauto]. intros r'. rewrite Hr. by intros [= <-].
Qed.

(** What an attempt of any of the jobs preserves. *)
Lemma own_job_kept j w : own_job j → repo_wf w → kept w → kept (run_job j w).2.
Proof.
  intros [-> |[-> |Hj]] Hwf Hk.
  - by apply kept_of_synced, queues_job.
  - unfold kept. by rewrite (proj1 (apps_job w Hwf)).
  - unfold kept, queue_map. by rewrite (proj1 (unrelated_job_keeps j w Hj)).
Qed.

Lemma own_job_queues j w : own_job j → repo_wf w → queues_synced w → queues_synced (run_job j w).2.
Proof.
  intros [-> |[-> |Hj]] Hwf Hq.
  - apply queues_job; [done|]. by apply kept_of_synced.
  - unfold queues_synced. by rewrite (proj1 (apps_job w Hwf)).
  - unfold queues_synced, queue_map. by rewrite (proj1 (unrelated_job_keeps j w Hj)).
Qed.

Lemma own_job_apps j w : own_job j → repo_wf w → queues_synced w → apps_synced w → apps_synced (run_job j w).2.
Proof.
  intros [-> |[-> |Hj]] Hwf Hq Ha.
  - unfold apps_synced. by rewrite (proj2 (queues_job w Hwf (kept_of_synced w Hq))).
  - by apply apps_job.
  - unfold apps_synced, app_map. by rewrite (proj2 (unrelated_job_keeps j w Hj)).
Qed.

Lemma run_own_jobs (P : world → Prop) jobs w :
  (∀ j w, own_job j → repo_wf w → P w → P (run_job j w).2) →
  Forall own_job jobs → repo_wf w → P w → P (run_jobs jobs w).
Proof.
  intros HP Hjobs. revert w. induction Hjobs as [|j jobs Hj _ IH]; intros w Hwf Hw; [done|].
  rewrite run_jobs_cons. apply IH; [by apply run_job_wf|]. by apply HP.
Qed.

(** Any attempts, as long as one of the applications comes after one of the
    queues. *)
Lemma run_attempts attempts w :
  Forall own_job attempts →
  [JobUpsertQueues (flattenQueues roots); JobUpsertApplications apps] `sublist_of` attempts →
  repo_wf w → kept w → let w' := run_jobs attempts w in queues_synced w' ∧ apps_synced w'.
Proof.
  intros Hown (l1 & rest & -> & Hs1)%sublist_cons_l Hwf Hk. apply sublist_cons_l in Hs1 as (l2 & l3 & -> & _).
  apply Forall_app in Hown as [Hl1 [Hq [Hl2 [Ha Hl3]%Forall_cons]%Forall_app]%Forall_cons]. cbn zeta.
  rewrite run_jobs_app, run_jobs_cons, run_jobs_app, run_jobs_cons.
  set (w1 := run_jobs l1 w). assert (repo_wf w1) as Hwf1 by (by apply run_jobs_wf).
  assert (kept w1) as Hk1 by (by apply (run_own_jobs kept); [apply own_job_kept|..]).
  set (w2 := (run_job (JobUpsertQueues (flattenQueues roots)) w1).2).
  assert (repo_wf w2) as Hwf2 by (by apply run_job_wf). assert (queues_synced w2) as Hq2 by (by apply queues_job).
  set (w3 := run_jobs l2 w2). assert (repo_wf w3) as Hwf3 by (by apply run_jobs_wf).
  assert (queues_synced w3) as Hq3 by (by apply (run_own_jobs queues_synced); [apply own_job_queues|..]).
  set (w4 := (run_job (JobUpsertApplications apps) w3).2). assert (repo_wf w4) as Hwf4 by (by apply run_job_wf).
  apply (run_own_jobs (λ w, queues_synced w ∧ apps_synced w)); [|done|done|].
  - intros j w' Hj Hw' [Hqs Has]. split; [by apply own_job_queues|by apply own_job_apps].
  - split; [by apply own_job_queues|by apply apps_job].
Qed.

End one_sync.

End jobs.

(** When the scheduler answers everything, there is a run: the one in which the
    goroutines take turns. *)
Lemma sync_run_exists `{Client} partitions queues nodes apps nus ah ch :
  answers partitions queues nodes apps nus ah ch →
  sync true None
    (JobUpsertPartitions partitions ::
     [JobUpsertQueues (flattenQueues (queues <$> partitions));
      JobUpsertApplications (concat (apps <$> flattenQueues (queues <$> partitions)))] ++
     ((λ p : PartitionInfo, JobUpsertNodes (nodes p) (PName p)) <$> partitions) ++
     [JobInsertNodeUtilizations nus] ++ [JobUpdateHistory ah ch]).
Proof.
  intros Ha. apply (sync_done true partitions [JobUpsertPartitions partitions] partitions partitions id []
    [JobUpsertQueues (flattenQueues (queues <$> partitions));
     JobUpsertApplications (concat (apps <$> flattenQueues (queues <$> partitions)))]
    (Ok ()) ((λ p : PartitionInfo, JobUpsertNodes (nodes p) (PName p)) <$> partitions)
    (Ok ()) [JobInsertNodeUtilizations nus] (Ok ()) [JobUpdateHistory ah ch]
    (mkRace None [Finished; Finished; Finished] []) []); try done.
  - unfold upsertPartitions. by rewrite (ans_partitions _ _ _ _ _ _ _ Ha).
  - by rewrite (queues_goroutine_ok true _ _ _ _ _ _ _ partitions id Ha).
  - unfold upsertPartitionNodes.
    rewrite (collect_ok (fetch_nodes true) (λ p, add_job true (JobUpsertNodes (nodes p) (PName p)))).
    { cbn [length]. rewrite decide_False by lia. by rewrite (concat_add_job true). }
    intros p Hp. unfold fetch_nodes. by rewrite (ans_nodes _ _ _ _ _ _ _ Ha p Hp).
  - unfold upsertNodeUtilizations. by rewrite (ans_util _ _ _ _ _ _ _ Ha).
  - unfold updateAppsHistory. by rewrite (ans_ah _ _ _ _ _ _ _ Ha), (ans_ch _ _ _ _ _ _ _ Ha).
  - apply quiet_schedule.
  - by repeat apply Forall_cons_2.
  - exact (interleaving_concat [_; _; _; _]).
Qed.

Lemma concat_fmap_elem {A B} (f : A → list B) l x : x ∈ concat (f <$> l) ↔ ∃ a, a ∈ l ∧ x ∈ f a.
Proof.
  rewrite list_elem_of_In, in_concat. setoid_rewrite <- list_elem_of_In.
  setoid_rewrite list_elem_of_fmap. naive_solver.
Qed.

(** The jobs of a complete run are those of the section above. *)
Lemma complete_jobs_own (partitions : list PartitionInfo) (nodes : PartitionInfo → list NodeDAOInfo) qs al nus ah ch rest j :
  rest ≡ₚ JobUpsertQueues (flattenQueues qs) :: JobUpsertApplications al ::
    ((λ p : PartitionInfo, JobUpsertNodes (nodes p) (PName p)) <$> partitions) ++
    [JobInsertNodeUtilizations nus; JobUpdateHistory ah ch] →
  j ∈ JobUpsertPartitions partitions :: rest → own_job qs al j.
Proof.
  intros Hrest [-> |Hj]%elem_of_cons; [by right; right|]. rewrite Hrest in Hj. unfold own_job.
  rewrite !elem_of_cons, elem_of_app, list_elem_of_fmap in Hj.
  destruct Hj as [-> |[-> |[(p & -> & _)|Hj]]]; [tauto|tauto|by right; right|].
  rewrite !elem_of_cons in Hj. destruct Hj as [-> |[-> |Hj%not_elem_of_nil]]; [by right; right|by right; right|done].
Qed.

(** One synchronisation, from the scheduler to the tables: when the scheduler
    answers every request with hierarchies that the table accepts, none of
    whose queues was deleted, and with the applications of each queue, take any
    run of [sync] and any sequence of attempts of its jobs, with repetitions
    and failures, in which the applications are attempted once after the
    queues.  Then, with every statement delivered, each queue has a live row
    that reflects it and keeps the identity it had, each application has a row
    with its state that points to the row of its queue, and the invariant of
    the repository holds. *)
Theorem synced_data_stored `{EnvLaws} `{Client} int8in partitions queues nodes apps nus ah ch res jobs attempts w :
  (∀ n, env_db n = Delivered) → answers partitions queues nodes apps nus ah ch → sync true res jobs → repo_wf w →
  NoDup (Partition <$> (queues <$> partitions)) → Forall acceptable (queues <$> partitions) →
  Forall (not_deleted (queue_map w)) (flattenQueues (queues <$> partitions)) →
  (∀ q a, q ∈ flattenQueues (queues <$> partitions) → a ∈ apps q →
     AppPartition a = Partition q ∧ AppQueueName a = QueueName q) →
  NoDup (dao_app_key <$> concat (apps <$> flattenQueues (queues <$> partitions))) →
  Forall (λ j, j ∈ jobs) attempts →
  (∀ qs al, JobUpsertQueues qs ∈ jobs → JobUpsertApplications al ∈ jobs →
     [JobUpsertQueues qs; JobUpsertApplications al] `sublist_of` attempts) →
  let w' := run_jobs int8in attempts w in
  res = None ∧ repo_wf w' ∧
  Forall (queue_synced (queue_map w) (queue_map w')) (flattenQueues (queues <$> partitions)) ∧
  ∀ q a, q ∈ flattenQueues (queues <$> partitions) → a ∈ apps q →
    ∃ row, row ∈ t_applications (w_db w') ∧ app_key row = dao_app_key a ∧ a_state row = State a ∧
           has_queue (t_queues (w_db w')) row.
Proof.
  intros Hd Ha Hsync Hwf Hnd Hacc Hnot Happs Hkeys Hatt Horder w'.
  destruct (sync_complete_jobs partitions queues nodes apps nus ah ch res jobs Ha Hsync)
    as (-> & porder & qorder & rest & Hpo & Hqo & -> & Hperm & _).
  split; [done|]. assert (repo_wf w') as Hwf' by (by apply run_jobs_wf). split; [done|].
  assert (flattenQueues (queues <$> porder) ≡ₚ flattenQueues (queues <$> partitions)) as Hfl.
  { apply flattenQueues_proper. by rewrite Hpo. }
  assert (concat (apps <$> qorder) ≡ₚ concat (apps <$> flattenQueues (queues <$> partitions))) as Hap.
  { by rewrite Hqo, Hfl. }
  destruct (run_attempts int8in Hd (queues <$> porder) (concat (apps <$> qorder)) (queue_map w)) with attempts w
    as [Hq Hrows]; try done.
  - by rewrite Hpo.
  - by rewrite Hpo.
  - apply Forall_forall. intros a (q & Hq & Haq)%concat_fmap_elem. rewrite Hqo in Hq. exists q. split; [done|].
    apply Happs; [|done]. by rewrite <- Hfl.
  - by rewrite Hap.
  - eapply Forall_impl; [exact Hatt|]. intros j Hj. by eapply complete_jobs_own.
  - apply Horder; rewrite Hperm; set_solver.
  - unfold kept. rewrite Hfl. eapply Forall_impl; [exact Hnot|]. intros q Hn. split; [done|].
    intros old Hold. by exists old.
  - split; [unfold queues_synced in Hq; by rewrite Hfl in Hq|]. intros q a Hin Haq.
    unfold apps_synced in Hrows. rewrite Forall_forall in Hrows. destruct (Hrows a) as (row & Hrow & Hs).
    { rewrite Hap. apply concat_fmap_elem. eauto. }
    apply tmap_Some in Hrow as [Hin' Hk]; [|apply (wf_key _ _ _ (iwf_table _ _ _ _ (apps_issued _ _ _ (rwf_apps _ Hwf'))))].
    exists row. split_and!; [done..|]. by apply (apps_queues _ _ _ (rwf_apps _ Hwf')).
Qed.

(** A scheduler with one partition, the sample hierarchy and one application. *)
Definition sample_apps (q : PartitionQueueDAOInfo) : list ApplicationDAOInfo :=
  if decide (QueueName q = "root.system") then [sample_app] else [].

Definition full_client : Client := {|
  c_GetPartitions := Ok [sample_partition];
  c_GetPartitionQueues := λ _, Ok sample_root;
  c_GetPartitionNodes := λ _, Ok [sample_node "n1"];
  c_GetApplications := λ _ queue, Ok (if decide (queue = "root.system") then [sample_app] else []);
  c_GetNodeUtil := Ok [];
  c_GetAppsHistory := Ok [];
  c_GetContainersHistory := Ok [];
|}.

Lemma full_answers :
  @answers full_client [sample_partition] (λ _, sample_root) (λ _, [sample_node "n1"]) sample_apps [] [] [].
Proof. by split. Qed.

Lemma sample_apps_queue q a :
  q ∈ flattenQueues [sample_root] → a ∈ sample_apps q → AppPartition a = Partition q ∧ AppQueueName a = QueueName q.
Proof.
  intros Hq. unfold sample_apps. destruct (decide (QueueName q = "root.system")) as [Hn|]; [|set_solver].
  intros ->%list_elem_of_singleton. rewrite Hn. split; [|done].
  apply list_elem_of_bind in Hq as (root & (q0 & -> & _)%elem_of_flatten & ->%list_elem_of_singleton).
  by destruct (propagate_fields (Partition sample_root) q0) as (-> & _).
Qed.

Definition full_jobs : list sync_job :=
  [JobUpsertPartitions [sample_partition]; JobUpsertQueues (flattenQueues [sample_root]);
   JobUpsertApplications (concat (sample_apps <$> flattenQueues [sample_root]));
   JobUpsertNodes [sample_node "n1"] "default"; JobInsertNodeUtilizations []; JobUpdateHistory [] []].

Lemma full_run : @sync full_client true None full_jobs.
Proof. exact (@sync_run_exists full_client _ _ _ _ _ _ _ full_answers). Qed.

(** The applications are attempted before the queues, fail, and are retried. *)
Definition sample_attempts : list sync_job :=
  [JobUpsertApplications (concat (sample_apps <$> flattenQueues [sample_root]))] ++ full_jobs.

Lemma sample_attempts_order qs al :
  JobUpsertQueues qs ∈ full_jobs → JobUpsertApplications al ∈ full_jobs →
  [JobUpsertQueues qs; JobUpsertApplications al] `sublist_of` sample_attempts.
Proof.
  unfold full_jobs. rewrite !elem_of_cons, !elem_of_nil. intros Hq Ha.
  destruct Hq as [?|[[= ->]|[?|[?|[?|[?|[]]]]]]]; try done.
  destruct Ha as [?|[?|[[= ->]|[?|[?|[?|[]]]]]]]; try done.
  unfold sample_attempts, full_jobs. cbn [app]. do 2 apply sublist_cons. do 2 apply sublist_skip. apply sublist_nil_l.
Qed.

Lemma synced_data_stored_witness :
  let w' := @run_jobs ideal_env sample_int8in sample_attempts empty_world in
  @None error = None ∧ @repo_wf ideal_env w' ∧
  Forall (queue_synced (queue_map empty_world) (queue_map w')) (flattenQueues [sample_root]) ∧
  ∀ q a, q ∈ flattenQueues [sample_root] → a ∈ sample_apps q →
    ∃ row, row ∈ t_applications (w_db w') ∧ app_key row = dao_app_key a ∧ a_state row = State a ∧
           has_queue (t_queues (w_db w')) row.
Proof.
  apply (@synced_data_stored ideal_env ideal_laws full_client sample_int8in [sample_partition] (λ _, sample_root)
    (λ _, [sample_node "n1"]) sample_apps [] [] [] None full_jobs).
  - reflexivity.
  - apply full_answers.
  - apply full_run.
  - apply (@repo_wf_empty ideal_env ideal_laws). reflexivity.
  - apply NoDup_singleton.
  - apply Forall_singleton, sample_acceptable.
  - apply Forall_forall. intros q _ r Hr. discriminate Hr.
  - apply sample_apps_queue.
  - apply NoDup_singleton.
  - apply Forall_forall. unfold sample_attempts. intros j [->%list_elem_of_singleton|Hj]%elem_of_app; [|exact Hj].
    do 2 apply list_elem_of_further. apply list_elem_of_here.
  - apply sample_attempts_order.
Defined.
