(* ===== verification/SyncConcur.v ===== *)
(** * Synchronisations whose jobs run at the same time

    The work queue starts the jobs of every synchronisation in their order but does
    not wait for one to end before it starts the next, and it retries the ones
    that fail, while later synchronisations add theirs.  Here the attempts of the
    jobs of any number of synchronisations are calls of a pool, next to the
    writes of the collector of events and the readers of the web service: their
    statements interleave in any way, and any of them may be lost.  The protocol
    says that rows keep their identity, that a row that reflects its queue goes
    on doing so, and that two calls never hold the same identifier. *)
From S2P Require Import Prelude GoStrings SqlBuilder Dao Db Pool Upsert QueueRepo QueueInv QueueUpsert.
From S2P Require Import AppRepo StatusRepo Repository StatusTheorems FlattenQueues QueueTheorems RepoInv RepoConcur AppTheorems.
From S2P Require Import Sync DataSync.

(** An attempt of a job remembers the world in which it began. *)
Inductive sync_task :=
| Attempt (j : sync_job) (begun : world)
| EventWrite (a : ApplicationDAOInfo)
| Reading (m : M ()).

(** What one synchronisation fetches: the hierarchies and the applications. *)
Record report := mkReport {
  report_roots : list PartitionQueueDAOInfo;
  report_apps : list ApplicationDAOInfo;
}.

Section concurrent_sync.
Context `{EnvLaws} (int8in : string → option Z).
(** The reports of all synchronisations, and what the collector of events
    stores. *)
Context (reports : report → Prop) (reported : ApplicationDAOInfo → Prop).
Context (m0 : gmap (string * string) QueueRow).
Context (Hacc : ∀ R, reports R → Forall acceptable (report_roots R)).
Context (Happs : ∀ R a, reports R → a ∈ report_apps R →
  ∃ q, q ∈ flattenQueues (report_roots R) ∧ AppPartition a = Partition q ∧ AppQueueName a = QueueName q).

(** ** The protocol

    A queue is written by every synchronisation that reports it, an application
    also by the collector of events; the last one decides what the row says. *)
Definition known_queue_report (q : PartitionQueueDAOInfo) : Prop :=
  ∃ R, reports R ∧ q ∈ flattenQueues (report_roots R).

Definition known_app (a : ApplicationDAOInfo) : Prop := (∃ R, reports R ∧ a ∈ report_apps R) ∨ reported a.

Definition reflects_report (r : QueueRow) (k : string * string) : Prop :=
  ∃ q, known_queue_report q ∧ dao_key q = k ∧ reflects r q.

Definition queue_stored (q : PartitionQueueDAOInfo) (w : world) : Prop :=
  ∃ r, queue_map w !! dao_key q = Some r ∧ reflects_report r (dao_key q) ∧ q_deleted_at r = None ∧
       ∀ old, m0 !! dao_key q = Some old → same_identity old r.

Definition app_stored (a : ApplicationDAOInfo) (w : world) : Prop :=
  ∃ row e, app_map w !! dao_app_key a = Some row ∧ known_app e ∧ dao_app_key e = dao_app_key a ∧ a_state row = State e.

Definition all_kept (w : world) : Prop := ∀ R, reports R → kept (report_roots R) m0 w.

Record evolves (w w' : world) : Prop := {
  ev_grow : queues_grow w w';
  ev_queues : ∀ k r, queue_map w !! k = Some r → ∃ r', queue_map w' !! k = Some r' ∧ same_identity r r' ∧
    (reflects_report r k → reflects_report r' k);
  ev_apps : ∀ a, app_stored a w → app_stored a w';
  ev_calls : (w_calls w ≤ w_calls w')%nat;
}.

#[export] Instance evolves_preorder : PreOrder evolves.
Proof.
  split.
  - intros w. split; [done| |done|done]. intros k r Hr. exists r. by split_and!.
  - intros w1 w2 w3 [Hg Hq Ha Hc] [Hg' Hq' Ha' Hc']. split; [by etrans| |by eauto|lia]. intros k r Hr.
    destruct (Hq k r Hr) as (r2 & Hr2 & Hid & Href). destruct (Hq' k r2 Hr2) as (r3 & Hr3 & Hid' & Href').
    exists r3. split_and!; [done|by etrans|]. eauto.
Qed.

Lemma evolves_same_tables w w' :
  t_queues (w_db w') = t_queues (w_db w) → t_applications (w_db w') = t_applications (w_db w) →
  moves_on w w' → evolves w w'.
Proof.
  intros Hq Ha [Hu Hc]. split; [| | |done].
  - split; [done|]. rewrite Hq. eauto.
  - unfold queue_map. rewrite Hq. intros k r Hr. exists r. by split_and!.
  - unfold app_stored, app_map. by rewrite Ha.
Qed.

Definition row_ids (w : world) : list string :=
  (q_id <$> t_queues (w_db w)) ++ (a_id <$> t_applications (w_db w)).

(** The identifiers of new rows satisfy [P]. *)
Definition new_ids (P : nat → Prop) (w w' : world) : Prop :=
  ∀ id, id ∈ row_ids w' → id ∈ row_ids w ∨ ∃ k, id = env_uuid k ∧ P k.

#[local] Instance sync_protocol : Protocol := {|
  inv g := repo_wf (ow g) ∧ all_kept (ow g) ∧ ∀ k t, owner g k = Some t → (k < w_uuids (ow g))%nat;
  rely t g g' := evolves (ow g) (ow g') ∧ (∀ k, owner g' k = Some t ↔ owner g k = Some t) ∧
    new_ids (λ k, owner g' k ≠ Some t) (ow g) (ow g');
  guar t g g' := evolves (ow g) (ow g') ∧ (∀ k t', t' ≠ t → owner g' k = Some t' ↔ owner g k = Some t') ∧
    new_ids (λ k, owner g' k = Some t) (ow g) (ow g');
|}.

#[local] Instance sync_protocol_laws : ProtocolLaws sync_protocol.
Proof.
  split.
  - intros t. split.
    + intros g. split; [reflexivity|]. split; [done|]. intros id Hid. by left.
    + intros g1 g2 g3 (He & Ho & Hn) (He' & Ho' & Hn'). split; [by etrans|]. split; [intros k; by rewrite Ho'|].
      intros id Hid. destruct (Hn' id Hid) as [Hid2|?]; [|by right]. destruct (Hn id Hid2) as [?|(k & -> & Hk)]; [by left|].
      right. exists k. split; [done|]. by rewrite Ho'.
  - intros t t' g g' Hne _ _ (He & Ho & Hn). split; [done|]. split; [by intros k; apply Ho|].
    intros id Hid. destruct (Hn id Hid) as [?|(k & -> & Hk)]; [by left|]. right. exists k. split; [done|]. congruence.
  - intros t g g' (Hwf & Hk & Hlt) Hdb [Hu Hc] Ho. split; [split; [|split]|split; [|split]].
    + eapply repo_wf_step; [exact Hwf|by apply step_other].
    + unfold all_kept, kept, queue_map. by rewrite Hdb.
    + intros k t'. rewrite Ho. case_decide; [lia|]. intros Hkt. specialize (Hlt k t' Hkt). lia.
    + by apply evolves_same_tables; rewrite ?Hdb.
    + intros k t' Hne. rewrite Ho. case_decide as Hin; [|done]. split; [congruence|]. intros Hkt. specialize (Hlt k t' Hkt). lia.
    + intros id. unfold row_ids. rewrite Hdb. auto.
Qed.

(** ** What a call knows *)
Section calls.
Context (t : nat).

(** Facts that remain true while rows evolve. *)
Definition stable (K : world → Prop) : Prop := ∀ w w', evolves w w' → K w → K w'.

(** An identifier that this call has drawn and not used. *)
Definition mine (k : nat) (g : owned) : Prop :=
  owner g k = Some t ∧ (k < w_uuids (ow g))%nat ∧ env_uuid k ∉ row_ids (ow g).

Lemma mine_later k g g' : mine k g → later t g g' → mine k g'.
Proof.
  intros (Ho & Hk & Hni) [(He & Ho' & Hn) _]. split; [by apply Ho'|]. split; [destruct (ev_grow _ _ He); lia|].
  intros Hid. destruct (Hn _ Hid) as [?|(k' & <-%env_uuid_inj & Hk')]; [done|]. apply Hk'. by apply Ho'.
Qed.

Lemma mine_same k g g' : same_tables g g' → mine k g → mine k g'.
Proof.
  intros (Hdb & Hu & _ & Ho') (Ho & Hk & Hni). split; [by rewrite Ho'|]. split; [by rewrite Hu|]. unfold row_ids. by rewrite Hdb.
Qed.

Lemma row_ids_issued w id : repo_wf w → id ∈ row_ids w → ∃ k, (k < w_uuids w)%nat ∧ id = env_uuid k.
Proof.
  intros Hwf [(r & -> & Hr)%list_elem_of_fmap|(r & -> & Hr)%list_elem_of_fmap]%elem_of_app.
  - by apply (wf_issued _ _ (rwf_queues _ Hwf)).
  - by apply (iwf_issued _ _ _ _ (apps_issued _ _ _ (rwf_apps _ Hwf))).
Qed.

Lemma same_tables_evolves g g' : same_tables g g' → evolves (ow g) (ow g').
Proof. intros (Hdb & Hu & Hc & _). apply evolves_same_tables; [by rewrite Hdb..|split; lia]. Qed.

Lemma later_evolves g g' : later t g g' → evolves (ow g) (ow g').
Proof. by intros [[? _] _]. Qed.

Lemma stable_later K g g' : stable K → K (ow g) → later t g g' → K (ow g').
Proof. intros HK Hg Hl. by eapply HK; [apply later_evolves|]. Qed.

Lemma rg_uuid_mine (K : world → Prop) (Q : result string → owned → Prop) g :
  stable K → K (ow g) →
  (∀ w0 g', repo_wf w0 → K w0 → evolves w0 (ow g') → (w_uuids w0 < w_uuids (ow g'))%nat → inv g' →
     mine (w_uuids w0) g' → Q (Ok (env_uuid (w_uuids w0))) g') →
  rg t uuid_NewString Q g.
Proof.
  intros HK Hg HQ. apply rg_uuid. intros g' g1 g2 Hl Hl2 Hi1 Hdb Hu Hmv Ho.
  destruct Hl as [Hr (Hwf & Hrest)]. pose proof (later_evolves g1 g2 Hl2) as He2.
  assert (evolves (ow g') (ow g1)) as He1 by (apply evolves_same_tables; [by rewrite Hdb..|done]).
  apply HQ; [done| |by etrans|destruct (ev_grow _ _ He2); lia|apply Hl2|].
  - eapply (stable_later K g g'); [done..|split; [done|by split]].
  - eapply mine_later; [|exact Hl2]. split; [done|]. split; [lia|]. unfold row_ids. rewrite Hdb. intros Hid.
    destruct (row_ids_issued _ _ Hwf Hid) as (k & Hk & Heq%env_uuid_inj). lia.
Qed.

Lemma rg_now_mine k (K : world → Prop) (Q : result Z → owned → Prop) g :
  stable K → K (ow g) → mine k g → (∀ now g', inv g' → K (ow g') → mine k g' → Q (Ok now) g') → rg t time_Now_Unix Q g.
Proof.
  intros HK Hg Hm HQ. apply rg_now. intros now g' g1 g2 Hl Hst Hl2. apply HQ; [apply Hl2|..].
  - eapply (stable_later K g1 g2); [done| |done]. eapply HK; [by apply same_tables_evolves|]. by eapply (stable_later K g g').
  - eapply mine_later; [|exact Hl2]. eapply mine_same; [exact Hst|]. by eapply mine_later.
Qed.

(** A live row of the table. *)
Definition live_at (k : string * string) (w : world) : Prop := is_live (queue_map w) k.

Lemma live_stable k : stable (live_at k).
Proof.
  intros w w' He (r & Hr & Hlive). destruct (ev_queues _ _ He k r Hr) as (r' & Hr' & Hid & _). exists r'. split; [done|].
  by rewrite (same_deleted _ _ Hid).
Qed.

(** Facts that hold when a statement is sent hold when its error is returned. *)
Lemma stable_lossy K g g' g1 g2 :
  stable K → K (ow g) → later t g g' → guar t g' g1 → later t g1 g2 → K (ow g2).
Proof.
  intros HK Hg Hl [He _] Hl2. eapply (stable_later K g1 g2); [done| |done]. eapply HK; [exact He|].
  by eapply (stable_later K g g').
Qed.

(** What was lost since [b]. *)
Definition since (b w : world) : Prop := (w_calls b ≤ w_calls w)%nat.

Lemma since_stable b : stable (since b).
Proof. intros w w' He Hb. pose proof (ev_calls _ _ He). unfold since in *. lia. Qed.

Lemma lost_stable b : stable (lost_between b).
Proof. intros w w' He. apply lost_between_mono; [done|apply (ev_calls _ _ He)]. Qed.

Lemma lost_later b g g' g1 g2 :
  since b (ow g) → later t g g' → lost_between (ow g') (ow g1) → later t g1 g2 → lost_between b (ow g2).
Proof.
  intros Hb Hl Hlost Hl2. eapply (stable_later _ g1 g2); [apply lost_stable| |done].
  eapply lost_between_mono; [|done|exact Hlost]. eapply (stable_later _ g g' (since_stable b)) in Hl; [|done]. exact Hl.
Qed.

(** [getQueueID] finds the row if it is live when the call begins and its
    statement is delivered; what it finds is a row of that name. *)
Lemma rg_getQueueID_live b n p (K : world → Prop) (Q : result (option string) → owned → Prop) g :
  stable K → K (ow g) → since b (ow g) → n ≠ "" →
  (∀ id g', inv g' → K (ow g') → known_queue (ow g') id (p, n) → Q (Ok (Some id)) g') →
  (∀ e g', inv g' → K (ow g') → lost_between b (ow g') ∨ ¬ live_at (p, n) (ow g) → Q (Err e) g') →
  rg t (getQueueID n p) Q g.
Proof.
  intros HK Hg Hb Hn Hok Herr. unfold getQueueID. rewrite decide_False by done.
  apply rg_bind, rg_map_err, rg_bind, rg_select; [apply _|..].
  { intros e g' g1 g2 Hlossy Hl _ Hgu Hl2 g3 Hl3 g4 Hl4 g5 Hl5. apply Herr; [apply Hl5| |left].
    - do 3 (eapply (stable_later K); [done| |done]). by eapply (stable_lossy K g g' g1).
    - do 3 (eapply (stable_later _ _ _ (lost_stable b)); [|done]). by eapply (lost_later b g g' g1). }
  intros l g' g1 g2 Hl Hrows Hst Hl2.
  assert (evolves (ow g') (ow g2)) as He by (etrans; [by apply same_tables_evolves|by apply later_evolves]).
  assert (K (ow g2)) as Hg2 by (eapply HK; [exact He|by eapply (stable_later K g g')]).
  destruct l as [|r l].
  - intros g3 Hl3 g4 Hl4 g5 Hl5. apply Herr; [apply Hl5|by do 3 (eapply (stable_later K); [done| |done])|].
    right. intros Hlive. eapply (stable_later _ g g') in Hlive; [|apply live_stable|done].
    destruct Hlive as (r & Hr & Hd). apply queue_map_Some in Hr as [Hin Hk]; [|apply Hl].
    assert (r ∈ @nil QueueRow) as []%not_elem_of_nil. rewrite Hrows. apply list_elem_of_filter. split; [|done].
    unfold queue_key in Hk. by injection Hk.
  - intros g3 Hl3 g4 Hl4 g5 Hl5. apply Hok; [apply Hl5|by do 3 (eapply (stable_later K); [done| |done])|].
    assert (r ∈ filter (alive_at n p) (t_queues (w_db (ow g')))) as Hr by (rewrite <- Hrows; set_solver).
    apply list_elem_of_filter in Hr as [(Hrn & Hrp & _) Hin].
    apply (known_queue_grow (ow g')).
    + apply ev_grow. etrans; [exact He|]. etrans; [by apply later_evolves|]. etrans; [by apply later_evolves|by apply later_evolves].
    + exists r. split_and!; [done..|]. unfold queue_key. by rewrite Hrn, Hrp.
Qed.

(** *** Queues *)
Lemma known_queue_valid q : known_queue_report q → valid_queue q.
Proof.
  intros (R & HR & Hq). assert (Forall valid_queue (flattenQueues (report_roots R))) as Hall; [|by eapply Forall_forall in Hall].
  apply Forall_bind. eapply Forall_impl; [by apply Hacc|]. apply flatten_valid.
Qed.

(** The row that the statement writes. *)
Lemma merged_row w q id pid now :
  all_kept w → known_queue_report q → queues_wf w →
  ∃ r, merge_into queue_key queue_merge (queue_row id pid now q) (queue_map w) = <[dao_key q := r]> (queue_map w) ∧
    reflects r q ∧ q_deleted_at r = None ∧ (∀ old, queue_map w !! dao_key q = Some old → same_identity old r) ∧
    (∀ old, m0 !! dao_key q = Some old → same_identity old r).
Proof.
  intros Hk (R & HR & Hq) Hwf. specialize (Hk R HR). unfold kept in Hk. rewrite Forall_forall in Hk. destruct (Hk q Hq) as [Hnd Hid].
  unfold merge_into. change (queue_key (queue_row id pid now q)) with (dao_key q). eexists. split; [done|].
  destruct (queue_map w !! dao_key q) as [old|] eqn:Hold; split_and!; try done.
  - apply queue_merge_reflects. by apply queue_map_Some in Hold as [_ ?].
  - apply (Hnd old Hold).
  - by intros ? [= <-].
  - intros o Ho. destruct (Hid o Ho) as (r1 & [= <-] & Hsame). etrans; [exact Hsame|apply queue_merge_identity].
  - intros o Ho. destruct (Hid o Ho) as (r1 & Hr1 & _). discriminate Hr1.
Qed.

Lemma kept_insert w w' q r :
  all_kept w → queue_map w' = <[dao_key q := r]> (queue_map w) → q_deleted_at r = None →
  (∀ old, m0 !! dao_key q = Some old → same_identity old r) → all_kept w'.
Proof.
  unfold all_kept, kept. intros Hk -> Hd Hold R HR. eapply Forall_impl; [by apply (Hk R)|]. cbn. intros q' [Hnd Hid]. unfold not_deleted.
  destruct (decide (dao_key q = dao_key q')) as [Heq|Hne].
  - rewrite <- Heq, lookup_insert_eq. split; [by intros r' [= <-]|]. intros old Ho. exists r. auto.
  - rewrite lookup_insert_ne by done. done.
Qed.

Lemma sync_queue_stmt q pid k now g :
  known_queue_report q → inv g → mine k g → row_ready PartitionParents (Partition q) pid k (ow g) →
  ∃ d, upsert_queue_stmt (queue_row (env_uuid k) pid now q) (w_db (ow g)) = Ok ((), d) ∧
    ∀ g1, ow g1 = tick d (ow g) → (∀ k, owner g1 k = owner g k) →
      inv g1 ∧ guar t g g1 ∧ queue_stored q (ow g1).
Proof.
  intros Hq (Hwf & Hk & Hlt) (Ho & _ & Hni) Hready.
  pose proof (rwf_queues _ Hwf) as Hqwf. set (new := queue_row (env_uuid k) pid now q).
  destruct (upsert_row_ok queue_key q_id queue_merge new (t_queues (w_db (ow g)))) as [t' Ht'].
  { intros Hin. apply Hni, elem_of_app. by left. }
  assert (upsert_queue_stmt new (w_db (ow g)) = Ok ((), set_queues t' (w_db (ow g)))) as Hs.
  { unfold upsert_queue_stmt. unfold new at 1. by rewrite valid_queue_check, Ht' by (by apply known_queue_valid). }
  eexists. split; [exact Hs|]. intros g1 Hg1 Ho1. destruct (upsert_queue_stmt_ok PartitionParents _ _ _ _ _ _ _ Hwf Hready Hs) as [Hwf1 Hgrow].
  rewrite <- Hg1 in Hwf1, Hgrow.
  destruct (merged_row (ow g) q (env_uuid k) pid now Hk Hq Hqwf) as (r & Hm & Href & Hd & Hsame & Hm0).
  assert (queue_map (ow g1) = <[dao_key q := r]> (queue_map (ow g))) as Hmap.
  { rewrite <- Hm, Hg1. unfold queue_map. cbn [w_db tick t_queues set_queues].
    apply (upsert_row_tmap queue_key q_id queue_merge queue_merge_key queue_merge_id _ _ _ (wf_table _ _ Hqwf) Ht'). }
  split; [|split; [split; [|split]|]].
  - split; [done|]. split; [by eapply kept_insert|]. intros k' t1. rewrite Ho1, Hg1. apply Hlt.
  - split; [done| | |by rewrite Hg1; cbn; lia].
    + intros key old Hold. rewrite Hmap. destruct (decide (dao_key q = key)) as [<-|Hne].
      * rewrite lookup_insert_eq. exists r. split; [done|]. split; [by apply Hsame|].
        intros _. by exists q.
      * rewrite lookup_insert_ne by done. exists old. by split_and!.
    + intros a. unfold app_stored, app_map. by rewrite Hg1.
  - intros k' t1 _. by rewrite Ho1.
  - intros id [Hid|Hid]%elem_of_app; rewrite Hg1 in Hid; cbn in Hid.
    + destruct (upsert_row_pks queue_key q_id queue_merge queue_merge_key queue_merge_id _ _ _ _ Ht' Hid) as [?| ->].
      * left. apply elem_of_app. by left.
      * right. exists k. by rewrite Ho1.
    + left. apply elem_of_app. by right.
  - exists r. rewrite Hmap, lookup_insert_eq. split; [done|]. split; [by exists q|done].
Qed.

Lemma queue_stored_stable q : stable (queue_stored q).
Proof.
  intros w w' He (r & Hr & Href & Hd & Hm). destruct (ev_queues _ _ He _ _ Hr) as (r' & Hr' & Hid & Hr2).
  exists r'. split_and!; [done|by apply Hr2|by rewrite (same_deleted _ _ Hid)|]. intros old Ho. etrans; [by apply Hm|done].
Qed.

Lemma queue_stored_live q w : queue_stored q w → live_at (dao_key q) w.
Proof. intros (r & Hr & _ & Hd & _). by exists r. Qed.

(** A call begun in [b] has achieved [S], or a statement since then was not
    delivered. *)
Definition stored_or_lost (b : world) (S : world → Prop) (r : result ()) (w : world) : Prop :=
  match r with Ok _ => S w | Err _ => lost_between b w end.

(** A queue whose parent is stored is stored, whatever comes in between. *)
Lemma rg_sync_queue b q (K : world → Prop) g :
  known_queue_report q → stable K → (∀ w, K w → since b w) → K (ow g) → Parent q = "" ∨ live_at (Partition q, Parent q) (ow g) →
  rg t (upsert_queue q) (λ r g', stored_or_lost b (queue_stored q) r (ow g') ∧ K (ow g')) g.
Proof.
  intros Hq HK HKb Hg Hpar.
  assert (∀ pid g, K (ow g) → parent_known PartitionParents (Partition q) pid (ow g) →
    rg t (id ← uuid_NewString; now ← time_Now_Unix;
          map_err (ErrPrefix "could not insert/update queue into DB: ")
            (db_call (upsert_queue_stmt (queue_row id pid now q))))
       (λ r g', stored_or_lost b (queue_stored q) r (ow g') ∧ K (ow g')) g) as Hrest.
  { clear g Hg Hpar. intros pid g Hg Hp.
    apply rg_bind, (rg_uuid_mine (λ w, K w ∧ parent_known PartitionParents (Partition q) pid w));
      [|done|].
    { intros w w' He [HKw Hpw]. split; [by eapply HK|]. apply (parent_known_grow _ _ _ _ _ (ev_grow _ _ He) Hpw). }
    intros w0 g1 Hwf0 [HK0 Hp0] He Hlt Hi1 Hm. set (k := w_uuids w0) in *.
    apply rg_bind, (rg_now_mine k (λ w, K w ∧ row_ready PartitionParents (Partition q) pid k w)); [| |done|].
    { intros w w' He' [HKw Hpw]. split; [by eapply HK|]. apply (row_ready_grow _ _ _ _ _ _ (ev_grow _ _ He') Hpw). }
    { split; [by apply (HK w0)|]. apply row_ready_drawn; [done..|apply (ev_grow _ _ He)|done]. }
    intros now g2 Hi2 [HK2 Hr2] Hm2. apply rg_map_err, rg_db_call.
    { intros e g3 g4 g5 Hlost Hl Hi Hgu Hl2 g6 Hl6. split.
      - eapply (stable_later _ g5 g6 (lost_stable b)); [|done]. eapply (lost_later b g2 g3 g4); auto.
      - eapply (stable_later K g5 g6); [done| |done]. by eapply (stable_lossy K g2 g3 g4). }
    intros g3 Hl3. pose proof (mine_later _ _ _ Hm2 Hl3) as Hm3.
    pose proof (row_ready_grow _ _ _ _ _ _ (ev_grow _ _ (later_evolves _ _ Hl3)) Hr2) as Hr3.
    destruct (sync_queue_stmt q pid k now g3 Hq (proj2 Hl3) Hm3 Hr3) as (d & -> & Hd).
    intros g4 Hg4 Ho4. destruct (Hd g4 Hg4 Ho4) as (Hi4 & Hgu & Hs). split_and!; [done..|].
    assert (K (ow g4)) as HK4 by (eapply HK; [apply Hgu|by eapply (stable_later K g2 g3)]).
    intros g5 Hl5 g6 Hl6. split.
    - by do 2 (eapply (stable_later _ _ _ (queue_stored_stable q)); [|done]).
    - by do 2 (eapply (stable_later K); [done| |done]). }
  unfold upsert_queue. apply rg_bind, rg_map_err. destruct (decide (Parent q = "")) as [Hn|Hn].
  - unfold getQueueID. rewrite decide_True by done. intros g1 Hl1 g2 Hl2. apply Hrest; [|by intros ? ?].
    by do 2 (eapply (stable_later K); [done| |done]).
  - destruct Hpar as [?|Hlive]; [done|].
    apply (rg_getQueueID_live b (Parent q) (Partition q) K); [done|done|by apply HKb|done| |].
    2: { intros e g1 _ HK1 [Hlost|?] g2 Hl2 g3 Hl3; [|done]. split.
         - by do 2 (eapply (stable_later _ _ _ (lost_stable b)); [|done]).
         - by do 2 (eapply (stable_later K); [done| |done]). }
    intros id g' Hi' HK' Hkn g2 Hl2. apply Hrest; [by eapply (stable_later K g' g2)|]. intros p [= <-]. exists (Parent q).
    apply (known_queue_grow _ _ _ _ (ev_grow _ _ (later_evolves _ _ Hl2)) Hkn).
Qed.

Lemma stable_and (K K' : world → Prop) : stable K → stable K' → stable (λ w, K w ∧ K' w).
Proof. intros HK HK' w w' He [??]. split; [by eapply HK|by eapply HK']. Qed.

(** The queues before [qs] are live. *)
Lemma rg_sync_queues b qs (seen : (string * string) → Prop) (K : world → Prop) g :
  (∀ q, q ∈ qs → known_queue_report q) → stable K → (∀ w, K w → since b w) → (∀ w k, K w → seen k → live_at k w) →
  K (ow g) → parents_first seen qs →
  rg t (UpsertQueues qs) (λ r g', stored_or_lost b (λ w, ∀ q, q ∈ qs → queue_stored q w) r (ow g') ∧ K (ow g')) g.
Proof.
  revert seen K g. induction qs as [|q qs IH]; intros seen K g Hqs HK HKb Hseen Hg Hpf.
  - intros g' Hl. split; [by intros q ?%not_elem_of_nil|]. by eapply (stable_later K).
  - destruct Hpf as [Hp Hps]. assert (known_queue_report q) as Hq by apply Hqs, list_elem_of_here.
    unfold UpsertQueues. cbn [range]. apply rg_bind. eapply rg_mono; [by apply (rg_sync_queue b q K); naive_solver|].
    intros [[]|e] g' Hi' [Hs HK'].
    2: { intros g2 Hl2. split; [by eapply (stable_later _ _ _ (lost_stable b))|by eapply (stable_later K)]. }
    cbn in Hs. set (K' := λ w, queue_stored q w ∧ K w).
    assert (stable K') as HK2 by (apply stable_and; [by apply queue_stored_stable|done]).
    eapply rg_mono; [apply (IH (λ k, k = dao_key q ∨ seen k) K')|]; try done.
    + intros q' Hq'. by apply Hqs, list_elem_of_further.
    + intros w [_ Hw]. by apply HKb.
    + intros w k [Hsw HKw] [-> |Hk]; [by apply queue_stored_live|by apply Hseen].
    + intros [[]|e] g2 _ [Hall [Hs2 HK2']]; (split; [|done]); [|done]. intros q' [-> |Hq']%elem_of_cons; auto.
Qed.

Lemma rg_queues_job b R g :
  reports R → since b (ow g) →
  rg t (UpsertQueues (flattenQueues (report_roots R)))
    (λ r g', stored_or_lost b (λ w, ∀ q, q ∈ flattenQueues (report_roots R) → queue_stored q w) r (ow g')) g.
Proof.
  intros HR Hb. eapply rg_mono; [apply (rg_sync_queues b (flattenQueues (report_roots R)) (λ _, False) (since b))|]; try done.
  - intros q Hq. by exists R.
  - apply since_stable.
  - apply flattenQueues_parents_first; (eapply Forall_impl; [by apply Hacc|]); intros q Hq;
      [apply (acc_named _ Hq)|apply (acc_top _ Hq)].
  - by intros r g' _ [Hr _].
Qed.

(** *** Applications *)
Lemma report_app_named R a : reports R → a ∈ report_apps R → AppQueueName a ≠ "".
Proof. intros HR Ha. destruct (Happs R a HR Ha) as (q & Hq & _ & ->). eapply flattenQueues_named; [by apply Hacc|done]. Qed.

Lemma app_stored_stable a : stable (app_stored a).
Proof. intros w w' He. by apply (ev_apps _ _ He). Qed.

Lemma sync_app_stmt a id k g :
  known_app a → inv g → mine k g → known_queue (ow g) id (AppPartition a, AppQueueName a) →
  ∃ d, upsert_app_stmt (env_uuid k) (Some id) a (w_db (ow g)) = Ok ((), d) ∧
    ∀ g1, ow g1 = tick d (ow g) → (∀ k, owner g1 k = owner g k) → inv g1 ∧ guar t g g1 ∧ app_stored a (ow g1).
Proof.
  intros Ha (Hwf & Hk & Hlt) (Ho & Hkn & Hni) Hqueue. pose proof (apps_issued _ _ _ (rwf_apps _ Hwf)) as Hiss.
  set (new := app_row (env_uuid k) id a).
  destruct (upsert_row_ok app_key a_id app_merge new (t_applications (w_db (ow g)))) as [t' Ht'].
  { intros Hin. apply Hni, elem_of_app. by right. }
  assert (upsert_app_stmt (env_uuid k) (Some id) a (w_db (ow g)) = Ok ((), set_applications t' (w_db (ow g)))) as Hs.
  { unfold upsert_app_stmt. by fold new; rewrite Ht'. }
  eexists. split; [exact Hs|]. intros g1 Hg1 Ho1. destruct (upsert_app_stmt_ok PartitionParents _ _ _ _ _ _ Hwf Hqueue Hkn Hs) as [Hwf1 Hgrow].
  rewrite <- Hg1 in Hwf1, Hgrow.
  assert (app_map (ow g1) = merge_into app_key app_merge new (app_map (ow g))) as Hmap.
  { rewrite Hg1. unfold app_map. cbn [w_db tick t_applications set_applications].
    apply (upsert_row_tmap app_key a_id app_merge app_merge_key app_merge_pk _ _ _ (iwf_table _ _ _ _ Hiss) Ht'). }
  assert (app_stored a (ow g1)) as Hst.
  { unfold app_stored. rewrite Hmap. unfold merge_into. change (app_key new) with (dao_app_key a). rewrite lookup_insert_eq.
    eexists _, a. split; [done|]. split_and!; [done..|]. by destruct (app_map (ow g) !! _). }
  split; [|split; [split; [|split]|done]].
  - split; [done|]. split; [|intros k' t1; rewrite Ho1, Hg1; apply Hlt]. unfold all_kept, kept, queue_map. by rewrite Hg1.
  - split; [done| | |by rewrite Hg1; cbn; lia].
    + unfold queue_map. rewrite Hg1. intros key r Hr. exists r. by split_and!.
    + intros a' (row & e & Hrow & He). destruct (decide (dao_app_key a' = dao_app_key a)) as [Heq|Hne].
      * unfold app_stored. by rewrite Heq.
      * exists row, e. split; [|done]. rewrite Hmap. unfold merge_into. by rewrite lookup_insert_ne.
  - intros k' t1 _. by rewrite Ho1.
  - intros i [Hid|Hid]%elem_of_app; rewrite Hg1 in Hid; cbn in Hid.
    + left. apply elem_of_app. by left.
    + destruct (upsert_row_pks app_key a_id app_merge app_merge_key app_merge_pk _ _ _ _ Ht' Hid) as [?| ->].
      * left. apply elem_of_app. by right.
      * right. exists k. by rewrite Ho1.
Qed.

(** An attempt that succeeds has stored the application; it cannot fail if the
    queue is live when it begins. *)
Lemma rg_sync_app b a (K : world → Prop) g :
  known_app a → AppQueueName a ≠ "" → stable K → (∀ w, K w → since b w) → K (ow g) →
  rg t (upsert_app a) (λ r g', K (ow g') ∧ (r = Ok () → app_stored a (ow g')) ∧
    (live_at (AppPartition a, AppQueueName a) (ow g) → r = Ok () ∨ lost_between b (ow g'))) g.
Proof.
  intros Ha Hne HK HKb Hg. unfold upsert_app. apply rg_bind, rg_map_err.
  apply (rg_getQueueID_live b _ _ K); [done|done|by apply HKb|done| |].
  - intros id g1 _ HK1 Hkn g2 Hl2. set (K' := λ w, K w ∧ known_queue w id (AppPartition a, AppQueueName a)).
    assert (stable K') as HK'.
    { apply stable_and; [done|]. intros w w' He. apply (known_queue_grow _ _ _ _ (ev_grow _ _ He)). }
    apply rg_bind, (rg_uuid_mine K'); [done|by apply (stable_later K' g1 g2)|].
    intros w0 g3 _ [HK0 Hkn0] He _ _ Hm. set (k := w_uuids w0) in *. apply rg_db_call.
    { intros e g4 g5 g6 Hlost Hl4 _ Hgu Hl6. assert (K (ow g3)) as HK3 by (by eapply HK).
      split; [by eapply (stable_lossy K g3 g4 g5)|]. split; [done|]. right. eapply (lost_later b g3 g4 g5); auto. }
    intros g4 Hl4. destruct (HK' w0 (ow g4)) as [HK4 Hkn4]; [etrans; [exact He|by apply later_evolves]|done|].
    destruct (sync_app_stmt a id k g4 Ha (proj2 Hl4) (mine_later _ _ _ Hm Hl4) Hkn4) as (d & -> & Hd).
    intros g5 Hg5 Ho5. destruct (Hd g5 Hg5 Ho5) as (Hi5 & Hgu & Hs). split_and!; [done..|]. intros g6 Hl6.
    split; [eapply (stable_later K g5 g6); [done|by eapply HK; [apply Hgu|]|done]|]. split; [|by left]. intros _.
    by eapply (stable_later _ g5 g6 (app_stored_stable a)).
  - intros e g1 _ HK1 Hdead g2 Hl2 g3 Hl3. split; [by do 2 (eapply (stable_later K); [done| |done])|]. split; [done|].
    intros Hlive. right. destruct Hdead as [Hlost|?]; [|done]. by do 2 (eapply (stable_later _ _ _ (lost_stable b)); [|done]).
Qed.

Lemma rg_sync_apps b al (K : world → Prop) g :
  (∀ a, a ∈ al → known_app a ∧ AppQueueName a ≠ "") → stable K → (∀ w, K w → since b w) → K (ow g) →
  rg t (UpsertApplications al) (λ r g', K (ow g') ∧ (r = Ok () → ∀ a, a ∈ al → app_stored a (ow g')) ∧
    ((∀ a w, a ∈ al → K w → live_at (AppPartition a, AppQueueName a) w) → r = Ok () ∨ lost_between b (ow g'))) g.
Proof.
  revert K g. induction al as [|a al IH]; intros K g Hal HK HKb Hg.
  - intros g' Hl. split; [by eapply (stable_later K)|]. split; [|by left]. by intros _ a ?%not_elem_of_nil.
  - destruct (Hal a) as [Ha Hne]; [apply list_elem_of_here|].
    unfold UpsertApplications. cbn [range]. apply rg_bind. eapply rg_mono; [by apply (rg_sync_app b a K)|].
    intros [[]|e] g' Hi' (HK' & Hs & Hlive).
    + eapply rg_mono; [apply (IH (λ w, app_stored a w ∧ K w)); [|apply stable_and; [apply app_stored_stable|done]| |by auto]|].
      { intros a' Ha'. by apply Hal, list_elem_of_further. }
      { intros w [_ Hw]. by apply HKb. }
      intros r g2 _ ([Hs2 HK2] & Hall & Hlv). split; [done|]. split.
      * intros Hr a' [-> |Ha']%elem_of_cons; [done|by apply Hall].
      * intros Hl. apply Hlv. intros a' w Ha' [_ HKw]. apply Hl; [by apply list_elem_of_further|done].
    + intros g2 Hl2. split; [by eapply (stable_later K)|]. split; [done|]. intros Hl.
      destruct Hlive as [?|Hlost]; [apply Hl; [apply list_elem_of_here|done]|done|].
      right. by eapply (stable_later _ _ _ (lost_stable b)).
Qed.

(** What the collector of events writes; an application without a queue name is
    refused. *)
Lemma rg_event_write a g : reported a → rg t (UpsertApplications [a]) (λ _ _, True) g.
Proof.
  intros Ha. unfold UpsertApplications. cbn [range]. apply rg_bind.
  apply (rg_mono _ _ (λ _ _, True)); [|intros [u|e] g' _ _ g'' _; done].
  destruct (decide (AppQueueName a = "")) as [Hn|Hn].
  - unfold upsert_app, getQueueID. rewrite decide_True by done. apply rg_bind, rg_map_err.
    intros g1 _ g2 _. apply rg_bind, rg_uuid. intros g3 g4 g5 _ _ _ _ _ _ _. apply rg_db_call; [done|]. by intros.
  - eapply rg_mono; [apply (rg_sync_app (ow g) a (since (ow g))); [by right|done|apply since_stable|auto|by unfold since]|done].
Qed.

(** *** The other jobs

    They keep the invariant as every call does, and leave both tables alone. *)
Definition elsewhere (d d' : db) : Prop := t_queues d' = t_queues d ∧ t_applications d' = t_applications d.

Lemma rg_elsewhere {A} (m : M A) g :
  rg (P := repo_protocol PartitionParents) t m (λ _ _, True) g → keeps elsewhere m → rg t m (λ _ _, True) g.
Proof.
  revert g. induction m as [r|upd next IH]; intros g Hm Hk; [done|]. intros g' Hl.
  pose proof Hl as [(He & _ & _) (Hwf & Hkept & Hlt)].
  destruct (Hm g' (conj (ev_grow _ _ He) Hwf)) as (Hwf1 & _ & Hrg). destruct (Hk (ow g')) as ([Hq Ha] & [Hu Hc] & Hn).
  split; [split; [done|split]|split; [|by apply IH]].
  - unfold all_kept, kept, queue_map in *. cbn. by rewrite Hq.
  - intros k t'. cbn. case_decide; [lia|]. intros Hkt. specialize (Hlt k t' Hkt). lia.
  - split; [by apply evolves_same_tables|]. split.
    + intros k t' Hne. cbn. case_decide; [|done]. split; [congruence|]. intros Hkt. specialize (Hlt k t' Hkt). lia.
    + intros id. unfold row_ids. cbn. rewrite Hq, Ha. by left.
Qed.

Lemma rg_unrelated j g : unrelated j = true → rg t (run_job int8in j) (λ _ _, True) g.
Proof.
  intros Hj. destruct j as [ps|qs|ns partition|al|nus|ah ch]; try done; cbn [run_job].
  - apply rg_elsewhere; [by apply (rg_perform PartitionParents t int8in (CallUpsertPartitions ps))|].
    eapply keeps_impl; [|apply UpsertPartitions_keeps]. by intros d d' ->.
  - apply rg_elsewhere; [by apply (rg_perform PartitionParents t int8in (CallUpsertNodes ns partition))|].
    eapply keeps_impl; [|apply UpsertNodes_keeps]. by intros d d' ->.
  - apply rg_elsewhere.
    + apply (rg_bind (HP := repo_protocol_laws PartitionParents)), (rg_uuid_known PartitionParents t (λ _, True)); [done..|]. intros k g' _ _ _.
      by apply (rg_perform PartitionParents t int8in (CallInsertNodeUtilizations (env_uuid k) nus)).
    + apply keeps_bind; [apply keeps_uuid; split; [done|intros d1 d2 d3 [] []; split; congruence]|]. intros u.
      eapply keeps_impl; [|apply InsertNodeUtilizations_keeps]. by intros d d' [-> _].
  - apply rg_elsewhere; [by apply (rg_perform PartitionParents t int8in (CallUpdateHistory ah ch))|].
    eapply keeps_impl; [|apply UpdateHistory_keeps]. by intros d d' [-> _].
Qed.

End calls.

(** ** The pool of attempts

    The attempts of the jobs, the writes of the collector of events and the
    readers of the web service. *)
Definition task_code (l : sync_task) : M () :=
  match l with
  | Attempt j _ => run_job int8in j
  | EventWrite a => UpsertApplications [a]
  | Reading m => m
  end.

Definition task_allowed (l : sync_task) (w : world) : Prop :=
  match l with
  | Attempt j begun => (∃ R, reports R ∧ own_job (report_roots R) (report_apps R) j) ∧ begun = w
  | EventWrite a => reported a
  | Reading m => reads m
  end.

Definition queues_in (R : report) (w : world) : Prop :=
  ∀ q, q ∈ flattenQueues (report_roots R) → queue_stored q w.

Definition apps_in (R : report) (w : world) : Prop := ∀ a, a ∈ report_apps R → app_stored a w.

(** What a finished attempt has achieved. *)
Definition job_post (j : sync_job) (begun : world) (r : result ()) (w : world) : Prop :=
  ∀ R, reports R →
    (j = JobUpsertQueues (flattenQueues (report_roots R)) → stored_or_lost begun (queues_in R) r w) ∧
    (j = JobUpsertApplications (report_apps R) →
       (r = Ok () → apps_in R w) ∧ (queues_in R begun → r = Ok () ∨ lost_between begun w)).

Definition achieved (l : sync_task) (r : result ()) (g : owned) : Prop :=
  match l with Attempt j begun => job_post j begun r (ow g) | _ => True end.

Lemma queues_in_stable R : stable (queues_in R).
Proof. intros w w' He Hq q Hin. eapply queue_stored_stable; [exact He|auto]. Qed.

Lemma queues_in_live R a w :
  reports R → a ∈ report_apps R → queues_in R w → live_at (AppPartition a, AppQueueName a) w.
Proof.
  intros HR Ha Hs. destruct (Happs R a HR Ha) as (q & Hq & -> & ->). by apply (queue_stored_live q), Hs.
Qed.

(** The specifications of one attempt with respect to all reports. *)
Lemma rg_forall {A B} t (m : M A) (X : B → Prop) (Q : B → result A → owned → Prop) g :
  (∀ x, X x → rg t m (Q x) g) → rg t m (λ _ _, True) g → rg t m (λ r g, ∀ x, X x → Q x r g) g.
Proof.
  revert g. induction m as [r|upd next IH]; intros g Hm Ht g' Hl.
  - intros x Hx. by apply (Hm x Hx).
  - destruct (Ht g' Hl) as (? & ? & Hn). split_and!; [done..|]. apply IH; [|done]. intros x Hx. by apply (Hm x Hx).
Qed.

Lemma rg_and {A} t (m : M A) (Q Q' : result A → owned → Prop) g :
  rg t m Q g → rg t m Q' g → rg t m (λ r g, Q r g ∧ Q' r g) g.
Proof.
  revert g. induction m as [r|upd next IH]; intros g Hm Hm' g' Hl; [split; auto|].
  destruct (Hm g' Hl) as (? & ? & ?), (Hm' g' Hl) as (? & ? & ?). split_and!; auto.
Qed.

Lemma rg_attempt t R j g :
  reports R → own_job (report_roots R) (report_apps R) j → rg t (run_job int8in j) (λ _ _, True) g.
Proof.
  intros HR [-> |[-> |Hj]]; [| |by apply rg_unrelated].
  - eapply rg_mono; [apply (rg_queues_job t (ow g)); [done|by unfold since]|done].
  - eapply rg_mono; [apply (rg_sync_apps t (ow g) (report_apps R) (since (ow g)))|done];
      [|apply since_stable|done|by unfold since].
    intros a Ha. split; [left; by exists R|by eapply report_app_named].
Qed.

Lemma rg_apps_job t R g :
  reports R →
  rg t (UpsertApplications (report_apps R)) (λ r g', (r = Ok () → apps_in R (ow g')) ∧
    (queues_in R (ow g) → r = Ok () ∨ lost_between (ow g) (ow g'))) g.
Proof.
  intros HR. set (b := ow g).
  assert (∀ a, a ∈ report_apps R → known_app a ∧ AppQueueName a ≠ "") as Hknown.
  { intros a Ha. split; [left; by exists R|by eapply report_app_named]. }
  apply rg_and.
  - eapply rg_mono; [apply (rg_sync_apps t b (report_apps R) (since b)); [done|apply since_stable|done|by unfold since]|].
    by intros r g' _ (_ & Hs & _).
  - eapply rg_mono;
      [apply (rg_forall t _ (λ _ : (), queues_in R b) (λ _ r g', r = Ok () ∨ lost_between b (ow g')))|].
    + intros _ Hin. eapply rg_mono; [apply (rg_sync_apps t b (report_apps R) (λ w, queues_in R w ∧ since b w)); [done| | |]|].
      * apply stable_and; [apply queues_in_stable|apply since_stable].
      * by intros w [_ ?].
      * split; [done|by unfold since].
      * intros r g' _ (_ & _ & Hok). apply Hok. intros a w Ha [Hw _]. by eapply queues_in_live.
    + by apply (rg_attempt t R (JobUpsertApplications (report_apps R))); [|right; left].
    + intros r g' _ Hr. by apply (Hr tt).
Qed.

Lemma task_specified t l g : inv g → task_allowed l (ow g) → rg t (task_code l) (achieved l) g.
Proof.
  intros Hi Hl. destruct l as [j begun|a|m]; cbn [task_code]; [|by apply rg_event_write|by apply rg_quiet].
  destruct Hl as [(R0 & HR0 & Hown) ->]. unfold achieved, job_post.
  assert (rg t (run_job int8in j) (λ _ _, True) g) as Htrue by (by eapply rg_attempt).
  apply rg_forall; [|done]. intros R HR. apply rg_and.
  - eapply rg_mono; [apply (rg_forall t _ (λ _ : (), j = JobUpsertQueues (flattenQueues (report_roots R)))
      (λ _ r g', stored_or_lost (ow g) (queues_in R) r (ow g'))); [|done]|].
    + intros _ ->. apply rg_queues_job; [done|by unfold since].
    + intros r g' _ Hr. by apply (Hr tt).
  - eapply rg_mono; [apply (rg_forall t _ (λ _ : (), j = JobUpsertApplications (report_apps R))
      (λ _ r g', (r = Ok () → apps_in R (ow g')) ∧ (queues_in R (ow g) → r = Ok () ∨ lost_between (ow g) (ow g'))));
      [|done]|].
    + intros _ ->. by apply rg_apps_job.
    + intros r g' _ Hr. by apply (Hr tt).
Qed.

Lemma tasks_sound w p :
  repo_wf w → all_kept w → reachable task_code task_allowed w p →
  repo_wf (shared p) ∧
  ∀ t j begun r, calls p !! t = Some (Attempt j begun, Done r) → job_post j begun r (shared p).
Proof.
  intros Hwf Hk Hreach.
  destruct (pool_sound task_code task_allowed achieved task_specified w (λ _, None) p) as ([w' o] & <- & Hi & Hall);
    [done|exact Hreach|]. split; [apply Hi|]. intros t j begun r Ht. by apply (Hall t _ _ Ht).
Qed.

End concurrent_sync.

Lemma reachable_allowed {L} (code : L → M ()) (allowed allowed' : L → world → Prop) w p :
  (∀ l w, allowed l w → allowed' l w) → reachable code allowed w p → reachable code allowed' w p.
Proof.
  intros Hall. apply rtc_subrel. intros p1 p2 [?|[l Hl]]; [by left|]. right. constructor. by apply Hall.
Qed.

(** ** Synchronisations

    What a synchronisation of the server fetches, and the jobs that it adds.  The
    scheduler may answer differently every time. *)
Record synchronisation := mkSynchronisation {
  sy_roots : list PartitionQueueDAOInfo;
  sy_apps : PartitionQueueDAOInfo → list ApplicationDAOInfo;
  sy_jobs : list sync_job;
}.

(** Hierarchies that the table accepts, one for each partition and without a
    queue that was deleted, and the applications of each queue. *)
Record reportable (S : synchronisation) (w : world) : Prop := {
  rp_partitions : NoDup (Partition <$> sy_roots S);
  rp_acceptable : Forall acceptable (sy_roots S);
  rp_not_deleted : Forall (not_deleted (queue_map w)) (flattenQueues (sy_roots S));
  rp_apps q a : q ∈ flattenQueues (sy_roots S) → a ∈ sy_apps S q → AppPartition a = Partition q ∧ AppQueueName a = QueueName q;
}.

(** A run of [sync] against a scheduler that answers every request. *)
Definition sync_run (w : world) (S : synchronisation) : Prop :=
  reportable S w ∧
  ∃ (c : Client) partitions queues nodes nus ah ch res,
    answers partitions queues nodes (sy_apps S) nus ah ch ∧ sync true res (sy_jobs S) ∧ sy_roots S = queues <$> partitions.

(** The report behind it: the goroutines may have fetched in another order. *)
Record report_of (S : synchronisation) (R : report) : Prop := {
  ro_queues : flattenQueues (report_roots R) ≡ₚ flattenQueues (sy_roots S);
  ro_apps : report_apps R ≡ₚ concat (sy_apps S <$> flattenQueues (sy_roots S));
  ro_acceptable : Forall acceptable (report_roots R);
  ro_jobs j : j ∈ sy_jobs S → own_job (report_roots R) (report_apps R) j;
}.

Lemma sync_run_report w S : sync_run w S → ∃ R, report_of S R.
Proof.
  intros [Hrep (c & partitions & queues & nodes & nus & ah & ch & res & Ha & Hsync & Hroots)].
  destruct (sync_complete_jobs partitions queues nodes (sy_apps S) nus ah ch res (sy_jobs S) Ha Hsync)
    as (_ & porder & qorder & rest & Hpo & Hqo & Hjobs & Hperm & _).
  assert (flattenQueues (queues <$> porder) ≡ₚ flattenQueues (sy_roots S)) as Hfl.
  { rewrite Hroots. apply flattenQueues_proper. by rewrite Hpo. }
  exists (mkReport (queues <$> porder) (concat (sy_apps S <$> qorder))). split; cbn.
  - exact Hfl.
  - by rewrite Hqo, Hfl.
  - rewrite Hpo, <- Hroots. apply (rp_acceptable _ _ Hrep).
  - intros j Hj. rewrite Hjobs in Hj. by eapply complete_jobs_own.
Qed.

Section synchronisations.
Context `{EnvLaws} (int8in : string → option Z).
(** All synchronisations of the server, on tables that began as [w0]. *)
Context (syncs : synchronisation → Prop) (reported : ApplicationDAOInfo → Prop) (w0 : world).
Context (Hruns : ∀ S, syncs S → sync_run w0 S).

Definition fetched_queue (q : PartitionQueueDAOInfo) : Prop := ∃ S, syncs S ∧ q ∈ flattenQueues (sy_roots S).

Definition fetched_app (a : ApplicationDAOInfo) : Prop :=
  ∃ S q, syncs S ∧ q ∈ flattenQueues (sy_roots S) ∧ a ∈ sy_apps S q.

(** Every queue of [S] has a live row, which reflects the queue as one of the
    synchronisations fetched it and keeps the identity that it had. *)
Definition queues_stored (S : synchronisation) (w : world) : Prop :=
  ∀ q, q ∈ flattenQueues (sy_roots S) →
  ∃ r q', queue_map w !! dao_key q = Some r ∧ fetched_queue q' ∧ dao_key q' = dao_key q ∧ reflects r q' ∧
          q_deleted_at r = None ∧ ∀ old, queue_map w0 !! dao_key q = Some old → same_identity old r.

(** Every application of [S] has a row that points to the row of its queue, in
    the state that a synchronisation fetched or an event reported. *)
Definition apps_stored (S : synchronisation) (w : world) : Prop :=
  ∀ q a, q ∈ flattenQueues (sy_roots S) → a ∈ sy_apps S q →
  ∃ row e, row ∈ t_applications (w_db w) ∧ app_key row = dao_app_key a ∧ has_queue (t_queues (w_db w)) row ∧
           (fetched_app e ∨ reported e) ∧ dao_app_key e = dao_app_key a ∧ a_state row = State e.

Definition sync_allowed (l : sync_task) (w : world) : Prop :=
  match l with
  | Attempt j begun => (∃ S, syncs S ∧ j ∈ sy_jobs S) ∧ begun = w
  | EventWrite a => reported a
  | Reading m => reads m
  end.

Definition sync_report (R : report) : Prop := ∃ S, syncs S ∧ report_of S R.

Lemma report_fetched R q : sync_report R → q ∈ flattenQueues (report_roots R) → fetched_queue q.
Proof. intros (S & HS & HR) Hq. exists S. split; [done|]. by rewrite <- (ro_queues _ _ HR). Qed.

Lemma queues_in_stored S R w :
  syncs S → report_of S R → queues_in sync_report (queue_map w0) R w ↔ queues_stored S w.
Proof.
  intros HS HR. split.
  - intros Hin q Hq. rewrite <- (ro_queues _ _ HR) in Hq.
    destruct (Hin q Hq) as (r & Hr & (q' & (R' & HR' & Hq') & Hk & Href) & Hd & Hold). exists r, q'.
    split_and!; try done. by eapply report_fetched.
  - intros Hst q Hq. rewrite (ro_queues _ _ HR) in Hq. destruct (Hst q Hq) as (r & q' & Hr & Hf & Hk & Href & Hd & Hold).
    exists r. split_and!; try done. exists q'. split; [|done]. destruct Hf as (S' & HS' & Hq').
    destruct (sync_run_report w0 S' (Hruns S' HS')) as [R' HR']. exists R'. split; [by exists S'|]. by rewrite (ro_queues _ _ HR').
Qed.

Lemma report_apps_elem S R a :
  report_of S R → a ∈ report_apps R ↔ ∃ q, q ∈ flattenQueues (sy_roots S) ∧ a ∈ sy_apps S q.
Proof. intros HR. rewrite (ro_apps _ _ HR). apply concat_fmap_elem. Qed.

Lemma apps_in_stored S R w :
  repo_wf w → report_of S R → apps_in sync_report reported R w → apps_stored S w.
Proof.
  intros Hwf HR Hin q a Hq Ha. destruct (Hin a) as (row & e & Hrow & He & Hke & Hs).
  { apply (report_apps_elem S R); [done|]. by exists q. }
  apply tmap_Some in Hrow as [Hrow Hk]; [|apply (wf_key _ _ _ (iwf_table _ _ _ _ (apps_issued _ _ _ (rwf_apps _ Hwf))))].
  exists row, e. split_and!; [done..|by apply (apps_queues _ _ _ (rwf_apps _ Hwf))| |done|done].
  destruct He as [(R' & (S' & HS' & HR') & He)|He]; [left|by right].
  apply (report_apps_elem S' R' e HR') in He as (q' & Hq' & He). by exists S', q'.
Qed.

(** The synchronisations of the server, whose jobs run at the same time, while
    the collector of events stores applications and requests are answered: take
    any runs of [sync] against schedulers that answer every request, and any
    attempts of their jobs, begun at any time, repeated any number of times and
    interleaved in any way, whatever happens to their statements.  From the end
    of an attempt that succeeded on, whatever the others do, what it was to
    store is stored.  Unless one of the statements sent meanwhile is not
    delivered, every attempt of the queues that ends has succeeded, and every
    attempt of the applications that was begun when their queues were stored. *)
Theorem concurrent_syncs_stored p :
  repo_wf w0 → reachable (task_code int8in) sync_allowed w0 p →
  repo_wf (shared p) ∧
  ∀ t j begun r S, calls p !! t = Some (Attempt j begun, Done r) → syncs S → j ∈ sy_jobs S →
    (∀ qs, j = JobUpsertQueues qs →
       (r = Ok () → queues_stored S (shared p)) ∧ (r = Ok () ∨ lost_between begun (shared p))) ∧
    (∀ al, j = JobUpsertApplications al →
       (r = Ok () → apps_stored S (shared p)) ∧ (queues_stored S begun → r = Ok () ∨ lost_between begun (shared p))).
Proof.
  intros Hwf Hreach.
  destruct (tasks_sound int8in sync_report reported (queue_map w0)) with w0 p as [Hwf' Hdone]; try done.
  - by intros R (S & _ & HR); apply HR.
  - intros R a (S & HS & HR) Ha. apply (report_apps_elem S R a HR) in Ha as (q & Hq & Ha).
    exists q. rewrite (ro_queues _ _ HR). split; [done|]. by apply (rp_apps _ _ (proj1 (Hruns S HS))).
  - intros R (S & HS & HR). unfold kept. rewrite (ro_queues _ _ HR).
    eapply Forall_impl; [apply (rp_not_deleted _ _ (proj1 (Hruns S HS)))|]. intros q Hn. split; [done|].
    intros old Hold. by exists old.
  - eapply reachable_allowed; [|exact Hreach]. intros [j begun|a|m] w'; [|done..]. intros [(S & HS & Hj) Hb]. split; [|done].
    destruct (sync_run_report w0 S (Hruns S HS)) as [R HR]. exists R. split; [by exists S|by apply (ro_jobs _ _ HR)].
  - split; [done|]. intros t j begun r S Ht HS Hj. destruct (sync_run_report w0 S (Hruns S HS)) as [R HR].
    destruct (Hdone t j begun r Ht R) as [Hqs Has]; [by exists S|].
    destruct (ro_jobs _ _ HR j Hj) as [-> |[-> |Hu]].
    + split; [|done]. intros qs _. specialize (Hqs eq_refl). rewrite <- (queues_in_stored S R) by done.
      destruct r as [[]|e]; [split; auto|by split; [|right]].
    + split; [done|]. intros al _. destruct (Has eq_refl) as [Hs Hok]. rewrite <- (queues_in_stored S R) by done.
      split; [|done]. intros Hr. by apply (apps_in_stored S R); [| |apply Hs].
    + by split; intros l ->.
Qed.

End synchronisations.

(** ** Two synchronisations

    A scheduler with one partition, the sample hierarchy and one application. *)
Definition client_with (a : ApplicationDAOInfo) : Client := {|
  c_GetPartitions := Ok [sample_partition];
  c_GetPartitionQueues := λ _, Ok sample_root;
  c_GetPartitionNodes := λ _, Ok [sample_node "n1"];
  c_GetApplications := λ _ queue, Ok (if decide (queue = "root.system") then [a] else []);
  c_GetNodeUtil := Ok [];
  c_GetAppsHistory := Ok [];
  c_GetContainersHistory := Ok [];
|}.

Definition apps_with (a : ApplicationDAOInfo) (q : PartitionQueueDAOInfo) : list ApplicationDAOInfo :=
  if decide (QueueName q = "root.system") then [a] else [].

Definition sync_with (a : ApplicationDAOInfo) : synchronisation :=
  mkSynchronisation [sample_root] (apps_with a)
    [JobUpsertPartitions [sample_partition]; JobUpsertQueues (flattenQueues [sample_root]);
     JobUpsertApplications (concat (apps_with a <$> flattenQueues [sample_root]));
     JobUpsertNodes [sample_node "n1"] "default"; JobInsertNodeUtilizations []; JobUpdateHistory [] []].

Lemma apps_with_queue a q b :
  AppPartition a = "default" → AppQueueName a = "root.system" →
  q ∈ flattenQueues [sample_root] → b ∈ apps_with a q → AppPartition b = Partition q ∧ AppQueueName b = QueueName q.
Proof.
  intros Hp Hn Hq. unfold apps_with. destruct (decide (QueueName q = "root.system")) as [Hqn|]; [|set_solver].
  intros ->%list_elem_of_singleton. rewrite Hqn. split; [|done].
  apply list_elem_of_bind in Hq as (root & (q0 & -> & _)%elem_of_flatten & ->%list_elem_of_singleton).
  by destruct (propagate_fields (Partition sample_root) q0) as (-> & _).
Qed.

Lemma sync_with_run a w :
  AppPartition a = "default" → AppQueueName a = "root.system" → w_db w = empty_db → sync_run w (sync_with a).
Proof.
  intros Hp Hn Hw. split.
  - split; [apply NoDup_singleton|apply Forall_singleton, sample_acceptable| |].
    + apply Forall_forall. intros q _ r. unfold queue_map. by rewrite Hw.
    + intros q b. by apply apps_with_queue.
  - assert (@answers (client_with a) [sample_partition] (λ _, sample_root) (λ _, [sample_node "n1"]) (apps_with a) [] [] [])
      as Ha by done.
    exists (client_with a), [sample_partition], (λ _, sample_root), (λ _, [sample_node "n1"]), [], [], [], None.
    split; [exact Ha|]. split; [exact (@sync_run_exists (client_with a) _ _ _ _ _ _ _ Ha)|done].
Qed.

Definition app_in_state (state : string) : ApplicationDAOInfo :=
  mkApplicationDAOInfo "app-1" None None None "default" "root.system" 5 None None None state "alice"
    (Some ["dev"]) "" None None false None 0.

(** A reply is lost on the way. *)
Definition lossy_env : Env := {|
  env_uuid := λ n, pretty n;
  env_now := λ _, 1700000000;
  env_db := λ n, if decide (n = 5%nat) then Lost true (ErrMsg "connection reset by peer") else Delivered;
  env_scan := λ _ _ l, l;
  env_sql := λ _ _ _ _, Err (ErrMsg "syntax error");
|}.

Lemma lossy_laws : @EnvLaws lossy_env.
Proof. by split; [apply _|..]. Qed.
