(* ===== verification/JobExec.v ===== *)
(** * The work queue over the database

    [WorkQueue] says when the jobs of synchronisations are dispatched and
    [Pool] how the statements of their attempts interleave.  This file joins the
    two: every goroutine of [executeWithRetry] in [internal/workqueue/workqueue.go]
    attempts its job as a call of the pool, again after every error, until an
    attempt succeeds or it sees that the context of the jobs is cancelled.  The
    collector of events and the readers of the web service use the database
    meanwhile. *)
From S2P Require Import Prelude GoStrings SqlBuilder Dao Db Pool Upsert QueueRepo QueueInv QueueUpsert.
From S2P Require Import AppRepo StatusRepo Repository StatusTheorems FlattenQueues QueueTheorems RepoInv RepoConcur AppTheorems.
From S2P Require Import WorkQueue Sync DataSync SyncConcur.

Section exec.
Context `{Env} (int8in : string → option Z).
(** The jobs that are added, and the applications that the collector stores. *)
Context (submitted : sync_job → Prop) (reported : ApplicationDAOInfo → Prop).

(** ** The system *)
Record system := mkSystem {
  sys_wq : WorkQueue.WorkQueue (Job := sync_job);
  sys_pool : pool sync_task;
  (* goroutines of executeWithRetry: at the select, and in an attempt, which is
     a call of the pool *)
  waiting : list (item (Job := sync_job));
  attempting : list (item (Job := sync_job) * nat);
  (* history: how the goroutines that returned ended *)
  succeeded : list (item (Job := sync_job));
  cancelled : list (item (Job := sync_job));
}.

Definition set_wq (wq : WorkQueue.WorkQueue) (s : system) : system :=
  mkSystem wq (sys_pool s) (waiting s) (attempting s) (succeeded s) (cancelled s).

Definition set_pool (p : pool sync_task) (s : system) : system :=
  mkSystem (sys_wq s) p (waiting s) (attempting s) (succeeded s) (cancelled s).

(** The deferred decrement of [running] when a goroutine returns. *)
Definition end_worker (l1 l2 : list item) (wq : WorkQueue.WorkQueue (Job := sync_job)) : WorkQueue.WorkQueue :=
  set_workers (spawned wq) (l1 ++ l2) (wrap32 (running wq - 1)) wq.

Definition add_call (l : sync_task) (p : pool sync_task) : pool sync_task :=
  mkPool (calls p ++ [(l, task_code int8in l)]) (shared p).

(** ** Steps

    Whose step it is: the goroutine of [Run], the goroutine that executes an
    item, a call of the pool, or anyone else. *)
Inductive agent :=
| Runner
| Goroutine (i : item (Job := sync_job))
| Call (t : nat)
| Others.

Inductive exec_step (s : system) : agent → system → Prop :=
(* Run *)
| E_run wq' : step ByRun (sys_wq s) wq' → exec_step s Runner (set_wq wq' s)
(* Add, Shutdown and the context of Run *)
| E_queue a wq' : a ∈ [ByAdd; ByShutdown; ByContext] → step a (sys_wq s) wq' → exec_step s Others (set_wq wq' s)
| E_add job name :
    started (sys_wq s) = true → submitted job →
    exec_step s Others
      (set_wq (set_adders ((job, [WithJobName name]) :: adding (sys_wq s)) (sending (sys_wq s)) (sys_wq s)) s)
(* executeWithRetry: it is counted, then it attempts its job until it returns *)
| E_start l1 i l2 :
    spawned (sys_wq s) = l1 ++ i :: l2 →
    exec_step s (Goroutine i)
      (mkSystem (set_workers (l1 ++ l2) (i :: active (sys_wq s)) (wrap32 (running (sys_wq s) + 1)) (sys_wq s))
         (sys_pool s) (i :: waiting s) (attempting s) (succeeded s) (cancelled s))
| E_attempt k1 i k2 :
    waiting s = k1 ++ i :: k2 →
    exec_step s (Goroutine i)
      (mkSystem (sys_wq s) (add_call (Attempt (item_job i) (shared (sys_pool s))) (sys_pool s))
         (k1 ++ k2) ((i, length (calls (sys_pool s))) :: attempting s) (succeeded s) (cancelled s))
| E_failure k1 i t k2 l e :
    attempting s = k1 ++ (i, t) :: k2 → calls (sys_pool s) !! t = Some (l, Done (Err e)) →
    exec_step s (Goroutine i)
      (mkSystem (sys_wq s) (sys_pool s) (i :: waiting s) (k1 ++ k2) (succeeded s) (cancelled s))
| E_success k1 i t k2 l l1 l2 :
    attempting s = k1 ++ (i, t) :: k2 → calls (sys_pool s) !! t = Some (l, Done (Ok ())) →
    active (sys_wq s) = l1 ++ i :: l2 →
    exec_step s (Goroutine i)
      (mkSystem (end_worker l1 l2 (sys_wq s)) (sys_pool s) (waiting s) (k1 ++ k2) (i :: succeeded s) (cancelled s))
| E_cancel k1 i k2 l1 l2 :
    jobctx_done (sys_wq s) = true → waiting s = k1 ++ i :: k2 → active (sys_wq s) = l1 ++ i :: l2 →
    exec_step s (Goroutine i)
      (mkSystem (end_worker l1 l2 (sys_wq s)) (sys_pool s) (k1 ++ k2) (attempting s) (succeeded s) (i :: cancelled s))
(* the database *)
| E_act t l upd next :
    calls (sys_pool s) !! t = Some (l, Act upd next) →
    exec_step s (Call t)
      (set_pool (mkPool (<[t := (l, next (shared (sys_pool s)))]> (calls (sys_pool s))) (upd (shared (sys_pool s)))) s)
| E_event a : reported a → exec_step s Others (set_pool (add_call (EventWrite a) (sys_pool s)) s)
| E_read m : reads m → exec_step s Others (set_pool (add_call (SyncConcur.Reading m) (sys_pool s)) s).

Definition exec_init (opts : list Option_) (w : world) : system :=
  mkSystem (NewWorkQueue opts) (mkPool [] w) [] [] [] [].

(** The process runs until a goroutine panics. *)
Definition exec_reachable (opts : list Option_) (w : world) : system → Prop :=
  rtc (λ s s', panicked (sys_wq s) = false ∧ ∃ who, exec_step s who s') (exec_init opts w).

(** ** What always holds *)

(** The steps of [Add], [Run] and [Shutdown] leave the goroutines that execute
    jobs alone, and every job is in the queue until it has a goroutine. *)
Lemma queue_step_frame a (w w' : WorkQueue.WorkQueue (Job := sync_job)) :
  a ∈ [ByRun; ByAdd; ByShutdown; ByContext] → step a w w' →
  active w' = active w ∧ (jobctx_done w = true → jobctx_done w' = true) ∧ (∀ x, x ∈ adding w' → x ∈ adding w) ∧
  ∃ new, added w' = added w ++ new ∧ queue w' ++ spawned w' ≡ₚ new ++ queue w ++ spawned w ∧
    ∀ i, i ∈ new → ∃ uuid job opts, (job, opts) ∈ adding w ∧ i = newItem uuid job opts.
Proof.
  intros Ha Hstep. assert (a ≠ EnterAdd ∧ a ≠ ByWorker) as [He Hw] by (split; intros ->; set_solver). clear Ha.
  destruct Hstep as [w Hst|w job opts Hst|w l1 job opts l2 u Had|w j Hj Hcl|w Hph|w l1 j l2 Hph Hcl Hsend|w Hph Hcl
    |w j w' Hph Hpop|w w' Hph Hpop|w Hph Hd|w Hph Hst|w Hph Hst|w Hph|w|w Hst|w Hst|w n Hsh|w l1 j l2 Hsp
    |w l1 j l2 Hac]; try done; cbn.
  all: try (unfold pop in Hpop; destruct (queue w) as [|f q] eqn:Hq; simplify_eq; cbn).
  all: try (split_and!; [done|done|done|]; exists []; rewrite ?app_nil_r, ?Hq; split_and!; [done|done|];
            by intros i ?%not_elem_of_nil).
  - split_and!; [done|done|intros x; rewrite Had; set_solver|]. exists [newItem u job opts]. split_and!; [done| |].
    + rewrite <- app_assoc. cbn. by rewrite Permutation_middle.
    + intros i ->%list_elem_of_singleton. exists u, job, opts. split; [rewrite Had; set_solver|done].
  - split_and!; [done|done|done|]. exists []. rewrite app_nil_r. split_and!; [done| |by intros i ?%not_elem_of_nil].
    cbn. by rewrite <- Permutation_middle.
Qed.

(** A job without options beside its name. *)
Definition named (x : sync_job * list (JobOption (Job := sync_job))) : Prop := submitted x.1 ∧ ∃ name, x.2 = [WithJobName name].

(** What a call of the pool may be. *)
Definition exec_allowed (l : sync_task) (w : world) : Prop :=
  match l with
  | Attempt j begun => submitted j ∧ begun = w
  | EventWrite a => reported a
  | SyncConcur.Reading m => reads m
  end.

Record exec_inv (w : world) (s : system) : Prop := {
  ei_pool : Pool.reachable (task_code int8in) exec_allowed w (sys_pool s);
  ei_adding : ∀ x, x ∈ adding (sys_wq s) → named x;
  ei_submitted : ∀ i, i ∈ added (sys_wq s) → submitted (item_job i);
  (* every job that was added is in one place *)
  ei_added : added (sys_wq s) ≡ₚ
    (queue (sys_wq s) ++ spawned (sys_wq s)) ++ active (sys_wq s) ++ cancelled s ++ succeeded s;
  ei_active : active (sys_wq s) ≡ₚ waiting s ++ (attempting s).*1;
  ei_attempt i t : (i, t) ∈ attempting s → ∃ b m, calls (sys_pool s) !! t = Some (Attempt (item_job i) b, m);
  ei_succeeded i : i ∈ succeeded s → ∃ t b, calls (sys_pool s) !! t = Some (Attempt (item_job i) b, Done (Ok ()));
  ei_cancelled : cancelled s ≠ [] → jobctx_done (sys_wq s) = true;
}.

Lemma exec_inv_init opts w : exec_inv w (exec_init opts w).
Proof.
  split; try done; cbn; [apply rtc_refl|set_solver..].
Qed.

(** Calls keep what they were started as, and those that are done their result. *)
Lemma pool_step_calls p p' t l m :
  pool_step (task_code int8in) exec_allowed p p' → calls p !! t = Some (l, m) →
  ∃ m', calls p' !! t = Some (l, m') ∧ ∀ r, m = Done r → m' = m.
Proof.
  intros [[t' l' upd next Ht']|[l' Hl']] Ht; cbn.
  - destruct (decide (t = t')) as [->|Hne].
    + rewrite Ht in Ht'. injection Ht' as -> ->. eexists. split; [apply list_lookup_insert_eq, lookup_lt_is_Some; by eexists|done].
    + exists m. split; [by rewrite list_lookup_insert_ne|done].
  - exists m. split; [by apply lookup_app_l_Some|done].
Qed.

(** A step of the database. *)
Lemma exec_inv_pool w s p' :
  exec_inv w s → pool_step (task_code int8in) exec_allowed (sys_pool s) p' → exec_inv w (set_pool p' s).
Proof.
  intros [Hp Had Hsub Hadd Hact Hatt Hsucc Hc] Hstep. split; try done.
  - by eapply rtc_r.
  - intros i t Hi. destruct (Hatt i t Hi) as (b & m & Hm).
    destruct (pool_step_calls _ _ _ _ _ Hstep Hm) as (m' & Hm' & _). by exists b, m'.
  - intros i Hi. destruct (Hsucc i Hi) as (t & b & Ht). destruct (pool_step_calls _ _ _ _ _ Hstep Ht) as (m' & Hm' & Hd).
    exists t, b. cbn. by rewrite Hm', (Hd (Ok ())).
Qed.

(** A step of the queue. *)
Lemma exec_inv_queue w s a wq' :
  exec_inv w s → a ∈ [ByRun; ByAdd; ByShutdown; ByContext] → step a (sys_wq s) wq' → exec_inv w (set_wq wq' s).
Proof.
  intros [Hp Had Hsub Hadd Hact Hatt Hsucc Hc] Ha Hstep.
  destruct (queue_step_frame _ _ _ Ha Hstep) as (Heq & Hj & Hads & new & Hnew & Hq & Hni). split; cbn; try done.
  - intros x Hx. by apply Had, Hads.
  - intros i. rewrite Hnew. intros [Hi|Hi]%elem_of_app; [by apply Hsub|].
    destruct (Hni i Hi) as (uuid & job & opts & Hin & ->). destruct (Had _ Hin) as [Hs [name Ho]]. cbn in Ho. by subst opts.
  - rewrite Hnew, Hq, Heq, Hadd. solve_Permutation.
  - by rewrite Heq.
  - auto.
Qed.

Lemma add_call_step l p : exec_allowed l (shared p) → pool_step (task_code int8in) exec_allowed p (add_call l p).
Proof. intros Hl. right. by apply (start_step (task_code int8in) exec_allowed p l). Qed.

(** A goroutine that attempts its job starts a call. *)
Lemma exec_inv_attempt w s k1 i k2 :
  exec_inv w s → waiting s = k1 ++ i :: k2 →
  exec_inv w (mkSystem (sys_wq s) (add_call (Attempt (item_job i) (shared (sys_pool s))) (sys_pool s))
    (k1 ++ k2) ((i, length (calls (sys_pool s))) :: attempting s) (succeeded s) (cancelled s)).
Proof.
  intros Hinv Hw. assert (i ∈ added (sys_wq s)) as Hi.
  { rewrite (ei_added _ _ Hinv), (ei_active _ _ Hinv), Hw. rewrite !elem_of_app, elem_of_cons. tauto. }
  destruct (exec_inv_pool _ _ (add_call (Attempt (item_job i) (shared (sys_pool s))) (sys_pool s)) Hinv)
    as [Hp Had Hsub Hadd Hact Hatt Hsucc Hc].
  { apply add_call_step. split; [by apply (ei_submitted _ _ Hinv)|done]. }
  split; cbn in *; try done.
  - rewrite Hact, Hw. solve_Permutation.
  - intros i' t' [[= -> ->]|Hit]%elem_of_cons; [|by apply Hatt]. eexists _, _. by rewrite lookup_app_r, Nat.sub_diag by lia.
Qed.

Lemma exec_inv_step w s who s' : exec_inv w s → exec_step s who s' → exec_inv w s'.
Proof.
  intros Hinv Hstep. destruct Hstep as [wq' Hs|a wq' Ha Hs|job name Hst Hsub|l1 i l2 Hsp|k1 i k2 Hw|k1 i t k2 l e Hk Ht
    |k1 i t k2 l l1 l2 Hk Ht Hl|k1 i k2 l1 l2 Hd Hk Hl|t l upd next Ht|a Ha|m Hm].
  - eapply exec_inv_queue; [done| |done]. apply list_elem_of_here.
  - eapply exec_inv_queue; [done| |done]. by apply list_elem_of_further.
  - destruct Hinv as [Hp Had Hsubm Hadd Hact Hatt Hsucc Hc]. split; try done.
    intros x [-> |Hx]%elem_of_cons; [|by apply Had]. split; [done|]. by exists name.
  - destruct Hinv as [Hp Had Hsubm Hadd Hact Hatt Hsucc Hc]. split; cbn; try done.
    + rewrite Hadd, Hsp. solve_Permutation.
    + by rewrite Hact.
  - by apply exec_inv_attempt.
  - destruct Hinv as [Hp Had Hsubm Hadd Hact Hatt Hsucc Hc]. split; cbn; try done.
    + rewrite Hact, Hk, !fmap_app. cbn. solve_Permutation.
    + intros i' t' Hit. apply Hatt. rewrite Hk. set_solver.
  - destruct Hinv as [Hp Had Hsubm Hadd Hact Hatt Hsucc Hc]. split; cbn; try done.
    + rewrite Hadd, Hl. solve_Permutation.
    + apply (Permutation_cons_inv (a := i)). rewrite Permutation_middle, <- Hl, Hact, Hk, !fmap_app. cbn. solve_Permutation.
    + intros i' t' Hit. apply Hatt. rewrite Hk. set_solver.
    + intros i' [-> |Hi']%elem_of_cons; [|by apply Hsucc]. exists t. destruct (Hatt i t) as (b & m & Hm); [rewrite Hk; set_solver|]. exists b.
      pose proof (eq_trans (eq_sym Ht) Hm) as [= -> _]. exact Ht.
  - destruct Hinv as [Hp Had Hsubm Hadd Hact Hatt Hsucc Hc]. split; cbn; try done.
    + rewrite Hadd, Hl. solve_Permutation.
    + apply (Permutation_cons_inv (a := i)). rewrite Permutation_middle, <- Hl, Hact, Hk. solve_Permutation.
  - apply exec_inv_pool; [done|]. left. by apply (act_step (sys_pool s) t l upd next).
  - apply exec_inv_pool; [done|]. by apply add_call_step.
  - apply exec_inv_pool; [done|]. by apply add_call_step.
Qed.

Lemma exec_reachable_inv opts w s : exec_reachable opts w s → exec_inv w s.
Proof.
  intros Hreach. pose proof (exec_inv_init opts w) as Hinit. unfold exec_reachable in Hreach.
  induction Hreach as [s|s s1 s2 (_ & who & Hstep) _ IH]; [done|]. apply IH. by eapply exec_inv_step.
Qed.

End exec.

(** The jobs that the synchronisations add. *)
Definition added_by (syncs : synchronisation → Prop) (j : sync_job) : Prop := ∃ S, syncs S ∧ j ∈ sy_jobs S.

Lemma exec_reachable_pool `{Env} int8in syncs reported opts w s :
  exec_reachable int8in (added_by syncs) reported opts w s →
  Pool.reachable (task_code int8in) (sync_allowed syncs reported) w (sys_pool s).
Proof.
  intros Hreach. eapply reachable_allowed; [|apply (ei_pool _ _ _ _ _ (exec_reachable_inv _ _ _ _ _ _ Hreach))].
  by intros [j begun|a|m] w'.
Qed.

(** What an attempt that ended has achieved, in every state that follows. *)
Lemma executed_attempt `{EnvLaws} int8in syncs reported opts w s :
  (∀ S, syncs S → sync_run w S) → repo_wf w → exec_reachable int8in (added_by syncs) reported opts w s →
  repo_wf (shared (sys_pool s)) ∧
  ∀ t j b r S, calls (sys_pool s) !! t = Some (Attempt j b, Done r) → syncs S → j ∈ sy_jobs S →
    (∀ qs, j = JobUpsertQueues qs →
       (r = Ok () → queues_stored syncs w S (shared (sys_pool s))) ∧ (r = Ok () ∨ lost_between b (shared (sys_pool s)))) ∧
    (∀ al, j = JobUpsertApplications al →
       (r = Ok () → apps_stored syncs reported S (shared (sys_pool s))) ∧
       (queues_stored syncs w S b → r = Ok () ∨ lost_between b (shared (sys_pool s)))).
Proof.
  intros Hruns Hwf Hreach. by apply (concurrent_syncs_stored int8in), exec_reachable_pool with (opts := opts).
Qed.

Lemma succeeded_stored `{EnvLaws} int8in syncs reported opts w s i S :
  (∀ S, syncs S → sync_run w S) → repo_wf w → exec_reachable int8in (added_by syncs) reported opts w s →
  i ∈ succeeded s → syncs S → item_job i ∈ sy_jobs S →
  (∀ qs, item_job i = JobUpsertQueues qs → queues_stored syncs w S (shared (sys_pool s))) ∧
  (∀ al, item_job i = JobUpsertApplications al → apps_stored syncs reported S (shared (sys_pool s))).
Proof.
  intros Hruns Hwf Hreach Hi HS Hj.
  destruct (executed_attempt int8in syncs reported opts w s Hruns Hwf Hreach) as [_ Hdone].
  destruct (ei_succeeded _ _ _ _ _ (exec_reachable_inv _ _ _ _ _ _ Hreach) i Hi) as (t & b & Ht).
  destruct (Hdone t _ b _ S Ht HS Hj) as [Hqs Has].
  split; [intros qs Hq; by apply (Hqs qs Hq)|intros al Hal; by apply (Has al Hal)].
Qed.

(** C2.  From the scheduler to the tables.  Take any number of synchronisations,
    each a run of [sync] against a scheduler that answers every request, with a
    well-formed report (hierarchies that the table accepts, one for each
    partition and without deleted queues, [SyncConcur.reportable]), any
    execution of the work queue to which their jobs are added, and any
    interleaving of the statements of its attempts with each other, with the
    collector of events and with the readers of the web service, whatever
    happens to the statements.  Every job that was added is in the queue, has a
    goroutine that has not returned, was given up because the context of the
    jobs is cancelled, or has succeeded; and from then on what it was to store
    is stored: each queue has a live row that reflects it as one of the
    synchronisations fetched it and keeps the identity it had, and each
    application has a row that points to the row of its queue, in a state that a
    synchronisation fetched or an event reported. *)
Theorem executed_jobs_stored `{EnvLaws} int8in syncs reported opts w s :
  (∀ S, syncs S → sync_run w S) → repo_wf w →
  exec_reachable int8in (added_by syncs) reported opts w s →
  let wq := sys_wq s in
  added wq ≡ₚ (queue wq ++ spawned wq) ++ active wq ++ cancelled s ++ succeeded s ∧
  (cancelled s ≠ [] → jobctx_done wq = true) ∧ repo_wf (shared (sys_pool s)) ∧
  ∀ i S, i ∈ succeeded s → syncs S → item_job i ∈ sy_jobs S →
    (∀ qs, item_job i = JobUpsertQueues qs → queues_stored syncs w S (shared (sys_pool s))) ∧
    (∀ al, item_job i = JobUpsertApplications al → apps_stored syncs reported S (shared (sys_pool s))).
Proof.
  intros Hruns Hwf Hreach wq. pose proof (exec_reachable_inv _ _ _ _ _ _ Hreach) as Hinv.
  split_and!; [apply Hinv|apply Hinv|by apply (executed_attempt int8in syncs reported opts w s)|].
  intros i S. by apply (succeeded_stored int8in syncs reported opts w s).
Qed.

(** ** An execution *)
Section sample.
Context `{Env} (int8in : string → option Z) (submitted : sync_job → Prop) (reported : ApplicationDAOInfo → Prop).

Definition exec_steps : relation system :=
  rtc (λ s s', panicked (sys_wq s) = false ∧ ∃ who, exec_step int8in submitted reported s who s').

(** A job that is added to an idle work queue is dispatched and attempted. *)
Definition added_item (uuid name : string) (job : sync_job) : item := newItem uuid job [WithJobName name].

Definition attempt_job (i : item) (waiting' : list item) (s : system) : system :=
  mkSystem (sys_wq s) (add_call int8in (Attempt (item_job i) (shared (sys_pool s))) (sys_pool s))
    waiting' ((i, length (calls (sys_pool s))) :: attempting s) (succeeded s) (cancelled s).

Definition count_worker (i : item) (s : system) : system :=
  let wq := sys_wq s in
  mkSystem (set_workers [] (i :: active wq) (wrap32 (running wq + 1)) wq)
    (sys_pool s) (i :: waiting s) (attempting s) (succeeded s) (cancelled s).

Definition submit (uuid name : string) (job : sync_job) (s : system) : system :=
  let i := added_item uuid name job in
  let w1 := set_adders [(job, [WithJobName name])] [] (sys_wq s) in
  let w2 := set_adders [] [i] (append_job i w1) in
  let w3 := set_phase Popping (set_adders [] [] w2) in
  let w4 := set_phase Selecting (set_workers [i] (active w3) (running w3) (pop w3).2) in
  attempt_job i (waiting s) (count_worker i (set_wq w4 s)).

Record idle (wq : WorkQueue.WorkQueue (Job := sync_job)) : Prop := {
  idle_started : started wq = true;
  idle_phase : phase wq = Selecting;
  idle_open : signal_closed wq = false;
  idle_queue : queue wq = [];
  idle_adding : adding wq = [];
  idle_sending : sending wq = [];
  idle_spawned : spawned wq = [];
  idle_ok : panicked wq = false;
}.

Lemma submit_steps uuid name job s : idle (sys_wq s) → submitted job → exec_steps s (submit uuid name job s).
Proof.
  intros [Hst Hph Hop Hq Had Hse Hsp Hok] Hsub. unfold exec_steps, submit. set (i := added_item uuid name job).
  eapply rtc_l; [split; [done|eexists; by apply (E_add _ _ _ _ job name)]|]. rewrite Had, Hse.
  eapply rtc_l; [split; [done|eexists; apply (E_queue _ _ _ _ ByAdd); [set_solver|]]|].
  { by apply (Add_append _ [] job [WithJobName name] [] uuid). }
  eapply rtc_l; [split; [done|eexists; apply E_run]|].
  { by apply (Run_receive _ [] i []). }
  eapply rtc_l; [split; [done|eexists; apply E_run]|].
  { apply (Run_dispatch _ i); [done|]. unfold pop. cbn. by rewrite Hq. }
  cbn [sys_wq set_wq]. rewrite Hsp.
  eapply rtc_l; [split; [done|eexists; by apply (E_start _ _ _ _ [] i [])]|].
  eapply rtc_l; [split; [done|eexists; by apply (E_attempt _ _ _ _ [] i (waiting s))]|].
  unfold count_worker, attempt_job, pop. cbn. rewrite Hq. cbn. rewrite ?Hsp. apply rtc_refl.
Qed.

(** The steps of a goroutine that executes a job, and of the database. *)
Lemma act_steps wq p p' wt att su ca :
  panicked wq = false → rtc pool_act p p' → exec_steps (mkSystem wq p wt att su ca) (mkSystem wq p' wt att su ca).
Proof.
  intros Hok Hacts. induction Hacts as [p|p p1 p2 Hact _ IH]; [apply rtc_refl|]. etrans; [|exact IH].
  apply rtc_once. destruct Hact as [t l upd next Ht]. split; [done|]. eexists.
  by apply (E_act _ _ _ (mkSystem wq p wt att su ca) t l upd next).
Qed.

Lemma attempt_step wq p k1 i k2 att su ca t :
  panicked wq = false → length (calls p) = t →
  exec_steps (mkSystem wq p (k1 ++ i :: k2) att su ca)
    (mkSystem wq (add_call int8in (Attempt (item_job i) (shared p)) p)
       (k1 ++ k2) ((i, t) :: att) su ca).
Proof.
  intros Hok <-. apply rtc_once. split; [done|]. eexists.
  by apply (E_attempt _ _ _ (mkSystem wq p (k1 ++ i :: k2) att su ca) k1 i k2).
Qed.

Lemma failure_step wq p wt k1 i t k2 su ca l e :
  panicked wq = false → calls p !! t = Some (l, Done (Err e)) →
  exec_steps (mkSystem wq p wt (k1 ++ (i, t) :: k2) su ca) (mkSystem wq p (i :: wt) (k1 ++ k2) su ca).
Proof.
  intros Hok Ht. apply rtc_once. split; [done|]. eexists.
  by apply (E_failure _ _ _ (mkSystem wq p wt (k1 ++ (i, t) :: k2) su ca) k1 i t k2 l e).
Qed.

Lemma success_step wq p wt k1 i t k2 su ca l l1 l2 :
  panicked wq = false → calls p !! t = Some (l, Done (Ok ())) → active wq = l1 ++ i :: l2 →
  exec_steps (mkSystem wq p wt (k1 ++ (i, t) :: k2) su ca) (mkSystem (end_worker l1 l2 wq) p wt (k1 ++ k2) (i :: su) ca).
Proof.
  intros Hok Ht Hl. apply rtc_once. split; [done|]. eexists.
  by apply (E_success _ _ _ (mkSystem wq p wt (k1 ++ (i, t) :: k2) su ca) k1 i t k2 l l1 l2).
Qed.

Lemma event_step wq p wt att su ca a :
  panicked wq = false → reported a →
  exec_steps (mkSystem wq p wt att su ca)
    (mkSystem wq (add_call int8in (EventWrite a) p) wt att su ca).
Proof. intros Hok Ha. apply rtc_once. split; [done|]. eexists. by apply (E_event _ _ _ (mkSystem wq p wt att su ca)). Qed.

End sample.

Definition results (p : pool sync_task) : list (option (result ())) :=
  (λ c, match c.2 with Done r => Some r | Act _ _ => None end) <$> calls p.

Lemma result_call p t r : results p !! t = Some (Some r) → ∃ l, calls p !! t = Some (l, Done r).
Proof. intros ([l [r'|]] & [= ->] & Ht)%list_lookup_fmap_Some. by exists l. Qed.

(** Two synchronisations.  The first attempt of the applications fails because
    their queue is not stored yet, and that of the queues because a reply is
    lost.  Both are attempted again, the applications after those of the later
    synchronisation, and an event ends the application afterwards. *)
#[local] Existing Instance lossy_env.

Definition sync1 : synchronisation := sync_with (app_in_state "New").
Definition sync2 : synchronisation := sync_with (app_in_state "Running").
Definition ended_app : ApplicationDAOInfo := app_in_state "Completed".

Definition sample_syncs (S : synchronisation) : Prop := S = sync1 ∨ S = sync2.

Definition apps_of (S : synchronisation) : list ApplicationDAOInfo := concat (sy_apps S <$> flattenQueues (sy_roots S)).

Definition app_job : item := added_item "1" "upsert_applications" (JobUpsertApplications (apps_of sync1)).
Definition queue_job : item := added_item "2" "upsert_queues" (JobUpsertQueues (flattenQueues (sy_roots sync1))).
Definition later_job : item := added_item "3" "upsert_applications" (JobUpsertApplications (apps_of sync2)).

Definition exec1 : system := set_wq (start (NewWorkQueue [])) (exec_init [] empty_world).
Definition exec2 : system := submit sample_int8in "1" "upsert_applications" (item_job app_job) exec1.
Definition exec3 : system := submit sample_int8in "2" "upsert_queues" (item_job queue_job) exec2.
Definition exec4 : system := submit sample_int8in "3" "upsert_applications" (item_job later_job) exec3.

Definition wq4 : WorkQueue.WorkQueue (Job := sync_job) := sys_wq exec4.
Definition pool5 : pool sync_task := schedule ([0; 0; 0] ++ replicate 40 1)%nat (sys_pool exec4).
Definition pool6 : pool sync_task :=
  schedule (replicate 40 3 ++ replicate 40 2)%nat (add_call sample_int8in (Attempt (item_job queue_job) (shared pool5)) pool5).
Definition pool7 : pool sync_task :=
  schedule (replicate 40 4)%nat (add_call sample_int8in (Attempt (item_job app_job) (shared pool6)) pool6).
Definition pool8 : pool sync_task :=
  schedule (replicate 40 5)%nat (add_call sample_int8in (EventWrite ended_app) pool7).

Definition sample_system : system :=
  mkSystem (end_worker [] [] (end_worker [] [app_job] (end_worker [later_job] [app_job] wq4))) pool8 [] []
    [app_job; later_job; queue_job] [].

Example exec_results :
  is_ok <$> (omap id (results pool8)) = [false; false; true; true; true; true] ∧
  (a_state <$> t_applications (w_db (shared pool6)), a_state <$> t_applications (w_db (shared pool7)),
   a_state <$> t_applications (w_db (shared pool8))) = (["Running"], ["New"], ["Completed"]).
Proof. by vm_compute. Qed.

Lemma sample_job_added :
  added_by sample_syncs (item_job app_job) ∧ added_by sample_syncs (item_job queue_job) ∧
  added_by sample_syncs (item_job later_job).
Proof.
  split_and!.
  - exists sync1. split; [by left|]. do 2 apply list_elem_of_further. apply list_elem_of_here.
  - exists sync1. split; [by left|]. apply list_elem_of_further, list_elem_of_here.
  - exists sync2. split; [by right|]. do 2 apply list_elem_of_further. apply list_elem_of_here.
Qed.

Lemma exec4_reachable reported : exec_reachable sample_int8in (added_by sample_syncs) reported [] empty_world exec4.
Proof.
  destruct sample_job_added as (Ha & Hq & Hl). unfold exec_reachable. eapply rtc_l.
  { split; [done|]. eexists. apply (E_run _ _ _ _ (start (NewWorkQueue []))). by apply Run_start. }
  etrans; [refine (submit_steps sample_int8in _ reported "1" "upsert_applications" (item_job app_job) exec1 _ Ha)|].
  { split; reflexivity. }
  etrans; [refine (submit_steps sample_int8in _ reported "2" "upsert_queues" (item_job queue_job) exec2 _ Hq)|].
  { split; reflexivity. }
  refine (submit_steps sample_int8in _ reported "3" "upsert_applications" (item_job later_job) exec3 _ Hl).
  split; reflexivity.
Qed.

Lemma sample_system_reachable :
  exec_reachable sample_int8in (added_by sample_syncs) (λ e, e = ended_app) [] empty_world sample_system.
Proof.
  set (submitted := added_by sample_syncs). set (reported := λ e, e = ended_app). unfold exec_reachable.
  etrans; [by apply exec4_reachable|].
  assert (exec4 = mkSystem wq4 (sys_pool exec4) [] [(later_job, 2%nat); (queue_job, 1%nat); (app_job, 0%nat)] [] [])
    as -> by reflexivity.
  assert (∃ e0 e1 o, results pool5 = [Some (Err e0); Some (Err e1); o]) as (e0 & e1 & ? & H5) by (vm_compute; eauto).
  assert (∃ o0 o1, results pool6 = [o0; o1; Some (Ok ()); Some (Ok ())]) as (? & ? & H6) by (vm_compute; eauto).
  assert (∃ o0 o1 o2 o3, results pool7 = [o0; o1; o2; o3; Some (Ok ())]) as (? & ? & ? & ? & H7) by (vm_compute; eauto).
  destruct (result_call pool5 0 (Err e0)) as [l0 Hl0]; [by rewrite H5|].
  destruct (result_call pool5 1 (Err e1)) as [l1 Hl1]; [by rewrite H5|].
  destruct (result_call pool6 2 (Ok ())) as [l2 Hl2]; [by rewrite H6|].
  destruct (result_call pool6 3 (Ok ())) as [l3 Hl3]; [by rewrite H6|].
  destruct (result_call pool7 4 (Ok ())) as [l4 Hl4]; [by rewrite H7|].
  assert (length (calls pool5) = 3%nat) as Hn5 by (rewrite <- (length_fmap _ (calls pool5) : length (results pool5) = _); by rewrite H5).
  assert (length (calls pool6) = 4%nat) as Hn6 by (rewrite <- (length_fmap _ (calls pool6) : length (results pool6) = _); by rewrite H6).
  etrans; [apply (act_steps sample_int8in submitted reported wq4 _ pool5); [done|apply schedule_steps]|].
  etrans; [by apply (failure_step sample_int8in submitted reported wq4 pool5 [] [(later_job, 2%nat)] queue_job 1 [(app_job, 0%nat)] [] [] l1 e1)|].
  etrans; [by apply (failure_step sample_int8in submitted reported wq4 pool5 [queue_job] [(later_job, 2%nat)] app_job 0 [] [] [] l0 e0)|].
  etrans; [by apply (attempt_step sample_int8in submitted reported wq4 pool5 [app_job] queue_job [] [(later_job, 2%nat)] [] [] 3)|].
  etrans; [apply (act_steps sample_int8in submitted reported wq4 _ pool6); [done|apply schedule_steps]|].
  etrans; [by apply (success_step sample_int8in submitted reported wq4 pool6 [app_job] [] queue_job 3 [(later_job, 2%nat)] [] [] l3 [later_job] [app_job])|].
  etrans; [by apply (success_step sample_int8in submitted reported _ pool6 [app_job] [] later_job 2 [] [queue_job] [] l2 [] [app_job])|].
  etrans; [by apply (attempt_step sample_int8in submitted reported _ pool6 [] app_job [] [] [later_job; queue_job] [] 4)|].
  etrans; [apply (act_steps sample_int8in submitted reported _ _ pool7); [done|apply schedule_steps]|].
  etrans; [by apply (success_step sample_int8in submitted reported _ pool7 [] [] app_job 4 [] [later_job; queue_job] [] l4 [] [])|].
  etrans; [by apply (event_step sample_int8in submitted reported _ pool7 [] [] _ [] ended_app)|].
  apply act_steps; [done|apply schedule_steps].
Qed.

Lemma sample_sync_run S : sample_syncs S → sync_run empty_world S.
Proof. intros [-> | ->]; by apply sync_with_run. Qed.

Lemma executed_jobs_stored_witness :
  queues_stored sample_syncs empty_world sync1 (shared (sys_pool sample_system)) ∧
  apps_stored sample_syncs (λ e, e = ended_app) sync1 (shared (sys_pool sample_system)) ∧
  apps_stored sample_syncs (λ e, e = ended_app) sync2 (shared (sys_pool sample_system)).
Proof.
  destruct (@executed_jobs_stored lossy_env lossy_laws sample_int8in sample_syncs (λ e, e = ended_app) [] empty_world
    sample_system) as (_ & _ & _ & Hdone).
  - apply sample_sync_run.
  - apply (@repo_wf_empty lossy_env lossy_laws). reflexivity.
  - apply sample_system_reachable.
  - split_and!.
    + refine (proj1 (Hdone queue_job sync1 _ (or_introl eq_refl) _) _ eq_refl).
      * do 2 apply list_elem_of_further. apply list_elem_of_here.
      * apply list_elem_of_further, list_elem_of_here.
    + refine (proj2 (Hdone app_job sync1 (list_elem_of_here _ _) (or_introl eq_refl) _) _ eq_refl).
      do 2 apply list_elem_of_further. apply list_elem_of_here.
    + refine (proj2 (Hdone later_job sync2 _ (or_intror eq_refl) _) _ eq_refl).
      * apply list_elem_of_further, list_elem_of_here.
      * do 2 apply list_elem_of_further. apply list_elem_of_here.
Defined.
