(* ===== verification/JobLive.v ===== *)
(** * Every job gets done

    Liveness of the work queue over the database.  An execution of the system of
    [JobExec] is an infinite sequence of states; it is fair if the goroutine of
    [Run], every goroutine of [executeWithRetry] and every call of the database
    takes a step again and again unless it has none to take.  In a fair
    execution in which the server is not stopped and only finitely many
    statements are lost, what a synchronisation fetched is stored in the end and
    stays stored. *)
From S2P Require Import Prelude GoStrings SqlBuilder Dao Db Pool Upsert QueueRepo QueueInv QueueUpsert.
From S2P Require Import AppRepo StatusRepo Repository StatusTheorems FlattenQueues QueueTheorems RepoInv RepoConcur AppTheorems.
From S2P Require Import WorkQueue Sync DataSync SyncConcur JobExec.

(** ** The queue while the server runs *)
Section queue.
Context {Job : Type}.
Implicit Types w : WorkQueue.WorkQueue (Job := Job).

(** [Run] leaves its loop, and the jobs are cancelled, only after its context. *)
Definition stops_late w : Prop :=
  (jobctx_done w = true → ctx_done w = true) ∧
  (phase w = Stopping ∨ phase w = ShuttingDown ∨ phase w = Returned → ctx_done w = true).

Lemma stops_late_step a w w' : step a w w' → stops_late w → stops_late w'.
Proof.
  intros Hstep [Hjd Hpd]. destruct Hstep as [w Hst|w job opts Hst|w l1 job opts l2 u Had|w j Hj Hcl|w Hph|w l1 j l2 Hph Hcl Hsend|w Hph Hcl
    |w j w' Hph Hpop|w w' Hph Hpop|w Hph Hd|w Hph Hst|w Hph Hst|w Hph|w|w Hst|w Hst|w n Hsh|w l1 j l2 Hsp
    |w l1 j l2 Hac]; split; cbn in *; auto; try (by intros [?|[?|?]]); try (intros; congruence).
  all: unfold pop in Hpop; destruct (queue w); simplify_eq; cbn in *; auto; by intros [?|[?|?]].
Qed.

Lemma reachable_stops_late w : WorkQueue.reachable w → stops_late w.
Proof. induction 1 as [opts|a w w' _ IH Hok Hstep]; [split; naive_solver|by eapply stops_late_step]. Qed.

(** An item in the queue, and how many steps of [Run] it is away from its
    goroutine. *)
Definition queued (i : item) (v : nat) w : Prop :=
  ∃ l1 l2, queue w = l1 ++ i :: l2 ∧ v = (2 * length l1 + if decide (phase w = Selecting) then 1 else 0)%nat.

Definition closer (i : item) (v : nat) w : Prop := i ∈ spawned w ∨ ∃ v', (v' < v)%nat ∧ queued i v' w.

Lemma queued_running w i v : WorkQueue.reachable w → ctx_done w = false → queued i v w →
  signal_closed w = false ∧
  (phase w = Selecting ∧ (∃ j l, sending w = j :: l) ∨ phase w = Popping).
Proof.
  intros Hw Hctx (l1 & l2 & Hq & _). destruct (reachable_inv w Hw) as [_ Hs _ Hn Hc _].
  destruct (reachable_stops_late w Hw) as [_ Hp].
  assert (signal_closed w = false) as Hcl.
  { destruct (signal_closed w); [|done]. destruct Hc as [_ ?]; [done|congruence]. }
  specialize (Hs Hcl). rewrite Hq, length_app in Hs. cbn in Hs. split; [done|].
  destruct (phase w) eqn:Hph; [|left; split; [done|]|by right|exfalso; enough (ctx_done w = true) by congruence; auto..].
  - destruct Hn as (_ & _ & _ & _ & Hse); [done|]. rewrite Hse, decide_False in Hs by done. cbn in Hs. lia.
  - rewrite decide_False in Hs by done. destruct (sending w) as [|j l]; [cbn in Hs; lia|]. by exists j, l.
Qed.

Lemma queued_enabled w i v :
  WorkQueue.reachable w → ctx_done w = false → queued i v w → ∃ w', step ByRun w w'.
Proof.
  intros Hw Hctx Hq. destruct (queued_running w i v Hw Hctx Hq) as [Hcl [[Hph (j & l & Hs)]|Hph]].
  - eexists. by apply (Run_receive w [] j l).
  - destruct Hq as (l1 & l2 & Hq & _). destruct (queue w) as [|f q] eqn:Hqe; [by destruct l1|].
    eexists. eapply (Run_dispatch w f); [done|]. unfold pop. by rewrite Hqe.
Qed.

Lemma queued_step a w w' i v :
  WorkQueue.reachable w → ctx_done w = false → ctx_done w' = false → step a w w' → queued i v w →
  closer i v w' ∨ a ≠ ByRun ∧ queued i v w'.
Proof.
  intros Hw Hctx Hctx' Hstep Hq. pose proof (queued_running w i v Hw Hctx Hq) as [Hopen Hrun].
  destruct Hq as (q1 & q2 & Hq & ->). unfold closer, queued.
  destruct Hstep as [w Hst|w job opts Hst|w l1 job opts l2 u Had|w j Hj Hcl|w Hph|w l1 j l2 Hph Hcl Hsend|w Hph Hcl
    |w j w' Hph Hpop|w w' Hph Hpop|w Hph Hd|w Hph Hst|w Hph Hst|w Hph|w|w Hst|w Hst|w n Hsh|w l1 j l2 Hsp
    |w l1 j l2 Hac]; cbn in *; try congruence; try (right; split; [done|]; by exists q1, q2).
  all: try (destruct Hrun as [[? _]|?]; congruence).
  - right. split; [done|]. exists q1, (q2 ++ [newItem u job opts]). rewrite Hq, <- app_assoc. done.
  - left. right. eexists. split; [|by exists q1, q2]. repeat case_decide; try congruence; lia.
  - unfold pop in Hpop. rewrite Hq in Hpop. left. destruct q1 as [|f q1]; cbn in Hpop; simplify_eq; cbn.
    + left. apply list_elem_of_here.
    + right. eexists. split; [|by exists q1, q2]. cbn. repeat case_decide; try congruence; lia.
  - unfold pop in Hpop. rewrite Hq in Hpop. by destruct q1.
Qed.

(** The history only grows, and a cancelled context stays so. *)
Lemma step_added a w w' : step a w w' → added w `prefix_of` added w'.
Proof.
  intros Hstep. destruct Hstep; try done; try (by apply prefix_app_r);
    unfold pop in *; destruct (queue w); simplify_eq; done.
Qed.

Lemma step_ctx a w w' : step a w w' → ctx_done w = true → ctx_done w' = true.
Proof. intros Hstep Hc. destruct Hstep; try done; unfold pop in *; destruct (queue w); simplify_eq; done. Qed.

End queue.

(** ** What a step does to one item *)
Section places.
Context `{Env} (int8in : string → option Z).
Context (submitted : sync_job → Prop) (reported : ApplicationDAOInfo → Prop).

Abbreviation exec_step' := (exec_step int8in submitted reported).

Lemma elem_of_middle {A} (x y : A) l1 l2 : x ∈ l1 ++ y :: l2 → x = y ∨ x ∈ l1 ++ l2.
Proof. rewrite !elem_of_app, elem_of_cons. tauto. Qed.

(** The work queue of the system takes the steps of [WorkQueue]. *)
Lemma exec_step_wq s who s' : exec_step' s who s' → sys_wq s' = sys_wq s ∨ ∃ a, step a (sys_wq s) (sys_wq s').
Proof.
  intros Hstep. destruct Hstep as [wq' Hs|a wq' Ha Hs|job name Hst Hsub|l1 i l2 Hsp|k1 i k2 Hw|k1 i t k2 l e Hk Ht
    |k1 i t k2 l l1 l2 Hk Ht Hl|k1 i k2 l1 l2 Hd Hk Hl|t l upd next Ht|a Ha|m Hm]; cbn; [| | | |by left|by left| | |by left..].
  - right. by eexists.
  - right. by eexists.
  - right. eexists. by apply (Add_test (sys_wq s) job).
  - right. eexists. by apply (Worker_start (sys_wq s) l1 i l2).
  - right. eexists. by apply (Worker_end (sys_wq s) l1 i l2).
  - right. eexists. by apply (Worker_end (sys_wq s) l1 i l2).
Qed.

(** ... and its pool those of [Pool]. *)
Lemma exec_step_pool w s who s' :
  exec_inv int8in submitted reported w s → exec_step' s who s' →
  sys_pool s' = sys_pool s ∨ pool_step (task_code int8in) (exec_allowed submitted reported) (sys_pool s) (sys_pool s').
Proof.
  intros Hinv Hstep. destruct Hstep as [wq' Hs|a wq' Ha Hs|job name Hst Hsub|l1 i l2 Hsp|k1 i k2 Hw|k1 i t k2 l e Hk Ht
    |k1 i t k2 l l1 l2 Hk Ht Hl|k1 i k2 l1 l2 Hd Hk Hl|t l upd next Ht|a Ha|m Hm]; cbn;
    [by left..| |by left|by left|by left| | |].
  - right. apply add_call_step. split; [|done]. apply (ei_submitted _ _ _ _ _ Hinv).
    rewrite (ei_added _ _ _ _ _ Hinv), (ei_active _ _ _ _ _ Hinv), Hw, !elem_of_app, elem_of_cons. tauto.
  - right. left. by apply (act_step (sys_pool s) t l upd next).
  - right. by apply add_call_step.
  - right. by apply add_call_step.
Qed.

Lemma exec_step_succeeded s who s' i : exec_step' s who s' → i ∈ succeeded s → i ∈ succeeded s'.
Proof. intros Hstep Hi. destruct Hstep; try done. cbn. by apply list_elem_of_further. Qed.

(** Where an item is. *)
Definition places (s : system) : list item :=
  queue (sys_wq s) ++ spawned (sys_wq s) ++ waiting s ++ (attempting s).*1 ++ cancelled s ++ succeeded s.

Lemma places_added w s : exec_inv int8in submitted reported w s → added (sys_wq s) ≡ₚ places s.
Proof. intros Hinv. rewrite (ei_added _ _ _ _ _ Hinv), (ei_active _ _ _ _ _ Hinv). unfold places. solve_Permutation. Qed.

Lemma step_spawned a (wq wq' : WorkQueue.WorkQueue (Job := sync_job)) i :
  a ≠ ByWorker → step a wq wq' → i ∈ spawned wq → i ∈ spawned wq'.
Proof.
  intros Ha Hstep Hi. destruct Hstep as [w Hst|w job opts Hst|w l1 job opts l2 u Had|w j Hj Hcl|w Hph|w l1 j l2 Hph Hcl Hsend|w Hph Hcl
    |w j w' Hph Hpop|w w' Hph Hpop|w Hph Hd|w Hph Hst|w Hph Hst|w Hph|w|w Hst|w Hst|w n Hsh|w l1 j l2 Hsp
    |w l1 j l2 Hac]; try done;
    unfold pop in Hpop; destruct (queue w); simplify_eq; first [done|by apply list_elem_of_further].
Qed.

(** An item whose goroutine has not started. *)
Lemma spawned_step s who s' i :
  exec_step' s who s' → i ∈ spawned (sys_wq s) → i ∈ spawned (sys_wq s') ∨ i ∈ waiting s'.
Proof.
  intros Hstep Hi. destruct Hstep as [wq' Hs|a wq' Ha Hs|job name Hst Hsub|l1 i' l2 Hsp|k1 i' k2 Hw|k1 i' t k2 l e Hk Ht
    |k1 i' t k2 l l1 l2 Hk Ht Hl|k1 i' k2 l1 l2 Hd Hk Hl|t l upd next Ht|a Ha|m Hm]; cbn; try by left.
  - left. by eapply step_spawned; [|exact Hs|done].
  - left. eapply step_spawned; [|exact Hs|done]. intros ->. set_solver.
  - rewrite Hsp in Hi. apply elem_of_middle in Hi as [->|Hi]; [right; apply list_elem_of_here|by left].
Qed.

Lemma places_spawned s i : NoDup (places s) → i ∈ spawned (sys_wq s) → i ∉ waiting s ∧ i ∉ (attempting s).*1.
Proof.
  unfold places. intros (_ & _ & (_ & Hnd & _)%NoDup_app)%NoDup_app Hi. specialize (Hnd i Hi). set_solver.
Qed.

Lemma places_waiting s i : NoDup (places s) → i ∈ waiting s → i ∉ spawned (sys_wq s) ∧ i ∉ (attempting s).*1.
Proof.
  unfold places. intros (_ & _ & (_ & Hnd & (_ & Hnd' & _)%NoDup_app)%NoDup_app)%NoDup_app Hi.
  split; [intros Hs; specialize (Hnd i Hs)|specialize (Hnd' i Hi)]; set_solver.
Qed.

Lemma places_attempting s i t t' : NoDup (places s) → (i, t) ∈ attempting s → (i, t') ∈ attempting s → t = t'.
Proof.
  unfold places. intros (_ & _ & (_ & _ & (_ & _ & (Hnd & _)%NoDup_app)%NoDup_app)%NoDup_app)%NoDup_app Hi Hi'.
  apply list_elem_of_lookup in Hi as [n Hn]. apply list_elem_of_lookup in Hi' as [n' Hn'].
  assert (n = n') as ->; [|congruence]. eapply NoDup_lookup; [exact Hnd|rewrite list_lookup_fmap, Hn; done|].
  by rewrite list_lookup_fmap, Hn'.
Qed.

Lemma spawned_start s s' i :
  NoDup (places s) → exec_step' s (Goroutine i) s' → i ∈ spawned (sys_wq s) → i ∈ waiting s'.
Proof.
  intros Hnd Hstep Hi. destruct (places_spawned s i Hnd Hi) as [Hw Ha].
  inversion Hstep; subst; cbn; [apply list_elem_of_here|..]; exfalso; [apply Hw|apply Ha|apply Ha|apply Hw];
    match goal with H : _ = _ ++ _ :: _ |- _ => rewrite H end; rewrite ?fmap_app; set_solver.
Qed.

Lemma spawned_enabled s i : i ∈ spawned (sys_wq s) → ∃ s', exec_step' s (Goroutine i) s'.
Proof. intros (l1 & l2 & Hl)%list_elem_of_split. eexists. by eapply E_start. Qed.

(** An item in an attempt: call [t] of the pool, with [m] left to do. *)
Definition attempted (i : item) (t : nat) (l : sync_task) (m : M ()) (s : system) : Prop :=
  (i, t) ∈ attempting s ∧ calls (sys_pool s) !! t = Some (l, m).

Definition attempt_begun (i : item) (w : world) (s : system) : Prop :=
  ∃ t, attempted i t (Attempt (item_job i) w) (run_job int8in (item_job i)) s.

(** An item between two attempts. *)
Lemma begin_attempt s i k1 k2 :
  attempt_begun i (shared (sys_pool s))
    (mkSystem (sys_wq s) (add_call int8in (Attempt (item_job i) (shared (sys_pool s))) (sys_pool s))
       (k1 ++ k2) ((i, length (calls (sys_pool s))) :: attempting s) (succeeded s) (cancelled s)).
Proof. eexists. split; [apply list_elem_of_here|]. cbn. by rewrite lookup_app_r, Nat.sub_diag by lia. Qed.

Lemma waiting_step s who s' i :
  jobctx_done (sys_wq s) = false → exec_step' s who s' → i ∈ waiting s →
  i ∈ waiting s' ∨ attempt_begun i (shared (sys_pool s)) s'.
Proof.
  intros Hj Hstep Hi. destruct Hstep as [wq' Hs|a wq' Ha Hs|job name Hst Hsub|l1 i' l2 Hsp|k1 i' k2 Hw|k1 i' t' k2 l' e Hk Ht
    |k1 i' t' k2 l' l1 l2 Hk Ht Hl|k1 i' k2 l1 l2 Hd Hk Hl|t' l' upd' next' Ht|a Ha|m' Hm]; cbn; try by left.
  - left. by apply list_elem_of_further.
  - rewrite Hw in Hi. apply elem_of_middle in Hi as [->|Hi]; [right; apply begin_attempt|by left].
  - left. by apply list_elem_of_further.
  - congruence.
Qed.

Lemma waiting_start s s' i :
  NoDup (places s) → jobctx_done (sys_wq s) = false → exec_step' s (Goroutine i) s' → i ∈ waiting s →
  attempt_begun i (shared (sys_pool s)) s'.
Proof.
  intros Hnd Hj Hstep Hi. destruct (places_waiting s i Hnd Hi) as [Hs Ha].
  inversion Hstep; subst; cbn; try congruence; [|apply begin_attempt|..]; exfalso; [apply Hs|apply Ha|apply Ha];
    match goal with H : _ = _ ++ _ :: _ |- _ => rewrite H end; rewrite ?fmap_app; set_solver.
Qed.

Lemma waiting_enabled s i : i ∈ waiting s → ∃ s', exec_step' s (Goroutine i) s'.
Proof. intros (l1 & l2 & Hl)%list_elem_of_split. eexists. by eapply E_attempt. Qed.

(** An item whose attempt goes on. *)
Lemma attempted_step s who s' i t l m :
  exec_step' s who s' → attempted i t l m s → (∀ r, m ≠ Done r) →
  attempted i t l m s' ∨ who = Call t ∧ ∃ upd next w, m = Act upd next ∧ attempted i t l (next w) s'.
Proof.
  intros Hstep [Hi Hc] Hm0. unfold attempted. destruct Hstep as [wq' Hs|a wq' Ha Hs|job name Hst Hsub|l1 i' l2 Hsp|k1 i' k2 Hw|k1 i' t' k2 l' e Hk Ht
    |k1 i' t' k2 l' l1 l2 Hk Ht Hl|k1 i' k2 l1 l2 Hd Hk Hl|t' l' upd' next' Ht|a Ha|m' Hm]; cbn; try by left.
  - left. split; [by apply list_elem_of_further|by apply lookup_app_l_Some].
  - left. split; [|done]. rewrite Hk in Hi. apply elem_of_middle in Hi as [[= <- <-]|Hi]; [|done].
    exfalso. pose proof (eq_trans (eq_sym Hc) Ht) as [= _ ->]. by eapply Hm0.
  - left. split; [|done]. rewrite Hk in Hi. apply elem_of_middle in Hi as [[= <- <-]|Hi]; [|done].
    exfalso. pose proof (eq_trans (eq_sym Hc) Ht) as [= _ ->]. by eapply Hm0.
  - destruct (decide (t' = t)) as [->|Hne].
    + right. split; [done|]. pose proof (eq_trans (eq_sym Hc) Ht) as [= -> ->]. eexists _, _, _. split; [done|].
      split; [done|]. apply list_lookup_insert_eq, lookup_lt_is_Some. by eexists.
    + left. split; [done|]. by rewrite list_lookup_insert_ne.
  - left. split; [done|by apply lookup_app_l_Some].
  - left. split; [done|by apply lookup_app_l_Some].
Qed.

Lemma attempted_enabled s i t l upd next : attempted i t l (Act upd next) s → ∃ s', exec_step' s (Call t) s'.
Proof. intros [_ Hc]. eexists. by eapply E_act. Qed.

Lemma attempted_act s s' i t l upd next :
  exec_step' s (Call t) s' → attempted i t l (Act upd next) s → ∃ w, attempted i t l (next w) s'.
Proof.
  intros Hstep [Hi Hc]. inversion Hstep as [| | | | | | | |t' l' upd' next' Ht| |]; subst.
  pose proof (eq_trans (eq_sym Hc) Ht) as [= -> -> ->]. eexists. split; [done|]. cbn.
  apply list_lookup_insert_eq, lookup_lt_is_Some. by eexists.
Qed.

(** An item whose attempt has ended. *)
Definition returned (i : item) (r : result ()) (s : system) : Prop :=
  match r with Ok _ => i ∈ succeeded s | Err _ => i ∈ waiting s end.

Lemma ended_step s who s' i t l r :
  exec_step' s who s' → attempted i t l (Done r) s → attempted i t l (Done r) s' ∨ returned i r s'.
Proof.
  intros Hstep [Hi Hc]. unfold attempted, returned. destruct Hstep as [wq' Hs|a wq' Ha Hs|job name Hst Hsub|l1 i' l2 Hsp|k1 i' k2 Hw|k1 i' t' k2 l' e Hk Ht
    |k1 i' t' k2 l' l1 l2 Hk Ht Hl|k1 i' k2 l1 l2 Hd Hk Hl|t' l' upd' next' Ht|a Ha|m' Hm]; cbn; try by left.
  - left. split; [by apply list_elem_of_further|by apply lookup_app_l_Some].
  - rewrite Hk in Hi. apply elem_of_middle in Hi as [[= <- <-]|Hi]; [|by left].
    right. pose proof (eq_trans (eq_sym Hc) Ht) as [= _ ->]. apply list_elem_of_here.
  - rewrite Hk in Hi. apply elem_of_middle in Hi as [[= <- <-]|Hi]; [|by left].
    right. pose proof (eq_trans (eq_sym Hc) Ht) as [= _ ->]. apply list_elem_of_here.
  - left. split; [done|]. rewrite list_lookup_insert_ne; [done|]. intros ->.
    by pose proof (eq_trans (eq_sym Hc) Ht) as [= _ ?].
  - left. split; [done|by apply lookup_app_l_Some].
  - left. split; [done|by apply lookup_app_l_Some].
Qed.

Lemma ended_return s s' i t l r :
  NoDup (places s) → exec_step' s (Goroutine i) s' → attempted i t l (Done r) s → returned i r s'.
Proof.
  intros Hnd Hstep [Hi Hc].
  assert (i ∈ (attempting s).*1) as Ha by (apply list_elem_of_fmap; by exists (i, t)).
  inversion Hstep as [| | |l1 i' l2 Hsp|k1 i' k2 Hw|k1 i' t' k2 l' e Hk Ht|k1 i' t' k2 l' l1 l2 Hk Ht Hl|k1 i' k2 l1 l2 Hd Hw Hl| | |]; subst.
  - destruct (places_spawned s i Hnd) as [_ Hna]; [rewrite Hsp; set_solver|done].
  - destruct (places_waiting s i Hnd) as [_ Hna]; [rewrite Hw; set_solver|done].
  - assert (t' = t) as -> by (apply (places_attempting s i); [done|rewrite Hk; set_solver|done]).
    pose proof (eq_trans (eq_sym Hc) Ht) as [= _ ->]. apply list_elem_of_here.
  - assert (t' = t) as -> by (apply (places_attempting s i); [done|rewrite Hk; set_solver|done]).
    pose proof (eq_trans (eq_sym Hc) Ht) as [= _ ->]. apply list_elem_of_here.
  - destruct (places_waiting s i Hnd) as [_ Hna]; [rewrite Hw; set_solver|done].
Qed.

Lemma ended_enabled w s i t l r :
  exec_inv int8in submitted reported w s → attempted i t l (Done r) s → ∃ s', exec_step' s (Goroutine i) s'.
Proof.
  intros Hinv [Hi Hc]. assert (i ∈ active (sys_wq s)) as Ha.
  { rewrite (ei_active _ _ _ _ _ Hinv), elem_of_app. right. apply list_elem_of_fmap. by exists (i, t). }
  apply list_elem_of_split in Hi as (k1 & k2 & Hk), Ha as (l1 & l2 & Hl). destruct r as [[]|e]; eexists.
  - by eapply E_success.
  - by eapply E_failure.
Qed.

End places.

(** ** Fair executions *)
Section execution.
Context `{EnvLaws} (int8in : string → option Z) (syncs : synchronisation → Prop) (reported : ApplicationDAOInfo → Prop).
Context (opts : list (Option_)) (w0 : world) (e : nat → system).

Abbreviation exec := (exec_step int8in (added_by syncs) reported).

(** A sequence of states, which may stutter.  It is fair to a goroutine or call
    if that takes a step, or has none to take, again and again. *)
Record fair_execution : Prop := {
  fe_start : e 0%nat = exec_init opts w0;
  fe_step n : e (S n) = e n ∨ ∃ who, exec (e n) who (e (S n));
  fe_fair who n : who ≠ Others →
    ∃ m, (n ≤ m)%nat ∧ (exec (e m) who (e (S m)) ∨ ¬ ∃ s', exec (e m) who s');
}.

(** The server is not asked to stop, no identifier is drawn twice for a job, and
    only finitely many statements are lost. *)
Record serving : Prop := {
  sv_context n : ctx_done (sys_wq (e n)) = false;
  sv_ids n : NoDup (added (sys_wq (e n)));
  sv_losses : ∃ N, ∀ k, (N ≤ k)%nat → env_db k = Delivered;
}.

Context (Hexec : fair_execution) (Hserv : serving) (Hruns : ∀ S, syncs S → sync_run w0 S) (Hwf : repo_wf w0).

Lemma ex_wq n : WorkQueue.reachable (sys_wq (e n)) ∧ panicked (sys_wq (e n)) = false.
Proof.
  enough (WorkQueue.reachable (sys_wq (e n))) as Hw.
  { split; [done|]. destruct (reachable_inv _ Hw) as [_ _ _ _ Hc Hp]. destruct (panicked _); [|done].
    destruct Hc as [_ Hctx]; [by apply Hp|]. by rewrite (sv_context Hserv) in Hctx. }
  induction n as [|n IH]; [rewrite (fe_start Hexec); apply reachable_init|].
  destruct (fe_step Hexec n) as [->|[who Hstep]]; [done|].
  destruct (exec_step_wq _ _ _ _ _ _ Hstep) as [->|[a Ha]]; [done|].
  eapply reachable_step; [exact IH| |exact Ha].
  destruct (reachable_inv _ IH) as [_ _ _ _ Hc Hp]. destruct (panicked (sys_wq (e n))); [|done].
  destruct Hc as [_ Hctx]; [by apply Hp|]. by rewrite (sv_context Hserv) in Hctx.
Qed.

Lemma ex_reachable n : exec_reachable int8in (added_by syncs) reported opts w0 (e n).
Proof.
  induction n as [|n IH]; [rewrite (fe_start Hexec); apply rtc_refl|].
  destruct (fe_step Hexec n) as [->|[who Hstep]]; [done|]. eapply rtc_r; [exact IH|].
  split; [apply ex_wq|by exists who].
Qed.

Lemma ex_inv n : exec_inv int8in (added_by syncs) reported w0 (e n).
Proof. eapply exec_reachable_inv, ex_reachable. Qed.

Lemma ex_places n : NoDup (places (e n)).
Proof. rewrite <- (places_added _ _ _ _ _ (ex_inv n)). apply (sv_ids Hserv). Qed.

Lemma ex_jobctx n : jobctx_done (sys_wq (e n)) = false.
Proof.
  destruct (reachable_stops_late _ (proj1 (ex_wq n))) as [Hj _]. destruct (jobctx_done _); [|done].
  rewrite (sv_context Hserv) in Hj. by discriminate Hj.
Qed.

(** Weak fairness: if [P] persists until [Q], and [who] can then always act and
    brings about [Q], then [Q] comes about. *)
Lemma leads_to who (P Q : system → Prop) n :
  who ≠ Others →
  (∀ k who', (n ≤ k)%nat → P (e k) → exec (e k) who' (e (S k)) → P (e (S k)) ∨ Q (e (S k))) →
  (∀ k, (n ≤ k)%nat → P (e k) → exec (e k) who (e (S k)) → Q (e (S k))) →
  (∀ k, (n ≤ k)%nat → P (e k) → ∃ s', exec (e k) who s') →
  P (e n) → ∃ m, (n ≤ m)%nat ∧ Q (e m).
Proof.
  intros Hw Hkeep Hact Hen HP. destruct (fe_fair Hexec who n Hw) as (m & Hm & Hfair).
  assert ((∃ k, (n ≤ k)%nat ∧ Q (e k)) ∨ P (e m)) as [?|HPm]; [|done|].
  - clear Hfair. induction Hm as [|m Hm IH]; [by right|]. destruct IH as [?|HPm]; [by left|].
    destruct (fe_step Hexec m) as [->|[who' Hstep]]; [by right|].
    destruct (Hkeep m who' Hm HPm Hstep) as [?|?]; [by right|]. left. exists (S m). split; [lia|done].
  - destruct Hfair as [Hstep|Hno]; [|by destruct Hno; apply Hen]. exists (S m). split; [lia|]. by apply Hact.
Qed.

(** *** From the queue to the first attempt *)
Lemma queued_spawned i v n :
  queued i v (sys_wq (e n)) → ∃ m, (n ≤ m)%nat ∧ i ∈ spawned (sys_wq (e m)).
Proof.
  revert n. induction v as [v IH] using lt_wf_ind. intros n Hq.
  destruct (leads_to Runner (λ s, queued i v (sys_wq s)) (λ s, closer i v (sys_wq s)) n) as (m & Hm & Hc); [done|..|done|].
  - intros k who _ Hk Hstep. destruct (exec_step_wq _ _ _ _ _ _ Hstep) as [->|[a Ha]]; [by left|].
    destruct (queued_step a _ _ i v (proj1 (ex_wq k)) (sv_context Hserv k) (sv_context Hserv (S k)) Ha Hk) as [?|[_ ?]]; auto.
  - intros k _ Hk Hstep. pose proof (sv_context Hserv (S k)) as Hctx. inversion Hstep as [wq' Hs Hrunner Hwq| | | | | | | | | |].
    rewrite <- Hwq in Hctx. destruct (queued_step ByRun (sys_wq (e k)) wq' i v) as [?|[? _]]; try done; [apply ex_wq|apply (sv_context Hserv)].
  - intros k _ Hk. destruct (queued_enabled _ i v (proj1 (ex_wq k)) (sv_context Hserv k) Hk) as [wq' Hs].
    eexists. by apply E_run.
  - destruct Hc as [Hc|(v' & Hv' & Hq')]; [by exists m|]. destruct (IH v' Hv' m Hq') as (m' & Hm' & Hi). exists m'. split; [lia|done].
Qed.

Lemma spawned_waiting i n : i ∈ spawned (sys_wq (e n)) → ∃ m, (n ≤ m)%nat ∧ i ∈ waiting (e m).
Proof.
  apply (leads_to (Goroutine i) (λ s, i ∈ spawned (sys_wq s)) (λ s, i ∈ waiting s)); [done|..].
  - intros k who _ Hk Hstep. by eapply spawned_step.
  - intros k _ Hk Hstep. eapply spawned_start; [apply ex_places|done..].
  - intros k _ Hk. by apply spawned_enabled.
Qed.

(** *** One attempt

    It begins in a world in which what holds from now on holds, and comes to its
    end. *)
Lemma waiting_attempt (F : world → Prop) i n :
  (∀ k, (n ≤ k)%nat → F (shared (sys_pool (e k)))) → i ∈ waiting (e n) →
  ∃ m b, (n ≤ m)%nat ∧ F b ∧ attempt_begun int8in i b (e m).
Proof.
  intros HF Hi. destruct (leads_to (Goroutine i) (λ s, i ∈ waiting s) (λ s, ∃ b, F b ∧ attempt_begun int8in i b s) n)
    as (m & Hm & b & Hb & Ha); [done|..|exact Hi|by exists m, b].
  - intros k who Hk Hw Hstep. destruct (waiting_step _ _ _ _ _ _ i (ex_jobctx k) Hstep Hw) as [?|Ha]; [by left|].
    right. eexists. split; [by apply (HF k)|exact Ha].
  - intros k Hk Hw Hstep. eexists. split; [by apply (HF k)|].
    eapply waiting_start; [apply ex_places|apply ex_jobctx|exact Hstep|exact Hw].
  - intros k _ Hw. by apply waiting_enabled.
Qed.

Lemma attempt_ends i t l m n :
  attempted i t l m (e n) → ∃ k r, (n ≤ k)%nat ∧ attempted i t l (Done r) (e k).
Proof.
  revert n. induction m as [r|upd next IH]; intros n Ha; [by exists n, r|].
  destruct (leads_to (Call t) (attempted i t l (Act upd next)) (λ s, ∃ w, attempted i t l (next w) s) n)
    as (k & Hk & w & Hw); [done|..|exact Ha|].
  - intros k who _ Hat Hstep. destruct (attempted_step _ _ _ _ _ _ _ _ _ _ Hstep Hat) as [?|(_ & upd' & next' & w & [= <- <-] & Hw)];
      [done|by left|right; by exists w].
  - intros k _ Hat Hstep. by eapply attempted_act.
  - intros k _ Hat. by eapply attempted_enabled.
  - destruct (IH w k Hw) as (k' & r & Hk' & Hr). exists k', r. split; [lia|done].
Qed.

Lemma attempt_returns i t l r n :
  attempted i t l (Done r) (e n) → ∃ m, (n ≤ m)%nat ∧ returned i r (e m).
Proof.
  apply (leads_to (Goroutine i) (attempted i t l (Done r)) (returned i r)); [done|..].
  - intros k who _ Ha Hstep. by eapply ended_step.
  - intros k _ Ha Hstep. eapply ended_return; [apply ex_places|exact Hstep|exact Ha].
  - intros k _ Ha. by eapply ended_enabled; [apply ex_inv|].
Qed.

(** *** The world only moves on *)
Lemma task_keeps l w : exec_allowed (added_by syncs) reported l w → keeps (λ _ _, True) (task_code int8in l).
Proof.
  assert (∀ R A (m : M A), keeps R m → keeps (λ _ _, True) m) as Hany by (intros R A m; by apply keeps_impl).
  intros Hl. destruct l as [j b|a|m]; cbn [task_code]; [|eapply Hany, UpsertApplications_keeps|by eapply Hany].
  destruct j as [ps|qs|ns partition|al|nus|ah ch]; cbn [run_job];
    [eapply Hany, UpsertPartitions_keeps|eapply Hany, UpsertQueues_keeps|eapply Hany, UpsertNodes_keeps
    |eapply Hany, UpsertApplications_keeps| |eapply Hany, UpdateHistory_keeps].
  apply keeps_bind; [by apply keeps_uuid|]. intros u. eapply Hany, InsertNodeUtilizations_keeps.
Qed.

Abbreviation exec_pool_step := (pool_step (task_code int8in) (exec_allowed (added_by syncs) reported)).

Lemma ex_pool n m : (n ≤ m)%nat → rtc exec_pool_step (sys_pool (e n)) (sys_pool (e m)).
Proof.
  induction 1 as [|m Hm IH]; [apply rtc_refl|]. destruct (fe_step Hexec m) as [->|[who Hstep]]; [done|].
  destruct (exec_step_pool _ _ _ _ _ _ _ (ex_inv m) Hstep) as [->|Hp]; [done|]. by eapply rtc_r.
Qed.

Lemma ex_calls n m : (n ≤ m)%nat → (w_calls (shared (sys_pool (e n))) ≤ w_calls (shared (sys_pool (e m))))%nat.
Proof.
  intros Hm. destruct (steps_move _ _ (λ _ _, True) _ _ task_keeps (ex_pool 0 n (Nat.le_0_l _))) as [_ Hn].
  { rewrite (fe_start Hexec). by apply Forall_nil. }
  by destruct (steps_move _ _ (λ _ _, True) _ _ task_keeps (ex_pool n m Hm) Hn) as [[_ ?] _].
Qed.

Lemma ex_done t l r n m :
  (n ≤ m)%nat → calls (sys_pool (e n)) !! t = Some (l, Done r) → calls (sys_pool (e m)) !! t = Some (l, Done r).
Proof.
  intros Hm. induction (ex_pool n m Hm) as [p|p p1 p2 Hstep _ IH]; [done|]. intros Ht. apply IH.
  destruct (pool_step_calls _ _ _ _ _ _ _ _ Hstep Ht) as (m' & Hm' & Hd). by rewrite Hm', (Hd r).
Qed.

Lemma ex_succeeded i n m : (n ≤ m)%nat → i ∈ succeeded (e n) → i ∈ succeeded (e m).
Proof.
  induction 1 as [|m Hm IH]; [done|]. intros Hi. destruct (fe_step Hexec m) as [->|[who Hstep]]; [by apply IH|].
  eapply exec_step_succeeded; [exact Hstep|by apply IH].
Qed.

(** *** Until it succeeds *)
Lemma added_waiting i n : i ∈ added (sys_wq (e n)) → ∃ m, (n ≤ m)%nat ∧ (i ∈ waiting (e m) ∨ i ∈ succeeded (e m)).
Proof.
  rewrite (places_added _ _ _ _ _ (ex_inv n)). unfold places. rewrite !elem_of_app.
  intros [Hi|[Hi|[Hi|[Hi|[Hi|Hi]]]]].
  - apply list_elem_of_split in Hi as (l1 & l2 & Hq). destruct (queued_spawned i _ n (ex_intro _ l1 (ex_intro _ l2 (conj Hq eq_refl))))
      as (m & Hm & Hs). destruct (spawned_waiting i m Hs) as (m' & Hm' & Hw). exists m'. split; [lia|by left].
  - destruct (spawned_waiting i n Hi) as (m & Hm & Hw). exists m. auto.
  - exists n. auto.
  - apply list_elem_of_fmap in Hi as ([i' t] & -> & Hi). destruct (ei_attempt _ _ _ _ _ (ex_inv n) _ _ Hi) as (b & m & Hc).
    destruct (attempt_ends i' t _ m n (conj Hi Hc)) as (k & r & Hk & Ha).
    destruct (attempt_returns i' t _ r k Ha) as (k' & Hk' & Hr). exists k'. split; [lia|]. destruct r as [[]|]; [by right|by left].
  - pose proof (ei_cancelled _ _ _ _ _ (ex_inv n)) as Hc. destruct (cancelled (e n)) as [|c l]; [by apply not_elem_of_nil in Hi|].
    by rewrite ex_jobctx in Hc; discriminate Hc.
  - exists n. auto.
Qed.

(** If an attempt that begins when [F] holds can fail only by the loss of a
    statement, the item succeeds. *)
Lemma waiting_succeeds (F : world → Prop) i n :
  (∀ k, (n ≤ k)%nat → F (shared (sys_pool (e k)))) →
  (∀ k t b r, (n ≤ k)%nat → calls (sys_pool (e k)) !! t = Some (Attempt (item_job i) b, Done r) → F b →
     r = Ok () ∨ lost_between b (shared (sys_pool (e k)))) →
  i ∈ waiting (e n) → ∃ m, (n ≤ m)%nat ∧ i ∈ succeeded (e m).
Proof.
  intros HF Hsure. destruct (sv_losses Hserv) as [N HN].
  enough (∀ d n', (n ≤ n')%nat → (N - w_calls (shared (sys_pool (e n'))) ≤ d)%nat → i ∈ waiting (e n') →
    ∃ m, (n' ≤ m)%nat ∧ i ∈ succeeded (e m)) as Hall.
  { intros Hi. by apply (Hall (N - w_calls (shared (sys_pool (e n))))%nat n). }
  induction d as [d IH] using lt_wf_ind. intros n' Hn' Hd Hi.
  destruct (waiting_attempt (λ w, F w ∧ (w_calls (shared (sys_pool (e n'))) ≤ w_calls w)%nat) i n')
    as (m & b & Hm & [HFb Hcb] & t & Ha); [|done|].
  { intros k Hk. split; [apply HF; lia|by apply ex_calls]. }
  destruct (attempt_ends i t _ _ m Ha) as (k & r & Hk & Hend).
  destruct (attempt_returns i t _ r k Hend) as (k' & Hk' & Hret).
  destruct Hend as [_ Hc]. apply (ex_done _ _ _ k k' Hk') in Hc.
  destruct (Hsure k' t b r) as [-> |(x & Hx & Hlost)]; [lia|done|done| |].
  - exists k'. split; [lia|done].
  - destruct r as [[]|err]; [exists k'; split; [lia|done]|].
    assert (x < N)%nat as HxN. { destruct (decide (N ≤ x)%nat) as [Hle|]; [|lia]. by destruct Hlost; apply HN. }
    destruct (IH (N - w_calls (shared (sys_pool (e k'))))%nat) with k' as (m' & Hm' & Hs); [lia|lia|done|done|].
    exists m'. split; [lia|done].
Qed.

Lemma added_succeeds (F : world → Prop) i n :
  (∀ k, (n ≤ k)%nat → F (shared (sys_pool (e k)))) →
  (∀ k t b r, (n ≤ k)%nat → calls (sys_pool (e k)) !! t = Some (Attempt (item_job i) b, Done r) → F b →
     r = Ok () ∨ lost_between b (shared (sys_pool (e k)))) →
  i ∈ added (sys_wq (e n)) → ∃ m, (n ≤ m)%nat ∧ i ∈ succeeded (e m).
Proof.
  intros HF Hsure Hi. destruct (added_waiting i n Hi) as (m & Hm & [Hw|Hs]); [|by exists m].
  destruct (waiting_succeeds F i m) as (m' & Hm' & Hs); [|intros k t b r Hk; apply Hsure; lia|done|exists m'; split; [lia|done]].
  intros k Hk. apply HF. lia.
Qed.

Lemma ex_added i n m : (n ≤ m)%nat → i ∈ added (sys_wq (e n)) → i ∈ added (sys_wq (e m)).
Proof.
  induction 1 as [|m Hm IH]; [done|]. intros Hi. specialize (IH Hi). clear Hi.
  destruct (fe_step Hexec m) as [->|[who Hstep]]; [done|].
  destruct (exec_step_wq _ _ _ _ _ _ Hstep) as [->|[a Ha]]; [done|]. by eapply elem_of_prefix; [exact IH|eapply step_added].
Qed.

End execution.

(** C3.  In the end everything is stored.  In a fair execution of the server in
    which the context of the work queue is never cancelled, only finitely many
    statements are lost and no two items have the same identifier, and in which
    the reports of the synchronisations are well formed
    ([SyncConcur.reportable]): if the jobs for the queues and for the
    applications of a synchronisation were added,
    then from some time on each of its queues has a live row that reflects it as
    some synchronisation fetched it, and each of its applications has a row that
    points to the row of its queue, in a state that a synchronisation fetched or
    an event reported. *)
Theorem sync_eventually_stored `{EnvLaws} int8in syncs reported opts w e S qs al iq ia nq na :
  fair_execution int8in syncs reported opts w e → serving e →
  (∀ S, syncs S → sync_run w S) → repo_wf w →
  syncs S → JobUpsertQueues qs ∈ sy_jobs S → JobUpsertApplications al ∈ sy_jobs S →
  iq ∈ added (sys_wq (e nq)) → item_job iq = JobUpsertQueues qs →
  ia ∈ added (sys_wq (e na)) → item_job ia = JobUpsertApplications al →
  ∃ m, ∀ k, (m ≤ k)%nat →
    queues_stored syncs w S (shared (sys_pool (e k))) ∧ apps_stored syncs reported S (shared (sys_pool (e k))).
Proof.
  intros Hexec Hserv Hruns Hwf HS Hjq Hja Hq Hjobq Ha Hjoba.
  assert (∀ k, exec_reachable int8in (added_by syncs) reported opts w (e k)) as Hreach by (intros k; by apply ex_reachable).
  destruct (added_succeeds int8in syncs reported opts w e Hexec Hserv (λ _, True) iq nq) as (m1 & _ & Hs1); [done| |done|].
  { intros k t b r _ Hc _. rewrite Hjobq in Hc.
    destruct (executed_attempt int8in syncs reported opts w (e k) Hruns Hwf (Hreach k)) as [_ Hdone].
    by apply (proj1 (Hdone t _ b r S Hc HS Hjq)  qs). }
  assert (∀ k, (m1 ≤ k)%nat → queues_stored syncs w S (shared (sys_pool (e k)))) as Hqs.
  { intros k Hk. apply (succeeded_stored int8in syncs reported opts w (e k) iq S) with (qs := qs); try done; [|by rewrite Hjobq].
    by apply (ex_succeeded int8in syncs reported opts w e Hexec iq m1). }
  destruct (added_succeeds int8in syncs reported opts w e Hexec Hserv (queues_stored syncs w S) ia (m1 `max` na)) as (m2 & _ & Hs2).
  { intros k Hk. apply Hqs. lia. }
  { intros k t b r _ Hc Hb. rewrite Hjoba in Hc.
    destruct (executed_attempt int8in syncs reported opts w (e k) Hruns Hwf (Hreach k)) as [_ Hdone].
    by apply (proj2 (Hdone t _ b r S Hc HS Hja) al). }
  { apply (ex_added int8in syncs reported opts w e Hexec ia na); [lia|done]. }
  exists (m1 `max` m2)%nat. intros k Hk. split; [apply Hqs; lia|].
  apply (succeeded_stored int8in syncs reported opts w (e k) ia S) with (al := al); try done; [|by rewrite Hjoba].
  apply (ex_succeeded int8in syncs reported opts w e Hexec ia m2); [lia|done].
Qed.

(** ** An execution

    A finite sequence of steps that ends in a state in which no goroutine and no
    call has a step to take is a fair execution that stutters from then on. *)
Section finite.
Context `{EnvLaws} (int8in : string → option Z) (syncs : synchronisation → Prop) (reported : ApplicationDAOInfo → Prop).

Record at_rest (s : system) : Prop := {
  ar_phase : phase (sys_wq s) = Selecting;
  ar_open : signal_closed (sys_wq s) = false;
  ar_ctx : ctx_done (sys_wq s) = false;
  ar_sending : sending (sys_wq s) = [];
  ar_spawned : spawned (sys_wq s) = [];
  ar_waiting : waiting s = [];
  ar_attempting : attempting s = [];
  ar_calls : Forall (λ c, ∃ r, c.2 = Done r) (calls (sys_pool s));
}.

Lemma at_rest_disabled s who s' : at_rest s → who ≠ Others → ¬ exec_step int8in (added_by syncs) reported s who s'.
Proof.
  intros [Hph Hop Hctx Hse Hsp Hwt Hat Hcs] Hwho Hstep.
  destruct Hstep as [wq' Hs|a wq' Ha Hs|job name Hst Hsub|l1 i' l2 Hl|k1 i' k2 Hw|k1 i' t' k2 l' e Hk Ht
    |k1 i' t' k2 l' l1 l2 Hk Ht Hl|k1 i' k2 l1 l2 Hd Hk Hl|t' l' upd' next' Ht|a Ha|m' Hm]; try done.
  - inversion Hs; try congruence. rewrite Hse in *. by destruct l1.
  - rewrite Hsp in Hl. by destruct l1.
  - rewrite Hwt in Hw. by destruct k1.
  - rewrite Hat in Hk. by destruct k1.
  - rewrite Hat in Hk. by destruct k1.
  - rewrite Hwt in Hk. by destruct k1.
  - destruct (Forall_lookup_1 _ _ _ _ Hcs Ht) as [r Hr]. discriminate Hr.
Qed.

(** The states of a finite sequence of steps, one after the other. *)
Lemma rtc_sequence {A} (R : relation A) x y :
  rtc R x y → ∃ (f : nat → A) K, f 0%nat = x ∧ (∀ n, (K ≤ n)%nat → f n = y) ∧ ∀ n, f (S n) = f n ∨ R (f n) (f (S n)).
Proof.
  induction 1 as [x|x x1 y Hstep _ (f & K & Hf0 & HfK & Hf)]; [exists (λ _, x), 0%nat; auto|].
  exists (λ n, match n with O => x | S n' => f n' end), (S K). split_and!; [done| |].
  - intros [|n] Hn; [lia|]. apply HfK. lia.
  - intros [|n]; [right; by rewrite Hf0|apply Hf].
Qed.

Lemma finite_execution opts w s :
  exec_reachable int8in (added_by syncs) reported opts w s → at_rest s → NoDup (added (sys_wq s)) →
  (∃ N, ∀ k, (N ≤ k)%nat → env_db k = Delivered) →
  ∃ e K, fair_execution int8in syncs reported opts w e ∧ serving e ∧ ∀ n, (K ≤ n)%nat → e n = s.
Proof.
  intros Hreach Hrest Hnd Hloss. destruct (rtc_sequence _ _ _ Hreach) as (e & K & He0 & HeK & He).
  assert (∀ n d, added (sys_wq (e n)) `prefix_of` added (sys_wq (e (d + n)%nat)) ∧
    (ctx_done (sys_wq (e n)) = true → ctx_done (sys_wq (e (d + n)%nat)) = true)) as Hmono.
  { intros n d. induction d as [|d [IHa IHc]]; [done|]. cbn [Nat.add]. destruct (He (d + n)%nat) as [->|[_ [who Hstep]]]; [done|].
    destruct (exec_step_wq _ _ _ _ _ _ Hstep) as [->|[a Ha]]; [done|]. split.
    - etrans; [exact IHa|by eapply step_added].
    - intros Hc. eapply step_ctx; [exact Ha|auto]. }
  assert (∀ n, e (K + n)%nat = s) as Hend by (intros n; apply HeK; lia).
  exists e, K. split; [|split; [|exact HeK]]; split; try done.
  - intros n. destruct (He n) as [?|[_ ?]]; auto.
  - intros who n Hwho. exists (K + n)%nat. split; [lia|]. right. rewrite Hend. intros [s' Hstep]. by eapply at_rest_disabled.
  - intros n. destruct (Hmono n K) as [_ Hc]. rewrite Hend, (ar_ctx _ Hrest) in Hc.
    destruct (ctx_done (sys_wq (e n))); [|done]. by specialize (Hc eq_refl).
  - intros n. destruct (Hmono n K) as [[l Hl] _]. rewrite Hend in Hl. rewrite Hl in Hnd. by apply NoDup_app in Hnd as [? _].
Qed.

End finite.

#[local] Existing Instance lossy_env.

Lemma results_done (p : pool sync_task) :
  Forall (λ o, ∃ r, o = Some r) (results p) → Forall (λ c, ∃ r, c.2 = Done r) (calls p).
Proof.
  intros Hall. apply Forall_lookup. intros t [l m] Ht.
  assert (results p !! t = Some (match m with Done r => Some r | Act _ _ => None end)) as Hr.
  { apply list_lookup_fmap_Some. by exists (l, m). }
  destruct (Forall_lookup_1 _ _ _ _ Hall Hr) as [r Hm]. destruct m; [by eexists|done].
Qed.

Lemma sample_at_rest : at_rest sample_system.
Proof.
  split; [reflexivity..|]. change (sys_pool sample_system) with pool8. apply results_done.
  vm_compute. repeat (apply Forall_cons_2; [by eexists|]). apply Forall_nil_2.
Qed.

Lemma sync_eventually_stored_witness :
  ∃ e, fair_execution sample_int8in sample_syncs (λ a, a = ended_app) [] empty_world e ∧
  ∃ m, ∀ k, (m ≤ k)%nat →
    queues_stored sample_syncs empty_world sync1 (shared (sys_pool (e k))) ∧
    apps_stored sample_syncs (λ a, a = ended_app) sync1 (shared (sys_pool (e k))).
Proof.
  destruct (@finite_execution lossy_env sample_int8in sample_syncs (λ a, a = ended_app) [] empty_world sample_system)
    as (e & K & Hexec & Hserv & Hend).
  - apply sample_system_reachable.
  - apply sample_at_rest.
  - vm_compute. repeat (apply NoDup_cons_2; [set_solver|]). apply NoDup_nil_2.
  - exists 6%nat. intros k Hk. cbn. rewrite decide_False; [reflexivity|lia].
  - exists e. split; [exact Hexec|].
    apply (@sync_eventually_stored lossy_env lossy_laws sample_int8in sample_syncs (λ a, a = ended_app) [] empty_world e sync1
      (flattenQueues (sy_roots sync1)) (apps_of sync1) queue_job app_job K K).
    + exact Hexec.
    + exact Hserv.
    + apply sample_sync_run.
    + apply (@repo_wf_empty lossy_env lossy_laws). reflexivity.
    + by left.
    + apply list_elem_of_further, list_elem_of_here.
    + do 2 apply list_elem_of_further. apply list_elem_of_here.
    + rewrite Hend by lia. apply list_elem_of_further, list_elem_of_here.
    + reflexivity.
    + rewrite Hend by lia. apply list_elem_of_here.
    + reflexivity.
Defined.
