(* ===== verification/Events.v ===== *)
(** * Events of the scheduler

    Models [internal/yunikorn/event_handler.go], [internal/yunikorn/stream.go]
    and [internal/database/repository/events.go].  The enumerations of the
    scheduler interface keep the constants that the sources name; any other
    number is [..Other].  Their printed names come from generated code and are
    the class [SI]; JSON decoding is a parameter. *)
From S2P Require Import Prelude GoStrings Dao Db QueueRepo AppRepo.
From Stdlib Require Import Ascii.

Inductive EventType :=
| UNKNOWN_EVENTRECORD_TYPE
| REQUEST
| APP
| NODE
| QUEUE
| USERGROUP
| TypeOther (n : Z).

Inductive ChangeType :=
| NONE
| SET
| ADD
| REMOVE
| ChangeOther (n : Z).

Inductive ChangeDetail :=
| DETAILS_NONE
| REQUEST_CANCEL
| ALLOC_CANCEL
| ALLOC_TIMEOUT
| ALLOC_REPLACED
| ALLOC_PREEMPT
| ALLOC_NODEREMOVED
| APP_ALLOC
| APP_REQUEST
| APP_REJECT
| APP_NEW
| APP_ACCEPTED
| APP_STARTING
| APP_RUNNING
| APP_COMPLETING
| APP_COMPLETED
| APP_FAILING
| APP_FAILED
| APP_RESUMING
| APP_EXPIRED
| REQUEST_TIMEOUT
| DetailOther (n : Z).

#[export] Instance EventType_eq_dec : EqDecision EventType.
Proof. solve_decision. Defined.
#[export] Instance ChangeType_eq_dec : EqDecision ChangeType.
Proof. solve_decision. Defined.
#[export] Instance ChangeDetail_eq_dec : EqDecision ChangeDetail.
Proof. solve_decision. Defined.

(** [String()] and the map [EventRecord_ChangeDetail_name]. *)
Class SI := {
  type_String : EventType → string;
  change_String : ChangeType → string;
  ChangeDetail_name : ChangeDetail → string;
}.

Record EventRecord := mkEventRecord {
  EType : EventType;
  ObjectID : string;
  ReferenceID : string;
  EventChangeType : ChangeType;
  EventChangeDetail : ChangeDetail;
  TimestampNano : Z;
  EResource : gmap string Z;
}.

(** ** The cache of applications *)
Abbreviation app_cache := (gmap string ApplicationDAOInfo).

Definition set_Allocations (l : option (list AllocationDAOInfo)) (a : ApplicationDAOInfo) : ApplicationDAOInfo :=
  mkApplicationDAOInfo (ApplicationID a) (UsedResource a) (MaxUsedResource a) (AppPendingResource a)
    (AppPartition a) (AppQueueName a) (SubmissionTime a) (FinishedTime a) (Requests a) l (State a) (User a)
    (Groups a) (RejectedMessage a) (StateLog a) (PlaceholderData a) (HasReserved a) (Reservations a)
    (MaxRequestPriority a).

Definition set_Requests (l : option (list AllocationAskDAOInfo)) (a : ApplicationDAOInfo) : ApplicationDAOInfo :=
  mkApplicationDAOInfo (ApplicationID a) (UsedResource a) (MaxUsedResource a) (AppPendingResource a)
    (AppPartition a) (AppQueueName a) (SubmissionTime a) (FinishedTime a) l (Allocations a) (State a) (User a)
    (Groups a) (RejectedMessage a) (StateLog a) (PlaceholderData a) (HasReserved a) (Reservations a)
    (MaxRequestPriority a).

Definition set_State (state : string) (l : option (list StateDAOInfo)) (a : ApplicationDAOInfo) : ApplicationDAOInfo :=
  mkApplicationDAOInfo (ApplicationID a) (UsedResource a) (MaxUsedResource a) (AppPendingResource a)
    (AppPartition a) (AppQueueName a) (SubmissionTime a) (FinishedTime a) (Requests a) (Allocations a) state
    (User a) (Groups a) (RejectedMessage a) l (PlaceholderData a) (HasReserved a) (Reservations a)
    (MaxRequestPriority a).

(** [append] on a slice that may be nil. *)
Definition append {A} (l : option (list A)) (x : A) : option (list A) := Some (default [] l ++ [x]).

Section handler.
Context `{Env} `{SI}.

(** A call whose error is only logged. *)
Definition log_error (m : M ()) : M () := catch (λ _, mret ()) m.

(** The application after a state change. *)
Definition change_state (ev : EventRecord) (a : ApplicationDAOInfo) : ApplicationDAOInfo :=
  let state := ChangeDetail_name (EventChangeDetail ev) in
  set_State state (append (StateLog a) (mkStateDAOInfo (TimestampNano ev) state)) a.

(** [answer]: what [s.client.GetApplication] returns while the event is handled. *)
Definition store_new (answer : result (option ApplicationDAOInfo)) (ev : EventRecord) (m : app_cache) :
    M app_cache :=
  match answer with
  | Ok (Some app) => mret (<[ObjectID ev := app]> m)
  | Ok None | Err _ => mret m
  end.

(** The cached application, updated in place. *)
Definition update_cached (f : ApplicationDAOInfo → ApplicationDAOInfo) (ev : EventRecord) (m : app_cache) :
    app_cache :=
  match m !! ObjectID ev with Some app => <[ObjectID ev := f app]> m | None => m end.

Definition handleAppAddEvent (answer : result (option ApplicationDAOInfo)) (ev : EventRecord) (m : app_cache) :
    M app_cache :=
  match EventChangeDetail ev with
  | APP_NEW | DETAILS_NONE => store_new answer ev m
  | APP_ALLOC =>
      let alloc := mkAllocationDAOInfo (ReferenceID ev) (Some (EResource ev)) (TimestampNano ev) None in
      mret (update_cached (λ app, set_Allocations (append (Allocations app) alloc) app) ev m)
  | APP_REQUEST =>
      let ask := mkAllocationAskDAOInfo (ReferenceID ev) (Some (EResource ev)) (TimestampNano ev) None in
      mret (update_cached (λ app, set_Requests (append (Requests app) ask) app) ev m)
  | _ => mret m
  end.

Definition is_state_change (d : ChangeDetail) : bool :=
  match d with
  | APP_ACCEPTED | APP_STARTING | APP_RUNNING | APP_COMPLETING | APP_COMPLETED | APP_FAILING
  | APP_FAILED | APP_RESUMING | APP_EXPIRED => true
  | _ => false
  end.

Definition is_terminal (d : ChangeDetail) : bool :=
  bool_decide (d = APP_COMPLETED ∨ d = APP_FAILED).

(** A state change of a cached application, persisted if [persist]. *)
Definition change_and_store (persist : bool) (ev : EventRecord) (m : app_cache) : M app_cache :=
  match m !! ObjectID ev with
  | None => mret m
  | Some app =>
      let app := change_state ev app in
      _ ← (if persist then log_error (UpsertApplications [app]) else mret ());
      mret (<[ObjectID ev := app]> m)
  end.

Definition handleAppSetEvent (answer : result (option ApplicationDAOInfo)) (ev : EventRecord) (m : app_cache) :
    M app_cache :=
  match EventChangeDetail ev with
  | APP_NEW => store_new answer ev m
  | d => if is_state_change d then change_and_store (is_terminal d) ev m else mret m
  end.

Definition handleAppRemoveEvent (ev : EventRecord) (m : app_cache) : M app_cache :=
  match EventChangeDetail ev with
  | DETAILS_NONE => mret (delete (ObjectID ev) m)
  | APP_REJECT => change_and_store true ev m
  | _ => mret m
  end.

Definition handleAppEvent (answer : result (option ApplicationDAOInfo)) (ev : EventRecord) (m : app_cache) :
    M app_cache :=
  match EventChangeType ev with
  | ADD => handleAppAddEvent answer ev m
  | SET => handleAppSetEvent answer ev m
  | REMOVE => handleAppRemoveEvent ev m
  | NONE | ChangeOther _ => mret m
  end.

Definition handleEvent (answer : result (option ApplicationDAOInfo)) (ev : EventRecord) (m : app_cache) :
    M app_cache :=
  match EType ev with
  | APP => handleAppEvent answer ev m
  | _ => mret m
  end.

End handler.

(** ** Event counts *)
Abbreviation EventTypeCounts := (gmap string Z).

(** The mutex makes each method one step. *)
Record InMemoryEventRepository := mkInMemoryEventRepository {
  counts : EventTypeCounts;
}.

Definition NewInMemoryEventRepository : InMemoryEventRepository := mkInMemoryEventRepository ∅.

Section counts.
Context `{SI}.

Definition getKey (e : EventRecord) : string :=
  Sprintf "%s-%s" [AnyString (type_String (EType e)); AnyString (change_String (EventChangeType e))].

Definition Record_ (event : EventRecord) (r : InMemoryEventRepository) : InMemoryEventRepository :=
  let key := getKey event in
  match counts r !! key with
  | Some count => mkInMemoryEventRepository (<[key := wrap64 (count + 1)]> (counts r))
  | None => mkInMemoryEventRepository (<[key := 1]> (counts r))
  end.

(** [Counts] returns a copy. *)
Definition Counts (r : InMemoryEventRepository) : EventTypeCounts :=
  map_fold (λ k v (countsCopy : EventTypeCounts), <[k := v]> countsCopy) ∅ (counts r).

End counts.

(** ** The event stream *)
Definition newline : ascii := "010"%char.

(** The complete lines of the body, with their newline; [bufio.Reader.ReadBytes]
    returns what follows the last newline together with the error that ends the
    body, and the loop drops it. *)
Fixpoint complete_lines (pieces : list string) : list string :=
  match pieces with
  | [] | [_] => []
  | p :: pieces' => (p +:+ String newline "") :: complete_lines pieces'
  end.

Definition ReadBytes_lines (body : string) : list string := complete_lines (strings_Split body newline).

(** ** The service

    The cache of applications and the event repository change while the service
    runs; the interval is set by the options.  [handled] numbers the events:
    [answers n] is what the scheduler returns to the [n]-th event that asks for
    its application. *)
Record Service := mkService {
  appMap : app_cache;
  eventRepository : InMemoryEventRepository;
  syncInterval : Z;
  handled : nat;
}.

Definition Service_Option : Type := Service → Service.

Definition WithSyncInterval (interval : Z) : Service_Option := λ s,
  mkService (appMap s) (eventRepository s) interval (handled s).

Definition defaultSyncInterval : Z := 5 * 60 * 1000000000.

Definition NewService (eventRepository : InMemoryEventRepository) (opts : list Service_Option) : Service :=
  foldl (λ s opt, opt s) (mkService ∅ eventRepository defaultSyncInterval 0) opts.

Section stream.
Context `{Env} `{SI}.
Context (unmarshal : string → result EventRecord).
Context (answers : nat → result (option ApplicationDAOInfo)).

(** [s.eventHandler], then [s.eventRepository.Record]. *)
Definition handle_and_record (ev : EventRecord) (s : Service) : M Service :=
  m ← handleEvent (answers (handled s)) ev (appMap s);
  mret (mkService m (Record_ ev (eventRepository s)) (syncInterval s) (S (handled s))).

(** The service afterwards and the error that is returned. *)
Definition processStreamResponse (response : string) (s : Service) : M (Service * option error) :=
  if decide (response = "") then mret (s, None)
  else match unmarshal response with
       | Err e => mret (s, Some (ErrWrap "could not unmarshal event from stream: " e))
       | Ok eventRecord => s' ← handle_and_record eventRecord s; mret (s', None)
       end.

(** The loop over the lines of the body, [end_err] being the error that ends it. *)
Fixpoint process_lines (lines : list string) (end_err : error) (s : Service) : M (Service * option error) :=
  match lines with
  | [] => mret (s, if errors_Is end_err EOF then None else Some end_err)
  | response :: lines' =>
      '(s', err) ← processStreamResponse response s;
      match err with
      | Some e => mret (s', Some (ErrWrap "error processing stream response: " e))
      | None => process_lines lines' end_err s'
      end
  end.

(** [stream]: the response of [GetEventStream], a body and the error after it. *)
Definition ProcessEvents (stream : result (string * error)) (s : Service) : M (Service * option error) :=
  match stream with
  | Err e => mret (s, Some (ErrWrap "error getting event stream: " e))
  | Ok (body, end_err) => process_lines (ReadBytes_lines body) end_err s
  end.

(** Only a cancelled stream ends the loop; other errors are logged. *)
Definition collector_stops (err : option error) : bool :=
  match err with Some e => errors_Is e Canceled | None => false end.

(** One stream after the other until one is cancelled; [None] when [fuel]
    streams do not suffice. *)
Fixpoint runEventCollector (fuel : nat) (streams : nat → result (string * error)) (i : nat) (s : Service) :
    M (option Service) :=
  match fuel with
  | O => mret None
  | S fuel' =>
      '(s', err) ← ProcessEvents (streams i) s;
      if collector_stops err then mret (Some s') else runEventCollector fuel' streams (S i) s'
  end.

End stream.
