(* ===== verification/EventTheorems.v ===== *)
(** * Events: theorems *)
From S2P Require Import Prelude GoStrings Dao Db Upsert QueueRepo QueueInv QueueUpsert FlattenQueues.
From S2P Require Import QueueTheorems AppRepo RepoInv AppTheorems Events.
From Stdlib Require Import Ascii.

(** ** Handling one event *)

(** Events that write to the database, if the application is cached. *)
Definition persists (ev : EventRecord) : bool :=
  bool_decide (EType ev = APP ∧
    ((EventChangeType ev = SET ∧ (EventChangeDetail ev = APP_COMPLETED ∨ EventChangeDetail ev = APP_FAILED)) ∨
     (EventChangeType ev = REMOVE ∧ EventChangeDetail ev = APP_REJECT))).

Section one.
Context `{Env} `{SI}.

(** What handling an event does to the cache and whether it touches the world. *)
Definition effect (ev : EventRecord) (m : app_cache) (w : world) (r : result app_cache) (w' : world) : Prop :=
  (∃ m', r = Ok m' ∧ ∀ id, id ≠ ObjectID ev → m' !! id = m !! id) ∧
  (persists ev = false ∨ m !! ObjectID ev = None → w' = w).

Lemma effect_same ev m w : effect ev m w (Ok m) w.
Proof. split; [|done]. by exists m. Qed.

Lemma effect_cache ev m w m' : (∀ id, id ≠ ObjectID ev → m' !! id = m !! id) → effect ev m w (Ok m') w.
Proof. intros Hm. split; [|done]. by exists m'. Qed.

Lemma store_new_effect answer ev m w : wp (store_new answer ev m) (effect ev m w) w.
Proof.
  unfold store_new. destruct answer as [[app|]|]; wp_step; [|apply effect_same..].
  apply effect_cache. intros id Hid. by rewrite lookup_insert_ne.
Qed.

Lemma update_cached_effect f ev m w : effect ev m w (Ok (update_cached f ev m)) w.
Proof.
  apply effect_cache. intros id Hid. unfold update_cached. destruct (m !! ObjectID ev); [|done].
  by rewrite lookup_insert_ne.
Qed.

Lemma wp_log_error (m : M ()) (Q : result () → world → Prop) w : wp m (λ _ w', Q (Ok ()) w') w → wp (log_error m) Q w.
Proof. unfold wp, log_error. by rewrite run_catch. Qed.

Lemma change_and_store_effect persist ev m w :
  (persist = true → persists ev = true) → wp (change_and_store persist ev m) (effect ev m w) w.
Proof.
  intros Hp. unfold change_and_store. destruct (m !! ObjectID ev) as [app|] eqn:Happ; [|wp_step; apply effect_same].
  wp_step. assert (∀ id, id ≠ ObjectID ev → <[ObjectID ev := change_state ev app]> m !! id = m !! id) as Hm.
  { intros id Hid. by rewrite lookup_insert_ne. }
  destruct persist.
  - apply wp_log_error. unfold wp. split; [by eexists|]. rewrite Happ, Hp by done. by intros [].
  - wp_steps. by apply effect_cache.
Qed.

Lemma handleEvent_effect answer ev m w : wp (handleEvent answer ev m) (effect ev m w) w.
Proof.
  unfold handleEvent, handleAppEvent.
  destruct (EType ev) eqn:Ht; try (wp_step; apply effect_same).
  destruct (EventChangeType ev) eqn:Hc; try (wp_step; apply effect_same).
  - unfold handleAppSetEvent. destruct (EventChangeDetail ev) eqn:Hd; cbn [is_state_change];
      try (wp_step; apply effect_same); try apply store_new_effect;
      apply change_and_store_effect; unfold is_terminal, persists; rewrite Ht, Hc, Hd;
      rewrite !bool_decide_eq_true; naive_solver.
  - unfold handleAppAddEvent. destruct (EventChangeDetail ev) eqn:Hd; try (wp_step; apply effect_same);
      try apply store_new_effect; wp_step; apply update_cached_effect.
  - unfold handleAppRemoveEvent. destruct (EventChangeDetail ev) eqn:Hd; try (wp_step; apply effect_same).
    + wp_step. apply effect_cache. intros id Hid. by rewrite lookup_delete_ne.
    + apply change_and_store_effect. intros _. unfold persists. rewrite Ht, Hc, Hd.
      apply bool_decide_eq_true. naive_solver.
Qed.

(** C25.  Handling an event never fails, changes the cache only at the application
    the event names, and writes to the database only for the completion,
    failure or rejection of a cached application. *)
Theorem handleEvent_confined answer ev m w :
  (∃ m', (handleEvent answer ev m w).1 = Ok m' ∧ ∀ id, id ≠ ObjectID ev → m' !! id = m !! id) ∧
  (persists ev = false ∨ m !! ObjectID ev = None → (handleEvent answer ev m w).2 = w).
Proof. apply (handleEvent_effect answer ev m w). Qed.

(** ** The life of an application *)

(** A state change that reaches the cache. *)
Definition state_event (id : string) (ev : EventRecord) : Prop :=
  EType ev = APP ∧ ObjectID ev = id ∧
  ((EventChangeType ev = SET ∧ is_state_change (EventChangeDetail ev) = true) ∨
   (EventChangeType ev = REMOVE ∧ EventChangeDetail ev = APP_REJECT)).

(** The events of a stream, one after the other; [answers] are the scheduler's. *)
Fixpoint handle_all (evs : list (result (option ApplicationDAOInfo) * EventRecord)) (m : app_cache) :
    M app_cache :=
  match evs with
  | [] => mret m
  | (answer, ev) :: evs' => m' ← handleEvent answer ev m; handle_all evs' m'
  end.

Definition log_entry (ev : EventRecord) : StateDAOInfo :=
  mkStateDAOInfo (TimestampNano ev) (ChangeDetail_name (EventChangeDetail ev)).

Lemma handle_state_event id answer ev m app w :
  state_event id ev → m !! id = Some app →
  wp (handleEvent answer ev m) (λ r _, r = Ok (<[id := change_state ev app]> m)) w.
Proof.
  intros (Ht & <- & Hcase) Happ.
  assert (∀ persist w, wp (change_and_store persist ev m) (λ r _, r = Ok (<[ObjectID ev := change_state ev app]> m)) w) as Hcs.
  { intros persist w'. unfold change_and_store. rewrite Happ. wp_step. destruct persist; [|by wp_steps].
    apply wp_log_error. unfold wp. done. }
  unfold handleEvent, handleAppEvent. rewrite Ht. destruct Hcase as [[-> Hs]|[-> Hd]].
  - unfold handleAppSetEvent. destruct (EventChangeDetail ev); try done; apply Hcs.
  - unfold handleAppRemoveEvent. rewrite Hd. apply Hcs.
Qed.

Lemma wp_handle_all id evs m app w :
  Forall (λ p, state_event id p.2) evs → m !! id = Some app →
  wp (handle_all evs m) (λ r _, ∃ m' app', r = Ok m' ∧ m' !! id = Some app' ∧
    default [] (StateLog app') = default [] (StateLog app) ++ (log_entry <$> evs.*2) ∧
    State app' = default (State app) (ApplicationState <$> last (log_entry <$> evs.*2))) w.
Proof.
  intros Hevs. revert m app w. induction Hevs as [|[answer ev] evs Hev _ IH]; intros m app w Happ.
  { exists m, app. rewrite app_nil_r. done. }
  cbn [handle_all]. wp_step. eapply wp_mono; [by eapply handle_state_event|]. intros r w' ->.
  eapply wp_mono; [apply (IH _ (change_state ev app)); by rewrite lookup_insert_eq|].
  intros r w'' (m' & app' & -> & Happ' & Hlog & Hst). exists m', app'. split; [done|]. split; [done|]. split.
  - rewrite Hlog. cbn. by rewrite <- app_assoc.
  - rewrite Hst. rewrite !fmap_cons. destruct evs as [|[answer' ev'] evs]; [done|].
    rewrite !fmap_cons, last_cons_cons. by destruct (last _) as [x|] eqn:Hl; [|apply last_None in Hl].
Qed.

(** C11.  A sequence of state changes of a cached application appends one entry per
    event to its state log, in order, and leaves it in the state of the last
    one, whatever happens in the database. *)
Theorem state_log_follows_events id evs m app w :
  Forall (λ p, state_event id p.2) evs → m !! id = Some app →
  ∃ m' app', (handle_all evs m w).1 = Ok m' ∧ m' !! id = Some app' ∧
    default [] (StateLog app') = default [] (StateLog app) ++ (log_entry <$> evs.*2) ∧
    State app' = default (State app) (ApplicationState <$> last (log_entry <$> evs.*2)).
Proof. intros Hevs Happ. apply (wp_handle_all id evs m app w Hevs Happ). Qed.

End one.

(** ** Persisting *)
Section persist.
Context `{EnvLaws} `{SI} (Hdel : ∀ n, env_db n = Delivered).

(** The row after the event of a cached application whose queue is live. *)
Lemma wp_change_and_store ev m app w :
  repo_wf w → m !! ObjectID ev = Some app → AppQueueName app ≠ "" →
  is_live (queue_map w) (AppPartition app, AppQueueName app) →
  wp (change_and_store true ev m) (λ r w', ∃ row,
    app_map w' !! dao_app_key app = Some row ∧
    a_state row = ChangeDetail_name (EventChangeDetail ev) ∧
    a_state_log row = append (StateLog app) (log_entry ev)) w.
Proof.
  intros Hwf Happ Hn Hlive. unfold change_and_store. rewrite Happ. wp_step. apply wp_log_error.
  eapply wp_mono; [apply (wp_UpsertApplications Hdel _ (queue_map w))|].
  - split; [apply (rwf_queues _ Hwf)|]. split; [done|apply (apps_issued _ _ _ (rwf_apps _ Hwf))].
  - by apply Forall_singleton.
  - intros r w' [-> Hm]. wp_steps.
    pose proof (merged_rows app_key app_merge (stored_row (queue_map w)) dao_app_key (λ _ _, eq_refl) _ _ _ Hm
      (NoDup_singleton _)) as [id Hrow]%Forall_singleton.
    change (dao_app_key (change_state ev app)) with (dao_app_key app) in Hrow.
    eexists. split; [exact Hrow|]. by destruct (app_map w !! dao_app_key app).
Qed.

End persist.

(** C12.  When a cached application of a live queue completes, fails or is rejected
    and every statement is delivered, its row has the new state and a state
    log that ends with the event. *)
Theorem terminal_event_persisted `{EnvLaws} `{SI} answer ev m app w :
  (∀ n, env_db n = Delivered) → repo_wf w → persists ev = true → m !! ObjectID ev = Some app →
  AppQueueName app ≠ "" → is_live (queue_map w) (AppPartition app, AppQueueName app) →
  ∃ row, app_map (handleEvent answer ev m w).2 !! dao_app_key app = Some row ∧
    a_state row = ChangeDetail_name (EventChangeDetail ev) ∧
    a_state_log row = append (StateLog app) (log_entry ev).
Proof.
  intros Hd Hwf Hp Happ Hn Hlive. pose proof (wp_change_and_store Hd ev m app w Hwf Happ Hn Hlive) as Hcs.
  apply bool_decide_eq_true in Hp as [Ht Hcase]. unfold handleEvent, handleAppEvent. rewrite Ht.
  destruct Hcase as [[-> Hdet]|[-> Hdet]].
  - unfold handleAppSetEvent. destruct Hdet as [Hdet|Hdet]; rewrite Hdet in *; exact Hcs.
  - unfold handleAppRemoveEvent. rewrite Hdet in *. exact Hcs.
Qed.

(** ** Counting *)
Section counting.
Context `{SI}.

Definition count_events (key : string) (evs : list EventRecord) : nat :=
  length (filter (λ e, getKey e = key) evs).

Definition record_all (evs : list EventRecord) (r : InMemoryEventRepository) : InMemoryEventRepository :=
  foldl (λ r e, Record_ e r) r evs.

Lemma record_lookup e r k :
  0 ≤ default 0 (counts r !! k) < 2 ^ 63 - 1 →
  default 0 (counts (Record_ e r) !! k) = default 0 (counts r !! k) + (if decide (getKey e = k) then 1 else 0).
Proof.
  intros Hr. unfold Record_. destruct (counts r !! getKey e) as [c|] eqn:Hc; case_decide as Hk; cbn [counts].
  - subst k. rewrite lookup_insert_eq, Hc in *. cbn in *. rewrite wrap_id; lia.
  - rewrite lookup_insert_ne by done. lia.
  - subst k. by rewrite lookup_insert_eq, Hc.
  - rewrite lookup_insert_ne by done. lia.
Qed.

Lemma record_all_count evs r k :
  0 ≤ default 0 (counts r !! k) → default 0 (counts r !! k) + Z.of_nat (count_events k evs) < 2 ^ 63 →
  default 0 (counts (record_all evs r) !! k) = default 0 (counts r !! k) + Z.of_nat (count_events k evs).
Proof.
  revert r. induction evs as [|e evs IH]; intros r H0 Hmax; [cbn; lia|].
  unfold count_events in *. rewrite filter_cons in *. unfold record_all in *. cbn [foldl].
  assert (0 ≤ default 0 (counts r !! k) < 2 ^ 63 - 1 ∨ getKey e ≠ k ∧ filter (λ e, getKey e = k) evs = []) as Hcase.
  { destruct (decide (getKey e = k)); [left; cbn in Hmax; lia|].
    destruct (filter (λ e, getKey e = k) evs) as [|? ?]; [by right|left; cbn in Hmax; lia]. }
  assert (default 0 (counts (Record_ e r) !! k) = default 0 (counts r !! k) + (if decide (getKey e = k) then 1 else 0)) as Hr.
  { destruct Hcase as [Hb|[Hne _]]; [by apply record_lookup|]. rewrite decide_False by done. unfold Record_.
    destruct (counts r !! getKey e); cbn [counts]; rewrite lookup_insert_ne by done; lia. }
  rewrite IH; rewrite Hr; destruct (decide (getKey e = k)); cbn [length] in *; lia.
Qed.

Lemma Counts_copy r : Counts r = counts r.
Proof.
  unfold Counts. induction (counts r) as [|k v m Hk Hm IH] using map_first_key_ind; [apply map_fold_empty|].
  rewrite map_fold_insert_first_key by done. by rewrite IH.
Qed.

(** Starting empty, the count that [Counts] returns for a key is the number of
    recorded events with that key, as long as it fits an int. *)
Theorem counts_are_exact evs k :
  Z.of_nat (count_events k evs) < 2 ^ 63 →
  default 0 (Counts (record_all evs NewInMemoryEventRepository) !! k) = Z.of_nat (count_events k evs).
Proof.
  intros Hmax. rewrite Counts_copy, record_all_count; cbn [counts NewInMemoryEventRepository]; rewrite lookup_empty; cbn [default from_option]; lia.
Qed.

(** If the names of event types differ, those of change types differ and the
    two event types print without a hyphen, the key tells them apart. *)
Theorem getKey_injective e e' :
  Inj (=) (=) type_String → Inj (=) (=) change_String →
  no_char "-"%char (type_String (EType e)) = true → no_char "-"%char (type_String (EType e')) = true →
  getKey e = getKey e' → EType e = EType e' ∧ EventChangeType e = EventChangeType e'.
Proof.
  intros Ht Hc Hno Hno' Heq. unfold getKey in Heq.
  assert (∀ t c, Sprintf "%s-%s" [AnyString t; AnyString c] = t +:+ String "-" "" +:+ c) as Hsp.
  { intros t c. cbn. by rewrite string_app_nil_r. }
  rewrite !Hsp in Heq. pose proof (f_equal (λ s, strings_Split s "-"%char) Heq) as Hs. cbn beta in Hs.
  rewrite !strings_Split_app in Hs by done. injection Hs as Hhd _. apply Ht in Hhd as Hty. split; [done|].
  rewrite Hhd in Heq. apply string_app_inj_l, string_app_inj_l in Heq. by apply Hc.
Qed.

End counting.

(** ** The stream *)

(** What a stream amounts to: the events decoded from it and the error it ends
    with. *)
Section spec.
Context (unmarshal : string → result EventRecord).

Fixpoint decode_lines (lines : list string) (end_err : error) : list EventRecord * option error :=
  match lines with
  | [] => ([], if errors_Is end_err EOF then None else Some end_err)
  | l :: lines' =>
      match unmarshal l with
      | Err e => ([], Some (ErrWrap "error processing stream response: "
                             (ErrWrap "could not unmarshal event from stream: " e)))
      | Ok ev => let '(rest, r) := decode_lines lines' end_err in (ev :: rest, r)
      end
  end.

Definition decode_stream (stream : result (string * error)) : list EventRecord * option error :=
  match stream with
  | Err e => ([], Some (ErrWrap "error getting event stream: " e))
  | Ok (body, end_err) => decode_lines (ReadBytes_lines body) end_err
  end.

(** A stream of texts, each followed by a newline, with a rest that is not. *)
Definition stream_body (texts : list string) (rest : string) : string :=
  strings_Join (texts ++ [rest]) (String newline "").

Definition one_line (s : string) : Prop := no_char newline s = true.

Definition decodes (t : string) (ev : EventRecord) : Prop := unmarshal (t +:+ String newline "") = Ok ev.

Lemma complete_lines_snoc texts rest :
  complete_lines (texts ++ [rest]) = (λ t, t +:+ String newline "") <$> texts.
Proof.
  induction texts as [|t texts IH]; [done|]. cbn. destruct (texts ++ [rest]) as [|x l] eqn:Hl; [by destruct texts|].
  by rewrite IH.
Qed.

Lemma ReadBytes_stream texts rest :
  Forall one_line texts → one_line rest →
  ReadBytes_lines (stream_body texts rest) = (λ t, t +:+ String newline "") <$> texts.
Proof.
  intros Ht Hr. unfold ReadBytes_lines, stream_body. rewrite strings_Split_Join; [apply complete_lines_snoc| |].
  - by destruct texts.
  - apply Forall_app. split; [done|]. by apply Forall_singleton.
Qed.

(** The branch for an empty response is never taken. *)
Lemma complete_lines_not_empty pieces : Forall (λ l, l ≠ "") (complete_lines pieces).
Proof.
  induction pieces as [|p pieces IH]; [constructor|]. cbn. destruct pieces; [constructor|].
  constructor; [by destruct p|done].
Qed.

Lemma decode_lines_ok texts evs end_err :
  Forall2 decodes texts evs →
  decode_lines ((λ t, t +:+ String newline "") <$> texts) end_err =
    (evs, if errors_Is end_err EOF then None else Some end_err).
Proof.
  induction 1 as [|t ev texts evs Hu _ IH]; [done|]. rewrite fmap_cons. cbn [decode_lines].
  unfold decodes in Hu. by rewrite Hu, IH.
Qed.

Lemma decode_lines_bad texts evs bad e more end_err :
  Forall2 decodes texts evs → unmarshal (bad +:+ String newline "") = Err e →
  decode_lines ((λ t, t +:+ String newline "") <$> (texts ++ bad :: more)) end_err =
    (evs, Some (ErrWrap "error processing stream response: "
                  (ErrWrap "could not unmarshal event from stream: " e))).
Proof.
  intros Hall Hbad. induction Hall as [|t ev texts evs Hu _ IH]; cbn [app]; rewrite fmap_cons; cbn [decode_lines].
  - by rewrite Hbad.
  - unfold decodes in Hu. by rewrite Hu, IH.
Qed.

Context `{Env} `{SI} (answers : nat → result (option ApplicationDAOInfo)).

(** Handling and recording a list of events. *)
Fixpoint handle_and_record_all (evs : list EventRecord) (s : Service) : M Service :=
  match evs with
  | [] => mret s
  | ev :: evs' => s' ← handle_and_record answers ev s; handle_and_record_all evs' s'
  end.

Lemma handle_and_record_ok ev s w :
  ∃ s' w', handle_and_record answers ev s w = (Ok s', w') ∧ eventRepository s' = Record_ ev (eventRepository s).
Proof.
  unfold handle_and_record. rewrite run_bind.
  destruct (handleEvent_effect (answers (handled s)) ev (appMap s) w) as [(m & Hm & _) _].
  destruct (handleEvent _ ev (appMap s) w) as [r w'] eqn:Hev. cbn in Hm. subst r.
  by eexists _, w'.
Qed.

(** Nothing that happens in the database stops it, and all events are counted. *)
Lemma handle_and_record_all_ok evs s w :
  ∃ s' w', handle_and_record_all evs s w = (Ok s', w') ∧ eventRepository s' = record_all evs (eventRepository s).
Proof.
  revert s w. induction evs as [|ev evs IH]; intros s w; [by exists s, w|].
  destruct (handle_and_record_ok ev s w) as (s1 & w1 & Heq & Hc1). destruct (IH s1 w1) as (s2 & w2 & Heq2 & Hc2).
  exists s2, w2. cbn [handle_and_record_all]. rewrite run_bind, Heq. split; [done|]. by rewrite Hc2, Hc1.
Qed.

Lemma handle_and_record_all_app evs1 evs2 s w :
  handle_and_record_all (evs1 ++ evs2) s w =
    (s' ← handle_and_record_all evs1 s; handle_and_record_all evs2 s') w.
Proof.
  revert s w. induction evs1 as [|ev evs1 IH]; intros s w; [done|]. cbn [app handle_and_record_all].
  rewrite !run_bind. destruct (handle_and_record answers ev s w) as [[s'|e] w']; [|done]. by rewrite IH, run_bind.
Qed.

Lemma process_lines_spec lines end_err s w :
  Forall (λ l, l ≠ "") lines →
  process_lines unmarshal answers lines end_err s w =
    (s' ← handle_and_record_all (decode_lines lines end_err).1 s; mret (s', (decode_lines lines end_err).2)) w.
Proof.
  intros Hne. revert s w. induction Hne as [|l lines Hl _ IH]; intros s w; [done|].
  cbn [process_lines decode_lines]. unfold processStreamResponse. rewrite decide_False by done.
  destruct (unmarshal l) as [ev|e]; [|done]. destruct (decode_lines lines end_err) as [rest r].
  cbn [fst snd handle_and_record_all] in *. rewrite !run_bind.
  destruct (handle_and_record answers ev s w) as [[s'|e] w']; [|done]. cbn [mret M_ret run]. by rewrite IH, run_bind.
Qed.

(** Reading a stream is handling and recording the events that it decodes to,
    in order, and returning the error that it ends with. *)
Lemma ProcessEvents_spec stream s w :
  ProcessEvents unmarshal answers stream s w =
    (s' ← handle_and_record_all (decode_stream stream).1 s; mret (s', (decode_stream stream).2)) w.
Proof.
  destruct stream as [[body end_err]|e]; [|done]. apply process_lines_spec, complete_lines_not_empty.
Qed.

Lemma ProcessEvents_ok stream s w :
  ∃ s' w', handle_and_record_all (decode_stream stream).1 s w = (Ok s', w') ∧
    ProcessEvents unmarshal answers stream s w = (Ok (s', (decode_stream stream).2), w').
Proof.
  destruct (handle_and_record_all_ok (decode_stream stream).1 s w) as (s' & w' & Heq & _).
  exists s', w'. split; [done|]. by rewrite ProcessEvents_spec, run_bind, Heq.
Qed.

(** C26.  Every line of the stream that ends with a newline is decoded, handled and
    recorded, in order; the end of the stream is not an error, and whatever
    follows the last newline is dropped. *)
Theorem ProcessEvents_lines texts evs rest end_err s w :
  Forall one_line texts → one_line rest → Forall2 decodes texts evs →
  ∃ s' w', handle_and_record_all evs s w = (Ok s', w') ∧
    ProcessEvents unmarshal answers (Ok (stream_body texts rest, end_err)) s w =
      (Ok (s', if errors_Is end_err EOF then None else Some end_err), w') ∧
    eventRepository s' = record_all evs (eventRepository s).
Proof.
  intros Ht Hr Hu.
  assert (decode_stream (Ok (stream_body texts rest, end_err)) = (evs, if errors_Is end_err EOF then None else Some end_err)) as Hd.
  { cbn. rewrite ReadBytes_stream by done. by apply decode_lines_ok. }
  destruct (handle_and_record_all_ok evs s w) as (s' & w' & Heq & Hc). exists s', w'. split; [done|]. split; [|done].
  rewrite ProcessEvents_spec, Hd. cbn [fst snd]. by rewrite run_bind, Heq.
Qed.

(** A line that cannot be decoded ends the stream: the events before it have
    been handled and recorded, those after it are not read. *)
Theorem ProcessEvents_bad_line texts evs bad e more rest end_err s w :
  Forall one_line (texts ++ bad :: more) → one_line rest → Forall2 decodes texts evs →
  unmarshal (bad +:+ String newline "") = Err e →
  ∃ s' w', handle_and_record_all evs s w = (Ok s', w') ∧
    ProcessEvents unmarshal answers (Ok (stream_body (texts ++ bad :: more) rest, end_err)) s w =
      (Ok (s', Some (ErrWrap "error processing stream response: "
                       (ErrWrap "could not unmarshal event from stream: " e))), w').
Proof.
  intros Ht Hr Hu Hb.
  destruct (handle_and_record_all_ok evs s w) as (s' & w' & Heq & _). exists s', w'. split; [done|].
  rewrite ProcessEvents_spec. unfold decode_stream. rewrite ReadBytes_stream by done.
  rewrite (decode_lines_bad _ _ _ _ _ _ Hu Hb). cbn [fst snd]. by rewrite run_bind, Heq.
Qed.

Lemma runEventCollector_steps streams n s w f i :
  (∀ k, (i ≤ k < i + n)%nat → ∀ e, (decode_stream (streams k)).2 = Some e → errors_Is e Canceled = false) →
  (∃ e, (decode_stream (streams (i + n)%nat)).2 = Some e ∧ errors_Is e Canceled = true) → (n < f)%nat →
  runEventCollector unmarshal answers f streams i s w =
    (s' ← handle_and_record_all (seq i (S n) ≫= λ k, (decode_stream (streams k)).1) s; mret (Some s')) w.
Proof.
  revert i f s w. induction n as [|n IH]; intros i f s w Hgo Hend Hf; (destruct f as [|f]; [lia|]);
    cbn [runEventCollector]; rewrite run_bind;
    destruct (ProcessEvents_ok (streams i) s w) as (s1 & w1 & Hh & ->).
  - destruct Hend as (e & He & Hcan). rewrite Nat.add_0_r in He. rewrite He. cbn [collector_stops]. rewrite Hcan.
    cbn [seq]. rewrite list.bind_cons. change ([] ≫= _) with (@nil EventRecord). rewrite app_nil_r. by rewrite run_bind, Hh.
  - assert (runEventCollector unmarshal answers f streams (S i) s1 w1 =
      (s' ← handle_and_record_all (seq (S i) (S n) ≫= λ k, (decode_stream (streams k)).1) s1; mret (Some s')) w1)
      as Hrest.
    { apply IH; [|by rewrite Nat.add_succ_comm|lia]. intros k Hk. apply Hgo. lia. }
    change (seq i (S (S n))) with (i :: seq (S i) (S n)). rewrite list.bind_cons.
    rewrite run_bind, handle_and_record_all_app, run_bind, Hh. rewrite run_bind in Hrest.
    destruct (decode_stream (streams i)).2 as [e0|] eqn:He; cbn [collector_stops];
      [rewrite (Hgo i ltac:(lia) e0 He)|]; exact Hrest.
Qed.

(** C27.  The collector reads stream after stream, whatever errors they end with,
    and stops at the first one that is cancelled, whether the request or the
    body reports it; by then it has handled and recorded the events of all of
    them, in order. *)
Theorem runEventCollector_until_cancelled fuel streams n s w :
  (n < fuel)%nat →
  (∀ k, (k < n)%nat → ∀ e, (decode_stream (streams k)).2 = Some e → errors_Is e Canceled = false) →
  (∃ e, errors_Is e Canceled = true ∧
     (streams n = Err e ∨ ∃ texts evs, Forall one_line texts ∧ streams n = Ok (stream_body texts "", e) ∧
        Forall2 decodes texts evs)) →
  ∃ s' w', handle_and_record_all (seq 0 (S n) ≫= λ k, (decode_stream (streams k)).1) s w = (Ok s', w') ∧
    runEventCollector unmarshal answers fuel streams 0 s w = (Ok (Some s'), w').
Proof.
  intros Hfuel Hgo (e & He & Hend).
  assert (∃ e', (decode_stream (streams n)).2 = Some e' ∧ errors_Is e' Canceled = true) as Hlast.
  { destruct Hend as [-> |(texts & evs & Hl & -> & Hu)]; [by eexists|]. exists e. split; [|done].
    cbn [decode_stream]. rewrite ReadBytes_stream, (decode_lines_ok _ _ _ Hu) by done.
    by rewrite (errors_Is_sentinel e Canceled EOF). }
  destruct (handle_and_record_all_ok (seq 0 (S n) ≫= λ k, (decode_stream (streams k)).1) s w) as (s' & w' & Heq & _).
  exists s', w'. split; [done|]. rewrite (runEventCollector_steps streams n); [|naive_solver lia|done|done].
  by rewrite run_bind, Heq.
Qed.

End spec.

(** ** Instances *)

Definition sample_service : Service := NewService NewInMemoryEventRepository [WithSyncInterval 1000000000].

(** Names for the enumerations. *)
Definition sample_SI : SI := {|
  type_String t := match t with
    | UNKNOWN_EVENTRECORD_TYPE => "UNKNOWN_EVENTRECORD_TYPE" | REQUEST => "REQUEST" | APP => "APP"
    | NODE => "NODE" | QUEUE => "QUEUE" | USERGROUP => "USERGROUP" | TypeOther n => "type " +:+ pretty n
    end;
  change_String c := match c with
    | NONE => "NONE" | SET => "SET" | ADD => "ADD" | REMOVE => "REMOVE" | ChangeOther n => "change " +:+ pretty n
    end;
  ChangeDetail_name d := match d with
    | APP_RUNNING => "APP_RUNNING" | APP_COMPLETED => "APP_COMPLETED" | APP_FAILED => "APP_FAILED"
    | APP_REJECT => "APP_REJECT" | _ => ""
    end;
|}.

Lemma sample_type_inj : Inj (=) (=) (@type_String sample_SI).
Proof.
  intros [| | | | | |n] [| | | | | |m] Heq; try reflexivity; try discriminate.
  cbn in Heq. f_equal. apply (inj pretty), (string_app_inj_l "type "), Heq.
Qed.

Lemma sample_change_inj : Inj (=) (=) (@change_String sample_SI).
Proof.
  intros [| | | |n] [| | | |m] Heq; try reflexivity; try discriminate.
  cbn in Heq. f_equal. apply (inj pretty), (string_app_inj_l "change "), Heq.
Qed.

Definition sample_event (d : ChangeDetail) (ts : Z) : EventRecord := mkEventRecord APP "app-1" "" SET d ts ∅.

Lemma state_log_follows_events_witness :
  ∃ m' app', (@handle_all ideal_env sample_SI
      [(Ok None, sample_event APP_RUNNING 1); (Ok None, sample_event APP_COMPLETED 2)]
      {["app-1" := sample_app]} sample_world).1 = Ok m' ∧
    m' !! "app-1" = Some app' ∧
    default [] (StateLog app') = [mkStateDAOInfo 1 "APP_RUNNING"; mkStateDAOInfo 2 "APP_COMPLETED"] ∧
    State app' = "APP_COMPLETED".
Proof.
  apply (@state_log_follows_events ideal_env sample_SI "app-1"
    [(Ok None, sample_event APP_RUNNING 1); (Ok None, sample_event APP_COMPLETED 2)]
    {["app-1" := sample_app]} sample_app sample_world).
  - apply Forall_cons_2; [|apply Forall_singleton]; (split; [reflexivity|]); (split; [reflexivity|]); left; split; reflexivity.
  - reflexivity.
Defined.

Lemma terminal_event_persisted_witness :
  ∃ row, app_map (@handleEvent ideal_env sample_SI (Ok None) (sample_event APP_COMPLETED 7)
      {["app-1" := sample_app]} sample_world).2 !! dao_app_key sample_app = Some row ∧
    a_state row = "APP_COMPLETED" ∧ a_state_log row = Some [mkStateDAOInfo 7 "APP_COMPLETED"].
Proof.
  apply (@terminal_event_persisted ideal_env ideal_laws sample_SI (Ok None) (sample_event APP_COMPLETED 7)
    {["app-1" := sample_app]} sample_app sample_world);
    [reflexivity|apply sample_repo_wf|reflexivity|reflexivity|discriminate|apply sample_live].
Defined.

Lemma counts_are_exact_witness :
  default 0 (Counts (@record_all sample_SI [sample_event APP_RUNNING 1; sample_event APP_COMPLETED 2] NewInMemoryEventRepository) !! "APP-SET") = 2.
Proof. apply (@counts_are_exact sample_SI [sample_event APP_RUNNING 1; sample_event APP_COMPLETED 2] "APP-SET"). reflexivity. Defined.

Lemma getKey_injective_witness :
  EType (sample_event APP_RUNNING 1) = EType (sample_event APP_COMPLETED 2) ∧
  EventChangeType (sample_event APP_RUNNING 1) = EventChangeType (sample_event APP_COMPLETED 2).
Proof.
  apply (@getKey_injective sample_SI (sample_event APP_RUNNING 1) (sample_event APP_COMPLETED 2));
    [apply sample_type_inj|apply sample_change_inj|reflexivity..].
Defined.

(** A decoder that knows two lines. *)
Definition sample_unmarshal (line : string) : result EventRecord :=
  if decide (line = "running" +:+ String newline "") then Ok (sample_event APP_RUNNING 1)
  else if decide (line = "completed" +:+ String newline "") then Ok (sample_event APP_COMPLETED 2)
  else Err (ErrMsg "invalid character").

Definition no_answers (n : nat) : result (option ApplicationDAOInfo) := Ok None.

Lemma ProcessEvents_lines_witness :
  ∃ s' w', @handle_and_record_all ideal_env sample_SI no_answers
      [sample_event APP_RUNNING 1; sample_event APP_COMPLETED 2] sample_service empty_world = (Ok s', w') ∧
    @ProcessEvents ideal_env sample_SI sample_unmarshal no_answers
      (Ok (stream_body ["running"; "completed"] "runn", ErrSentinel EOF)) sample_service empty_world = (Ok (s', None), w') ∧
    eventRepository s' = @record_all sample_SI [sample_event APP_RUNNING 1; sample_event APP_COMPLETED 2] NewInMemoryEventRepository.
Proof.
  apply (@ProcessEvents_lines sample_unmarshal ideal_env sample_SI no_answers ["running"; "completed"]
    [sample_event APP_RUNNING 1; sample_event APP_COMPLETED 2] "runn" (ErrSentinel EOF)).
  - apply Forall_cons_2; [reflexivity|apply Forall_singleton; reflexivity].
  - reflexivity.
  - apply Forall2_cons_2; [reflexivity|]. apply Forall2_cons_2; [reflexivity|]. apply Forall2_nil_2.
Defined.

Lemma ProcessEvents_bad_line_witness :
  ∃ s' w', @handle_and_record_all ideal_env sample_SI no_answers [sample_event APP_RUNNING 1] sample_service empty_world
      = (Ok s', w') ∧
    @ProcessEvents ideal_env sample_SI sample_unmarshal no_answers
      (Ok (stream_body ["running"; "oops"; "completed"] "", ErrSentinel EOF)) sample_service empty_world =
    (Ok (s', Some (ErrWrap "error processing stream response: "
                    (ErrWrap "could not unmarshal event from stream: " (ErrMsg "invalid character")))), w').
Proof.
  apply (@ProcessEvents_bad_line sample_unmarshal ideal_env sample_SI no_answers ["running"]
    [sample_event APP_RUNNING 1] "oops" (ErrMsg "invalid character") ["completed"] "" (ErrSentinel EOF)).
  - apply Forall_cons_2; [reflexivity|]. apply Forall_cons_2; [reflexivity|]. apply Forall_singleton. reflexivity.
  - reflexivity.
  - apply Forall2_cons_2; [reflexivity|]. apply Forall2_nil_2.
  - reflexivity.
Defined.

(** The scheduler refuses one connection, sends one event and is cancelled. *)
Definition sample_streams (k : nat) : result (string * error) :=
  match k with
  | O => Err (ErrMsg "connection refused")
  | _ => Ok (stream_body ["running"] "", ErrSentinel Canceled)
  end.

Lemma runEventCollector_until_cancelled_witness :
  ∃ s' w', @handle_and_record_all ideal_env sample_SI no_answers
      (seq 0 2 ≫= λ k, (decode_stream sample_unmarshal (sample_streams k)).1) sample_service empty_world = (Ok s', w') ∧
    @runEventCollector ideal_env sample_SI sample_unmarshal no_answers 2 sample_streams 0 sample_service empty_world
      = (Ok (Some s'), w').
Proof.
  apply (@runEventCollector_until_cancelled sample_unmarshal ideal_env sample_SI no_answers 2 sample_streams 1).
  - lia.
  - intros [|k] Hk e He; [injection He as <-; reflexivity|lia].
  - exists (ErrSentinel Canceled). split; [reflexivity|]. right. exists ["running"], [sample_event APP_RUNNING 1].
    split; [apply Forall_singleton; reflexivity|]. split; [reflexivity|].
    apply Forall2_cons_2; [reflexivity|apply Forall2_nil_2].
Defined.
