(* ===== verification/Health.v ===== *)
(** * Health checks

    Models [internal/health]: the components that can be checked, the report on
    one component, and the readiness report that aggregates them.  The checks
    run in one goroutine each; [order] lists the components in the order in
    which the goroutines append their report.  The text of an error report is
    the [error] whose [Error()] it is. *)
From S2P Require Import Prelude.

Record ComponentStatus := mkComponentStatus {
  Identifier : string;
  Healthy : bool;
  CError : option error;
}.

(** The two components, with what the call they make returns: [Healthcheck] of
    the scheduler's client, and [SELECT 1] on the pool.  [H] is the report of the
    scheduler on itself, which is not looked at. *)
Inductive Component (H : Type) :=
| YunikornComponent (healthcheck : result H)
| PostgresComponent (select_1 : result ()).
Arguments YunikornComponent {H} healthcheck.
Arguments PostgresComponent {H} select_1.

Section components.
Context {H : Type}.

Definition component_Identifier (c : Component H) : string :=
  match c with YunikornComponent _ => "yunikorn" | PostgresComponent _ => "postgres" end.

Definition Yunikorn_Check (identifier : string) (healthcheck : result H) : ComponentStatus :=
  match healthcheck with
  | Err e => mkComponentStatus identifier false (Some e)
  | Ok _ => mkComponentStatus identifier true None
  end.

Definition Postgres_Check (identifier : string) (select_1 : result ()) : ComponentStatus :=
  match select_1 with
  | Err e => mkComponentStatus identifier false (Some e)
  | Ok _ => mkComponentStatus identifier true None
  end.

Definition Check_ (c : Component H) : ComponentStatus :=
  match c with
  | YunikornComponent r => Yunikorn_Check (component_Identifier c) r
  | PostgresComponent r => Postgres_Check (component_Identifier c) r
  end.

End components.

(** ** Reports *)
Record Common := mkCommon {
  Host : string;
  StartedAt : Z;
  Uptime : Z;
  Version : string;
}.

(** [hostname] and [now]: the readings of [os.Hostname] and of the clock. *)
Definition NewCommon (hostname : string) (now startedAt : Z) (version : string) : Common :=
  mkCommon hostname startedAt (now - startedAt) version.

Record LivenessStatus := mkLivenessStatus {
  LCommon : Common;
  LHealthy : bool;
}.

Record ReadinessStatus := mkReadinessStatus {
  RCommon : Common;
  RHealthy : bool;
  ComponentStatuses : list ComponentStatus;
}.

(** The loop that stops at the first unhealthy component. *)
Fixpoint all_healthy (statuses : list ComponentStatus) : bool :=
  match statuses with
  | [] => true
  | s :: statuses' => if negb (Healthy s) then false else all_healthy statuses'
  end.

Definition NewReadinessStatus (hostname : string) (now startedAt : Z) (version : string)
    (statuses : list ComponentStatus) : ReadinessStatus :=
  mkReadinessStatus (NewCommon hostname now startedAt version) (all_healthy statuses) statuses.

Definition NewLivenessStatus (hostname : string) (now startedAt : Z) (version : string) : LivenessStatus :=
  mkLivenessStatus (NewCommon hostname now startedAt version) true.

(** [health.Service]. *)
Record HealthService (H : Type) := mkHealthService {
  hs_version : string;
  hs_startedAt : Z;
  hs_components : list (Component H);
}.
Arguments hs_version {H} _.
Arguments hs_startedAt {H} _.
Arguments hs_components {H} _.

Section service.
Context {H : Type}.

(** [health.New], with the reading of the clock. *)
Definition health_New (now : Z) (version : string) (components : list (Component H)) : HealthService H :=
  mkHealthService H version now components.

Definition Liveness (hostname : string) (now : Z) (h : HealthService H) : LivenessStatus :=
  NewLivenessStatus hostname now (hs_startedAt h) (hs_version h).

Inductive Readiness (hostname : string) (now : Z) (h : HealthService H) : ReadinessStatus → Prop :=
| readiness order :
    order ≡ₚ hs_components h →
    Readiness hostname now h
      (NewReadinessStatus hostname now (hs_startedAt h) (hs_version h) (Check_ <$> order)).

Definition check_ok (c : Component H) : bool :=
  match c with YunikornComponent r => is_ok r | PostgresComponent r => is_ok r end.

Lemma Check_Healthy c : Healthy (Check_ c) = check_ok c.
Proof. by destruct c as [[]|[]]. Qed.

Lemma all_healthy_spec statuses : all_healthy statuses = true ↔ Forall (λ s, Healthy s = true) statuses.
Proof.
  induction statuses as [|s statuses IH]; [by split|]. cbn. destruct (Healthy s) eqn:Hs; cbn.
  - rewrite IH. split; [by constructor|by inversion 1].
  - split; [done|]. inversion 1; congruence.
Qed.

(** C30.  In whatever order the checks finish, the server is ready exactly if every
    check succeeded, and the report holds one entry per component, which is
    healthy exactly if its check succeeded and carries the error otherwise. *)
Theorem readiness_correct hostname now h s :
  Readiness hostname now h s →
  (RHealthy s = true ↔ Forall (λ c, check_ok c = true) (hs_components h)) ∧
  ComponentStatuses s ≡ₚ Check_ <$> hs_components h ∧
  Forall (λ c, ∃ st, st ∈ ComponentStatuses s ∧ Identifier st = component_Identifier c ∧
                     Healthy st = check_ok c ∧ (check_ok c = false → CError st ≠ None)) (hs_components h).
Proof.
  intros [order Ho]. cbn. split_and!.
  - rewrite all_healthy_spec, Forall_fmap, Ho. apply Forall_iff. intros c. cbn. by rewrite Check_Healthy.
  - by rewrite Ho.
  - apply Forall_forall. intros c Hc. exists (Check_ c). split_and!.
    + apply list_elem_of_fmap_2. by rewrite Ho.
    + by destruct c as [[]|[]].
    + apply Check_Healthy.
    + by destruct c as [[]|[]].
Qed.

End service.

Lemma readiness_correct_witness :
  let comps : list (Component ()) := [YunikornComponent (Err (ErrMsg "connection refused")); PostgresComponent (Ok ())] in
  let s := NewReadinessStatus "host" 7 5 "v1" [Check_ (H := ()) (PostgresComponent (Ok ()));
             Check_ (H := ()) (YunikornComponent (Err (ErrMsg "connection refused")))] in
  (RHealthy s = true ↔ Forall (λ c : Component (), check_ok c = true) comps) ∧
  ComponentStatuses s ≡ₚ Check_ <$> comps ∧
  Forall (λ c, ∃ st, st ∈ ComponentStatuses s ∧ Identifier st = component_Identifier c ∧
                     Healthy st = check_ok c ∧ (check_ok c = false → CError st ≠ None)) comps.
Proof.
  apply (readiness_correct "host" 7 (mkHealthService () "v1" 5
    [YunikornComponent (Err (ErrMsg "connection refused")); PostgresComponent (Ok ())])).
  apply (readiness "host" 7 (mkHealthService () "v1" 5
    [YunikornComponent (Err (ErrMsg "connection refused")); PostgresComponent (Ok ())])
    [PostgresComponent (Ok ()); YunikornComponent (Err (ErrMsg "connection refused"))]).
  apply perm_swap.
Defined.
