(* ===== verification/Config.v ===== *)
(** * Configuration

    Models [internal/config/config.go], the connection strings of
    [internal/database/postgres/postgres.go] and [parseLevel] of
    [internal/log/logger.go].  The keys come from the library koanf: [Koanf] is
    what its getters return; the textual log levels are zap's, a parameter as
    well. *)
From S2P Require Import Prelude GoStrings RestClient.
From Stdlib Require Import Ascii.

(** ** Durations *)

(** [time.Duration.String]: the digits of [v] with a decimal point before the last
    [prec], trailing zeros dropped ([fmtFrac] and [fmtInt]). *)
Fixpoint fmt_frac (prec : nat) (v : Z) (print : bool) (acc : string) : bool * Z * string :=
  match prec with
  | O => (print, v, acc)
  | S prec' =>
      let digit := v `mod` 10 in
      let print := print || negb (bool_decide (digit = 0)) in
      fmt_frac prec' (v `div` 10) print (if print then pretty digit +:+ acc else acc)
  end.

Definition fmt_decimal (v : Z) (prec : nat) (unit : string) : string :=
  let '(print, v', acc) := fmt_frac prec v false "" in
  pretty v' +:+ (if print then "." +:+ acc else "") +:+ unit.

Definition micro_sign : string := String "194" (String "181" "").

(** A duration is a 64-bit number of nanoseconds; the sources print positive
    ones only. *)
Definition Duration_String (d : Z) : string :=
  if bool_decide (d = 0) then "0s"
  else if bool_decide (d < 1000) then pretty d +:+ "ns"
  else if bool_decide (d < 1000000) then fmt_decimal d 3 (micro_sign +:+ "s")
  else if bool_decide (d < 1000000000) then fmt_decimal d 6 "ms"
  else
    let secs := d `div` 1000000000 in
    let s := fmt_decimal (secs `mod` 60 * 1000000000 + d `mod` 1000000000) 9 "s" in
    let mins := secs `div` 60 in
    if bool_decide (0 < mins) then
      let s := pretty (mins `mod` 60) +:+ "m" +:+ s in
      let hours := mins `div` 60 in
      if bool_decide (0 < hours) then pretty hours +:+ "h" +:+ s else s
    else s.

Example duration_strings :
  Duration_String 300000000000 = "5m0s" ∧ Duration_String 1500000000 = "1.5s" ∧
  Duration_String 5400000000000 = "1h30m0s" ∧ Duration_String 2500000 = "2.5ms".
Proof. vm_compute. done. Qed.

(** ** The structures *)
Record CORSOptions := mkCORSOptions {
  AllowedOrigins : list string;
  AllowedMethods : list string;
  AllowedHeaders : list string;
}.

Record YHSConfig := mkYHSConfig {
  YHSPort : Z;
  AssetsDir : string;
  DataSyncInterval : Z;
  CORSConfig : CORSOptions;
}.

Record PostgresConfig := mkPostgresConfig {
  PHost : string;
  DbName : string;
  Username : string;
  Password : string;
  PoolMaxConnLifetime : Z;
  PoolMaxConnIdleTime : Z;
  PPort : Z;
  PoolMaxConns : Z;
  PoolMinConns : Z;
  SSLMode : string;
  Schema : string;
}.

Record LogConfig := mkLogConfig {
  LogLevel : string;
  JSONFormat : bool;
}.

Record Config := mkConfig {
  c_yhs : YHSConfig;
  c_postgres : PostgresConfig;
  c_yunikorn : YunikornConfig;
  c_log : LogConfig;
}.

(** ** Validation *)

(** [if cond { errorMessages = append(errorMessages, msg) }] *)
Definition complain (cond : bool) (msg : string) : list string := if cond then [msg] else [].

(** [fmt.Errorf("prefix: %v", errorMessages)] if there are any. *)
Definition validation_error (prefix : string) (errorMessages : list string) : option error :=
  if bool_decide (0 < length errorMessages)%nat
  then Some (ErrMsg (prefix +:+ ": [" +:+ strings_Join errorMessages " " +:+ "]"))
  else None.

Definition YHS_Validate (c : YHSConfig) : option error :=
  validation_error "yhs config validation errors"
    (complain (bool_decide (YHSPort c < 1)) "yhs config validation error: port is required").

Definition Postgres_Validate (c : PostgresConfig) : option error :=
  validation_error "postgres config validation errors"
    (complain (bool_decide (PHost c = "")) "db host is required" ++
     complain (bool_decide (DbName c = "")) "db name is required" ++
     complain (bool_decide (Username c = "")) "db user is required" ++
     complain (bool_decide (Password c = "")) "db password is required" ++
     complain (bool_decide (PPort c < 1)) "db port is required").

Definition Yunikorn_Validate (c : YunikornConfig) : option error :=
  validation_error "yunikorn config validation errors"
    (complain (bool_decide (YHost c = "")) "yunikorn host is required" ++
     complain (bool_decide (YPort c < 1)) "yunikorn port is required").

(** ** Loading *)
Class Koanf := {
  k_String : string → string;
  k_Int : string → Z;
  k_Duration : string → Z;
  k_Bool : string → bool;
  k_Strings : string → list string;
}.

(** [strings.ToLower] on ASCII and [strings.TrimPrefix]. *)
Definition to_lower (c : ascii) : ascii :=
  let n := N_of_ascii c in if bool_decide (65 ≤ n ≤ 90)%N then ascii_of_N (n + 32) else c.

Fixpoint strings_ToLower (s : string) : string :=
  match s with EmptyString => "" | String c s' => String (to_lower c) (strings_ToLower s') end.

Fixpoint trim_prefix (p s : string) : option string :=
  match p, s with
  | EmptyString, _ => Some s
  | String c p', String c' s' => if decide (c = c') then trim_prefix p' s' else None
  | _, _ => None
  end.

Definition strings_TrimPrefix (s p : string) : string := default s (trim_prefix p s).

Definition processEnvVar (s : string) : string := strings_ToLower (strings_TrimPrefix s "YHS_").

(** What each step of [loadConfig] yields: [os.Stat] and [Load] of the file, and
    [Load] of the environment. *)
Definition loadConfig (cfgFile : string) (stat load_file load_env : option error) : option error :=
  let file_err :=
    if decide (cfgFile ≠ "") then
      match stat with
      | Some e => Some (ErrPrefix "error reading config file: " e)
      | None => match load_file with
                | Some e => Some (ErrPrefix "error loading config file: " e)
                | None => None
                end
      end
    else None in
  match file_err with
  | Some e => Some e
  | None => match load_env with
            | Some e => Some (ErrPrefix "error loading environment variables: " e)
            | None => None
            end
  end.

Definition Minute : Z := 60 * 1000000000.

(** [loaded]: the error of [loadConfig], if any. *)
Definition New `{Koanf} (loaded : option error) : result Config :=
  match loaded with
  | Some e => Err e
  | None =>
      let assetsDir := if decide (k_String "yhs_assets_dir" = "") then "assets" else k_String "yhs_assets_dir" in
      let dataSyncInterval := if decide (k_Duration "yhs_data_sync_interval" = 0) then 5 * Minute
                              else k_Duration "yhs_data_sync_interval" in
      let corsConfig := mkCORSOptions (k_Strings "yhs_cors_allowed_origins") (k_Strings "yhs_cors_allowed_methods")
                          (k_Strings "yhs_cors_allowed_headers") in
      let yhsConfig := mkYHSConfig (k_Int "yhs_port") assetsDir dataSyncInterval corsConfig in
      match YHS_Validate yhsConfig with
      | Some e => Err e
      | None =>
          let yunikornConfig := mkYunikornConfig (k_String "yunikorn_host") (k_Int "yunikorn_port")
                                  (k_Bool "yunikorn_secure") in
          let logConfig := mkLogConfig (k_String "log_level") (k_Bool "log_json_format") in
          let postgresConfig :=
            mkPostgresConfig (k_String "db_host") (k_String "db_dbname") (k_String "db_user")
              (k_String "db_password") (k_Duration "db_pool_max_conn_lifetime")
              (k_Duration "db_pool_max_conn_idletime") (k_Int "db_port") (k_Int "db_pool_max_conns")
              (k_Int "db_pool_min_conns") (k_String "db_sslmode") (k_String "db_schema") in
          Ok (mkConfig yhsConfig postgresConfig yunikornConfig logConfig)
      end
  end.

(** ** Connection strings *)
Definition BuildConnectionStringFromConfig (cfg : PostgresConfig) : string :=
  let connString := Sprintf "postgres://%s:%s@%s:%d/%s"
    [AnyString (Username cfg); AnyString (Password cfg); AnyString (PHost cfg); AnyInt (PPort cfg);
     AnyString (DbName cfg)] in
  let additionalParams :=
    (if decide (SSLMode cfg ≠ "") then [Sprintf "sslmode=%s" [AnyString (SSLMode cfg)]] else []) ++
    (if decide (Schema cfg ≠ "") then [Sprintf "search_path=%s" [AnyString (Schema cfg)]] else []) in
  if bool_decide (0 < length additionalParams)%nat
  then connString +:+ "?" +:+ strings_Join additionalParams "&"
  else connString.

(** The keys and the values, in order. *)
Definition connection_pairs (cfg : PostgresConfig) : list (string * any) :=
  [("host", AnyString (PHost cfg)); ("port", AnyInt (PPort cfg)); ("user", AnyString (Username cfg));
   ("password", AnyString (Password cfg)); ("dbname", AnyString (DbName cfg))] ++
  (if bool_decide (0 < PoolMaxConns cfg) then [("pool_max_conns", AnyInt (PoolMaxConns cfg))] else []) ++
  (if bool_decide (0 < PoolMinConns cfg) then [("pool_min_conns", AnyInt (PoolMinConns cfg))] else []) ++
  (if bool_decide (0 < PoolMaxConnLifetime cfg)
   then [("pool_max_conn_lifetime", AnyString (Duration_String (PoolMaxConnLifetime cfg)))] else []) ++
  (if bool_decide (0 < PoolMaxConnIdleTime cfg)
   then [("pool_max_conn_idle_time", AnyString (Duration_String (PoolMaxConnIdleTime cfg)))] else []) ++
  (if decide (SSLMode cfg ≠ "") then [("sslmode", AnyString (SSLMode cfg))] else []) ++
  (if decide (Schema cfg ≠ "") then [("search_path", AnyString (Schema cfg))] else []).

Definition pair_ (key : string) (value : any) : string := Sprintf "%s='%v'" [AnyString key; value].

Definition buildConnectionInfoFromConfig (cfg : PostgresConfig) : string :=
  strings_Join ((λ p, pair_ p.1 p.2) <$> connection_pairs cfg) " ".

(** ** Log levels *)
Definition DebugLevel : Z := -1.
Definition InvalidLevel : Z := 6.

(** [ParseLevel]: zap's reading of a textual level.  A level is an int8. *)
Definition parseLevel (ParseLevel : string → option Z) (level : string) : option Z :=
  match ParseLevel level with
  | Some zapLevel => Some zapLevel
  | None =>
      match strconv_ParseInt level 31 with
      | Ok levelNum =>
          let zapLevel := wrap8 levelNum in
          let zapLevel := if bool_decide (zapLevel < DebugLevel) then DebugLevel else zapLevel in
          Some (if bool_decide (InvalidLevel ≤ zapLevel) then InvalidLevel - 1 else zapLevel)
      | Err _ => None
      end
  end.

(** ** Reading a connection string

    The syntax of keyword/value strings, as far as the server's own strings use
    it: every value is quoted, a backslash takes the next character. *)
Inductive reading :=
| InKey (k : string)
| AtValue (k : string)
| InValue (k v : string)
| Escaped (k v : string)
| AfterValue.

Definition snoc (s : string) (c : ascii) : string := s +:+ String c "".

Fixpoint read_settings (m : reading) (s : string) : option (list (string * string)) :=
  match s with
  | EmptyString => match m with AfterValue => Some [] | _ => None end
  | String c s' =>
      match m with
      | InKey k => if decide (c = "="%char) then read_settings (AtValue k) s'
                   else read_settings (InKey (snoc k c)) s'
      | AtValue k => if decide (c = "'"%char) then read_settings (InValue k "") s' else None
      | InValue k v =>
          if decide (c = "'"%char) then cons (k, v) <$> read_settings AfterValue s'
          else if decide (c = "\"%char) then read_settings (Escaped k v) s'
          else read_settings (InValue k (snoc v c)) s'
      | Escaped k v => read_settings (InValue k (snoc v c)) s'
      | AfterValue => if decide (c = " "%char) then read_settings (InKey "") s' else None
      end
  end.

(** Text that needs no escape. *)
Definition plain (s : string) : Prop := no_char "'"%char s = true ∧ no_char "\"%char s = true.

Lemma plain_app s1 s2 : plain s1 → plain s2 → plain (s1 +:+ s2).
Proof. intros [H1 H2] [H3 H4]. split; rewrite no_char_app; by rewrite ?H1, ?H2. Qed.

Lemma snoc_app k c s : snoc k c +:+ s = k +:+ String c s.
Proof. unfold snoc. by rewrite <- string_app_assoc. Qed.

Lemma no_char_cons c c' s : no_char c (String c' s) = true ↔ c' ≠ c ∧ no_char c s = true.
Proof. cbn [no_char]. case_bool_decide; naive_solver. Qed.

Lemma read_key k key rest :
  no_char "="%char key = true →
  read_settings (InKey k) (key +:+ String "=" rest) = read_settings (AtValue (k +:+ key)) rest.
Proof.
  revert k. induction key as [|c key IH]; intros k Hk.
  - by rewrite string_app_nil_r.
  - apply no_char_cons in Hk as [Hc Hk]. rewrite string_app_cons. cbn [read_settings].
    rewrite decide_False by done. rewrite IH by done. by rewrite snoc_app.
Qed.

Lemma read_value k v value rest :
  plain value →
  read_settings (InValue k v) (value +:+ String "'" rest) = cons (k, v +:+ value) <$> read_settings AfterValue rest.
Proof.
  revert v. induction value as [|c value IH]; intros v [Hq Hb].
  - by rewrite string_app_nil_r.
  - apply no_char_cons in Hq as [Hcq Hq]. apply no_char_cons in Hb as [Hcb Hb].
    rewrite string_app_cons. cbn [read_settings]. rewrite !decide_False by done. rewrite IH by done. by rewrite snoc_app.
Qed.

Lemma pair_text key value : pair_ key value = key +:+ String "=" (String "'" (any_value value +:+ "'")).
Proof. unfold pair_. destruct value; cbn; by rewrite ?string_app_nil_r. Qed.

Lemma read_pair key value rest :
  no_char "="%char key = true → plain (any_value value) →
  read_settings (InKey "") (pair_ key value +:+ rest) = cons (key, any_value value) <$> read_settings AfterValue rest.
Proof.
  intros Hk Hv. rewrite pair_text, <- string_app_assoc, !string_app_cons, read_key by done.
  cbn [read_settings]. rewrite decide_True by done. rewrite <- string_app_assoc.
  change ("'" +:+ rest) with (String "'" rest). by rewrite read_value.
Qed.

Definition setting (p : string * any) : string * string := (p.1, any_value p.2).

Lemma read_pairs p ps :
  Forall (λ p, no_char "="%char p.1 = true ∧ plain (any_value p.2)) (p :: ps) →
  read_settings (InKey "") (strings_Join ((λ p, pair_ p.1 p.2) <$> (p :: ps)) " ") = Some (setting <$> (p :: ps)).
Proof.
  revert p. induction ps as [|p' ps IH]; intros p; rewrite Forall_cons; intros [[Hk Hv] Hps].
  - cbn [fmap list_fmap strings_Join]. rewrite <- (string_app_nil_r (pair_ p.1 p.2)), read_pair by done. done.
  - assert (strings_Join ((λ p, pair_ p.1 p.2) <$> p :: p' :: ps) " " =
      pair_ p.1 p.2 +:+ String " " (strings_Join ((λ p, pair_ p.1 p.2) <$> p' :: ps) " ")) as -> by done.
    rewrite read_pair by done. cbn [read_settings]. rewrite decide_True by done. by rewrite IH.
Qed.

Lemma plain_pretty (z : Z) : plain (pretty z).
Proof. split; by apply no_char_pretty_Z. Qed.

Lemma fmt_frac_plain prec v print acc : plain acc → plain (fmt_frac prec v print acc).2.
Proof.
  revert v print acc. induction prec as [|prec IH]; intros v print acc Hacc; [done|]. cbn [fmt_frac].
  apply IH. case_match; [|done]. apply plain_app; [apply plain_pretty|done].
Qed.

Lemma fmt_decimal_plain v prec unit : plain unit → plain (fmt_decimal v prec unit).
Proof.
  intros Hu. unfold fmt_decimal. pose proof (fmt_frac_plain prec v false "" ltac:(done)) as Hf.
  destruct (fmt_frac prec v false "") as [[print v'] acc]. apply plain_app; [apply plain_pretty|].
  apply plain_app; [|done]. destruct print; [|done]. by apply plain_app.
Qed.

Lemma Duration_String_plain d : plain (Duration_String d).
Proof.
  unfold Duration_String. repeat case_bool_decide; try done;
    repeat first [apply fmt_decimal_plain; done | apply plain_app; [apply plain_pretty|]
                 | apply plain_app; [done|] | apply fmt_decimal_plain | done].
Qed.

(** The texts of the configuration need no escape. *)
Record plain_config (cfg : PostgresConfig) : Prop := {
  plain_host : plain (PHost cfg);
  plain_user : plain (Username cfg);
  plain_password : plain (Password cfg);
  plain_dbname : plain (DbName cfg);
  plain_sslmode : plain (SSLMode cfg);
  plain_schema : plain (Schema cfg);
}.

Lemma connection_pairs_plain cfg :
  plain_config cfg → Forall (λ p, no_char "="%char p.1 = true ∧ plain (any_value p.2)) (connection_pairs cfg).
Proof.
  intros []. unfold connection_pairs. repeat apply Forall_app_2; repeat case_match;
    repeat (apply Forall_cons_2; [split; [done|]|]); try apply Forall_nil_2;
    by (apply plain_pretty || apply Duration_String_plain || assumption).
Qed.

(** ** What the settings are

    The settings by which a server of PostgreSQL and the pool are reached, each
    under its keyword. *)
Record settings_of (cfg : PostgresConfig) (m : gmap string string) : Prop := {
  set_host : m !! "host" = Some (PHost cfg);
  set_port : m !! "port" = Some (pretty (PPort cfg));
  set_user : m !! "user" = Some (Username cfg);
  set_password : m !! "password" = Some (Password cfg);
  set_dbname : m !! "dbname" = Some (DbName cfg);
  (* numbers that are not positive and empty texts are left to the defaults *)
  set_max_conns : (0 < PoolMaxConns cfg → m !! "pool_max_conns" = Some (pretty (PoolMaxConns cfg))) ∧
                  (PoolMaxConns cfg ≤ 0 → m !! "pool_max_conns" = None);
  set_min_conns : (0 < PoolMinConns cfg → m !! "pool_min_conns" = Some (pretty (PoolMinConns cfg))) ∧
                  (PoolMinConns cfg ≤ 0 → m !! "pool_min_conns" = None);
  set_lifetime : (0 < PoolMaxConnLifetime cfg →
                    m !! "pool_max_conn_lifetime" = Some (Duration_String (PoolMaxConnLifetime cfg))) ∧
                 (PoolMaxConnLifetime cfg ≤ 0 → m !! "pool_max_conn_lifetime" = None);
  set_idle_time : (0 < PoolMaxConnIdleTime cfg →
                     m !! "pool_max_conn_idle_time" = Some (Duration_String (PoolMaxConnIdleTime cfg))) ∧
                  (PoolMaxConnIdleTime cfg ≤ 0 → m !! "pool_max_conn_idle_time" = None);
  set_sslmode : (SSLMode cfg ≠ "" → m !! "sslmode" = Some (SSLMode cfg)) ∧ (SSLMode cfg = "" → m !! "sslmode" = None);
  set_schema : (Schema cfg ≠ "" → m !! "search_path" = Some (Schema cfg)) ∧ (Schema cfg = "" → m !! "search_path" = None);
  set_no_other : ∀ k, is_Some (m !! k) →
    k ∈ ["host"; "port"; "user"; "password"; "dbname"; "pool_max_conns"; "pool_min_conns"; "pool_max_conn_lifetime";
         "pool_max_conn_idle_time"; "sslmode"; "search_path"];
}.

Lemma connection_pairs_NoDup cfg : NoDup (setting <$> connection_pairs cfg).*1.
Proof. unfold connection_pairs. repeat case_match; by apply (bool_decide_unpack _); vm_compute. Qed.

Section lookups.
Context (cfg : PostgresConfig).
Notation m := (list_to_map (setting <$> connection_pairs cfg) : gmap string string).

Lemma setting_Some k v : (k, v) ∈ setting <$> connection_pairs cfg → m !! k = Some v.
Proof. apply elem_of_list_to_map_1, connection_pairs_NoDup. Qed.

Lemma setting_None k : k ∉ (setting <$> connection_pairs cfg).*1 → m !! k = None.
Proof. apply not_elem_of_list_to_map_1. Qed.

(** A keyword is present if its condition holds, and absent if not. *)
Ltac decided :=
  repeat match goal with
  | Hc : ?c |- context [bool_decide ?c] => rewrite (bool_decide_true c) by exact Hc
  | Hc : ?x ≤ 0 |- context [bool_decide (0 < ?x)] => rewrite (bool_decide_false (0 < x)) by lia
  | Hc : ?c |- context [decide ?c] => rewrite (decide_True (P := c)) by exact Hc
  | Hc : ?x = "" |- context [decide (?x ≠ "")] => rewrite (decide_False (P := x ≠ "")) by (intros Hx; exact (Hx Hc))
  end.
Ltac present := apply setting_Some; unfold connection_pairs; decided; rewrite ?fmap_app; set_solver.
Ltac absent :=
  apply setting_None; unfold connection_pairs; decided; repeat case_match; by apply (bool_decide_unpack _); vm_compute.

Lemma connection_pairs_settings : settings_of cfg m.
Proof.
  split; try present; try (split; intros ?; [present|absent]).
  intros k [v Hv%elem_of_list_to_map_2]. apply (list_elem_of_fmap_2 fst) in Hv. revert Hv.
  revert k v. cut (Forall (λ k, k ∈ ["host"; "port"; "user"; "password"; "dbname"; "pool_max_conns"; "pool_min_conns";
    "pool_max_conn_lifetime"; "pool_max_conn_idle_time"; "sslmode"; "search_path"])
    (setting <$> connection_pairs cfg).*1); [rewrite Forall_forall; intros Hall k v; apply Hall|].
  unfold connection_pairs. repeat case_match; by apply (bool_decide_unpack _); vm_compute.
Qed.

End lookups.

(** C33.  The connection string of the pool is read back, by the rules for quoted
    values, as the settings of the configuration: host, port, user, password and
    database name under their keywords, the sizes and times of the pool if they
    are positive, the SSL mode and the schema if they are not empty, and no other
    keyword; each keyword occurs once.  It is assumed that no text of the
    configuration holds a quote or a backslash. *)
Theorem connection_info_roundtrip cfg :
  plain_config cfg →
  ∃ l, read_settings (InKey "") (buildConnectionInfoFromConfig cfg) = Some l ∧ NoDup l.*1 ∧
       settings_of cfg (list_to_map l).
Proof.
  intros Hp. exists (setting <$> connection_pairs cfg). split_and!; [|apply connection_pairs_NoDup|apply connection_pairs_settings].
  apply read_pairs. by apply connection_pairs_plain.
Qed.

Definition sample_postgres : PostgresConfig :=
  mkPostgresConfig "localhost" "postgres" "postgres" "secret" 5400000000000 0 5432 20 0 "disable" "".

Lemma connection_info_roundtrip_witness :
  ∃ l, read_settings (InKey "") (buildConnectionInfoFromConfig sample_postgres) = Some l ∧ NoDup l.*1 ∧
       settings_of sample_postgres (list_to_map l).
Proof. apply (connection_info_roundtrip sample_postgres). by split. Defined.

Example sample_connection_info :
  read_settings (InKey "") (buildConnectionInfoFromConfig sample_postgres) =
    Some [("host", "localhost"); ("port", "5432"); ("user", "postgres"); ("password", "secret");
          ("dbname", "postgres"); ("pool_max_conns", "20"); ("pool_max_conn_lifetime", "1h30m0s");
          ("sslmode", "disable")].
Proof. vm_compute. reflexivity. Qed.

(** A password with a quote adds a setting of its own. *)
Example connection_info_injection :
  let cfg := mkPostgresConfig "localhost" "postgres" "postgres" "x' host='evil" 0 0 5432 0 0 "" "" in
  read_settings (InKey "") (buildConnectionInfoFromConfig cfg) =
    Some [("host", "localhost"); ("port", "5432"); ("user", "postgres"); ("password", "x");
          ("host", "evil"); ("dbname", "postgres")].
Proof. vm_compute. reflexivity. Qed.

(** ** Validation and loading *)
Lemma validation_error_None prefix msgs : validation_error prefix msgs = None ↔ msgs = [].
Proof. unfold validation_error. case_bool_decide; destruct msgs; cbn in *; split; (done || lia). Qed.

Lemma complain_nil cond msg : complain cond msg = [] ↔ cond = false.
Proof. by destruct cond. Qed.

Lemma Postgres_Validate_ok c :
  Postgres_Validate c = None ↔
  PHost c ≠ "" ∧ DbName c ≠ "" ∧ Username c ≠ "" ∧ Password c ≠ "" ∧ 1 ≤ PPort c.
Proof.
  unfold Postgres_Validate. rewrite validation_error_None, !app_nil, !complain_nil, !bool_decide_eq_false.
  rewrite Z.nlt_ge. tauto.
Qed.

Lemma Yunikorn_Validate_ok c : Yunikorn_Validate c = None ↔ YHost c ≠ "" ∧ 1 ≤ YPort c.
Proof.
  unfold Yunikorn_Validate. rewrite validation_error_None, !app_nil, !complain_nil, !bool_decide_eq_false.
  rewrite Z.nlt_ge. tauto.
Qed.

Lemma YHS_Validate_ok c : YHS_Validate c = None ↔ 1 ≤ YHSPort c.
Proof.
  unfold YHS_Validate. rewrite validation_error_None, !complain_nil, !bool_decide_eq_false. lia.
Qed.

(** Once the keys are loaded, a configuration is returned exactly if the port
    of the server is positive; it has an assets directory and an interval that
    is not zero, and the settings of the database and of the scheduler are
    those of the keys, whether or not their own validation would accept them. *)
Theorem New_correct `{Koanf} :
  (is_ok (New None) = true ↔ 1 ≤ k_Int "yhs_port") ∧
  ∀ cfg, New None = Ok cfg →
    AssetsDir (c_yhs cfg) ≠ "" ∧ DataSyncInterval (c_yhs cfg) ≠ 0 ∧
    (Postgres_Validate (c_postgres cfg) = None ↔
       k_String "db_host" ≠ "" ∧ k_String "db_dbname" ≠ "" ∧ k_String "db_user" ≠ "" ∧
       k_String "db_password" ≠ "" ∧ 1 ≤ k_Int "db_port") ∧
    (Yunikorn_Validate (c_yunikorn cfg) = None ↔ k_String "yunikorn_host" ≠ "" ∧ 1 ≤ k_Int "yunikorn_port").
Proof.
  unfold New. match goal with |- context [YHS_Validate ?c] => pose proof (YHS_Validate_ok c) as Hv end.
  cbn [YHSPort] in Hv. destruct (YHS_Validate _) as [e|]; (split; [cbn; naive_solver|]); [done|].
  intros cfg [= <-]. cbn [c_yhs c_postgres c_yunikorn AssetsDir DataSyncInterval]. split_and!.
  - by case_decide.
  - case_decide; [done|done].
  - by rewrite Postgres_Validate_ok.
  - by rewrite Yunikorn_Validate_ok.
Qed.

(** ** Log levels *)
Definition clamp (n : Z) : Z := Z.max DebugLevel (Z.min n (InvalidLevel - 1)).

(** A level that zap does not know by name and that is a number of 31 bits is
    reduced to 8 bits and then clamped: the levels from debug to fatal are
    kept, and a number that needs more than 8 bits stands for another level. *)
Theorem parseLevel_numeric ParseLevel n :
  ParseLevel (pretty n) = None → in_range 31 n →
  parseLevel ParseLevel (pretty n) = Some (clamp (wrap8 n)) ∧
  (in_range 8 n → parseLevel ParseLevel (pretty n) = Some (clamp n)) ∧
  DebugLevel ≤ clamp (wrap8 n) < InvalidLevel.
Proof.
  intros Hp Hn%in_range_bounds. assert (parseLevel ParseLevel (pretty n) = Some (clamp (wrap8 n))) as Heq.
  { unfold parseLevel, strconv_ParseInt. rewrite Hp, parse_int_pretty by done. unfold clamp, DebugLevel, InvalidLevel.
    repeat case_bool_decide; f_equal; lia. }
  split; [done|]. split; [|unfold clamp, DebugLevel, InvalidLevel; lia].
  intros H8%in_range_bounds. rewrite Heq. by rewrite wrap_id.
Qed.

Definition sample_levels (s : string) : option Z :=
  if decide (s = "debug") then Some (-1) else if decide (s = "info") then Some 0 else None.

Lemma parseLevel_numeric_witness :
  parseLevel sample_levels (pretty 256) = Some 0 ∧
  (in_range 8 256 → parseLevel sample_levels (pretty 256) = Some (clamp 256)) ∧
  DebugLevel ≤ 0 < InvalidLevel.
Proof. apply (parseLevel_numeric sample_levels 256); [reflexivity|exact I]. Defined.

(** Names of environment variables. *)
Example processEnvVar_names :
  processEnvVar "YHS_DB_HOST" = "db_host" ∧ processEnvVar "Port" = "port".
Proof. by vm_compute. Qed.
