(* ===== verification/Logger.v ===== *)
(** * Contexts and logging

    Models [context.Context] as far as the sources use it, [internal/log/logger.go]
    and the loggers that the components put into their contexts
    ([internal/workqueue/workqueue.go], [internal/yunikorn/service.go],
    [internal/webservice]).  Loggers are zap's, a library: the class [Zap] is what
    the sources call, [ZapLaws] what zap documents about levels. *)
From S2P Require Import Prelude GoStrings RestClient Config WorkQueue.

(** ** zap *)
Inductive TimeEncoder :=
| ISO8601TimeEncoder
| OtherTimeEncoder (n : nat).

Inductive LevelEncoder :=
| CapitalLevelEncoder
| OtherLevelEncoder (n : nat).

(** The fields of [zapcore.EncoderConfig] that the source assigns; [enc_other]
    stands for the others. *)
Record EncoderConfig := mkEncoderConfig {
  TimeKey : string;
  EncodeTime : TimeEncoder;
  EncodeLevel : LevelEncoder;
  enc_other : nat;
}.

Inductive Encoder :=
| NewConsoleEncoder (cfg : EncoderConfig)
| NewJSONEncoder (cfg : EncoderConfig).

(** [zap_New enc level]: [zap.New(zapcore.NewCore(enc, stdout, level)).Sugar()] for
    a pointer to a level that may be nil.  [Enabled l v]: whether [l] writes a
    line of level [v]; [None] if asking panics. *)
Class Zap := {
  SugaredLogger : Type;
  zap_S : SugaredLogger;
  NewProductionEncoderConfig : EncoderConfig;
  zap_New : Encoder → option Z → SugaredLogger;
  With : SugaredLogger → string → string → SugaredLogger;
  Enabled : SugaredLogger → Z → option bool;
  ParseLevel : string → option Z;
}.

(** A level enables itself and the levels above it; [Enabled] of [zapcore.Level]
    has a value receiver, so that it cannot be called through a nil pointer;
    fields do not change the level. *)
Class ZapLaws `{Zap} := {
  Enabled_New enc l v : Enabled (zap_New enc (Some l)) v = Some (bool_decide (l ≤ v));
  Enabled_New_nil enc v : Enabled (zap_New enc None) v = None;
  Enabled_With l key value v : Enabled (With l key value) v = Enabled l v;
}.

Definition InfoLevel : Z := 0.

Section logging.
Context `{Zap}.

(** ** Contexts

    [WithCancel parent id]: a context that the cancel function [id] ends.  Keys
    of other packages are numbered. *)
Inductive ctx_key :=
| loggerKey
| OtherKey (n : nat).

#[export] Instance ctx_key_eq_dec : EqDecision ctx_key.
Proof. solve_decision. Defined.

Inductive ctx_value :=
| VLogger (l : SugaredLogger)
| VOther (n : nat).

Inductive go_context :=
| Background
| WithValue (parent : go_context) (key : ctx_key) (value : ctx_value)
| WithCancel (parent : go_context) (id : nat).

Fixpoint Value (ctx : go_context) (key : ctx_key) : option ctx_value :=
  match ctx with
  | Background => None
  | WithValue parent key' value => if decide (key' = key) then Some value else Value parent key
  | WithCancel parent _ => Value parent key
  end.

(** Whether [ctx.Done()] is closed, given the cancel functions called so far. *)
Fixpoint Done_ (cancelled : nat → bool) (ctx : go_context) : bool :=
  match ctx with
  | Background => false
  | WithValue parent _ _ => Done_ cancelled parent
  | WithCancel parent id => cancelled id || Done_ cancelled parent
  end.

(** ** [internal/log/logger.go]

    [Logger] is the package variable, nil before [Init]. *)
Definition ToContext (ctx : go_context) (logger : SugaredLogger) : go_context :=
  WithValue ctx loggerKey (VLogger logger).

Definition FromContext (Logger : option SugaredLogger) (ctx : go_context) : SugaredLogger :=
  match Value ctx loggerKey with
  | Some (VLogger logger) => logger
  | _ => match Logger with None => zap_S | Some logger => logger end
  end.

(** The logger that is assigned to [Logger]. *)
Definition initialise (config : LogConfig) : SugaredLogger :=
  let cfg := mkEncoderConfig "timestamp" ISO8601TimeEncoder CapitalLevelEncoder
               (enc_other NewProductionEncoderConfig) in
  let encoder := if JSONFormat config then NewJSONEncoder cfg else NewConsoleEncoder cfg in
  zap_New encoder (parseLevel ParseLevel (LogLevel config)).

Definition Init (config : LogConfig) : option SugaredLogger := Some (initialise config).

(** ** The loggers of the components *)
Section components.
Context (Logger : option SugaredLogger).

Definition with_component (component : string) (ctx : go_context) : go_context :=
  ToContext ctx (With (FromContext Logger ctx) "component" component).

Definition runEventCollector_ctx (ctx : go_context) : go_context := with_component "yunikorn_event_collector" ctx.

Definition runDataSync_ctx (ctx : go_context) : go_context := with_component "yunikorn_data_sync" ctx.

(** [Run] of the work queue: the contexts of its loop and of its jobs. *)
Definition Run_ctx (name : string) (cancel : nat) (ctx : go_context) : go_context :=
  let logger := With (FromContext Logger ctx) "component" "workqueue" in
  let logger := if decide (name = "") then logger else With logger "workqueue" name in
  WithCancel (ToContext ctx logger) cancel.

Definition Run_jobCtx (jobCtxCancel : nat) : go_context := WithCancel Background jobCtxCancel.

Definition executeWithRetry_logger {Job} (ctx : go_context) (i : item (Job := Job)) : SugaredLogger :=
  let logger := With (FromContext Logger ctx) "jobId" (item_id i) in
  if decide (item_name i = "") then logger else With logger "jobName" (item_name i).

End components.

(** ** Lemmas *)
Lemma FromContext_ToContext Logger ctx l : FromContext Logger (ToContext ctx l) = l.
Proof. done. Qed.

Lemma FromContext_WithCancel Logger ctx id : FromContext Logger (WithCancel ctx id) = FromContext Logger ctx.
Proof. done. Qed.

Lemma FromContext_Background l : FromContext (Some l) Background = l.
Proof. done. Qed.

Lemma FromContext_other_value Logger ctx n v :
  FromContext Logger (WithValue ctx (OtherKey n) v) = FromContext Logger ctx.
Proof. done. Qed.

(** Putting a logger into a context does not change when it is done. *)
Lemma Done_ToContext cancelled ctx l : Done_ cancelled (ToContext ctx l) = Done_ cancelled ctx.
Proof. done. Qed.

(** A logger found in a context is the last one put into it. *)
Inductive last_logger : go_context → SugaredLogger → Prop :=
| last_here ctx l : last_logger (ToContext ctx l) l
| last_cancel ctx id l : last_logger ctx l → last_logger (WithCancel ctx id) l
| last_value ctx n v l : last_logger ctx l → last_logger (WithValue ctx (OtherKey n) v) l.

Lemma FromContext_last Logger ctx l : last_logger ctx l → FromContext Logger ctx = l.
Proof. by induction 1. Qed.

(** The loop of the work queue logs under its component and name, its jobs do
    not: their context is derived from the background context, so their logger
    is the package variable with the fields of the job only. *)
Theorem job_logger_is_anonymous {Job} logger ctx cancel jobCancel name (i : item (Job := Job)) :
  name ≠ "" → item_name i ≠ "" →
  FromContext (Some logger) (Run_ctx (Some logger) name cancel ctx) =
    With (With (FromContext (Some logger) ctx) "component" "workqueue") "workqueue" name ∧
  executeWithRetry_logger (Some logger) (Run_jobCtx jobCancel) i =
    With (With logger "jobId" (item_id i)) "jobName" (item_name i).
Proof.
  intros Hn Hi. unfold Run_ctx, executeWithRetry_logger. rewrite !decide_False by done. done.
Qed.

Context `{!ZapLaws}.

(** The level of the logger: a configured level that is understood lets through
    the lines of that level and above; with any other text every log call
    panics. *)
Theorem initialise_level config v :
  match parseLevel ParseLevel (LogLevel config) with
  | Some l => Enabled (initialise config) v = Some (bool_decide (l ≤ v))
  | None => Enabled (initialise config) v = None
  end.
Proof.
  unfold initialise. destruct (parseLevel ParseLevel (LogLevel config)) as [l|]; [apply Enabled_New|apply Enabled_New_nil].
Qed.

End logging.

(** ** An instance: a logger as its level and its fields *)
Definition sample_zap : Zap := {|
  SugaredLogger := option Z * list (string * string);
  zap_S := (Some 0, []);
  NewProductionEncoderConfig := mkEncoderConfig "ts" (OtherTimeEncoder 0) (OtherLevelEncoder 0) 0;
  zap_New := λ _ level, (level, []);
  With := λ l key value, (l.1, l.2 ++ [(key, value)]);
  Enabled := λ l v, match l.1 with Some level => Some (bool_decide (level ≤ v)) | None => None end;
  ParseLevel := λ s, if decide (s = "") then Some 0 else sample_levels s;
|}.

Lemma sample_zap_laws : @ZapLaws sample_zap.
Proof. split; done. Qed.

Definition sample_logger : @SugaredLogger sample_zap := (Some 0, []).

Lemma job_logger_is_anonymous_witness :
  @FromContext sample_zap (Some sample_logger) (@Run_ctx sample_zap (Some sample_logger) "sync" 1 (@Background sample_zap)) =
    (Some 0, [("component", "workqueue"); ("workqueue", "sync")]) ∧
  @executeWithRetry_logger sample_zap (Some sample_logger) nat (@Run_jobCtx sample_zap 2) sample_item =
    (Some 0, [("jobId", "id"); ("jobName", "upsert")]).
Proof.
  apply (@job_logger_is_anonymous sample_zap nat sample_logger (@Background sample_zap) 1 2 "sync" sample_item); discriminate.
Defined.
