(* ===== verification/Migrations.v ===== *)
(** * Migrations

    Models [internal/database/migrations/gomigrate.go] and the migrate command,
    [cmd/yunikorn-history-server/commands/migrate.go].  The migrations themselves
    are run by the library golang-migrate: the class [Migrator] is what the
    sources call of it, on a schema that it changes, and [MigratorLaws] what it
    documents. *)
From S2P Require Import Prelude GoStrings RestClient Config Logger.

Class Migrator := {
  Migrate : Type;
  schema : Type;
  migrate_New : string → string → result Migrate;
  migrate_Up : Migrate → schema → option error * schema;
  migrate_Down : Migrate → schema → option error * schema;
}.

(** When all migrations were applied (or reverted), there is nothing left to
    change, and a call that finds nothing to change leaves the schema alone. *)
Class MigratorLaws `{Migrator} := {
  Up_exhausts m s s' : migrate_Up m s = (None, s') → migrate_Up m s' = (Some (ErrSentinel ErrNoChange), s');
  Down_exhausts m s s' : migrate_Down m s = (None, s') → migrate_Down m s' = (Some (ErrSentinel ErrNoChange), s');
  Up_no_change m s e s' : migrate_Up m s = (Some e, s') → errors_Is e ErrNoChange = true → s' = s;
  Down_no_change m s e s' : migrate_Down m s = (Some e, s') → errors_Is e ErrNoChange = true → s' = s;
}.

(** A call that returns, or panics. *)
Inductive returned (A : Type) :=
| Returned_ (a : A)
| Panics.
Arguments Returned_ {A} a.
Arguments Panics {A}.

Section migrations.
Context `{Zap} `{Migrator}.

(** Whether [log.Logger.Info] returns. *)
Definition Info_returns (Logger : option SugaredLogger) : bool :=
  match Logger with
  | None => false
  | Some logger => match Enabled logger InfoLevel with Some _ => true | None => false end
  end.

Record GoMigrate := mkGoMigrate {
  migrator : Migrate;
  migrationsDir : string;
}.

Definition getMigrator (cfg : PostgresConfig) (migrationsDir : string) : result Migrate :=
  let source := "file://" +:+ migrationsDir in
  let connString := BuildConnectionStringFromConfig cfg in
  migrate_New source connString.

Definition New_GoMigrate (cfg : PostgresConfig) (migrationsDir : string) : result GoMigrate :=
  match getMigrator cfg migrationsDir with
  | Err err => Err err
  | Ok m => Ok (mkGoMigrate m migrationsDir)
  end.

Definition Up (Logger : option SugaredLogger) (m : GoMigrate) (s : schema) : returned (bool * option error) * schema :=
  if Info_returns Logger then
    let '(err, s) := migrate_Up (migrator m) s in
    match err with
    | Some err =>
        if errors_Is err ErrNoChange
        then (if Info_returns Logger then Returned_ (false, None) else Panics, s)
        else (Returned_ (false, Some err), s)
    | None => (Returned_ (true, None), s)
    end
  else (Panics, s).

Definition Down (Logger : option SugaredLogger) (m : GoMigrate) (s : schema) : returned (bool * option error) * schema :=
  if Info_returns Logger then
    let '(err, s) := migrate_Down (migrator m) s in
    match err with
    | Some err =>
        if errors_Is err ErrNoChange
        then (if Info_returns Logger then Returned_ (false, None) else Panics, s)
        else (Returned_ (false, Some err), s)
    | None => (Returned_ (true, None), s)
    end
  else (Panics, s).

(** [ValidArgs] and [Args]: exactly one argument, and a valid one. *)
Definition ValidArgs : list string := ["up"; "down"].

Definition migrateCmd_Args (args : list string) : bool :=
  bool_decide (length args = 1%nat) && bool_decide (Forall (λ a, a ∈ ValidArgs) args).

Definition error_of (r : returned (bool * option error) * schema) : returned (option error) * schema :=
  (match r.1 with Returned_ (_, err) => Returned_ err | Panics => Panics end, r.2).

(** [RunE], for what [config.New] returns. *)
Definition migrateCmd_RunE (cfg : result Config) (MigrationsDir : string) (args : list string) (s : schema) :
    returned (option error) * schema :=
  match cfg with
  | Err err => (Returned_ (Some err), s)
  | Ok cfg =>
      let Logger := Init (c_log cfg) in
      match New_GoMigrate (c_postgres cfg) MigrationsDir with
      | Err err => (Returned_ (Some err), s)
      | Ok m =>
          match args with
          | [] => (Panics, s)
          | arg :: _ => error_of (if decide (arg = "up") then Up Logger m s else Down Logger m s)
          end
      end
  end.

(** ** Theorems *)
Lemma migrateCmd_Args_spec args : migrateCmd_Args args = true ↔ args = ["up"] ∨ args = ["down"].
Proof.
  unfold migrateCmd_Args. rewrite andb_true_iff, !bool_decide_eq_true. split.
  - intros [Hlen Hall]. destruct args as [|a [|]]; try discriminate Hlen. rewrite Forall_singleton in Hall.
    unfold ValidArgs in Hall. rewrite !elem_of_cons, elem_of_nil in Hall. destruct Hall as [-> |[-> |[]]]; auto.
  - intros [-> | ->]; (split; [done|]); apply Forall_singleton; unfold ValidArgs; rewrite !elem_of_cons; auto.
Qed.

(** What the library answers in the chosen direction. *)
Definition migrated (args : list string) (m : Migrate) (s : schema) : option error * schema :=
  if decide (args = ["up"]) then migrate_Up m s else migrate_Down m s.

(** The error that the command makes of it. *)
Definition no_change_is_fine (err : option error) : option error :=
  match err with Some e => if errors_Is e ErrNoChange then None else Some e | None => None end.

Lemma Up_spec Logger m s :
  Info_returns Logger = true →
  Up Logger m s = (Returned_ (bool_decide ((migrate_Up (migrator m) s).1 = None),
                              no_change_is_fine (migrate_Up (migrator m) s).1), (migrate_Up (migrator m) s).2).
Proof.
  intros Hinfo. unfold Up. rewrite !Hinfo. destruct (migrate_Up (migrator m) s) as [[e|] s']; cbn; [|done].
  by destruct (errors_Is e ErrNoChange).
Qed.

Lemma Down_spec Logger m s :
  Info_returns Logger = true →
  Down Logger m s = (Returned_ (bool_decide ((migrate_Down (migrator m) s).1 = None),
                                no_change_is_fine (migrate_Down (migrator m) s).1), (migrate_Down (migrator m) s).2).
Proof.
  intros Hinfo. unfold Down. rewrite !Hinfo. destruct (migrate_Down (migrator m) s) as [[e|] s']; cbn; [|done].
  by destruct (errors_Is e ErrNoChange).
Qed.

Lemma Info_returns_level `{!ZapLaws} config :
  Info_returns (Init config) = bool_decide (is_Some (parseLevel ParseLevel (LogLevel config))).
Proof.
  pose proof (initialise_level config InfoLevel) as Hlevel. cbn.
  destruct (parseLevel ParseLevel (LogLevel config)); by rewrite Hlevel.
Qed.

(** With a configuration and a migrator, the command does what its argument says
    if lines can be logged, and panics before it touches the schema if not. *)
Lemma migrateCmd_migrates `{!ZapLaws} c dir args s m :
  migrateCmd_Args args = true →
  migrate_New ("file://" +:+ dir) (BuildConnectionStringFromConfig (c_postgres c)) = Ok m →
  migrateCmd_RunE (Ok c) dir args s =
    if decide (is_Some (parseLevel ParseLevel (LogLevel (c_log c))))
    then (Returned_ (no_change_is_fine (migrated args m s).1), (migrated args m s).2)
    else (Panics, s).
Proof.
  intros Hargs%migrateCmd_Args_spec Hm. unfold migrateCmd_RunE, New_GoMigrate, getMigrator. rewrite Hm.
  pose proof (Info_returns_level (c_log c)) as Hinfo. case_decide as Hl.
  - rewrite bool_decide_eq_true_2 in Hinfo by done.
    destruct Hargs as [-> | ->]; unfold migrated; cbn [decide]; [rewrite (Up_spec _ _ _ Hinfo)|rewrite (Down_spec _ _ _ Hinfo)]; done.
  - rewrite bool_decide_eq_false_2 in Hinfo by done.
    destruct Hargs as [-> | ->]; unfold Up, Down; rewrite Hinfo; done.
Qed.

(** The migrate command, with arguments that cobra lets through: it fails without
    touching the schema if the configuration or the migrator cannot be made; it
    panics, also without touching it, if the log level cannot be read; and
    otherwise it leaves the schema that golang-migrate leaves and fails exactly
    with an error of golang-migrate that is not "no change". *)
Theorem migrate_command `{!ZapLaws} cfg dir args s :
  migrateCmd_Args args = true →
  match cfg with
  | Err e => migrateCmd_RunE cfg dir args s = (Returned_ (Some e), s)
  | Ok c =>
      match migrate_New ("file://" +:+ dir) (BuildConnectionStringFromConfig (c_postgres c)) with
      | Err e => migrateCmd_RunE cfg dir args s = (Returned_ (Some e), s)
      | Ok m =>
          (parseLevel ParseLevel (LogLevel (c_log c)) = None → migrateCmd_RunE cfg dir args s = (Panics, s)) ∧
          (parseLevel ParseLevel (LogLevel (c_log c)) ≠ None →
           (migrateCmd_RunE cfg dir args s).2 = (migrated args m s).2 ∧
           ∃ err, (migrateCmd_RunE cfg dir args s).1 = Returned_ err ∧
             ∀ e, err = Some e ↔ (migrated args m s).1 = Some e ∧ errors_Is e ErrNoChange = false)
      end
  end.
Proof.
  intros Hargs. destruct cfg as [c|e]; [|done].
  destruct (migrate_New _ _) as [m|e] eqn:Hm; [|by unfold migrateCmd_RunE, New_GoMigrate, getMigrator; rewrite Hm].
  rewrite (migrateCmd_migrates c dir args s m Hargs Hm). split; intros Hl.
  - rewrite decide_False; [done|]. rewrite Hl. apply is_Some_None.
  - rewrite decide_True by (destruct (parseLevel _ _); [eauto|done]). split; [done|]. eexists. split; [done|]. intros e.
    destruct (migrated args m s) as [[e'|] s']; cbn; [|by split; [|intros []]]. split.
    + destruct (errors_Is e' ErrNoChange) eqn:He; [done|]. by intros [= <-].
    + intros [[= <-] ->]. done.
Qed.

(** Running the command again after it succeeded succeeds and changes nothing. *)
Theorem migrate_idempotent `{!ZapLaws, !MigratorLaws} cfg dir args s s' :
  migrateCmd_Args args = true →
  migrateCmd_RunE cfg dir args s = (Returned_ None, s') → migrateCmd_RunE cfg dir args s' = (Returned_ None, s').
Proof.
  intros Hargs. destruct cfg as [c|e]; [|done].
  destruct (migrate_New ("file://" +:+ dir) (BuildConnectionStringFromConfig (c_postgres c))) as [m|e] eqn:Hm.
  - rewrite !(migrateCmd_migrates c dir args _ m Hargs Hm). case_decide; [|done]. unfold migrated.
    case_decide; [destruct (migrate_Up m s) as [[e|] t] eqn:Hr|destruct (migrate_Down m s) as [[e|] t] eqn:Hr]; cbn.
    all: try (destruct (errors_Is e ErrNoChange) eqn:He; intros [= <-]).
    + apply Up_no_change in Hr as Ht; [subst t|done]. by rewrite Hr; cbn; rewrite He.
    + intros [= <-]. apply Up_exhausts in Hr. by rewrite Hr.
    + apply Down_no_change in Hr as Ht; [subst t|done]. by rewrite Hr; cbn; rewrite He.
    + intros [= <-]. apply Down_exhausts in Hr. by rewrite Hr.
  - unfold migrateCmd_RunE, New_GoMigrate, getMigrator. by rewrite Hm.
Qed.

End migrations.

(** ** A concrete migrator: the number of migrations applied, out of two *)
Definition sample_migrator : Migrator := {|
  Migrate := ();
  schema := nat;
  migrate_New := λ source _, if decide (source = "file://migrations") then Ok () else Err (ErrMsg "no such directory");
  migrate_Up := λ _ s, if decide (s = 2%nat) then (Some (ErrSentinel ErrNoChange), s) else (None, 2%nat);
  migrate_Down := λ _ s, if decide (s = 0%nat) then (Some (ErrSentinel ErrNoChange), s) else (None, 0%nat);
|}.

Lemma sample_migrator_laws : @MigratorLaws sample_migrator.
Proof. split; cbn; intros; repeat case_decide; simplify_eq/=; done. Qed.

Definition sample_migrate_config (level : string) : Config :=
  mkConfig (mkYHSConfig 8989 "assets" (5 * Minute) (mkCORSOptions [] [] []))
    (mkPostgresConfig "db" "yhs" "user" "secret" 0 0 5432 10 2 "disable" "public") (mkYunikornConfig "yk" 9080 false)
    (mkLogConfig level false).

Lemma migrate_command_witness :
  let run := @migrateCmd_RunE sample_zap sample_migrator in
  (run (Ok (sample_migrate_config "info")) "migrations" ["up"] 1%nat).2 = 2%nat ∧
  run (Ok (sample_migrate_config "loud")) "migrations" ["up"] 1%nat = (Panics, 1%nat).
Proof.
  split.
  - destruct (@migrate_command sample_zap sample_migrator sample_zap_laws (Ok (sample_migrate_config "info")) "migrations" ["up"]
      1%nat eq_refl) as [_ Hrun]. by destruct Hrun as [-> _].
  - destruct (@migrate_command sample_zap sample_migrator sample_zap_laws (Ok (sample_migrate_config "loud")) "migrations" ["up"]
      1%nat eq_refl) as [Hpanics _]. by apply Hpanics.
Defined.

Lemma migrate_idempotent_witness :
  @migrateCmd_RunE sample_zap sample_migrator (Ok (sample_migrate_config "info")) "migrations" ["down"] 0%nat = (Returned_ None, 0%nat).
Proof.
  apply (@migrate_idempotent sample_zap sample_migrator sample_zap_laws sample_migrator_laws
           (Ok (sample_migrate_config "info")) "migrations" ["down"] 2%nat); reflexivity.
Defined.
