(* ===== verification/Service.v ===== *)
(** * The periodic synchronisation

    Models [runDataSync] of [internal/yunikorn/service.go] over the cases that its
    select takes, together with the interval that [config.New] passes to it
    through [WithSyncInterval]. *)
From S2P Require Import Prelude GoStrings RestClient Config.

(** The cases of the select, in the order in which they are taken. *)
Inductive select_case :=
| Tick
| Done.

#[export] Instance select_case_eq_dec : EqDecision select_case.
Proof. solve_decision. Defined.

(** How a run stands: returned, still waiting, or stopped by the panic of
    [time.NewTicker] on an interval that is not positive. *)
Inductive run_state :=
| RunReturned
| RunWaiting
| RunPanicked.

(** The loop: how many times [sync] is called, and how it ends.  An error of
    [sync] is only logged. *)
Fixpoint ticker_loop (cases : list select_case) : nat * run_state :=
  match cases with
  | [] => (O, RunWaiting)
  | Done :: _ => (O, RunReturned)
  | Tick :: cases' => let '(n, s) := ticker_loop cases' in (S n, s)
  end.

Definition runDataSync (syncInterval : Z) (cases : list select_case) : nat * run_state :=
  if decide (syncInterval = 0) then (1%nat, RunReturned)
  else if bool_decide (syncInterval ≤ 0) then (1%nat, RunPanicked)
  else let '(n, s) := ticker_loop cases in (S n, s).

(** The ticks before the context is done. *)
Fixpoint ticks_before_done (cases : list select_case) : nat :=
  match cases with
  | Tick :: cases' => S (ticks_before_done cases')
  | _ => O
  end.

Lemma ticker_loop_spec cases :
  ticker_loop cases = (ticks_before_done cases, if bool_decide (Done ∈ cases) then RunReturned else RunWaiting).
Proof.
  induction cases as [|[|] cases IH]; cbn [ticker_loop ticks_before_done].
  - rewrite bool_decide_false; [done|apply not_elem_of_nil].
  - rewrite IH. f_equal. destruct (decide (Done ∈ cases)) as [Hin|Hin].
    + rewrite !bool_decide_true; [done|by apply list_elem_of_further|done].
    + rewrite !bool_decide_false; [done|by intros [?|?]%elem_of_cons|done].
  - by rewrite bool_decide_true by apply list_elem_of_here.
Qed.

(** C32.  With the interval of a configuration that was accepted, the service
    synchronises once at the start and then once per tick, and returns when the
    context is done; it never stops after the first synchronisation because the
    interval is zero, but an interval below zero, which the configuration
    accepts, makes it panic. *)
Theorem runDataSync_correct `{Koanf} cfg cases :
  New None = Ok cfg →
  runDataSync (DataSyncInterval (c_yhs cfg)) cases =
    if decide (k_Duration "yhs_data_sync_interval" < 0) then (1%nat, RunPanicked)
    else (S (ticks_before_done cases), if bool_decide (Done ∈ cases) then RunReturned else RunWaiting).
Proof.
  intros Hnew. unfold New in Hnew. destruct (YHS_Validate _); [done|]. injection Hnew as <-.
  cbn [c_yhs DataSyncInterval]. unfold runDataSync. rewrite ticker_loop_spec.
  destruct (decide (k_Duration "yhs_data_sync_interval" = 0)) as [Hz|Hz].
  - rewrite Hz. by repeat (rewrite decide_False by done || rewrite bool_decide_false by done).
  - rewrite decide_False by done. destruct (decide (k_Duration "yhs_data_sync_interval" < 0)).
    + by rewrite bool_decide_true by lia.
    + by rewrite bool_decide_false by lia.
Qed.

Definition sample_koanf : Koanf := {|
  k_String := λ _, "x";
  k_Int := λ _, 8989;
  k_Duration := λ _, 0;
  k_Bool := λ _, false;
  k_Strings := λ _, [];
|}.

Lemma runDataSync_correct_witness :
  runDataSync (5 * Minute) [Tick; Tick; Done] = (3%nat, RunReturned).
Proof.
  apply (@runDataSync_correct sample_koanf
    (mkConfig (mkYHSConfig 8989 "x" (5 * Minute) (mkCORSOptions [] [] []))
       (mkPostgresConfig "x" "x" "x" "x" 0 0 8989 8989 8989 "x" "x") (mkYunikornConfig "x" 8989 false)
       (mkLogConfig "x" false)) [Tick; Tick; Done]).
  reflexivity.
Defined.
