(* ===== verification/ServiceRun.v ===== *)
(** * The service and its goroutines

    Models [Run] of [internal/yunikorn/service.go]: the work queue, the event
    collector and the periodic synchronisation as one process whose three
    goroutines a [run.Group] supervises.  [oklog/run] is a library; the class
    [RunGroup] is what a group does, its laws what the library documents.

    Part of the state is the full state of the work queue, so that what the
    synchronisation and [Shutdown] do to each other is derived and not assumed. *)
From S2P Require Import Prelude GoStrings Dao Db Events WorkQueue.

(** ** [run.Group]

    The actors of a group that have returned, in that order, with their errors. *)
Definition exits : Type := list (nat * option error).

(** [group_interrupts n ex]: the actors whose interrupt function is called once
    the actors in [ex], of [n], have returned; [group_result n ex]: what [Run]
    has returned. *)
Class RunGroup := {
  group_interrupts : nat → exits → list nat;
  group_result : nat → exits → option (option error);
}.

(** "When the first actor returns, all others are interrupted, and a graceful
    shutdown is performed"; [Run] "only returns when all actors have exited" and
    "returns the error returned by the first exiting actor". *)
Class RunGroupLaws `{RunGroup} : Prop := {
  interrupts_nil n : group_interrupts n [] = [];
  interrupts_all n ex i : ex ≠ [] → (i < n)%nat → i ∈ group_interrupts n ex;
  result_iff n ex e : (0 < n)%nat →
    group_result n ex = Some e ↔ (∀ i, (i < n)%nat → i ∈ ex.*1) ∧ head ex.*2 = Some e;
}.

Lemma result_all_exited `{RunGroupLaws} n ex :
  (0 < n)%nat → (∀ i, (i < n)%nat → i ∈ ex.*1) → ∃ e, group_result n ex = Some e.
Proof.
  intros Hn Hall. destruct ex as [|[i e] ex]; [by destruct (not_elem_of_nil 0%nat (Hall 0%nat Hn))|].
  exists e. by apply result_iff.
Qed.

(** ** The work queue of the service: nobody but [Run] shuts it down *)
Section own_queue.
Context {Job : Type}.
Implicit Types w : WorkQueue (Job := Job).

Definition phase_ok w : Prop :=
  match phase w with
  | NotRunning => started w = false ∧ signal_closed w = false
  | Selecting | Popping => started w = true ∧ signal_closed w = false
  | Stopping | ShuttingDown => started w = true ∧ signal_closed w = false ∧ ctx_done w = true
  | Returned => signal_closed w = true ∧ ctx_done w = true
  end.

Record wq_own w : Prop := {
  own_reachable : reachable w;
  own_shutting : shutting w = O;
  own_phase : phase_ok w;
}.

Lemma wq_own_new opts : wq_own (NewWorkQueue opts).
Proof. split; [apply reachable_init|done|done]. Qed.

Lemma wq_own_step a w w' :
  a ≠ ByShutdown → panicked w = false → step a w w' → wq_own w →
  wq_own w' ∧ (a ≠ ByContext → ctx_done w' = ctx_done w).
Proof.
  intros Ha Hok Hstep [Hr Hs Hp]. assert (reachable w') as Hr' by (by eapply reachable_step).
  unfold phase_ok in Hp.
  destruct Hstep; cbn in *; try done.
  all: try match goal with H : pop _ = _ |- _ => unfold pop in H; destruct (queue w) eqn:?; simplify_eq end.
  all: try match goal with H : phase _ = _ |- _ => rewrite H in Hp; destruct_and? Hp; try congruence end.
  all: split; [split; [exact Hr'|done|unfold phase_ok; cbn]|]; try done; try (intros; cbn; congruence).
  - by repeat case_match; destruct_and? Hp.
Qed.

(** What remains to be done, for the termination of a stopping service. *)
Definition phase_rank (ph : run_phase) : nat :=
  match ph with
  | NotRunning => 5 | Selecting => 4 | Popping => 5 | Stopping => 3 | ShuttingDown => 2 | Returned => 0
  end.

Definition wq_measure w : nat :=
  phase_rank (phase w) + 6 * length (adding w) + 2 * length (sending w) + 3 * length (queue w) +
  2 * length (spawned w) + length (active w) + if panicked w then 0 else 1.

Lemma wq_measure_step a w w' :
  a = ByRun ∨ a = ByAdd ∨ a = ByWorker → wq_own w → panicked w = false → step a w w' →
  (wq_measure w' < wq_measure w)%nat.
Proof.
  intros Ha [_ _ Hp] Hok Hstep. unfold phase_ok in Hp.
  destruct Hstep; try naive_solver; unfold wq_measure in *; cbn in *.
  all: try match goal with H : pop _ = _ |- _ => unfold pop in H; destruct (queue w) eqn:Hq; simplify_eq end.
  all: repeat match goal with H : _ = _ ++ _ :: _ |- _ => rewrite H end.
  all: repeat match goal with H : phase _ = _ |- _ => rewrite H in * end.
  all: rewrite ?length_app, ?Hok; cbn; try (rewrite ?Hq; cbn); try lia.
  all: destruct_and? Hp; try congruence; repeat case_match; lia.
Qed.

Lemma wq_measure_enter w w' : step EnterAdd w w' → (wq_measure w' ≤ wq_measure w + 6)%nat.
Proof. inversion 1; subst; unfold wq_measure; cbn; lia. Qed.

(** A cancelled work queue does not get stuck before it returns. *)
Lemma wq_can_return w : wq_own w → ctx_done w = true → phase w = Returned ∨ ∃ w', step ByRun w w'.
Proof.
  intros [_ _ Hp] Hd. unfold phase_ok in Hp. destruct (phase w) eqn:Hph; [| | | | |by left]; right.
  - eexists. by apply Run_start.
  - eexists. by apply Run_done.
  - destruct (pop w) as [[i|] w1] eqn:Hpop; eexists; [by eapply Run_dispatch|by eapply Run_empty].
  - eexists. apply Run_shutdown_test; [done|]. by destruct_and? Hp.
  - eexists. by apply Run_shutdown.
Qed.

End own_queue.

(** ** The service *)

(** The collector is about to request a stream, reads one, or has returned. *)
Inductive collector_phase :=
| Connecting
| Reading
| CollectorReturned.

#[export] Instance collector_phase_eq_dec : EqDecision collector_phase.
Proof. solve_decision. Defined.

(** The synchronisation is running and makes at most [jobs] further calls of
    [Add], waits at the select, or has returned. *)
Inductive datasync_phase :=
| Syncing (jobs : nat)
| Waiting
| DataSyncReturned.

#[export] Instance datasync_phase_eq_dec : EqDecision datasync_phase.
Proof. solve_decision. Defined.

Section service.
Context {Job : Type} (interval : Z).

Record service := mkServiceRun {
  s_wq : WorkQueue (Job := Job);
  s_collector : collector_phase;
  s_datasync : datasync_phase;
  s_exits : exits;
  (* calls of Add so far *)
  s_calls : nat;
  s_crashed : bool;
}.

(** [Run] starts its three goroutines; the first synchronisation starts at once. *)
Definition service_start (jobs : nat) (wq : WorkQueue (Job := Job)) : service :=
  mkServiceRun wq Connecting (Syncing jobs) [] 0 false.

(** A panic of a goroutine ends the process. *)
Definition set_wq (w : WorkQueue (Job := Job)) (s : service) : service :=
  mkServiceRun w (s_collector s) (s_datasync s) (s_exits s) (s_calls s) (s_crashed s || panicked w).

Definition set_collector (c : collector_phase) (ex : exits) (s : service) : service :=
  mkServiceRun (s_wq s) c (s_datasync s) (s_exits s ++ ex) (s_calls s) (s_crashed s).

Definition set_datasync (d : datasync_phase) (ex : exits) (s : service) : service :=
  mkServiceRun (s_wq s) (s_collector s) d (s_exits s ++ ex) (s_calls s) (s_crashed s).

(** The end of an iteration of [runEventCollector]. *)
Definition end_stream (err : option error) (s : service) : service :=
  if collector_stops err then set_collector CollectorReturned [(1%nat, None)] s else set_collector Connecting [] s.

(** What [runDataSync] does after [sync]: the ticker panics for an interval that
    is not positive. *)
Definition end_sync (s : service) : service :=
  if decide (interval = 0) then set_datasync DataSyncReturned [(2%nat, None)] s
  else if bool_decide (interval ≤ 0)
  then mkServiceRun (s_wq s) (s_collector s) (s_datasync s) (s_exits s) (s_calls s) true
  else set_datasync Waiting [] s.

(** [ctx_done] tells whether the context given to [Run] is done.  A request made
    in a context that is done fails with the error of the context, and only
    then do requests and streams end with that error. *)
Inductive service_step (done : bool) : service → service → Prop :=
(* workqueue.Run and the goroutines of its jobs *)
| S_queue a s w' : a = ByRun ∨ a = ByWorker → step a (s_wq s) w' → service_step done s (set_wq w' s)
| S_queue_return s :
    phase (s_wq s) = Returned → 0%nat ∉ (s_exits s).*1 →
    service_step done s (set_collector (s_collector s) [(0%nat, Some (ErrSentinel Canceled))] s)
(* runEventCollector *)
| S_connect s : s_collector s = Connecting → done = false → service_step done s (set_collector Reading [] s)
| S_request_error s e :
    s_collector s = Connecting → errors_Is e Canceled = done → service_step done s (end_stream (Some e) s)
| S_stream_end s err :
    s_collector s = Reading → (collector_stops err = true → done = true) → service_step done s (end_stream err s)
(* runDataSync *)
| S_add_call s n w' :
    s_datasync s = Syncing (S n) → step EnterAdd (s_wq s) w' →
    service_step done s (mkServiceRun w' (s_collector s) (Syncing n) (s_exits s) (S (s_calls s)) (s_crashed s))
| S_add s n w' : s_datasync s = Syncing n → step ByAdd (s_wq s) w' → service_step done s (set_wq w' s)
| S_sync_end s n :
    s_datasync s = Syncing n → adding (s_wq s) = [] → sending (s_wq s) = [] → service_step done s (end_sync s)
| S_datasync_done s :
    s_datasync s = Waiting → done = true → service_step done s (set_datasync DataSyncReturned [(2%nat, None)] s).

(** The ticker fires. *)
Inductive service_tick : service → service → Prop :=
| S_tick s n : s_datasync s = Waiting → service_tick s (set_datasync (Syncing n) [] s).

(** The context of [Run] is cancelled, and with it the one of the work queue. *)
Definition service_cancel (s : service) : service :=
  mkServiceRun (set_ctx_done (s_wq s)) (s_collector s) (s_datasync s) (s_exits s) (s_calls s) (s_crashed s).

(** ** Invariant *)
Record service_inv (done : bool) (s : service) : Prop := {
  si_own : wq_own (s_wq s);
  si_panicked : panicked (s_wq s) = true → s_crashed s = true;
  si_ctx : ctx_done (s_wq s) = done;
  si_adders : adding (s_wq s) ≠ [] ∨ sending (s_wq s) ≠ [] → ∃ n, s_datasync s = Syncing n;
  si_exit0 : 0%nat ∈ (s_exits s).*1 → phase (s_wq s) = Returned;
  si_exit1 : 1%nat ∈ (s_exits s).*1 ↔ s_collector s = CollectorReturned;
  si_exit2 : 2%nat ∈ (s_exits s).*1 ↔ s_datasync s = DataSyncReturned;
  si_stopped : s_collector s = CollectorReturned → done = true;
}.

Lemma service_inv_start jobs opts : service_inv false (service_start jobs (NewWorkQueue opts)).
Proof. split; try done; try apply wq_own_new; cbn; set_solver. Qed.

(** Steps of the work queue by [Run] and by jobs add nothing to the callers. *)
Lemma own_adders a (w w' : WorkQueue (Job := Job)) :
  a = ByRun ∨ a = ByWorker → step a w w' →
  (adding w' ≠ [] → adding w ≠ []) ∧ (sending w' ≠ [] → sending w ≠ []).
Proof.
  intros Ha Hstep. destruct Hstep; try naive_solver; cbn;
    try match goal with H : pop _ = _ |- _ => unfold pop in H; destruct (queue w); simplify_eq end; try done.
  split; [done|]. rewrite H1. by destruct l1.
Qed.

Lemma returned_stays a (w w' : WorkQueue (Job := Job)) :
  a ≠ ByShutdown → wq_own w → step a w w' → phase w = Returned → phase w' = Returned.
Proof.
  intros Ha [_ Hs _] Hstep Hph. destruct Hstep; cbn in *; try congruence; try done.
Qed.

Lemma not_panicked done s : service_inv done s → s_crashed s = false → panicked (s_wq s) = false.
Proof.
  intros Hinv Hc. destruct (panicked (s_wq s)) eqn:E; [|done]. pose proof (si_panicked _ _ Hinv E). congruence.
Qed.

(** A step of the work queue alone, by a goroutine other than those of [Add]. *)
Lemma service_inv_queue done s w' a :
  service_inv done s → a ≠ ByShutdown → a ≠ ByContext → step a (s_wq s) w' → s_crashed s = false →
  (adding w' ≠ [] ∨ sending w' ≠ [] → ∃ n, s_datasync s = Syncing n) →
  service_inv done (set_wq w' s).
Proof.
  intros Hinv Ha Ha' Hstep Hc Hadd. pose proof Hinv as [Hown Hp Hctx _ H0 H1 H2 Hst].
  pose proof (not_panicked done s Hinv Hc) as Hok.
  destruct (wq_own_step a _ _ Ha Hok Hstep Hown) as [Hown' Hctx'].
  split; cbn; try done.
  - intros ->. by rewrite orb_true_r.
  - rewrite <- Hctx. by apply Hctx'.
  - intros Hin. apply (returned_stays a (s_wq s)); auto.
Qed.

Lemma elem_of_exits_app (i : nat) (ex ex' : exits) : i ∈ (ex ++ ex').*1 ↔ i ∈ ex.*1 ∨ i ∈ ex'.*1.
Proof. by rewrite fmap_app, elem_of_app. Qed.

Lemma elem_of_exits_snoc (i j : nat) e (ex : exits) : i ∈ (ex ++ [(j, e)]).*1 ↔ i ∈ ex.*1 ∨ i = j.
Proof. rewrite elem_of_exits_app. cbn. by rewrite list_elem_of_singleton. Qed.

(** The collector moves on, or returns in a context that is done. *)
Lemma service_inv_collector done s c :
  service_inv done s → s_collector s ≠ CollectorReturned → (c = CollectorReturned → done = true) →
  service_inv done (set_collector c (if decide (c = CollectorReturned) then [(1%nat, None)] else []) s).
Proof.
  intros [Hown Hp Hctx Hadd H0 H1 H2 Hst] Hne Hc. split; cbn; try done; rewrite elem_of_exits_app.
  - intros [Hin|Hin]; [by apply H0|]. case_decide; set_solver.
  - case_decide as Hd; set_solver.
  - case_decide; set_solver.
Qed.

Lemma service_inv_datasync done s d :
  service_inv done s → s_datasync s ≠ DataSyncReturned →
  (adding (s_wq s) ≠ [] ∨ sending (s_wq s) ≠ [] → ∃ n, d = Syncing n) →
  service_inv done (set_datasync d (if decide (d = DataSyncReturned) then [(2%nat, None)] else []) s).
Proof.
  intros [Hown Hp Hctx _ H0 H1 H2 Hst] Hne Hadd. split; cbn; try done; rewrite elem_of_exits_app.
  - intros [Hin|Hin]; [by apply H0|]. case_decide; set_solver.
  - case_decide; set_solver.
  - case_decide as Hd; set_solver.
Qed.

Lemma service_inv_end_stream done s err :
  service_inv done s → s_collector s ≠ CollectorReturned → (collector_stops err = true → done = true) →
  service_inv done (end_stream err s).
Proof.
  intros Hinv Hne Hd. unfold end_stream. destruct (collector_stops err).
  - apply (service_inv_collector done s CollectorReturned); auto.
  - by apply (service_inv_collector done s Connecting).
Qed.

Lemma service_inv_end_sync done s :
  service_inv done s → s_datasync s ≠ DataSyncReturned → adding (s_wq s) = [] → sending (s_wq s) = [] →
  service_inv done (end_sync s).
Proof.
  intros Hinv Hne Ha Hs. unfold end_sync. case_decide; [|case_bool_decide].
  - apply (service_inv_datasync done s DataSyncReturned); try done. rewrite Ha, Hs. by intros [].
  - destruct Hinv. by split.
  - apply (service_inv_datasync done s Waiting); try done. rewrite Ha, Hs. by intros [].
Qed.

Lemma service_inv_step done s s' :
  service_inv done s → s_crashed s = false → service_step done s s' → service_inv done s'.
Proof.
  intros Hinv Hc Hstep.
  destruct Hstep as [a s w' Ha Hw|s Hph Hne|s Hcol Hd|s e Hcol He|s err Hcol He|s n w' Hds Hw|s n w' Hds Hw|s n Hds Hna Hns|s Hds Hd].
  - apply (service_inv_queue done s w' a); try done; try (by destruct Ha as [-> | ->]).
    destruct (own_adders a _ _ Ha Hw) as [Had Hse]. intros [?|?]; apply (si_adders _ _ Hinv); auto.
  - destruct Hinv as [Hown Hp Hctx Hadd H0 H1 H2 Hst]. split; cbn; try done; rewrite elem_of_exits_app; set_solver.
  - apply (service_inv_collector done s Reading); [done|by rewrite Hcol|done].
  - apply service_inv_end_stream; [done|by rewrite Hcol|]. cbn. by rewrite He.
  - apply service_inv_end_stream; [done|by rewrite Hcol|done].
  - pose proof (service_inv_queue done s w' EnterAdd Hinv) as Hq.
    destruct Hq as [Hown Hp Hctx _ H0 H1 H2 Hst]; try done; [by exists (S n)|].
    assert (panicked w' = panicked (s_wq s)) as Hpw by (by inversion Hw).
    split; cbn in *; try done; [|by exists n|by rewrite H2, Hds].
    intros Hpan. rewrite Hpan in Hpw. by apply (si_panicked _ _ Hinv).
  - apply (service_inv_queue done s w' ByAdd); try done. by exists n.
  - by apply service_inv_end_sync; rewrite ?Hds.
  - apply (service_inv_datasync done s DataSyncReturned); [done|by rewrite Hds|].
    intros Hadd. destruct (si_adders _ _ Hinv Hadd) as [n Hn]. congruence.
Qed.

Lemma service_inv_tick done s s' : service_inv done s → service_tick s s' → service_inv done s'.
Proof.
  intros Hinv Htick. destruct Htick as [s n Hds].
  apply (service_inv_datasync done s (Syncing n)); [done|by rewrite Hds|intros _; by exists n].
Qed.

Lemma service_inv_cancel done s : service_inv done s → s_crashed s = false → service_inv true (service_cancel s).
Proof.
  intros Hinv Hc. pose proof Hinv as [Hown Hp Hctx Hadd H0 H1 H2 Hst].
  pose proof (not_panicked done s Hinv Hc) as Hok.
  split; cbn; try done; [|naive_solver..].
  apply (wq_own_step ByContext (s_wq s)); [done|done|apply Cancel|done].
Qed.

(** ** A stopping service *)
Definition collector_rank (c : collector_phase) : nat :=
  match c with Connecting => 1 | Reading => 2 | CollectorReturned => 0 end.

Definition datasync_rank (d : datasync_phase) : nat :=
  match d with Syncing n => 7 * n + 3 | Waiting => 1 | DataSyncReturned => 0 end.

Definition service_measure (s : service) : nat :=
  wq_measure (s_wq s) + collector_rank (s_collector s) + datasync_rank (s_datasync s) +
  (if decide (0%nat ∈ (s_exits s).*1) then 0 else 1) + if s_crashed s then 0 else 1.

(** Exits of other actors do not matter for the first. *)
Lemma exit0_other (s : service) (ex : exits) :
  0%nat ∉ ex.*1 →
  (if decide (0%nat ∈ (s_exits s ++ ex).*1) then 0 else 1)%nat = (if decide (0%nat ∈ (s_exits s).*1) then 0 else 1)%nat.
Proof. intros Hex. rewrite (decide_ext _ (0%nat ∈ (s_exits s).*1)); [done|]. rewrite elem_of_exits_app. naive_solver. Qed.

Lemma set_wq_measure s w' :
  s_crashed s = false → (wq_measure w' < wq_measure (s_wq s))%nat →
  (service_measure (set_wq w' s) < service_measure s)%nat.
Proof.
  intros Hc Hm. unfold service_measure. cbn. rewrite Hc. cbn. destruct (panicked w'); lia.
Qed.

(** Once the context is done every step brings the end closer. *)
Lemma service_measure_step s s' :
  service_inv true s → s_crashed s = false → service_step true s s' → (service_measure s' < service_measure s)%nat.
Proof.
  intros Hinv Hc Hstep. pose proof (not_panicked _ _ Hinv Hc) as Hok. pose proof (si_own _ _ Hinv) as Hown.
  destruct Hstep as [a s w' Ha Hw|s Hph Hne|s Hcol Hd|s e Hcol He|s err Hcol He|s n w' Hds Hw|s n w' Hds Hw|s n Hds Hna Hns|s Hds Hd].
  - apply set_wq_measure; [done|]. apply (wq_measure_step a); naive_solver.
  - unfold service_measure. cbn. rewrite decide_True by (rewrite elem_of_exits_app; set_solver).
    rewrite decide_False by done. lia.
  - done.
  - unfold end_stream. cbn [collector_stops]. rewrite He. unfold service_measure. cbn.
    rewrite Hcol, exit0_other by set_solver. cbn. lia.
  - unfold end_stream. destruct (collector_stops err); unfold service_measure; cbn; rewrite Hcol, exit0_other by set_solver; cbn; lia.
  - unfold service_measure. cbn. rewrite Hds. pose proof (wq_measure_enter _ _ Hw). cbn. lia.
  - apply set_wq_measure; [done|]. apply (wq_measure_step ByAdd); naive_solver.
  - unfold end_sync. case_decide; [|case_bool_decide]; unfold service_measure; cbn; rewrite ?Hds, ?Hc;
      rewrite ?exit0_other by set_solver; cbn; lia.
  - unfold service_measure. cbn. rewrite Hds, exit0_other by set_solver. cbn. lia.
Qed.

(** ... and there is a step until all three goroutines have returned. *)
Lemma service_progress s :
  service_inv true s → (∀ i, (i < 3)%nat → i ∈ (s_exits s).*1) ∨ ∃ s', service_step true s s'.
Proof.
  intros [Hown Hp Hctx Hadd H0 H1 H2 Hst].
  destruct (wq_can_return (s_wq s) Hown Hctx) as [Hret|[w' Hw]]; [|right; eexists; eapply S_queue; [by left|exact Hw]].
  destruct (decide (0%nat ∈ (s_exits s).*1)) as [Hin0|Hin0]; [|right; eexists; by apply S_queue_return].
  destruct (s_collector s) eqn:Hcol.
  { right. eexists. by apply (S_request_error true s (ErrSentinel Canceled)). }
  { right. eexists. by apply (S_stream_end true s None). }
  destruct (s_datasync s) as [n| |] eqn:Hds.
  - right. destruct (adding (s_wq s)) as [|[job opts] l] eqn:Hadding.
    + destruct (sending (s_wq s)) as [|i l] eqn:Hsending; [eexists; by eapply S_sync_end|].
      eexists. eapply S_add; [done|]. apply (Add_panic _ i); [rewrite Hsending; apply list_elem_of_here|].
      pose proof (own_phase _ Hown) as Hph. unfold phase_ok in Hph. rewrite Hret in Hph. by destruct Hph.
    + eexists. eapply S_add; [done|]. by apply (Add_append _ [] job opts l "").
  - right. eexists. by apply S_datasync_done.
  - left. intros i Hi. assert (i = 0 ∨ i = 1 ∨ i = 2)%nat as [-> |[-> | ->]] by lia; [done|by apply H1|by apply H2].
Qed.

End service.
