(* ===== verification/Process.v ===== *)
(** * The running server

    Models [Run] of [cmd/yunikorn-history-server/commands/root.go] after its
    start: the service and the web server as the two actors of a [run.Group], the
    context that a signal ends, and [Shutdown] of
    [internal/webservice/webservice.go], which the group calls to interrupt the
    web server.  The functions that interrupt the service and its goroutines are
    empty in the source. *)
From S2P Require Import Prelude GoStrings Dao Db Events WorkQueue ServiceRun.

(** [ListenAndServe] has not bound its port, serves, or has returned. *)
Inductive server_phase :=
| NotListening
| Listening
| ServerReturned.

(** [ws.Shutdown] has not been called, runs, or has returned. *)
Inductive shutdown_phase :=
| NotCalled
| Called
| Finished_.

#[export] Instance server_phase_eq_dec : EqDecision server_phase.
Proof. solve_decision. Defined.
#[export] Instance shutdown_phase_eq_dec : EqDecision shutdown_phase.
Proof. solve_decision. Defined.

Definition ErrServerClosed : error := ErrMsg "http: Server closed".

Section process.
Context `{RunGroupLaws} {Job : Type} (interval : Z).

Record process := mkProcess {
  (* the context of NotifyContext is done *)
  p_signalled : bool;
  p_service : service (Job := Job);
  p_server : server_phase;
  p_shutdown : shutdown_phase;
  p_exits : exits;
  (* requests being served *)
  p_inflight : nat;
  p_returned : bool;
}.

(** Both actors have been started; the first synchronisation makes at most [jobs]
    calls of [Add]. *)
Definition process_start (jobs : nat) : process :=
  mkProcess false (service_start jobs (NewWorkQueue [WithName "yunikorn_data_sync"])) NotListening NotCalled [] 0 false.

Definition set_service (s : service) (p : process) : process :=
  mkProcess (p_signalled p) s (p_server p) (p_shutdown p) (p_exits p) (p_inflight p) (p_returned p).

Definition set_server (sv : server_phase) (ex : exits) (p : process) : process :=
  mkProcess (p_signalled p) (p_service p) sv (p_shutdown p) (p_exits p ++ ex) (p_inflight p) (p_returned p).

Definition set_shutdown (sh : shutdown_phase) (p : process) : process :=
  mkProcess (p_signalled p) (p_service p) (p_server p) sh (p_exits p) (p_inflight p) (p_returned p).

Definition set_inflight (n : nat) (p : process) : process :=
  mkProcess (p_signalled p) (p_service p) (p_server p) (p_shutdown p) (p_exits p) n (p_returned p).

(** [Run] logs the error of the group and returns nil. *)
Definition return_nil (p : process) : process :=
  mkProcess (p_signalled p) (p_service p) (p_server p) (p_shutdown p) (p_exits p) (p_inflight p) true.

(** What the program does by itself.  [Shutdown] closes the listener and waits
    until no request is being served or its context, that of the process, is
    done; [g.Run] returns after the interrupt functions and the actors have. *)
Inductive process_step : process → process → Prop :=
| P_service p s' :
    service_step interval (p_signalled p) (p_service p) s' → process_step p (set_service s' p)
| P_service_return p e :
    group_result 3 (s_exits (p_service p)) = Some e → 0%nat ∉ (p_exits p).*1 →
    process_step p (set_server (p_server p) [(0%nat, e)] p)
| P_listen p : p_server p = NotListening → p_shutdown p = NotCalled → process_step p (set_server Listening [] p)
| P_server_error p e : p_server p ≠ ServerReturned → process_step p (set_server ServerReturned [(1%nat, Some e)] p)
| P_server_closed p :
    p_server p ≠ ServerReturned → p_shutdown p ≠ NotCalled →
    process_step p (set_server ServerReturned [(1%nat, Some ErrServerClosed)] p)
| P_interrupt p :
    1%nat ∈ group_interrupts 2 (p_exits p) → p_shutdown p = NotCalled → process_step p (set_shutdown Called p)
| P_shutdown_end p :
    p_shutdown p = Called → p_inflight p = 0%nat ∨ p_signalled p = true → process_step p (set_shutdown Finished_ p)
| P_request_end p n : p_inflight p = S n → process_step p (set_inflight n p)
| P_return p e :
    group_result 2 (p_exits p) = Some e → p_shutdown p = Finished_ → process_step p (return_nil p).

(** What happens to it: a signal, the ticker, a request. *)
Inductive environment_step : process → process → Prop :=
| E_signal p :
    environment_step p (mkProcess true (service_cancel (p_service p)) (p_server p) (p_shutdown p) (p_exits p)
      (p_inflight p) (p_returned p))
| E_tick p s' : service_tick (p_service p) s' → environment_step p (set_service s' p)
| E_request p :
    p_server p = Listening → p_shutdown p = NotCalled → environment_step p (set_inflight (S (p_inflight p)) p).

Definition alive (p : process) : Prop := s_crashed (p_service p) = false ∧ p_returned p = false.

Definition own_step (p p' : process) : Prop := alive p ∧ process_step p p'.
Definition any_step (p p' : process) : Prop := alive p ∧ (process_step p p' ∨ environment_step p p').

Definition process_reachable (p : process) : Prop := ∃ jobs, rtc any_step (process_start jobs) p.

(** ** Invariant *)
Record process_inv (p : process) : Prop := {
  pi_service : service_inv (p_signalled p) (p_service p);
  pi_exit0 : 0%nat ∈ (p_exits p).*1 → p_signalled p = true;
  pi_exit1 : 1%nat ∈ (p_exits p).*1 ↔ p_server p = ServerReturned;
  pi_exits : p_exits p ≠ [] → 0%nat ∈ (p_exits p).*1 ∨ 1%nat ∈ (p_exits p).*1;
  pi_shutdown : p_shutdown p ≠ NotCalled → p_exits p ≠ [];
  pi_returned : p_returned p = true → 0%nat ∈ (p_exits p).*1;
}.

Lemma process_inv_start jobs : process_inv (process_start jobs).
Proof. split; cbn; try apply service_inv_start; set_solver. Qed.

(** One more actor has returned. *)
Lemma process_inv_exit p sv i e :
  process_inv p → p_returned p = false → (i = 0%nat → p_signalled p = true ∧ sv = p_server p) →
  (i ≠ 0%nat → i = 1%nat ∧ sv = ServerReturned) → process_inv (set_server sv [(i, e)] p).
Proof.
  intros [Hs Hx0 Hx1 Hex Hsh Hr] Hret Hi0 Hi1. assert (i = 0 ∨ i = 1)%nat as Hi by (destruct (decide (i = 0%nat)); naive_solver).
  split; cbn; rewrite ?elem_of_exits_snoc; [done| | | | |by rewrite Hret].
  - intros [Hin|<-]; [by apply Hx0|by apply Hi0].
  - destruct Hi as [-> | ->]; [destruct Hi0 as [_ ->]; [done|]; rewrite Hx1; naive_solver|].
    destruct Hi1 as [_ ->]; [done|]. naive_solver.
  - intros _. destruct Hi as [-> | ->]; auto.
  - intros _ Hnil%app_nil. by destruct Hnil.
Qed.

Lemma process_inv_step p p' : process_inv p → alive p → process_step p p' → process_inv p'.
Proof.
  intros Hinv [Hc Hret] Hstep.
  destruct Hstep as [p s' Hs'|p e He Hne|p Hsv Hsh'|p e Hsv|p Hsv Hsh'|p Hint Hsh'|p Hsh' Hw|p n Hn|p e He Hsh'].
  - destruct Hinv. split; cbn; try done. by eapply service_inv_step.
  - apply process_inv_exit; [done|done| |done]. intros _. split; [|done]. pose proof (pi_service _ Hinv) as Hs.
    destruct (proj1 (result_iff 3 _ e ltac:(lia)) He) as [Hall _]. apply (si_stopped _ _ Hs), (si_exit1 _ _ Hs), Hall. lia.
  - destruct Hinv as [Hs Hx0 Hx1 Hex Hsh Hr]. split; cbn; rewrite ?app_nil_r; try done. rewrite Hx1, Hsv. done.
  - by apply process_inv_exit.
  - by apply process_inv_exit.
  - destruct Hinv. split; cbn; try done. intros _ Hnil. rewrite Hnil, interrupts_nil in Hint.
    by apply not_elem_of_nil in Hint.
  - destruct Hinv as [Hs Hx0 Hx1 Hex Hsh Hr]. split; cbn; try done. intros _. apply Hsh. by rewrite Hsh'.
  - destruct Hinv. by split.
  - destruct Hinv. split; cbn; try done. intros _.
    destruct (proj1 (result_iff 2 _ e ltac:(lia)) He) as [Hall _]. apply Hall. lia.
Qed.

Lemma process_inv_environment p p' : process_inv p → alive p → environment_step p p' → process_inv p'.
Proof.
  intros Hinv [Hc Hret] Hstep. pose proof Hinv as [Hs Hx0 Hx1 Hex Hsh Hr].
  destruct Hstep as [p|p s' Ht|p Hsv Hsh']; split; cbn; try done.
  - by eapply service_inv_cancel.
  - by eapply service_inv_tick.
Qed.

Lemma process_reachable_inv p : process_reachable p → process_inv p.
Proof.
  intros [jobs Hrtc]. assert (process_inv (process_start jobs)) as Hinv by apply process_inv_start.
  induction Hrtc as [|p p1 p2 [Halive [Hs|Hs]] _ IH]; [done|apply IH; by eapply process_inv_step|].
  apply IH. by eapply process_inv_environment.
Qed.

Lemma returned_signalled p : process_reachable p → p_returned p = true → p_signalled p = true.
Proof. intros [_ Hx0 _ _ _ Hr]%process_reachable_inv. auto. Qed.

(** ** Stopping *)
Definition server_rank (sv : server_phase) : nat :=
  match sv with NotListening => 2 | Listening => 1 | ServerReturned => 0 end.

Definition shutdown_rank (sh : shutdown_phase) : nat :=
  match sh with NotCalled => 2 | Called => 1 | Finished_ => 0 end.

Definition process_measure (p : process) : nat :=
  service_measure (p_service p) + server_rank (p_server p) + shutdown_rank (p_shutdown p) +
  (if decide (0%nat ∈ (p_exits p).*1) then 0 else 1) + p_inflight p + if p_returned p then 0 else 1.

Lemma server_exit_measure p sv (ex : exits) :
  0%nat ∉ ex.*1 → (server_rank sv < server_rank (p_server p))%nat →
  (process_measure (set_server sv ex p) < process_measure p)%nat.
Proof.
  intros Hex Hsv. unfold process_measure. cbn.
  rewrite (decide_ext _ (0%nat ∈ (p_exits p).*1)); [lia|]. rewrite elem_of_exits_app. naive_solver.
Qed.

Lemma process_measure_step p p' :
  process_inv p → p_signalled p = true → own_step p p' → (process_measure p' < process_measure p)%nat.
Proof.
  intros Hinv Hsig [[Hc Hret] Hstep].
  destruct Hstep as [p s' Hs'|p e He Hne|p Hsv Hsh'|p e Hsv|p Hsv Hsh'|p Hint Hsh'|p Hsh' Hw|p n Hn|p e He Hsh'].
  - rewrite Hsig in Hs'. pose proof (pi_service _ Hinv) as Hs. rewrite Hsig in Hs.
    pose proof (service_measure_step interval _ _ Hs Hc Hs'). unfold process_measure. cbn. lia.
  - unfold process_measure. cbn. rewrite decide_True by (rewrite elem_of_exits_snoc; by right).
    rewrite decide_False by done. lia.
  - apply server_exit_measure; [apply not_elem_of_nil|]. rewrite Hsv. cbn. lia.
  - apply server_exit_measure; [cbn; by rewrite list_elem_of_singleton|]. by destruct (p_server p); cbn; try lia.
  - apply server_exit_measure; [cbn; by rewrite list_elem_of_singleton|]. by destruct (p_server p); cbn; try lia.
  - unfold process_measure. cbn. rewrite Hsh'. cbn. lia.
  - unfold process_measure. cbn. rewrite Hsh'. cbn. lia.
  - unfold process_measure. cbn. rewrite Hn. lia.
  - unfold process_measure. cbn. rewrite Hret. lia.
Qed.

Lemma process_progress p : process_inv p → p_signalled p = true → alive p → ∃ p', own_step p p'.
Proof.
  intros Hinv Hsig Halive. pose proof Hinv as [Hs Hx0 Hx1 Hex Hsh Hr]. rewrite Hsig in Hs.
  destruct (service_progress interval (p_service p) Hs) as [Hall|[s' Hs']].
  2: { eexists. split; [done|]. apply P_service. rewrite Hsig. exact Hs'. }
  destruct (result_all_exited 3 _ ltac:(lia) Hall) as [e He].
  destruct (decide (0%nat ∈ (p_exits p).*1)) as [Hin0|Hin0]; [|eexists; split; [done|by eapply P_service_return]].
  destruct (p_shutdown p) eqn:Hsd.
  - eexists. split; [done|]. apply P_interrupt; [|done]. apply interrupts_all; [|lia]. intros Hnil.
    rewrite Hnil in Hin0. by apply not_elem_of_nil in Hin0.
  - eexists. split; [done|]. apply P_shutdown_end; auto.
  - destruct (decide (p_server p = ServerReturned)) as [Hsv|Hsv].
    + destruct (result_all_exited 2 (p_exits p)) as [e' He']; [lia| |].
      { intros i Hi. assert (i = 0 ∨ i = 1)%nat as [-> | ->] by lia; [done|by apply Hx1]. }
      eexists. split; [done|]. by eapply P_return.
    + eexists. split; [done|]. apply P_server_closed; [done|]. by rewrite Hsd.
Qed.

Lemma own_step_inv p p' : process_inv p → own_step p p' → process_inv p' ∧ p_signalled p' = p_signalled p.
Proof. intros Hinv [Halive Hstep]. split; [by eapply process_inv_step|]. by destruct Hstep. Qed.

Lemma own_steps_inv p p' : process_inv p → rtc own_step p p' → process_inv p' ∧ p_signalled p' = p_signalled p.
Proof.
  intros Hinv Hsteps. induction Hsteps as [|p p1 p2 Hstep _ IH]; [done|].
  destruct (own_step_inv p p1 Hinv Hstep) as [Hinv1 Hsig]. rewrite <- Hsig. by apply IH.
Qed.

(** Termination by the measure. *)
Lemma signalled_sn p : process_inv p → p_signalled p = true → sn own_step p.
Proof.
  remember (process_measure p) as n eqn:Hn. revert p Hn.
  induction n as [n IH] using lt_wf_ind. intros p -> Hinv Hsig. constructor. intros p' Hstep.
  destruct (own_step_inv p p' Hinv Hstep) as [Hinv' Hsig'].
  apply (IH (process_measure p')); [by apply process_measure_step|done|done|congruence].
Qed.

(** ** Theorems *)

(** C16.  The server returns only after a signal, and then nil: neither a failure of
    the web server nor the end of a goroutine of the service stops it.  The
    web server is asked to shut down only in a context that is already done or
    after it has failed, so [Shutdown] never waits for requests. *)
Theorem returns_only_after_signal p :
  process_reachable p →
  (p_returned p = true → p_signalled p = true) ∧
  (p_shutdown p ≠ NotCalled → p_signalled p = true ∨ p_server p = ServerReturned) ∧
  (phase (s_wq (p_service p)) = Returned → p_signalled p = true) ∧
  (s_collector (p_service p) = CollectorReturned → p_signalled p = true).
Proof.
  intros [Hs Hx0 Hx1 Hex Hsh Hr]%process_reachable_inv. split; [auto|]. split; [|split].
  - intros Hn. destruct (Hex (Hsh Hn)) as [?|?]; [left; by apply Hx0|right; by apply Hx1].
  - intros Hph. pose proof (own_phase _ (si_own _ _ Hs)) as Hp. unfold phase_ok in Hp. rewrite Hph in Hp.
    rewrite <- (si_ctx _ _ Hs). by destruct Hp.
  - apply (si_stopped _ _ Hs).
Qed.

(** C13.  After a signal the process stops: no sequence of its own steps is infinite,
    and it only comes to rest by returning or by the crash of a goroutine. *)
Theorem shutdown_terminates p :
  process_reachable p → p_signalled p = true →
  sn own_step p ∧
  ∀ p', rtc own_step p p' → nf own_step p' → p_returned p' = true ∨ s_crashed (p_service p') = true.
Proof.
  intros Hinv%process_reachable_inv Hsig. split; [by apply signalled_sn|]. intros p' Hsteps Hnf.
  destruct (own_steps_inv p p' Hinv Hsteps) as [Hinv' Hsig'].
  destruct (p_returned p') eqn:Hr; [by left|]. destruct (s_crashed (p_service p')) eqn:Hc; [by right|].
  destruct Hnf. apply process_progress; [done|congruence|done].
Qed.

(** One step of a trace. *)
Ltac own_by tac := eapply rtc_l; [split; [split; reflexivity|left; tac]|].
Ltac env_by tac := eapply rtc_l; [split; [split; reflexivity|right; tac]|].

(** The web server can fail, for instance because its port is taken, without
    the process ending: it goes on without a web server until a signal comes. *)
Theorem web_failure_unnoticed e :
  ∃ p, process_reachable p ∧ p_exits p = [(1%nat, Some e)] ∧ p_server p = ServerReturned ∧
    ∀ p', rtc any_step p p' → p_signalled p' = false → p_returned p' = false.
Proof.
  eexists. split; [|split; [|split]].
  - exists 0%nat. own_by ltac:(by apply (P_server_error _ e)). apply rtc_refl.
  - reflexivity.
  - reflexivity.
  - intros p' Hsteps Hsig. destruct (p_returned p') eqn:Hr; [|done].
    enough (p_signalled p' = true) by congruence. apply returned_signalled; [|done].
    exists 0%nat. own_by ltac:(by apply (P_server_error _ e)). exact Hsteps.
Qed.

(** C39.  A synchronisation that is adding a job when the signal comes can crash the
    process: the work queue closes the channel on which the job is being sent. *)
Theorem shutdown_can_crash (job : Job) :
  ∃ p, process_reachable p ∧ p_signalled p = true ∧ s_crashed (p_service p) = true ∧ p_returned p = false.
Proof.
  eexists. split; [|split; [|split]].
  - exists 1%nat. own_by ltac:(apply P_service; eapply S_queue; [by left|by apply Run_start]).
    own_by ltac:(apply P_service; eapply S_add_call; [reflexivity|by apply (Add_test _ job [])]).
    own_by ltac:(apply P_service; eapply S_add; [reflexivity|by apply (Add_append _ [] job [] [] "id")]).
    env_by ltac:(apply E_signal).
    own_by ltac:(apply P_service; eapply S_queue; [by left|by apply Run_done]).
    own_by ltac:(apply P_service; eapply S_queue; [by left|by apply Run_shutdown_test]).
    own_by ltac:(apply P_service; eapply S_queue; [by left|by apply Run_shutdown]).
    own_by ltac:(apply P_service; eapply S_add; [reflexivity|by apply (Add_panic _ (newItem "id" job [])); [apply list_elem_of_here|]]).
    apply rtc_refl.
  - reflexivity.
  - reflexivity.
  - reflexivity.
Qed.

(** The calls of [Add] made before the work queue has started. *)
Lemma calls_before_start n k :
  rtc any_step
    (set_service (mkServiceRun (NewWorkQueue [WithName "yunikorn_data_sync"]) Connecting (Syncing n) [] k false) (process_start 0))
    (set_service (mkServiceRun (NewWorkQueue [WithName "yunikorn_data_sync"]) Connecting (Syncing 0) [] (k + n) false) (process_start 0)).
Proof.
  revert k. induction n as [|n IH]; intros k; [by rewrite Nat.add_0_r|].
  own_by ltac:(apply P_service; eapply S_add_call; [reflexivity|by apply Add_not_started]).
  rewrite <- Nat.add_succ_comm. apply IH.
Qed.

(** C40.  The first synchronisation races with the start of the work queue: all its
    jobs can be refused, and it does not run again before the first tick. *)
Theorem first_sync_can_be_lost jobs :
  0 < interval →
  ∃ p, process_reachable p ∧ s_calls (p_service p) = jobs ∧ added (s_wq (p_service p)) = [] ∧
    s_datasync (p_service p) = Waiting.
Proof.
  intros Hi. eexists. split; [|split; [|split]].
  - exists jobs. etrans; [apply (calls_before_start jobs 0)|].
    own_by ltac:(apply P_service; by eapply S_sync_end). apply rtc_refl.
  - cbn. unfold end_sync. rewrite decide_False, bool_decide_false by lia. done.
  - cbn. unfold end_sync. rewrite decide_False, bool_decide_false by lia. done.
  - cbn. unfold end_sync. rewrite decide_False, bool_decide_false by lia. done.
Qed.

End process.

(** ** An instance of the group *)
Definition sample_group : RunGroup := {|
  group_interrupts := λ n ex, match ex with [] => [] | _ => seq 0 n end;
  group_result := λ n ex, if bool_decide (Forall (λ i, i ∈ ex.*1) (seq 0 n)) then head ex.*2 else None;
|}.

Lemma sample_group_laws : @RunGroupLaws sample_group.
Proof.
  split; [done| |].
  - intros n [|x ex] i Hne Hi; [done|]. cbn. apply elem_of_seq. lia.
  - intros n ex e Hn. cbn.
    case_bool_decide as Hall; rewrite Forall_forall in Hall.
    + split; [|naive_solver]. intros Hh. split; [|done]. intros i Hi. apply Hall, elem_of_seq. lia.
    + split; [done|]. intros [Hex _]. destruct Hall. intros i Hi%elem_of_seq. apply Hex. lia.
Qed.

Definition sample_signalled : process (Job := nat) :=
  mkProcess true (service_cancel (service_start 0 (NewWorkQueue [WithName "yunikorn_data_sync"]))) NotListening NotCalled [] 0 false.

Lemma sample_signalled_reachable : @process_reachable sample_group nat 1 sample_signalled.
Proof. exists 0%nat. eapply rtc_l; [split; [split; reflexivity|right; apply E_signal]|apply rtc_refl]. Qed.

Lemma returns_only_after_signal_witness :
  (p_returned sample_signalled = true → p_signalled sample_signalled = true) ∧
  (p_shutdown sample_signalled ≠ NotCalled →
     p_signalled sample_signalled = true ∨ p_server sample_signalled = ServerReturned) ∧
  (phase (s_wq (p_service sample_signalled)) = Returned → p_signalled sample_signalled = true) ∧
  (s_collector (p_service sample_signalled) = CollectorReturned → p_signalled sample_signalled = true).
Proof.
  apply (@returns_only_after_signal sample_group sample_group_laws nat 1). apply sample_signalled_reachable.
Defined.

Lemma shutdown_terminates_witness :
  sn (@own_step sample_group nat 1) sample_signalled ∧
  ∀ p', rtc (@own_step sample_group nat 1) sample_signalled p' → nf (@own_step sample_group nat 1) p' →
    p_returned p' = true ∨ s_crashed (p_service p') = true.
Proof.
  apply (@shutdown_terminates sample_group sample_group_laws nat 1); [apply sample_signalled_reachable|reflexivity].
Defined.

Lemma web_failure_unnoticed_witness :
  ∃ p, @process_reachable sample_group nat 1 p ∧ p_exits p = [(1%nat, Some (ErrMsg "address already in use"))] ∧
    p_server p = ServerReturned ∧
    ∀ p', rtc (@any_step sample_group nat 1) p p' → p_signalled p' = false → p_returned p' = false.
Proof. apply (@web_failure_unnoticed sample_group sample_group_laws nat 1). Defined.

Lemma shutdown_can_crash_witness :
  ∃ p, @process_reachable sample_group nat 1 p ∧ p_signalled p = true ∧ s_crashed (p_service p) = true ∧
    p_returned p = false.
Proof. apply (@shutdown_can_crash sample_group nat 1 7%nat). Defined.

Lemma first_sync_can_be_lost_witness :
  ∃ p, @process_reachable sample_group nat 1 p ∧ s_calls (p_service p) = 6%nat ∧ added (s_wq (p_service p)) = [] ∧
    s_datasync (p_service p) = Waiting.
Proof. apply (@first_sync_can_be_lost sample_group nat 1 6). reflexivity. Defined.
