(* ===== verification/WebService.v ===== *)
(** * The web service

    Models [internal/webservice/webservice.go], [routes.go] and [response.go]:
    construction, start and routes of the server, one handler per route, the
    answers it can give, and the fallback that serves the files of the user
    interface.  A request is its path, its parsed query string, the path
    parameters that the router binds and its context; the router itself, CORS
    and the encoding to JSON are libraries: a response holds the value that is
    encoded.  The handlers are written against the interface [Repository]. *)
From S2P Require Import Prelude GoStrings FilePath SqlBuilder Dao Db QueueRepo AppRepo AppQuery StatusRepo Repository.
From S2P Require Import WebHelpers QueueInv QueueTree QueueGet Events Health QueueTheorems StatusTheorems RepoInv.
From S2P Require Import RestClient Config WorkQueue Logger.
From Stdlib Require Import Ascii.

(** [Detail] is the error whose [Error()] is sent. *)
Record ProblemDetails := mkProblemDetails {
  Type_ : string;
  Title : string;
  PStatus : Z;
  Detail : error;
  Instance_ : string;
}.

(** The values that the handlers encode. *)
Inductive payload :=
| Partitions (l : list PartitionInfo)
| Queues (l : list ModelQueue)
| Apps (l : list ModelApplication)
| Nodes (l : list NodeDAOInfo)
| AppsHistory (l : list ApplicationHistoryDAOInfo)
| ContainersHistory (l : list ContainerHistoryDAOInfo)
| NodeUtilizations (l : list PartitionNodesUtilDAOInfo)
| EventStatistics (counts : EventTypeCounts)
| LivenessReport (s : LivenessStatus)
| ReadinessReport (s : ReadinessStatus)
| Problem (p : ProblemDetails).

Record Response := mkResponse {
  StatusCode : Z;
  ContentType : option string;
  Body : payload;
}.

(** [json.NewEncoder(w).Encode(data)]: the status is 200 by default. *)
Definition jsonResponse (data : payload) : Response := mkResponse 200 None data.

Definition errorResponse (path : string) (err : error) : Response :=
  mkResponse 500 (Some "application/problem+json")
    (Problem (mkProblemDetails "about:blank" "Internal Server Error" 500 err path)).

Definition badRequestResponse (path : string) (err : error) : Response :=
  mkResponse 400 (Some "application/problem+json")
    (Problem (mkProblemDetails "about:blank" "Bad Request" 400 err path)).

Definition paramsPartitionName : string := "partition_name".
Definition paramsQueueName : string := "queue_name".

(** What [os.Stat] says about a path; on an error the file info is nil. *)
Inductive Stat :=
| StatFile (isDir : bool)
| StatNotExist
| StatError (e : error).

(** [health.Interface]: the reports that are made while a request is served. *)
Record health_Interface := mkHealthInterface {
  health_Liveness : LivenessStatus;
  health_Readiness : ReadinessStatus;
}.

Section web.
Context `{Env} `{Zap} (os_Stat : string → Stat).

(** What a handler sees of a request: its path, query, path parameters and
    context. *)
Record Request := mkRequest {
  URLPath : string;
  URLQuery : url_Values;
  ByName : string → string;
  RContext : go_context;
}.

Definition handler : Type := Request → M Response.

(** [x, err := f(); if err != nil { errorResponse; return }; jsonResponse(x)]. *)
Definition respond {A} (r : Request) (m : M A) (data : A → payload) : M Response :=
  catch (λ result, mret match result with
                        | Ok a => jsonResponse (data a)
                        | Err e => errorResponse (URLPath r) e
                        end) m.

Lemma run_respond {A} (r : Request) (m : M A) (data : A → payload) w :
  run (respond r m data) w =
    (Ok match (run m w).1 with Ok a => jsonResponse (data a) | Err e => errorResponse (URLPath r) e end, (run m w).2).
Proof. unfold respond. by rewrite run_catch. Qed.

(** ** The service *)

(** The handler of the server: the routes for GET, the handler for other paths,
    and the options of the CORS filter around them. *)
Record router := mkRouter {
  routes : list (string * handler);
  router_NotFound : string → Served;
  router_cors : CORSOptions;
}.

Record http_Server := mkServer {
  Addr : string;
  ReadTimeout : Z;
  Handler : option router;
}.

Record WebService := mkWebService {
  server : http_Server;
  repository : Repository;
  ws_eventRepository : InMemoryEventRepository;
  healthService : health_Interface;
  assetsDir : string;
  corsConfig : CORSOptions;
}.

Definition NewWebService (cfg : YHSConfig) (repository : Repository) (eventRepository : InMemoryEventRepository)
    (healthService : health_Interface) : WebService :=
  mkWebService (mkServer (Sprintf ":%d" [AnyInt (YHSPort cfg)]) (30 * Second) None) repository eventRepository
    healthService (AssetsDir cfg) (CORSConfig cfg).

(** [*r = *r.WithContext(ctx)] with the context of the service and a fresh
    request id. *)
Definition enrichRequestContext (Logger : option SugaredLogger) (ctx : go_context) (r : Request) : M Request :=
  let logger := FromContext Logger ctx in
  rid ← uuid_NewString;
  let logger := With logger "request_id" rid in
  let ctx := ToContext ctx logger in
  mret (mkRequest (URLPath r) (URLQuery r) (ByName r) ctx).

(** Whether [net/http] finds a directory at a path. *)
Definition is_dir (path : string) : bool := match os_Stat path with StatFile isDir => isDir | _ => false end.

(** [os.IsNotExist(err) || fi.IsDir()]: the second operand is evaluated for every
    other error, with a nil [fi]. *)
Definition serveSPA (assetsDir urlPath : string) : Served :=
  let path := filepath_Join [assetsDir; urlPath] in
  match os_Stat path with
  | StatNotExist => http_ServeFile is_dir urlPath (filepath_Join [assetsDir; "index.html"])
  | StatError _ => NilDereference
  | StatFile isDir =>
      if isDir then http_ServeFile is_dir urlPath (filepath_Join [assetsDir; "index.html"])
      else http_FileServer is_dir assetsDir urlPath
  end.

(** ** The handlers *)
Section handlers.
Context {R : Repository}.

Definition getPartitions : handler := λ r, respond r repo_GetAllPartitions Partitions.

Definition getQueuesPerPartition : handler := λ r,
  let partition := ByName r paramsPartitionName in
  respond r (repo_GetQueuesPerPartition partition) (λ q, Queues (default [] q)).

Definition getAppsPerPartitionPerQueue : handler := λ r,
  let partition := ByName r paramsPartitionName in
  let queue := ByName r paramsQueueName in
  match parseApplicationFilters (URLQuery r) with
  | Err e => mret (badRequestResponse (URLPath r) e)
  | Ok filters => respond r (repo_GetAppsPerPartitionPerQueue partition queue filters) Apps
  end.

Definition getNodesPerPartition : handler := λ r,
  respond r (repo_GetNodesPerPartition (ByName r paramsPartitionName)) Nodes.

Definition getAppsHistory : handler := λ r, respond r repo_GetApplicationsHistory AppsHistory.

Definition getContainersHistory : handler := λ r, respond r repo_GetContainersHistory ContainersHistory.

Definition getNodeUtilizations : handler := λ r, respond r repo_GetNodeUtilizations NodeUtilizations.

End handlers.

(** The event repository and the health service as they are when the request is
    served. *)
Definition getEventStatistics (events : InMemoryEventRepository) : handler := λ r,
  respond r (mret (Counts events)) EventStatistics.

Definition LivenessHealthcheck (health : health_Interface) : handler := λ _,
  mret (jsonResponse (LivenessReport (health_Liveness health))).

Definition ReadinessHealthcheck (health : health_Interface) : handler := λ _,
  mret (jsonResponse (ReadinessReport (health_Readiness health))).

(** ** Routes *)
Definition routePartitions : string := "/ws/v1/partitions".
Definition routeQueuesPerPartition : string := "/ws/v1/partition/:partition_name/queues".
Definition routeAppsPerPartitionPerQueue : string :=
  "/ws/v1/partition/:partition_name/queue/:queue_name/applications".
Definition routeAppsHistory : string := "/ws/v1/history/apps".
Definition routeContainersHistory : string := "/ws/v1/history/containers".
Definition routeNodesPerPartition : string := "/ws/v1/partition/:partition_name/nodes".
Definition routeNodeUtilization : string := "/ws/v1/scheduler/node-utilizations".
Definition routeEventStatistics : string := "/ws/v1/event-statistics".
Definition routeHealthLiveness : string := "/ws/v1/health/liveness".
Definition routeHealthReadiness : string := "/ws/v1/health/readiness".

(** The closure around each handler. *)
Definition enriched (Logger : option SugaredLogger) (ctx : go_context) (h : handler) : handler := λ r,
  r' ← enrichRequestContext Logger ctx r; h r'.

Definition init (Logger : option SugaredLogger) (ctx : go_context) (ws : WebService) : WebService :=
  let R := repository ws in
  let Handle path h := (path, enriched Logger ctx h) in
  let router :=
    [Handle routePartitions getPartitions;
     Handle routeQueuesPerPartition getQueuesPerPartition;
     Handle routeAppsPerPartitionPerQueue getAppsPerPartitionPerQueue;
     Handle routeNodesPerPartition getNodesPerPartition;
     Handle routeAppsHistory getAppsHistory;
     Handle routeContainersHistory getContainersHistory;
     Handle routeNodeUtilization getNodeUtilizations;
     Handle routeEventStatistics (getEventStatistics (ws_eventRepository ws));
     Handle routeHealthLiveness (LivenessHealthcheck (healthService ws));
     Handle routeHealthReadiness (ReadinessHealthcheck (healthService ws))] in
  let h := mkRouter router (serveSPA (assetsDir ws)) (corsConfig ws) in
  mkWebService (mkServer (Addr (server ws)) (ReadTimeout (server ws)) (Some h)) (repository ws)
    (ws_eventRepository ws) (healthService ws) (assetsDir ws) (corsConfig ws).

(** [Start] up to [ListenAndServe]. *)
Definition Start (Logger : option SugaredLogger) (ctx : go_context) (ws : WebService) : WebService :=
  init Logger (with_component Logger "webservice" ctx) ws.

(** The routes that the started server answers. *)
Definition served (ws : WebService) : list (string * handler) := from_option routes [] (Handler (server ws)).

Fixpoint find_route (path : string) (l : list (string * handler)) : option handler :=
  match l with
  | [] => None
  | (path', h) :: l' => if decide (path' = path) then Some h else find_route path l'
  end.

(** ** Handlers only read *)

(** The answers a handler can give. *)
Definition well_formed (r : Request) (resp : Response) : Prop :=
  (StatusCode resp = 200 ∧ ContentType resp = None ∧ ∀ p, Body resp ≠ Problem p) ∨
  ((StatusCode resp = 400 ∨ StatusCode resp = 500) ∧ ContentType resp = Some "application/problem+json" ∧
   ∃ title e, Body resp = Problem (mkProblemDetails "about:blank" title (StatusCode resp) e (URLPath r))).

Definition answers (r : Request) (res : result Response) : Prop := ∃ resp, res = Ok resp ∧ well_formed r resp.

Definition answers_ok (h : handler) : Prop := ∀ r, reads (h r) ∧ outcomes (answers r) (h r).

Lemma respond_ok {A} (m : M A) (data : A → payload) r :
  reads m → (∀ a p, data a ≠ Problem p) → reads (respond r m data) ∧ outcomes (answers r) (respond r m data).
Proof.
  intros Hm Hdata. split; [by apply keeps_catch|]. apply outcomes_catch. intros res. eexists. split; [done|].
  destruct res as [a|e].
  - left. split_and!; [done..|]. apply Hdata.
  - right. split_and!; [by right|done|]. by eexists _, _.
Qed.

(** Enriching the context changes neither the path nor the tables. *)
Lemma enriched_ok Logger ctx h : answers_ok h → answers_ok (enriched Logger ctx h).
Proof.
  intros Hh r. split.
  - intros w. split_and!; [done|split; cbn; lia|]. apply (Hh (mkRequest (URLPath r) (URLQuery r) (ByName r) _)).
  - intros w. apply (Hh (mkRequest (URLPath r) (URLQuery r) (ByName r) _)).
Qed.

Lemma init_answers_ok Logger ctx ws :
  RepositoryReads (repository ws) → Forall (λ p, answers_ok p.2) (served (init Logger ctx ws)).
Proof.
  intros HR. unfold served, init. cbn [Handler server from_option routes].
  repeat apply Forall_cons_2; try apply Forall_nil_2; cbn [snd]; apply enriched_ok; intros r.
  all: try (apply respond_ok; [by auto with reads|done]).
  - unfold getAppsPerPartitionPerQueue. destruct (parseApplicationFilters _) as [f|e].
    + apply respond_ok; [by auto with reads|done].
    + split; [done|]. eexists. split; [done|]. right. split_and!; [by left|done|]. by eexists _, _.
  - split; [done|]. eexists. split; [done|]. by left.
  - split; [done|]. eexists. split; [done|]. by left.
Qed.

(** C29.  Over any repository whose readers do not write: whatever the request,
    whatever happens to the statements and whatever other goroutines do between
    them, the handler of a route of the started server never changes a table and
    answers either with data and status 200, or with the status 400 or 500 and a
    problem document that repeats the status and names the path. *)
Theorem handlers_only_read Logger ctx ws pattern (h : handler) r :
  RepositoryReads (repository ws) → (pattern, h) ∈ served (Start Logger ctx ws) →
  reads (h r) ∧ outcomes (answers r) (h r).
Proof.
  intros HR Hin. pose proof (init_answers_ok Logger (with_component Logger "webservice" ctx) ws HR) as Hall.
  rewrite Forall_forall in Hall. apply (Hall _ Hin).
Qed.

(** ** The context of a request

    The logger names the component and the request.  The context ends with that
    of the service and not with the request's own: when a client goes away, its
    statements are not cancelled, and when the service is asked to stop, those
    of the requests being served are. *)
Theorem request_context Logger ctx r w :
  let ctx' := with_component Logger "webservice" ctx in
  ∃ r' w' rid, enrichRequestContext Logger ctx' r w = (Ok r', w') ∧ w_db w' = w_db w ∧
    FromContext Logger (RContext r') =
      With (With (FromContext Logger ctx) "component" "webservice") "request_id" rid ∧
    ∀ cancelled, Done_ cancelled (RContext r') = Done_ cancelled ctx.
Proof. by repeat eexists. Qed.

(** ** The files of the user interface *)

(** C20.  Whatever the request path and the file system, the file or the directory
    that the answer is made from is below the assets directory (whose name is not
    empty: [Config.New] puts a default there). *)
Theorem serveSPA_below dir u p : dir ≠ "" → served_from (serveSPA dir u) p → below dir p.
Proof.
  intros Hdir. unfold serveSPA, http_ServeFile, http_FileServer.
  assert (below dir (filepath_Join [dir; "index.html"])) as Hindex by (apply Join_name_below; done).
  assert (∀ name, below dir name → served_from (serve_file is_dir name) p → below dir p) as Hserve
    by (by intros name Hname ->%serve_file_from).
  repeat case_match; try (by intros [|]); apply Hserve; done || by apply http_Dir_Open_below.
Qed.

End web.

(** The answer to a path that does not climb is determined by the files below
    the directory. *)
Theorem serveSPA_local stat stat' dir u :
  dir ≠ "" → climbs u = false → (∀ p, below dir p → stat p = stat' p) → serveSPA stat dir u = serveSPA stat' dir u.
Proof.
  intros Hdir Hc Hstat. unfold serveSPA. rewrite Hstat by (by apply Join_no_climb_below).
  assert (∀ name, below dir name → serve_file (is_dir stat) name = serve_file (is_dir stat') name) as Hserve.
  { intros name Hname. unfold serve_file, is_dir. by rewrite Hstat. }
  unfold http_ServeFile, http_FileServer.
  by rewrite (Hserve _ (Join_name_below _ "index.html" Hdir ltac:(done))), (Hserve _ (http_Dir_Open_below _ _ Hdir)).
Qed.

(** The answer to a path that climbs tells whether a file outside the directory
    exists. *)
Theorem serveSPA_reveals :
  ∃ stat stat', (∀ p, below "assets" p → stat p = stat' p) ∧
    serveSPA stat "assets" "/../secret" = BadURLPath ∧
    serveSPA stat' "assets" "/../secret" = FileAt "assets/secret".
Proof.
  exists (λ _, StatNotExist), (λ p, if decide (p = "secret") then StatFile false else StatNotExist).
  split; [|vm_compute; done]. intros p [_ (os & _ & Hp)]. rewrite decide_False; [done|]. intros ->.
  assert (path_elements "secret" = ["secret"]) as H1 by reflexivity.
  assert (path_elements "assets" = ["assets"]) as H2 by reflexivity. rewrite H1, H2 in Hp. discriminate Hp.
Qed.

(** ** The applications of a queue *)

(** A numeric parameter that is given and is not a 64-bit number. *)
Definition malformed (q : url_Values) (key : string) : Prop :=
  Get q key ≠ "" ∧ is_ok (strconv_Atoi (Get q key)) = false.

Lemma parse_int_with_is_ok fn fn' bits s : is_ok (parse_int_with fn bits s) = is_ok (parse_int_with fn' bits s).
Proof.
  unfold parse_int_with. destruct (parse_sign s) as [neg digits]. destruct digits; [done|].
  destruct (parse_uint _ _ _); [done|]. by destruct neg; case_bool_decide.
Qed.

Lemma int_param q key :
  is_ok (if decide (Get q key = "") then Ok None else toInt (Get q key)) = false ↔ malformed q key.
Proof.
  unfold malformed, toInt. case_decide as Hd; [naive_solver|].
  destruct (strconv_Atoi (Get q key)) eqn:He; naive_solver.
Qed.

Lemma time_param q key :
  is_ok (if decide (Get q key = "") then Ok None else toTime (Get q key)) = false ↔ malformed q key.
Proof.
  unfold malformed, toTime, strconv_ParseInt, strconv_Atoi. rewrite (parse_int_with_is_ok "Atoi" "ParseInt").
  case_decide as Hd; [naive_solver|]. destruct (parse_int_with "ParseInt" 64 (Get q key)); naive_solver.
Qed.

Lemma is_ok_bind {A B} (r : result A) (f : A → result B) :
  is_ok (r ≫= f) = false ↔ is_ok r = false ∨ ∃ a, r = Ok a ∧ is_ok (f a) = false.
Proof. destruct r; cbn; naive_solver. Qed.

Definition numeric_params : list string :=
  [queryParamSubmissionStartTime; queryParamSubmissionEndTime; queryParamOffset; queryParamLimit].

Lemma parse_fails q : is_ok (parseApplicationFilters q) = false ↔ Exists (malformed q) numeric_params.
Proof.
  unfold numeric_params. rewrite !Exists_cons, Exists_nil.
  rewrite <- (time_param q queryParamSubmissionStartTime), <- (time_param q queryParamSubmissionEndTime),
    <- (int_param q queryParamOffset), <- (int_param q queryParamLimit).
  unfold parseApplicationFilters. rewrite !is_ok_bind.
  fold (getSubmissionStartTimeQueryParam q) (getSubmissionEndTimeQueryParam q) (getOffsetQueryParam q)
    (getLimitQueryParam q).
  destruct (getSubmissionStartTimeQueryParam q); [|naive_solver].
  destruct (getSubmissionEndTimeQueryParam q) eqn:?; [|naive_solver].
  destruct (getOffsetQueryParam q); [|naive_solver]. destruct (getLimitQueryParam q); naive_solver.
Qed.

Section apps.
Context `{EnvLaws} `{Zap}.

(** The endpoint answers 400 exactly if a numeric parameter is given and is
    not a 64-bit number; then no statement has been sent. *)
Theorem bad_request_iff {R : Repository} r w :
  ((∃ resp, (getAppsPerPartitionPerQueue r w).1 = Ok resp ∧ StatusCode resp = 400) ↔
   Exists (malformed (URLQuery r)) numeric_params) ∧
  (Exists (malformed (URLQuery r)) numeric_params → (getAppsPerPartitionPerQueue r w).2 = w).
Proof.
  rewrite <- parse_fails. unfold getAppsPerPartitionPerQueue.
  destruct (parseApplicationFilters (URLQuery r)) as [f|e]; (split; [|done]).
  - split; [|done]. intros (resp & Hr & Hs). rewrite run_respond in Hr.
    destruct (repo_GetAppsPerPartitionPerQueue _ _ f w) as [[]]; cbn in Hr; by simplify_eq.
  - split; [done|]. intros _. by eexists.
Qed.

(** The implementation over PostgreSQL. *)
Context (int8in : string → option Z).

Lemma endpoint_answer r f w :
  env_db (w_calls w) = Delivered → parseApplicationFilters (URLQuery r) = Ok f →
  Forall (λ g, no_char "'"%char g = true) (FGroups f) →
  ∃ all,
    complete_answer (t_applications (w_db w))
      (λ row, a_queue_name row = ByName r paramsQueueName ∧ a_partition row = ByName r paramsPartitionName ∧
              matches f row) all ∧
    (getAppsPerPartitionPerQueue (R := PostgresRepository int8in) r w).1 = Ok (jsonResponse (Apps (scan_app <$> page (FLimit f) (FOffset f) all))).
Proof.
  intros Hd Hp Hg. unfold getAppsPerPartitionPerQueue. rewrite Hp.
  destruct (queue_applications_mean (ByName r paramsPartitionName) (ByName r paramsQueueName) f Hg) as (Hc & Ho & Hl & Hoff).
  destruct (wp_query_applications _ _ w Hc Ho Hd) as (_ & all & Hall & Hr).
  exists all. split; [done|]. rewrite run_respond. cbn [repo_GetAppsPerPartitionPerQueue PostgresRepository].
  unfold GetAppsPerPartitionPerQueue. rewrite Hl, Hoff in Hr.
  destruct (query_applications _ w) as [res w']. cbn in Hr. by subst res.
Qed.

(** C9.  With the statement delivered, a request whose parameters express the
    filters [f], where no group name holds a single quote, is answered with the
    requested page of the applications of that partition and queue that match
    [f], latest submission first.  (A group name with a quote becomes SQL text:
    [AppTheorems.group_is_sql].) *)
Theorem applications_endpoint r f w :
  env_db (w_calls w) = Delivered → URLQuery r = encode_filters f → expressible f →
  Forall (λ g, no_char "'"%char g = true) (FGroups f) →
  ∃ all,
    complete_answer (t_applications (w_db w))
      (λ row, a_queue_name row = ByName r paramsQueueName ∧ a_partition row = ByName r paramsPartitionName ∧
              matches f row) all ∧
    (getAppsPerPartitionPerQueue (R := PostgresRepository int8in) r w).1 = Ok (jsonResponse (Apps (scan_app <$> page (FLimit f) (FOffset f) all))).
Proof. intros Hd Hq Hex Hg. apply endpoint_answer; [done| |done]. rewrite Hq. by apply parse_encode. Qed.

(** The bound on the recursion suffices: the queues endpoint answers with the
    whole forest of the partition. *)
Lemma queues_endpoint r w :
  queues_wf w → env_db (w_calls w) = Delivered →
  ∃ F, (getQueuesPerPartition (R := PostgresRepository int8in) r w).1 = Ok (jsonResponse (Queues F)) ∧
    is_partition_forest (ByName r paramsPartitionName) w F.
Proof.
  intros Hwf Hd.
  destruct (wp_GetQueuesPerPartition (S (length (t_queues (w_db w)))) (ByName r paramsPartitionName) w Hwf Hd)
    as (F & Hr & HF & _).
  { unfold partition_rows. apply Nat.lt_succ_r, length_filter. }
  exists F. split; [|done]. unfold getQueuesPerPartition. rewrite run_respond. cbn [repo_GetQueuesPerPartition PostgresRepository].
  rewrite run_bounded. unfold rows_bound. cbv beta in Hr. by rewrite Hr.
Qed.

(** The other endpoints, and what their answers hold. *)
Definition ReadsRows {A B} (rows : db → list A) (scan : A → B) (data : list B → payload) (w : world) (resp : Response) : Prop :=
  ∃ l, resp = jsonResponse (data l) ∧ l ≡ₚ scan <$> rows (w_db w).

Lemma rows_endpoint {A B} (rows : db → list A) (scan : A → B) (data : list B → payload) err r w :
  env_db (w_calls w) = Delivered →
  answers_at (respond r (rs ← map_err (ErrPrefix err) (query rows); mret (scan <$> rs)) data) (ReadsRows rows scan data) w.
Proof.
  intros Hd. apply one_action_answers.
  - apply one_action_catch; [|by eexists]. apply one_action_bind; [|by eexists].
    apply one_action_map_err, one_action_atomic.
  - rewrite run_respond. cbn. by rewrite Hd.
  - rewrite run_respond. eexists. split; [done|]. cbn. rewrite Hd. cbn. eexists. split; [done|].
    apply fmap_Permutation, env_scan_perm.
Qed.

(** C10.  Every endpoint that reads the database does so in one action, and with the
    statement delivered it answers with exactly what the tables hold at that
    moment, whatever is written before and after: partitions, the nodes of the
    partition of the request, both histories and the utilizations without further
    conditions; the forest of queues of the partition if the table of queues is
    well formed, as it is in every database that the calls of the program produce; and the page
    of the matching applications, latest first, if the parameters can be parsed
    and no group name holds a single quote. *)
Theorem endpoints_answer r w :
  env_db (w_calls w) = Delivered →
  let R := PostgresRepository int8in in
  answers_at (getPartitions r) (ReadsRows t_partitions scan_partition Partitions) w ∧
  answers_at (getNodesPerPartition r)
    (ReadsRows (λ d, filter (λ row, n_partition row = ByName r paramsPartitionName) (t_nodes d)) scan_node Nodes) w ∧
  answers_at (getAppsHistory r)
    (ReadsRows (λ d, filter (λ row, h_type row = application) (t_history d))
       (λ row, mkApplicationHistoryDAOInfo (h_timestamp row) (pretty (h_total_number row))) AppsHistory) w ∧
  answers_at (getContainersHistory r)
    (ReadsRows (λ d, filter (λ row, h_type row = container) (t_history d))
       (λ row, mkContainerHistoryDAOInfo (h_timestamp row) (pretty (h_total_number row))) ContainersHistory) w ∧
  answers_at (getNodeUtilizations r) (ReadsRows t_nodes_util scan_util NodeUtilizations) w ∧
  (queues_wf w → answers_at (getQueuesPerPartition r)
    (λ w resp, ∃ F, resp = jsonResponse (Queues F) ∧ is_partition_forest (ByName r paramsPartitionName) w F) w) ∧
  (∀ f, parseApplicationFilters (URLQuery r) = Ok f → Forall (λ g, no_char "'"%char g = true) (FGroups f) →
   answers_at (getAppsPerPartitionPerQueue r)
    (λ w resp, ∃ all, resp = jsonResponse (Apps (scan_app <$> page (FLimit f) (FOffset f) all)) ∧
       complete_answer (t_applications (w_db w))
         (λ row, a_queue_name row = ByName r paramsQueueName ∧ a_partition row = ByName r paramsPartitionName ∧
                 matches f row) all) w).
Proof.
  intros Hd R. do 5 (split; [by apply rows_endpoint|]). split.
  - intros Hwf. destruct (queues_endpoint r w Hwf Hd) as (F & HF & Hforest). apply one_action_answers.
    + apply one_action_catch; [|by eexists]. apply one_action_bounded. intros fuel. unfold GetQueuesPerPartition.
      apply one_action_bind; [apply one_action_map_err, one_action_atomic|]. intros rows. destruct (group_rows _). by eexists.
    + apply reads_run. apply (respond_ok _ _ r); [apply reads_GetQueuesPerPartition|done].
    + eexists. split; [exact HF|]. by exists F.
  - intros f Hf Hg. destruct (endpoint_answer r f w Hd Hf Hg) as (all & Hall & Hr).
    assert (getAppsPerPartitionPerQueue r = respond r (repo_GetAppsPerPartitionPerQueue (ByName r paramsPartitionName)
      (ByName r paramsQueueName) f) Apps) as Heq by (unfold getAppsPerPartitionPerQueue; by rewrite Hf).
    apply one_action_answers.
    + rewrite Heq. apply one_action_catch; [|by eexists].
      cbn [repo_GetAppsPerPartitionPerQueue PostgresRepository R]. unfold GetAppsPerPartitionPerQueue, query_applications.
      apply one_action_bind; [|by eexists]. apply one_action_map_err, one_action_bind; [apply one_action_atomic|].
      intros [l|e]; by eexists.
    + rewrite Heq. apply reads_run. apply (respond_ok _ _ r); [apply reads_GetAppsPerPartitionPerQueue|done].
    + eexists. split; [exact Hr|]. by exists all.
Qed.

Lemma page_nil lim off : page lim off [] = [].
Proof. unfold page. case_bool_decide; [done|]. rewrite drop_nil. destruct lim; [apply take_nil|done]. Qed.

(** C34.  A request without the parameter [groups] asks for the applications of the
    group with the empty name: with the statement delivered and the numeric
    parameters well formed, the answer is an empty list unless some stored
    application has a group with an empty name. *)
Theorem no_groups_no_applications r w :
  env_db (w_calls w) = Delivered → Get (URLQuery r) queryParamGroups = "" →
  ¬ Exists (malformed (URLQuery r)) numeric_params →
  Forall (λ row, "" ∉ default [] (a_groups row)) (t_applications (w_db w)) →
  (getAppsPerPartitionPerQueue (R := PostgresRepository int8in) r w).1 = Ok (jsonResponse (Apps [])).
Proof.
  intros Hd Hq Hok%(not_iff_compat (parse_fails (URLQuery r))) Hrows.
  destruct (parseApplicationFilters (URLQuery r)) as [f|] eqn:Hp; [|done].
  pose proof (absent_groups _ _ Hq Hp) as Hg.
  destruct (endpoint_answer r f w Hd Hp) as (all & (_ & Hall & _) & ->).
  { rewrite Hg. by apply Forall_singleton. }
  destruct all as [|row all]; [by rewrite page_nil|].
  destruct (proj1 (Hall row) (list_elem_of_here _ _)) as (Hin & _ & _ & Hm).
  rewrite Forall_forall in Hrows. specialize (Hrows row Hin).
  pose proof (match_groups _ _ Hm) as Hex. rewrite Hg in Hex. specialize (Hex ltac:(done)).
  unfold known in Hex. destruct (a_groups row) as [l|]; [|done]. cbn in Hrows.
  apply Exists_exists in Hex as (g & Hgl & ->%list_elem_of_singleton). done.
Qed.

End apps.

(** ** Sample requests *)
Definition sample_filters : ApplicationFilters :=
  mkApplicationFilters (Some (time_UnixMilli 1)) None None None (Some "alice") ["dev"; "ops"] None (Some 10).

Definition sample_request (q : url_Values) : @Request sample_zap :=
  mkRequest "/ws/v1/partition/default/queue/root.system/applications" q
    (λ name, if decide (name = paramsPartitionName) then "default" else "root.system") Background.

Definition sample_repository : Repository := @PostgresRepository ideal_env sample_int8in.

(** One application of the groups [dev] is stored. *)
Definition stored_world : world := (@UpsertApplications ideal_env [sample_app] sample_world).2.

Lemma stored_groups : a_groups <$> t_applications (w_db stored_world) = [Some ["dev"]].
Proof. vm_compute. reflexivity. Qed.

Definition sample_health : health_Interface :=
  mkHealthInterface (mkLivenessStatus (mkCommon "host" 0 0 "v1") true)
    (mkReadinessStatus (mkCommon "host" 0 0 "v1") true []).

Definition sample_web_service : @WebService sample_zap :=
  NewWebService (mkYHSConfig 8989 "assets" (5 * Minute) (mkCORSOptions [] [] [])) sample_repository
    NewInMemoryEventRepository sample_health.

Example sample_address : Addr (server sample_web_service) = ":8989".
Proof. reflexivity. Qed.

Lemma handlers_only_read_witness :
  let h := @enriched ideal_env sample_zap None (@with_component sample_zap None "webservice" Background)
             (getPartitions (R := sample_repository)) in
  reads (h (sample_request ∅)) ∧ outcomes (answers (sample_request ∅)) (h (sample_request ∅)).
Proof.
  apply (@handlers_only_read ideal_env sample_zap (λ _, StatNotExist) None Background sample_web_service routePartitions).
  - apply PostgresRepository_reads.
  - apply list_elem_of_here.
Defined.

Lemma endpoints_answer_witness :
  answers_at (getPartitions (R := sample_repository) (sample_request ∅))
    (ReadsRows t_partitions scan_partition Partitions) sample_world.
Proof.
  apply (@endpoints_answer ideal_env ideal_laws sample_zap sample_int8in (sample_request ∅) sample_world). reflexivity.
Defined.

Lemma serveSPA_below_witness : below "assets" "assets/css/main.css".
Proof.
  apply (serveSPA_below (λ _, StatFile false) "assets" "/css/main.css"); [discriminate|left; vm_compute; reflexivity].
Defined.

Lemma serveSPA_local_witness :
  serveSPA (λ p, if decide (p = "secret") then StatFile false else StatNotExist) "assets" "/app/queues" =
  serveSPA (λ _, StatNotExist) "assets" "/app/queues".
Proof.
  apply serveSPA_local; [discriminate|reflexivity|]. intros p [_ (os & _ & Hp)]. rewrite decide_False; [reflexivity|].
  intros ->. vm_compute in Hp. discriminate Hp.
Defined.

Lemma sample_filters_expressible : expressible sample_filters.
Proof.
  split; try done; [by exists 1|]. by repeat apply Forall_cons_2.
Qed.

Lemma applications_endpoint_witness :
  ∃ all,
    complete_answer (t_applications (w_db stored_world))
      (λ row, a_queue_name row = "root.system" ∧ a_partition row = "default" ∧ matches sample_filters row) all ∧
    (@getAppsPerPartitionPerQueue sample_zap sample_repository (sample_request (encode_filters sample_filters)) stored_world).1 =
      Ok (jsonResponse (Apps (scan_app <$> page (Some 10) None all))).
Proof.
  apply (@applications_endpoint ideal_env ideal_laws sample_zap sample_int8in (sample_request (encode_filters sample_filters)) sample_filters
    stored_world); [reflexivity|reflexivity|apply sample_filters_expressible|].
  apply Forall_cons_2; [reflexivity|]. apply Forall_cons_2; [reflexivity|apply Forall_nil_2].
Defined.

Lemma no_groups_no_applications_witness :
  (@getAppsPerPartitionPerQueue sample_zap sample_repository (sample_request ∅) stored_world).1 = Ok (jsonResponse (Apps [])).
Proof.
  apply (@no_groups_no_applications ideal_env ideal_laws sample_zap sample_int8in (sample_request ∅) stored_world).
  - reflexivity.
  - reflexivity.
  - intros Hex. unfold numeric_params in Hex. rewrite !Exists_cons, Exists_nil in Hex.
    destruct Hex as [[Hx _]|[[Hx _]|[[Hx _]|[[Hx _]|Hx]]]]; (exact Hx || exact (Hx eq_refl)).
  - apply (proj1 (Forall_fmap a_groups (λ g, "" ∉ default [] g) _)). rewrite stored_groups. apply Forall_singleton.
    intros Hin%list_elem_of_singleton. discriminate.
Defined.

(** With an error other than a missing file, such as a name that is too long, the
    file info is nil and the request is aborted by a panic. *)
Example serveSPA_long_name :
  serveSPA (λ p, if decide (p = "assets/long") then StatError (ErrMsg "file name too long") else StatFile false)
    "assets" "/long" = NilDereference.
Proof. vm_compute. reflexivity. Qed.
