(* ===== verification/Commands.v ===== *)
(** * The command and the wiring of the components

    Models [cmd/yunikorn-history-server]: the root command, [Run] up to the point
    where the actors start (their run is [Process]) and [main].  The components
    are built and connected as in the source; the event repository is one object
    that the service writes and the web service reads.  cobra parses the command
    line, and [pgxpool_New] is what [pgxpool.New] says about a connection string. *)
From S2P Require Import Prelude GoStrings FilePath SqlBuilder Dao Db QueueRepo AppRepo StatusRepo Repository WebHelpers.
From S2P Require Import Events EventTheorems Health RestClient Config WorkQueue Logger WebService.
From S2P Require Import QueueTheorems StatusTheorems RepoInv.

(** ** [global.go] and [info.go] *)
Definition ConfigFile : string := "".
Definition MigrationsDir : string := "migrations".
Definition info_Version : string := "0.0.0-dev".

(** ** [Run] *)
Section run.
Context `{Env} `{Zap} (int8in : string → option Z) (pgxpool_New : string → option error).

(** [postgres.NewConnectionPool]. *)
Definition NewConnectionPool (cfg : PostgresConfig) : option error :=
  pgxpool_New (buildConnectionInfoFromConfig cfg).

(** What the actors work with. *)
Record wiring := mkWiring {
  w_service : Service;
  w_client : RESTClient;
  w_web : WebService;
}.

(** [Run] returns before its actors start, panics, or starts them. *)
Inductive outcome :=
| Exited (err : option error)
| Panicked_
| Serving (x : wiring).

(** [health.New(info.Version, ...)], with what the checks return when they are
    made. *)
Definition wired_health {Report} (startedAt : Z) (healthcheck : result Report) (select_1 : result ()) :
    HealthService Report :=
  health_New startedAt info_Version [YunikornComponent healthcheck; PostgresComponent select_1].

Definition Run (cfg : Config) (health : health_Interface) : outcome :=
  let Logger := initialise (c_log cfg) in
  match Enabled Logger InfoLevel with
  | None => Panicked_
  | Some _ =>
      match NewConnectionPool (c_postgres cfg) with
      | Some err => Exited (Some (ErrWrap "cannot parse Postgres connection config: " err))
      | None =>
          match NewPostgresRepository int8in with
          | Err err => Panicked_
          | Ok mainRepository =>
              let eventRepository := NewInMemoryEventRepository in
              let client := NewRESTClient (c_yunikorn cfg) in
              let service := NewService eventRepository [WithSyncInterval (DataSyncInterval (c_yhs cfg))] in
              let ws := NewWebService (c_yhs cfg) mainRepository eventRepository health in
              Serving (mkWiring service client ws)
          end
      end
  end.

(** [RunE] of the root command, for what [config.New] returns. *)
Definition rootCmd_RunE (cfg : result Config) (health : health_Interface) : outcome :=
  match cfg with
  | Err err => Exited (Some err)
  | Ok cfg => Run cfg health
  end.

(** [main]: the exit status for what [ExecuteContext] returns. *)
Definition main (executed : option error) : Z :=
  match executed with Some _ => 1 | None => 0 end.

(** The web service when the service has come to [s] and the health service
    reports [health]: the event repository is shared. *)
Definition web_at (s : Service) (health : health_Interface) (ws : WebService) : WebService :=
  mkWebService (server ws) (repository ws) (eventRepository s) health (assetsDir ws) (corsConfig ws).

(** ** Theorems *)

(** C19.  When the server starts: it panics, at its first log line, exactly if the
    log level cannot be read; it exits exactly if the level can be read and pgx
    refuses the connection string, with an error that wraps that of pgx; and
    everything else starts, with the interval and the port of the configuration,
    whether or not the database and the scheduler can be reached. *)
Theorem Run_starts `{!ZapLaws} cfg health :
  (Run cfg health = Panicked_ ↔ parseLevel ParseLevel (LogLevel (c_log cfg)) = None) ∧
  (∀ err, Run cfg health = Exited err ↔
     parseLevel ParseLevel (LogLevel (c_log cfg)) ≠ None ∧
     ∃ e, pgxpool_New (buildConnectionInfoFromConfig (c_postgres cfg)) = Some e ∧
          err = Some (ErrWrap "cannot parse Postgres connection config: " e)) ∧
  (parseLevel ParseLevel (LogLevel (c_log cfg)) ≠ None →
   pgxpool_New (buildConnectionInfoFromConfig (c_postgres cfg)) = None →
   ∃ x, Run cfg health = Serving x ∧ syncInterval (w_service x) = DataSyncInterval (c_yhs cfg) ∧
        Addr (server (w_web x)) = ":" +:+ pretty (YHSPort (c_yhs cfg)) ∧
        repository (w_web x) = PostgresRepository int8in ∧
        ws_eventRepository (w_web x) = eventRepository (w_service x)).
Proof.
  pose proof (initialise_level (c_log cfg) InfoLevel) as Hlevel. unfold Run, NewConnectionPool.
  destruct (parseLevel _ _) as [l|]; rewrite Hlevel; [|split; [done|split; naive_solver]].
  destruct (pgxpool_New _) as [e'|]; cbn [NewPostgresRepository].
  - split; [done|]. split; [|done]. naive_solver.
  - split; [done|]. split; [naive_solver|]. intros _ _. eexists. split_and!; try done. cbn. by rewrite string_app_nil_r.
Qed.

Context `{!SI} (answers : nat → result (option ApplicationDAOInfo)).

(** The handler that the started server has for a path. *)
Definition answer_at (stat : string → Stat) (Logger : option SugaredLogger) (ctx : go_context) (ws : WebService)
    (path : string) (r : Request) : M (option Response) :=
  match find_route path (served (Start stat Logger ctx ws)) with
  | Some h => resp ← h r; mret (Some resp)
  | None => mret None
  end.

(** C18.  From the event stream to the statistics: after the service has handled any
    events, the started web service answers with the number of events of each
    key. *)
Theorem event_statistics_endpoint cfg health health' x evs w Logger ctx stat r :
  Run cfg health = Serving x → Z.of_nat (length evs) < 2 ^ 63 →
  ∃ s' w' m, handle_and_record_all answers evs (w_service x) w = (Ok s', w') ∧
    (answer_at stat Logger ctx (web_at s' health' (w_web x)) routeEventStatistics r w').1 =
      Ok (Some (jsonResponse (EventStatistics m))) ∧
    ∀ k, default 0 (m !! k) = Z.of_nat (count_events k evs).
Proof.
  intros Hrun Hlen. destruct (handle_and_record_all_ok answers evs (w_service x) w) as (s' & w' & Heq & Hrep).
  exists s', w', (Counts (eventRepository s')). split; [done|]. split; [done|]. intros k. rewrite Counts_copy, Hrep.
  assert (eventRepository (w_service x) = NewInMemoryEventRepository) as ->.
  { unfold Run in Hrun. repeat case_match; simplify_eq. done. }
  rewrite record_all_count; cbn [counts NewInMemoryEventRepository]; rewrite lookup_empty; cbn [default from_option];
    unfold count_events; pose proof (length_filter (λ e, getKey e = k) evs); lia.
Qed.

End run.

Section probes.
Context `{Env} `{Zap}.

(** From the checks to the probe: the readiness route of the started server
    reports ready exactly if the scheduler and the database answered, and names
    both components. *)
Theorem readiness_endpoint {Report} ws hostname now startedAt (hc : result Report) select_1 live ready s w Logger ctx stat r :
  Readiness hostname now (wired_health startedAt hc select_1) ready →
  (answer_at stat Logger ctx (web_at s (mkHealthInterface live ready) ws) routeHealthReadiness r w).1 =
    Ok (Some (jsonResponse (ReadinessReport ready))) ∧
  (RHealthy ready = true ↔ is_ok hc = true ∧ is_ok select_1 = true) ∧
  Identifier <$> ComponentStatuses ready ≡ₚ ["yunikorn"; "postgres"].
Proof.
  intros [order Ho]. split; [done|]. cbn [NewReadinessStatus RHealthy ComponentStatuses]. split.
  - rewrite all_healthy_spec, Forall_fmap, Ho. cbn. rewrite !Forall_cons. unfold compose. rewrite !Check_Healthy. cbn.
    split; [naive_solver|]. intros []. split_and!; [done|done|apply Forall_nil_2].
  - rewrite Ho. cbn. destruct hc, select_1; cbn; reflexivity.
Qed.

End probes.

(** ** Instances *)
Definition sample_config : Config :=
  mkConfig (mkYHSConfig 8989 "assets" (5 * Minute) (mkCORSOptions [] [] []))
    (mkPostgresConfig "db" "yhs" "user" "secret" 0 0 5432 10 2 "disable" "public") (mkYunikornConfig "yk" 9080 false)
    (mkLogConfig "info" false).

Definition sample_pgx (info : string) : option error := None.

Lemma Run_starts_witness :
  (∃ x, @Run ideal_env sample_zap sample_int8in sample_pgx sample_config sample_health = Serving x ∧
    syncInterval (w_service x) = 5 * Minute ∧ Addr (server (w_web x)) = ":" +:+ pretty 8989 ∧
    repository (w_web x) = @PostgresRepository ideal_env sample_int8in ∧
    ws_eventRepository (w_web x) = eventRepository (w_service x)) ∧
  @Run ideal_env sample_zap sample_int8in (λ _, Some (ErrMsg "invalid sslmode")) sample_config sample_health =
    Exited (Some (ErrWrap "cannot parse Postgres connection config: " (ErrMsg "invalid sslmode"))).
Proof.
  split.
  - apply (@Run_starts ideal_env sample_zap sample_int8in sample_pgx sample_zap_laws sample_config sample_health);
      [discriminate|reflexivity].
  - apply (@Run_starts ideal_env sample_zap sample_int8in (λ _, Some (ErrMsg "invalid sslmode")) sample_zap_laws
      sample_config sample_health). split; [discriminate|]. exists (ErrMsg "invalid sslmode"). split; reflexivity.
Defined.

(** A level that zap cannot read: the server does not come up. *)
Example unknown_level_panics :
  @Run ideal_env sample_zap sample_int8in sample_pgx
    (mkConfig (c_yhs sample_config) (c_postgres sample_config) (c_yunikorn sample_config) (mkLogConfig "verbose" false))
    sample_health = Panicked_.
Proof. reflexivity. Qed.

Definition sample_wiring : @wiring sample_zap :=
  mkWiring (NewService NewInMemoryEventRepository [WithSyncInterval (5 * Minute)]) (NewRESTClient (c_yunikorn sample_config))
    (NewWebService (c_yhs sample_config) (@PostgresRepository ideal_env sample_int8in) NewInMemoryEventRepository sample_health).

Lemma event_statistics_endpoint_witness :
  ∃ s' w' m,
    @handle_and_record_all ideal_env sample_SI no_answers [sample_event APP_RUNNING 1; sample_event APP_COMPLETED 2]
      (w_service sample_wiring) empty_world = (Ok s', w') ∧
    (@answer_at ideal_env sample_zap (λ _, StatNotExist) None Background (web_at s' sample_health (w_web sample_wiring))
       routeEventStatistics (sample_request ∅) w').1 = Ok (Some (jsonResponse (EventStatistics m))) ∧
    ∀ k, default 0 (m !! k) =
      Z.of_nat (@count_events sample_SI k [sample_event APP_RUNNING 1; sample_event APP_COMPLETED 2]).
Proof.
  apply (@event_statistics_endpoint ideal_env sample_zap sample_int8in sample_pgx sample_SI no_answers sample_config
    sample_health); reflexivity.
Defined.

Lemma readiness_endpoint_witness :
  let ready := NewReadinessStatus "host" 7 5 info_Version
    [Check_ (H := ()) (PostgresComponent (Ok ())); Check_ (H := ()) (YunikornComponent (Err (ErrMsg "refused")))] in
  (@answer_at ideal_env sample_zap (λ _, StatNotExist) None Background
     (web_at (w_service sample_wiring) (mkHealthInterface (health_Liveness sample_health) ready) (w_web sample_wiring))
     routeHealthReadiness (sample_request ∅) empty_world).1 = Ok (Some (jsonResponse (ReadinessReport ready))) ∧
  (RHealthy ready = true ↔ @is_ok () (Err (ErrMsg "refused")) = true ∧ is_ok (Ok ()) = true) ∧
  Identifier <$> ComponentStatuses ready ≡ₚ ["yunikorn"; "postgres"].
Proof.
  apply (@readiness_endpoint ideal_env sample_zap () (w_web sample_wiring) "host" 7 5).
  apply (readiness "host" 7 (@wired_health () 5 (Err (ErrMsg "refused")) (Ok ()))
    [PostgresComponent (Ok ()); YunikornComponent (Err (ErrMsg "refused"))]). apply perm_swap.
Defined.
